(* ===== verification/_CoqProject ===== *)
-Q . S2P
Prelude.v
Text.v
Metrics.v
Codec.v
Proto.v
World.v
Tasks.v
Stage.v
AggGraph.v
StageInv.v
StageGen.v
StageOps.v
AggCover.v
StageSteps.v
Database.v
ProverPool.v
ProverClient.v
Worker.v
WorkerInv.v
WorkerRun.v
TaskManager.v
ManagerThms.v
RunRows.v
SegmentRun.v
Segments.v
SegmentsInv.v
SegmentsThms.v
SplitSched.v
SplitStage.v
SplitTasks.v
SplitSample.v
TaskPred.v
Retry.v
Receipts.v
ReceiptRun.v
RunSample.v
Durations.v
UnitTests.v
RestartSample.v
RunThms.v
RetrySample.v
Config.v
StageService.v
ServiceLemmas.v
ServiceThms.v
ServiceAccept.v
ServiceRun.v
ServiceSample.v
NodeService.v
NodeQueries.v
ProveOpts.v
StartUp.v
StartThms.v
Client.v
ClientThms.v
ClientSample.v
Machine.v
Circuits.v
V1Provers.v
LocalProvers.v
LocalThms.v
ExecutorThms.v
PipelineV2.v
LocalSample.v
AggPred.v
NodeAgg.v
NodeThms.v
NodeSample.v
V1Sample.v
