(* ===== verification/Prelude.v ===== *)
(** * zkm-prover proving service: verification library

    The repository is a service that proves runs of MIPS programs with a zkVM.  A client
    asks the stage service for a proof; the stage service keeps a queue of proofs, and
    for each of them a graph of tasks: split the program into segments, prove every
    segment, aggregate the receipts in a tree, wrap the last one in a SNARK.  It sends
    the tasks to prover nodes, which run the zkVM.  Two builds exist, feature "prover"
    (the first zkVM, [src/prover]) and feature "prover_v2" (the second,
    [src/prover_v2]); definitions that differ take the [Feature], or come in two
    versions.

    ** The parts, the files that model them, and the code

    - the client: [Client] ([examples/stage.rs]: the signed request and the polling);
    - the start of the servers: [StartUp] ([bin/proof-service.rs], [common::tls], the
      registry of nodes in [prover_node.rs]) with [Config] ([config.rs]);
    - the request: [StageService] ([stage_service.rs]: [generate_proof], [get_status],
      [verify_signature]);
    - the queue: [TaskManager] ([stage_worker.rs], [TaskManager]) and the tables,
      [Database] ([database.rs]);
    - one proof: [Tasks] ([stage/tasks]), [Stage] ([stage/stage.rs]: [dispatch], the
      generation of tasks, the getters and the [on_*] handlers), and [Worker]
      ([stage_worker.rs]: [run_stage_task], its loop and its database rows);
    - the nodes seen from the stage: [ProverPool] ([prover_node.rs] and the locks and
      counters of [prover_client.rs]) and [ProverClient] (the requests, and what an
      answer makes of its task);
    - a node: [NodeService] ([prover_service.rs], the contexts and pipelines of both
      features); of the second feature [ProveOpts] ([prover_v2/src/lib.rs]:
      [NetworkProve::new] and the environment variable it goes through), [Machine] and
      [Circuits] ([agg_prover.rs]), [LocalProvers] ([root_prover.rs], [snark_prover.rs],
      [single_node_prover.rs], [Executor::split], the caches of [lib.rs]) and [Segments]
      ([executor.rs]: the threads of [split_with_context]), together in [PipelineV2]; of
      the first [V1Provers] ([src/prover/src]: executor and provers); [NodeQueries] (the
      queries a node answers without looking, and the streams a GPU node loads);
    - [Metrics] ([metrics.rs]: the counters around every handler), and [UnitTests] (the
      repository's own tests, run on the model);
    - what all share: [Prelude], [Text] (Rust's string functions), [Proto] (enums and
      messages), [World] (local files, the object store, identifiers, [common::file]: the
      trait [File] with its local and its S3 files).

    ** How state and operations are rendered

    Rust structs are records with the source's field names, enums are inductive types,
    integers are [Z] with wrap-around written out where the code can leave the width.
    [outcome] has a value or a panic; [Option] and [Result] are values.  A synchronous
    function that touches files or draws UUIDs is a computation of the monad [M] over a
    [World]; a handler of the service is one of [Handler], a node's call one of
    [NodeCall].  [&mut self] is state passing.  Concurrency is a step relation whose
    steps are what happens between two locks or awaits: [call_step] (calls that share the
    nodes and counters), [manager_step] (the queue and its semaphore), [node1_step] (calls
    of one node of feature "prover"), [exec_step] (the threads of a split).  The loop of
    [run_stage_task] is [loop_turn], one turn per event; a run is a list of turns with
    whatever the files, the clock and the answers are in each, so statements about runs
    hold for every order of answers.

    ** The theorems

    - The result ([ReceiptRun], [AggCover], [AggGraph], [Receipts], [SegmentRun]): the
      task graph is a tree that reads all segments in order, and with correct provers the
      final receipt stands for all of them, none dropped, repeated or swapped.
    - Every run ([StageInv], [StageGen], [StageOps], [StageSteps], [WorkerInv],
      [WorkerRun], [TaskPred], [AggPred], [RunThms], [Retry]): the invariant of the task
      graph and its consequences: a finished proof is complete, no task is sent twice or
      before its inputs, the loop never deadlocks, a failed call is tried again as often
      as the code says.
    - The queue ([ManagerThms]): [TaskManager] refines a first-in first-out queue with
      bounded concurrency; [RunRows]: a run that returns leaves its row final and no other
      row changed, so a restart does not repeat it; [Durations]: the times in the rows.
    - The front end ([ServiceLemmas], [ServiceThms], [ServiceAccept], [ServiceRun]): what a
      request must satisfy to be accepted, what is written for it, that its proof starts,
      and what [get_status] serves of it.  [ClientThms]: a client's request is accepted and
      its polling ends with the file of the proof.  [StartThms]: every way a start can go.
      [Metrics]: what the counters count under any interleaving of calls.
    - The split ([SegmentsInv], [SegmentsThms], [SplitSched], [SplitStage],
      [ExecutorThms]): whatever the threads' interleaving, the files are those of a
      sequential execution; the threads never deadlock and stop, so that [Executor::split]
      returns under every scheduler; the stage reads back what was written and makes its
      tasks of it ([SplitTasks]; [PipelineV2] follows a split task to the node and back).
    - The nodes ([ProverPool], [NodeAgg], [NodeThms], [LocalThms]): a node serves one call
      at a time, requests fit the handlers and circuits that take them, the caches make no
      difference, a prover never reads a part of a segment, a SNARK is one of a wrap proof
      that verified.

    The interfaces between components are classes: [Client] (what [Worker] needs of
    [ProverClient]), [NodeApi] (what the client needs of a node, discharged by the
    handlers of both features), [AggPred] (a property of aggregation tasks every operation
    keeps), [FormatLaws] (serialisation).  The files whose name ends in [Sample] hold
    concrete instances and the examples that evaluate the theorems on them; [Codec] is the
    text format they use.

    ** Bounds

    Recursion is structural, except the loops given a list of events or a count:
    [run_loop] (the events of the run), [read_segment] ([MAX_RETRIES], the code's own
    bound), [chunks_go] and [upper_layers] (fuel the length of the list; [AggGraph] proves
    that the generation of the graph always gives a result).  The
    threads of a split follow a list of scheduling decisions, and end when it has more
    than five for a checkpoint, one for a file and one for a worker ([split_steps]); its
    program runs for a given number of checkpoints ([generate_checkpoints]).

    ** Outside the model

    The zkVM, recursion and SNARK provers, the signature and hash functions, TOML, JSON,
    bincode, zstd, MySQL, S3, tonic, tokio and the LRU crate are third-party: parameters,
    as classes with the laws the code relies on ([External], [Json], [Zkvm], [Recursion],
    [RecursionProver], [CoreProver], [Emulator], [Lru], [Tokio], [TurnSync], ...).  Not
    modelled: the page of the metrics server, generated code and build scripts, log texts,
    the handshake of TLS; inside a split the tables of the report of executed
    instructions, and what is on the disk when a thread panics. *)

From stdpp Require Export base tactics list gmap strings sorting relations pretty.
From Stdlib Require Export ZArith Lia.
From Stdlib Require Export Strings.Byte.

#[global] Open Scope Z_scope.
#[export] Set Default Goal Selector "!".
#[export] Set Warnings "-clear-no-such-hyp".

(** ** Machine integers

    Rust integers are mathematical integers [Z]; where the code can leave the
    width, the wrap-around of a release build is written out. *)

Definition u32_wrap (z : Z) : Z := z mod 2 ^ 32.
Definition u64_wrap (z : Z) : Z := z mod 2 ^ 64.
Definition i32_wrap (z : Z) : Z := (z + 2 ^ 31) mod 2 ^ 32 - 2 ^ 31.
Definition usize_MAX : Z := 2 ^ 64 - 1.

Lemma u32_wrap_small z : 0 ≤ z < 2 ^ 32 → u32_wrap z = z.
Proof. apply Z.mod_small. Qed.

Lemma u64_wrap_small z : 0 ≤ z < 2 ^ 64 → u64_wrap z = z.
Proof. apply Z.mod_small. Qed.

(** [Vec::len] *)
Abbreviation len l := (Z.of_nat (length l)).

(** ** Byte strings *)

Abbreviation bytes := (list byte).
#[export] Instance byte_EqDecision : EqDecision byte := Byte.byte_eq_dec.

(** ** Outcomes

    A call either returns a value or panics (a failed [assert!], an [unwrap] on
    [None]/[Err], an index out of bounds, [todo!()]).  Rust's [Option] and
    [Result] values are ordinary values of the model. *)

Inductive outcome (A : Type) : Type :=
  | Ret (a : A)
  | Panic.
Arguments Ret {A} a.
Arguments Panic {A}.

#[export] Instance outcome_ret : MRet outcome := @Ret.
#[export] Instance outcome_bind : MBind outcome := λ A B k o,
  match o with Ret a => k a | Panic => Panic end.
#[export] Instance outcome_fmap : FMap outcome := λ A B f o,
  match o with Ret a => Ret (f a) | Panic => Panic end.

(** [Option::unwrap] *)
Definition unwrap {A} (o : option A) : outcome A :=
  match o with Some a => Ret a | None => Panic end.

(** [assert!] *)
Definition rust_assert (b : bool) : outcome () :=
  if b then Ret tt else Panic.

Lemma bind_Ret {A B} (o : outcome A) (k : A → outcome B) b :
  (o ≫= k) = Ret b ↔ ∃ a, o = Ret a ∧ k a = Ret b.
Proof.
  destruct o as [a|]; (split; [|by intros (?&[=]&?); subst]);
    [by exists a|done].
Qed.

Lemma unwrap_Ret {A} (o : option A) a : unwrap o = Ret a ↔ o = Some a.
Proof. destruct o; (split; intros [=]); by subst. Qed.

Lemma rust_assert_Ret b u : rust_assert b = Ret u ↔ b = true.
Proof. by destruct b, u. Qed.

Definition is_Ret {A} (o : outcome A) : bool :=
  match o with Ret _ => true | Panic => false end.

(** ** Record update

    [r <| f := v |>] is the record [r] with the field of projection [f] replaced.
    A record becomes updatable by giving its eta-expansion as a [Settable]
    instance; the setter of a field abstracts the projection out of it. *)

Class Settable (R : Type) := rebuild : R → R.
Class Setter {R T : Type} (proj : R → T) := set_field : (T → T) → R → R.
Arguments set_field {R T} proj {_} _ _ /.

Ltac derive_setter :=
  lazymatch goal with
  | |- @Setter ?R ?T ?proj =>
      let inst := constr:(_ : Settable R) in
      let body := eval red in inst in
      let abs := eval pattern proj in body in
      lazymatch abs with
      | ?g _ =>
          let s := constr:(λ (f : T → T) (r : R), g (λ r' : R, f (proj r')) r) in
          let s := eval cbv beta in s in
          exact s
      end
  end.
#[export] Hint Extern 0 (Setter _) => derive_setter : typeclass_instances.

Declare Scope record_scope.
Delimit Scope record_scope with rec.
#[warnings="-postfix-notation-not-level-1"]
Notation "r <| p := v |>" := (set_field p (λ _, v) r)
  (at level 12, left associativity, p at level 60, format "r  <|  p  :=  v  |>")
  : record_scope.
#[global] Open Scope record_scope.

(** ** Lists *)

Lemma omap_nil {A B} (f : A → option B) l : (∀ a, a ∈ l → f a = None) → omap f l = [].
Proof.
  induction l as [|a l IH]; intros H; [done|]. cbn. rewrite H by set_solver.
  apply IH. set_solver.
Qed.

Lemma NoDup_omap {A B} (f : A → option B) l :
  (∀ a b c, f a = Some c → f b = Some c → a = b) → NoDup l → NoDup (omap f l).
Proof.
  intros Hf. induction 1 as [|a l Ha _ IH]; cbn; [constructor|].
  destruct (f a) as [c|] eqn:Hc; [|done]. constructor; [|done].
  intros (b&Hb&Hbc)%list_elem_of_omap. by rewrite (Hf a b c) in Ha.
Qed.

(** Update the first element that satisfies a test: the shape of the loops
    [for x in &mut v { if test(x) { body; break; } }]. *)
Fixpoint update_first {A} (test : A → bool) (f : A → A) (l : list A) : list A :=
  match l with
  | [] => []
  | x :: l => if test x then f x :: l else x :: update_first test f l
  end.

Fixpoint find_first {A} (test : A → bool) (l : list A) : option A :=
  match l with
  | [] => None
  | x :: l => if test x then Some x else find_first test l
  end.

Lemma length_update_first {A} test (f : A → A) l :
  length (update_first test f l) = length l.
Proof. induction l; simpl; [done|]. case_match; simpl; congruence. Qed.

Lemma find_first_Some {A} test (l : list A) x :
  find_first test l = Some x → x ∈ l ∧ test x = true.
Proof.
  induction l as [|y l IH]; simpl; [done|].
  case_match; intros; simplify_eq; [by split; [left|]|].
  destruct IH; [done|]. split; [by right|done].
Qed.

Lemma find_first_None {A} test (l : list A) :
  find_first test l = None ↔ Forall (λ x, test x = false) l.
Proof.
  induction l as [|y l IH]; simpl; [by split|].
  rewrite Forall_cons, <-IH. case_match; (split; [by auto|intros [? ?]; congruence]).
Qed.

(** The first match is split off: the update touches that element only. *)
Lemma update_first_split {A} test (f : A → A) l :
  (update_first test f l = l ∧ Forall (λ x, test x = false) l) ∨
  (∃ l1 x l2, l = l1 ++ x :: l2 ∧ test x = true ∧
     Forall (λ y, test y = false) l1 ∧ update_first test f l = l1 ++ f x :: l2).
Proof.
  induction l as [|x l IH]; simpl; [by left|].
  destruct (test x) eqn:E.
  - right. by exists [], x, l.
  - destruct IH as [[-> H]|(l1&y&l2&->&?&?&->)].
    + left. by split; [|constructor].
    + right. exists (x :: l1), y, l2. split_and!; [done..|by constructor|done].
Qed.

Lemma find_first_split {A} test (f : A → A) l x :
  find_first test l = Some x →
  ∃ l1 l2, l = l1 ++ x :: l2 ∧ update_first test f l = l1 ++ f x :: l2.
Proof.
  induction l as [|y l IH]; simpl; [done|]. destruct (test y).
  - intros [= ->]. by exists [], l.
  - intros (l1&l2&->&->)%IH. by exists (y :: l1), l2.
Qed.

Lemma update_first_Forall {A} (P : A → Prop) test f l :
  (∀ x, x ∈ l → P x → test x = true → P (f x)) →
  Forall P l → Forall P (update_first test f l).
Proof.
  intros Hf HP. destruct (update_first_split test f l)
    as [[-> _]|(l1&x&l2&->&?&?&->)]; [done|].
  apply Forall_app in HP as [? [? ?]%Forall_cons].
  apply Forall_app; split; [done|]. constructor; [|done].
  apply Hf; [|done..]. set_solver.
Qed.

Lemma fmap_update_first {A B} (g : A → B) test f l :
  (∀ x, x ∈ l → test x = true → g (f x) = g x) →
  g <$> update_first test f l = g <$> l.
Proof.
  intros Hg. destruct (update_first_split test f l)
    as [[-> _]|(l1&x&l2&->&?&?&->)]; [done|].
  rewrite !fmap_app, !fmap_cons. do 2 f_equal. apply Hg; [set_solver|done].
Qed.

Lemma insert_split {A} (l : list A) i x y :
  l !! i = Some x → ∃ l1 l2, l = l1 ++ x :: l2 ∧ <[i:=y]> l = l1 ++ y :: l2.
Proof.
  intros Hi. exists (take i l), (drop (S i) l). split.
  - symmetry. by apply take_drop_middle.
  - rewrite insert_take_drop; [done|]. by eapply lookup_lt_Some.
Qed.

(** Counting: the sum of what each element adds. *)
Definition one (b : bool) : Z := if b then 1 else 0.
Fixpoint total {A} (f : A → Z) (l : list A) : Z :=
  match l with [] => 0 | x :: l => f x + total f l end.

Lemma total_app {A} (f : A → Z) l k : total f (l ++ k) = total f l + total f k.
Proof. induction l as [|x l IH]; simpl; [done|]. rewrite IH. lia. Qed.
Lemma total_nonneg {A} (f : A → Z) l : (∀ x, 0 ≤ f x) → 0 ≤ total f l.
Proof. intros Hf. induction l as [|x l IH]; simpl; [done|]. specialize (Hf x). lia. Qed.
Lemma total_insert {A} (f : A → Z) l i x y :
  l !! i = Some x → total f (<[i:=y]> l) = total f l - f x + f y.
Proof.
  intros (l1&l2&->&->)%(insert_split _ _ _ y). rewrite !total_app. simpl. lia.
Qed.
Lemma total_add {A} (f g h : A → Z) l :
  (∀ x, f x = g x + h x) → total f l = total g l + total h l.
Proof. intros Hf. induction l as [|x l IH]; simpl; [done|]. rewrite IH, Hf. lia. Qed.
Lemma one_range b : 0 ≤ one b ≤ 1.
Proof. destruct b; simpl; lia. Qed.

Lemma omap_cons_opt {A B} (f : A → option B) x l :
  omap f (x :: l) = option_list (f x) ++ omap f l.
Proof. simpl. by destruct (f x). Qed.

Lemma delete_split {A} (l : list A) i x :
  l !! i = Some x → ∃ l1 l2, l = l1 ++ x :: l2 ∧ delete i l = l1 ++ l2.
Proof.
  intros Hi. exists (take i l), (drop (S i) l). split.
  - symmetry. by apply take_drop_middle.
  - apply delete_take_drop.
Qed.

(** [slice::chunks(n)]; [n = 0] panics in Rust and is not used. *)
Fixpoint chunks_go {A} (fuel n : nat) (l : list A) : list (list A) :=
  match fuel, l with
  | O, _ | _, [] => []
  | S fuel, _ => take n l :: chunks_go fuel n (drop n l)
  end.
Definition chunks {A} (n : nat) (l : list A) : list (list A) :=
  chunks_go (length l) n l.

(** [(lo..hi).step_by(k)] *)
Definition step_by (lo hi k : nat) : list nat :=
  (λ j, lo + j * k)%nat <$> seq 0 ((hi - lo + (k - 1)) / k)%nat.

Lemma concat_chunks_go {A} fuel n (l : list A) :
  (0 < n)%nat → (length l ≤ fuel)%nat → concat (chunks_go fuel n l) = l.
Proof.
  intros Hn. revert l. induction fuel as [|fuel IH]; intros [|x l] Hl; simpl in *;
    [done|lia|done|].
  destruct n as [|n]; [lia|]. simpl. f_equal. rewrite IH, take_drop; [done|].
  rewrite length_drop. lia.
Qed.

Lemma concat_chunks {A} n (l : list A) : (0 < n)%nat → concat (chunks n l) = l.
Proof. intros. by apply concat_chunks_go. Qed.

Lemma chunks_go_nonempty {A} fuel n (l : list A) :
  (0 < n)%nat → Forall (λ c, c ≠ []) (chunks_go fuel n l).
Proof.
  intros Hn. revert l. induction fuel as [|fuel IH]; intros [|x l]; simpl;
    [constructor..|]. constructor; [|apply IH]. by destruct n; [lia|].
Qed.

Lemma chunks_nonempty {A} n (l : list A) :
  (0 < n)%nat → Forall (λ c, c ≠ []) (chunks n l).
Proof. apply chunks_go_nonempty. Qed.

Lemma chunks_go_fuel {A} fuel fuel' n (l : list A) :
  (0 < n)%nat → (length l ≤ fuel)%nat → (length l ≤ fuel')%nat →
  chunks_go fuel n l = chunks_go fuel' n l.
Proof.
  intros Hn. revert fuel' l. induction fuel as [|fuel IH];
    intros [|fuel'] [|x l] H1 H2; simpl in *; try done; try lia.
  f_equal. apply IH; rewrite length_drop; simpl; lia.
Qed.

Lemma length_chunks_go {A} fuel n (l : list A) :
  (0 < n)%nat → (length l ≤ fuel)%nat →
  length (chunks_go fuel n l) = ((length l + (n - 1)) / n)%nat.
Proof.
  intros Hn. revert l. induction fuel as [|fuel IH]; intros l Hl.
  - destruct l; [|simpl in Hl; lia]. simpl. symmetry. apply Nat.div_small. lia.
  - destruct l as [|x l].
    + simpl. symmetry. apply Nat.div_small. lia.
    + cbn [chunks_go]. cbn [length]. rewrite IH; rewrite length_drop; cbn [length] in *; [|lia].
      destruct (decide (S (length l) ≤ n)%nat).
      * replace (S (length l) - n)%nat with 0%nat by lia.
        rewrite Nat.div_small by lia. symmetry.
        replace (S (length l) + (n - 1))%nat with (1 * n + length l)%nat by lia.
        rewrite Nat.div_add_l by lia. rewrite Nat.div_small by lia. lia.
      * replace (S (length l) + (n - 1))%nat
          with (1 * n + (S (length l) - n + (n - 1)))%nat by lia.
        rewrite Nat.div_add_l by lia. lia.
Qed.

Lemma length_chunks {A} n (l : list A) :
  (0 < n)%nat → length (chunks n l) = ((length l + (n - 1)) / n)%nat.
Proof. intros. by apply length_chunks_go. Qed.

#[global] Arguments Nat.div : simpl never.
#[global] Arguments Nat.modulo : simpl never.
#[global] Arguments Nat.odd : simpl never.
#[global] Arguments Nat.even : simpl never.

(** Arithmetic with halves: gives [lia] the quotient and the remainder of [n / 2]. *)
Ltac halve n :=
  pose proof (Nat.div_mod_eq n 2); pose proof (Nat.mod_upper_bound n 2 ltac:(lia)).
