(* ===== verification/Text.v ===== *)
(** * Text: the string operations of Rust's standard library the service uses

    Strings are the byte strings [string] of the Rocq library (UTF-8 text is its
    bytes); [pretty] is [format!("{}", n)] of an unsigned integer. *)

From S2P Require Import Prelude.
From Stdlib Require Import Ascii String ZifyN ZifyBool.
From stdpp Require Import strings pretty.

#[global] Open Scope string_scope.
#[global] Open Scope list_scope.
#[global] Open Scope Z_scope.

(** The empty string. *)
Abbreviation empty_str := EmptyString.

(** [str::strip_prefix] *)
Fixpoint strip_prefix (pre s : string) : option string :=
  match pre, s with
  | EmptyString, _ => Some s
  | String c pre, String d s => if Ascii.eqb c d then strip_prefix pre s else None
  | String _ _, EmptyString => None
  end.

(** [str::starts_with] *)
Definition starts_with (pre s : string) : bool :=
  match strip_prefix pre s with Some _ => true | None => false end.

(** [str::split_once] of a one-byte separator: split at the first occurrence. *)
Fixpoint split_once (sep : ascii) (s : string) : option (string * string) :=
  match s with
  | EmptyString => None
  | String c s =>
      if Ascii.eqb c sep then Some (empty_str, s)
      else '(a, b) ← split_once sep s; Some (String c a, b)
  end.

(** [str::rsplit_once]: split at the last occurrence. *)
Fixpoint rsplit_once (sep : ascii) (s : string) : option (string * string) :=
  match s with
  | EmptyString => None
  | String c s =>
      match rsplit_once sep s with
      | Some (a, b) => Some (String c a, b)
      | None => if Ascii.eqb c sep then Some (empty_str, s) else None
      end
  end.

(** [str::split] on a one-byte separator. *)
Fixpoint split_on (sep : ascii) (s : string) : list string :=
  match s with
  | EmptyString => [empty_str]
  | String c s =>
      if Ascii.eqb c sep then empty_str :: split_on sep s
      else match split_on sep s with
           | [] => [String c empty_str]
           | w :: ws => String c w :: ws
           end
  end.

(** [str::ends_with] of a one-byte suffix. *)
Fixpoint ends_with (c : ascii) (s : string) : bool :=
  match s with
  | EmptyString => false
  | String d EmptyString => Ascii.eqb c d
  | String _ s => ends_with c s
  end.

Fixpoint contains (c : ascii) (s : string) : bool :=
  match s with
  | EmptyString => false
  | String d s => Ascii.eqb c d || contains c s
  end.

Definition is_empty (s : string) : bool :=
  match s with EmptyString => true | _ => false end.

(** [str::trim_start_matches("0x")]: every leading "0x" goes. *)
Fixpoint trim_start_0x (s : string) : string :=
  match s with
  | String "0" (String "x" s') => trim_start_0x s'
  | _ => s
  end.

(** ** [str::trim]

    The characters with the Unicode property White_Space, by their UTF-8 bytes. *)

Definition code (c : ascii) : N := N_of_ascii c.

(** The one-, two- and three-byte white-space characters. *)
Definition ws1 (b : N) : bool :=
  ((9 <=? b) && (b <=? 13) || (b =? 32))%N.
Definition ws2 (b c : N) : bool :=
  ((b =? 194) && ((c =? 133) || (c =? 160)))%N.
Definition ws3 (b c d : N) : bool :=
  ((b =? 225) && (c =? 154) && (d =? 128)
   || (b =? 226) && (c =? 128)
      && ((128 <=? d) && (d <=? 138) || (d =? 168) || (d =? 169) || (d =? 175))
   || (b =? 226) && (c =? 129) && (d =? 159)
   || (b =? 227) && (c =? 128) && (d =? 128))%N.

(** Length in bytes of the white-space character a byte list starts with (0 when
    it starts with none); [ws_tail] reads the list in reverse. *)
Definition ws_head (s : list N) : nat :=
  match s with
  | b :: s' =>
      if ws1 b then 1%nat else
      match s' with
      | c :: s'' =>
          if ws2 b c then 2%nat else
          match s'' with
          | d :: _ => if ws3 b c d then 3%nat else 0%nat
          | [] => 0%nat
          end
      | [] => 0%nat
      end
  | [] => 0%nat
  end.

Definition ws_tail (s : list N) : nat :=
  match s with
  | d :: s' =>
      if ws1 d then 1%nat else
      match s' with
      | c :: s'' =>
          if ws2 c d then 2%nat else
          match s'' with
          | b :: _ => if ws3 b c d then 3%nat else 0%nat
          | [] => 0%nat
          end
      | [] => 0%nat
      end
  | [] => 0%nat
  end.

Fixpoint drop_while_ws (ws : list N → nat) (fuel : nat) (s : list N) : list N :=
  match fuel with
  | O => s
  | S fuel => match ws s with O => s | k => drop_while_ws ws fuel (drop k s) end
  end.

Definition trim_codes (s : list N) : list N :=
  let s := drop_while_ws ws_head (length s) s in
  rev (drop_while_ws ws_tail (length s) (rev s)).

Definition trim (s : string) : string :=
  string_of_list_ascii
    (ascii_of_N <$> trim_codes (code <$> list_ascii_of_string s)).

(** ** [String::from_utf8]: well-formed UTF-8 (Unicode, table 3-7) *)

Definition utf8_cont (b : N) : bool := ((128 <=? b) && (b <=? 191))%N.
Definition utf8_2 (b c : N) : bool := ((194 <=? b) && (b <=? 223) && utf8_cont c)%N.
Definition utf8_3 (b c d : N) : bool :=
  (((b =? 224) && (160 <=? c) && (c <=? 191)
    || (225 <=? b) && (b <=? 236) && utf8_cont c
    || (b =? 237) && (128 <=? c) && (c <=? 159)
    || (238 <=? b) && (b <=? 239) && utf8_cont c) && utf8_cont d)%N.
Definition utf8_4 (b c d e : N) : bool :=
  (((b =? 240) && (144 <=? c) && (c <=? 191)
    || (241 <=? b) && (b <=? 243) && utf8_cont c
    || (b =? 244) && (128 <=? c) && (c <=? 143)) && utf8_cont d && utf8_cont e)%N.

Fixpoint utf8_valid (s : list N) : bool :=
  match s with
  | [] => true
  | b :: s' =>
      if (b <? 128)%N then utf8_valid s' else
      match s' with
      | c :: s'' =>
          if utf8_2 b c then utf8_valid s'' else
          match s'' with
          | d :: s3 =>
              if utf8_3 b c d then utf8_valid s3 else
              match s3 with
              | e :: s4 => if utf8_4 b c d e then utf8_valid s4 else false
              | [] => false
              end
          | [] => false
          end
      | [] => false
      end
  end.

Definition from_utf8 (s : bytes) : option string :=
  if utf8_valid (Byte.to_N <$> s) then Some (string_of_list_byte s) else None.

(** ** [str::parse::<usize>] *)

Definition digit (c : ascii) : option Z :=
  let n := Z.of_N (code c) in
  if (48 <=? n) && (n <=? 57) then Some (n - 48) else None.

Fixpoint parse_digits (acc : Z) (s : string) : option Z :=
  match s with
  | EmptyString => Some acc
  | String c s => d ← digit c; parse_digits (10 * acc + d) s
  end.

(** An optional [+], at least one digit, digits only, at most [usize::MAX]. *)
Definition parse_usize (s : string) : option Z :=
  let body := match s with String "+" s' => s' | _ => s end in
  match body with
  | EmptyString => None
  | _ => n ← parse_digits 0 body; if n <=? usize_MAX then Some n else None
  end.

(** ** Decimal text round trip *)

Lemma digit_pretty x : (x < 10)%N → digit (pretty_N_char x) = Some (Z.of_N x).
Proof.
  intros H. assert (x ∈ [0;1;2;3;4;5;6;7;8;9]%N) as Hx.
  { rewrite !elem_of_cons, elem_of_nil. lia. }
  clear H. repeat (apply elem_of_cons in Hx as [->|Hx]; [reflexivity|]).
  by apply elem_of_nil in Hx.
Qed.

Lemma parse_digits_pretty_go x s :
  parse_digits 0 (pretty_N_go x s) = parse_digits (Z.of_N x) s.
Proof.
  revert s. induction (N.lt_wf_0 x) as [x _ IH]; intros s.
  destruct (decide (x = 0)%N) as [->|Hx]; [by rewrite pretty_N_go_0|].
  rewrite pretty_N_go_step by lia.
  rewrite IH by (apply N.div_lt; lia). cbn [parse_digits].
  rewrite digit_pretty by (apply N.mod_lt; lia).
  cbn [mbind option_bind]. f_equal.
  rewrite N2Z.inj_div, N2Z.inj_mod. symmetry. by apply Z.div_mod.
Qed.

Lemma pretty_N_go_nonempty x s : (0 < x)%N → pretty_N_go x s ≠ empty_str.
Proof.
  revert s. induction (N.lt_wf_0 x) as [x _ IH]; intros s Hx.
  rewrite pretty_N_go_step by done.
  destruct (decide (x `div` 10 = 0)%N) as [->|]; [by rewrite pretty_N_go_0|].
  apply IH; [apply N.div_lt; lia|by apply N.neq_0_lt_0].
Qed.

Lemma pretty_N_first (x : N) :
  ∃ c s, pretty x = String c s ∧ is_Some (digit c).
Proof.
  unfold pretty, pretty_N. case_decide as Hx; [by eexists _, _|].
  assert (∀ x s, (0 < x)%N → ∃ c t, pretty_N_go x s = String c t ∧ is_Some (digit c))
    as Hgo; [|apply Hgo; lia].
  clear x Hx. intros x. induction (N.lt_wf_0 x) as [x _ IH]; intros s Hx.
  rewrite pretty_N_go_step by done.
  destruct (decide (x `div` 10 = 0)%N) as [->|].
  - rewrite pretty_N_go_0. eexists _, _. split; [done|].
    rewrite digit_pretty; [done|]. apply N.mod_lt; lia.
  - apply IH; [apply N.div_lt; lia|by apply N.neq_0_lt_0].
Qed.

(** Text of a number, read back. *)
Lemma parse_usize_pretty (x : N) :
  Z.of_N x ≤ usize_MAX → parse_usize (pretty x) = Some (Z.of_N x).
Proof.
  intros Hx. unfold parse_usize.
  destruct (pretty_N_first x) as (c&s&Hs&Hd).
  assert (match pretty x with String "+" s' => s' | _ => pretty x end = pretty x)
    as ->.
  { rewrite Hs. repeat case_match; try done; subst; by destruct Hd. }
  rewrite Hs at 1.
  assert (parse_digits 0 (pretty x) = Some (Z.of_N x)) as ->.
  { unfold pretty, pretty_N. case_decide; [by subst|].
    by rewrite parse_digits_pretty_go. }
  simpl. by rewrite (proj2 (Z.leb_le _ _) Hx).
Qed.

(** ** Lemmas *)

Lemma str_app_assoc (a b c : string) : (a +:+ b) +:+ c = a +:+ (b +:+ c).
Proof.
  induction a as [|x a IH]; [done|].
  change (String x ((a +:+ b) +:+ c) = String x (a +:+ (b +:+ c))). by rewrite IH.
Qed.

Lemma str_app_nil_r (a : string) : a +:+ empty_str = a.
Proof.
  induction a as [|x a IH]; [done|].
  change (String x (a +:+ empty_str) = String x a). by rewrite IH.
Qed.

Lemma strip_prefix_app pre s : strip_prefix pre (pre +:+ s) = Some s.
Proof. induction pre as [|c pre IH]; simpl; [done|]. by rewrite Ascii.eqb_refl. Qed.

Lemma strip_prefix_Some pre s t : strip_prefix pre s = Some t → s = pre +:+ t.
Proof.
  revert s. induction pre as [|c pre IH]; intros [|d s]; simpl; try naive_solver.
  destruct (Ascii.eqb_spec c d); [|done]. intros ?%IH. by subst.
Qed.

Lemma rsplit_once_app a n :
  contains "/" n = false → rsplit_once "/" (a +:+ "/" +:+ n) = Some (a, n).
Proof.
  intros Hn. assert (rsplit_once "/" n = None) as Hr.
  { revert Hn. induction n as [|c n IH]; [done|]. cbn -[Ascii.eqb].
    intros [Hc Hn]%orb_false_iff. by rewrite IH, Ascii.eqb_sym, Hc. }
  induction a as [|c a IH].
  - change (rsplit_once "/" (String "/" n) = Some (empty_str, n)). simpl. by rewrite Hr.
  - change (rsplit_once "/" (String c (a +:+ "/" +:+ n)) = Some (String c a, n)).
    simpl. by rewrite IH.
Qed.

Lemma split_once_app sep a b :
  contains sep a = false → split_once sep (a +:+ String sep b) = Some (a, b).
Proof.
  induction a as [|c a IH]; simpl; [by rewrite Ascii.eqb_refl|].
  intros [Hc Ha]%orb_false_iff. rewrite Ascii.eqb_sym, Hc, IH; done.
Qed.

Lemma split_once_Some sep s a b :
  split_once sep s = Some (a, b) → s = a +:+ String sep b ∧ contains sep a = false.
Proof.
  revert a. induction s as [|c s IH]; intros a; simpl; [done|].
  destruct (Ascii.eqb_spec c sep); [intros [= <- <-]; by subst|].
  destruct (split_once sep s) as [[a' b']|]; simpl; [|done].
  intros [= <- <-]. destruct (IH a') as [-> Ha]; [done|]. split; [done|]. simpl.
  rewrite Ha, orb_false_r. apply Ascii.eqb_neq. congruence.
Qed.

(** ** The characters of a number *)

Definition digits (s : string) : Prop :=
  Forall (λ c, is_Some (digit c)) (list_ascii_of_string s).

Lemma digit_code c : is_Some (digit c) → (48 ≤ code c ≤ 57)%N.
Proof. unfold digit. intros [z Hz]. destruct (_ && _) eqn:E in Hz; [|done]. lia. Qed.

Lemma parse_digits_digits acc s n : parse_digits acc s = Some n → digits s.
Proof.
  unfold digits. revert acc. induction s as [|c s IH]; intros acc; cbn [parse_digits]; [constructor|].
  intros (d&Hd&Hs)%bind_Some. cbn. constructor; [by exists d|by eapply IH].
Qed.

Lemma digits_pretty (x : N) : digits (pretty x).
Proof.
  apply (parse_digits_digits 0 _ (Z.of_N x)). unfold pretty, pretty_N.
  case_decide; [by subst|]. by rewrite parse_digits_pretty_go.
Qed.

Lemma digits_no_slash s : digits s → contains "/" s = false.
Proof.
  unfold digits. induction s as [|c s IH]; [done|]. cbn [contains list_ascii_of_string]. intros H.
  inversion H as [|? ? Hc Hs]; subst. rewrite IH, orb_false_r by done.
  apply Ascii.eqb_neq. intros <-. by destruct Hc.
Qed.

(** The last character of a text. *)
Definition last_char (s : string) : option ascii := last (list_ascii_of_string s).

Lemma list_ascii_app s t :
  list_ascii_of_string (s +:+ t) =
    list_ascii_of_string s ++ list_ascii_of_string t.
Proof.
  induction s as [|c s IH]; [done|].
  change (c :: list_ascii_of_string (s +:+ t) =
          c :: (list_ascii_of_string s ++ list_ascii_of_string t)). by rewrite IH.
Qed.
Lemma last_char_app s t c : last_char t = Some c → last_char (s +:+ t) = Some c.
Proof. unfold last_char. rewrite list_ascii_app, last_app. by intros ->. Qed.
(** A number ends in a digit. *)
Lemma last_char_digits s t : digits s → last_char (t +:+ s) = Some "p"%char → s = empty_str.
Proof.
  unfold digits. intros Hs. destruct (last_char s) as [c|] eqn:Hc.
  - intros Ht. rewrite (last_char_app _ _ _ Hc) in Ht. injection Ht as ->.
    unfold last_char in Hc. apply last_Some_elem_of in Hc.
    rewrite Forall_forall in Hs. by destruct (Hs _ Hc).
  - intros _. unfold last_char in Hc. apply last_None in Hc. by destruct s.
Qed.

(** A larger number has no shorter text. *)
Lemma pretty_N_go_length x y s t :
  (x ≤ y)%N → (String.length s ≤ String.length t)%nat →
  (String.length (pretty_N_go x s) ≤ String.length (pretty_N_go y t))%nat.
Proof.
  revert x s t. induction (N.lt_wf_0 y) as [y _ IH]; intros x s t Hxy Hst.
  destruct (decide (y = 0)%N) as [->|Hy].
  { assert (x = 0)%N as -> by lia. by rewrite !pretty_N_go_0. }
  assert (y `div` 10 < y)%N as Hlt by (apply N.div_lt; lia).
  rewrite (pretty_N_go_step y) by lia. destruct (decide (x = 0)%N) as [->|Hx].
  - rewrite pretty_N_go_0, <-(pretty_N_go_0 s). apply IH; [done|lia|]. cbn. lia.
  - rewrite (pretty_N_go_step x) by lia. apply IH; [done| |cbn; lia].
    by apply N.Div0.div_le_mono.
Qed.
Lemma pretty_N_length (x y : N) :
  (x ≤ y)%N → (String.length (pretty x) ≤ String.length (pretty y))%nat.
Proof.
  intros Hxy. unfold pretty, pretty_N. case_decide as Hx; case_decide as Hy; [done| |lia|].
  - rewrite pretty_N_go_step by lia.
    rewrite <-(pretty_N_go_0 "0"). apply pretty_N_go_length; [lia|done].
  - by apply pretty_N_go_length.
Qed.

Lemma contains_app c s t : contains c (s +:+ t) = contains c s || contains c t.
Proof. induction s as [|d s IH]; [done|]. cbn [String.app contains]. by rewrite <-orb_assoc, <-IH. Qed.

Lemma contains_pretty_Z (z : Z) : contains "/" (pretty z) = false.
Proof.
  assert (∀ p : positive, contains "/" (pretty p) = false) as Hp
    by (intros p; apply digits_no_slash, (digits_pretty (Npos p))).
  destruct z as [|p|p]; cbn [pretty pretty_Z]; [done|apply Hp|].
  rewrite contains_app. apply Hp.
Qed.

(** ** Splitting at a separator *)

Lemma split_on_cons c s : ∃ w ws, split_on c s = w :: ws.
Proof.
  destruct s as [|d s]; [by eexists _, _|]. cbn [split_on].
  destruct (Ascii.eqb d c); [by eexists _, _|]. destruct (split_on c s); by eexists _, _.
Qed.
Lemma split_on_app sep a b :
  split_on sep (a +:+ String sep b) = split_on sep a ++ split_on sep b.
Proof.
  induction a as [|c a IH].
  - change (split_on sep (String sep b) = empty_str :: split_on sep b).
    cbn [split_on]. by rewrite Ascii.eqb_refl.
  - change (split_on sep (String c (a +:+ String sep b)) = split_on sep (String c a) ++ split_on sep b).
    cbn [split_on]. rewrite IH. destruct (Ascii.eqb c sep); [done|].
    destruct (split_on_cons sep a) as (w&ws&->). done.
Qed.
Lemma split_on_none sep s : contains sep s = false → split_on sep s = [s].
Proof.
  induction s as [|c s IH]; [done|]. cbn [contains split_on].
  intros [Hc Hs]%orb_false_iff. by rewrite Ascii.eqb_sym, Hc, IH.
Qed.
