(* ===== verification/Metrics.v ===== *)
(** * Metrics: the counters of the services ([proof-service/src/metrics.rs])

    Every handler of both services runs inside [record_metrics], which counts the call
    when it starts and observes its time when the handler has answered.  A handler that
    panics, or whose client goes away, is dropped where it waits: it is counted and never
    observed.  Any number of calls run at a time. *)

From S2P Require Import Prelude.

(** ** The registry

    The collectors of the process ([prometheus], third-party) with what they hold; a
    counter is an [f64], exact below [2^53]. *)

Inductive Collector := REQ_COUNTER_VEC | METHOD_HISTOGRAM_VEC | SEGMENTS_GAUGE.
#[export] Instance Collector_eq : EqDecision Collector.
Proof. solve_decision. Defined.

Record Metrics := mkMetrics {
  mt_registered : list Collector;
  (** the calls of each method *)
  mt_request_counter : gmap string Z;
  (** the observed times of each method, in nanoseconds, the last first *)
  mt_method_cost : gmap string (list Z);
  mt_segment_count : Z
}.
#[export] Instance Metrics_settable : Settable Metrics := λ r,
  mkMetrics (mt_registered r) (mt_request_counter r) (mt_method_cost r)
    (mt_segment_count r).

(** The statics of the module. *)
Definition metrics_start : Metrics := mkMetrics [] ∅ ∅ 0.

(** A collector registers once; [init_registry] ignores the error. *)
Definition register (c : Collector) (m : Metrics) : Metrics :=
  if decide (c ∈ mt_registered m) then m
  else m <| mt_registered := mt_registered m ++ [c] |>.
Definition init_registry (m : Metrics) : Metrics :=
  register SEGMENTS_GAUGE (register METHOD_HISTOGRAM_VEC (register REQ_COUNTER_VEC m)).

Definition inc (method : string) (m : Metrics) : Metrics :=
  m <| mt_request_counter := <[method := default 0 (mt_request_counter m !! method) + 1]>
                               (mt_request_counter m) |>.
Definition observe (method : string) (elapsed : Z) (m : Metrics) : Metrics :=
  m <| mt_method_cost := <[method := elapsed :: default [] (mt_method_cost m !! method)]>
                           (mt_method_cost m) |>.

(** A stage sets the gauge while it reads its segments ([stage.rs]). *)
Definition set_segments (n : Z) (m : Metrics) : Metrics := m <| mt_segment_count := n |>.

(** ** record_metrics, call by call *)

Section calls.
(** The results of the handlers: a response or a status. *)
Context {T : Type}.

Inductive MethodPhase :=
  | Called
  | Handling (start : Z)
  | Returned (result : T)
  | Dropped (begun : bool).
Record MethodCall := mkMethodCall { mc_method : string; mc_phase : MethodPhase }.

(** What ends the wait of a call: its task runs for the first time at [now], its handler
    answers [result] at [now], or it is dropped. *)
Inductive MethodEvent := Poll (now : Z) | Answer (now : Z) (result : T) | Drop.

(** [Instant::elapsed] is never negative. *)
Definition elapsed (start now : Z) : Z := Z.max 0 (now - start).

Definition record_metrics (ev : MethodEvent) (c : MethodCall) (m : Metrics) :
    option (MethodPhase * Metrics) :=
  match mc_phase c, ev with
  | Called, Poll now => Some (Handling now, inc (mc_method c) m)
  | Handling start, Answer now result =>
      Some (Returned result, observe (mc_method c) (elapsed start now) m)
  | Called, Drop => Some (Dropped false, m)
  | Handling _, Drop => Some (Dropped true, m)
  | _, _ => None
  end.

Record Served := mkServed { sv_metrics : Metrics; sv_calls : list MethodCall }.

Inductive served_step : Served → Served → Prop :=
  | served_arrives m cs method :
      served_step (mkServed m cs) (mkServed m (cs ++ [mkMethodCall method Called]))
  | served_event m cs i c ev ph m' :
      cs !! i = Some c → record_metrics ev c m = Some (ph, m') →
      served_step (mkServed m cs) (mkServed m' (<[i := mkMethodCall (mc_method c) ph]> cs))
  | served_gauge m cs n : served_step (mkServed m cs) (mkServed (set_segments n m) cs).

Definition served_reachable : Served → Prop := rtc served_step (mkServed (init_registry metrics_start) []).

(** ** What the counters say *)

(** A call counts for its method once it began, and is observed once it returned. *)
Definition begun (method : string) (c : MethodCall) : Z :=
  one (bool_decide (mc_method c = method) &&
       match mc_phase c with Called | Dropped false => false | _ => true end).
Definition returned (method : string) (c : MethodCall) : Z :=
  one (bool_decide (mc_method c = method) &&
       match mc_phase c with Returned _ => true | _ => false end).
(** Begun, and neither returned nor about to: at work or dropped at work. *)
Definition missing (method : string) (c : MethodCall) : Z :=
  one (bool_decide (mc_method c = method) &&
       match mc_phase c with Handling _ | Dropped true => true | _ => false end).

Definition counted (m : Metrics) (method : string) : Z :=
  default 0 (mt_request_counter m !! method).
Definition observed (m : Metrics) (method : string) : list Z :=
  default [] (mt_method_cost m !! method).

Record metrics_inv (s : Served) : Prop := {
  mi_counted method : counted (sv_metrics s) method = total (begun method) (sv_calls s);
  mi_observed method :
    len (observed (sv_metrics s) method) = total (returned method) (sv_calls s);
  mi_costs method : Forall (λ t, 0 ≤ t) (observed (sv_metrics s) method);
  mi_registered :
    mt_registered (sv_metrics s) = [REQ_COUNTER_VEC; METHOD_HISTOGRAM_VEC; SEGMENTS_GAUGE]
}.

Lemma counted_inc m method method' :
  counted (inc method m) method' = counted m method' + one (bool_decide (method = method')).
Proof.
  unfold counted, inc. simpl. case_bool_decide as Hm; subst.
  - by rewrite lookup_insert_eq.
  - rewrite lookup_insert_ne by done. simpl. lia.
Qed.
Lemma observed_observe m method t method' :
  observed (observe method t m) method' =
    (if decide (method = method') then [t] else []) ++ observed m method'.
Proof.
  unfold observed, observe. simpl. case_decide; subst.
  - by rewrite lookup_insert_eq.
  - by rewrite lookup_insert_ne.
Qed.

Lemma observed_inc method m method' : observed (inc method m) method' = observed m method'.
Proof. done. Qed.
Lemma counted_observe method t m method' :
  counted (observe method t m) method' = counted m method'.
Proof. done. Qed.

(** One event adds to the counters what it adds to its call. *)
Lemma record_metrics_counts ev c m ph m' method :
  record_metrics ev c m = Some (ph, m') →
  let c' := mkMethodCall (mc_method c) ph in
  counted m' method = counted m method - begun method c + begun method c' ∧
  len (observed m' method) = len (observed m method) - returned method c + returned method c' ∧
  (Forall (λ t, 0 ≤ t) (observed m method) → Forall (λ t, 0 ≤ t) (observed m' method)) ∧
  mt_registered m' = mt_registered m.
Proof.
  intros Hev c'. subst c'. destruct c as [me cph]. unfold record_metrics in Hev. simpl in *.
  unfold begun, returned. simpl. destruct cph, ev; simplify_eq;
    rewrite ?counted_inc, ?observed_inc, ?counted_observe, ?observed_observe.
  - case_bool_decide; simpl; split_and!; try done; lia.
  - rewrite andb_false_r. simpl. split_and!; try done; lia.
  - case_bool_decide; case_decide; try done; simpl; split_and!; try done; try lia.
    intros Hf. constructor; [unfold elapsed; lia|done].
  - rewrite andb_true_r, !andb_false_r. simpl. split_and!; try done; lia.
Qed.

Lemma metrics_inv_step s s' : metrics_inv s → served_step s s' → metrics_inv s'.
Proof.
  intros Hinv Hstep. destruct Hstep as [m cs method|m cs i c ev ph m' Hi Hev|m cs n];
    destruct Hinv as [Hc Ho Ht Hr]; cbn [sv_metrics sv_calls] in *.
  - split; cbn [sv_metrics sv_calls]; intros; try done; rewrite ?Hc, ?Ho, total_app;
      unfold begun, returned; simpl; rewrite andb_false_r; simpl; lia.
  - split; cbn [sv_metrics sv_calls];
      [intros me..|]; try destruct (record_metrics_counts ev c m ph m' me Hev) as (E1&E2&E3&E4).
    + by rewrite (total_insert _ _ _ _ _ Hi), <-Hc.
    + by rewrite (total_insert _ _ _ _ _ Hi), <-Ho.
    + by apply E3.
    + by destruct (record_metrics_counts ev c m ph m' EmptyString Hev) as (_&_&_&->).
  - by split.
Qed.

Lemma metrics_inv_rtc s s' : rtc served_step s s' → metrics_inv s → metrics_inv s'.
Proof. induction 1; eauto using metrics_inv_step. Qed.

Lemma served_reachable_inv s : served_reachable s → metrics_inv s.
Proof.
  intros H. eapply metrics_inv_rtc; [exact H|].
  split; [done|done|intros; constructor|reflexivity].
Qed.

(** The counters under any interleaving of the calls: every call that began is counted
    once, every call that returned observed once with a time that is not negative, and
    what the two differ by are the calls at work and those dropped at work, so that a
    dropped call is counted for ever and never observed; all three collectors are
    gathered. *)
Theorem metrics_count s method :
  served_reachable s →
  counted (sv_metrics s) method =
    len (observed (sv_metrics s) method) + total (missing method) (sv_calls s) ∧
  len (observed (sv_metrics s) method) = total (returned method) (sv_calls s) ∧
  Forall (λ t, 0 ≤ t) (observed (sv_metrics s) method) ∧
  mt_registered (sv_metrics s) = [REQ_COUNTER_VEC; METHOD_HISTOGRAM_VEC; SEGMENTS_GAUGE].
Proof.
  intros [Hc Ho Ht Hr]%served_reachable_inv. split_and!; [|done..].
  rewrite Hc, Ho. apply total_add. intros [me ph]. unfold begun, returned, missing. simpl.
  destruct (bool_decide _); [|done]. by destruct ph as [| | |[]].
Qed.

(** [record_metrics] is transparent: a call answers what its handler answered. *)
Lemma record_metrics_result ev c m result m' :
  record_metrics ev c m = Some (Returned result, m') → ∃ now, ev = Answer now result.
Proof.
  destruct c as [me []], ev; unfold record_metrics; simpl; intros [= -> _]; eauto.
Qed.

End calls.

(** ** A call that answers and one that is dropped *)

Definition sample_served : Served :=
  mkServed (observe "prove" 7 (inc "prove" (inc "prove" (init_registry metrics_start))))
    [mkMethodCall "prove" (Returned tt); mkMethodCall "prove" (Dropped true)].

Lemma sample_served_reachable : served_reachable sample_served.
Proof.
  eapply rtc_l; [apply (served_arrives _ [] "prove")|].
  eapply rtc_l; [apply (served_arrives _ _ "prove")|].
  eapply rtc_l; [eapply (served_event _ _ 0 _ (Poll 3)); reflexivity|].
  eapply rtc_l; [eapply (served_event _ _ 1 _ (Poll 4)); reflexivity|].
  eapply rtc_l; [eapply (served_event _ _ 0 _ (Answer 10 tt)); reflexivity|].
  eapply rtc_l; [eapply (served_event _ _ 1 _ Drop); reflexivity|]. apply rtc_refl.
Qed.

Lemma metrics_count_witness :
  counted (sv_metrics sample_served) "prove" = 2 ∧
  observed (sv_metrics sample_served) "prove" = [7] ∧
  counted (sv_metrics sample_served) "prove" =
    len (observed (sv_metrics sample_served) "prove") +
    total (missing "prove") (sv_calls sample_served).
Proof.
  split_and!; [reflexivity..|].
  exact (proj1 (metrics_count sample_served "prove" sample_served_reachable)).
Defined.
