(* ===== verification/Codec.v ===== *)
(** * Codec: a text format for the examples

    Any countable type is written as the bits of its code and read back: what the
    examples use for the formats of libraries. *)

From S2P Require Import Prelude Text.
From Stdlib Require Import Ascii String.
From stdpp Require Import countable.
#[local] Open Scope list_scope.
#[local] Open Scope Z_scope.

Fixpoint bits (p : positive) : string :=
  match p with
  | xH => EmptyString
  | xO p => String "0" (bits p)
  | xI p => String "1" (bits p)
  end.
Fixpoint unbits (s : string) : positive :=
  match s with
  | EmptyString => xH
  | String c s => if Ascii.eqb c "0" then xO (unbits s) else xI (unbits s)
  end.
Lemma unbits_bits p : unbits (bits p) = p.
Proof. induction p as [p IH|p IH|]; simpl; by rewrite ?IH. Qed.

Section codec.
Context `{Countable A}.
Definition to_text (a : A) : string := bits (encode a).
Definition of_text (s : string) : option A := decode (unbits s).
Lemma of_to_text a : of_text (to_text a) = Some a.
Proof. unfold of_text, to_text. by rewrite unbits_bits, decode_encode. Qed.
End codec.

#[export] Instance byte_eq_dec : EqDecision Byte.byte := Byte.byte_eq_dec.
#[export] Instance byte_countable : Countable Byte.byte :=
  inj_countable Byte.to_N Byte.of_N Byte.of_to_N.

(** The bytes of the text. *)
Definition to_bytes `{Countable A} (a : A) : bytes := list_byte_of_string (to_text a).
Definition of_bytes `{Countable A} (b : bytes) : option A := of_text (string_of_list_byte b).
Lemma of_to_bytes `{Countable A} (a : A) : of_bytes (to_bytes a) = Some a.
Proof. unfold of_bytes, to_bytes. rewrite string_of_list_byte_of_string. apply of_to_text. Qed.
