(* ===== verification/Proto.v ===== *)
(** * Proto: the protobuf enumerations and messages the service exchanges

    The [.proto] files of [proto/src/proto]; a protobuf enumeration is a Rocq
    enumeration with its numbers ([x as i32]) and the partial inverse prost
    generates ([T::from_i32]).  Only the messages the modelled code builds or reads
    are here; their fields keep the protobuf names behind a short prefix. *)

From S2P Require Import Prelude Text.

(** [prover_v2::FIRST_LAYER_BATCH_SIZE], which the executor of feature "prover_v2" and the
    generation of tasks must agree on. *)
Definition FIRST_LAYER_BATCH_SIZE : nat := 1.

(** ** Enumerations *)

Inductive Step := Init | Split | Prove | Agg | Snark | End.
#[export] Instance Step_eq_dec : EqDecision Step.
Proof. solve_decision. Defined.

Definition Step_i32 (s : Step) : Z :=
  match s with
  | Init => 0 | Split => 1 | Prove => 2 | Agg => 3 | Snark => 5 | End => 6
  end.

Definition Step_from_i32 (z : Z) : option Step :=
  match z with
  | 0 => Some Init | 1 => Some Split | 2 => Some Prove
  | 3 => Some Agg | 5 => Some Snark | 6 => Some End
  | _ => None
  end.

Inductive ProverVersion := Zkm | Zkm2.
#[export] Instance ProverVersion_eq_dec : EqDecision ProverVersion.
Proof. solve_decision. Defined.

Definition ProverVersion_i32 (v : ProverVersion) : Z :=
  match v with Zkm => 0 | Zkm2 => 1 end.

(** prover.v1.ResultCode *)
Inductive ResultCode := Ok | InvalidParameter | InternalError | Busy | Unspecified.
#[export] Instance ResultCode_eq_dec : EqDecision ResultCode.
Proof. solve_decision. Defined.

Definition ResultCode_i32 (c : ResultCode) : Z :=
  match c with
  | Ok => 0 | InvalidParameter => 1 | InternalError => 2 | Busy => 3
  | Unspecified => 4
  end.

Definition ResultCode_from_i32 (z : Z) : option ResultCode :=
  match z with
  | 0 => Some Ok | 1 => Some InvalidParameter | 2 => Some InternalError
  | 3 => Some Busy | 4 => Some Unspecified
  | _ => None
  end.

(** stage.v1.Status *)
Module Status.
Inductive t :=
  | Success | Unspecified | Computing | InvalidParameter | InternalError
  | SplitError | ProveError | AggError | SnarkError.
#[export] Instance eq_dec : EqDecision t.
Proof. solve_decision. Defined.

Definition i32 (s : t) : Z :=
  match s with
  | Success => 0 | Unspecified => 1 | Computing => 2 | InvalidParameter => 3
  | InternalError => 4 | SplitError => 5 | ProveError => 6 | AggError => 7
  | SnarkError => 8
  end.
End Status.

(** ** Messages *)

Record BlockFileItem := mkBlockFileItem {
  bf_file_name : string;
  bf_file_content : bytes
}.

Record Program := mkProgram {
  pg_version : Z;
  pg_elf_path : string;
  pg_block_data : list BlockFileItem;
  pg_block_no : option Z;
  pg_seg_size : Z;
  pg_public_input_stream : bytes;
  pg_private_input_stream : bytes;
  pg_target_step : Z;
  pg_composite_proof : bool;
  pg_receipts : list bytes;
  pg_proof_id : string;
  pg_output_stream : bytes
}.

Definition Program_default : Program :=
  mkProgram 0 empty_str [] None 0 [] [] 0 false [] empty_str [].

Record AggregateInput := mkAggregateInput {
  ai_receipt_input : bytes;
  ai_computed_request_id : string;
  ai_is_agg : bool
}.
#[export] Instance AggregateInput_settable : Settable AggregateInput := λ r,
  mkAggregateInput (ai_receipt_input r) (ai_computed_request_id r) (ai_is_agg r).

(** prover.v1.Result, as every response carries it. *)
Record RpcResult := mkRpcResult {
  rr_code : Z;
  rr_message : string
}.

Lemma Step_from_i32_i32 s : Step_from_i32 (Step_i32 s) = Some s.
Proof. by destruct s. Qed.

Lemma Step_from_i32_Some z s : Step_from_i32 z = Some s → Step_i32 s = z.
Proof. unfold Step_from_i32. repeat (case_match; try done); by intros [= <-]. Qed.

Lemma ResultCode_from_i32_i32 c : ResultCode_from_i32 (ResultCode_i32 c) = Some c.
Proof. by destruct c. Qed.

Create Rewrite HintDb proto.
#[export] Hint Rewrite Step_from_i32_i32 ResultCode_from_i32_i32 : proto.
