(* ===== verification/World.v ===== *)
(** * World: what the service's code reads and writes outside its own state

    The local file system ([std::fs]), the object store behind [s3://] paths and the
    supply of UUIDs, and the operations of [common/src/file.rs] over them.  Every
    call that touches the world is a computation of the monad [M]: it returns a
    value and the next world, or panics. *)

From S2P Require Import Prelude Text Proto.
From Stdlib Require Import Ascii.

(** ** Code outside the repository

    The S3 client, the UUID generator and bincode are parameters. *)
Class External := {
  s3_store : Type;
  (** [get_object] *)
  s3_get : s3_store → string → string → option bytes;
  (** [put_object] *)
  s3_put : s3_store → string → string → bytes → option s3_store;
  (** [list_objects_v2] with the delimiter "/": the contents, if the response has
      any, each with its key, if it has one *)
  s3_list : s3_store → string → string → option (option (list (option string)));
  (** [head_object] succeeds *)
  s3_head : s3_store → string → string → bool;
  (** the n-th UUID drawn, as text *)
  uuid_v4 : nat → string;
  (** [bincode::deserialize::<Vec<Vec<u8>>>] *)
  bincode_de : bytes → option (list bytes)
}.

(** Version 4 UUIDs drawn by one process differ. *)
Class UuidFresh `{!External} : Prop := uuid_v4_inj : Inj (=) (=) uuid_v4.

(** ** The local file system

    Regular files with their content, directories, and the paths on which the
    operating system refuses every operation.  Paths are compared as text. *)
Record Fs := mkFs {
  fs_files : gmap string bytes;
  fs_dirs : gset string;
  fs_denied : gset string
}.
#[export] Instance Fs_settable : Settable Fs := λ r,
  mkFs (fs_files r) (fs_dirs r) (fs_denied r).

(** The text before the last "/", empty when there is none. *)
Definition parent (p : string) : string :=
  match rsplit_once "/" p with Some (d, _) => d | None => empty_str end.

Lemma parent_app a n : contains "/" n = false → parent (a +:+ "/" +:+ n) = a.
Proof. intros Hn. unfold parent. by rewrite rsplit_once_app. Qed.

(** *** Where a path leads

    Files are kept under the text of their path.  The operating system takes a path apart
    at its slashes: an empty part and "." stay where they are, ".." goes to the directory
    above.  Two texts may so name the same file; what is said about whole texts holds of
    the files themselves where the paths are [plain]. *)
Definition enter (root : bool) (done : list string) (part : string) : list string :=
  if bool_decide (part = empty_str ∨ part = ".") then done
  else if bool_decide (part = "..") then
    match done with
    | [] => if root then [] else [part]
    | d :: up => if bool_decide (d = "..") then part :: done else up
    end
  else part :: done.
(** The directory it starts from and the names that lead to the file. *)
Definition location (p : string) : bool * list string :=
  let root := starts_with "/" p in (root, rev (foldl (enter root) [] (split_on "/" p))).
(** Parts that name something. *)
Definition plain (p : string) : bool :=
  forallb (λ s, bool_decide (s ∉ [empty_str; "."; ".."])) (split_on "/" p).
(** [p] leads to something under [d]. *)
Definition below (d p : string) : Prop :=
  ∃ names, names ≠ [] ∧ location p = ((location d).1, (location d).2 ++ names).

Lemma plain_app a b : plain (a +:+ "/" +:+ b) = plain a && plain b.
Proof. unfold plain. rewrite <-forallb_app. f_equal. apply (split_on_app "/"). Qed.
Lemma enter_plain root acc rest :
  forallb (λ s, bool_decide (s ∉ [empty_str; "."; ".."])) rest = true →
  foldl (enter root) acc rest = rev rest ++ acc.
Proof.
  revert acc. induction rest as [|s rest IH]; intros acc; [done|]. cbn [forallb foldl rev].
  intros [Hs Hr]%andb_true_iff. apply bool_decide_eq_true in Hs. rewrite IH by done.
  rewrite <-(assoc_L (++)). f_equal. unfold enter.
  rewrite !bool_decide_false by set_solver. done.
Qed.
Lemma starts_with_slash_app d rest :
  d ≠ empty_str → starts_with "/" (d +:+ "/" +:+ rest) = starts_with "/" d.
Proof.
  destruct d as [|c d]; [done|]. intros _.
  change (starts_with "/" (String c (d +:+ "/" +:+ rest)) = starts_with "/" (String c d)).
  unfold starts_with. cbn [strip_prefix]. by destruct (Ascii.eqb "/" c).
Qed.
(** Where the parts after [d] lead to. *)
Lemma location_app d rest :
  d ≠ empty_str →
  location (d +:+ "/" +:+ rest) =
    ((location d).1, rev (foldl (enter (location d).1) (rev (location d).2) (split_on "/" rest))).
Proof.
  intros Hd. unfold location. rewrite starts_with_slash_app by done.
  change (d +:+ "/" +:+ rest) with (d +:+ String "/" rest).
  rewrite split_on_app, foldl_app. cbn [fst snd]. by rewrite rev_involutive.
Qed.
Lemma below_app d rest : d ≠ empty_str → plain rest = true → below d (d +:+ "/" +:+ rest).
Proof.
  intros Hd Hr. exists (split_on "/" rest). split.
  { by destruct (split_on_cons "/" rest) as (w&ws&->). }
  rewrite location_app, enter_plain by done. by rewrite rev_app_distr, !rev_involutive.
Qed.

(** [std::fs::read] *)
Definition fs_read (fs : Fs) (p : string) : option bytes :=
  if decide (p ∈ fs_denied fs) then None else fs_files fs !! p.

(** [Path::exists] *)
Definition fs_exists (fs : Fs) (p : string) : bool :=
  bool_decide (p ∉ fs_denied fs) &&
  (bool_decide (is_Some (fs_files fs !! p)) || bool_decide (p ∈ fs_dirs fs)).

(** [Path::is_file] *)
Definition fs_is_file (fs : Fs) (p : string) : bool :=
  bool_decide (p ∉ fs_denied fs) && bool_decide (is_Some (fs_files fs !! p)).

(** [File::create] followed by [write_all]: the file holds exactly the bytes
    written. *)
Definition fs_create (fs : Fs) (p : string) (data : bytes) : option Fs :=
  if decide (p ∈ fs_denied fs ∨ p ∈ fs_dirs fs) then None
  else if is_empty (parent p) || bool_decide (parent p ∈ fs_dirs fs)
       then Some (fs <| fs_files := <[p := data]> (fs_files fs) |>)
       else None.

(** The names of the entries directly under a directory. *)
Definition child_name (dir p : string) : option string :=
  name ← strip_prefix (dir +:+ "/") p;
  if contains "/" name || is_empty name then None else Some name.

(** [std::fs::read_dir] *)
Definition fs_read_dir (fs : Fs) (p : string) : option (list string) :=
  if decide (p ∈ fs_denied fs ∨ p ∉ fs_dirs fs) then None
  else Some (omap (child_name p) (map_to_list (fs_files fs)).*1 ++
             omap (child_name p) (elements (fs_dirs fs))).

(** The directories on the way to [p], [p] included, outermost first. *)
Fixpoint ancestors_go (done : string) (parts : list string) : list string :=
  match parts with
  | [] => []
  | w :: ws => let d := done +:+ w in d :: ancestors_go (d +:+ "/") ws
  end.
Definition ancestors (p : string) : list string :=
  filter (λ d, d ≠ empty_str) (ancestors_go empty_str (split_on "/" p)).

(** [std::fs::create_dir_all] *)
Definition fs_create_dir_all (fs : Fs) (p : string) : option Fs :=
  if forallb (λ d, bool_decide (d ∉ fs_denied fs) &&
                   bool_decide (fs_files fs !! d = None)) (ancestors p)
  then Some (fs <| fs_dirs := list_to_set (ancestors p) ∪ fs_dirs fs |>)
  else None.

Section world.
Context `{E : !External}.

Record World := mkWorld {
  w_fs : Fs;
  w_s3 : s3_store;
  w_uuids : nat
}.
#[export] Instance World_settable : Settable World := λ r,
  mkWorld (w_fs r) (w_s3 r) (w_uuids r).

Definition M (A : Type) : Type := World → outcome (A * World).

#[export] Instance M_ret : MRet M := λ A a w, Ret (a, w).
#[export] Instance M_bind : MBind M := λ A B k m w,
  match m w with Ret (a, w') => k a w' | Panic => Panic end.

Definition panic {A} : M A := λ _, Panic.
Definition lift {A} (o : outcome A) : M A := λ w,
  match o with Ret a => Ret (a, w) | Panic => Panic end.
Definition get_world : M World := λ w, Ret (w, w).
Definition put_fs (fs : Fs) : M () := λ w, Ret (tt, w <| w_fs := fs |>).
Definition put_s3 (s : s3_store) : M () := λ w, Ret (tt, w <| w_s3 := s |>).

(** [Uuid::new_v4().to_string()] *)
Definition new_uuid : M string := λ w,
  Ret (uuid_v4 (w_uuids w), w <| w_uuids := S (w_uuids w) |>).

(** [std::fs] calls in the monad; [false]/[None] is the [Err] of the call. *)
Definition read_m (p : string) : M (option bytes) :=
  w ← get_world; mret (fs_read (w_fs w) p).
Definition exists_m (p : string) : M bool :=
  w ← get_world; mret (fs_exists (w_fs w) p).
Definition create_m (p : string) (data : bytes) : M bool :=
  w ← get_world;
  match fs_create (w_fs w) p data with
  | Some fs => put_fs fs;; mret true
  | None => mret false
  end.

(** ** common::file: local files and S3 objects *)

Definition is_s3_path (path : string) : bool := starts_with "s3://" path.

(** Both [unwrap]s of [parse_s3_path] can panic. *)
Definition parse_s3_path (path : string) : outcome (string * string) :=
  rest ← unwrap (strip_prefix "s3://" path);
  unwrap (split_once "/" rest).

Definition s3_read (path : string) : M (option bytes) :=
  '(bucket, key) ← lift (parse_s3_path path);
  w ← get_world;
  mret (s3_get (w_s3 w) bucket key).

Definition s3_write_file (path : string) (buf : bytes) : M bool :=
  '(bucket, key) ← lift (parse_s3_path path);
  w ← get_world;
  match s3_put (w_s3 w) bucket key buf with
  | Some s => put_s3 s;; mret true
  | None => mret false
  end.

Definition s3_exist (path : string) : M bool :=
  '(bucket, key) ← lift (parse_s3_path path);
  w ← get_world;
  mret (s3_head (w_s3 w) bucket key).

(** One directory object per non-empty part of the key; the first failed write ends
    the walk with an error. *)
Fixpoint s3_create_parts (path : string) (parts : list string) : M bool :=
  match parts with
  | [] => mret true
  | part :: parts =>
      if is_empty part then s3_create_parts path parts
      else
        let path := path +:+ "/" +:+ part in
        ex ← s3_exist path;
        ok ← (if ex : bool then mret true else s3_write_file path []) : M bool;
        if (ok : bool) then s3_create_parts path parts else mret false
  end.

Definition s3_create_dir_all (path : string) : M bool :=
  '(bucket, key) ← lift (parse_s3_path path);
  s3_create_parts ("s3://" +:+ bucket) (split_on "/" key).

(** The part of a key after its last "/". *)
Definition key_file (key : string) : string :=
  match rsplit_once "/" key with Some (_, file) => file | None => key end.

Definition list_files_in_s3 (path : string) : M (option (list string)) :=
  '(bucket, key) ← lift (parse_s3_path path);
  let prefix := if ends_with "/" key then key else key +:+ "/" in
  w ← get_world;
  mret (contents ← s3_list (w_s3 w) bucket prefix;
        Some (match contents with
              | Some objects => key_file <$> omap id objects
              | None => []
              end)).

(** A thread the caller waits for: its panic is that of [join().unwrap()]. *)
Definition spawn_join {A} (m : M A) : M A := m.

(** The traits [Write] and [File]. *)
Class File (F : Type) := {
  f_write : F → bytes → M (option Z);
  f_read : F → M (option bytes);
  f_read_to_string : F → M (option string);
  f_read_dir : F → M (option (list string));
  f_create_dir_all : F → M bool
}.

Record LocalFile := mkLocalFile { lf_path : string }.
Definition LocalFile_write (self : LocalFile) (buf : bytes) : M (option Z) :=
  ok ← create_m (lf_path self) buf;
  mret (if (ok : bool) then Some (len buf) else None).
Definition LocalFile_read (self : LocalFile) : M (option bytes) := read_m (lf_path self).
(** What is not UTF-8 is an error. *)
Definition LocalFile_read_to_string (self : LocalFile) : M (option string) :=
  data ← read_m (lf_path self);
  mret (data ≫= from_utf8).
Definition LocalFile_read_dir (self : LocalFile) : M (option (list string)) :=
  w ← get_world; mret (fs_read_dir (w_fs w) (lf_path self)).
Definition LocalFile_create_dir_all (self : LocalFile) : M bool :=
  w ← get_world;
  match fs_create_dir_all (w_fs w) (lf_path self) with
  | Some fs => put_fs fs;; mret true
  | None => mret false
  end.
#[export] Instance LocalFile_File : File LocalFile := {|
  f_write := LocalFile_write; f_read := LocalFile_read;
  f_read_to_string := LocalFile_read_to_string; f_read_dir := LocalFile_read_dir;
  f_create_dir_all := LocalFile_create_dir_all
|}.

Record S3File := mkS3File { sf_path : string }.
Definition S3File_write (self : S3File) (buf : bytes) : M (option Z) :=
  ok ← spawn_join (s3_write_file (sf_path self) buf);
  mret (if (ok : bool) then Some (len buf) else None).
Definition S3File_read (self : S3File) : M (option bytes) :=
  spawn_join (s3_read (sf_path self)).
Definition S3File_read_to_string (self : S3File) : M (option string) :=
  data ← S3File_read self;
  mret (data ≫= from_utf8).
Definition S3File_read_dir (self : S3File) : M (option (list string)) :=
  spawn_join (list_files_in_s3 (sf_path self)).
Definition S3File_create_dir_all (self : S3File) : M bool :=
  spawn_join (s3_create_dir_all (sf_path self)).
#[export] Instance S3File_File : File S3File := {|
  f_write := S3File_write; f_read := S3File_read;
  f_read_to_string := S3File_read_to_string; f_read_dir := S3File_read_dir;
  f_create_dir_all := S3File_create_dir_all
|}.

(** [Box<dyn File>], and [file::new], which chooses by the path. *)
Record BoxFile := Box { box_type : Type; box_impl : File box_type; box_file : box_type }.
Definition file_new (path : string) : BoxFile :=
  if is_s3_path path then Box S3File S3File_File (mkS3File path)
  else Box LocalFile LocalFile_File (mkLocalFile path).

(** The methods on [file::new(path)]. *)
Definition dyn {A} (method : ∀ F, File F → F → A) (b : BoxFile) : A :=
  method (box_type b) (box_impl b) (box_file b).
Definition file_read (path : string) : M (option bytes) :=
  dyn (λ F _, f_read) (file_new path).
Definition file_read_to_string (path : string) : M (option string) :=
  dyn (λ F _, f_read_to_string) (file_new path).
Definition file_write (path : string) (buf : bytes) : M (option Z) :=
  dyn (λ F _, f_write) (file_new path) buf.
Definition file_read_dir (path : string) : M (option (list string)) :=
  dyn (λ F _, f_read_dir) (file_new path).
Definition file_create_dir_all (path : string) : M bool :=
  dyn (λ F _, f_create_dir_all) (file_new path).

Lemma file_read_eq path :
  file_read path = if is_s3_path path then s3_read path else read_m path.
Proof. unfold file_read, file_new. by destruct (is_s3_path path). Qed.
Lemma file_write_eq path buf :
  file_write path buf =
    (ok ← (if is_s3_path path then s3_write_file path buf else create_m path buf);
     mret (if (ok : bool) then Some (len buf) else None)).
Proof. unfold file_write, file_new. by destruct (is_s3_path path). Qed.
Lemma file_read_to_string_eq path :
  file_read_to_string path = (data ← file_read path; mret (data ≫= from_utf8)).
Proof. unfold file_read_to_string, file_read, file_new. by destruct (is_s3_path path). Qed.
Lemma file_read_dir_eq path :
  file_read_dir path =
    if is_s3_path path then list_files_in_s3 path
    else w ← get_world; mret (fs_read_dir (w_fs w) path).
Proof. unfold file_read_dir, file_new. by destruct (is_s3_path path). Qed.
Lemma file_create_dir_all_eq path :
  file_create_dir_all path =
    if is_s3_path path then s3_create_dir_all path
    else
      w ← get_world;
      match fs_create_dir_all (w_fs w) path with
      | Some fs => put_fs fs;; mret true
      | None => mret false
      end.
Proof. unfold file_create_dir_all, file_new. by destruct (is_s3_path path). Qed.

(** [stage::safe_read]: an unreadable file reads as empty. *)
Definition safe_read (path : string) : M bytes :=
  r ← read_m path; mret (default [] r).

End world.
Arguments World {E}.
Arguments M {E} A.

(** ** Reasoning about computations *)

Section world_lemmas.
Context `{E : !External}.

Lemma M_bind_Ret {A B} (m : M A) (k : A → M B) w b w'' :
  (m ≫= k) w = Ret (b, w'') ↔
  ∃ a w', m w = Ret (a, w') ∧ k a w' = Ret (b, w'').
Proof.
  unfold mbind, M_bind. split.
  - destruct (m w) as [[a w']|]; [|done]. by exists a, w'.
  - by intros (a&w'&->&?).
Qed.

Lemma M_bind_run {A B} (m : M A) (k : A → M B) w a w' :
  m w = Ret (a, w') → (m ≫= k) w = k a w'.
Proof. unfold mbind, M_bind. by intros ->. Qed.

Lemma M_mret_Ret {A} (a b : A) w w' :
  mret (M := M) a w = Ret (b, w') ↔ a = b ∧ w = w'.
Proof. unfold mret, M_ret. split; [by intros [=]|by intros [-> ->]]. Qed.

Lemma lift_Ret {A} (o : outcome A) w b w' :
  lift o w = Ret (b, w') ↔ o = Ret b ∧ w = w'.
Proof.
  unfold lift. destruct o; (split; [by intros [=]; subst|]);
    by intros [[=] ?]; subst.
Qed.

(** The world after [n] more UUIDs. *)
Definition bump (n : nat) (w : World) : World := w <| w_uuids := (n + w_uuids w)%nat |>.

Lemma bump_0 w : bump 0 w = w.
Proof. by destruct w. Qed.
Lemma bump_bump n m w : bump n (bump m w) = bump (n + m) w.
Proof. unfold bump; simpl. by rewrite Nat.add_assoc. Qed.
Lemma w_fs_bump n w : w_fs (bump n w) = w_fs w.
Proof. done. Qed.
Lemma w_s3_bump n w : w_s3 (bump n w) = w_s3 w.
Proof. done. Qed.
Lemma w_uuids_bump n w : w_uuids (bump n w) = (n + w_uuids w)%nat.
Proof. done. Qed.

(** An id that some earlier draw returned. *)
Definition drawn (w : World) (id : string) : Prop :=
  ∃ k, (k < w_uuids w)%nat ∧ id = uuid_v4 k.

(** The ids of the next [n] draws. *)
Definition next_ids (w : World) (n : nat) : list string := uuid_v4 <$> seq (w_uuids w) n.

Lemma drawn_mono w w' id : (w_uuids w ≤ w_uuids w')%nat → drawn w id → drawn w' id.
Proof. intros ? (k&?&->). exists k. split; [lia|done]. Qed.

Lemma next_ids_drawn w n m id : (n ≤ m)%nat → id ∈ next_ids w n → drawn (bump m w) id.
Proof.
  intros ? (k&->&Hk%elem_of_seq)%list_elem_of_fmap. exists k. split; [|done].
  rewrite w_uuids_bump. lia.
Qed.

Lemma next_ids_app w n m :
  next_ids w (n + m) = next_ids w n ++ next_ids (bump n w) m.
Proof.
  unfold next_ids. rewrite seq_app, fmap_app, w_uuids_bump.
  by rewrite (Nat.add_comm n (w_uuids w)).
Qed.

Lemma length_next_ids w n : length (next_ids w n) = n.
Proof. unfold next_ids. by rewrite length_fmap, length_seq. Qed.

Lemma next_ids_NoDup `{!UuidFresh} w n : NoDup (next_ids w n).
Proof. apply NoDup_fmap_2; [exact uuid_v4_inj|apply NoDup_seq]. Qed.

Lemma next_ids_fresh `{!UuidFresh} w n id : drawn w id → id ∉ next_ids w n.
Proof.
  intros (k&?&->) (j&Hj&Hin%elem_of_seq)%list_elem_of_fmap.
  apply uuid_v4_inj in Hj. lia.
Qed.

End world_lemmas.

(** Inversion of a computation that returned: every bind is split. *)
Ltac m_inv_step :=
  match goal with
  | H : (mbind (M := M) ?k ?m) ?w = Ret _ |- _ =>
      apply M_bind_Ret in H as (?&?&?&?)
  | H : mret (M := M) _ _ = Ret _ |- _ => apply M_mret_Ret in H as [??]
  | H : lift _ _ = Ret _ |- _ => apply lift_Ret in H as [??]
  | H : panic _ = Ret _ |- _ => discriminate H
  | H : get_world _ = Ret _ |- _ => unfold get_world in H
  | H : (if ?b then _ else _) _ = Ret _ |- _ => destruct b eqn:?
  | H : (match ?b with _ => _ end) _ = Ret _ |- _ => destruct b eqn:?
  end; simplify_eq.
Ltac m_inv := repeat m_inv_step.

Section reads.
Context `{E : !External}.

Lemma read_m_same p w r w' : read_m p w = Ret (r, w') → w' = w.
Proof. unfold read_m. intros. by m_inv. Qed.
Lemma safe_read_same p w r w' : safe_read p w = Ret (r, w') → w' = w.
Proof. unfold safe_read. intros. m_inv. by eapply read_m_same. Qed.
Lemma file_read_same p w r w' : file_read p w = Ret (r, w') → w' = w.
Proof.
  rewrite file_read_eq. unfold s3_read. intros. m_inv; [done|]. by eapply read_m_same.
Qed.
Lemma file_read_dir_same p w r w' : file_read_dir p w = Ret (r, w') → w' = w.
Proof. rewrite file_read_dir_eq. unfold list_files_in_s3. intros. by m_inv. Qed.

(** A loop that draws one id per element. *)
Lemma mapM_draw {A B} (f : A → M B) (P : A → B → Prop) (bid : B → string) l :
  (∀ x w y w', f x w = Ret (y, w') →
     w' = bump 1 w ∧ bid y = uuid_v4 (w_uuids w) ∧ P x y) →
  ∀ w ys w', mapM f l w = Ret (ys, w') →
    w' = bump (length l) w ∧ bid <$> ys = next_ids w (length l) ∧ Forall2 P l ys.
Proof.
  intros Hf. induction l as [|x l IH]; intros w ys w' H; simpl in H; m_inv.
  { rewrite bump_0. done. }
  match goal with H : f _ _ = _ |- _ => apply Hf in H as (->&Hid&HP) end.
  match goal with H : mapM _ _ _ = _ |- _ => apply IH in H as (->&Hids&HF) end.
  csimpl. rewrite bump_bump, Nat.add_1_r. split_and!; [done| |by constructor].
  rewrite Hid, Hids. unfold next_ids. by rewrite w_uuids_bump.
Qed.

End reads.

(** ** A concrete world

    Numbered identifiers, no object store, one directory: what the examples run in. *)
Module Sample.
Definition external : External := {|
  s3_store := unit;
  s3_get _ _ _ := None;
  s3_put _ _ _ _ := None;
  s3_list _ _ _ := None;
  s3_head _ _ _ := false;
  uuid_v4 n := "u" +:+ pretty n;
  bincode_de _ := None
|}.

Lemma external_fresh : @UuidFresh external.
Proof. intros n m H. apply (inj (String.app "u")) in H. by apply (inj pretty) in H. Qed.

Definition world (files : list (string * bytes)) (dirs : list string) :
    @World external :=
  @mkWorld external (mkFs (list_to_map files) (list_to_set dirs) ∅) tt 0.
End Sample.
