(* ===== verification/Tasks.v ===== *)
(** * Tasks: the units of work of one proof ([proof-service/src/stage/tasks])

    The task structs with the constructors of the source, the operations of
    [AggTask] and [GenerateTask], and the interface [IsTask] the dispatch macros of
    [stage.rs] rely on: a state, a trace and an output. *)

From S2P Require Import Prelude Text Proto World.

(** ** Task states *)

Definition TASK_STATE_INITIAL : Z := 0.
Definition TASK_STATE_UNPROCESSED : Z := 1.
Definition TASK_STATE_PROCESSING : Z := 2.
Definition TASK_STATE_SUCCESS : Z := 3.
Definition TASK_STATE_FAILED : Z := 4.

Definition TASK_TIMEOUT : Z := 7200.

Definition TASK_ITYPE_SPLIT : Z := 1.
Definition TASK_ITYPE_PROVE : Z := 2.
Definition TASK_ITYPE_AGG : Z := 3.
Definition TASK_ITYPE_FINAL : Z := 5.

(** ** Traces *)

Record Trace := mkTrace {
  tr_start_ts : Z;
  tr_finish_ts : Z;
  tr_node_info : string
}.
#[export] Instance Trace_settable : Settable Trace := λ r,
  mkTrace (tr_start_ts r) (tr_finish_ts r) (tr_node_info r).

Definition Trace_default : Trace := mkTrace 0 0 empty_str.

(** [finish_ts - start_ts] on [u64]. *)
Definition Trace_duration (t : Trace) : Z :=
  u64_wrap (tr_finish_ts t - tr_start_ts t).

(** ** The request a stage is built from *)

Record GenerateTask := mkGenerateTask {
  gt_program_id : string;
  gt_base_dir : string;
  gt_proof_id : string;
  gt_version : ProverVersion;
  gt_elf_path : string;
  gt_seg_path : string;
  gt_prove_path : string;
  gt_agg_path : string;
  gt_snark_path : string;
  gt_public_input_path : string;
  gt_private_input_path : string;
  gt_output_stream_path : string;
  gt_block_no : option Z;
  gt_seg_size : Z;
  gt_max_prover_num : Z;
  gt_target_step : Step;
  gt_from_step : Step;
  gt_single_node : bool;
  gt_composite_proof : bool;
  gt_receipt_inputs_path : string;
  gt_receipts_path : string;
  gt_program : option Program
}.

(** [GenerateTask::new] *)
Definition GenerateTask_new (version : ProverVersion)
    (program_id proof_id base_dir elf_path seg_path prove_path agg_path snark_path
     public_input_path private_input_path output_stream_path : string)
    (block_no : option Z) (seg_size max_prover_num : Z) (from_step target_step : Step)
    (single_node composite_proof : bool)
    (receipt_inputs_path receipts_path : string) : GenerateTask :=
  {| gt_program_id := program_id;
     gt_version := version;
     gt_proof_id := proof_id;
     gt_base_dir := base_dir;
     gt_elf_path := elf_path;
     gt_seg_path := seg_path;
     gt_prove_path := prove_path;
     gt_agg_path := agg_path;
     gt_snark_path := snark_path;
     gt_public_input_path := public_input_path;
     gt_private_input_path := private_input_path;
     gt_output_stream_path := output_stream_path;
     gt_block_no := block_no;
     gt_seg_size := seg_size;
     gt_max_prover_num := max_prover_num;
     gt_target_step := target_step;
     gt_from_step := from_step;
     gt_single_node := single_node;
     gt_composite_proof := composite_proof;
     gt_receipt_inputs_path := receipt_inputs_path;
     gt_receipts_path := receipts_path;
     gt_program := None |}.

(** ** Task structs *)

Record SplitTask := mkSplitTask {
  st_task_id : string;
  st_program_id : string;
  st_state : Z;
  st_proof_id : string;
  st_base_dir : string;
  st_elf_path : string;
  st_seg_path : string;
  st_public_input_path : string;
  st_private_input_path : string;
  st_output_path : string;
  st_args : string;
  st_block_no : option Z;
  st_seg_size : Z;
  st_recepit_inputs_path : string;
  st_trace : Trace;
  st_output : bytes;
  st_total_steps : Z;
  st_total_segments : Z
}.
#[export] Instance SplitTask_settable : Settable SplitTask := λ r,
  mkSplitTask (st_task_id r) (st_program_id r) (st_state r) (st_proof_id r)
    (st_base_dir r) (st_elf_path r) (st_seg_path r) (st_public_input_path r)
    (st_private_input_path r) (st_output_path r) (st_args r) (st_block_no r)
    (st_seg_size r) (st_recepit_inputs_path r) (st_trace r) (st_output r)
    (st_total_steps r) (st_total_segments r).

Definition SplitTask_default : SplitTask :=
  mkSplitTask empty_str empty_str 0 empty_str empty_str empty_str empty_str
    empty_str empty_str empty_str empty_str None 0 empty_str Trace_default [] 0 0.

Record ProveTask := mkProveTask {
  pt_task_id : string;
  pt_program_id : string;
  pt_proof_id : string;
  pt_state : Z;
  pt_base_dir : string;
  pt_file_no : Z;
  pt_is_deferred : bool;
  pt_segment : string;
  pt_program : Program;
  pt_output : bytes;
  pt_trace : Trace;
  pt_failure_count : Z
}.
#[export] Instance ProveTask_settable : Settable ProveTask := λ r,
  mkProveTask (pt_task_id r) (pt_program_id r) (pt_proof_id r) (pt_state r)
    (pt_base_dir r) (pt_file_no r) (pt_is_deferred r) (pt_segment r) (pt_program r)
    (pt_output r) (pt_trace r) (pt_failure_count r).

Definition ProveTask_default : ProveTask :=
  mkProveTask empty_str empty_str empty_str 0 empty_str 0 false empty_str
    Program_default [] Trace_default 0.

Record AggTask := mkAggTask {
  at_task_id : string;
  at_state : Z;
  at_proof_id : string;
  at_block_no : option Z;
  at_seg_size : Z;
  at_vk : bytes;
  at_inputs : list AggregateInput;
  at_is_final : bool;
  at_is_first_shard : bool;
  at_is_leaf_layer : bool;
  at_from_prove : bool;
  at_agg_index : Z;
  at_is_deferred : bool;
  at_trace : Trace;
  at_output : bytes;
  at_childs : list (option string)
}.
#[export] Instance AggTask_settable : Settable AggTask := λ r,
  mkAggTask (at_task_id r) (at_state r) (at_proof_id r) (at_block_no r)
    (at_seg_size r) (at_vk r) (at_inputs r) (at_is_final r) (at_is_first_shard r)
    (at_is_leaf_layer r) (at_from_prove r) (at_agg_index r) (at_is_deferred r)
    (at_trace r) (at_output r) (at_childs r).

Definition AggTask_default : AggTask :=
  mkAggTask empty_str 0 empty_str None 0 [] [] false false false false 0 false
    Trace_default [] [].

Record SnarkTask := mkSnarkTask {
  sn_task_id : string;
  sn_state : Z;
  sn_proof_id : string;
  sn_version : Z;
  sn_input_dir : string;
  sn_output_path : string;
  sn_agg_receipt : bytes;
  sn_from_input : bool;
  sn_output : bytes;
  sn_trace : Trace
}.
#[export] Instance SnarkTask_settable : Settable SnarkTask := λ r,
  mkSnarkTask (sn_task_id r) (sn_state r) (sn_proof_id r) (sn_version r)
    (sn_input_dir r) (sn_output_path r) (sn_agg_receipt r) (sn_from_input r)
    (sn_output r) (sn_trace r).

Definition SnarkTask_default : SnarkTask :=
  mkSnarkTask empty_str 0 empty_str 0 empty_str empty_str [] false [] Trace_default.

Record SingleNodeTask := mkSingleNodeTask {
  sg_task_id : string;
  sg_program_id : string;
  sg_base_dir : string;
  sg_state : Z;
  sg_proof_id : string;
  sg_elf_path : string;
  sg_private_input_path : string;
  sg_receipt_inputs_path : string;
  sg_target_step : Step;
  sg_trace : Trace;
  sg_output : bytes;
  sg_seg_size : Z;
  sg_total_cycles : Z
}.
#[export] Instance SingleNodeTask_settable : Settable SingleNodeTask := λ r,
  mkSingleNodeTask (sg_task_id r) (sg_program_id r) (sg_base_dir r) (sg_state r)
    (sg_proof_id r) (sg_elf_path r) (sg_private_input_path r)
    (sg_receipt_inputs_path r) (sg_target_step r) (sg_trace r) (sg_output r)
    (sg_seg_size r) (sg_total_cycles r).

Inductive Task :=
  | TSplit (t : SplitTask)
  | TProve (t : ProveTask)
  | TAgg (t : AggTask)
  | TSnark (t : SnarkTask).

(** ** The interface of the dispatch macros *)

Class IsTask (T : Type) := {
  t_state : T → Z;
  t_trace : T → Trace;
  t_output : T → bytes;
  t_with_state : Z → T → T;
  t_with_trace : Trace → T → T;
  t_with_output : bytes → T → T
}.

#[export] Instance SplitTask_IsTask : IsTask SplitTask := {|
  t_state := st_state; t_trace := st_trace; t_output := st_output;
  t_with_state v t := t <| st_state := v |>;
  t_with_trace v t := t <| st_trace := v |>;
  t_with_output v t := t <| st_output := v |>
|}.
#[export] Instance ProveTask_IsTask : IsTask ProveTask := {|
  t_state := pt_state; t_trace := pt_trace; t_output := pt_output;
  t_with_state v t := t <| pt_state := v |>;
  t_with_trace v t := t <| pt_trace := v |>;
  t_with_output v t := t <| pt_output := v |>
|}.
#[export] Instance AggTask_IsTask : IsTask AggTask := {|
  t_state := at_state; t_trace := at_trace; t_output := at_output;
  t_with_state v t := t <| at_state := v |>;
  t_with_trace v t := t <| at_trace := v |>;
  t_with_output v t := t <| at_output := v |>
|}.
#[export] Instance SnarkTask_IsTask : IsTask SnarkTask := {|
  t_state := sn_state; t_trace := sn_trace; t_output := sn_output;
  t_with_state v t := t <| sn_state := v |>;
  t_with_trace v t := t <| sn_trace := v |>;
  t_with_output v t := t <| sn_output := v |>
|}.

(** The states in which a reply of the prover client ends an attempt. *)
Definition is_reply_state (st : Z) : bool :=
  (st =? TASK_STATE_FAILED) || (st =? TASK_STATE_SUCCESS)
  || (st =? TASK_STATE_UNPROCESSED).

(** The states in which a task waits to be dispatched. *)
Definition is_ready_state (st : Z) : bool :=
  (st =? TASK_STATE_UNPROCESSED) || (st =? TASK_STATE_FAILED).

(** ** AggTask *)

Definition from_prove_task (t : ProveTask) : AggregateInput :=
  mkAggregateInput [] (pt_task_id t) false.

(** The first child equal to [id] is cleared. *)
Fixpoint clear_child (id : string) (childs : list (option string)) :
    bool * list (option string) :=
  match childs with
  | [] => (false, [])
  | Some t :: childs' =>
      if String.eqb t id then (true, None :: childs')
      else let '(b, cs) := clear_child id childs' in (b, Some t :: cs)
  | None :: childs' =>
      let '(b, cs) := clear_child id childs' in (b, None :: cs)
  end.

Definition clear_child_task (id : string) (t : AggTask) : bool * AggTask :=
  if at_state t =? TASK_STATE_UNPROCESSED
  then let '(b, cs) := clear_child id (at_childs t) in (b, t <| at_childs := cs |>)
  else (false, t).

Definition to_agg_input (t : AggTask) : AggregateInput :=
  mkAggregateInput [] (at_task_id t) (negb (at_from_prove t)).

Definition init_from_single_prove_task (t : ProveTask) (agg_index : Z) : AggTask :=
  AggTask_default
    <| at_task_id := pt_task_id t |>
    <| at_block_no := pg_block_no (pt_program t) |>
    <| at_state := TASK_STATE_SUCCESS |>
    <| at_seg_size := pg_seg_size (pt_program t) |>
    <| at_proof_id := pg_proof_id (pt_program t) |>
    <| at_from_prove := true |>
    <| at_agg_index := agg_index |>.

Section tasks.
Context `{E : !External}.

(** The functions that take a slice read its first element: an empty slice panics. *)
Definition init_from_prove_tasks (vk : bytes) (prove_tasks : list ProveTask)
    (agg_index : Z) (is_final is_first_shard is_deferred : bool) : M AggTask :=
  id ← new_uuid;
  first ← lift (unwrap (head prove_tasks));
  let agg_task := AggTask_default
    <| at_task_id := id |>
    <| at_block_no := pg_block_no (pt_program first) |>
    <| at_state := TASK_STATE_UNPROCESSED |>
    <| at_seg_size := pg_seg_size (pt_program first) |>
    <| at_proof_id := pg_proof_id (pt_program first) |>
    <| at_vk := vk |>
    <| at_inputs := from_prove_task <$> prove_tasks |>
    <| at_is_final := is_final |>
    <| at_is_first_shard := is_first_shard |>
    <| at_is_leaf_layer := true |>
    <| at_is_deferred := is_deferred |>
    <| at_agg_index := agg_index |> in
  mret (if negb is_deferred
        then agg_task <| at_childs := (λ t, Some (pt_task_id t)) <$> prove_tasks |>
        else agg_task).

Definition init_from_agg_tasks (agg_tasks : list AggTask) (agg_index : Z)
    (is_final : bool) : M AggTask :=
  id ← new_uuid;
  first ← lift (unwrap (head agg_tasks));
  mret (AggTask_default
    <| at_task_id := id |>
    <| at_block_no := at_block_no first |>
    <| at_state := TASK_STATE_UNPROCESSED |>
    <| at_seg_size := at_seg_size first |>
    <| at_proof_id := at_proof_id first |>
    <| at_inputs := to_agg_input <$> agg_tasks |>
    <| at_is_final := is_final |>
    <| at_is_leaf_layer := false |>
    <| at_agg_index := agg_index |>
    <| at_childs := (λ t, Some (at_task_id t)) <$> agg_tasks |>).

Definition init_from_two_prove_task (left right : ProveTask) (agg_index : Z) :
    M AggTask :=
  id ← new_uuid;
  mret (AggTask_default
    <| at_task_id := id |>
    <| at_block_no := pg_block_no (pt_program left) |>
    <| at_state := TASK_STATE_UNPROCESSED |>
    <| at_seg_size := pg_seg_size (pt_program left) |>
    <| at_proof_id := pg_proof_id (pt_program left) |>
    <| at_inputs := [from_prove_task left; from_prove_task right] |>
    <| at_agg_index := agg_index |>
    <| at_childs := [Some (pt_task_id left); Some (pt_task_id right)] |>).

Definition init_from_two_agg_task (left right : AggTask) (agg_index : Z) :
    M AggTask :=
  id ← new_uuid;
  mret (AggTask_default
    <| at_task_id := id |>
    <| at_block_no := at_block_no left |>
    <| at_state := TASK_STATE_UNPROCESSED |>
    <| at_seg_size := at_seg_size left |>
    <| at_proof_id := at_proof_id left |>
    <| at_inputs := [to_agg_input left; to_agg_input right] |>
    <| at_agg_index := agg_index |>
    <| at_childs := [Some (at_task_id left); Some (at_task_id right)] |>).

(** ** GenerateTask::gen_program *)

Definition gen_program (g : GenerateTask) : M Program :=
  match gt_program g with
  | Some p => mret p
  | None =>
      (* todo!() for a positive block number *)
      block_data ← lift (match gt_block_no g with
                         | Some n => if 0 <? n then Panic else Ret []
                         | None => Ret []
                         end);
      receipts ← (if is_empty (gt_receipt_inputs_path g) then mret []
                  else data ← file_read (gt_receipt_inputs_path g);
                       data ← lift (unwrap data);
                       lift (unwrap (bincode_de data)));
      public_input ← safe_read (gt_public_input_path g);
      private_input ← safe_read (gt_private_input_path g);
      output_stream ← safe_read (gt_output_stream_path g);
      mret {| pg_version := ProverVersion_i32 (gt_version g);
              pg_seg_size := gt_seg_size g;
              pg_elf_path := gt_elf_path g;
              pg_block_no := gt_block_no g;
              pg_block_data := block_data;
              pg_public_input_stream := public_input;
              pg_private_input_stream := private_input;
              pg_target_step := Step_i32 (gt_target_step g);
              pg_composite_proof := gt_composite_proof g;
              pg_proof_id := gt_proof_id g;
              pg_receipts := receipts;
              pg_output_stream := output_stream |}
  end.

End tasks.
