(* ===== verification/Stage.v ===== *)
(** * Stage: one proof's task graph ([proof-service/src/stage/stage.rs])

    The state of [Stage] and its operations, in the order of the source.  An
    operation that reads the clock takes the reading [now]; one that touches files or
    draws UUIDs is a computation of [M].  [Feature] is the build feature (exactly one
    of the two is enabled, which [build.rs] enforces). *)

From S2P Require Import Prelude Text Proto World Tasks.

Inductive Feature := feature_prover | feature_prover_v2.
#[export] Instance Feature_eq_dec : EqDecision Feature.
Proof. solve_decision. Defined.


Record Stage := mkStage {
  stage_generate_task : GenerateTask;
  stage_split_task : SplitTask;
  stage_prove_tasks : list ProveTask;
  stage_agg_tasks : list AggTask;
  stage_snark_task : SnarkTask;
  stage_is_error : bool;
  stage_errmsg : string;
  stage_step : Step;
  stage_is_tasks_gen_done : bool
}.
#[export] Instance Stage_settable : Settable Stage := λ r,
  mkStage (stage_generate_task r) (stage_split_task r) (stage_prove_tasks r)
    (stage_agg_tasks r) (stage_snark_task r) (stage_is_error r) (stage_errmsg r)
    (stage_step r) (stage_is_tasks_gen_done r).

Definition Stage_new (g : GenerateTask) : Stage :=
  {| stage_generate_task := g;
     stage_split_task := SplitTask_default;
     stage_prove_tasks := [];
     stage_agg_tasks := [];
     stage_snark_task := SnarkTask_default;
     stage_is_error := false;
     stage_errmsg := empty_str;
     stage_step := gt_from_step g;
     stage_is_tasks_gen_done := false |}.

(** ** The dispatch macros

    [on_task!] takes a reply [src] for the stored task [dst]; it returns the two
    tasks and the stage's error flag after it. *)

Definition on_task `{IsTask T} (now : Z) (src dst : T) (is_error : bool) :
    T * T * bool :=
  if is_reply_state (t_state src) then
    let dst := t_with_state (t_state src) dst in
    let '(src, dst) :=
      if negb (TASK_STATE_UNPROCESSED =? t_state src) then
        let dst := t_with_trace (t_trace dst <| tr_finish_ts := now |>) dst in
        let src := t_with_trace
          (t_trace src <| tr_finish_ts := tr_finish_ts (t_trace dst) |>) src in
        (src, t_with_output (t_output src) dst)
      else (src, dst) in
    (src, dst, if TASK_STATE_FAILED =? t_state src then true else is_error)
  else (src, dst, is_error).

Definition on_prove_task_macro (now : Z) (src dst : ProveTask) (is_error : bool) :
    ProveTask * ProveTask * bool :=
  if is_reply_state (pt_state src) then
    let dst := dst <| pt_state := pt_state src |> in
    let '(src, dst) :=
      if negb (TASK_STATE_UNPROCESSED =? pt_state src) then
        let dst := dst <| pt_trace := pt_trace dst <| tr_finish_ts := now |> |> in
        let src := src <| pt_trace :=
          pt_trace src <| tr_finish_ts := tr_finish_ts (pt_trace dst) |> |> in
        let dst := dst <| pt_trace :=
          pt_trace dst <| tr_node_info := tr_node_info (pt_trace src) |> |> in
        (src, dst <| pt_output := pt_output src |>)
      else (src, dst) in
    if TASK_STATE_FAILED =? pt_state src then
      if pt_failure_count dst <? 3
      then (src, dst <| pt_failure_count := u32_wrap (pt_failure_count dst + 1) |>,
            is_error)
      else (src, dst, true)
    else (src, dst, is_error)
  else (src, dst, is_error).

(** [get_task!]: the clone to dispatch, if the task is ready, and the stored task. *)
Definition get_task `{IsTask T} (now : Z) (src : T) : option T * T :=
  if is_ready_state (t_state src) then
    let src := t_with_state TASK_STATE_PROCESSING src in
    let src := t_with_trace (t_trace src <| tr_start_ts := now |>) src in
    (Some src, src)
  else (None, src).

(** ** Queries *)

Definition is_success (s : Stage) : bool :=
  bool_decide (stage_step s = End)
  || (sn_state (stage_snark_task s) =? TASK_STATE_SUCCESS).

Definition is_error (s : Stage) : bool := stage_is_error s.

Definition count_unfinished_prove_tasks (s : Stage) : nat :=
  length (filter (λ t, pt_state t ≠ TASK_STATE_SUCCESS) (stage_prove_tasks s)).

Definition count_processing_prove_tasks (s : Stage) : nat :=
  length (filter (λ t, pt_state t = TASK_STATE_PROCESSING) (stage_prove_tasks s)).

(** ** Split *)

Definition get_split_task (now : Z) (s : Stage) : option SplitTask * Stage :=
  let '(r, t) := get_task now (stage_split_task s) in
  (r, s <| stage_split_task := t |>).

Definition on_split_task (now : Z) (split_task : SplitTask) (s : Stage) :
    SplitTask * Stage :=
  let dst := stage_split_task s
    <| st_total_steps := st_total_steps split_task |>
    <| st_total_segments := st_total_segments split_task |> in
  let '(src, dst, err) := on_task now split_task dst (stage_is_error s) in
  (src, s <| stage_split_task := dst |> <| stage_is_error := err |>).

(** ** Aggregation bookkeeping *)

(** The first aggregation task that waits for [task_id] stops waiting for it. *)
Fixpoint clear_child_in (task_id : string) (l : list AggTask) : list AggTask :=
  match l with
  | [] => []
  | t :: l =>
      let '(b, t') := clear_child_task task_id t in
      if (b : bool) then t' :: l else t' :: clear_child_in task_id l
  end.

Definition clear_agg_child_task (task_id : string) (s : Stage) : Stage :=
  s <| stage_agg_tasks := clear_child_in task_id (stage_agg_tasks s) |>.

(** ** Prove *)

(** The first ready prove task whose segment file exists. *)
Fixpoint pick_prove (fs : Fs) (now : Z) (l : list ProveTask) :
    option ProveTask * list ProveTask :=
  match l with
  | [] => (None, [])
  | t :: l' =>
      if is_ready_state (pt_state t) && fs_exists fs (pt_segment t) then
        let t := t <| pt_state := TASK_STATE_PROCESSING |>
                   <| pt_trace := pt_trace t <| tr_start_ts := now |> |> in
        (Some t, t :: l')
      else let '(r, l'') := pick_prove fs now l' in (r, t :: l'')
  end.

Definition get_prove_task (fs : Fs) (now : Z) (s : Stage) :
    option ProveTask * Stage :=
  let '(r, l) := pick_prove fs now (stage_prove_tasks s) in
  (r, s <| stage_prove_tasks := l |>).

(** The stored task a reply belongs to: same id, being processed. *)
Definition awaits_prove (id : string) (t : ProveTask) : bool :=
  String.eqb (pt_task_id t) id && (pt_state t =? TASK_STATE_PROCESSING).
Definition awaits_agg (id : string) (t : AggTask) : bool :=
  String.eqb (at_task_id t) id && (at_state t =? TASK_STATE_PROCESSING).

Definition on_prove_task (now : Z) (prove_task : ProveTask) (s : Stage) :
    ProveTask * Stage :=
  let id := pt_task_id prove_task in
  let '(src, s) :=
    match find_first (awaits_prove id) (stage_prove_tasks s) with
    | Some item =>
        let '(src, item', err) :=
          on_prove_task_macro now prove_task item (stage_is_error s) in
        (src, s <| stage_prove_tasks :=
                     update_first (awaits_prove id) (λ _, item') (stage_prove_tasks s) |>
                <| stage_is_error := err |>)
    | None => (prove_task, s)
    end in
  (src, if pt_state src =? TASK_STATE_SUCCESS
        then clear_agg_child_task (pt_task_id src) s else s).

(** ** Dispatching and finishing aggregation tasks *)

Definition has_child (t : AggTask) : bool :=
  existsb (λ c, match c with Some _ => true | None => false end) (at_childs t).

Fixpoint pick_agg (now : Z) (l : list AggTask) : option AggTask * list AggTask :=
  match l with
  | [] => (None, [])
  | t :: l' =>
      if negb (has_child t) && is_ready_state (at_state t) then
        let t := t <| at_state := TASK_STATE_PROCESSING |>
                   <| at_trace := at_trace t <| tr_start_ts := now |> |> in
        (Some t, t :: l')
      else let '(r, l'') := pick_agg now l' in (r, t :: l'')
  end.

(** An input takes the output of the task that computes it; the [unwrap] of the
    search panics. *)
Definition fill_input (s : Stage) (input : AggregateInput) : outcome AggregateInput :=
  let id := ai_computed_request_id input in
  output ← (if ai_is_agg input
            then at_output <$> unwrap (find_first (λ x, String.eqb (at_task_id x) id)
                                         (stage_agg_tasks s))
            else pt_output <$> unwrap (find_first (λ x, String.eqb (pt_task_id x) id)
                                         (stage_prove_tasks s)));
  mret (input <| ai_receipt_input := output |>).

Definition get_agg_task (now : Z) (s : Stage) : outcome (option AggTask * Stage) :=
  let '(r, l) := pick_agg now (stage_agg_tasks s) in
  let s := s <| stage_agg_tasks := l |> in
  match r with
  | Some t =>
      inputs ← mapM (fill_input s) (at_inputs t);
      mret (Some (t <| at_inputs := inputs |>), s)
  | None => mret (None, s)
  end.

Definition get_snark_task (now : Z) (s : Stage) : option SnarkTask * Stage :=
  let '(r, t) := get_task now (stage_snark_task s) in
  (r, s <| stage_snark_task := t |>).

(** ** Single node *)

Section stage.
Context `{E : !External}.

Definition get_single_node_task (s : Stage) : M SingleNodeTask :=
  let g := stage_generate_task s in
  id ← new_uuid;
  mret {| sg_task_id := id;
          sg_program_id := gt_program_id g;
          sg_base_dir := gt_base_dir g;
          sg_proof_id := gt_proof_id g;
          sg_state := TASK_STATE_UNPROCESSED;
          sg_elf_path := gt_elf_path g;
          sg_private_input_path := gt_private_input_path g;
          sg_receipt_inputs_path := gt_receipt_inputs_path g;
          sg_target_step := gt_target_step g;
          sg_seg_size := gt_seg_size g;
          sg_trace := Trace_default;
          sg_output := [];
          sg_total_cycles := 0 |}.

(** [File::create(..).unwrap_or_else(panic)] and [write_all(..).unwrap()] *)
Definition create_or_panic (path : string) (data : bytes) : M () :=
  ok ← create_m path data;
  lift (rust_assert ok).

Definition on_single_node_task (t : SingleNodeTask) (s : Stage) : M Stage :=
  if sg_state t =? TASK_STATE_SUCCESS then
    (if decide (gt_target_step (stage_generate_task s) = Agg)
     then create_or_panic (gt_snark_path (stage_generate_task s)) (sg_output t)
     else mret tt);;
    mret (s <| stage_step := End |>)
  else mret (s <| stage_is_error := true |>).

(** ** Aggregation replies *)

Definition on_agg_task (now : Z) (agg_task : AggTask) (s : Stage) :
    M (AggTask * Stage) :=
  let id := at_task_id agg_task in
  let '(src, s) :=
    match find_first (awaits_agg id) (stage_agg_tasks s) with
    | Some item =>
        let '(src, item', err) := on_task now agg_task item (stage_is_error s) in
        (src, s <| stage_agg_tasks :=
                     update_first (awaits_agg id) (λ _, item') (stage_agg_tasks s) |>
                <| stage_is_error := err |>)
    | None => (agg_task, s)
    end in
  if at_state src =? TASK_STATE_SUCCESS then
    let s := clear_agg_child_task (at_task_id src) s in
    (if at_is_final src
        && bool_decide (gt_target_step (stage_generate_task s) = Agg)
     then create_or_panic (gt_snark_path (stage_generate_task s)) (at_output src)
     else mret tt);;
    mret (src, s)
  else mret (src, s).

Definition on_snark_task (now : Z) (snark_task : SnarkTask) (s : Stage) :
    M (SnarkTask * Stage) :=
  create_or_panic (gt_snark_path (stage_generate_task s)) (sn_output snark_task);;
  let '(src, dst, err) :=
    on_task now snark_task (stage_snark_task s) (stage_is_error s) in
  mret (src, s <| stage_snark_task := dst |> <| stage_is_error := err |>).

(** ** Generating the tasks *)

Definition gen_split_task (s : Stage) : M Stage :=
  let g := stage_generate_task s in
  let t := stage_split_task s in
  lift (rust_assert (st_state t =? TASK_STATE_INITIAL));;
  id ← new_uuid;
  mret (s <| stage_split_task := {|
    st_task_id := id;
    st_program_id := gt_program_id g;
    st_state := TASK_STATE_UNPROCESSED;
    st_proof_id := gt_proof_id g;
    st_base_dir := gt_base_dir g;
    st_elf_path := gt_elf_path g;
    st_seg_path := gt_seg_path g;
    st_public_input_path := gt_public_input_path g;
    st_private_input_path := gt_private_input_path g;
    st_output_path := gt_output_stream_path g;
    st_args := st_args t;
    st_block_no := gt_block_no g;
    st_seg_size := gt_seg_size g;
    st_recepit_inputs_path := gt_receipt_inputs_path g;
    st_trace := st_trace t;
    st_output := st_output t;
    st_total_steps := st_total_steps t;
    st_total_segments := st_total_segments t |} |>).

Definition task_with_no (g : GenerateTask) (file_no : Z) : M ProveTask :=
  id ← new_uuid;
  program ← gen_program g;
  mret {| pt_task_id := id;
          pt_program_id := gt_program_id g;
          pt_proof_id := gt_proof_id g;
          pt_state := TASK_STATE_UNPROCESSED;
          pt_trace := Trace_default;
          pt_base_dir := gt_base_dir g;
          pt_file_no := file_no;
          pt_is_deferred := false;
          pt_segment := gt_seg_path g +:+ "/" +:+ pretty file_no;
          pt_program := program;
          pt_output := [];
          pt_failure_count := 0 |}.

(** Tasks for the file numbers from [lo] up to [hi], excluded. *)
Definition tasks_with_nos (g : GenerateTask) (lo hi : Z) : M (list ProveTask) :=
  mapM (task_with_no g) (seqZ lo (hi - lo)).

(** The number in "segments.txt", if the file is there and holds one. *)
Definition read_segments_txt (g : GenerateTask) : M (option Z) :=
  content ← read_m (gt_seg_path g +:+ "/segments.txt");
  mret (c ← content; parse_usize (trim (String.string_of_list_byte c))).

Definition gen_prove_task (s : Stage) : M Stage :=
  let g := stage_generate_task s in
  if bool_decide (gt_target_step g = Split) || stage_is_tasks_gen_done s then mret s
  else
    s ← (match stage_prove_tasks s with
         | [] => ts ← tasks_with_nos g 0 64; mret (s <| stage_prove_tasks := ts |>)
         | _ => mret s
         end) : M Stage;
    file_numbers ← read_segments_txt g;
    match file_numbers with
    | None => mret s
    | Some n =>
        ts ← tasks_with_nos g (len (stage_prove_tasks s)) n;
        mret (s <| stage_prove_tasks := stage_prove_tasks s ++ ts |>)
    end.

(** The deferred proofs among the names of a directory, by number; equal numbers
    keep their order. *)
Definition deferred_file (file_name : string) : option (Z * string) :=
  name ← strip_prefix "deferred_proof_" file_name;
  num ← parse_usize name;
  Some (num, file_name).

Fixpoint insert_by_no (x : Z * string) (l : list (Z * string)) : list (Z * string) :=
  match l with
  | [] => [x]
  | y :: l' => if x.1 <=? y.1 then x :: l else y :: insert_by_no x l'
  end.
Definition sort_by_no (l : list (Z * string)) : list (Z * string) :=
  foldr insert_by_no [] l.

Definition deferred_files (files : list string) : list (Z * string) :=
  sort_by_no (omap deferred_file files).

Definition deferred_task (g : GenerateTask) (f : Z * string) : M ProveTask :=
  let '(file_no, file_name) := f in
  id ← new_uuid;
  program ← gen_program g;
  output ← safe_read (gt_seg_path g +:+ "/" +:+ file_name);
  mret (ProveTask_default
    <| pt_task_id := id |>
    <| pt_proof_id := gt_proof_id g |>
    <| pt_state := TASK_STATE_SUCCESS |>
    <| pt_base_dir := gt_base_dir g |>
    <| pt_file_no := file_no |>
    <| pt_is_deferred := true |>
    <| pt_program := program |>
    <| pt_output := output |>).

(** All the segments' tasks, no more: too many are dropped, missing ones added. *)
Definition complete_prove_tasks (s : Stage) : M Stage :=
  let total := st_total_segments (stage_split_task s) in
  if total <? len (stage_prove_tasks s)
  then mret (s <| stage_prove_tasks := take (Z.to_nat total) (stage_prove_tasks s) |>)
  else
    missing_tasks ← tasks_with_nos (stage_generate_task s)
                      (len (stage_prove_tasks s)) total;
    mret (s <| stage_prove_tasks := stage_prove_tasks s ++ missing_tasks |>).

Definition gen_prove_task_post (feature : Feature) (s : Stage) : M Stage :=
  let g := stage_generate_task s in
  s ← complete_prove_tasks s;
  match feature with
  | feature_prover_v2 =>
      files ← file_read_dir (gt_seg_path g);
      files ← lift (unwrap files);
      ts ← mapM (deferred_task g) (deferred_files files);
      mret (s <| stage_prove_tasks := stage_prove_tasks s ++ ts |>)
  | feature_prover =>
      if len (stage_prove_tasks s) <? 2
      then mret (s <| stage_is_error := true |>
                   <| stage_errmsg := "Segment count is " +:+
                        pretty (len (stage_prove_tasks s)) +:+
                        ", please reduce SEG_SIZE !" |>)
      else mret s
  end.

(** ** Generating the aggregation tasks *)

Fixpoint for_each {A S} (f : A → S → M S) (l : list A) (s : S) : M S :=
  match l with
  | [] => mret s
  | x :: l => s ← f x s; for_each f l s
  end.

Definition mark_last_final (l : list AggTask) : list AggTask :=
  match reverse l with
  | [] => []
  | t :: l' => reverse (t <| at_is_final := true |> :: l')
  end.

(** *** feature "prover": a binary tree over the prove tasks

    The counter is pre-incremented; an odd prove task enters the tree as a finished
    aggregation task of the same id. *)

Definition leaf_pair (tasks : list ProveTask) (i : nat)
    (acc : Z * list AggTask) : M (Z * list AggTask) :=
  let '(agg_index, result) := acc in
  let agg_index := i32_wrap (agg_index + 1) in
  left ← lift (unwrap (tasks !! i));
  right ← lift (unwrap (tasks !! S i));
  t ← init_from_two_prove_task left right agg_index;
  mret (agg_index, result ++ [t]).

Definition node_pair (tasks : list AggTask) (i : nat)
    (acc : Z * list AggTask) : M (Z * list AggTask) :=
  let '(agg_index, result) := acc in
  let agg_index := i32_wrap (agg_index + 1) in
  left ← lift (unwrap (tasks !! i));
  right ← lift (unwrap (tasks !! S i));
  t ← init_from_two_agg_task left right agg_index;
  mret (agg_index, result ++ [t]).

(** The first layer: pairs, then the odd one. *)
Definition first_layer (tasks : list ProveTask) : M (Z * list AggTask) :=
  let n := length tasks in
  '(agg_index, result) ← for_each (leaf_pair tasks) (step_by 0 (n - 1) 2) (0, []);
  if Nat.odd n then
    last ← lift (unwrap (tasks !! (n - 1)%nat));
    mret (agg_index,
          result ++ [init_from_single_prove_task last (i32_wrap (agg_index + 1))])
  else mret (agg_index, result).

(** The [while current_length > 1] loop; a layer at least halves, so as many rounds
    as tasks are enough. *)
Fixpoint upper_layers (fuel : nat) (agg_index : Z) (all result : list AggTask) :
    M (list AggTask) :=
  let n := length result in
  if (n <=? 1)%nat then mret all else
  match fuel with
  | O => panic
  | S fuel =>
      '(agg_index, new_result) ←
        for_each (node_pair result) (step_by 0 (n - 1) 2) (agg_index, []);
      let all := all ++ new_result in
      carried ← (if Nat.odd n then t ← lift (unwrap (result !! (n - 1)%nat)); mret [t]
                 else mret []) : M (list AggTask);
      upper_layers fuel agg_index all (new_result ++ carried)
  end.

Definition gen_agg_tasks_prover (s : Stage) : M Stage :=
  match stage_prove_tasks s with
  | [] => panic (* [current_length - 1] underflows *)
  | tasks =>
      '(agg_index, result) ← first_layer tasks;
      all ← upper_layers (length result) agg_index (stage_agg_tasks s ++ result) result;
      mret (s <| stage_agg_tasks := mark_last_final all |>)
  end.

(** *** feature "prover_v2": batches

    The first layer has one task per batch of normal prove tasks and one per
    deferred proof; every later layer batches the one before by two. *)

Definition batch_size : nat := 2.

Definition leaf_batch (vk : bytes) (is_complete : bool)
    (numbered_batch : nat * list ProveTask) (acc : Z * list AggTask) :
    M (Z * list AggTask) :=
  let '(batch_index, batch) := numbered_batch in
  let '(agg_index, result) := acc in
  t ← init_from_prove_tasks vk batch agg_index is_complete
        (batch_index =? 0)%nat false;
  mret (i32_wrap (agg_index + 1), result ++ [t]).

Definition deferred_batch (vk : bytes) (is_complete : bool) (task : ProveTask)
    (acc : Z * list AggTask) : M (Z * list AggTask) :=
  let '(agg_index, result) := acc in
  t ← init_from_prove_tasks vk [task] agg_index is_complete false true;
  mret (i32_wrap (agg_index + 1), result ++ [t]).

Definition node_batch (batch : list AggTask) (acc : Z * list AggTask) :
    M (Z * list AggTask) :=
  let '(agg_index, result) := acc in
  t ← init_from_agg_tasks batch agg_index false;
  mret (i32_wrap (agg_index + 1), result ++ [t]).

Definition first_layer_v2 (vk : bytes) (tasks : list ProveTask) :
    M (Z * list AggTask) :=
  let normal := filter (λ t, pt_is_deferred t = false) tasks in
  let deferred := filter (λ t, pt_is_deferred t = true) tasks in
  let is_complete := (length normal =? 1)%nat && (length deferred =? 0)%nat in
  acc ← for_each (leaf_batch vk is_complete)
          (imap pair (chunks FIRST_LAYER_BATCH_SIZE normal)) (0, []);
  for_each (deferred_batch vk is_complete) deferred acc.

Fixpoint upper_layers_v2 (fuel : nat) (agg_index : Z) (all result : list AggTask) :
    M (list AggTask) :=
  let n := length result in
  if (n <=? 1)%nat then mret all else
  match fuel with
  | O => panic
  | S fuel =>
      '(agg_index, new_result) ←
        for_each node_batch (chunks batch_size result) (agg_index, []);
      upper_layers_v2 fuel agg_index (all ++ new_result) new_result
  end.

Definition gen_agg_tasks_prover_v2 (s : Stage) : M Stage :=
  vk ← file_read (gt_base_dir (stage_generate_task s) +:+ "/vk.bin");
  vk ← lift (unwrap vk);
  '(agg_index, result) ← first_layer_v2 vk (stage_prove_tasks s);
  all ← upper_layers_v2 (length result) agg_index (stage_agg_tasks s ++ result) result;
  mret (s <| stage_agg_tasks := mark_last_final all |>).

Definition gen_agg_tasks (feature : Feature) : Stage → M Stage :=
  match feature with
  | feature_prover => gen_agg_tasks_prover
  | feature_prover_v2 => gen_agg_tasks_prover_v2
  end.

(** *** The final task *)

Definition gen_snark_task (s : Stage) : M Stage :=
  let g := stage_generate_task s in
  let t := stage_snark_task s in
  lift (rust_assert (sn_state t =? TASK_STATE_INITIAL));;
  id ← new_uuid;
  let t := t <| sn_proof_id := gt_proof_id g |>
             <| sn_input_dir := gt_agg_path g |>
             <| sn_output_path := gt_snark_path g |>
             <| sn_task_id := id |>
             <| sn_state := TASK_STATE_UNPROCESSED |> in
  match gt_from_step g with
  | Init =>
      (* every final aggregation task assigns; the last one stays *)
      let t := foldl (λ t a, if at_is_final a
                             then t <| sn_agg_receipt := at_output a |>
                                    <| sn_from_input := false |>
                             else t) t (stage_agg_tasks s) in
      mret (s <| stage_snark_task := t |>)
  | Agg =>
      receipt_datas ← read_m (gt_receipt_inputs_path g);
      receipt_datas ← lift (unwrap receipt_datas);
      receipts ← lift (unwrap (bincode_de receipt_datas));
      receipt ← lift (unwrap (head receipts));
      mret (s <| stage_snark_task :=
                   t <| sn_agg_receipt := receipt |> <| sn_from_input := true |> |>)
  | _ => panic
  end.

(** ** dispatch *)

Definition all_prove_success (s : Stage) : bool :=
  forallb (λ t, pt_state t =? TASK_STATE_SUCCESS) (stage_prove_tasks s).
Definition all_agg_success (s : Stage) : bool :=
  forallb (λ t, at_state t =? TASK_STATE_SUCCESS) (stage_agg_tasks s).

(** The finished split: the remaining tasks are generated, and the aggregation
    tasks stop waiting for the prove tasks that are already done. *)
Definition on_split_done (feature : Feature) (s : Stage) : M Stage :=
  s ← gen_prove_task_post feature s;
  s ← (if negb (gt_composite_proof (stage_generate_task s))
       then gen_agg_tasks feature s else mret s) : M Stage;
  let s := s <| stage_is_tasks_gen_done := true |> in
  let successful_task_ids :=
    pt_task_id <$> filter (λ t, pt_state t = TASK_STATE_SUCCESS) (stage_prove_tasks s) in
  mret (foldl (λ s id, clear_agg_child_task id s) s successful_task_ids).

(** The end of the proving step. *)
Definition finish_prove (s : Stage) : M Stage :=
  if stage_is_tasks_gen_done s && all_prove_success s then
    if gt_composite_proof (stage_generate_task s) then mret (s <| stage_step := End |>)
    else if all_agg_success s then
      if decide (gt_target_step (stage_generate_task s) = Agg)
      then mret (s <| stage_step := End |>)
      else s ← gen_snark_task s; mret (s <| stage_step := Snark |>)
    else mret s
  else mret s.

Definition dispatch_prove (feature : Feature) (s : Stage) : M Stage :=
  s ← gen_prove_task s;
  if (st_state (stage_split_task s) =? TASK_STATE_SUCCESS)
     && negb (stage_is_tasks_gen_done s)
  then
    if decide (gt_target_step (stage_generate_task s) = Split)
    then mret (s <| stage_step := End |>)
    else s ← on_split_done feature s; finish_prove s
  else finish_prove s.

Definition dispatch (feature : Feature) (s : Stage) : M Stage :=
  match stage_step s with
  | Init => s ← gen_split_task s; mret (s <| stage_step := Prove |>)
  | Prove => dispatch_prove feature s
  | Agg =>
      lift (rust_assert (bool_decide (gt_from_step (stage_generate_task s) = Agg)));;
      s ← gen_snark_task s;
      mret (s <| stage_step := Snark |>)
  | Snark =>
      mret (if sn_state (stage_snark_task s) =? TASK_STATE_SUCCESS
            then s <| stage_step := End |> else s)
  | _ => mret s
  end.

End stage.
