(* ===== verification/AggGraph.v ===== *)
(** * AggGraph: the graph [gen_agg_tasks] builds

    Each upper layer aggregates the layer below it.  The lemmas describe what one
    layer adds ([layer_of]), what all the upper layers add ([grows]) and, from these,
    the whole graph for either build feature. *)

From S2P Require Import Prelude Text Proto World Tasks Stage.

(** ** Vocabulary *)

(** The ids a task still waits for. *)
Definition child_ids (t : AggTask) : list string := omap id (at_childs t).

Abbreviation at_ids l := (at_task_id <$> l).
Abbreviation pt_ids l := (pt_task_id <$> l).

Abbreviation normal_tasks l := (filter (λ t, pt_is_deferred t = false) l).
Abbreviation deferred_tasks l := (filter (λ t, pt_is_deferred t = true) l).

Definition all_but_last {A} (l : list A) : list A := take (length l - 1) l.

(** A task that aggregates exactly [parts], in order, and waits for all of them. *)
Record aggregates (parts : list AggTask) (t : AggTask) : Prop := {
  ag_childs : at_childs t = (λ p, Some (at_task_id p)) <$> parts;
  ag_inputs : at_inputs t = to_agg_input <$> parts;
  ag_state : at_state t = TASK_STATE_UNPROCESSED;
  ag_final : at_is_final t = false;
  ag_from_prove : at_from_prove t = false
}.

(** A first-layer task over [parts]; deferred proofs are not waited for. *)
Record leaf_of (waits : bool) (parts : list ProveTask) (t : AggTask) : Prop := {
  lf_childs : at_childs t = if waits then (λ p, Some (pt_task_id p)) <$> parts else [];
  lf_inputs : at_inputs t = from_prove_task <$> parts;
  lf_state : at_state t = TASK_STATE_UNPROCESSED;
  lf_from_prove : at_from_prove t = false
}.

Lemma omap_id_Some {A B} (f : A → B) (l : list A) : omap id ((λ x, Some (f x)) <$> l) = f <$> l.
Proof. induction l as [|x l IH]; [done|]. cbn. f_equal. apply IH. Qed.

Lemma aggregates_child_ids parts t : aggregates parts t → child_ids t = at_ids parts.
Proof. intros []. unfold child_ids. by rewrite ag_childs0, omap_id_Some. Qed.

Lemma leaf_child_ids waits parts t :
  leaf_of waits parts t → child_ids t = if waits then pt_ids parts else [].
Proof.
  intros []. unfold child_ids. rewrite lf_childs0.
  destruct waits; [by rewrite omap_id_Some|done].
Qed.

Lemma all_but_last_app {A} (l1 l2 : list A) :
  l2 ≠ [] → all_but_last (l1 ++ l2) = l1 ++ all_but_last l2.
Proof.
  intros H. unfold all_but_last. rewrite length_app.
  assert (length l2 ≠ 0)%nat by (by destruct l2).
  replace (length l1 + length l2 - 1)%nat with (length l1 + (length l2 - 1))%nat by lia.
  by rewrite take_app_add.
Qed.

Lemma all_but_last_snoc {A} (l : list A) x : all_but_last (l ++ [x]) = l.
Proof. rewrite all_but_last_app by done. apply app_nil_r. Qed.

(** ** Loops *)

Section graph.
Context `{E : !External}.

(** A loop whose body appends one new task per element: each draws one id. *)
Lemma for_each_build {A B} (f : A → Z * list B → M (Z * list B))
    (P : A → B → Prop) (bid : B → string) l :
  (∀ x i acc w, x ∈ l → ∃ i' t, f x (i, acc) w = Ret ((i', acc ++ [t]), bump 1 w) ∧
       P x t ∧ bid t = uuid_v4 (w_uuids w)) →
  ∀ i acc w, ∃ i' new,
    for_each f l (i, acc) w = Ret ((i', acc ++ new), bump (length l) w) ∧
    Forall2 P l new ∧ bid <$> new = next_ids w (length l).
Proof.
  intros Hf. induction l as [|x l IH]; intros i acc w.
  - exists i, []. simpl. unfold mret, M_ret. by rewrite app_nil_r, bump_0.
  - destruct (Hf x i acc w) as (i1&t&Hx&HP&Hid); [left|].
    destruct (IH (λ y i acc w Hy, Hf y i acc w (list_elem_of_further _ _ _ Hy))
                i1 (acc ++ [t]) (bump 1 w)) as (i2&new&Hl&HF&Hids).
    exists i2, (t :: new). csimpl. rewrite (M_bind_run _ _ _ _ _ Hx), Hl.
    rewrite bump_bump, Nat.add_1_r, <-app_assoc. split_and!; [done|by constructor|].
    rewrite Hid, Hids. unfold next_ids. by rewrite w_uuids_bump.
Qed.

Lemma init_from_agg_tasks_run parts i w :
  parts ≠ [] →
  ∃ t, init_from_agg_tasks parts i false w = Ret (t, bump 1 w) ∧
    aggregates parts t ∧ at_task_id t = uuid_v4 (w_uuids w).
Proof.
  destruct parts as [|p parts]; [done|]. intros _. eexists. split; [reflexivity|].
  by split.
Qed.

Lemma init_from_two_agg_task_run l r i w :
  ∃ t, init_from_two_agg_task l r i w = Ret (t, bump 1 w) ∧
    aggregates [l; r] t ∧ at_task_id t = uuid_v4 (w_uuids w).
Proof. eexists. split; [reflexivity|]. by split. Qed.

Lemma init_from_two_prove_task_run l r i w :
  ∃ t, init_from_two_prove_task l r i w = Ret (t, bump 1 w) ∧
    leaf_of true [l; r] t ∧ at_is_final t = false ∧
    at_task_id t = uuid_v4 (w_uuids w).
Proof. eexists. split; [reflexivity|]. by split. Qed.

Lemma init_from_prove_tasks_run vk parts i fin fst def w :
  parts ≠ [] →
  ∃ t, init_from_prove_tasks vk parts i fin fst def w = Ret (t, bump 1 w) ∧
    leaf_of (negb def) parts t ∧ at_is_final t = fin ∧
    at_task_id t = uuid_v4 (w_uuids w).
Proof.
  destruct parts as [|p parts]; [done|]. intros _.
  unfold init_from_prove_tasks, mbind, M_bind. simpl.
  eexists. split; [reflexivity|]. by destruct def.
Qed.

(** ** Upper layers *)

(** What the layers above [base] add: every id of the whole but the last one is
    awaited exactly once, a task aggregates tasks that come before it, and the last
    task reads what [base] reads, left to right, for any reading [rd] that follows
    the aggregation. *)
Record grows (base new : list AggTask) : Prop := {
  gr_children : new ≫= child_ids ≡ₚ at_ids (all_but_last (base ++ new));
  gr_order : ∀ k t, new !! k = Some t →
    ∃ parts, parts ≠ [] ∧ parts ⊆ base ++ take k new ∧ aggregates parts t;
  gr_root : ∀ (rd : AggTask → list string → Prop) lss,
    (∀ k t parts lss, new !! k = Some t → parts ⊆ base ++ take k new →
       aggregates parts t → Forall2 rd parts lss → rd t (concat lss)) →
    Forall2 rd base lss →
    ∃ root, last (base ++ new) = Some root ∧ rd root (concat lss)
}.

Lemma grows_nil t : grows [t] [].
Proof.
  split; [done|intros k t' H; by rewrite lookup_nil in H|].
  intros rd lss _ (ls&lss'&Hrd&->%Forall2_nil_inv_l&->)%Forall2_cons_inv_l.
  exists t. simpl. by rewrite app_nil_r.
Qed.

(** One layer [new] over [base], which leaves [carried] to the next one. *)
Record layer_of (base new carried : list AggTask) : Prop := {
  la_parts : ∃ partss, base = concat partss ++ carried ∧
    Forall2 aggregates partss new ∧ Forall (λ p, p ≠ []) partss;
  la_new : new ≠ []
}.

Lemma layer_children base new carried :
  layer_of base new carried → at_ids base = (new ≫= child_ids) ++ at_ids carried.
Proof.
  intros [(partss&->&HF&_) _]. rewrite fmap_app. f_equal.
  induction HF as [|p t ps ts Hp _ IH]; [done|].
  rewrite bind_cons. simpl. rewrite fmap_app, IH. f_equal.
  symmetry. by apply aggregates_child_ids.
Qed.

Lemma layer_order base new carried k t :
  layer_of base new carried → new !! k = Some t →
  ∃ parts, parts ≠ [] ∧ parts ⊆ base ∧ aggregates parts t.
Proof.
  intros [(partss&->&HF&Hne) _] Ht.
  destruct (Forall2_lookup_r _ _ _ _ _ HF Ht) as (p&Hp&Hagg).
  exists p. split; [by eapply Forall_lookup_1 in Hne|]. split; [|done].
  intros x Hx. apply elem_of_app. left. apply list_elem_of_In, in_concat.
  exists p. split; apply list_elem_of_In; [|done]. by eapply list_elem_of_lookup_2.
Qed.

(** A layer reads what the tasks below it read. *)
Lemma reads_layer (rd : AggTask → list string → Prop) partss layer lss :
  Forall2 aggregates partss layer → Forall2 rd (concat partss) lss →
  (∀ k t parts lss, layer !! k = Some t → parts ⊆ concat partss →
     aggregates parts t → Forall2 rd parts lss → rd t (concat lss)) →
  ∃ ls, Forall2 rd layer ls ∧ concat lss = concat ls.
Proof.
  intros HF. revert lss. induction HF as [|parts t ps ts Hp _ IH]; intros lss Hrd Hag.
  - apply Forall2_nil_inv_l in Hrd as ->. by exists [].
  - cbn [concat] in Hrd. apply Forall2_app_inv_l in Hrd as (l1&l2&H1&H2&->).
    destruct (IH l2 H2) as (ls&Hls&Hc).
    { intros k u parts' lss' Hu Hsub. apply (Hag (S k)); [done|]. simpl. set_solver. }
    exists (concat l1 :: ls). rewrite concat_app, Hc. split; [|done]. constructor; [|done].
    apply (Hag 0%nat t parts); [done|simpl; set_solver|done..].
Qed.

Lemma grows_layer base layer carried new :
  layer_of base layer carried →
  (carried ≠ [] → new ≠ []) →
  grows (layer ++ carried) new →
  grows base (layer ++ new).
Proof.
  intros HL Hc [Hch Hord Hrt]. pose proof (layer_children _ _ _ HL) as Hb.
  pose proof (la_new _ _ _ HL) as Hne. split.
  - rewrite bind_app. rewrite all_but_last_app by (by destruct layer).
    rewrite fmap_app, Hb, Hch, <-!app_assoc. f_equiv.
    destruct new as [|n new].
    + destruct carried; [by rewrite !app_nil_r|]. by exfalso; apply Hc.
    + rewrite !all_but_last_app by (by destruct carried).
      rewrite !fmap_app. solve_Permutation.
  - intros k t Ht. destruct (decide (k < length layer)%nat).
    + rewrite lookup_app_l in Ht by done.
      destruct (layer_order _ _ _ _ _ HL Ht) as (parts&?&?&?).
      exists parts. split_and!; [done| |done]. set_solver.
    + rewrite lookup_app_r in Ht by lia.
      destruct (Hord _ _ Ht) as (parts&?&Hsub&?).
      exists parts. split_and!; [done| |done].
      rewrite take_app_ge by lia.
      assert (carried ⊆ base).
      { destruct HL as [(ps&->&_) _]. set_solver. }
      set_solver.
  - intros rd lss Hrd Hbase. destruct HL as [(ps&->&HF&Hps) _].
    apply Forall2_app_inv_l in Hbase as (l1&l2&H1&H2&->).
    destruct (reads_layer rd ps layer l1 HF H1) as (ls&Hls&Hcl).
    { intros k t parts lss Ht Hsub Hag. apply (Hrd k t parts lss); [|set_solver|done].
      by apply lookup_app_l_Some. }
    destruct (Hrt rd (ls ++ l2)) as (root&Hroot&Hr).
    + intros k t parts lss Ht Hsub Hag. apply (Hrd (length layer + k)%nat t parts lss).
      * by rewrite lookup_app_r, Nat.add_sub' by lia.
      * rewrite take_app_add'; [|lia]. set_solver.
      * done.
    + by apply Forall2_app.
    + exists root. split; [|by rewrite concat_app, Hcl, <-concat_app]. revert Hroot.
      destruct new as [|n new _] using rev_ind.
      * destruct carried; [|by exfalso; apply Hc]. rewrite !app_nil_r, !last_app.
        destruct layer as [|x layer _] using rev_ind; [done|]. by rewrite last_snoc.
      * by rewrite !app_assoc, !last_snoc.
Qed.

Lemma half_up_bounds n : (n ≤ 2 * ((n + 1) / 2) ≤ n + 1)%nat.
Proof. halve (n + 1)%nat. lia. Qed.

(** *** prover_v2: batches of two *)

Lemma node_batches_layer result i acc w :
  result ≠ [] →
  ∃ i' new,
    for_each node_batch (chunks batch_size result) (i, acc) w =
      Ret ((i', acc ++ new), bump (length new) w) ∧
    layer_of result new [] ∧ at_ids new = next_ids w (length new) ∧
    length new = ((length result + 1) / 2)%nat.
Proof.
  intros Hne. pose proof (chunks_nonempty batch_size result ltac:(unfold batch_size; lia)) as Hc.
  destruct (for_each_build node_batch aggregates at_task_id
              (chunks batch_size result)) with (i := i) (acc := acc) (w := w)
    as (i'&new&Hrun&HF&Hids).
  { intros b j l w' Hb. eapply Forall_forall in Hc; [|done].
    destruct (init_from_agg_tasks_run b j w' Hc) as (t&Ht&?&?).
    eexists _, t. unfold node_batch. by rewrite (M_bind_run _ _ _ _ _ Ht). }
  pose proof (length_chunks batch_size result ltac:(unfold batch_size; lia)) as Hl.
  rewrite (Forall2_length _ _ _ HF) in Hrun, Hids, Hl.
  exists i', new. split_and!; [done| |done|done].
  assert (new ≠ []).
  { intros ->. pose proof (half_up_bounds (length result)) as Hb.
    assert (0 = (length result + 1) / 2)%nat as Hl' by exact Hl.
    rewrite <-Hl' in Hb. destruct result; [done|]. simpl in Hb. lia. }
  split; [|done].
  exists (chunks batch_size result). split_and!; [|done|done].
  rewrite concat_chunks by (unfold batch_size; lia). by rewrite app_nil_r.
Qed.

Lemma upper_layers_v2_run fuel i all result w :
  (length result ≤ fuel)%nat → result ≠ [] →
  ∃ new, upper_layers_v2 fuel i all result w = Ret (all ++ new, bump (length new) w) ∧
    grows result new ∧ at_ids new = next_ids w (length new) ∧
    (length result + length new ≤ 3 * length result - 2)%nat.
Proof.
  revert i all result w. induction fuel as [|fuel IH]; intros i all result w Hf Hne.
  { by destruct result; [|simpl in Hf; lia]. }
  cbn [upper_layers_v2]. destruct (Nat.leb_spec (length result) 1).
  { destruct result as [|t [|]]; [done| |simpl in *; lia]. exists [].
    unfold mret, M_ret. rewrite app_nil_r, bump_0. split_and!; [done|apply grows_nil|done|].
    simpl. lia. }
  destruct (node_batches_layer result i [] w Hne) as (i'&layer&Hrun&HL&Hids&Hlen).
  assert (length layer < length result)%nat.
  { pose proof (half_up_bounds (length result)). lia. }
  assert (length result ≤ 2 * length layer ≤ length result + 1)%nat.
  { rewrite Hlen. apply half_up_bounds. }
  rewrite (M_bind_run _ _ _ _ _ Hrun). simpl.
  destruct (IH i' (all ++ layer) layer (bump (length layer) w)) as (new&Hnew&HG&Hnids&Hb);
    [lia|by apply HL|].
  exists (layer ++ new). rewrite Hnew, bump_bump, length_app, <-app_assoc.
  split_and!; [by rewrite (Nat.add_comm (length new))| | |lia].
  - eapply grows_layer; [done|done|]. by rewrite app_nil_r.
  - by rewrite fmap_app, next_ids_app, Hids, Hnids.
Qed.

(** *** prover: pairs, with the odd task carried over *)

Definition carried {A} (l : list A) : list A :=
  if Nat.odd (length l) then drop (length l - 1) l else [].

Lemma step_by_pairs n :
  step_by 0 (S (S n) - 1) 2 = 0%nat :: ((λ i, S (S i)) <$> step_by 0 (n - 1) 2).
Proof.
  unfold step_by.
  assert ((S (S n) - 1 - 0 + (2 - 1)) / 2 = S ((n - 1 - 0 + (2 - 1)) / 2))%nat as ->.
  { destruct n as [|n]; [done|].
    replace (S (S (S n)) - 1 - 0 + (2 - 1))%nat with (1 * 2 + (S n - 1 - 0 + (2 - 1)))%nat by lia.
    rewrite Nat.div_add_l; lia. }
  cbn [seq]. csimpl. f_equal. rewrite <-seq_shift, <-!list_fmap_compose.
  apply list_fmap_ext. intros j x _. simpl. lia.
Qed.

Lemma pairs_layer {A B} (P : list A → B → Prop) (l : list A) new :
  Forall2 (λ i t, ∃ a b, l !! i = Some a ∧ l !! S i = Some b ∧ P [a; b] t)
    (step_by 0 (length l - 1) 2) new →
  ∃ partss, l = concat partss ++ carried l ∧ Forall2 P partss new ∧
    Forall (λ p, length p = 2%nat) partss.
Proof.
  remember (length l) as n eqn:Hn. revert l new Hn.
  induction (Nat.lt_wf_0 n) as [n _ IH]; intros l new Hn HF.
  destruct l as [|a [|b l]].
  - simpl in Hn. subst n. apply Forall2_nil_inv_l in HF as ->. by exists [].
  - simpl in Hn. subst n. apply Forall2_nil_inv_l in HF as ->. by exists [].
  - simpl in Hn. subst n. rewrite step_by_pairs in HF.
    apply Forall2_cons_inv_l in HF as (t&new'&(a'&b'&Ha&Hb&HP)&HF&->).
    simplify_eq/=. apply Forall2_fmap_l in HF.
    destruct (IH (length l) ltac:(lia) l new' eq_refl) as (ps&Hl&HF'&Hne); [exact HF|].
    exists ([a'; b'] :: ps). split_and!; [|by constructor|by constructor].
    simpl. do 2 f_equal. rewrite Hl at 1. f_equal. unfold carried. simpl.
    change (Nat.odd (S (S (length l)))) with (Nat.odd (length l)).
    destruct (Nat.odd (length l)) eqn:Ho; [|done].
    destruct l; [done|]. simpl. by rewrite Nat.sub_0_r.
Qed.

Lemma length_carried {A} (l : list A) :
  length (carried l) = if Nat.odd (length l) then 1%nat else 0%nat.
Proof.
  unfold carried. destruct (Nat.odd (length l)) eqn:Ho; [|done].
  rewrite length_drop. destruct l; [done|]. simpl. lia.
Qed.

Lemma length_concat_pairs {A} (ps : list (list A)) :
  Forall (λ p, length p = 2%nat) ps → length (concat ps) = (2 * length ps)%nat.
Proof. induction 1; simpl; [done|]. rewrite length_app. lia. Qed.

Lemma length_pairs {A} (l : list A) ps :
  l = concat ps ++ carried l → Forall (λ p, length p = 2%nat) ps →
  length ps = (length l / 2)%nat.
Proof.
  intros Hl Hp. apply (f_equal length) in Hl.
  rewrite length_app, length_carried, length_concat_pairs in Hl by done.
  halve (length l). destruct (Nat.odd (length l)); lia.
Qed.

Lemma step_by_lookup (n i : nat) : i ∈ step_by 0 (n - 1) 2 → (S i < n)%nat.
Proof.
  unfold step_by. intros (j&->&Hj%elem_of_seq)%list_elem_of_fmap.
  destruct Hj as [_ Hj]. rewrite Nat.add_0_l in Hj.
  assert (j < (n - 1 - 0 + (2 - 1)) / 2)%nat as Hj' by lia.
  pose proof (Nat.Div0.mul_div_le (n - 1 - 0 + (2 - 1)) 2). lia.
Qed.

Lemma lookup_last {A} (l : list A) :
  l ≠ [] → ∃ x, l !! (length l - 1)%nat = Some x ∧ drop (length l - 1) l = [x].
Proof.
  intros Hne. destruct (lookup_lt_is_Some_2 l (length l - 1)) as [x Hx].
  { destruct l; [done|simpl; lia]. }
  exists x. split; [done|]. erewrite drop_S by done.
  rewrite drop_ge; [done|]. lia.
Qed.

(** The pairing loop over the indices of [l], for a body that builds a task of
    [P [a; b]] from neighbours [a] and [b]. *)
Lemma for_each_pairs {A B} (f : list A → nat → Z * list B → M (Z * list B))
    (P : list A → B → Prop) (bid : B → string) (l : list A) i acc w :
  (∀ j a b i acc w, l !! j = Some a → l !! S j = Some b →
     ∃ i' t, f l j (i, acc) w = Ret ((i', acc ++ [t]), bump 1 w) ∧
       P [a; b] t ∧ bid t = uuid_v4 (w_uuids w)) →
  ∃ i' new partss,
    for_each (f l) (step_by 0 (length l - 1) 2) (i, acc) w =
      Ret ((i', acc ++ new), bump (length new) w) ∧
    l = concat partss ++ carried l ∧ Forall2 P partss new ∧
    Forall (λ p, p ≠ []) partss ∧ bid <$> new = next_ids w (length new) ∧
    length new = (length l / 2)%nat.
Proof.
  intros Hf.
  destruct (for_each_build (f l)
    (λ j t, ∃ a b, l !! j = Some a ∧ l !! S j = Some b ∧ P [a; b] t) bid
    (step_by 0 (length l - 1) 2)) with (i := i) (acc := acc) (w := w)
    as (i'&new&Hrun&HF&Hids).
  { intros j i1 acc1 w1 Hj%step_by_lookup.
    destruct (lookup_lt_is_Some_2 l j) as [a Ha]; [lia|].
    destruct (lookup_lt_is_Some_2 l (S j)) as [b Hb]; [lia|].
    destruct (Hf j a b i1 acc1 w1 Ha Hb) as (i2&t&?&?&?). eauto 10. }
  destruct (pairs_layer P l new HF) as (ps&Hl&HF'&Hp).
  rewrite (Forall2_length _ _ _ HF) in Hrun, Hids.
  exists i', new, ps. split_and!; try done.
  - eapply Forall_impl; [done|]. by intros [].
  - rewrite <-(Forall2_length _ _ _ HF'). by apply length_pairs.
Qed.

Lemma upper_layers_run fuel i all result w :
  (length result ≤ fuel)%nat → result ≠ [] →
  ∃ new, upper_layers fuel i all result w = Ret (all ++ new, bump (length new) w) ∧
    grows result new ∧ at_ids new = next_ids w (length new) ∧
    length new = (length result - 1)%nat.
Proof.
  revert i all result w. induction fuel as [|fuel IH]; intros i all result w Hf Hne.
  { by destruct result; [|simpl in Hf; lia]. }
  cbn [upper_layers]. destruct (Nat.leb_spec (length result) 1).
  { destruct result as [|t [|]]; [done| |simpl in *; lia]. exists [].
    unfold mret, M_ret. rewrite app_nil_r, bump_0. split_and!; [done|apply grows_nil|done..]. }
  destruct (for_each_pairs node_pair aggregates at_task_id result i [] w)
    as (i'&layer&ps&Hrun&Hl&HF&Hpne&Hids&Hlen).
  { intros j a b i1 acc w1 Ha Hb.
    destruct (init_from_two_agg_task_run a b (i32_wrap (i1 + 1)) w1) as (t&Ht&?&?).
    eexists _, t. unfold node_pair. rewrite Ha, Hb.
    unfold mbind at 1 2, M_bind. simpl. by rewrite (M_bind_run _ _ _ _ _ Ht). }
  rewrite (M_bind_run _ _ _ _ _ Hrun). simpl.
  assert (∀ w, (if Nat.odd (length result)
     then t ← lift (unwrap (result !! (length result - 1)%nat)); mret [t]
     else mret []) w = Ret (carried result, w)) as Hcarry.
  { intros w'. unfold carried. destruct (Nat.odd (length result)); [|done].
    destruct (lookup_last result Hne) as (x&Hx&->). by rewrite Hx. }
  rewrite (M_bind_run _ _ _ _ _ (Hcarry _)).
  pose proof (length_carried result) as Hcl.
  halve (length result).
  assert (length (layer ++ carried result) = length result - length layer)%nat as Hsum.
  { rewrite length_app, Hcl, Hlen.
    destruct (Nat.odd (length result)) eqn:Ho.
    - apply Nat.odd_spec in Ho as [m Hm]. lia.
    - assert (Nat.even (length result) = true) as [m Hm]%Nat.even_spec.
      { by rewrite <-Nat.negb_odd, Ho. }
      lia. }
  assert (layer ≠ []) as Hlne.
  { intros ->. symmetry in Hlen. apply Nat.div_small_iff in Hlen; simpl in *; lia. }
  assert (0 < length layer)%nat by (destruct layer; [done|simpl; lia]).
  destruct (IH i' (all ++ layer) (layer ++ carried result) (bump (length layer) w))
    as (new&Hnew&HG&Hnids&Hb); [lia|by destruct layer|].
  exists (layer ++ new). rewrite Hnew, bump_bump, length_app, <-app_assoc.
  split_and!; [by rewrite (Nat.add_comm (length new))| | |lia].
  - eapply grows_layer; [split; [by exists ps|done]| |done].
    intros Hc ->. apply (f_equal length) in Hnids. simpl in Hb.
    rewrite length_app in Hb. destruct (carried result); [done|]. simpl in *. lia.
  - by rewrite fmap_app, next_ids_app, Hids, Hnids.
Qed.

(** ** First layers *)

(** The tasks of a first layer: over prove tasks it waits for, over one deferred
    proof, or the odd prove task itself. *)
Definition first_task (tasks : list ProveTask) (t : AggTask) : Prop :=
  (∃ parts, parts ≠ [] ∧ parts ⊆ tasks ∧ leaf_of true parts t) ∨
  (∃ p, p ∈ tasks ∧ pt_is_deferred p = true ∧ leaf_of false [p] t) ∨
  (∃ p i, p ∈ tasks ∧ t = init_from_single_prove_task p i).

(** A first-layer task reads [parts]: it aggregates them, or is the odd one. *)
Definition first_reads (parts : list ProveTask) (t : AggTask) : Prop :=
  at_from_prove t = false ∧ at_inputs t = from_prove_task <$> parts ∨
  ∃ p i, parts = [p] ∧ t = init_from_single_prove_task p i.

(** A first layer over [tasks]: it waits for [leaves] and reads [order]. *)
Record first_ok (tasks : list ProveTask) (leaves : list string)
    (order : list ProveTask) (result : list AggTask) : Prop := {
  fo_children : result ≫= child_ids = leaves;
  fo_tasks : Forall (first_task tasks) result;
  fo_final : (1 < length result)%nat → Forall (λ t, at_is_final t = false) result;
  fo_order : ∃ partss, Forall2 first_reads partss result ∧ concat partss = order
}.

(** The same without the final mark: what the parts of a layer add up to. *)
Record layer_ok (tasks : list ProveTask) (leaves : list string)
    (order : list ProveTask) (result : list AggTask) : Prop := {
  lo_children : result ≫= child_ids = leaves;
  lo_tasks : Forall (first_task tasks) result;
  lo_order : ∃ partss, Forall2 first_reads partss result ∧ concat partss = order
}.

Lemma first_ok_layer tasks leaves order result :
  layer_ok tasks leaves order result →
  ((1 < length result)%nat → Forall (λ t, at_is_final t = false) result) →
  first_ok tasks leaves order result.
Proof. intros [] ?. by split. Qed.

Lemma layer_app tasks l1 l2 o1 o2 r1 r2 :
  layer_ok tasks l1 o1 r1 → layer_ok tasks l2 o2 r2 →
  layer_ok tasks (l1 ++ l2) (o1 ++ o2) (r1 ++ r2).
Proof.
  intros [<- HT1 (p1&HF1&<-)] [<- HT2 (p2&HF2&<-)]. split.
  - apply bind_app.
  - by apply Forall_app.
  - exists (p1 ++ p2). split; [by apply Forall2_app|apply concat_app].
Qed.

Lemma layer_leaves tasks partss new :
  Forall2 (leaf_of true) partss new →
  Forall (λ p, p ≠ []) partss → concat partss ⊆ tasks →
  layer_ok tasks (pt_ids (concat partss)) (concat partss) new.
Proof.
  intros HF Hne Hsub. split.
  - clear Hne Hsub. induction HF as [|parts t partss new Hp _ IH]; [done|].
    rewrite bind_cons, IH, (leaf_child_ids _ _ _ Hp). simpl. by rewrite fmap_app.
  - revert Hne Hsub. induction HF as [|parts t partss new Hp _ IH]; [by constructor|].
    intros [Hp0 Hne]%Forall_cons Hsub. simpl in Hsub. constructor; [|apply IH; set_solver].
    left. exists parts. split_and!; [done|set_solver|done].
  - exists partss. split; [|done]. eapply Forall2_impl; [done|]. intros ?? []. by left.
Qed.

(** The odd prove task, carried into the layer as a task that is done. *)
Lemma layer_odd tasks p i :
  p ∈ tasks → layer_ok tasks [] [p] [init_from_single_prove_task p i].
Proof.
  intros Hp. split; [done| |].
  - constructor; [|done]. right. right. by exists p, i.
  - exists [[p]]. split; [|done]. constructor; [|done]. right. by exists p, i.
Qed.

(** The prove tasks a binary tree waits for: all but the odd one. *)
Definition paired {A} (l : list A) : list A := take (2 * (length l / 2)) l.

Lemma paired_carried {A} (l : list A) ps :
  l = concat ps ++ carried l → Forall (λ p, length p = 2%nat) ps → concat ps = paired l.
Proof.
  intros Hl Hp. unfold paired. rewrite <-(length_pairs l ps Hl Hp).
  rewrite <-length_concat_pairs by done. rewrite Hl. by rewrite take_app_length.
Qed.

Lemma paired_app_carried {A} (l : list A) : paired l ++ carried l = l.
Proof.
  unfold paired, carried. halve (length l). destruct (Nat.odd (length l)) eqn:Ho.
  - apply Nat.odd_spec in Ho as [m Hm].
    replace (2 * (length l / 2))%nat with (length l - 1)%nat by lia. apply take_drop.
  - assert (Nat.even (length l) = true) as [m Hm]%Nat.even_spec by by rewrite <-Nat.negb_odd, Ho.
    rewrite app_nil_r. apply take_ge. lia.
Qed.

Lemma half_up n : ((n + 1) / 2 = n / 2 + if Nat.odd n then 1 else 0)%nat.
Proof.
  halve n. halve (n + 1)%nat. destruct (Nat.odd n) eqn:Ho.
  - apply Nat.odd_spec in Ho as [m Hm]. lia.
  - assert (Nat.even n = true) as [m Hm]%Nat.even_spec by by rewrite <-Nat.negb_odd, Ho.
    lia.
Qed.

(** What a relation says of the elements of one side. *)
Lemma Forall2_right {A B} (R : A → B → Prop) (Q : B → Prop) l k :
  Forall2 R l k → (∀ x y, R x y → Q y) → Forall Q k.
Proof. intros H HQ. eapply Forall2_Forall_r; [done|]. apply Forall_true. eauto. Qed.
Lemma Forall2_left {A B} (R : A → B → Prop) (Q : A → Prop) l k :
  Forall2 R l k → (∀ x y, R x y → Q x) → Forall Q l.
Proof. intros H HQ. eapply Forall2_Forall_l; [done|]. apply Forall_true. eauto. Qed.

Lemma first_layer_run tasks w :
  tasks ≠ [] →
  ∃ i result,
    first_layer tasks w = Ret ((i, result), bump (length tasks / 2) w) ∧
    first_ok tasks (pt_ids (paired tasks)) tasks result ∧
    at_ids result = next_ids w (length tasks / 2) ++ pt_ids (carried tasks) ∧
    length result = ((length tasks + 1) / 2)%nat ∧
    Forall (λ t, at_from_prove t = true ∨ at_task_id t ∈ next_ids w (length tasks / 2))
      result.
Proof.
  intros Hne. unfold first_layer.
  destruct (for_each_pairs leaf_pair
    (λ parts t, leaf_of true parts t ∧ at_is_final t = false ∧ length parts = 2%nat)
    at_task_id tasks 0 [] w) as (i&new&ps&Hrun&Hl&HF&Hpne&Hids&Hlen).
  { intros j a b i1 acc w1 Ha Hb.
    destruct (init_from_two_prove_task_run a b (i32_wrap (i1 + 1)) w1)
      as (t&Ht&?&?&?). eexists _, t. unfold leaf_pair. rewrite Ha, Hb.
    unfold mbind at 1 2, M_bind. simpl. by rewrite (M_bind_run _ _ _ _ _ Ht). }
  assert (Forall (λ t, at_is_final t = false) new) as Hff
    by (by eapply Forall2_right; [exact HF|]; intros ?? (?&?&?)).
  assert (Forall (λ p, length p = 2%nat) ps) as Hp2
    by (by eapply Forall2_left; [exact HF|]; intros ?? (?&?&?)).
  assert (layer_ok tasks (pt_ids (paired tasks)) (paired tasks) new) as Hlay.
  { rewrite <-(paired_carried tasks ps Hl Hp2). apply layer_leaves; [|done|].
    - by eapply Forall2_impl; [exact HF|]; intros ?? (?&?&?).
    - rewrite Hl. set_solver. }
  assert (Forall (λ t, at_from_prove t = true ∨
                       at_task_id t ∈ next_ids w (length tasks / 2)) new) as Hfp.
  { rewrite <-Hlen, <-Hids. apply Forall_forall. intros t Ht. right.
    by apply list_elem_of_fmap_2. }
  rewrite (M_bind_run _ _ _ _ _ Hrun), Hlen. simpl.
  pose proof (paired_app_carried tasks) as Hpc. rewrite half_up. unfold carried in *.
  destruct (Nat.odd (length tasks)).
  - destruct (lookup_last tasks Hne) as (x&Hx&Hd). rewrite Hx, Hd in *.
    eexists _, _. split; [reflexivity|]. split_and!.
    + apply first_ok_layer.
      * rewrite <-Hpc at 3. rewrite <-(app_nil_r (pt_ids _)). apply layer_app; [done|].
        apply layer_odd. by eapply list_elem_of_lookup_2.
      * intros _. apply Forall_app; split; [done|]. by constructor.
    + by rewrite fmap_app, Hids, Hlen.
    + rewrite length_app, Hlen. simpl. lia.
    + apply Forall_app; split; [done|]. constructor; [by left|done].
  - rewrite app_nil_r in *. eexists _, _. split; [reflexivity|]. split_and!; [|..|done].
    + apply first_ok_layer; [by rewrite <-Hpc at 3|done].
    + by rewrite Hids, Hlen.
    + rewrite Hlen. simpl. lia.
Qed.


Lemma concat_singletons {A} (l : list A) : concat ((λ x, [x]) <$> l) = l.
Proof. induction l as [|x l IH]; [done|]. csimpl. by rewrite IH. Qed.

Lemma layer_deferred tasks (l : list ProveTask) new :
  Forall2 (λ p t, leaf_of false [p] t) l new → l ⊆ deferred_tasks tasks →
  layer_ok tasks [] l new.
Proof.
  intros HF Hsub. split.
  - clear Hsub. induction HF as [|p t l new Hp _ IH]; [done|].
    by rewrite bind_cons, IH, (leaf_child_ids _ _ _ Hp).
  - revert Hsub. induction HF as [|p t l new Hp _ IH]; [by constructor|].
    intros Hsub. constructor; [|apply IH; set_solver]. right. left. exists p.
    assert (p ∈ deferred_tasks tasks) as [??]%list_elem_of_filter by set_solver. done.
  - exists ((λ p, [p]) <$> l). split; [|apply concat_singletons].
    apply Forall2_fmap_l. eapply Forall2_impl; [done|]. intros ?? []. by left.
Qed.

Lemma Forall2_imap_snd {A B} (P : A → B → Prop) l new :
  Forall2 (λ x y, P x.2 y) (imap pair l) new → Forall2 P l new.
Proof.
  rewrite !Forall2_lookup. intros H k. specialize (H k). rewrite list_lookup_imap in H.
  destruct (l !! k); simpl in H; inversion H; by constructor.
Qed.

Lemma chunks_1 {A} (l : list A) : length (chunks 1 l) = length l.
Proof. rewrite length_chunks by lia. rewrite Nat.add_0_r. apply Nat.div_1_r. Qed.

Lemma normal_deferred_length l :
  (length (normal_tasks l) + length (deferred_tasks l))%nat = length l.
Proof.
  induction l as [|t l IH]; [done|]. rewrite !filter_cons.
  destruct (pt_is_deferred t); repeat case_decide; simpl; try done; lia.
Qed.

(** Both loops of the first layer: each makes a task of every prove task it goes over. *)
Lemma leaf_batches_run vk complete (normal : list ProveTask) i acc w :
  ∃ i' new,
    for_each (leaf_batch vk complete) (imap pair (chunks FIRST_LAYER_BATCH_SIZE normal))
      (i, acc) w = Ret ((i', acc ++ new), bump (length normal) w) ∧
    Forall2 (leaf_of true) (chunks 1 normal) new ∧
    Forall (λ t, at_is_final t = complete) new ∧ at_ids new = next_ids w (length normal) ∧
    length new = length normal.
Proof.
  pose proof (chunks_nonempty FIRST_LAYER_BATCH_SIZE normal
    ltac:(unfold FIRST_LAYER_BATCH_SIZE; lia)) as Hcne.
  destruct (for_each_build (leaf_batch vk complete)
    (λ b t, leaf_of true b.2 t ∧ at_is_final t = complete) at_task_id
    (imap pair (chunks FIRST_LAYER_BATCH_SIZE normal))) with (i := i) (acc := acc) (w := w)
    as (i1&new&Hrun&HF&Hids).
  { intros [j b] i1 acc1 w1 Hb. apply elem_of_lookup_imap in Hb as (k&b'&[= -> ->]&Hb).
    assert (b' ≠ []) as Hb' by (by eapply Forall_lookup_1 in Hcne).
    destruct (init_from_prove_tasks_run vk b' i1 complete (k =? 0)%nat false w1 Hb')
      as (t&Ht&?&?&?). eexists _, t. unfold leaf_batch.
    by rewrite (M_bind_run _ _ _ _ _ Ht). }
  pose proof (Forall2_length _ _ _ HF) as Hlen.
  rewrite length_imap, chunks_1 in Hrun, Hids, Hlen.
  exists i1, new. split_and!; [done| | |done|done].
  - apply (Forall2_imap_snd _ _ new). eapply Forall2_impl; [done|]. by intros ?? [].
  - eapply Forall2_right; [exact HF|]. by intros ?? [].
Qed.

Lemma deferred_batches_run vk complete (deferred : list ProveTask) i acc w :
  ∃ i' new,
    for_each (deferred_batch vk complete) deferred (i, acc) w =
      Ret ((i', acc ++ new), bump (length deferred) w) ∧
    Forall2 (λ p t, leaf_of false [p] t) deferred new ∧
    Forall (λ t, at_is_final t = complete) new ∧ at_ids new = next_ids w (length deferred) ∧
    length new = length deferred.
Proof.
  destruct (for_each_build (deferred_batch vk complete)
    (λ p t, leaf_of false [p] t ∧ at_is_final t = complete) at_task_id deferred)
    with (i := i) (acc := acc) (w := w) as (i1&new&Hrun&HF&Hids).
  { intros p i1 acc1 w1 Hp.
    destruct (init_from_prove_tasks_run vk [p] i1 complete false true w1)
      as (t&Ht&?&?&?); [done|]. eexists _, t. unfold deferred_batch.
    by rewrite (M_bind_run _ _ _ _ _ Ht). }
  exists i1, new. split_and!; [done| | |done|by rewrite (Forall2_length _ _ _ HF)].
  - eapply Forall2_impl; [done|]. by intros ?? [].
  - eapply Forall2_right; [exact HF|]. by intros ?? [].
Qed.

Lemma first_layer_v2_run vk tasks w :
  ∃ i result,
    first_layer_v2 vk tasks w = Ret ((i, result), bump (length result) w) ∧
    first_ok tasks (pt_ids (normal_tasks tasks))
      (normal_tasks tasks ++ deferred_tasks tasks) result ∧
    at_ids result = next_ids w (length result) ∧
    length result = length tasks.
Proof.
  unfold first_layer_v2.
  set (normal := normal_tasks tasks). set (deferred := deferred_tasks tasks).
  set (complete := (length normal =? 1)%nat && (length deferred =? 0)%nat).
  destruct (leaf_batches_run vk complete normal 0 [] w) as (i1&new1&Hrun1&HF1&Hf1&Hids1&Hl1).
  destruct (deferred_batches_run vk complete deferred i1 ([] ++ new1) (bump (length normal) w))
    as (i2&new2&Hrun2&HF2&Hf2&Hids2&Hl2).
  rewrite (M_bind_run _ _ _ _ _ Hrun1), Hrun2. clear Hrun1 Hrun2.
  exists i2, (new1 ++ new2). rewrite length_app, Hl1, Hl2, bump_bump.
  split_and!; [by rewrite (Nat.add_comm (length deferred))| | |apply normal_deferred_length].
  - apply first_ok_layer.
    + rewrite <-(app_nil_r (pt_ids normal)). apply layer_app.
      * rewrite <-(concat_chunks 1 normal) by lia. apply layer_leaves; [done| |].
        -- apply chunks_nonempty. lia.
        -- rewrite concat_chunks by lia. intros x [_ ?]%list_elem_of_filter. done.
      * by apply layer_deferred.
    + rewrite length_app, Hl1, Hl2. intros Hlen.
      assert (complete = false) as Hcf.
      { unfold complete. destruct (Nat.eqb_spec (length normal) 1); [|done].
        destruct (Nat.eqb_spec (length deferred) 0); [lia|done]. }
      rewrite Hcf in Hf1, Hf2. by apply Forall_app.
  - by rewrite fmap_app, next_ids_app, Hids1, Hids2.
Qed.

(** ** The whole graph *)

Lemma mark_last_final_snoc l t :
  mark_last_final (l ++ [t]) = l ++ [t <| at_is_final := true |>].
Proof.
  unfold mark_last_final. rewrite reverse_app. simpl.
  by rewrite reverse_cons, reverse_involutive.
Qed.

Lemma mark_last_final_ids l :
  at_ids (mark_last_final l) = at_ids l ∧
  (mark_last_final l) ≫= child_ids = l ≫= child_ids ∧
  length (mark_last_final l) = length l.
Proof.
  destruct l as [|t l _] using rev_ind; [done|].
  rewrite mark_last_final_snoc, !fmap_app, !bind_app, !length_app. done.
Qed.

(** The graph over [leaves]: every leaf and every task but the last is awaited by
    exactly one task, which comes later; exactly the last task is final. *)
Record agg_tree (leaves : list string) (T : list AggTask) : Prop := {
  tree_awaited : T ≫= child_ids ≡ₚ leaves ++ at_ids (all_but_last T);
  tree_order : ∀ k t id, T !! k = Some t → id ∈ child_ids t →
    id ∈ leaves ∨ id ∈ at_ids (take k T);
  tree_final : ∃ T0 t, T = T0 ++ [t] ∧ at_is_final t = true ∧
    Forall (λ t, at_is_final t = false) T0
}.

Lemma grows_final first new :
  grows first new → Forall (λ t, at_is_final t = false) new.
Proof.
  intros [_ Hord _]. apply Forall_lookup. intros k t Ht.
  destruct (Hord _ _ Ht) as (parts&_&_&Hag). by apply Hag.
Qed.

Lemma grows_children first new k t id :
  grows first new → new !! k = Some t → id ∈ child_ids t →
  id ∈ at_ids (first ++ take k new).
Proof.
  intros [_ Hord _] Ht Hid. destruct (Hord _ _ Ht) as (parts&_&Hsub&Hag).
  rewrite (aggregates_child_ids _ _ Hag) in Hid.
  apply list_elem_of_fmap in Hid as (p&->&Hp). apply list_elem_of_fmap_2. set_solver.
Qed.

Lemma agg_tree_of tasks leaves order first new :
  first_ok tasks leaves order first → grows first new → first ≠ [] →
  (length first = 1%nat → new = []) →
  agg_tree leaves (mark_last_final (first ++ new)).
Proof.
  intros [Hc _ Hf _] HG Hne H1.
  destruct (mark_last_final_ids (first ++ new)) as (Hids&Hch&Hlen). split.
  - rewrite Hch, bind_app, Hc, (gr_children _ _ HG). f_equiv.
    unfold all_but_last. by rewrite !fmap_take, Hids, Hlen.
  - intros k t id Ht Hid.
    assert (∃ t', (first ++ new) !! k = Some t' ∧ child_ids t = child_ids t') as (t'&Ht'&Htc).
    { destruct (first ++ new) as [|x l _] using rev_ind; [done|].
      rewrite mark_last_final_snoc in Ht. apply lookup_app_Some in Ht as [Ht|[Hk Ht]].
      - exists t. by rewrite lookup_app_l by (by eapply lookup_lt_Some).
      - rewrite lookup_app_r by done. destruct (k - length l)%nat; simplify_eq/=. by exists x. }
    rewrite Htc in Hid. rewrite fmap_take, Hids, <-fmap_take.
    apply lookup_app_Some in Ht' as [Ht'|[Hk Ht']].
    + left. rewrite <-Hc. apply list_elem_of_bind. exists t'. split; [done|].
      by eapply list_elem_of_lookup_2.
    + right. rewrite take_app_ge by done. by eapply grows_children.
  - pose proof (grows_final _ _ HG) as Hnf.
    destruct new as [|x new _] using rev_ind.
    + rewrite app_nil_r in *. destruct first as [|x l _] using rev_ind; [done|].
      rewrite mark_last_final_snoc. exists l, (x <| at_is_final := true |>).
      split_and!; [done..|]. destruct l as [|y l]; [constructor|].
      apply Forall_app in Hf as [? _]; [done|]. rewrite length_app. simpl. lia.
    + rewrite app_assoc, mark_last_final_snoc.
      eexists _, _. split_and!; [done..|]. apply Forall_app in Hnf as [? _].
      apply Forall_app; split; [|done]. destruct first as [|y [|z first]]; [done| |].
      * specialize (H1 eq_refl). by destruct new.
      * apply Hf. simpl. lia.
Qed.

(** The graph of feature "prover": what it is made of. *)
Lemma gen_agg_tasks_prover_shape s w :
  stage_prove_tasks s ≠ [] →
  let tasks := stage_prove_tasks s in
  ∃ first new,
    gen_agg_tasks_prover s w =
      Ret (s <| stage_agg_tasks := mark_last_final (stage_agg_tasks s ++ first ++ new) |>,
           bump (length new + length tasks / 2) w) ∧
    first_ok tasks (pt_ids (paired tasks)) tasks first ∧ grows first new ∧
    at_ids first = next_ids w (length tasks / 2) ++ pt_ids (carried tasks) ∧
    at_ids new = next_ids (bump (length tasks / 2) w) (length new) ∧
    length first = ((length tasks + 1) / 2)%nat ∧ length new = (length first - 1)%nat ∧
    Forall (λ t, at_from_prove t = true ∨ at_task_id t ∈ next_ids w (length tasks / 2))
      first.
Proof.
  intros Hne; cbv zeta. remember (stage_prove_tasks s) as tasks eqn:Hts.
  destruct (first_layer_run tasks w Hne) as (i&first&Hrun&Hfo&Hids&Hlen&Hfp).
  assert (first ≠ []) as Hfne.
  { intros ->. halve (length tasks + 1)%nat. destruct tasks; [done|]. simpl in *. lia. }
  destruct (upper_layers_run (length first) i (stage_agg_tasks s ++ first) first
    (bump (length tasks / 2) w)) as (new&Hnew&HG&Hnids&Hnlen); [lia|done|].
  exists first, new. split_and!; try done.
  unfold gen_agg_tasks_prover. rewrite <-Hts. destruct tasks as [|t l]; [done|].
  rewrite (M_bind_run _ _ _ _ _ Hrun), (M_bind_run _ _ _ _ _ Hnew), bump_bump.
  by rewrite <-app_assoc.
Qed.

(** A generation that returns has read the key. *)
Lemma gen_agg_v2_vk s w s' w' :
  gen_agg_tasks_prover_v2 s w = Ret (s', w') →
  ∃ vk, file_read (gt_base_dir (stage_generate_task s) +:+ "/vk.bin") w = Ret (Some vk, w).
Proof.
  unfold gen_agg_tasks_prover_v2. intros (vk&w1&Hvk&H)%M_bind_Ret.
  pose proof (file_read_same _ _ _ _ Hvk) as ->.
  apply M_bind_Ret in H as (vk'&w1&[->%unwrap_Ret _]%lift_Ret&_). by exists vk'.
Qed.

(** The graph of feature "prover_v2", when the verifying key can be read. *)
Lemma gen_agg_tasks_prover_v2_shape s w vk :
  file_read (gt_base_dir (stage_generate_task s) +:+ "/vk.bin") w = Ret (Some vk, w) →
  stage_prove_tasks s ≠ [] →
  let tasks := stage_prove_tasks s in
  ∃ first new,
    gen_agg_tasks_prover_v2 s w =
      Ret (s <| stage_agg_tasks := mark_last_final (stage_agg_tasks s ++ first ++ new) |>,
           bump (length new + length first) w) ∧
    first_ok tasks (pt_ids (normal_tasks tasks))
      (normal_tasks tasks ++ deferred_tasks tasks) first ∧ grows first new ∧
    at_ids first = next_ids w (length first) ∧
    at_ids new = next_ids (bump (length first) w) (length new) ∧
    length first = length tasks ∧
    (length first + length new ≤ 3 * length first - 2)%nat.
Proof.
  intros Hvk Hne; cbv zeta. remember (stage_prove_tasks s) as tasks eqn:Hts.
  destruct (first_layer_v2_run vk tasks w) as (i&first&Hrun&Hfo&Hids&Hlen).
  assert (first ≠ []) as Hfne by (intros ->; by destruct tasks).
  destruct (upper_layers_v2_run (length first) i (stage_agg_tasks s ++ first) first
    (bump (length first) w)) as (new&Hnew&HG&Hnids&Hnlen); [lia|done|].
  exists first, new. split_and!; try done.
  unfold gen_agg_tasks_prover_v2. rewrite <-Hts, (M_bind_run _ _ _ _ _ Hvk).
  unfold mbind at 1, M_bind at 1. simpl.
  rewrite (M_bind_run _ _ _ _ _ Hrun), (M_bind_run _ _ _ _ _ Hnew), bump_bump.
  by rewrite <-app_assoc.
Qed.

(** [C33] Feature "prover": on any non-empty list of prove tasks,
    [gen_agg_tasks] returns (no index, no [unwrap] fails, the [while] loop ends) and
    leaves a binary tree: every paired prove task and every aggregation task but the
    last is awaited by exactly one later task, only the last is final, and there are
    2*ceil(n/2) - 1 <= n aggregation tasks. *)
Theorem gen_agg_tasks_prover_tree s w :
  stage_agg_tasks s = [] → stage_prove_tasks s ≠ [] →
  ∃ T w', gen_agg_tasks feature_prover s w = Ret (s <| stage_agg_tasks := T |>, w') ∧
    agg_tree (pt_ids (paired (stage_prove_tasks s))) T ∧
    length T = (2 * ((length (stage_prove_tasks s) + 1) / 2) - 1)%nat ∧
    (length T ≤ length (stage_prove_tasks s))%nat.
Proof.
  intros Hs Hne.
  destruct (gen_agg_tasks_prover_shape s w Hne) as (first&new&Hrun&Hfo&HG&_&_&Hl&Hl'&_).
  rewrite Hs, app_nil_l in Hrun. eexists _, _. split; [exact Hrun|].
  assert (first ≠ []) as Hfne.
  { intros ->. halve (length (stage_prove_tasks s) + 1)%nat.
    destruct (stage_prove_tasks s); [done|]. simpl in *. lia. }
  split.
  - eapply agg_tree_of; [done..|]. intros H1. rewrite H1 in Hl'. by destruct new.
  - rewrite (proj2 (proj2 (mark_last_final_ids _))), length_app, Hl', Hl.
    halve (length (stage_prove_tasks s) + 1)%nat.
    assert (0 < length (stage_prove_tasks s))%nat by (by destruct (stage_prove_tasks s); [|simpl; lia]).
    lia.
Qed.

(** [C34] Feature "prover_v2": on any non-empty list of prove tasks,
    with a readable vk.bin, [gen_agg_tasks] returns and leaves a tree over the normal
    prove tasks (deferred proofs are never waited for): every normal prove task and
    every aggregation task but the last is awaited by exactly one later task, only
    the last is final, and there are at most 3n - 2 aggregation tasks. *)
Theorem gen_agg_tasks_prover_v2_tree s w vk :
  stage_agg_tasks s = [] → stage_prove_tasks s ≠ [] →
  file_read (gt_base_dir (stage_generate_task s) +:+ "/vk.bin") w = Ret (Some vk, w) →
  ∃ T w', gen_agg_tasks feature_prover_v2 s w = Ret (s <| stage_agg_tasks := T |>, w') ∧
    agg_tree (pt_ids (normal_tasks (stage_prove_tasks s))) T ∧
    (length T ≤ 3 * length (stage_prove_tasks s) - 2)%nat.
Proof.
  intros Hs Hne Hvk.
  destruct (gen_agg_tasks_prover_v2_shape s w vk Hvk Hne)
    as (first&new&Hrun&Hfo&HG&_&_&Hl&Hl').
  rewrite Hs, app_nil_l in Hrun. eexists _, _. split; [exact Hrun|].
  assert (first ≠ []) as Hfne by (intros ->; by destruct (stage_prove_tasks s)).
  split.
  - eapply agg_tree_of; [done..|]. intros H1. rewrite H1 in Hl'.
    destruct new; [done|]. simpl in Hl'. lia.
  - rewrite (proj2 (proj2 (mark_last_final_ids _))), length_app. lia.
Qed.

End graph.

(** ** Witnesses: three segments *)

Module SampleGraph.
Definition request : GenerateTask :=
  GenerateTask_new Zkm "elf" "id" "p" "p/elf" "p/segment" "p/prove" "p/aggregate"
    "p/snark" empty_str empty_str empty_str (Some 0) 65536 2 Init Agg false false
    empty_str empty_str.
Definition tasks : list ProveTask :=
  (λ id, ProveTask_default <| pt_task_id := id |>) <$> ["a"; "b"; "c"].
Definition stage : Stage := (Stage_new request) <| stage_prove_tasks := tasks |>.
Definition world : @World Sample.external := Sample.world [("p/vk.bin", [])] ["p"].
End SampleGraph.

Lemma gen_agg_tasks_prover_tree_witness :
  ∃ T w', @gen_agg_tasks Sample.external feature_prover SampleGraph.stage SampleGraph.world =
      Ret (SampleGraph.stage <| stage_agg_tasks := T |>, w') ∧
    agg_tree ["a"; "b"] T ∧ length T = 3%nat ∧ (length T ≤ 3)%nat.
Proof.
  exact (@gen_agg_tasks_prover_tree Sample.external SampleGraph.stage SampleGraph.world
    eq_refl ltac:(discriminate)).
Defined.

Lemma gen_agg_tasks_prover_v2_tree_witness :
  ∃ T w', @gen_agg_tasks Sample.external feature_prover_v2 SampleGraph.stage
      SampleGraph.world = Ret (SampleGraph.stage <| stage_agg_tasks := T |>, w') ∧
    agg_tree ["a"; "b"; "c"] T ∧ (length T ≤ 7)%nat.
Proof.
  exact (@gen_agg_tasks_prover_v2_tree Sample.external SampleGraph.stage SampleGraph.world
    [] eq_refl ltac:(discriminate) ltac:(vm_compute; reflexivity)).
Defined.
