(* ===== verification/StageInv.v ===== *)
(** * StageInv: the invariant of a stage's task graph

    [graph_inv P T] relates the prove tasks [P] and the aggregation tasks [T]: ids
    are unique, an aggregation task that still waits has not been dispatched, and it
    waits exactly for those of its inputs that have not succeeded.  Every operation
    of the stage preserves it. *)

From S2P Require Import Prelude Text Proto World Tasks Stage AggGraph.

(** ** Vocabulary *)

Abbreviation input_id := ai_computed_request_id.

(** A task of the list with that id has succeeded. *)
Definition done_in {A} (key : A → string) (state : A → Z) (l : list A) (id : string) :
    Prop :=
  ∃ x, x ∈ l ∧ key x = id ∧ state x = TASK_STATE_SUCCESS.

Abbreviation pt_done := (done_in pt_task_id pt_state).
Abbreviation at_done := (done_in at_task_id at_state).

(** The task that computes an input has succeeded. *)
Definition input_done (P : list ProveTask) (T : list AggTask) (i : AggregateInput) :
    Prop :=
  if ai_is_agg i then at_done T (input_id i) else pt_done P (input_id i).

#[export] Instance done_in_dec {A} (key : A → string) state l id :
  Decision (done_in key state l id).
Proof.
  refine (cast_if (decide (Exists (λ x, key x = id ∧ state x = TASK_STATE_SUCCESS) l)));
    by rewrite <-Exists_exists || rewrite Exists_exists in *.
Defined.
#[export] Instance input_done_dec P T i : Decision (input_done P T i).
Proof. unfold input_done. destruct (ai_is_agg i); apply _. Defined.

(** [t'] is [t] with other children. *)
Definition same_but_childs (t t' : AggTask) : Prop :=
  t' = t <| at_childs := at_childs t' |>.

Lemma same_but_childs_refl t : same_but_childs t t.
Proof. by destruct t. Qed.
#[export] Hint Resolve same_but_childs_refl : core.

(** ** Clearing children *)

(** [T'] is [T] in which nothing waits for [ids] any more. *)
Definition unwait (ids : list string) (T T' : list AggTask) : Prop :=
  Forall2 (λ t t', same_but_childs t t' ∧
             child_ids t' = filter (λ id, id ∉ ids) (child_ids t)) T T'.

Definition waiters_unprocessed (T : list AggTask) : Prop :=
  ∀ t, t ∈ T → child_ids t ≠ [] → at_state t = TASK_STATE_UNPROCESSED.

Lemma filter_all {A} (P : A → Prop) `{!∀ x, Decision (P x)} (l : list A) :
  (∀ x, x ∈ l → P x) → filter P l = l.
Proof.
  induction l as [|y l IH]; intros HP; [done|]. rewrite filter_cons.
  rewrite decide_True by (apply HP; by left). f_equal. apply IH.
  intros z ?. apply HP. by right.
Qed.

Lemma filter_not_elem (x : string) (l : list string) :
  x ∉ l → filter (λ y, y ∉ [x]) l = l.
Proof. intros H. apply filter_all. set_solver. Qed.

Lemma clear_child_spec x cs :
  NoDup (omap id cs) →
  (clear_child x cs).1 = bool_decide (x ∈ omap id cs) ∧
  omap id (clear_child x cs).2 = filter (λ y, y ∉ [x]) (omap id cs).
Proof.
  induction cs as [|[y|] cs IH]; intros Hnd; [done| |].
  - change (omap id (Some y :: cs)) with (y :: omap id cs) in *.
    apply NoDup_cons in Hnd as [Hy Hnd]. cbn [clear_child]. rewrite filter_cons.
    destruct (String.eqb_spec y x) as [->|Hne].
    + rewrite decide_False by set_solver. cbn. split.
      * symmetry. apply bool_decide_eq_true. by left.
      * symmetry. by apply filter_not_elem.
    + destruct (IH Hnd) as [IH1 IH2]. destruct (clear_child x cs) as [b cs'].
      rewrite decide_True by set_solver. cbn in *. split; [|by f_equal].
      rewrite IH1. apply bool_decide_ext. set_solver.
  - change (omap id (None :: cs)) with (omap id cs) in *. cbn [clear_child].
    destruct (IH Hnd) as [IH1 IH2]. by destruct (clear_child x cs) as [b cs'].
Qed.

Lemma clear_child_task_spec x t :
  NoDup (child_ids t) → (child_ids t ≠ [] → at_state t = TASK_STATE_UNPROCESSED) →
  (clear_child_task x t).1 = bool_decide (x ∈ child_ids t) ∧
  same_but_childs t (clear_child_task x t).2 ∧
  child_ids (clear_child_task x t).2 = filter (λ y, y ∉ [x]) (child_ids t).
Proof.
  intros Hnd Hst. unfold clear_child_task.
  destruct (Z.eqb_spec (at_state t) TASK_STATE_UNPROCESSED).
  - destruct (clear_child_spec x (at_childs t) Hnd) as [H1 H2].
    destruct (clear_child x (at_childs t)) as [b cs']. cbn in *. by split_and!.
  - destruct (decide (child_ids t = [])) as [E|Hc]; [|by apply Hst in Hc].
    cbn. rewrite E. split_and!; [by rewrite bool_decide_eq_false_2 by set_solver|done|done].
Qed.

Lemma unwait_none x T : x ∉ T ≫= child_ids → unwait [x] T T.
Proof.
  intros Hx. apply Forall2_same_length_lookup. split; [done|].
  intros k t t' H1 H2. simplify_eq. split; [done|]. symmetry. apply filter_not_elem.
  intros Hin. apply Hx, list_elem_of_bind. exists t. split; [done|].
  by eapply list_elem_of_lookup_2.
Qed.

Lemma clear_child_in_spec x T :
  NoDup (T ≫= child_ids) → waiters_unprocessed T → unwait [x] T (clear_child_in x T).
Proof.
  induction T as [|t T IH]; intros Hnd Hw; [constructor|].
  rewrite bind_cons in Hnd. apply NoDup_app in Hnd as (Hnd1&Hdis&Hnd2).
  destruct (clear_child_task_spec x t) as (H1&H2&H3); [done|apply Hw; by left|].
  cbn [clear_child_in]. destruct (clear_child_task x t) as [b t'] eqn:E. cbn in *.
  subst b. case_bool_decide.
  - constructor; [done|]. apply unwait_none. auto.
  - constructor; [done|]. apply IH; [done|]. intros t0 ?. apply Hw. by right.
Qed.

Lemma same_but_childs_trans t1 t2 t3 :
  same_but_childs t1 t2 → same_but_childs t2 t3 → same_but_childs t1 t3.
Proof. unfold same_but_childs. intros -> ->. by destruct t1. Qed.

Lemma unwait_trans ids1 ids2 T1 T2 T3 :
  unwait ids1 T1 T2 → unwait ids2 T2 T3 → unwait (ids1 ++ ids2) T1 T3.
Proof.
  intros H1. revert T3. induction H1 as [|t1 t2 T1 T2 [? E12] _ IH]; intros T3 H2.
  - inversion H2. constructor.
  - apply Forall2_cons_inv_l in H2 as (t3&T3'&[? E23]&H2&->). constructor; [|by apply IH].
    split; [by eapply same_but_childs_trans|]. rewrite E23, E12, list_filter_filter.
    apply list_filter_iff. set_solver.
Qed.

Lemma unwait_children ids T T' :
  unwait ids T T' → T' ≫= child_ids = filter (λ id, id ∉ ids) (T ≫= child_ids).
Proof.
  induction 1 as [|t t' T T' [_ E] _ IH]; [done|].
  by rewrite !bind_cons, filter_app, E, IH.
Qed.

Lemma unwait_waiters ids T T' :
  unwait ids T T' → waiters_unprocessed T → waiters_unprocessed T'.
Proof.
  intros HU Hw t' Ht' Hc. apply list_elem_of_lookup in Ht' as [k Hk].
  destruct (Forall2_lookup_r _ _ _ _ _ HU Hk) as (t&Ht&Hs&E).
  rewrite Hs. simpl. apply Hw; [by eapply list_elem_of_lookup_2|].
  intros H0. apply Hc. by rewrite E, H0.
Qed.

Lemma clear_all_spec ids T :
  NoDup (T ≫= child_ids) → waiters_unprocessed T →
  unwait ids T (foldl (λ T id, clear_child_in id T) T ids).
Proof.
  revert T. induction ids as [|x ids IH]; intros T Hnd Hw.
  - apply Forall2_same_length_lookup. split; [done|]. intros k t t' H1 H2. simpl in *.
    simplify_eq. split; [done|]. symmetry. apply filter_all. set_solver.
  - pose proof (clear_child_in_spec x T Hnd Hw) as H1.
    change (x :: ids) with ([x] ++ ids). eapply unwait_trans; [exact H1|].
    apply IH; [|by eapply unwait_waiters].
    rewrite (unwait_children _ _ _ H1). by apply NoDup_filter.
Qed.

(** ** The invariant *)

Record graph_inv (P : list ProveTask) (T : list AggTask) : Prop := {
  gi_pt : NoDup (pt_ids P);
  gi_at : NoDup (at_ids T);
  gi_wait : NoDup (T ≫= child_ids);
  gi_waiters : waiters_unprocessed T;
  gi_child : ∀ t, t ∈ T → child_ids t ⊆ input_id <$> at_inputs t;
  gi_waits : ∀ t i, t ∈ T → i ∈ at_inputs t →
    input_id i ∈ child_ids t ↔ ¬ input_done P T i;
  gi_inputs : ∀ k t i, T !! k = Some t → i ∈ at_inputs t →
    if ai_is_agg i then input_id i ∈ at_ids (take k T) ∧ input_id i ∉ pt_ids P
    else input_id i ∈ pt_ids P;
  gi_odd : ∀ t, t ∈ T → at_task_id t ∈ pt_ids P → at_state t = TASK_STATE_SUCCESS
}.

(** One stored task replaced by a later version of itself. *)
Record pt_later (p p' : ProveTask) : Prop := {
  pl_id : pt_task_id p' = pt_task_id p;
  pl_done : pt_state p = TASK_STATE_SUCCESS → pt_state p' = TASK_STATE_SUCCESS
}.
Record at_later (t t' : AggTask) : Prop := {
  al_id : at_task_id t' = at_task_id t;
  al_inputs : at_inputs t' = at_inputs t;
  al_childs : at_childs t' = at_childs t;
  al_done : at_state t = TASK_STATE_SUCCESS → at_state t' = TASK_STATE_SUCCESS;
  al_waits : child_ids t ≠ [] → at_state t' = at_state t
}.

Lemma pt_later_refl p : pt_later p p.
Proof. by split. Qed.
Lemma at_later_refl t : at_later t t.
Proof. by split. Qed.
#[export] Hint Resolve pt_later_refl at_later_refl : core.

Lemma Forall2_refl_l {A} (R : A → A → Prop) l : (∀ x, R x x) → Forall2 R l l.
Proof. intros HR. induction l; by constructor. Qed.

Lemma update_first_Forall2 {A} (R : A → A → Prop) test f l :
  (∀ x, R x x) → (∀ x, x ∈ l → test x = true → R x (f x)) →
  Forall2 R l (update_first test f l).
Proof.
  intros Hr Hf. induction l as [|x l IH]; simpl; [constructor|].
  destruct (test x) eqn:Ex.
  - constructor; [apply Hf; [by left|done]|by apply Forall2_refl_l].
  - constructor; [done|]. apply IH. intros y ?. apply Hf. by right.
Qed.

Lemma update_first_later {A} (R : A → A → Prop) test l x y :
  (∀ x, R x x) → find_first test l = Some x → R x y →
  Forall2 R l (update_first test (λ _, y) l).
Proof.
  intros Hr Hf Hxy. destruct (find_first_split test (λ _, y) l x Hf) as (l1&l2&->&->).
  apply Forall2_app; [by apply Forall2_refl_l|].
  constructor; [done|by apply Forall2_refl_l].
Qed.

Lemma pt_later_ids P P' : Forall2 pt_later P P' → pt_ids P' = pt_ids P.
Proof. induction 1 as [|p p' P P' [] _ IH]; csimpl; congruence. Qed.

Lemma unwait_ids ids T T' : unwait ids T T' → at_ids T' = at_ids T.
Proof.
  induction 1 as [|t t' T T' [Hs _] _ IH]; csimpl; [done|]. rewrite IH. f_equal. by rewrite Hs.
Qed.
Lemma at_later_ids T T' : Forall2 at_later T T' → at_ids T' = at_ids T.
Proof. induction 1 as [|t t' T T' [] _ IH]; csimpl; congruence. Qed.

Lemma at_later_child_ids t t' : at_later t t' → child_ids t' = child_ids t.
Proof. intros []. unfold child_ids. by rewrite al_childs0. Qed.

Lemma Forall2_elem_l {A B} (R : A → B → Prop) l k x :
  Forall2 R l k → x ∈ l → ∃ y, y ∈ k ∧ R x y.
Proof.
  intros HF [i Hi]%list_elem_of_lookup.
  destruct (Forall2_lookup_l _ _ _ _ _ HF Hi) as (y&?&?).
  exists y. split; [by eapply list_elem_of_lookup_2|done].
Qed.
Lemma Forall2_elem_r {A B} (R : A → B → Prop) l k y :
  Forall2 R l k → y ∈ k → ∃ x, x ∈ l ∧ R x y.
Proof. intros HF%Forall2_flip Hy. by apply (Forall2_elem_l _ _ _ _ HF). Qed.

Lemma pt_done_mono P P' id : Forall2 pt_later P P' → pt_done P id → pt_done P' id.
Proof.
  intros HP (p&Hp&Hi&Hs). destruct (Forall2_elem_l _ _ _ _ HP Hp) as (p'&?&[]).
  exists p'. split_and!; [done|congruence|auto].
Qed.

(** Between two graphs: tasks advance, then nothing waits for [ids] any more. *)
Definition at_step (ids : list string) (t t' : AggTask) : Prop :=
  at_task_id t' = at_task_id t ∧ at_inputs t' = at_inputs t ∧
  (at_state t = TASK_STATE_SUCCESS → at_state t' = TASK_STATE_SUCCESS) ∧
  (child_ids t ≠ [] → at_state t' = at_state t) ∧
  child_ids t' = filter (λ id, id ∉ ids) (child_ids t).

Lemma at_steps ids T T1 T' :
  Forall2 at_later T T1 → unwait ids T1 T' → Forall2 (at_step ids) T T'.
Proof.
  intros HT. revert T'. induction HT as [|t t1 T T1 Ht _ IH]; intros T' HU.
  { by apply Forall2_nil_inv_l in HU as ->. }
  apply Forall2_cons_inv_l in HU as (t'&T2&[Hs Hc]&HU&->). constructor; [|by apply IH].
  rewrite (at_later_child_ids _ _ Ht) in Hc. destruct Ht.
  split_and!; [by rewrite Hs|by rewrite Hs|by rewrite Hs|by rewrite Hs|done].
Qed.

Lemma at_done_mono ids T T' id : Forall2 (at_step ids) T T' → at_done T id → at_done T' id.
Proof.
  intros HT (t&Ht&Hi&Hs). destruct (Forall2_elem_l _ _ _ _ HT Ht) as (t'&?&H1&_&H2&_).
  exists t'. split_and!; [done|congruence|auto].
Qed.

Lemma input_done_mono ids P P' T T' i :
  Forall2 pt_later P P' → Forall2 (at_step ids) T T' →
  input_done P T i → input_done P' T' i.
Proof.
  unfold input_done. intros. destruct (ai_is_agg i);
    [by eapply at_done_mono|by eapply pt_done_mono].
Qed.

Lemma at_step_ids ids T T' : Forall2 (at_step ids) T T' → at_ids T' = at_ids T.
Proof. induction 1 as [|t t' T T' [] _ IH]; csimpl; congruence. Qed.

(** The preservation lemma every operation uses: if the inputs that become done are
    exactly those in [ids], the invariant holds after the step. *)
Lemma graph_inv_step P P' T T' ids :
  graph_inv P T →
  Forall2 pt_later P P' → Forall2 (at_step ids) T T' →
  (∀ t i, t ∈ T → i ∈ at_inputs t → ¬ input_done P T i →
     input_done P' T' i ↔ input_id i ∈ ids) →
  graph_inv P' T'.
Proof.
  intros [] HP HT Hnew. pose proof (pt_later_ids _ _ HP) as Hpi.
  pose proof (at_step_ids _ _ _ HT) as Hti.
  assert (T' ≫= child_ids = filter (λ id, id ∉ ids) (T ≫= child_ids)) as Hch.
  { clear -HT. induction HT as [|t t' T T' (?&?&?&?&Ec) _ IH]; [done|].
    by rewrite !bind_cons, filter_app, Ec, IH. }
  split.
  - by rewrite Hpi.
  - by rewrite Hti.
  - rewrite Hch. by apply NoDup_filter.
  - intros t' Ht' Hne. destruct (Forall2_elem_r _ _ _ _ HT Ht') as (t&Ht&?&?&?&Hw&Ec).
    assert (child_ids t ≠ []) by (intros E; by rewrite Ec, E in Hne).
    rewrite Hw by done. auto.
  - intros t' Ht'. destruct (Forall2_elem_r _ _ _ _ HT Ht') as (t&Ht&?&Ei&?&Hw&Ec).
    rewrite Ec, Ei. intros x [_ Hx]%list_elem_of_filter. by apply (gi_child0 t Ht).
  - intros t' i Ht' Hi. destruct (Forall2_elem_r _ _ _ _ HT Ht') as (t&Ht&?&Ei&?&Hw&Ec).
    rewrite Ei in Hi. rewrite Ec, list_elem_of_filter.
    rewrite (gi_waits0 t i Ht Hi). split.
    + intros [? Hn] Hd. apply (Hnew t i Ht Hi) in Hd; done.
    + intros Hn. assert (¬ input_done P T i) as Hd.
      { intros Hd. by eapply Hn, input_done_mono. }
      split; [|done]. by rewrite <-(Hnew t i Ht Hi Hd).
  - intros k t' i Hk Hi. destruct (Forall2_lookup_r _ _ _ _ _ HT Hk) as (t&Ht&?&Ei&?).
    rewrite Ei in Hi. specialize (gi_inputs0 k t i Ht Hi).
    by rewrite fmap_take, Hti, Hpi, <-fmap_take.
  - intros t' Ht' Hin. destruct (Forall2_elem_r _ _ _ _ HT Ht') as (t&Ht&Eid&?&Hs&?).
    rewrite Eid, Hpi in Hin. auto.
Qed.

Lemma at_step_later t t' : at_later t t' → at_step [] t t'.
Proof.
  intros Ht. pose proof (at_later_child_ids _ _ Ht). destruct Ht. unfold at_step.
  split_and!; try done. rewrite filter_all; [done|]. intros x _. apply not_elem_of_nil.
Qed.

Lemma at_steps_later T T' : Forall2 at_later T T' → Forall2 (at_step []) T T'.
Proof. intros HT. eapply Forall2_impl; [done|]. apply at_step_later. Qed.

Lemma at_step_refl t : at_step [] t t.
Proof. by apply at_step_later. Qed.

Lemma NoDup_fmap_inj_elem {A B} (f : A → B) (l : list A) x y :
  NoDup (f <$> l) → x ∈ l → y ∈ l → f x = f y → x = y.
Proof.
  intros Hnd [i Hi]%list_elem_of_lookup [j Hj]%list_elem_of_lookup Heq.
  assert (i = j) as ->; [|congruence].
  eapply (NoDup_lookup (f <$> l)); [done| |].
  - by rewrite list_lookup_fmap, Hi.
  - by rewrite list_lookup_fmap, Hj, Heq.
Qed.

(** Which ids an update of one task makes done. *)
Lemma done_in_update {A} (key : A → string) state l test (x y : A) :
  find_first test l = Some x → key y = key x → state x ≠ TASK_STATE_SUCCESS →
  ∀ id, done_in key state (update_first test (λ _, y) l) id ↔
        done_in key state l id ∨ (id = key x ∧ state y = TASK_STATE_SUCCESS).
Proof.
  intros Hf Hid Hns id.
  destruct (find_first_split test (λ _, y) l x Hf) as (l1&l2&->&->).
  unfold done_in. split.
  - intros (p&[Hp|[->|Hp]%elem_of_cons]%elem_of_app&Hi&Hs).
    + left. exists p. set_solver.
    + right. split; [congruence|done].
    + left. exists p. set_solver.
  - intros [(p&Hp&Hi&Hs)|[-> Hs]].
    + exists p. split; [|done]. assert (p ≠ x) by congruence. set_solver.
    + exists y. split; [set_solver|done].
Qed.

Lemma same_but_childs_fields t t' :
  same_but_childs t t' → at_task_id t' = at_task_id t ∧ at_state t' = at_state t.
Proof. intros ->. done. Qed.

Lemma at_done_unwait ids T T' id : unwait ids T T' → at_done T' id ↔ at_done T id.
Proof.
  intros HU. split; intros (t&Ht&Hi&Hs).
  - destruct (Forall2_elem_r _ _ _ _ HU Ht) as (t0&?&[]%same_but_childs_fields&_).
    exists t0. split_and!; [done|congruence..].
  - destruct (Forall2_elem_l _ _ _ _ HU Ht) as (t'&?&[]%same_but_childs_fields&_).
    exists t'. split_and!; [done|congruence..].
Qed.

(** ** Dispatching and replies *)

Lemma is_ready_not_success st : is_ready_state st = true → st ≠ TASK_STATE_SUCCESS.
Proof. by intros ? ->. Qed.

(** Dispatching changes one ready task to PROCESSING. *)
Definition dispatched_prove (now : Z) (p : ProveTask) : ProveTask :=
  p <| pt_state := TASK_STATE_PROCESSING |>
    <| pt_trace := pt_trace p <| tr_start_ts := now |> |>.
Definition dispatched_agg (now : Z) (t : AggTask) : AggTask :=
  t <| at_state := TASK_STATE_PROCESSING |>
    <| at_trace := at_trace t <| tr_start_ts := now |> |>.

Lemma pick_prove_update fs now P :
  let test := λ p, is_ready_state (pt_state p) && fs_exists fs (pt_segment p) in
  pick_prove fs now P =
    (dispatched_prove now <$> find_first test P,
     update_first test (dispatched_prove now) P).
Proof.
  cbv zeta. induction P as [|p P IH]; [done|]. cbn [pick_prove find_first update_first].
  case_match; [done|]. by rewrite IH.
Qed.

Lemma pick_agg_update now T :
  let test := λ t, negb (has_child t) && is_ready_state (at_state t) in
  pick_agg now T =
    (dispatched_agg now <$> find_first test T,
     update_first test (dispatched_agg now) T).
Proof.
  cbv zeta. induction T as [|t T IH]; [done|]. cbn [pick_agg find_first update_first].
  case_match; [done|]. by rewrite IH.
Qed.

Lemma has_child_false t : has_child t = false ↔ child_ids t = [].
Proof.
  unfold has_child, child_ids. induction (at_childs t) as [|[c|] cs IH]; [done| |].
  - by split.
  - simpl. by rewrite IH.
Qed.

(** No update of [update_first] makes anything done when its result is not SUCCESS. *)
Lemma done_in_update_ready {A} (key : A → string) state l test (f : A → A) :
  (∀ x, test x = true → key (f x) = key x ∧ state x ≠ TASK_STATE_SUCCESS ∧
                        state (f x) ≠ TASK_STATE_SUCCESS) →
  ∀ id, done_in key state (update_first test f l) id ↔ done_in key state l id.
Proof.
  intros Hf id. destruct (update_first_split test f l) as [[-> _]|(l1&x&l2&->&Hx&_&->)];
    [done|].
  destruct (Hf x Hx) as (?&?&?). unfold done_in.
  split; intros (y&Hy&?&?); exists y; split_and!; try done;
    apply elem_of_app in Hy as [|[->|]%elem_of_cons]; set_solver.
Qed.

Lemma input_done_ext P P' T T' i :
  (∀ id, pt_done P' id ↔ pt_done P id) → (∀ id, at_done T' id ↔ at_done T id) →
  input_done P' T' i ↔ input_done P T i.
Proof. intros. unfold input_done. by destruct (ai_is_agg i). Qed.

Lemma nothing_new P P' T T' i :
  (∀ id, pt_done P' id ↔ pt_done P id) → (∀ id, at_done T' id ↔ at_done T id) →
  ¬ input_done P T i → input_done P' T' i ↔ input_id i ∈ [].
Proof. intros. rewrite input_done_ext by done. by rewrite elem_of_nil. Qed.

Lemma graph_inv_pick_prove fs now P T :
  graph_inv P T → graph_inv (pick_prove fs now P).2 T.
Proof.
  intros HG. rewrite pick_prove_update. simpl.
  eapply (graph_inv_step P _ T T []); [done| |by apply Forall2_refl_l, at_step_refl|].
  - apply update_first_Forall2; [done|].
    intros p _ [Hr%is_ready_not_success _]%andb_true_iff. by split.
  - intros t i _ _ Hn. apply (nothing_new P _ T); [|done..].
    apply done_in_update_ready. intros p [Hr%is_ready_not_success _]%andb_true_iff. done.
Qed.

Lemma graph_inv_pick_agg now P T :
  graph_inv P T → graph_inv P (pick_agg now T).2.
Proof.
  intros HG. rewrite pick_agg_update. simpl.
  eapply (graph_inv_step P P T _ []); [done|by apply Forall2_refl_l| |].
  - apply at_steps_later, update_first_Forall2; [done|].
    intros t _ [Hc%negb_true_iff%has_child_false Hr%is_ready_not_success]%andb_true_iff.
    by split.
  - intros t i _ _ Hn. apply (nothing_new P _ T); [done| |done].
    apply done_in_update_ready. intros p [_ Hr%is_ready_not_success]%andb_true_iff. done.
Qed.

(** A reply that reports success is for a task that is being processed, or for an id
    nothing waits for (a late reply). *)
Definition prove_reply_ok (P : list ProveTask) (T : list AggTask) (r : ProveTask) : Prop :=
  pt_state r = TASK_STATE_SUCCESS →
  is_Some (find_first (awaits_prove (pt_task_id r)) P) ∨
  pt_task_id r ∉ T ≫= child_ids.
Definition agg_reply_ok (T : list AggTask) (r : AggTask) : Prop :=
  at_state r = TASK_STATE_SUCCESS →
  is_Some (find_first (awaits_agg (at_task_id r)) T) ∨
  at_task_id r ∉ T ≫= child_ids.

Lemma on_prove_task_macro_spec now r p err :
  let '(src, p', _) := on_prove_task_macro now r p err in
  pt_task_id src = pt_task_id r ∧ pt_state src = pt_state r ∧
  pt_task_id p' = pt_task_id p ∧
  pt_state p' = if is_reply_state (pt_state r) then pt_state r else pt_state p.
Proof. unfold on_prove_task_macro. by repeat case_match; simplify_eq/=. Qed.

Lemma on_task_agg_spec now (r t : AggTask) err :
  let '(src, t', _) := on_task now r t err in
  at_task_id src = at_task_id r ∧ at_state src = at_state r ∧
  at_is_final src = at_is_final r ∧ at_output src = at_output r ∧
  at_task_id t' = at_task_id t ∧ at_inputs t' = at_inputs t ∧
  at_childs t' = at_childs t ∧
  at_state t' = if is_reply_state (at_state r) then at_state r else at_state t.
Proof. unfold on_task. simpl. by repeat case_match; simplify_eq/=. Qed.

(** The task lists after a reply. *)
Definition reply_prove (now : Z) (r : ProveTask) (err : bool) (P : list ProveTask) :
    list ProveTask :=
  match find_first (awaits_prove (pt_task_id r)) P with
  | Some p => update_first (awaits_prove (pt_task_id r))
                (λ _, (on_prove_task_macro now r p err).1.2) P
  | None => P
  end.
Definition reply_agg (now : Z) (r : AggTask) (err : bool) (T : list AggTask) :
    list AggTask :=
  match find_first (awaits_agg (at_task_id r)) T with
  | Some t => update_first (awaits_agg (at_task_id r)) (λ _, (on_task now r t err).1.2) T
  | None => T
  end.
Definition clear_if (b : bool) (id : string) (T : list AggTask) : list AggTask :=
  if b then clear_child_in id T else T.

Lemma on_prove_task_lists now r s :
  let s' := (on_prove_task now r s).2 in
  stage_prove_tasks s' = reply_prove now r (stage_is_error s) (stage_prove_tasks s) ∧
  stage_agg_tasks s' = clear_if (pt_state r =? TASK_STATE_SUCCESS) (pt_task_id r)
                         (stage_agg_tasks s).
Proof.
  unfold on_prove_task, reply_prove, clear_if.
  destruct (find_first _ _) as [p|]; simpl.
  - pose proof (on_prove_task_macro_spec now r p (stage_is_error s)) as Hm.
    destruct (on_prove_task_macro _ _ _ _) as [[src p'] e]. destruct Hm as (->&->&_).
    simpl. by case_match.
  - by case_match.
Qed.

Lemma awaits_prove_true id p :
  awaits_prove id p = true → pt_task_id p = id ∧ pt_state p = TASK_STATE_PROCESSING.
Proof. by intros [?%String.eqb_eq ?%Z.eqb_eq]%andb_true_iff. Qed.
Lemma awaits_agg_true id t :
  awaits_agg id t = true → at_task_id t = id ∧ at_state t = TASK_STATE_PROCESSING.
Proof. by intros [?%String.eqb_eq ?%Z.eqb_eq]%andb_true_iff. Qed.

Lemma clear_if_unwait (b : bool) (id : string) (T : list AggTask) :
  NoDup (T ≫= child_ids) → waiters_unprocessed T →
  unwait (if b then [id] else []) T (clear_if b id T).
Proof.
  intros. destruct b; simpl; [by apply clear_child_in_spec|].
  by apply (clear_all_spec []).
Qed.

(** A reply about [id] makes [id] done exactly when it reports success. *)
Lemma is_reply_success st : st = TASK_STATE_SUCCESS → is_reply_state st = true.
Proof. by intros ->. Qed.

Lemma reply_prove_later now r err P :
  Forall2 pt_later P (reply_prove now r err P) ∧
  ∀ id, pt_done (reply_prove now r err P) id ↔
    pt_done P id ∨ (id = pt_task_id r ∧ pt_state r = TASK_STATE_SUCCESS ∧
                    is_Some (find_first (awaits_prove (pt_task_id r)) P)).
Proof.
  unfold reply_prove. destruct (find_first _ P) as [p|] eqn:Hf.
  2: { split; [by apply Forall2_refl_l|]. intros id. split; [by left|].
       by intros [|(_&_&[])]. }
  pose proof (on_prove_task_macro_spec now r p err) as Hm.
  destruct (on_prove_task_macro _ _ _ _) as [[src p'] e]. destruct Hm as (_&_&Hi&Hs).
  apply find_first_Some in Hf as Ha. destruct Ha as [_ [Hid Hst]%awaits_prove_true].
  simpl. split.
  - eapply update_first_later; [done..|]. split; [done|]. by rewrite Hst.
  - intros id. rewrite (done_in_update _ _ _ _ _ _ Hf Hi) by by rewrite Hst.
    rewrite Hid, Hs, Hst. apply or_iff_compat_l. split.
    + intros [-> Hr]. destruct (is_reply_state _); by split_and!.
    + intros (->&Hr&_). by rewrite Hr.
Qed.

Lemma reply_agg_later now r err T :
  waiters_unprocessed T →
  Forall2 at_later T (reply_agg now r err T) ∧
  ∀ id, at_done (reply_agg now r err T) id ↔
    at_done T id ∨ (id = at_task_id r ∧ at_state r = TASK_STATE_SUCCESS ∧
                    is_Some (find_first (awaits_agg (at_task_id r)) T)).
Proof.
  intros Hw. unfold reply_agg. destruct (find_first _ T) as [t|] eqn:Hf.
  2: { split; [by apply Forall2_refl_l|]. intros id. split; [by left|].
       by intros [|(_&_&[])]. }
  pose proof (on_task_agg_spec now r t err) as Hm.
  destruct (on_task _ _ _ _) as [[src t'] e]. destruct Hm as (_&_&_&_&Hi&?&?&Hs).
  apply find_first_Some in Hf as Ha. destruct Ha as [Ht [Hid Hst]%awaits_agg_true].
  simpl. split.
  - eapply update_first_later; [done..|]. split; try done; [by rewrite Hst|].
    intros Hc. apply Hw in Hc; [|done]. by rewrite Hst in Hc.
  - intros id. rewrite (done_in_update _ _ _ _ _ _ Hf Hi) by by rewrite Hst.
    rewrite Hid, Hs, Hst. apply or_iff_compat_l. split.
    + intros [-> Hr]. destruct (is_reply_state _); by split_and!.
    + intros (->&Hr&_). by rewrite Hr.
Qed.

(** An awaited id is the id of an input that is not done. *)
Lemma not_done_awaited P T t i :
  graph_inv P T → t ∈ T → i ∈ at_inputs t → ¬ input_done P T i →
  input_id i ∈ T ≫= child_ids.
Proof.
  intros HG Ht Hi Hn. apply list_elem_of_bind. exists t. split; [|done].
  by apply (gi_waits _ _ HG).
Qed.

Lemma elem_of_if_singleton (b : bool) (x y : string) :
  x ∈ (if b then [y] else []) ↔ x = y ∧ b = true.
Proof. destruct b; set_solver. Qed.

Lemma graph_inv_reply_prove now r err P T :
  graph_inv P T → prove_reply_ok P T r →
  graph_inv (reply_prove now r err P)
    (clear_if (pt_state r =? TASK_STATE_SUCCESS) (pt_task_id r) T).
Proof.
  intros HG Hok. destruct (reply_prove_later now r err P) as [HP Hd].
  pose proof (clear_if_unwait (pt_state r =? TASK_STATE_SUCCESS) (pt_task_id r) T
    (gi_wait _ _ HG) (gi_waiters _ _ HG)) as HU.
  eapply (graph_inv_step P _ T _ _); [done..|by eapply at_steps; [by apply Forall2_refl_l|]|].
  intros t i Ht Hi Hn. pose proof (not_done_awaited _ _ _ _ HG Ht Hi Hn) as Hw.
  apply list_elem_of_lookup in Ht as [k Hk].
  pose proof (gi_inputs _ _ HG k t i Hk Hi) as Hin.
  rewrite elem_of_if_singleton, Z.eqb_eq. unfold input_done in *.
  destruct (ai_is_agg i).
  - rewrite (at_done_unwait _ _ _ _ HU). split; [done|]. intros [Hid Hr].
    destruct (Hok Hr) as [[p Hf]|]; [|congruence].
    apply find_first_Some in Hf as [Hp [Hpid _]%awaits_prove_true].
    destruct Hin as [_ []]. rewrite Hid, <-Hpid. by apply list_elem_of_fmap_2.
  - rewrite Hd. split; [intros [|]; naive_solver|]. intros [Hid Hr]. right.
    split_and!; [done..|]. destruct (Hok Hr); [done|congruence].
Qed.

Lemma graph_inv_reply_agg now r err P T :
  graph_inv P T → agg_reply_ok T r →
  graph_inv P (clear_if (at_state r =? TASK_STATE_SUCCESS) (at_task_id r)
                 (reply_agg now r err T)).
Proof.
  intros HG Hok. destruct (reply_agg_later now r err T (gi_waiters _ _ HG)) as [HT Hd].
  assert (NoDup (reply_agg now r err T ≫= child_ids) ∧
          waiters_unprocessed (reply_agg now r err T)) as [Hnd Hw].
  { pose proof (at_steps_later _ _ HT) as HS. split.
    - assert (reply_agg now r err T ≫= child_ids = T ≫= child_ids) as ->; [|apply HG].
      clear -HT. induction HT as [|t t' T T' Ht _ IH]; [done|].
      by rewrite !bind_cons, IH, (at_later_child_ids _ _ Ht).
    - intros t' Ht' Hc. destruct (Forall2_elem_r _ _ _ _ HT Ht') as (t&Ht&Hl).
      rewrite (at_later_child_ids _ _ Hl) in Hc. destruct Hl. rewrite al_waits0 by done.
      by apply (gi_waiters _ _ HG). }
  pose proof (clear_if_unwait (at_state r =? TASK_STATE_SUCCESS) (at_task_id r) _ Hnd Hw) as HU.
  eapply (graph_inv_step P P T _ _); [done|by apply Forall2_refl_l|by eapply at_steps|].
  intros t i Ht Hi Hn. pose proof (not_done_awaited _ _ _ _ HG Ht Hi Hn) as Haw.
  apply list_elem_of_lookup in Ht as [k Hk].
  pose proof (gi_inputs _ _ HG k t i Hk Hi) as Hin.
  rewrite elem_of_if_singleton, Z.eqb_eq. unfold input_done in *.
  destruct (ai_is_agg i).
  - rewrite (at_done_unwait _ _ _ _ HU), Hd. split; [intros [|]; naive_solver|].
    intros [Hid Hr]. right. split_and!; [done..|]. destruct (Hok Hr); [done|congruence].
  - split; [done|]. intros [Hid Hr]. destruct (Hok Hr) as [[p Hf]|]; [|congruence].
    apply find_first_Some in Hf as [Hp [Hpid Hst]%awaits_agg_true].
    rewrite Hid, <-Hpid in Hin. apply (gi_odd _ _ HG) in Hin; [|done]. by rewrite Hst in Hin.
Qed.
