(* ===== verification/StageGen.v ===== *)
(** * StageGen: the generated task graph satisfies the invariant

    [on_split_done] completes the prove tasks, generates the aggregation tasks and
    clears the prove tasks that are already done.  [stage_inv] is the invariant of a
    whole stage; [dispatch] and the other operations preserve it. *)

From S2P Require Import Prelude Text Proto World Tasks Stage AggGraph StageInv.

(** ** The fresh graph *)

(** A normal prove task before any prover has seen it. *)
Definition not_started (p : ProveTask) : ProveTask :=
  if pt_is_deferred p then p else p <| pt_state := TASK_STATE_UNPROCESSED |>.

Lemma not_started_ids (P : list ProveTask) : pt_ids (not_started <$> P) = pt_ids P.
Proof.
  rewrite <-list_fmap_compose. apply list_fmap_ext. intros k p _. simpl.
  unfold not_started. by destruct (pt_is_deferred p).
Qed.

Lemma not_started_not_done (P : list ProveTask) id :
  NoDup (pt_ids P) → id ∈ pt_ids (normal_tasks P) → ¬ pt_done (not_started <$> P) id.
Proof.
  intros Hnd (p&->&[Hn Hp]%list_elem_of_filter)%list_elem_of_fmap.
  intros (q'&(q&->&Hq)%list_elem_of_fmap&Hid&Hs).
  assert (q = p) as ->.
  { eapply NoDup_fmap_inj_elem; [exact Hnd|done..|]. rewrite <-Hid.
    unfold not_started. by destruct (pt_is_deferred q). }
  unfold not_started in Hs. by rewrite Hn in Hs.
Qed.

Lemma first_task_state P t :
  first_task P t →
  at_state t = (if at_from_prove t then TASK_STATE_SUCCESS else TASK_STATE_UNPROCESSED) ∧
  (at_from_prove t = true → at_inputs t = [] ∧ child_ids t = []).
Proof.
  intros [(parts&_&_&[_ _ ? ->])|[(p&_&_&[_ _ ? ->])|(p&i&_&->)]]; by split.
Qed.

Section fresh_graph.
Context (P order : list ProveTask) (leaves : list string) (first new : list AggTask).
Context (Hpt : NoDup (pt_ids P)).
Context (Hdef : ∀ p, p ∈ P → pt_is_deferred p = true → pt_state p = TASK_STATE_SUCCESS).
Context (Hfirst : first_ok P leaves order first) (Hgrows : grows first new).
Context (Hleaves : leaves ⊆ pt_ids (normal_tasks P)).
Context (Hnd_leaves : NoDup leaves).
Context (Hnd : NoDup (at_ids (first ++ new))).
Context (Hdisj : ∀ id, id ∈ leaves → id ∉ at_ids (all_but_last (first ++ new))).
Context (Hagg : ∀ t, t ∈ first ++ new → at_from_prove t = false → at_task_id t ∉ pt_ids P).
Context (Hodd : ∀ t, t ∈ first ++ new → at_from_prove t = true →
  at_task_id t ∈ pt_ids (normal_tasks P)).

Lemma fresh_cases k t :
  (first ++ new) !! k = Some t →
  (t ∈ first ∧ first_task P t) ∨
  (∃ parts, parts ⊆ take k (first ++ new) ∧ aggregates parts t).
Proof.
  intros Hk. apply lookup_app_Some in Hk as [Hk|[Hk Ht]].
  - left. apply list_elem_of_lookup_2 in Hk. split; [done|].
    by apply (proj1 (Forall_forall _ _) (fo_tasks _ _ _ _ Hfirst)).
  - right. destruct (gr_order _ _ Hgrows _ _ Ht) as (parts&_&Hsub&Hag).
    exists parts. by rewrite take_app_ge.
Qed.

Lemma fresh_state t :
  t ∈ first ++ new →
  at_state t = (if at_from_prove t then TASK_STATE_SUCCESS else TASK_STATE_UNPROCESSED) ∧
  (at_from_prove t = true → at_inputs t = [] ∧ child_ids t = []).
Proof.
  intros [k Hk]%list_elem_of_lookup. destruct (fresh_cases k t Hk) as [[_ Ht]|(parts&_&[_ _ ? _ ->])].
  - by apply first_task_state in Ht.
  - by split.
Qed.

Lemma normal_sub : pt_ids (normal_tasks P) ⊆ pt_ids P.
Proof.
  intros x (p&->&[_ Hp]%list_elem_of_filter)%list_elem_of_fmap. by apply list_elem_of_fmap_2.
Qed.

(** No aggregation task of the fresh graph is the producer of a waited input and
    done. *)
Lemma fresh_agg_not_done t :
  t ∈ first ++ new → ¬ input_done (not_started <$> P) (first ++ new) (to_agg_input t).
Proof.
  intros Ht. unfold input_done. simpl. destruct (at_from_prove t) eqn:Hf; simpl.
  - apply not_started_not_done; auto.
  - intros (u&Hu&Hid&Hs). assert (u = t) as -> by (by eapply NoDup_fmap_inj_elem).
    destruct (fresh_state t Ht) as [Hst _]. rewrite Hf in Hst. by rewrite Hst in Hs.
Qed.

Lemma fresh_children :
  (first ++ new) ≫= child_ids ≡ₚ leaves ++ at_ids (all_but_last (first ++ new)).
Proof. by rewrite bind_app, (fo_children _ _ _ _ Hfirst), (gr_children _ _ Hgrows). Qed.

Lemma fresh_child t : t ∈ first ++ new → child_ids t ⊆ input_id <$> at_inputs t.
Proof using All.
  intros [k Hk]%list_elem_of_lookup.
  destruct (fresh_cases k t Hk) as [[_ [(parts&_&_&Hl)|[(p&_&_&Hl)|(p&i&_&->)]]]|(parts&_&Hag)].
  - rewrite (leaf_child_ids _ _ _ Hl), (lf_inputs _ _ _ Hl), <-list_fmap_compose. done.
  - rewrite (leaf_child_ids _ _ _ Hl). set_solver.
  - set_solver.
  - rewrite (aggregates_child_ids _ _ Hag), (ag_inputs _ _ Hag), <-list_fmap_compose. done.
Qed.

Lemma fresh_waits t i :
  t ∈ first ++ new → i ∈ at_inputs t →
  input_id i ∈ child_ids t ↔ ¬ input_done (not_started <$> P) (first ++ new) i.
Proof using All.
  intros Ht Hi. apply list_elem_of_lookup in Ht as [k Hk].
  destruct (fresh_cases k t Hk) as [[Ht [(parts&_&_&Hl)|[(p&Hp&Hd&Hl)|(p&j&_&->)]]]|(parts&Hs&Hag)].
  - rewrite (lf_inputs _ _ _ Hl) in Hi. apply list_elem_of_fmap in Hi as (q&->&Hq).
    assert (pt_task_id q ∈ child_ids t) as Hin.
    { rewrite (leaf_child_ids _ _ _ Hl). by apply list_elem_of_fmap_2. }
    split; [|done]. intros _. apply not_started_not_done; [done|]. apply Hleaves.
    rewrite <-(fo_children _ _ _ _ Hfirst). apply list_elem_of_bind. by exists t.
  - rewrite (lf_inputs _ _ _ Hl) in Hi. apply list_elem_of_singleton in Hi as ->.
    rewrite (leaf_child_ids _ _ _ Hl). split; [set_solver|]. intros Hn. destruct Hn.
    exists p. unfold not_started in *. split_and!; [|done|by apply Hdef].
    apply list_elem_of_fmap. exists p. unfold not_started. by rewrite Hd.
  - by apply elem_of_nil in Hi.
  - rewrite (ag_inputs _ _ Hag) in Hi. apply list_elem_of_fmap in Hi as (q&->&Hq). split.
    + intros _. apply fresh_agg_not_done. apply Hs in Hq.
      by eapply elem_of_take in Hq as (?&?%list_elem_of_lookup_2&_).
    + intros _. rewrite (aggregates_child_ids _ _ Hag). simpl.
      by apply (list_elem_of_fmap_2 at_task_id).
Qed.

Lemma fresh_inputs k t i :
  (first ++ new) !! k = Some t → i ∈ at_inputs t →
  if ai_is_agg i
  then input_id i ∈ at_ids (take k (first ++ new)) ∧ input_id i ∉ pt_ids (not_started <$> P)
  else input_id i ∈ pt_ids (not_started <$> P).
Proof using All.
  intros Hk Hi. rewrite not_started_ids.
  destruct (fresh_cases k t Hk) as [[_ [(parts&_&Hs&Hl)|[(p&Hp&_&Hl)|(p&j&_&->)]]]|(parts&Hs&Hag)].
  - rewrite (lf_inputs _ _ _ Hl) in Hi. apply list_elem_of_fmap in Hi as (q&->&Hq). simpl.
    apply list_elem_of_fmap_2. by apply Hs.
  - rewrite (lf_inputs _ _ _ Hl) in Hi. apply list_elem_of_singleton in Hi as ->. simpl.
    by apply list_elem_of_fmap_2.
  - by apply elem_of_nil in Hi.
  - rewrite (ag_inputs _ _ Hag) in Hi. apply list_elem_of_fmap in Hi as (q&->&Hq%Hs). simpl.
    assert (q ∈ first ++ new) as Hq' by (by eapply elem_of_take in Hq as (?&?%list_elem_of_lookup_2&_)).
    destruct (at_from_prove q) eqn:Hf; simpl.
    + apply normal_sub. auto.
    + split; [by apply list_elem_of_fmap_2|auto].
Qed.

Lemma fresh_graph_inv : graph_inv (not_started <$> P) (first ++ new).
Proof using All.
  split; [by rewrite not_started_ids|done| | |apply fresh_child|apply fresh_waits|
          apply fresh_inputs|].
  - rewrite fresh_children. apply NoDup_app. split_and!; [done|by auto|].
    unfold all_but_last. rewrite fmap_take. by eapply sublist_NoDup, sublist_take.
  - intros t Ht Hc. destruct (fresh_state t Ht) as [Hst Hi].
    destruct (at_from_prove t); [|done]. by destruct Hi.
  - intros t Ht Hin. rewrite not_started_ids in Hin. destruct (fresh_state t Ht) as [-> _].
    destruct (at_from_prove t) eqn:Hf; [done|]. exfalso. by eapply Hagg.
Qed.

End fresh_graph.

(** ** After the children that are already done are cleared *)

Definition success_ids (P : list ProveTask) : list string :=
  pt_task_id <$> filter (λ t, pt_state t = TASK_STATE_SUCCESS) P.

Lemma elem_of_success_ids P id : id ∈ success_ids P ↔ pt_done P id.
Proof.
  unfold success_ids, done_in. split.
  - intros (p&->&[Hs Hp]%list_elem_of_filter)%list_elem_of_fmap. by exists p.
  - intros (p&Hp&<-&Hs). apply list_elem_of_fmap_2, list_elem_of_filter. done.
Qed.

Lemma not_started_later P :
  (∀ p, p ∈ P → pt_is_deferred p = true → pt_state p = TASK_STATE_SUCCESS) →
  Forall2 pt_later (not_started <$> P) P.
Proof.
  intros Hdef. apply Forall2_fmap_l, Forall2_same_length_lookup. split; [done|].
  intros k p p' Hk Hk'. simplify_eq. apply list_elem_of_lookup_2 in Hk.
  change (pt_later (not_started p) p). unfold not_started.
  destruct (pt_is_deferred p) eqn:Hd; [by apply pt_later_refl|by split].
Qed.

Lemma mark_last_final_later (T : list AggTask) : Forall2 at_later T (mark_last_final T).
Proof.
  destruct T as [|t T _] using rev_ind; [constructor|]. rewrite mark_last_final_snoc.
  apply Forall2_app; [by apply Forall2_refl_l|]. constructor; [by split|constructor].
Qed.

Lemma mark_last_final_done T id : at_done (mark_last_final T) id ↔ at_done T id.
Proof.
  destruct T as [|t T _] using rev_ind; [done|]. rewrite mark_last_final_snoc.
  unfold done_in. split; intros (u&[Hu|Hu%list_elem_of_singleton]%elem_of_app&?&?).
  - exists u. set_solver.
  - subst u. exists t. set_solver.
  - exists u. set_solver.
  - subst u. exists (t <| at_is_final := true |>). set_solver.
Qed.

Lemma graph_inv_generated P T :
  graph_inv (not_started <$> P) T →
  (∀ p, p ∈ P → pt_is_deferred p = true → pt_state p = TASK_STATE_SUCCESS) →
  graph_inv P (foldl (λ T id, clear_child_in id T) (mark_last_final T) (success_ids P)).
Proof.
  intros HG Hdef. pose proof (mark_last_final_later T) as HL.
  destruct (mark_last_final_ids T) as (_&Hc&_).
  assert (unwait (success_ids P) (mark_last_final T)
    (foldl (λ T id, clear_child_in id T) (mark_last_final T) (success_ids P))) as HU.
  { apply clear_all_spec; [rewrite Hc; apply HG|]. intros t' Ht' Hne.
    destruct (Forall2_elem_r _ _ _ _ HL Ht') as (t&Ht&Hl).
    rewrite (at_later_child_ids _ _ Hl) in Hne. rewrite (al_waits _ _ Hl Hne).
    by apply (gi_waiters _ _ HG). }
  eapply (graph_inv_step _ _ T _ _ HG); [by apply not_started_later|by eapply at_steps|].
  intros t i Ht Hi Hn. apply list_elem_of_lookup in Ht as [k Hk].
  pose proof (gi_inputs _ _ HG k t i Hk Hi) as Hin.
  rewrite elem_of_success_ids. unfold input_done in *. destruct (ai_is_agg i); [|done].
  rewrite (at_done_unwait _ _ _ _ HU), mark_last_final_done. split; [done|].
  intros (p&Hp&Hid&_). destruct Hin as [_ []]. rewrite not_started_ids, <-Hid.
  by apply list_elem_of_fmap_2.
Qed.

(** ** Generating prove tasks *)

Section gen.
Context `{E : !External}.

Lemma gen_program_same g w p w' : gen_program g w = Ret (p, w') → w' = w.
Proof.
  unfold gen_program. intros. m_inv; try done;
    repeat match goal with
    | H : safe_read _ _ = _ |- _ => apply safe_read_same in H as ->
    | H : file_read _ _ = _ |- _ => apply file_read_same in H as ->
    end; done.
Qed.

(** A fresh task of the segment file with that number. *)
Record segment_task (g : GenerateTask) (no : Z) (p : ProveTask) : Prop := {
  sgt_no : pt_file_no p = no;
  sgt_segment : pt_segment p = gt_seg_path g +:+ "/" +:+ pretty no;
  sgt_state : pt_state p = TASK_STATE_UNPROCESSED;
  sgt_deferred : pt_is_deferred p = false;
  sgt_failures : pt_failure_count p = 0
}.

Lemma task_with_no_run g no w p w' :
  task_with_no g no w = Ret (p, w') →
  w' = bump 1 w ∧ pt_task_id p = uuid_v4 (w_uuids w) ∧ segment_task g no p.
Proof.
  unfold task_with_no, new_uuid. intros. m_inv.
  match goal with H : gen_program _ _ = _ |- _ => apply gen_program_same in H as -> end.
  split_and!; [done|done|]. by split.
Qed.

Lemma tasks_with_nos_run g lo hi w ts w' :
  tasks_with_nos g lo hi w = Ret (ts, w') →
  w' = bump (length ts) w ∧ pt_ids ts = next_ids w (length ts) ∧
  Forall2 (segment_task g) (seqZ lo (hi - lo)) ts.
Proof.
  intros H. destruct (mapM_draw _ (segment_task g) pt_task_id _ (task_with_no_run g) _ _ _ H)
    as (->&Hids&HF). by rewrite (Forall2_length _ _ _ HF) in *.
Qed.

Record deferred_proof (f : Z * string) (p : ProveTask) : Prop := {
  dfp_no : pt_file_no p = f.1;
  dfp_state : pt_state p = TASK_STATE_SUCCESS;
  dfp_deferred : pt_is_deferred p = true;
  dfp_failures : pt_failure_count p = 0
}.

Lemma deferred_task_run g f w p w' :
  deferred_task g f w = Ret (p, w') →
  w' = bump 1 w ∧ pt_task_id p = uuid_v4 (w_uuids w) ∧ deferred_proof f p.
Proof.
  unfold deferred_task, new_uuid. destruct f as [no name]. intros. m_inv.
  match goal with H : gen_program _ _ = _ |- _ => apply gen_program_same in H as -> end.
  match goal with H : safe_read _ _ = _ |- _ => apply safe_read_same in H as -> end.
  split_and!; [done|done|]. by split.
Qed.

(** ** The invariant of a stage *)

Definition valid_state (st : Z) : Prop :=
  st = TASK_STATE_UNPROCESSED ∨ st = TASK_STATE_PROCESSING ∨
  st = TASK_STATE_SUCCESS ∨ st = TASK_STATE_FAILED.

Record stage_inv (s : Stage) (w : World) : Prop := {
  si_graph : graph_inv (stage_prove_tasks s) (stage_agg_tasks s);
  si_drawn : Forall (drawn w) (pt_ids (stage_prove_tasks s));
  si_start : stage_is_tasks_gen_done s = false →
    stage_agg_tasks s = [] ∧
    Forall (λ p, pt_is_deferred p = false) (stage_prove_tasks s);
  si_deferred : ∀ p, p ∈ stage_prove_tasks s →
    pt_is_deferred p = true → pt_state p = TASK_STATE_SUCCESS;
  si_pt_states : Forall (λ p, valid_state (pt_state p)) (stage_prove_tasks s);
  si_at_states : Forall (λ t, valid_state (at_state t)) (stage_agg_tasks s)
}.

Lemma stage_inv_ext s s' w w' :
  stage_inv s w →
  stage_prove_tasks s' = stage_prove_tasks s → stage_agg_tasks s' = stage_agg_tasks s →
  stage_is_tasks_gen_done s' = stage_is_tasks_gen_done s →
  (w_uuids w ≤ w_uuids w')%nat → stage_inv s' w'.
Proof.
  intros [] EP ET EG Hw. split; rewrite ?EP, ?ET, ?EG; try done.
  eapply Forall_impl; [done|]. intros id. by apply drawn_mono.
Qed.

Lemma graph_inv_no_agg P : NoDup (pt_ids P) → graph_inv P [].
Proof. intros. split; try done; try constructor; try (intros ? []%elem_of_nil); set_solver. Qed.

Lemma stage_inv_new g w : stage_inv (Stage_new g) w.
Proof.
  split; simpl; try done; [apply graph_inv_no_agg; constructor|].
  by intros p ?%elem_of_nil.
Qed.

Lemma segment_tasks_Forall g nos ts (Q : ProveTask → Prop) :
  (∀ no p, segment_task g no p → Q p) → Forall2 (segment_task g) nos ts → Forall Q ts.
Proof. intros HQ. induction 1; constructor; eauto. Qed.

(** Before the split is done, only tasks of segments are added. *)
Definition growing (s : Stage) (w : World) : Prop :=
  stage_is_tasks_gen_done s = false ∧ stage_agg_tasks s = [] ∧ stage_inv s w.

Lemma growing_add s w lo hi ts w' g :
  UuidFresh → growing s w → tasks_with_nos g lo hi w = Ret (ts, w') →
  growing (s <| stage_prove_tasks := stage_prove_tasks s ++ ts |>) w'.
Proof.
  intros Hfr (Hg&HT&[]) (->&Hids&HF)%tasks_with_nos_run. split_and!; [done|done|].
  destruct (si_start0 Hg) as [_ Hnd]. split; simpl.
  - rewrite HT. apply graph_inv_no_agg. rewrite fmap_app, Hids. apply NoDup_app.
    split_and!; [apply si_graph0| |apply next_ids_NoDup].
    intros id Hid. apply next_ids_fresh. by eapply Forall_forall in si_drawn0.
  - rewrite fmap_app, Hids. apply Forall_app. split.
    + eapply Forall_impl; [done|]. intros id. apply drawn_mono. rewrite w_uuids_bump. lia.
    + apply Forall_forall. intros id. by apply next_ids_drawn.
  - intros _. split; [done|]. apply Forall_app. split; [done|].
    eapply segment_tasks_Forall; [|done]. intros ? p []. done.
  - intros p [Hp|Hp]%elem_of_app; [auto|].
    assert (Forall (λ p, pt_is_deferred p = false) ts) as Hd.
    { eapply segment_tasks_Forall; [|done]. intros ? q []. done. }
    eapply Forall_forall in Hd; [|done]. by rewrite Hd.
  - apply Forall_app. split; [done|].
    eapply segment_tasks_Forall; [|done]. intros ? p []. by left.
  - done.
Qed.

Lemma growing_gen_prove_task s w s' w' :
  UuidFresh → growing s w → gen_prove_task s w = Ret (s', w') → growing s' w'.
Proof.
  intros Hfr Hg. unfold gen_prove_task. destruct (_ || _); [intros; by m_inv|].
  intros (s1&w1&H1&H2)%M_bind_Ret.
  assert (growing s1 w1) as Hg1.
  { destruct (stage_prove_tasks s) as [|p P] eqn:HP;
      [|by apply M_mret_Ret in H1 as [<- <-]].
    apply M_bind_Ret in H1 as (ts&w2&Hts&[<- <-]%M_mret_Ret).
    pose proof (growing_add s w _ _ _ _ _ _ Hg Hts) as Hg'. by rewrite HP in Hg'. }
  apply M_bind_Ret in H2 as (n&w2&Hn&H2).
  assert (w2 = w1) as ->.
  { unfold read_segments_txt in Hn. apply M_bind_Ret in Hn as (c&w3&Hc&[_ <-]%M_mret_Ret).
    by eapply read_m_same. }
  destruct n as [n|]; [|by m_inv].
  apply M_bind_Ret in H2 as (ts&w3&Hts&[<- <-]%M_mret_Ret).
  by eapply growing_add.
Qed.

Lemma growing_complete s w s' w' :
  UuidFresh → growing s w → complete_prove_tasks s w = Ret (s', w') →
  growing s' w' ∧ len (stage_prove_tasks s') = Z.max 0 (st_total_segments (stage_split_task s)).
Proof.
  intros Hfr Hg. unfold complete_prove_tasks.
  destruct (Z.ltb_spec (st_total_segments (stage_split_task s)) (len (stage_prove_tasks s)))
    as [Hlt|Hge]; intros H; m_inv.
  - split.
    + destruct Hg as (Hg&HT&[]). split_and!; [done|done|].
      assert (∀ n, take n (stage_prove_tasks s) ⊆ stage_prove_tasks s) as Hsub.
      { intros n x Hx. by eapply sublist_subseteq, Hx; apply sublist_take. }
      split; simpl.
      * rewrite HT. apply graph_inv_no_agg. rewrite fmap_take.
        eapply sublist_NoDup, sublist_take. apply si_graph0.
      * rewrite fmap_take. by apply Forall_take.
      * intros _. split; [done|]. apply Forall_take. by apply si_start0.
      * intros p Hp. apply si_deferred0. by apply Hsub in Hp.
      * by apply Forall_take.
      * done.
    + simpl. rewrite length_take. lia.
  - match goal with H : tasks_with_nos _ _ _ _ = _ |- _ => rename H into Hts end.
    split; [by eapply growing_add|]. apply tasks_with_nos_run in Hts as (_&_&HF).
    apply Forall2_length in HF. rewrite length_seqZ in HF. simpl. rewrite length_app. lia.
Qed.

(** ** The end of the split *)

(** The prove tasks are complete and nothing aggregates them yet. *)
Record complete (feature : Feature) (s : Stage) (w : World) : Prop := {
  co_agg : stage_agg_tasks s = [];
  co_nodup : NoDup (pt_ids (stage_prove_tasks s));
  co_drawn : Forall (drawn w) (pt_ids (stage_prove_tasks s));
  co_deferred : ∀ p, p ∈ stage_prove_tasks s →
    pt_is_deferred p = true → pt_state p = TASK_STATE_SUCCESS;
  co_normal : feature = feature_prover →
    Forall (λ p, pt_is_deferred p = false) (stage_prove_tasks s);
  co_states : Forall (λ p, valid_state (pt_state p)) (stage_prove_tasks s)
}.

Lemma complete_ext feature s s' w :
  complete feature s w → stage_agg_tasks s' = stage_agg_tasks s →
  stage_prove_tasks s' = stage_prove_tasks s → complete feature s' w.
Proof. intros [] ET EP. by split; rewrite ?ET, ?EP. Qed.

Lemma growing_is_complete feature s w : growing s w → complete feature s w.
Proof.
  intros (Hg&HT&[]). destruct (si_start0 Hg). split; try done. apply si_graph0.
Qed.

Lemma gen_prove_task_post_run feature s w s' w' :
  UuidFresh → growing s w → gen_prove_task_post feature s w = Ret (s', w') →
  complete feature s' w' ∧ (w_uuids w ≤ w_uuids w')%nat.
Proof.
  intros Hfr Hg. unfold gen_prove_task_post.
  intros (s1&w1&H1&H2)%M_bind_Ret.
  assert (w_uuids w ≤ w_uuids w1)%nat as Hw.
  { clear -H1. unfold complete_prove_tasks in H1. m_inv; [done|].
    match goal with H : tasks_with_nos _ _ _ _ = _ |- _ =>
      apply tasks_with_nos_run in H as (->&_) end. rewrite w_uuids_bump. lia. }
  apply (growing_complete s w s1 w1 Hfr) in H1 as [Hg1 _]; [|done].
  destruct feature.
  - apply (growing_is_complete feature_prover) in Hg1.
    destruct (_ <? 2); apply M_mret_Ret in H2 as [<- <-]; (split; [|done]);
      [by eapply complete_ext|done].
  - apply M_bind_Ret in H2 as (fs&w2&Hfs%file_read_dir_same&H2). subst w2.
    apply M_bind_Ret in H2 as (files&w2&[_ <-]%lift_Ret&H2).
    apply M_bind_Ret in H2 as (ts&w3&Hts&[<- <-]%M_mret_Ret).
    destruct (mapM_draw _ deferred_proof pt_task_id _ (deferred_task_run _) _ _ _ Hts)
      as (->&Hids&HF).
    split; [|rewrite w_uuids_bump; lia].
    apply (growing_is_complete feature_prover_v2) in Hg1 as [].
    assert (Forall (λ p, pt_state p = TASK_STATE_SUCCESS) ts) as Hs.
    { clear -HF. induction HF as [|??? ? []]; by constructor. }
    split; simpl; try done.
    + rewrite fmap_app, Hids. apply NoDup_app. split_and!; [done| |apply next_ids_NoDup].
      intros id Hid. apply next_ids_fresh. by eapply Forall_forall in co_drawn0.
    + rewrite fmap_app, Hids. apply Forall_app. split.
      * eapply Forall_impl; [done|]. intros id. apply drawn_mono. rewrite w_uuids_bump. lia.
      * apply Forall_forall. intros id. by apply next_ids_drawn.
    + intros p [Hp|Hp]%elem_of_app; [auto|]. intros _. by eapply Forall_forall in Hs.
    + apply Forall_app. split; [done|]. eapply Forall_impl; [done|].
      intros p ->. right; right; by left.
Qed.

(** *** The new graph, before the finished children are cleared *)

Lemma fresh_not_in w n id l : UuidFresh → Forall (drawn w) l → id ∈ next_ids w n → id ∉ l.
Proof.
  intros Hfr Hl Hid Hin. eapply Forall_forall in Hl; [|done]. by eapply next_ids_fresh.
Qed.

Lemma from_prove_id P leaves order first new t :
  first_ok P leaves order first → grows first new → t ∈ first ++ new → at_from_prove t = true →
  t ∈ first ∧ at_task_id t ∈ pt_ids P.
Proof.
  intros [_ Hf _] HG [Ht|[k Hk]%list_elem_of_lookup]%elem_of_app Hp.
  - split; [done|]. eapply Forall_forall in Hf; [|done].
    destruct Hf as [(?&_&_&[])|[(?&_&_&[])|(p&i&Hin&->)]]; [congruence..|].
    by apply (list_elem_of_fmap_2 pt_task_id).
  - destruct (gr_order _ _ HG _ _ Hk) as (?&_&_&[]). congruence.
Qed.

(** The states a task is generated in. *)
Definition initial_state (st : Z) : Prop :=
  st = TASK_STATE_UNPROCESSED ∨ st = TASK_STATE_SUCCESS.

Lemma initial_valid st : initial_state st → valid_state st.
Proof. intros [->| ->]; [by left|right; right; by left]. Qed.
Lemma initial_not_processing st : initial_state st → st ≠ TASK_STATE_PROCESSING.
Proof. by intros [->| ->]. Qed.

Lemma fresh_states P leaves order first new :
  first_ok P leaves order first → grows first new →
  Forall (λ t, initial_state (at_state t)) (first ++ new).
Proof.
  intros Hf HG. apply Forall_forall. intros t [k Hk]%list_elem_of_lookup.
  destruct (fresh_cases P order leaves first new Hf HG k t Hk) as [[_ Ht]|(parts&_&[])].
  - apply first_task_state in Ht as [-> _]. destruct (at_from_prove t); [by right|by left].
  - by left.
Qed.

Lemma graph_of_shape feature s w leaves order first new n m :
  UuidFresh → complete feature s w →
  first_ok (stage_prove_tasks s) leaves order first → grows first new →
  leaves ⊆ pt_ids (normal_tasks (stage_prove_tasks s)) → NoDup leaves →
  (∃ odd, at_ids first = next_ids w n ++ odd ∧ NoDup (leaves ++ odd) ∧
     odd ⊆ pt_ids (normal_tasks (stage_prove_tasks s))) →
  Forall (λ t, at_from_prove t = true ∨ at_task_id t ∈ next_ids w n) first →
  at_ids new = next_ids (bump n w) m →
  graph_inv (not_started <$> stage_prove_tasks s) (first ++ new).
Proof.
  intros Hfr [] Hfo HG Hsub Hnd (odd&Hids&Hodd&Hos) Hfp Hnids.
  apply NoDup_app in Hodd as (_&Hdis&Hoddnd).
  assert (∀ id, id ∈ next_ids w (n + m) → id ∉ pt_ids (stage_prove_tasks s)) as Hnew.
  { intros id Hid. by eapply fresh_not_in. }
  assert (at_ids (first ++ new) ≡ₚ next_ids w (n + m) ++ odd) as Hall.
  { rewrite fmap_app, Hids, Hnids, next_ids_app, <-!app_assoc. f_equiv. apply Permutation_app_comm. }
  eapply (fresh_graph_inv _ order leaves); try done.
  - rewrite Hall. apply NoDup_app. split_and!; [apply next_ids_NoDup| |done].
    intros id Hid Hin. by apply (Hnew id), normal_sub, Hos.
  - intros id Hid Hin.
    assert (id ∈ at_ids (first ++ new)) as Hin'.
    { unfold all_but_last in Hin. rewrite fmap_take in Hin.
      by eapply sublist_subseteq, Hin; apply sublist_take. }
    rewrite Hall, elem_of_app in Hin'. destruct Hin' as [Hin'|Hin']; [|by eapply Hdis].
    by apply (Hnew id), normal_sub, Hsub.
  - intros t Ht Hf. apply Hnew. rewrite next_ids_app. apply elem_of_app.
    apply elem_of_app in Ht as [Ht|Ht].
    + left. destruct (proj1 (Forall_forall _ _) Hfp t Ht); [congruence|done].
    + right. rewrite <-Hnids. by apply list_elem_of_fmap_2.
  - intros t Ht Hf. destruct (from_prove_id _ _ _ _ _ _ Hfo HG Ht Hf) as [Htf Hid].
    apply (list_elem_of_fmap_2 at_task_id) in Htf. rewrite Hids, elem_of_app in Htf.
    destruct Htf as [Hn|]; [|auto]. exfalso. eapply Hnew; [|done].
    rewrite next_ids_app. by apply elem_of_app; left.
Qed.

(** The id of an aggregation task is new, or that of the odd prove task. *)
Lemma shape_ids P leaves order first new w n m id :
  UuidFresh → first_ok P leaves order first → grows first new →
  Forall (λ t, at_from_prove t = true ∨ at_task_id t ∈ next_ids w n) first →
  at_ids new = next_ids (bump n w) m →
  id ∈ at_ids (first ++ new) → id ∈ pt_ids P ∨ ¬ drawn w id.
Proof.
  intros Hfr Hfo HG Hfp Hnids (t&->&Ht)%list_elem_of_fmap.
  destruct (at_from_prove t) eqn:Hf.
  - left. by apply (from_prove_id _ _ _ _ _ _ Hfo HG Ht Hf).
  - right. intros Hd. apply (next_ids_fresh w (n + m) (at_task_id t) Hd).
    rewrite next_ids_app, <-Hnids. apply elem_of_app.
    apply elem_of_app in Ht as [Ht|Ht]; [left|right; by apply list_elem_of_fmap_2].
    destruct (proj1 (Forall_forall _ _) Hfp t Ht); [congruence|done].
Qed.

(** What generating the graph gives: a graph over the prove tasks, its tasks in their
    first state, with new ids but for the odd prove task. *)
Definition fresh_run (s : Stage) (w : World) (s' : Stage) (w' : World) : Prop :=
  ∃ T, s' = s <| stage_agg_tasks := mark_last_final T |> ∧
    graph_inv (not_started <$> stage_prove_tasks s) T ∧
    Forall (λ t, initial_state (at_state t)) T ∧ (w_uuids w ≤ w_uuids w')%nat ∧
    ∀ id, id ∈ at_ids T → id ∈ pt_ids (stage_prove_tasks s) ∨ ¬ drawn w id.

Lemma gen_agg_prover_run s w s' w' :
  UuidFresh → complete feature_prover s w → gen_agg_tasks_prover s w = Ret (s', w') →
  fresh_run s w s' w'.
Proof.
  intros Hfr Hco. pose proof (co_agg _ _ _ Hco) as HT0. pose proof (co_nodup _ _ _ Hco) as Hnd.
  destruct (decide (stage_prove_tasks s = [])) as [HP|HP].
  { unfold gen_agg_tasks_prover. by rewrite HP. }
  destruct (gen_agg_tasks_prover_shape s w HP)
    as (first&new&->&Hfo&HG&Hids&Hnids&_&_&Hfp). intros [= <- <-].
  rewrite HT0, app_nil_l. exists (first ++ new).
  split_and!; [done| |by eapply fresh_states|rewrite w_uuids_bump; lia|
               intros id; by eapply shape_ids].
  assert (normal_tasks (stage_prove_tasks s) = stage_prove_tasks s) as Hn.
  { apply filter_all. intros p Hp. pose proof (co_normal _ _ _ Hco eq_refl) as Hn.
    by eapply Forall_forall in Hn. }
  pose proof (paired_app_carried (stage_prove_tasks s)) as Hpc.
  assert (paired (stage_prove_tasks s) ⊆ stage_prove_tasks s ∧
          carried (stage_prove_tasks s) ⊆ stage_prove_tasks s) as [Hps Hcs].
  { rewrite <-Hpc at 2 4. split; intros x ?; apply elem_of_app; auto. }
  assert (NoDup (pt_ids (paired (stage_prove_tasks s)) ++
                 pt_ids (carried (stage_prove_tasks s)))) as Hnd'.
  { by rewrite <-fmap_app, Hpc. }
  eapply graph_of_shape; try done.
  - rewrite Hn. intros x (p&->&Hp)%list_elem_of_fmap. apply list_elem_of_fmap_2. auto.
  - by apply NoDup_app in Hnd' as [? _].
  - eexists. split_and!; [done..|]. rewrite Hn.
    intros x (p&->&Hp)%list_elem_of_fmap. apply list_elem_of_fmap_2. auto.
Qed.

Lemma gen_agg_prover_v2_run s w s' w' :
  UuidFresh → complete feature_prover_v2 s w → gen_agg_tasks_prover_v2 s w = Ret (s', w') →
  fresh_run s w s' w'.
Proof.
  intros Hfr Hco H. destruct (gen_agg_v2_vk _ _ _ _ H) as [vk Hvk].
  pose proof (co_agg _ _ _ Hco) as HT0. pose proof (co_nodup _ _ _ Hco) as Hnd.
  destruct (decide (stage_prove_tasks s = [])) as [HP|HP].
  { unfold gen_agg_tasks_prover_v2 in H. rewrite HP, (M_bind_run _ _ _ _ _ Hvk) in H.
    apply M_bind_Ret in H as (vk'&w1&[_ <-]%lift_Ret&H). injection H as <- <-. exists []. rewrite HT0.
    split_and!; [done|apply graph_inv_no_agg; rewrite HP; constructor|done..|]. by intros id ?%elem_of_nil. }
  destruct (gen_agg_tasks_prover_v2_shape s w vk Hvk HP)
    as (first&new&Hrun&Hfo&HG&Hids&Hnids&_). rewrite Hrun in H. injection H as <- <-.
  rewrite HT0, app_nil_l. exists (first ++ new).
  assert (Forall (λ t, at_from_prove t = true ∨
    at_task_id t ∈ next_ids w (length first)) first) as Hfp.
  { apply Forall_forall. intros t Ht. right. rewrite <-Hids. by apply list_elem_of_fmap_2. }
  split_and!; [done| |by eapply fresh_states|rewrite w_uuids_bump; lia|
               intros id; by eapply shape_ids].
  assert (NoDup (pt_ids (normal_tasks (stage_prove_tasks s)))) as Hnd'.
  { eapply sublist_NoDup; [exact Hnd|]. apply fmap_sublist, sublist_filter. }
  eapply graph_of_shape; try done.
  exists []. rewrite !app_nil_r. split_and!; [done..|]. set_solver.
Qed.

Lemma gen_agg_tasks_run feature s w s' w' :
  UuidFresh → complete feature s w → gen_agg_tasks feature s w = Ret (s', w') →
  fresh_run s w s' w'.
Proof.
  intros Hfr. destruct feature; [by apply gen_agg_prover_run|by apply gen_agg_prover_v2_run].
Qed.

(** ** The operations preserve the invariant *)

Lemma foldl_clear s ids :
  foldl (λ s id, clear_agg_child_task id s) s ids =
  s <| stage_agg_tasks :=
         foldl (λ T id, clear_child_in id T) (stage_agg_tasks s) ids |>.
Proof.
  revert s. induction ids as [|id ids IH]; intros s; simpl; [by destruct s|]. by rewrite IH.
Qed.

Lemma foldl_clear_nil ids : foldl (λ T id, clear_child_in id T) [] ids = [].
Proof. by induction ids. Qed.

(** Clearing changes no state. *)
Lemma clear_child_in_states (Q : Z → Prop) id T :
  Forall (λ t, Q (at_state t)) T → Forall (λ t, Q (at_state t)) (clear_child_in id T).
Proof.
  assert (∀ t, at_state (clear_child_task id t).2 = at_state t) as Hs.
  { intros t. unfold clear_child_task. case_match; [|done]. by destruct (clear_child _ _). }
  induction 1 as [|t T Ht HT IH]; [constructor|]. cbn [clear_child_in].
  rewrite <-(Hs t) in Ht. destruct (clear_child_task id t) as [[] t']; by constructor.
Qed.
Lemma foldl_clear_states (Q : Z → Prop) ids T :
  Forall (λ t, Q (at_state t)) T →
  Forall (λ t, Q (at_state t)) (foldl (λ T id, clear_child_in id T) T ids).
Proof.
  revert T. induction ids as [|id ids IH]; intros T HT; [done|].
  apply IH. by apply clear_child_in_states.
Qed.

Lemma mark_last_final_states (Q : Z → Prop) T :
  Forall (λ t, Q (at_state t)) T → Forall (λ t, Q (at_state t)) (mark_last_final T).
Proof.
  destruct T as [|t T _] using rev_ind; [done|]. rewrite mark_last_final_snoc.
  intros [HT [Ht _]%Forall_cons]%Forall_app. apply Forall_app. split; [done|by constructor].
Qed.

Lemma on_split_done_inv feature s w s' w' :
  UuidFresh → growing s w → on_split_done feature s w = Ret (s', w') →
  stage_inv s' w' ∧ stage_is_tasks_gen_done s' = true ∧ (w_uuids w ≤ w_uuids w')%nat.
Proof.
  intros Hfr Hg. unfold on_split_done.
  intros (s1&w1&H1&H)%M_bind_Ret.
  destruct (gen_prove_task_post_run _ _ _ _ _ Hfr Hg H1) as [Hco Hw].
  apply M_bind_Ret in H as (s2&w2&H2&[<- <-]%M_mret_Ret). rewrite foldl_clear.
  fold (success_ids (stage_prove_tasks (s2 <| stage_is_tasks_gen_done := true |>))). simpl.
  pose proof Hco as [].
  destruct (gt_composite_proof _); simpl in H2.
  - apply M_mret_Ret in H2 as [<- <-]. rewrite co_agg0, foldl_clear_nil.
    split_and!; [|done|lia]. split; simpl; try done. by apply graph_inv_no_agg.
  - destruct (gen_agg_tasks_run _ _ _ _ _ Hfr Hco H2) as (T&->&HG&HS&Hw2&Hti). simpl.
    split_and!; [|done|lia]. split; simpl; try done.
    + by apply graph_inv_generated.
    + eapply Forall_impl; [done|]. intros id. by apply drawn_mono.
    + apply foldl_clear_states, mark_last_final_states.
      eapply Forall_impl; [done|]. intros t. apply initial_valid.
Qed.

Lemma create_or_panic_uuids p data w u w' :
  create_or_panic p data w = Ret (u, w') → w_uuids w' = w_uuids w.
Proof.
  unfold create_or_panic, create_m, put_fs. intros. m_inv; done.
Qed.

Lemma gen_snark_task_frame s w s' w' :
  gen_snark_task s w = Ret (s', w') →
  ∃ t, s' = s <| stage_snark_task := t |> ∧ (w_uuids w ≤ w_uuids w')%nat.
Proof.
  unfold gen_snark_task, new_uuid. intros (u&w1&[_ <-]%lift_Ret&H)%M_bind_Ret.
  apply M_bind_Ret in H as (id&w2&[= <- <-]&H).
  destruct (gt_from_step _); try done.
  - apply M_mret_Ret in H as [<- <-]. eexists. split; [done|]. simpl. lia.
  - apply M_bind_Ret in H as (d&w3&->%read_m_same&H).
    apply M_bind_Ret in H as (d'&w3&[_ <-]%lift_Ret&H).
    apply M_bind_Ret in H as (r&w3&[_ <-]%lift_Ret&H).
    apply M_bind_Ret in H as (r'&w3&[_ <-]%lift_Ret&[<- <-]%M_mret_Ret).
    eexists. split; [done|]. simpl. lia.
Qed.

Lemma finish_prove_frame s w s' w' :
  finish_prove s w = Ret (s', w') →
  (∃ st, s' = s <| stage_step := st |> ∨
     ∃ t, s' = s <| stage_snark_task := t |> <| stage_step := st |>) ∧
  (w_uuids w ≤ w_uuids w')%nat.
Proof.
  assert (∃ st, s = s <| stage_step := st |> ∨
     ∃ t, s = s <| stage_snark_task := t |> <| stage_step := st |>).
  { exists (stage_step s). left. by destruct s. }
  unfold finish_prove. destruct (_ && _); [|by intros [<- <-]%M_mret_Ret].
  destruct (gt_composite_proof _).
  { intros [<- <-]%M_mret_Ret. split; [|done]. eexists. by left. }
  destruct (all_agg_success s); [|by intros [<- <-]%M_mret_Ret].
  case_decide.
  { intros [<- <-]%M_mret_Ret. split; [|done]. eexists. by left. }
  intros (s1&w1&(t&->&?)%gen_snark_task_frame&[<- <-]%M_mret_Ret)%M_bind_Ret.
  split; [|done]. eexists. right. by eexists.
Qed.

Lemma finish_prove_inv s w s' w' :
  stage_inv s w → finish_prove s w = Ret (s', w') → stage_inv s' w'.
Proof.
  intros Hi [(st&[->|(t&->)])?]%finish_prove_frame; by eapply stage_inv_ext.
Qed.

Lemma dispatch_prove_inv feature s w s' w' :
  UuidFresh → stage_inv s w → dispatch_prove feature s w = Ret (s', w') → stage_inv s' w'.
Proof.
  intros Hfr Hi. unfold dispatch_prove. intros (s1&w1&H1&H)%M_bind_Ret.
  destruct (stage_is_tasks_gen_done s) eqn:Hgd.
  - unfold gen_prove_task in H1. rewrite Hgd, orb_true_r in H1.
    apply M_mret_Ret in H1 as [<- <-]. rewrite Hgd, andb_false_r in H.
    by eapply finish_prove_inv.
  - assert (growing s w) as Hg.
    { split_and!; [done| |done]. by apply (si_start _ _ Hi). }
    apply growing_gen_prove_task in H1; [|done..]. destruct H1 as (Hgd1&HT1&Hi1).
    destruct (_ && _); [|by eapply finish_prove_inv].
    case_decide.
    + apply M_mret_Ret in H as [<- <-]. by eapply stage_inv_ext.
    + apply M_bind_Ret in H as (s2&w2&H2&H).
      destruct (on_split_done_inv _ _ _ _ _ Hfr (conj Hgd1 (conj HT1 Hi1)) H2) as (?&_&_).
      by eapply finish_prove_inv.
Qed.

Lemma dispatch_inv feature s w s' w' :
  UuidFresh → stage_inv s w → dispatch feature s w = Ret (s', w') → stage_inv s' w'.
Proof.
  intros Hfr Hi. unfold dispatch. destruct (stage_step s).
  - intros (s1&w1&H1&[<- <-]%M_mret_Ret)%M_bind_Ret. unfold gen_split_task, new_uuid in H1.
    apply M_bind_Ret in H1 as (u&w2&[_ <-]%lift_Ret&H1).
    apply M_bind_Ret in H1 as (id&w2&[= <- <-]&[<- <-]%M_mret_Ret).
    eapply stage_inv_ext; [done..|]. simpl. lia.
  - by intros [<- <-]%M_mret_Ret.
  - by apply dispatch_prove_inv.
  - intros (u&w1&[_ <-]%lift_Ret&H)%M_bind_Ret.
    apply M_bind_Ret in H as (s1&w1&(t&->&?)%gen_snark_task_frame&[<- <-]%M_mret_Ret).
    by eapply stage_inv_ext.
  - intros [<- <-]%M_mret_Ret. case_match; [by eapply stage_inv_ext|done].
  - by intros [<- <-]%M_mret_Ret.
Qed.

(** ** What dispatch does to the lists

    Prove tasks are dropped or new; aggregation tasks appear once, with new ids or the
    id of a prove task. *)

(** A prove task as it is generated. *)
Definition fresh_task (p : ProveTask) : Prop :=
  pt_state p = TASK_STATE_UNPROCESSED ∨
  pt_state p = TASK_STATE_SUCCESS ∧ pt_is_deferred p = true.

Lemma fresh_task_initial p : fresh_task p → initial_state (pt_state p).
Proof. intros [|[]]; [by left|by right]. Qed.

Definition only_new (w : World) (P P' : list ProveTask) : Prop :=
  ∀ p, p ∈ P' → p ∈ P ∨ ¬ drawn w (pt_task_id p) ∧ fresh_task p.

Lemma only_new_refl w P : only_new w P P.
Proof. intros p ?. by left. Qed.

Lemma only_new_trans w w1 P P1 P2 :
  (w_uuids w ≤ w_uuids w1)%nat → only_new w P P1 → only_new w1 P1 P2 → only_new w P P2.
Proof.
  intros Hw H1 H2 p [Hp|[Hp Hs]]%H2; [by apply H1|]. right. split; [|done].
  intros Hd. by eapply Hp, drawn_mono.
Qed.

Lemma next_ids_new w n id : UuidFresh → id ∈ next_ids w n → ¬ drawn w id.
Proof. intros Hfr Hid Hd. by eapply next_ids_fresh. Qed.

Lemma only_new_app w P ts :
  UuidFresh → pt_ids ts = next_ids w (length ts) →
  Forall fresh_task ts → only_new w P (P ++ ts).
Proof.
  intros Hfr Hids Hs p [Hp|Hp]%elem_of_app; [by left|right].
  split; [|by eapply Forall_forall in Hs].
  eapply next_ids_new; [done|]. rewrite <-Hids. by apply list_elem_of_fmap_2.
Qed.

Lemma only_new_segments w P g nos ts :
  UuidFresh → pt_ids ts = next_ids w (length ts) → Forall2 (segment_task g) nos ts →
  only_new w P (P ++ ts).
Proof.
  intros Hfr Hids HF. apply only_new_app; [done..|].
  eapply segment_tasks_Forall; [|done]. intros ? p []. by left.
Qed.

Lemma gen_prove_task_lists s w s' w' :
  UuidFresh → gen_prove_task s w = Ret (s', w') →
  (w_uuids w ≤ w_uuids w')%nat ∧ only_new w (stage_prove_tasks s) (stage_prove_tasks s') ∧
  s' = s <| stage_prove_tasks := stage_prove_tasks s' |>.
Proof.
  intros Hfr. unfold gen_prove_task.
  assert (s = s <| stage_prove_tasks := stage_prove_tasks s |>) as Hs by by destruct s.
  destruct (_ || _).
  { intros [<- <-]%M_mret_Ret. split_and!; [done|apply only_new_refl|done]. }
  intros (s1&w1&H1&H2)%M_bind_Ret.
  assert ((w_uuids w ≤ w_uuids w1)%nat ∧
    only_new w (stage_prove_tasks s) (stage_prove_tasks s1) ∧
    s1 = s <| stage_prove_tasks := stage_prove_tasks s1 |>) as (Hw1&Hn1&Hs1).
  { destruct (stage_prove_tasks s) as [|p P] eqn:HP.
    - apply M_bind_Ret in H1 as (ts&w2&(->&Hids&HF)%tasks_with_nos_run&[<- <-]%M_mret_Ret).
      split_and!; [rewrite w_uuids_bump; lia| |done].
      by eapply (only_new_segments w []).
    - apply M_mret_Ret in H1 as [<- <-]. rewrite HP. split_and!; [done|apply only_new_refl|done]. }
  apply M_bind_Ret in H2 as (n&w2&Hn&H2).
  assert (w2 = w1) as ->.
  { unfold read_segments_txt in Hn. apply M_bind_Ret in Hn as (c&w3&Hc&[_ <-]%M_mret_Ret).
    by eapply read_m_same. }
  destruct n as [n|]; [|by apply M_mret_Ret in H2 as [<- <-]].
  apply M_bind_Ret in H2 as (ts&w3&(->&Hids&HF)%tasks_with_nos_run&[<- <-]%M_mret_Ret).
  split_and!; [rewrite w_uuids_bump; lia| |by rewrite Hs1].
  eapply only_new_trans; [done..|]. by eapply only_new_segments.
Qed.

Lemma gen_prove_task_post_lists feature s w s' w' :
  UuidFresh → gen_prove_task_post feature s w = Ret (s', w') →
  (w_uuids w ≤ w_uuids w')%nat ∧ only_new w (stage_prove_tasks s) (stage_prove_tasks s').
Proof.
  intros Hfr. unfold gen_prove_task_post. intros (s1&w1&H1&H2)%M_bind_Ret.
  assert ((w_uuids w ≤ w_uuids w1)%nat ∧
          only_new w (stage_prove_tasks s) (stage_prove_tasks s1)) as [Hw Hn].
  { unfold complete_prove_tasks in H1. destruct (_ <? _).
    - apply M_mret_Ret in H1 as [<- <-]. split; [done|]. intros p Hp. left.
      by eapply sublist_subseteq, Hp; apply sublist_take.
    - apply M_bind_Ret in H1 as (ts&w2&(->&Hids&HF)%tasks_with_nos_run&[<- <-]%M_mret_Ret).
      split; [rewrite w_uuids_bump; lia|]. by eapply only_new_segments. }
  destruct feature.
  - by destruct (_ <? 2); apply M_mret_Ret in H2 as [<- <-].
  - apply M_bind_Ret in H2 as (fs&w2&->%file_read_dir_same&H2).
    apply M_bind_Ret in H2 as (files&w2&[_ <-]%lift_Ret&H2).
    apply M_bind_Ret in H2 as (ts&w3&Hts&[<- <-]%M_mret_Ret).
    destruct (mapM_draw _ deferred_proof pt_task_id _ (deferred_task_run _) _ _ _ Hts)
      as (->&Hids&HF). rewrite (Forall2_length _ _ _ HF) in *.
    split; [rewrite w_uuids_bump; lia|].
    eapply only_new_trans; [done..|]. apply only_new_app; [done..|].
    clear -HF. induction HF as [|??? ? []]; constructor; [by right; split|done].
Qed.

Lemma clear_all_ids ids T :
  at_ids (foldl (λ T id, clear_child_in id T) T ids) = at_ids T.
Proof.
  revert T. induction ids as [|x ids IH]; intros T; [done|]. simpl. rewrite IH.
  clear. induction T as [|t T IHT]; [done|]. cbn [clear_child_in].
  assert (at_task_id (clear_child_task x t).2 = at_task_id t) as Ht.
  { unfold clear_child_task. case_match; [|done]. by destruct (clear_child _ _). }
  destruct (clear_child_task x t) as [[] t']; csimpl in *; by rewrite Ht, ?IHT.
Qed.

(** The relation between the lists before and after [dispatch]. *)
Record lists_after (s : Stage) (w : World) (s' : Stage) (w' : World) : Prop := {
  ls_uuids : (w_uuids w ≤ w_uuids w')%nat;
  ls_done : stage_is_tasks_gen_done s = true →
    stage_prove_tasks s' = stage_prove_tasks s ∧ stage_agg_tasks s' = stage_agg_tasks s ∧
    stage_is_tasks_gen_done s' = true;
  ls_new : only_new w (stage_prove_tasks s) (stage_prove_tasks s');
  ls_agg : stage_agg_tasks s' = stage_agg_tasks s ∨
    stage_agg_tasks s = [] ∧
    Forall (λ t, initial_state (at_state t)) (stage_agg_tasks s') ∧
    ∀ id, id ∈ at_ids (stage_agg_tasks s') →
      id ∈ pt_ids (stage_prove_tasks s') ∨ ¬ drawn w id
}.

Lemma lists_after_same s w s' w' :
  (w_uuids w ≤ w_uuids w')%nat → stage_prove_tasks s' = stage_prove_tasks s →
  stage_agg_tasks s' = stage_agg_tasks s →
  stage_is_tasks_gen_done s' = stage_is_tasks_gen_done s → lists_after s w s' w'.
Proof.
  intros Hw EP ET EG. split; rewrite ?EP, ?ET, ?EG; auto. apply only_new_refl.
Qed.

Lemma on_split_done_lists feature s w s' w' :
  UuidFresh → growing s w → on_split_done feature s w = Ret (s', w') →
  lists_after s w s' w'.
Proof.
  intros Hfr Hg H0. pose proof Hg as (Hgd&HT&_).
  destruct (on_split_done_inv _ _ _ _ _ Hfr Hg H0) as (_&Hgd'&Hw'). revert H0.
  unfold on_split_done. intros (s1&w1&H1&H)%M_bind_Ret.
  destruct (gen_prove_task_post_run _ _ _ _ _ Hfr Hg H1) as [Hco _].
  destruct (gen_prove_task_post_lists _ _ _ _ _ Hfr H1) as [Hw Hn].
  apply M_bind_Ret in H as (s2&w2&H2&[<- <-]%M_mret_Ret). rewrite foldl_clear.
  pose proof (co_agg _ _ _ Hco) as HT1.
  destruct (gt_composite_proof _); simpl in H2.
  - apply M_mret_Ret in H2 as [<- <-]. split; simpl; try done; [by rewrite Hgd|].
    left. by rewrite HT1, foldl_clear_nil, HT.
  - destruct (gen_agg_tasks_run _ _ _ _ _ Hfr Hco H2) as (T&->&_&HS&Hw2&Hti).
    split; simpl; try done; [by rewrite Hgd|]. right. split_and!; [done| |].
    + by apply foldl_clear_states, mark_last_final_states.
    + intros id. rewrite clear_all_ids, (proj1 (mark_last_final_ids T)).
      intros [|Hd]%Hti; [by left|]. right. intros ?. by eapply Hd, drawn_mono.
Qed.

Lemma dispatch_lists feature s w s' w' :
  UuidFresh → stage_inv s w → dispatch feature s w = Ret (s', w') → lists_after s w s' w'.
Proof.
  intros Hfr Hi. unfold dispatch. destruct (stage_step s).
  - intros (s1&w1&H1&[<- <-]%M_mret_Ret)%M_bind_Ret. unfold gen_split_task, new_uuid in H1.
    apply M_bind_Ret in H1 as (u&w2&[_ <-]%lift_Ret&H1).
    apply M_bind_Ret in H1 as (id&w2&[= <- <-]&[<- <-]%M_mret_Ret).
    apply lists_after_same; simpl; [lia|done..].
  - intros [<- <-]%M_mret_Ret. by apply lists_after_same.
  - unfold dispatch_prove. intros (s1&w1&H1&H)%M_bind_Ret.
    assert (∀ s2 w2, lists_after s w s2 w2 → finish_prove s2 w2 = Ret (s', w') →
      lists_after s w s' w') as Hfin.
    { intros s2 w2 [] Hf. apply finish_prove_frame in Hf as [(st&[->|(t&->)]) ?];
        split; simpl; try done; lia. }
    destruct (stage_is_tasks_gen_done s) eqn:Hgd.
    + unfold gen_prove_task in H1. rewrite Hgd, orb_true_r in H1.
      apply M_mret_Ret in H1 as [<- <-]. rewrite Hgd, andb_false_r in H.
      eapply Hfin; [|done]. by apply lists_after_same.
    + destruct (gen_prove_task_lists _ _ _ _ Hfr H1) as (Hw1&Hn1&Hs1).
      assert (growing s1 w1) as Hg1.
      { eapply growing_gen_prove_task; [done| |done].
        split_and!; [done|by apply (si_start _ _ Hi)|done]. }
      assert (lists_after s w s1 w1) as HL1.
      { split; [done|by rewrite Hgd|done|]. left. by rewrite Hs1. }
      destruct (_ && _); [|by eapply Hfin].
      case_decide.
      * apply M_mret_Ret in H as [<- <-]. destruct HL1. by split.
      * apply M_bind_Ret in H as (s2&w2&H2&H). eapply Hfin; [|done].
        destruct (on_split_done_lists _ _ _ _ _ Hfr Hg1 H2) as [Hw2 _ Hn2 Ha2].
        split; [lia|by rewrite Hgd| |].
        -- by eapply only_new_trans.
        -- destruct Ha2 as [Ha|(_&HS&Hti)]; [left; by rewrite Ha, Hs1|right].
           split_and!; [by apply (si_start _ _ Hi)|done|].
           intros id [|Hd]%Hti; [by left|right]. intros ?. by eapply Hd, drawn_mono.
  - intros (u&w1&[_ <-]%lift_Ret&H)%M_bind_Ret.
    apply M_bind_Ret in H as (s1&w1&(t&->&?)%gen_snark_task_frame&[<- <-]%M_mret_Ret).
    by apply lists_after_same.
  - intros [<- <-]%M_mret_Ret. case_match; by apply lists_after_same.
  - intros [<- <-]%M_mret_Ret. by apply lists_after_same.
Qed.

End gen.
