(* ===== verification/StageOps.v ===== *)
(** * StageOps: getters and replies preserve the invariant, and what it gives

    Every getter and every reply of the prover client keeps [stage_inv]; from the
    invariant follow the two facts aggregation rests on: a dispatched aggregation
    task carries the outputs of finished producers, and a graph that is not finished
    always has a task to dispatch or to wait for. *)

From S2P Require Import Prelude Text Proto World Tasks Stage AggGraph StageInv StageGen.

Section ops.
Context `{E : !External}.

Lemma stage_inv_lists s s' w :
  stage_inv s w →
  graph_inv (stage_prove_tasks s') (stage_agg_tasks s') →
  pt_ids (stage_prove_tasks s') = pt_ids (stage_prove_tasks s) →
  (stage_agg_tasks s = [] → stage_agg_tasks s' = []) →
  stage_is_tasks_gen_done s' = stage_is_tasks_gen_done s →
  Forall2 (λ p p', pt_is_deferred p' = pt_is_deferred p ∧
    (pt_state p = TASK_STATE_SUCCESS → pt_state p' = TASK_STATE_SUCCESS))
    (stage_prove_tasks s) (stage_prove_tasks s') →
  Forall (λ p, valid_state (pt_state p)) (stage_prove_tasks s') →
  Forall (λ t, valid_state (at_state t)) (stage_agg_tasks s') →
  stage_inv s' w.
Proof.
  intros Hi HG Hids HT Hgd HF Hp Ha. split; try done.
  - rewrite Hids. apply Hi.
  - rewrite Hgd. intros [HT0 Hn]%(si_start _ _ Hi). split; [auto|].
    clear -HF Hn. induction HF as [|p p' P P' [Hd _] _ IH]; [constructor|].
    apply Forall_cons in Hn as [? ?]. constructor; [by rewrite Hd|auto].
  - intros p' Hp' Hd. destruct (Forall2_elem_r _ _ _ _ HF Hp') as (p&Hp0&Hd0&Hs).
    apply Hs, (si_deferred _ _ Hi); [done|]. by rewrite <-Hd0.
Qed.

Lemma get_prove_task_inv fs now s w :
  stage_inv s w → stage_inv (get_prove_task fs now s).2 w.
Proof.
  intros Hi. unfold get_prove_task. rewrite pick_prove_update.
  eapply stage_inv_lists; [done|..]; simpl; try done.
  - pose proof (graph_inv_pick_prove fs now _ _ (si_graph _ _ Hi)) as HG.
    by rewrite pick_prove_update in HG.
  - by apply fmap_update_first.
  - apply update_first_Forall2; [done|].
    intros p _ [Hr%is_ready_not_success _]%andb_true_iff. split; [done|]. intros Hs. done.
  - apply update_first_Forall; [|apply Hi]. intros. right. by left.
  - apply Hi.
Qed.

Lemma get_agg_task_inv now s w r s' :
  stage_inv s w → get_agg_task now s = Ret (r, s') → stage_inv s' w.
Proof.
  intros Hi. unfold get_agg_task. rewrite pick_agg_update. intros Hr.
  assert (s' = s <| stage_agg_tasks := update_first
    (λ t, negb (has_child t) && is_ready_state (at_state t)) (dispatched_agg now)
    (stage_agg_tasks s) |>) as ->.
  { destruct (find_first _ _); simpl in Hr; [|by injection Hr].
    apply bind_Ret in Hr as (ins&_&Hr). by injection Hr. }
  eapply stage_inv_lists; [done|..]; simpl; try done.
  - pose proof (graph_inv_pick_agg now _ _ (si_graph _ _ Hi)) as HG.
    by rewrite pick_agg_update in HG.
  - by intros ->.
  - by apply Forall2_refl_l.
  - apply Hi.
  - apply update_first_Forall; [|apply Hi]. intros. right. by left.
Qed.

Lemma is_reply_valid st : is_reply_state st = true → valid_state st.
Proof.
  unfold is_reply_state, valid_state.
  intros [[?%Z.eqb_eq|?%Z.eqb_eq]%orb_true_iff|?%Z.eqb_eq]%orb_true_iff; auto.
Qed.

Lemma reply_prove_states now r err P :
  Forall (λ p, valid_state (pt_state p)) P →
  Forall (λ p, valid_state (pt_state p)) (reply_prove now r err P) ∧
  Forall2 (λ p p', pt_is_deferred p' = pt_is_deferred p ∧
    (pt_state p = TASK_STATE_SUCCESS → pt_state p' = TASK_STATE_SUCCESS))
    P (reply_prove now r err P).
Proof.
  intros HP. unfold reply_prove. destruct (find_first _ _) as [p|] eqn:Hf.
  2: { split; [done|by apply Forall2_refl_l]. }
  pose proof (on_prove_task_macro_spec now r p err) as Hm.
  assert (pt_is_deferred (on_prove_task_macro now r p err).1.2 = pt_is_deferred p) as Hd.
  { unfold on_prove_task_macro. by repeat case_match; simplify_eq/=. }
  destruct (on_prove_task_macro _ _ _ _) as [[src p'] e]. destruct Hm as (_&_&_&Hs).
  apply find_first_Some in Hf as Ha. destruct Ha as [Hin [_ Hst]%awaits_prove_true].
  simpl in *. split.
  - apply update_first_Forall; [|done]. intros _ _ _ _. rewrite Hs.
    destruct (is_reply_state _) eqn:Hr; [by apply is_reply_valid|].
    by eapply Forall_forall in HP.
  - eapply update_first_later; [done..|]. split; [done|]. by rewrite Hst.
Qed.

Lemma on_prove_task_inv now r s w :
  stage_inv s w → prove_reply_ok (stage_prove_tasks s) (stage_agg_tasks s) r →
  stage_inv (on_prove_task now r s).2 w.
Proof.
  intros Hi Hok. destruct (on_prove_task_lists now r s) as [HP HT].
  destruct (reply_prove_states now r (stage_is_error s) _ (si_pt_states _ _ Hi)) as [Hs HF].
  destruct (reply_prove_later now r (stage_is_error s) (stage_prove_tasks s)) as [HL _].
  eapply stage_inv_lists; [done|..]; rewrite ?HP, ?HT; try done.
  - by apply graph_inv_reply_prove; [apply Hi|].
  - by apply pt_later_ids.
  - intros ->. by destruct (_ =? _).
  - unfold on_prove_task. destruct (find_first _ _); simpl; [|by destruct (_ =? _)].
    destruct (on_prove_task_macro _ _ _ _) as [[]]. simpl.
    by case_match.
  - destruct (_ =? _); [|apply Hi]. apply clear_child_in_states, Hi.
Qed.

Lemma on_agg_task_run now r s w src s' w' :
  on_agg_task now r s w = Ret ((src, s'), w') →
  stage_prove_tasks s' = stage_prove_tasks s ∧
  stage_agg_tasks s' = clear_if (at_state r =? TASK_STATE_SUCCESS) (at_task_id r)
                         (reply_agg now r (stage_is_error s) (stage_agg_tasks s)) ∧
  stage_is_tasks_gen_done s' = stage_is_tasks_gen_done s ∧ stage_step s' = stage_step s ∧
  stage_generate_task s' = stage_generate_task s ∧
  stage_snark_task s' = stage_snark_task s ∧ w_uuids w' = w_uuids w.
Proof.
  unfold on_agg_task, reply_agg, clear_if.
  assert (∀ (src0 : AggTask) (s0 : Stage) (b : bool),
    at_state src0 = at_state r → at_task_id src0 = at_task_id r →
    (if at_state src0 =? TASK_STATE_SUCCESS then
       let s := clear_agg_child_task (at_task_id src0) s0 in
       (if at_is_final src0 && bool_decide (gt_target_step (stage_generate_task s) = Agg)
        then create_or_panic (gt_snark_path (stage_generate_task s)) (at_output src0)
        else mret tt);; mret (src0, s)
     else mret (src0, s0)) w = Ret (src, s', w') →
    s' = (if at_state r =? TASK_STATE_SUCCESS
          then clear_agg_child_task (at_task_id r) s0 else s0) ∧ w_uuids w' = w_uuids w)
    as Htail.
  { intros src0 s0 _ -> ->. destruct (_ =? _); [|by intros [[= <- <-] <-]%M_mret_Ret].
    intros (u&w1&Hc&[[= <- <-] <-]%M_mret_Ret)%M_bind_Ret. split; [done|].
    destruct (_ && _); [by eapply create_or_panic_uuids|by apply M_mret_Ret in Hc as [_ <-]]. }
  destruct (find_first _ _) as [t|].
  - pose proof (on_task_agg_spec now r t (stage_is_error s)) as Hm.
    destruct (on_task _ _ _ _) as [[src0 t'] e]. destruct Hm as (Hi&Hs&_).
    intros H. apply (Htail _ _ true) in H as [-> ->]; [|done..]. by destruct (_ =? _).
  - intros H. apply (Htail _ _ true) in H as [-> ->]; [|done..]. by destruct (_ =? _).
Qed.

Lemma reply_agg_states now r err T :
  Forall (λ t, valid_state (at_state t)) T →
  Forall (λ t, valid_state (at_state t)) (reply_agg now r err T).
Proof.
  intros HP. unfold reply_agg. destruct (find_first _ _) as [p|] eqn:Hf; [|done].
  pose proof (on_task_agg_spec now r p err) as Hm.
  destruct (on_task _ _ _ _) as [[src p'] e]. destruct Hm as (_&_&_&_&_&_&_&Hs).
  apply find_first_Some in Hf as [Hin _].
  apply update_first_Forall; [|done]. intros _ _ _ _. simpl. rewrite Hs.
  destruct (is_reply_state _) eqn:Hr; [by apply is_reply_valid|].
  by eapply Forall_forall in HP.
Qed.

Lemma on_agg_task_inv now r s w src s' w' :
  stage_inv s w → agg_reply_ok (stage_agg_tasks s) r →
  on_agg_task now r s w = Ret ((src, s'), w') → stage_inv s' w'.
Proof.
  intros Hi Hok (HP&HT&Hgd&_&_&_&Hw)%on_agg_task_run.
  assert (stage_inv s' w) as Hi'; [|eapply stage_inv_ext; [exact Hi'|done..|lia]].
  eapply stage_inv_lists; [done|..]; rewrite ?HP, ?HT; try done.
  - by apply graph_inv_reply_agg; [apply Hi|].
  - intros ->. by destruct (_ =? _).
  - by apply Forall2_refl_l.
  - apply Hi.
  - pose proof (reply_agg_states now r (stage_is_error s) _ (si_at_states _ _ Hi)).
    destruct (_ =? _); [|done]. by apply clear_child_in_states.
Qed.

(** ** Dispatching an aggregation task *)

(** The input carries the output of its producer, which has succeeded. *)
Definition supplied (P : list ProveTask) (T : list AggTask) (i : AggregateInput) : Prop :=
  if ai_is_agg i
  then ∃ u, u ∈ T ∧ at_task_id u = input_id i ∧ at_state u = TASK_STATE_SUCCESS ∧
            ai_receipt_input i = at_output u
  else ∃ p, p ∈ P ∧ pt_task_id p = input_id i ∧ pt_state p = TASK_STATE_SUCCESS ∧
            ai_receipt_input i = pt_output p.

Definition same_input (i i' : AggregateInput) : Prop :=
  input_id i' = input_id i ∧ ai_is_agg i' = ai_is_agg i.

Lemma find_first_unique {A} (key : A → string) l x :
  NoDup (key <$> l) → x ∈ l → find_first (λ y, String.eqb (key y) (key x)) l = Some x.
Proof.
  intros Hnd Hx. destruct (find_first _ l) as [y|] eqn:Hf.
  - apply find_first_Some in Hf as [Hy Hk%String.eqb_eq].
    f_equal. by eapply NoDup_fmap_inj_elem.
  - apply find_first_None in Hf. eapply Forall_forall in Hf; [|exact Hx].
    by rewrite String.eqb_refl in Hf.
Qed.

Lemma fill_input_done s i :
  NoDup (pt_ids (stage_prove_tasks s)) → NoDup (at_ids (stage_agg_tasks s)) →
  input_done (stage_prove_tasks s) (stage_agg_tasks s) i →
  ∃ i', fill_input s i = Ret i' ∧ same_input i i' ∧
        supplied (stage_prove_tasks s) (stage_agg_tasks s) i'.
Proof.
  intros HP HT Hd. unfold input_done, fill_input, supplied in *.
  destruct (ai_is_agg i) eqn:Ha; destruct Hd as (u&Hu&Hid&Hs); rewrite <-Hid;
    rewrite find_first_unique by done; simpl; eexists; (split; [done|]);
    (split; [done|]); simpl; rewrite Ha; by eexists.
Qed.

Lemma mapM_outcome {A B} (f : A → outcome B) (R : A → B → Prop) l :
  (∀ x, x ∈ l → ∃ y, f x = Ret y ∧ R x y) →
  ∃ k, mapM f l = Ret k ∧ Forall2 R l k.
Proof.
  induction l as [|x l IH]; intros Hf; [by exists []|].
  destruct (Hf x) as (y&Hy&?); [by left|].
  destruct IH as (k&Hk&?); [intros; apply Hf; by right|].
  exists (y :: k). split; [|by constructor]. simpl. by rewrite Hy, Hk.
Qed.

(** A task that waits for nothing has all its inputs done. *)
Lemma no_child_done P T t i :
  graph_inv P T → t ∈ T → child_ids t = [] → i ∈ at_inputs t → input_done P T i.
Proof.
  intros HG Ht Hc Hi. destruct (decide (input_done P T i)) as [|Hn]; [done|].
  apply (gi_waits _ _ HG t i Ht Hi) in Hn. rewrite Hc in Hn. by apply elem_of_nil in Hn.
Qed.

Lemma find_first_fmap_Some {A B} test (f : A → B) l y :
  f <$> find_first test l = Some y → ∃ x, x ∈ l ∧ test x = true ∧ y = f x.
Proof.
  destruct (find_first test l) as [x|] eqn:Hf; [|done]. intros [= <-].
  apply find_first_Some in Hf as [??]. by exists x.
Qed.

Lemma get_agg_task_supplied now s w :
  stage_inv s w →
  ∃ r s', get_agg_task now s = Ret (r, s') ∧
    match r with
    | Some t => ∃ t0, t0 ∈ stage_agg_tasks s ∧ is_ready_state (at_state t0) = true ∧
        child_ids t0 = [] ∧ at_task_id t = at_task_id t0 ∧
        at_state t = TASK_STATE_PROCESSING ∧
        Forall2 same_input (at_inputs t0) (at_inputs t) ∧
        Forall (supplied (stage_prove_tasks s) (stage_agg_tasks s')) (at_inputs t)
    | None => ∀ t, t ∈ stage_agg_tasks s →
        child_ids t = [] → is_ready_state (at_state t) = false
    end.
Proof.
  intros Hi. pose proof (si_graph _ _ Hi) as HG.
  pose proof (graph_inv_pick_agg now _ _ HG) as HG'.
  unfold get_agg_task. rewrite pick_agg_update in *. cbv zeta in *. simpl in HG'.
  set (test := λ t, negb (has_child t) && is_ready_state (at_state t)) in *.
  set (T' := update_first test (dispatched_agg now) (stage_agg_tasks s)) in *.
  destruct (find_first test (stage_agg_tasks s)) as [t0|] eqn:Hf; simpl.
  - apply find_first_Some in Hf as Ht. destruct Ht as [Ht0 Htest].
    destruct (find_first_split test (dispatched_agg now) _ _ Hf) as (l1&l2&HT&HT').
    apply andb_true_iff in Htest as [Hc%negb_true_iff%has_child_false Hr].
    destruct (mapM_outcome (fill_input (s <| stage_agg_tasks := T' |>))
      (λ i i', same_input i i' ∧ supplied (stage_prove_tasks s) T' i') (at_inputs t0))
      as (k&Hk&HF).
    { intros i Hin. destruct (fill_input_done (s <| stage_agg_tasks := T' |>) i)
        as (i'&?&?&?); [apply HG'|apply HG'| |by eexists].
      eapply (no_child_done _ _ (dispatched_agg now t0)); [done| |done|done].
      unfold T'. rewrite HT'. set_solver. }
    simpl in Hk. rewrite Hk. eexists _, _. split; [reflexivity|].
    exists t0. split_and!; try done.
    + eapply Forall2_impl; [done|]. by intros ?? [].
    + simpl. clear -HF. induction HF as [|???? [??] ??]; by constructor.
  - eexists _, _. split; [reflexivity|]. intros t Ht Hc.
    apply find_first_None in Hf. eapply Forall_forall in Hf; [|done].
    unfold test in Hf. rewrite (proj2 (has_child_false t) Hc) in Hf. done.
Qed.

(** ** Progress *)

Lemma list_first_not {A} (Q : A → Prop) `{!∀ x, Decision (Q x)} l :
  ¬ Forall Q l → ∃ k x, l !! k = Some x ∧ ¬ Q x ∧ Forall Q (take k l).
Proof.
  induction l as [|x l IH]; intros Hn; [by destruct Hn|].
  destruct (decide (Q x)) as [Hx|Hx]; [|by exists 0%nat, x].
  destruct IH as (k&y&?&?&?); [by intros ?; apply Hn; constructor|].
  exists (S k), y. split_and!; [done|done|by constructor].
Qed.

(** The first aggregation task that has not succeeded waits for nothing, once every
    prove task has succeeded. *)
Lemma first_unfinished_ready P T :
  graph_inv P T → Forall (λ p, pt_state p = TASK_STATE_SUCCESS) P →
  ¬ Forall (λ t, at_state t = TASK_STATE_SUCCESS) T →
  ∃ t, t ∈ T ∧ at_state t ≠ TASK_STATE_SUCCESS ∧ child_ids t = [].
Proof.
  intros HG HP Hn.
  destruct (list_first_not (λ t, at_state t = TASK_STATE_SUCCESS) T Hn)
    as (k&t&Hk&Hs&Hbefore).
  assert (t ∈ T) as Ht by by eapply list_elem_of_lookup_2.
  exists t. split_and!; [done|done|].
  destruct (child_ids t) as [|id l] eqn:Hc; [done|]. exfalso.
  assert (id ∈ child_ids t) as Hid by (rewrite Hc; by left).
  apply (gi_child _ _ HG t Ht) in Hid as Hid'.
  apply list_elem_of_fmap in Hid' as (i&->&Hi).
  apply (gi_waits _ _ HG t i Ht Hi) in Hid. apply Hid.
  pose proof (gi_inputs _ _ HG k t i Hk Hi) as Hin. unfold input_done.
  destruct (ai_is_agg i).
  - destruct Hin as [(u&->&Hu)%list_elem_of_fmap _].
    exists u. split_and!; [|done|by eapply Forall_forall in Hbefore].
    by eapply sublist_subseteq, Hu; apply sublist_take.
  - apply list_elem_of_fmap in Hin as (p&->&Hp).
    exists p. split_and!; [done..|by eapply Forall_forall in HP].
Qed.

Lemma valid_ready st :
  valid_state st → st ≠ TASK_STATE_SUCCESS → st ≠ TASK_STATE_PROCESSING →
  is_ready_state st = true.
Proof. by intros [->|[->|[->| ->]]]. Qed.

End ops.
