(* ===== verification/AggCover.v ===== *)
(** * AggCover: what the final aggregation task stands for

    [get_agg_task] fills every input of a task with the output of its producer, found
    by id.  Following these ids down from a task gives the prove tasks it stands for,
    left to right ([leaves_below]); the final task stands for all of them, in the
    order of the segments, whichever feature built the graph. *)

From S2P Require Import Prelude Text Proto World Tasks Stage AggGraph StageInv StageGen.
From S2P Require Import StageOps.

(** The prove tasks below an input, in order; a lookup by id as in [fill_input]. *)
Fixpoint leaves_below (fuel : nat) (T : list AggTask) (i : AggregateInput) :
    option (list string) :=
  if ai_is_agg i then
    match fuel with
    | O => None
    | S fuel =>
        t ← find_first (λ x, String.eqb (at_task_id x) (ai_computed_request_id i)) T;
        @concat string <$> mapM (leaves_below fuel T) (at_inputs t)
    end
  else Some [ai_computed_request_id i].

(** The order in which the first layer reads the prove tasks. *)
Definition reading_order (feature : Feature) (tasks : list ProveTask) : list ProveTask :=
  match feature with
  | feature_prover => tasks
  | feature_prover_v2 => normal_tasks tasks ++ deferred_tasks tasks
  end.

(** ** leaves_below *)

Lemma leaves_below_leaf fuel T i :
  ai_is_agg i = false → leaves_below fuel T i = Some [ai_computed_request_id i].
Proof. intros Hi. destruct fuel; simpl; by rewrite Hi. Qed.

(** The ids and inputs of the tasks are all that counts. *)
Definition same_node (t t' : AggTask) : Prop :=
  at_task_id t' = at_task_id t ∧ at_inputs t' = at_inputs t.

Lemma leaves_below_same T T' fuel i :
  Forall2 same_node T T' → leaves_below fuel T' i = leaves_below fuel T i.
Proof.
  intros HT. revert i. induction fuel as [|fuel IH]; intros i; simpl; [done|].
  destruct (ai_is_agg i); [|done].
  assert (at_inputs <$> find_first (λ x, at_task_id x =? ai_computed_request_id i)%string T' =
    at_inputs <$> find_first (λ x, at_task_id x =? ai_computed_request_id i)%string T) as Hf.
  { clear IH. induction HT as [|t t' T T' [Eid Ein] HT IHT]; [done|]. simpl. rewrite Eid.
    destruct (_ =? _)%string; [by simpl; rewrite Ein|exact IHT]. }
  destruct (find_first _ T'), (find_first _ T); simplify_eq/=; [|done].
  rewrite Hf. f_equal. apply mapM_ext. done.
Qed.

Lemma mark_last_final_same (T : list AggTask) : Forall2 same_node T (mark_last_final T).
Proof. eapply Forall2_impl; [apply mark_last_final_later|]. by intros ?? []. Qed.

Lemma mapM_Some_fmap {A B C} (f : B → option C) (g : A → B) (h : A → C) l :
  (∀ x, x ∈ l → f (g x) = Some (h x)) → mapM f (g <$> l) = Some (h <$> l).
Proof.
  intros Hf. by apply mapM_Some_2, Forall2_fmap_2, Forall_Forall2_diag, Forall_forall.
Qed.

Definition ids_of (l : list ProveTask) : list string := pt_ids l.
Lemma pt_ids_concat (ps : list (list ProveTask)) :
  pt_ids (concat ps) = @concat string (ids_of <$> ps).
Proof. induction ps as [|p ps IH]; csimpl; [done|]. by rewrite fmap_app, IH. Qed.

(** ** Reading the graph *)

Section reading.
Context (T : list AggTask) (Hnd : NoDup (at_ids T)).

(** [t] is a task of the graph that stands for [ls]. *)
Definition reads (t : AggTask) (ls : list string) : Prop :=
  ∃ k, T !! k = Some t ∧
    ∀ fuel, (k < fuel)%nat → leaves_below fuel T (to_agg_input t) = Some ls.

Lemma reads_node fuel t :
  t ∈ T → at_from_prove t = false →
  leaves_below (S fuel) T (to_agg_input t) =
    @concat string <$> mapM (leaves_below fuel T) (at_inputs t).
Proof.
  intros Ht Hf. simpl. rewrite Hf. simpl.
  by rewrite (find_first_unique at_task_id T t Hnd Ht).
Qed.

Lemma reads_first parts t k :
  first_reads parts t → T !! k = Some t → reads t (pt_ids parts).
Proof.
  intros Hp Ht. exists k. split; [done|]. intros fuel Hk.
  destruct Hp as [[Hf Hi]|(p&i&->&->)]; [|by apply leaves_below_leaf].
  destruct fuel as [|fuel]; [lia|].
  rewrite reads_node by (eauto using list_elem_of_lookup_2). rewrite Hi.
  rewrite (mapM_Some_fmap _ _ (λ p, [pt_task_id p]))
    by (intros; by rewrite leaves_below_leaf).
  simpl. f_equal. by rewrite (list_fmap_compose pt_task_id (λ x, [x])), concat_singletons.
Qed.

Lemma reads_aggregates parts t k lss :
  T !! k = Some t → parts ⊆ take k T → aggregates parts t → Forall2 reads parts lss →
  reads t (concat lss).
Proof.
  intros Ht Hsub Hag Hl. exists k. split; [done|]. intros fuel Hk.
  destruct fuel as [|fuel]; [lia|].
  rewrite reads_node by (try apply Hag; eauto using list_elem_of_lookup_2).
  rewrite (ag_inputs _ _ Hag).
  assert (mapM (leaves_below fuel T) (to_agg_input <$> parts) = Some lss) as ->; [|done].
  apply mapM_Some_2, Forall2_fmap_l, Forall2_same_length_lookup.
  split; [by eapply Forall2_length|]. intros j p ls Hp Hls.
  destruct (Forall2_lookup_lr _ _ _ _ _ _ Hl Hp Hls) as (k'&Hk'&Hr). apply Hr.
  apply list_elem_of_lookup_2, Hsub, elem_of_take in Hp as (j'&Hj'&?).
  assert (k' = j') as ->; [|lia]. eapply NoDup_lookup; [|done..].
  by eapply NoDup_fmap_1.
Qed.

(** The last task of the graph reads what the first layer reads. *)
Lemma graph_reads tasks leaves order first new :
  first_ok tasks leaves order first → grows first new → T = first ++ new →
  ∃ root, last T = Some root ∧ leaves_below (length T) T (to_agg_input root) =
    Some (pt_ids order).
Proof.
  intros [_ _ _ (ps&HF&<-)] HG HT.
  destruct (gr_root _ _ HG reads (ids_of <$> ps)) as (root&Hl&k&Hk&Hr).
  - intros k t parts lss Ht Hsub Hag. apply (reads_aggregates parts t (length first + k));
      rewrite ?HT; [|by rewrite take_app_add'|done..].
    by rewrite lookup_app_r, Nat.add_sub' by lia.
  - apply Forall2_fmap_r, Forall2_same_length_lookup.
    split; [by symmetry; eapply Forall2_length|]. intros k t parts Ht Hp.
    eapply reads_first; [by eapply Forall2_lookup_lr|]. rewrite HT.
    by apply lookup_app_l_Some.
  - exists root. rewrite <-HT in Hl. split; [done|].
    rewrite Hr by (by eapply lookup_lt_Some). by rewrite pt_ids_concat.
Qed.
End reading.

(** ** The final task *)

Section final.
Context `{E : !External} `{F : !UuidFresh}.

Lemma shape_NoDup w (P : list ProveTask) first new n m odd :
  NoDup (pt_ids P) → Forall (drawn w) (pt_ids P) →
  at_ids first = next_ids w n ++ odd → NoDup odd → odd ⊆ pt_ids P →
  at_ids new = next_ids (bump n w) m → NoDup (at_ids (first ++ new)).
Proof.
  intros Hnd Hd Hf Hodd Hsub Hn. rewrite fmap_app, Hf, Hn.
  assert (at_ids first ++ at_ids new ≡ₚ next_ids w (n + m) ++ odd) as Hp.
  { rewrite Hf, Hn, next_ids_app, <-!app_assoc. f_equiv. apply Permutation_app_comm. }
  rewrite Hf, Hn in Hp. rewrite Hp. apply NoDup_app. split_and!; [apply next_ids_NoDup| |done].
  intros id Hid Hin%Hsub. by eapply fresh_not_in.
Qed.

(** The final task and what it reads. *)
Record root_of (order : list string) (T : list AggTask) (root : AggTask) : Prop := {
  rt_final : at_is_final root = true;
  rt_last : ∃ T0, T = T0 ++ [root] ∧ Forall (λ t, at_is_final t = false) T0;
  rt_leaves : leaves_below (length T) T (to_agg_input root) = Some order
}.

Lemma covers_of_shape tasks leaves order first new :
  first_ok tasks leaves order first → grows first new → NoDup (at_ids (first ++ new)) →
  first ≠ [] → (length first = 1%nat → new = []) →
  ∃ root, root_of (pt_ids order) (mark_last_final (first ++ new)) root.
Proof.
  intros Hf HG Hnd Hne H1.
  destruct (graph_reads _ Hnd _ _ _ _ _ Hf HG eq_refl) as (root&Hl&Hr).
  destruct (tree_final _ _ (agg_tree_of _ _ _ _ _ Hf HG Hne H1)) as (T0&r&HT&Hfin&Hnf).
  rewrite <-(leaves_below_same _ _ _ _ (mark_last_final_same _)) in Hr.
  rewrite <-(proj2 (proj2 (mark_last_final_ids (first ++ new)))) in Hr.
  exists r. split; [done|by exists T0|]. rewrite <-Hr. f_equal.
  destruct (first ++ new) as [|t T _] using rev_ind; [done|].
  rewrite last_snoc in Hl. injection Hl as ->. rewrite mark_last_final_snoc in HT.
  by apply app_inj_tail in HT as [_ <-].
Qed.

(** The tasks of the generated graph are in their first state, the odd prove task the
    only one that is done. *)
Definition first_states (feature : Feature) (P : list ProveTask) (T : list AggTask) : Prop :=
  Forall (λ t, at_state t = (if at_from_prove t then TASK_STATE_SUCCESS
                             else TASK_STATE_UNPROCESSED) ∧
    (at_from_prove t = true → at_task_id t ∈ pt_ids P ∧ feature = feature_prover)) T.

Lemma first_states_shape feature P leaves order first new :
  first_ok P leaves order first → grows first new →
  (∀ t, t ∈ first ++ new → at_from_prove t = true → feature = feature_prover) →
  first_states feature P (mark_last_final (first ++ new)).
Proof.
  intros Hf HG Hfp.
  assert (∀ t, t ∈ first ++ new →
    at_state t = (if at_from_prove t then TASK_STATE_SUCCESS else TASK_STATE_UNPROCESSED) ∧
    (at_from_prove t = true → at_task_id t ∈ pt_ids P ∧ feature = feature_prover)) as Hall.
  { intros t Ht. split.
    - by eapply fresh_state.
    - intros Hp. split; [|by eapply Hfp]. by eapply from_prove_id. }
  clear -Hall. destruct (first ++ new) as [|t T _] using rev_ind; [constructor|].
  rewrite mark_last_final_snoc. apply Forall_app. split; [|constructor; [|done]].
  - apply Forall_forall. intros u Hu. apply Hall, elem_of_app. by left.
  - apply (Hall t), elem_of_app. right. by left.
Qed.

(** What [gen_agg_tasks] leaves: tasks in their first state, and a final task over all
    prove tasks. *)
Lemma gen_agg_tasks_graph feature s w s' w' :
  stage_agg_tasks s = [] → stage_prove_tasks s ≠ [] →
  NoDup (pt_ids (stage_prove_tasks s)) → Forall (drawn w) (pt_ids (stage_prove_tasks s)) →
  gen_agg_tasks feature s w = Ret (s', w') →
  first_states feature (stage_prove_tasks s) (stage_agg_tasks s') ∧
  ∃ root, root_of (pt_ids (reading_order feature (stage_prove_tasks s)))
    (stage_agg_tasks s') root.
Proof.
  intros HT Hne Hnd Hd. set (P := stage_prove_tasks s) in *.
  destruct feature; cbn [gen_agg_tasks reading_order].
  - destruct (gen_agg_tasks_prover_shape s w Hne) as (first&new&->&Hf&HG&Hids&Hnew&Hl&Hl'&_).
    intros [= <- _]. rewrite HT. simpl. split; [by eapply first_states_shape|].
    assert (first ≠ []) as Hfne.
    { intros ->. halve (length P + 1)%nat. unfold P in *.
      destruct (stage_prove_tasks s); [done|]. simpl in *. lia. }
    apply (covers_of_shape _ _ _ _ _ Hf HG); [|done|].
    + pose proof (paired_app_carried P) as Hpc.
      eapply (shape_NoDup w); [exact Hnd|done|exact Hids| | |exact Hnew].
      * rewrite <-Hpc, fmap_app in Hnd. by apply NoDup_app in Hnd as (_&_&?).
      * intros id Hid. rewrite <-Hpc, fmap_app. apply elem_of_app. by right.
    + intros H1. rewrite H1 in Hl'. by destruct new.
  - intros H. destruct (gen_agg_v2_vk _ _ _ _ H) as [vk Hvk].
    destruct (gen_agg_tasks_prover_v2_shape s w vk Hvk Hne)
      as (first&new&Hrun&Hf&HG&Hids&Hnew&Hl&Hl'). rewrite Hrun in H. injection H as <- _.
    rewrite HT. simpl. split.
    + eapply first_states_shape; [done..|]. intros t Ht Hp.
      destruct (from_prove_id _ _ _ _ _ _ Hf HG Ht Hp) as [Htf Hin]. exfalso.
      apply (list_elem_of_fmap_2 at_task_id) in Htf. rewrite Hids in Htf.
      by eapply fresh_not_in.
    + apply (covers_of_shape _ _ _ _ _ Hf HG).
      * apply (shape_NoDup w P first new (length first) (length new) []);
          [done|done|by rewrite app_nil_r|constructor|set_solver|done].
      * intros ->. unfold P in *. by destruct (stage_prove_tasks s).
      * intros H1. rewrite H1 in Hl'. destruct new; [done|]. simpl in Hl'. lia.
Qed.

(** Nothing is generated for no prove tasks. *)
Lemma gen_agg_tasks_empty feature s w s' w' :
  stage_agg_tasks s = [] → stage_prove_tasks s = [] →
  gen_agg_tasks feature s w = Ret (s', w') → stage_agg_tasks s' = [].
Proof.
  intros HT HP. destruct feature; cbn [gen_agg_tasks].
  - unfold gen_agg_tasks_prover. by rewrite HP.
  - unfold gen_agg_tasks_prover_v2. rewrite HP, HT.
    intros (vk&w1&_&H)%M_bind_Ret. apply M_bind_Ret in H as (vk'&w2&_&H).
    by injection H as <- _.
Qed.

(** [C5] The final aggregation task of the generated graph stands for
    every prove task exactly once and in order: following the inputs down from it,
    through the lookups by id that dispatch uses, reads the prove tasks from the first
    segment to the last, and then the deferred proofs (which only feature "prover_v2"
    has). *)
Theorem gen_agg_tasks_covers feature s w s' w' :
  stage_agg_tasks s = [] → stage_prove_tasks s ≠ [] →
  NoDup (pt_ids (stage_prove_tasks s)) → Forall (drawn w) (pt_ids (stage_prove_tasks s)) →
  gen_agg_tasks feature s w = Ret (s', w') →
  ∃ T0 root, stage_agg_tasks s' = T0 ++ [root] ∧ at_is_final root = true ∧
    leaves_below (length (stage_agg_tasks s')) (stage_agg_tasks s') (to_agg_input root) =
      Some (pt_ids (reading_order feature (stage_prove_tasks s))).
Proof.
  intros HT Hne Hnd Hd H.
  destruct (gen_agg_tasks_graph _ _ _ _ _ HT Hne Hnd Hd H) as (_&root&[Hf (T0&HT0&_) Hl]).
  exists T0, root. by split_and!.
Qed.

End final.

(** ** Witness: five segments, ids as the prover draws them *)

Module SampleCover.
Definition tasks : list ProveTask :=
  (λ n, ProveTask_default <| pt_task_id := @uuid_v4 Sample.external n |>) <$> seq 0 5.
Definition stage : Stage := (Stage_new SampleGraph.request) <| stage_prove_tasks := tasks |>.
Definition world : @World Sample.external := SampleGraph.world <| w_uuids := 5%nat |>.
Definition result : Stage :=
  match @gen_agg_tasks Sample.external feature_prover stage world with
  | Ret (s, _) => s
  | Panic => stage
  end.
End SampleCover.

Lemma gen_agg_tasks_covers_witness :
  ∃ T0 root, stage_agg_tasks SampleCover.result = T0 ++ [root] ∧ at_is_final root = true ∧
    leaves_below (length (stage_agg_tasks SampleCover.result))
      (stage_agg_tasks SampleCover.result) (to_agg_input root) =
      Some (pt_ids SampleCover.tasks).
Proof.
  assert (∃ w', @gen_agg_tasks Sample.external feature_prover SampleCover.stage
    SampleCover.world = Ret (SampleCover.result, w')) as [w' Hrun].
  { eexists. vm_compute. reflexivity. }
  apply (@gen_agg_tasks_covers Sample.external Sample.external_fresh feature_prover
    SampleCover.stage SampleCover.world SampleCover.result w'); [reflexivity|discriminate| | |exact Hrun].
  - apply (bool_decide_eq_true_1 (NoDup _)). vm_compute. reflexivity.
  - apply Forall_forall. intros id (p&->&(n&->&Hn%elem_of_seq)%list_elem_of_fmap)%list_elem_of_fmap.
    exists n. split; [simpl; lia|reflexivity].
Defined.
