(* ===== verification/StageSteps.v ===== *)
(** * StageSteps: the steps of a proof

    [dispatch] is the only operation that changes the step of a stage, and it leaves
    the proving step for the final ones only when every generated task has
    succeeded. *)

From S2P Require Import Prelude Text Proto World Tasks Stage AggGraph StageInv StageGen.
From S2P Require Import StageOps.

Section steps.
Context `{E : !External}.

(** ** Frames *)

(** The fields task generation leaves alone. *)
Record keeps (s s' : Stage) : Prop := {
  ke_request : stage_generate_task s' = stage_generate_task s;
  ke_split : stage_split_task s' = stage_split_task s;
  ke_snark : stage_snark_task s' = stage_snark_task s;
  ke_step : stage_step s' = stage_step s
}.

Lemma keeps_refl s : keeps s s.
Proof. by split. Qed.
Lemma keeps_trans s1 s2 s3 : keeps s1 s2 → keeps s2 s3 → keeps s1 s3.
Proof. intros [] []. split; congruence. Qed.
#[local] Hint Resolve keeps_refl : core.

(** The last update of a computation, after what is known to keep the fields. *)
Ltac keep := solve [done | by split | eapply keeps_trans; [eassumption|by split]].

Lemma gen_prove_task_keeps s w s' w' : gen_prove_task s w = Ret (s', w') → keeps s s'.
Proof.
  unfold gen_prove_task. destruct (_ || _); [by intros [<- <-]%M_mret_Ret|].
  intros (s1&w1&H1&H2)%M_bind_Ret. assert (keeps s s1).
  { destruct (stage_prove_tasks s); [|by apply M_mret_Ret in H1 as [<- <-]].
    apply M_bind_Ret in H1 as (ts&w2&_&[<- <-]%M_mret_Ret). keep. }
  apply M_bind_Ret in H2 as (n&w2&_&H2).
  destruct n; [|by apply M_mret_Ret in H2 as [<- <-]].
  apply M_bind_Ret in H2 as (ts&w3&_&[<- <-]%M_mret_Ret). keep.
Qed.

Lemma gen_prove_task_post_keeps feature s w s' w' :
  gen_prove_task_post feature s w = Ret (s', w') → keeps s s'.
Proof.
  unfold gen_prove_task_post. intros (s1&w1&H1&H2)%M_bind_Ret. assert (keeps s s1).
  { unfold complete_prove_tasks in H1. destruct (_ <? _);
      [apply M_mret_Ret in H1 as [<- <-]; keep|].
    apply M_bind_Ret in H1 as (ts&w2&_&[<- <-]%M_mret_Ret). keep. }
  destruct feature.
  - destruct (_ <? 2); apply M_mret_Ret in H2 as [<- <-]; keep.
  - apply M_bind_Ret in H2 as (fs&w2&_&H2). apply M_bind_Ret in H2 as (files&w3&_&H2).
    apply M_bind_Ret in H2 as (ts&w4&_&[<- <-]%M_mret_Ret). keep.
Qed.

Lemma gen_agg_tasks_keeps feature s w s' w' :
  gen_agg_tasks feature s w = Ret (s', w') → keeps s s'.
Proof.
  destruct feature; cbn [gen_agg_tasks].
  - unfold gen_agg_tasks_prover. destruct (stage_prove_tasks s) as [|p l]; [done|].
    intros ([i r]&w1&_&H)%M_bind_Ret.
    apply M_bind_Ret in H as (all&w2&_&[<- <-]%M_mret_Ret). keep.
  - unfold gen_agg_tasks_prover_v2. intros (vk&w1&_&H)%M_bind_Ret.
    apply M_bind_Ret in H as (vk'&w2&_&H). apply M_bind_Ret in H as ([i r]&w3&_&H).
    apply M_bind_Ret in H as (all&w4&_&[<- <-]%M_mret_Ret). keep.
Qed.

Lemma gen_agg_tasks_frame feature s w s' w' :
  gen_agg_tasks feature s w = Ret (s', w') →
  s' = s <| stage_agg_tasks := stage_agg_tasks s' |>.
Proof.
  destruct feature; cbn [gen_agg_tasks].
  - unfold gen_agg_tasks_prover. destruct (stage_prove_tasks s) as [|p l]; [done|].
    intros ([i r]&w1&_&H)%M_bind_Ret.
    by apply M_bind_Ret in H as (all&w2&_&[<- <-]%M_mret_Ret).
  - unfold gen_agg_tasks_prover_v2. intros (vk&w1&_&H)%M_bind_Ret.
    apply M_bind_Ret in H as (vk'&w2&_&H). apply M_bind_Ret in H as ([i r]&w3&_&H).
    by apply M_bind_Ret in H as (all&w4&_&[<- <-]%M_mret_Ret).
Qed.

(** The end of the split, its parts apart. *)
Lemma on_split_done_parts feature s w s' w' :
  on_split_done feature s w = Ret (s', w') →
  ∃ s1 w1 T, gen_prove_task_post feature s w = Ret (s1, w1) ∧
    (if gt_composite_proof (stage_generate_task s1) then T = stage_agg_tasks s1
     else ∃ s2 w2, gen_agg_tasks feature s1 w1 = Ret (s2, w2) ∧ T = stage_agg_tasks s2) ∧
    s' = s1 <| stage_is_tasks_gen_done := true |>
            <| stage_agg_tasks := foldl (λ T id, clear_child_in id T) T
                 (success_ids (stage_prove_tasks s1)) |>.
Proof.
  unfold on_split_done. intros (s1&w1&H1&H)%M_bind_Ret.
  apply M_bind_Ret in H as (s2&w2&H2&[<- <-]%M_mret_Ret). rewrite foldl_clear.
  exists s1, w1. destruct (gt_composite_proof _); simpl in H2.
  - apply M_mret_Ret in H2 as [<- <-]. by eexists.
  - exists (stage_agg_tasks s2). split_and!; [done|by eexists _, _|].
    by rewrite (gen_agg_tasks_frame _ _ _ _ _ H2).
Qed.

Lemma on_split_done_keeps feature s w s' w' :
  on_split_done feature s w = Ret (s', w') → keeps s s'.
Proof.
  unfold on_split_done. intros (s1&w1&H1%gen_prove_task_post_keeps&H)%M_bind_Ret.
  apply M_bind_Ret in H as (s2&w2&H2&[<- <-]%M_mret_Ret). rewrite foldl_clear.
  assert (keeps s1 s2).
  { destruct (negb _); [by eapply gen_agg_tasks_keeps|by apply M_mret_Ret in H2 as [<- <-]]. }
  assert (keeps s s2) by by eapply keeps_trans. keep.
Qed.

(** The handlers: the lists, the error flag and the task of their kind. *)

Lemma on_task_error `{IsTask T} now (r t : T) err : (on_task now r t err).2 = false → err = false.
Proof. unfold on_task. by repeat case_match. Qed.

Lemma get_agg_task_frame now s r s' :
  get_agg_task now s = Ret (r, s') → s' = s <| stage_agg_tasks := stage_agg_tasks s' |>.
Proof.
  unfold get_agg_task. destruct (pick_agg now (stage_agg_tasks s)) as [[t|] T].
  - intros (ins&_&[= <- <-])%bind_Ret. done.
  - by intros [= <- <-].
Qed.

Lemma on_prove_task_frame now r s :
  let s' := (on_prove_task now r s).2 in
  s' = s <| stage_prove_tasks := stage_prove_tasks s' |>
         <| stage_agg_tasks := stage_agg_tasks s' |>
         <| stage_is_error := stage_is_error s' |> ∧
  (stage_is_error s' = false → stage_is_error s = false).
Proof.
  assert (∀ src dst e, (on_prove_task_macro now src dst e).2 = false → e = false) as He.
  { intros src dst e. unfold on_prove_task_macro. by repeat case_match. }
  unfold on_prove_task. destruct (find_first _ _) as [p|]; cbv zeta.
  - specialize (He r p (stage_is_error s)).
    destruct (on_prove_task_macro _ _ _ _) as [[src p'] e]. by case_match.
  - case_match; [done|]. by destruct s.
Qed.

Lemma on_agg_task_frame now r s w src s' w' :
  on_agg_task now r s w = Ret ((src, s'), w') →
  s' = s <| stage_agg_tasks := stage_agg_tasks s' |>
         <| stage_is_error := stage_is_error s' |> ∧
  (stage_is_error s' = false → stage_is_error s = false).
Proof.
  unfold on_agg_task.
  assert (∀ src0 s0, s0 = s <| stage_agg_tasks := stage_agg_tasks s0 |>
                            <| stage_is_error := stage_is_error s0 |> →
    (stage_is_error s0 = false → stage_is_error s = false) →
    (if at_state src0 =? TASK_STATE_SUCCESS then
       let s := clear_agg_child_task (at_task_id src0) s0 in
       (if at_is_final src0 && bool_decide (gt_target_step (stage_generate_task s) = Agg)
        then create_or_panic (gt_snark_path (stage_generate_task s)) (at_output src0)
        else mret tt);; mret (src0, s)
     else mret (src0, s0)) w = Ret (src, s', w') →
    s' = s <| stage_agg_tasks := stage_agg_tasks s' |>
           <| stage_is_error := stage_is_error s' |> ∧
    (stage_is_error s' = false → stage_is_error s = false)) as Htail.
  { intros src0 s0 Hs He. destruct (_ =? _); [|by intros [[= <- <-] <-]%M_mret_Ret].
    intros (u&w1&Hc&[[= <- <-] <-]%M_mret_Ret)%M_bind_Ret. rewrite Hs. done. }
  destruct (find_first _ _) as [t|].
  - pose proof (on_task_error now r t (stage_is_error s)) as He.
    destruct (on_task _ _ _ _) as [[src0 t'] e]. by apply Htail.
  - apply Htail; [by destruct s|done].
Qed.

(** ** Leaving the proving step *)

(** Every task is there and has succeeded. *)
Record all_done (s : Stage) : Prop := {
  ad_gen : stage_is_tasks_gen_done s = true;
  ad_prove : Forall (λ p, pt_state p = TASK_STATE_SUCCESS) (stage_prove_tasks s);
  ad_agg : gt_composite_proof (stage_generate_task s) = true ∨
    Forall (λ t, at_state t = TASK_STATE_SUCCESS) (stage_agg_tasks s)
}.

(** What the final steps mean. *)
Definition complete_step (s : Stage) : Prop :=
  stage_step s = Snark ∨ stage_step s = End →
  gt_from_step (stage_generate_task s) = Agg ∨
  gt_target_step (stage_generate_task s) = Split ∨ all_done s.

Lemma forallb_Forall {A} (f : A → bool) (Q : A → Prop) l :
  (∀ x, f x = true ↔ Q x) → forallb f l = true ↔ Forall Q l.
Proof. intros Hf. rewrite forallb_forall, Forall_forall. setoid_rewrite Hf.
  by setoid_rewrite list_elem_of_In. Qed.

Lemma all_prove_success_true s :
  all_prove_success s = true ↔
  Forall (λ p, pt_state p = TASK_STATE_SUCCESS) (stage_prove_tasks s).
Proof. apply forallb_Forall. intros p. apply Z.eqb_eq. Qed.
Lemma all_agg_success_true s :
  all_agg_success s = true ↔
  Forall (λ t, at_state t = TASK_STATE_SUCCESS) (stage_agg_tasks s).
Proof. apply forallb_Forall. intros t. apply Z.eqb_eq. Qed.

Lemma finish_prove_cases s w s' w' :
  finish_prove s w = Ret (s', w') →
  stage_generate_task s' = stage_generate_task s ∧
  (s' = s ∨
   all_done s ∧ all_done s' ∧
   ((stage_step s' = End ∧ stage_snark_task s' = stage_snark_task s ∧
     (gt_composite_proof (stage_generate_task s) = true ∨
      gt_target_step (stage_generate_task s) = Agg)) ∨
    (stage_step s' = Snark ∧ gt_composite_proof (stage_generate_task s) = false ∧
     gt_target_step (stage_generate_task s) ≠ Agg))).
Proof.
  unfold finish_prove. destruct (_ && _) eqn:Hd.
  2: { intros [<- <-]%M_mret_Ret. split; [done|by left]. }
  apply andb_true_iff in Hd as [Hg Hp%all_prove_success_true].
  destruct (gt_composite_proof _) eqn:Hc.
  { intros [<- <-]%M_mret_Ret. split; [done|right].
    split_and!; [split; auto|split; simpl; auto|]. left. split_and!; auto. }
  destruct (all_agg_success s) eqn:Ha.
  2: { intros [<- <-]%M_mret_Ret. split; [done|by left]. }
  apply all_agg_success_true in Ha.
  case_decide.
  { intros [<- <-]%M_mret_Ret. split; [done|right].
    split_and!; [split; auto|split; simpl; auto|]. left. split_and!; auto. }
  intros (s1&w1&(t&->&?)%gen_snark_task_frame&[<- <-]%M_mret_Ret)%M_bind_Ret.
  split; [done|right]. split_and!; [split; auto|split; simpl; auto|]. right. by split_and!.
Qed.

Lemma dispatch_request feature s w s' w' :
  dispatch feature s w = Ret (s', w') → stage_generate_task s' = stage_generate_task s.
Proof.
  unfold dispatch. destruct (stage_step s).
  - intros (s1&w1&H1&[<- <-]%M_mret_Ret)%M_bind_Ret. unfold gen_split_task in H1.
    apply M_bind_Ret in H1 as (u&w2&_&H1).
    by apply M_bind_Ret in H1 as (id&w3&_&[<- <-]%M_mret_Ret).
  - by intros [<- <-]%M_mret_Ret.
  - unfold dispatch_prove. intros (s1&w1&H1%gen_prove_task_keeps&H)%M_bind_Ret.
    rewrite <-(ke_request _ _ H1). destruct (_ && _); [|by apply finish_prove_cases in H as [? _]].
    case_decide; [by apply M_mret_Ret in H as [<- <-]|].
    apply M_bind_Ret in H as (s2&w2&H2%on_split_done_keeps&H).
    apply finish_prove_cases in H as [-> _]. by apply H2.
  - intros (u&w1&_&H)%M_bind_Ret.
    by apply M_bind_Ret in H as (s1&w2&(t&->&?)%gen_snark_task_frame&[<- <-]%M_mret_Ret).
  - intros [<- <-]%M_mret_Ret. by case_match.
  - by intros [<- <-]%M_mret_Ret.
Qed.

(** [dispatch] keeps what the final steps mean. *)
Lemma dispatch_complete_step feature s w s' w' :
  complete_step s → dispatch feature s w = Ret (s', w') → complete_step s'.
Proof.
  intros Hcs H. pose proof (dispatch_request _ _ _ _ _ H) as Hreq. revert H.
  unfold complete_step in *. rewrite Hreq. unfold dispatch. destruct (stage_step s) eqn:Hst.
  - intros (s1&w1&_&[<- <-]%M_mret_Ret)%M_bind_Ret. simpl. by intros [|].
  - intros [<- <-]%M_mret_Ret. rewrite Hst. by intros [|].
  - unfold dispatch_prove. intros (s1&w1&H1%gen_prove_task_keeps&H)%M_bind_Ret.
    assert (∀ s2 w2, stage_step s2 = Prove → finish_prove s2 w2 = Ret (s', w') →
      stage_step s' = Snark ∨ stage_step s' = End → all_done s') as Hfin.
    { intros s2 w2 Hs2 [_ [->|(_&Hd&_)]]%finish_prove_cases; [|done].
      rewrite Hs2. by intros [|]. }
    pose proof (ke_step _ _ H1) as Hs1. rewrite Hst in Hs1.
    destruct (_ && _); [|by intros ?; right; right; eapply Hfin].
    case_decide as Ht.
    { intros _. right; left. by rewrite <-(ke_request _ _ H1). }
    apply M_bind_Ret in H as (s2&w2&H2%on_split_done_keeps&H).
    intros Hst'. right; right. eapply Hfin; [|done|done]. by rewrite (ke_step _ _ H2).
  - intros (u&w1&[Hf <-]%lift_Ret&_)%M_bind_Ret _. left.
    by apply rust_assert_Ret, bool_decide_eq_true in Hf.
  - intros [<- <-]%M_mret_Ret _. destruct Hcs as [|[|Hd]]; [by left|auto..].
    right; right. case_match; [|done]. destruct Hd. by split.
  - intros [<- <-]%M_mret_Ret _. apply Hcs. by right.
Qed.

End steps.
