(* ===== verification/Database.v ===== *)
(** * Database: the tables of [proof-service/src/database.rs]

    [stage_task] and [prove_task] are maps from the primary key to the row, [user] a
    set of addresses (the columns are those of [migrations/]).  A query returns
    [None] where the call returns [Err]: the server cannot be reached, no row was
    found by [fetch_one], or an insert meets its primary key.  Rows come back in an
    order the server chooses; the model uses the order of the map.  [rows_affected]
    counts the rows the [where] clause selects. *)

From S2P Require Import Prelude Text Proto.

Record StageTask := mkStageTask {
  stg_id : string;
  stg_status : Z;
  stg_context : option string;
  stg_result : option string;
  stg_check_at : Z;
  stg_step : Z
}.
#[export] Instance StageTask_settable : Settable StageTask := λ r,
  mkStageTask (stg_id r) (stg_status r) (stg_context r) (stg_result r)
    (stg_check_at r) (stg_step r).

(** A row of [prove_task] ([database::ProveTask]). *)
Record ProveRow := mkProveRow {
  pr_id : string;
  pr_itype : Z;
  pr_proof_id : string;
  pr_status : Z;
  pr_time_cost : Z;
  pr_node_info : string;
  pr_content : option string;
  pr_check_at : Z
}.

Record Database := mkDatabase {
  db_stage_task : gmap string (string * StageTask);
  db_prove_task : gmap string ProveRow;
  db_user : gset string;
  db_online : bool
}.
#[export] Instance Database_settable : Settable Database := λ r,
  mkDatabase (db_stage_task r) (db_prove_task r) (db_user r) (db_online r).

(** The call fails when the server is away. *)
Definition online {A} (db : Database) (a : A) : option A :=
  if db_online db then Some a else None.

(** ** Queries *)

Definition get_incomplete_stage_tasks (db : Database) (status check_at limit : Z) :
    option (list StageTask) :=
  online db (take (Z.to_nat limit)
    (filter (λ t, stg_status t = status ∧ stg_check_at t < check_at)
       ((map_to_list (db_stage_task db)).*2.*2))).

Definition get_stage_task (db : Database) (proof_id : string) : option StageTask :=
  r ← online db (db_stage_task db !! proof_id);
  snd <$> r.

Definition get_prove_tasks (db : Database) (proof_id : string) : option (list ProveRow) :=
  online db (filter (λ r, pr_proof_id r = proof_id) (map_to_list (db_prove_task db)).*2).

(** A row without content panics; content that does not decode is an error. *)
Definition get_prove_task_infos {Info} (decode : string → option Info)
    (db : Database) (proof_id : string) (itype : Z) : outcome (option (list Info)) :=
  match online db (filter (λ r, pr_proof_id r = proof_id ∧ pr_itype r = itype)
                     (map_to_list (db_prove_task db)).*2) with
  | None => mret None
  | Some rows =>
      (fix go rows :=
         match rows with
         | [] => mret (Some [])
         | r :: rows =>
             c ← unwrap (pr_content r);
             match decode c with
             | None => mret None
             | Some i => infos ← go rows; mret (cons i <$> infos)
             end
         end) rows
  end.

(** [checksum] is [to_checksum] after [parse::<Address>]. *)
Definition get_user (checksum : string → option string) (db : Database)
    (address : string) : option (list string) :=
  a ← checksum address;
  let a := trim_start_0x a in
  online db (if decide (a ∈ db_user db) then [a] else []).

(** ** Updates *)

Definition insert_stage_task (db : Database) (proof_id address : string)
    (status : Z) (context : string) : option Database :=
  if negb (db_online db) then None
  else match db_stage_task db !! proof_id with
  | Some _ => None
  | None => Some (db <| db_stage_task :=
      <[proof_id := (address, mkStageTask proof_id status (Some context) None 0 0)]>
        (db_stage_task db) |>)
  end.

Definition update_stage_task (db : Database) (proof_id : string) (status : Z)
    (result : string) : option Database :=
  online db (db <| db_stage_task :=
    alter (λ r, (r.1, (r.2 <| stg_status := status |> <| stg_result := Some result |>)))
      proof_id (db_stage_task db) |>).

(** The update is a compare-and-set on [check_at]: it applies to the row only while
    the row still has the value the caller read. *)
Definition update_stage_task_check_at (db : Database) (proof_id : string)
    (old_check_at check_at step : Z) : option (Z * Database) :=
  match db_stage_task db !! proof_id with
  | Some (a, t) =>
      if stg_check_at t =? old_check_at
      then online db (1, db <| db_stage_task :=
             <[proof_id := (a, (t <| stg_check_at := check_at |> <| stg_step := step |>))]>
               (db_stage_task db) |>)
      else online db (0, db)
  | None => online db (0, db)
  end.

Definition insert_prove_task (db : Database) (r : ProveRow) : option Database :=
  if negb (db_online db) then None
  else match db_prove_task db !! pr_id r with
  | Some _ => None
  | None => Some (db <| db_prove_task := <[pr_id r := r]> (db_prove_task db) |>)
  end.

(** The rows a query goes through. *)
Lemma stage_rows_elem db t :
  t ∈ (map_to_list (db_stage_task db)).*2.*2 ↔
  ∃ id user, db_stage_task db !! id = Some (user, t).
Proof.
  rewrite list_elem_of_fmap. split.
  - intros ([user t']&->&H). apply list_elem_of_fmap in H as ([id r]&Hr&H).
    cbn in Hr. subst r. exists id, user. by apply elem_of_map_to_list.
  - intros (id&user&H). exists (user, t). split; [done|]. apply list_elem_of_fmap.
    exists (id, (user, t)). split; [done|]. by apply elem_of_map_to_list.
Qed.
