(* ===== verification/ProverPool.v ===== *)
(** * ProverPool: the prover nodes and the calls that share them

    [prover_node.rs] keeps the nodes with their status; every function of
    [prover_client.rs] is one run of the same protocol: check the proof's prover
    count, look for an idle node, check the count again, call the node, release the
    count and the node.  The calls run concurrently, so a call is a phase and every
    step between two awaits or locks is one transition [call_step], on the state the
    calls share.  What only the outside decides (the clock, the shuffle, whether a
    node can be reached, its answer) is the event of the step. *)

From S2P Require Import Prelude Text Proto.

(** ** prover_node.rs *)

Inductive NodeStatus := Idle | Busy_ | OffLine (since : Z).
#[export] Instance NodeStatus_eq_dec : EqDecision NodeStatus.
Proof. solve_decision. Defined.

Definition is_offline (s : NodeStatus) : bool :=
  match s with OffLine _ => true | _ => false end.
Definition offline_since (s : NodeStatus) : option Z :=
  match s with OffLine ts => Some ts | _ => None end.

(** [nd_client]: a connected channel is cached. *)
Record ProverNode := mkProverNode {
  nd_addr : string;
  nd_client : bool;
  nd_status : NodeStatus
}.
#[export] Instance ProverNode_settable : Settable ProverNode := λ r,
  mkProverNode (nd_addr r) (nd_client r) (nd_status r).

Definition ProverNode_new (addr : string) : ProverNode := mkProverNode addr false Idle.

(** [is_active]: the cached channel, or a new one when [connect] succeeds. *)
Definition is_active (connects : bool) (n : ProverNode) : bool * ProverNode :=
  if nd_client n then (true, n)
  else if connects then (true, n <| nd_client := true |>)
  else (false, n).

(** ** Choosing a node *)

Inductive TaskType := TT_Split | TT_Prove | TT_Agg | TT_Snark | TT_SingleNode.
#[export] Instance TaskType_eq_dec : EqDecision TaskType.
Proof. solve_decision. Defined.

(** [get_nodes]: positions in the node list.  Snark proofs go to the first node (its
    index panics on an empty list); [PROVE_NODES_NUM] limits the nodes that prove. *)
Definition get_nodes (prove_nodes_num : option nat) (ty : TaskType)
    (nodes : list ProverNode) : outcome (list nat) :=
  match ty with
  | TT_Snark => match nodes with [] => Panic | _ => Ret [0%nat] end
  | TT_Prove => Ret (take (default (length nodes) prove_nodes_num) (seq 0 (length nodes)))
  | _ => Ret (seq 0 (length nodes))
  end.

(** One node of the loop of [get_idle_client]: skipped, or taken and marked busy.  A
    node that has been offline for 180 seconds is tried again, on a new channel. *)
Definition take_node (now : Z) (n : ProverNode) : option ProverNode :=
  match nd_status n with
  | Busy_ => None
  | OffLine ts =>
      if now <? ts + 180 then None
      else Some (n <| nd_client := false |> <| nd_status := Busy_ |>)
  | Idle => Some (n <| nd_status := Busy_ |>)
  end.

(** ** Calls *)

(** How a call ends: refused by the prover count, no idle node, skipped because the
    node is the one that failed before, the node's answer, a transport error, or (in
    [single_node]) a failed database update. *)
Inductive CallEnd (Resp : Type) :=
  | AtCapacity
  | NoClient
  | SameNode
  | Replied (addr : string) (r : Resp)
  | Unreachable
  | DbError.
Arguments AtCapacity {Resp}.
Arguments NoClient {Resp}.
Arguments SameNode {Resp}.
Arguments Replied {Resp}.
Arguments Unreachable {Resp}.
Arguments DbError {Resp}.

Section pool.
Context {Resp : Type}.
(** [max_prover_num] of each proof, and the environment's [PROVE_NODES_NUM]. *)
Context (max_prover_num : nat → Z) (prove_nodes_num : option nat).

Inductive Phase :=
  | Check_count
  | Choose
  | Probe (rest : list nat)
  | Connecting (k : nat) (rest : list nat)
  | Recheck (k : nat)
  | Admitted_to (k : nat)
  | Rpc (k : nat)
  | Answered (k : nat) (r : option Resp)
  | Done (e : CallEnd Resp).

(** [c_job] is the proof the call works for; [c_last_node] is the task's
    [trace.node_info]. *)
Record Call := mkCall {
  c_type : TaskType;
  c_job : nat;
  c_last_node : string;
  c_phase : Phase
}.
#[export] Instance Call_settable : Settable Call := λ r,
  mkCall (c_type r) (c_job r) (c_last_node r) (c_phase r).

(** The state the calls share: the nodes and [cur_prover_num] of each proof. *)
Record Shared := mkShared {
  sh_nodes : list ProverNode;
  sh_count : nat → Z
}.
#[export] Instance Shared_settable : Settable Shared := λ r,
  mkShared (sh_nodes r) (sh_count r).

Inductive Event :=
  | Go (now : Z)
  | Shuffled (order : list nat)
  | Connect (now : Z) (succeeds : bool)
  | DbUpdate (succeeds : bool)
  | Answer (r : option Resp).

Definition set_count (j : nat) (v : Z) (f : nat → Z) : nat → Z :=
  λ i, if decide (i = j) then v else f i.

Definition set_node (k : nat) (f : ProverNode → ProverNode) (sh : Shared) : Shared :=
  sh <| sh_nodes := alter f k (sh_nodes sh) |>.
Definition set_status (k : nat) (s : NodeStatus) : Shared → Shared :=
  set_node k (λ n, n <| nd_status := s |>).
Definition add_count (j : nat) (d : Z) (sh : Shared) : Shared :=
  sh <| sh_count := set_count j (sh_count sh j + d) (sh_count sh) |>.

(** [single_node] does not use the prover count. *)
Definition counted (c : Call) : bool :=
  match c_type c with TT_SingleNode => false | _ => true end.

Definition at_capacity (c : Call) (sh : Shared) : bool :=
  counted c && (max_prover_num (c_job c) <=? sh_count sh (c_job c)).

(** One step of a call, if the event fits its phase. *)
Definition call_step (ev : Event) (c : Call) (sh : Shared) : option (Phase * Shared) :=
  match c_phase c, ev with
  | Check_count, Go _ =>
      Some (if at_capacity c sh then Done AtCapacity else Choose, sh)
  | Choose, Shuffled order =>
      match get_nodes prove_nodes_num (c_type c) (sh_nodes sh) with
      | Ret ns => if decide (order ≡ₚ ns) then Some (Probe order, sh) else None
      | Panic => None
      end
  | Probe [], Go _ =>
      match c_type c with
      | TT_SingleNode => Some (Choose, sh)
      | _ => Some (Done NoClient, sh)
      end
  | Probe (k :: rest), Go now =>
      n ← sh_nodes sh !! k;
      match take_node now n with
      | None => Some (Probe rest, sh)
      | Some n' => Some (Connecting k rest, set_node k (λ _, n') sh)
      end
  | Connecting k rest, Connect now connects =>
      n ← sh_nodes sh !! k;
      match is_active connects n with
      | (true, n') => Some (Recheck k, set_node k (λ _, n') sh)
      | (false, _) => Some (Probe rest, set_status k (OffLine now) sh)
      end
  | Recheck k, Go _ =>
      if negb (counted c) then None
      else if at_capacity c sh then Some (Done AtCapacity, set_status k Idle sh)
      else Some (Admitted_to k, add_count (c_job c) 1 sh)
  | Recheck k, DbUpdate ok =>
      if counted c then None
      else if ok then Some (Rpc k, sh) else Some (Done DbError, sh)
  | Admitted_to k, Go _ =>
      n ← sh_nodes sh !! k;
      if bool_decide (c_type c = TT_Prove) && String.eqb (c_last_node c) (nd_addr n)
      then Some (Done SameNode, set_status k Idle sh)
      else Some (Rpc k, sh)
  | Rpc k, Answer r =>
      Some (Answered k r, if counted c then add_count (c_job c) (-1) sh else sh)
  | Answered k r, Go now =>
      n ← sh_nodes sh !! k;
      match r with
      | Some r => Some (Done (Replied (nd_addr n) r), set_status k Idle sh)
      | None => Some (Done Unreachable, set_status k (OffLine now) sh)
      end
  | _, _ => None
  end.

(** ** The pool: any number of calls, interleaved *)

Record Pool := mkPool { pl_shared : Shared; pl_calls : list Call }.

Inductive pool_step : Pool → Pool → Prop :=
  | step_spawn sh cs ty j last :
      pool_step (mkPool sh cs) (mkPool sh (cs ++ [mkCall ty j last Check_count]))
  | step_call sh cs i c ev ph sh' :
      cs !! i = Some c →
      call_step ev c sh = Some (ph, sh') →
      pool_step (mkPool sh cs) (mkPool sh' (<[i := (c <| c_phase := ph |>)]> cs)).

Definition pool_init (addrs : list string) : Pool :=
  mkPool (mkShared (ProverNode_new <$> addrs) (λ _, 0)) [].

Definition reachable (addrs : list string) (p : Pool) : Prop :=
  rtc pool_step (pool_init addrs) p.

(** ** Invariant *)

(** The node a call has taken. *)
Definition holds (c : Call) : option nat :=
  match c_phase c with
  | Connecting k _ | Recheck k | Admitted_to k | Rpc k | Answered k _ => Some k
  | _ => None
  end.

Definition in_rpc (c : Call) : bool :=
  match c_phase c with Admitted_to _ | Rpc _ => true | _ => false end.
(** The call ended by skipping the node that failed before. *)
Definition skipped (c : Call) : bool :=
  match c_phase c with Done SameNode => true | _ => false end.

Definition uses (j : nat) (c : Call) : Z :=
  one (bool_decide (c_job c = j) && counted c && (in_rpc c || skipped c)).
Definition node_busy (sh : Shared) (k : nat) : Prop :=
  nd_status <$> sh_nodes sh !! k = Some Busy_.

Record pool_inv (p : Pool) : Prop := {
  pi_owner : NoDup (omap holds (pl_calls p));
  pi_busy : ∀ k, k ∈ omap holds (pl_calls p) → node_busy (pl_shared p) k;
  pi_count : ∀ j, sh_count (pl_shared p) j = total (uses j) (pl_calls p);
  pi_bound : ∀ j, 0 ≤ max_prover_num j → sh_count (pl_shared p) j ≤ max_prover_num j
}.

Lemma node_busy_set k k' f sh :
  node_busy (set_node k f sh) k' ↔
  if decide (k = k') then nd_status <$> (f <$> sh_nodes sh !! k) = Some Busy_
  else node_busy sh k'.
Proof.
  unfold node_busy, set_node; simpl. case_decide as Hk.
  - subst. by rewrite list_lookup_alter_eq.
  - by rewrite list_lookup_alter_ne.
Qed.

Lemma sh_count_add j d sh i :
  sh_count (add_count j d sh) i = sh_count sh i + one (bool_decide (j = i)) * d.
Proof.
  unfold add_count, set_count; simpl. case_decide; case_bool_decide; simplify_eq; simpl; lia.
Qed.

(** What one step does to the counts. *)
Lemma call_step_count ev c sh ph sh' j :
  call_step ev c sh = Some (ph, sh') →
  sh_count sh' j = sh_count sh j + uses j (c <| c_phase := ph |>) - uses j c ∧
  (0 ≤ max_prover_num j → sh_count sh' j ≤ Z.max (sh_count sh j) (max_prover_num j)).
Proof.
  destruct c as [ty job last cph]. unfold call_step, uses, counted, at_capacity, in_rpc, skipped. simpl.
  intros Hs. destruct cph; destruct ev; simplify_option_eq; simpl in *.
  all: repeat (case_match; simplify_option_eq).
  all: unfold set_count in *; rewrite ?Z.leb_gt, ?Z.leb_le in *.
  all: repeat (case_bool_decide || case_decide); simplify_eq/=; lia.
Qed.

Lemma take_node_status now n n' :
  take_node now n = Some n' → nd_status n ≠ Busy_ ∧ nd_status n' = Busy_.
Proof.
  unfold take_node. destruct (nd_status n) eqn:Hs; [intros [= <-]; done|done|].
  case_match; [done|]. by intros [= <-].
Qed.

Lemma is_active_status b n r n' : is_active b n = (r, n') → nd_status n' = nd_status n.
Proof. unfold is_active. by repeat case_match; intros [= <- <-]. Qed.

(** What it does to the nodes: the node a call takes was not busy, the call's node is
    busy, and a busy node of another call stays busy. *)
Lemma call_step_nodes ev c sh ph sh' k :
  call_step ev c sh = Some (ph, sh') →
  let c' := c <| c_phase := ph |> in
  (holds c = Some k → node_busy sh k) →
  (holds c' = Some k → node_busy sh' k ∧ (holds c = Some k ∨ ¬ node_busy sh k)) ∧
  (holds c ≠ Some k → node_busy sh k → node_busy sh' k).
Proof.
  destruct c as [ty job last cph]. unfold call_step, holds, set_status. simpl.
  intros Hs Hb. destruct cph; destruct ev; simplify_option_eq; simpl in *.
  all: repeat (case_match; simplify_option_eq).
  all: split; [intros ?|intros ? ?]; simplify_eq; auto.
  all: repeat match goal with
       | H : take_node _ _ = Some _ |- _ => apply take_node_status in H as [??]
       | H : is_active _ _ = _ |- _ => apply is_active_status in H
       end.
  all: unfold node_busy, set_node in *; simpl; rewrite list_lookup_alter.
  all: case_decide; subst; try done.
  all: repeat match goal with H : sh_nodes _ !! _ = _ |- _ => rewrite H in *; clear H end.
  all: simpl in *; try (split; [congruence|]); auto; try congruence.
  - right. congruence.
  - specialize (Hb eq_refl). split; [congruence|by left].
Qed.

(** ** The invariant holds in every reachable state *)

Lemma pool_inv_init addrs : pool_inv (pool_init addrs).
Proof. split; simpl; [constructor|by intros k ?%elem_of_nil|done|by intros]. Qed.

Lemma pool_inv_step p p' : pool_inv p → pool_step p p' → pool_inv p'.
Proof.
  intros [Ho Hb Hc Hm] Hstep. inversion Hstep as [sh cs ty j last|sh cs i c ev ph sh' Hi Hcall];
    subst; cbn [pl_shared pl_calls] in *.
  - split; cbn [pl_shared pl_calls]; [..|done].
    + by rewrite omap_app, app_nil_r.
    + by rewrite omap_app, app_nil_r.
    + intros j'. rewrite Hc, total_app. unfold uses at 3, in_rpc, skipped. simpl.
      rewrite andb_false_r. simpl. lia.
  - destruct (insert_split cs i c (c <| c_phase := ph |>) Hi) as (l1&l2&->&->).
    set (c' := c <| c_phase := ph |>) in *.
    rewrite omap_app, omap_cons_opt in Ho, Hb.
    assert (∀ k, holds c = Some k → node_busy sh k) as Hbc.
    { intros k Hk. apply Hb. rewrite Hk. set_solver. }
    pose proof (λ k, call_step_nodes ev c sh ph sh' k Hcall (Hbc k)) as Hn. simpl in Hn.
    fold c' in Hn.
    rewrite Permutation_app_swap_app in Ho. apply NoDup_app in Ho as (_&Hdis&Ho).
    assert (∀ k, k ∈ omap holds l1 ++ omap holds l2 → holds c ≠ Some k ∧ node_busy sh k) as Hrest.
    { intros k Hk. split; [|apply Hb; set_solver].
      intros Heq. apply (Hdis k); [rewrite Heq; set_solver|done]. }
    split; cbn [pl_shared pl_calls].
    + rewrite omap_app, omap_cons_opt, Permutation_app_swap_app.
      destruct (holds c') as [k|] eqn:Hk; simpl; [|done].
      apply NoDup_cons. split; [|done]. intros [Hne Hbk]%Hrest.
      by destruct (proj1 (Hn k) Hk) as [_ [|]].
    + intros k. rewrite omap_app, omap_cons_opt, !elem_of_app.
      intros [Hk|[Hk|Hk]].
      * destruct (Hrest k) as [??]; [set_solver|]. by apply Hn.
      * destruct (holds c') as [k'|] eqn:Hk'; simpl in Hk; [|by apply elem_of_nil in Hk].
        apply list_elem_of_singleton in Hk as ->. by apply (proj1 (Hn k') Hk').
      * destruct (Hrest k) as [??]; [set_solver|]. by apply Hn.
    + intros j. destruct (call_step_count ev c sh ph sh' j Hcall) as [-> _].
      fold c'.
      rewrite Hc, !total_app. cbn [total]. lia.
    + intros j Hj. destruct (call_step_count ev c sh ph sh' j Hcall) as [_ Hle].
      specialize (Hle Hj). specialize (Hm j Hj). lia.
Qed.

Lemma reachable_inv addrs p : reachable addrs p → pool_inv p.
Proof.
  unfold reachable. intros Hr. assert (pool_inv (pool_init addrs)) as H0 by apply pool_inv_init.
  revert H0. induction Hr; eauto using pool_inv_step.
Qed.

(** ** Running and leaked uses of the count *)

Definition of_job (j : nat) (c : Call) : bool := bool_decide (c_job c = j) && counted c.
Definition running (j : nat) (c : Call) : Z := one (of_job j c && in_rpc c).
Definition leaked (j : nat) (c : Call) : Z := one (of_job j c && skipped c).

Lemma total_uses j cs : total (uses j) cs = total (running j) cs + total (leaked j) cs.
Proof.
  induction cs as [|c cs IH]; [done|]. cbn [total]. rewrite IH.
  assert (uses j c = running j c + leaked j c); [|lia].
  unfold uses, running, leaked, of_job, in_rpc, skipped.
  destruct (bool_decide _), (counted c), (c_phase c); simpl; try done.
  all: by destruct e.
Qed.

Lemma total_elem (f : Call → Z) cs c : (∀ c, 0 ≤ f c) → c ∈ cs → f c ≤ total f cs.
Proof.
  intros Hf. induction 1 as [c cs|c c' cs _ IH]; cbn [total].
  - pose proof (total_nonneg f cs Hf). lia.
  - specialize (Hf c'). lia.
Qed.

Lemma running_nonneg j c : 0 ≤ running j c.
Proof. apply one_range. Qed.
Lemma leaked_nonneg j c : 0 ≤ leaked j c.
Proof. apply one_range. Qed.

(** A call that has ended takes no more steps. *)
Lemma leaked_step j p p' :
  pool_step p p' → total (leaked j) (pl_calls p) ≤ total (leaked j) (pl_calls p').
Proof.
  intros Hstep. inversion Hstep as [sh cs ty j' last|sh cs i c ev ph sh' Hi Hcall];
    subst; cbn [pl_shared pl_calls] in *.
  - rewrite total_app. pose proof (total_nonneg (leaked j) [mkCall ty j' last Check_count]
      (leaked_nonneg j)). lia.
  - destruct (insert_split cs i c (c <| c_phase := ph |>) Hi) as (l1&l2&->&->).
    rewrite !total_app. cbn [total].
    assert (leaked j c = 0) as ->; [|pose proof (leaked_nonneg j (c <| c_phase := ph |>)); lia].
    unfold leaked, skipped. destruct (c_phase c) eqn:Hp; rewrite ?andb_false_r; try done.
    unfold call_step in Hcall. by rewrite Hp in Hcall.
Qed.

Lemma leaked_steps j p p' :
  rtc pool_step p p' → total (leaked j) (pl_calls p) ≤ total (leaked j) (pl_calls p').
Proof. induction 1 as [|p1 p2 p3 H12 _ IH]; [done|]. apply (leaked_step j) in H12. lia. Qed.

(** Running the pool on a list of events: [None] starts a call. *)
Definition pool_exec (p : Pool) (a : nat * option Event) : option Pool :=
  let sh := pl_shared p in
  let cs := pl_calls p in
  match a with
  | (i, Some ev) =>
      c ← cs !! i;
      '(ph, sh') ← call_step ev c sh;
      Some (mkPool sh' (<[i := (c <| c_phase := ph |>)]> cs))
  | (j, None) => Some (mkPool sh (cs ++ [mkCall TT_Prove j "n0" Check_count]))
  end.
Fixpoint pool_run (p : Pool) (l : list (nat * option Event)) : option Pool :=
  match l with [] => Some p | a :: l => p' ← pool_exec p a; pool_run p' l end.

Lemma pool_run_steps p l p' : pool_run p l = Some p' → rtc pool_step p p'.
Proof.
  revert p. induction l as [|[i [ev|]] l IH]; intros p; simpl; [by intros [= ->]| |].
  - destruct p as [sh cs]. simpl. destruct (cs !! i) as [c|] eqn:Hi; [|done]. simpl.
    destruct (call_step ev c sh) as [[ph sh']|] eqn:Hc; [|done]. simpl. intros Hr.
    eapply rtc_l; [|by apply IH]. by eapply step_call.
  - destruct p as [sh cs]. intros Hr. eapply rtc_l; [|by apply IH]. apply step_spawn.
Qed.

(** Calls that hold the same node are one call. *)
Lemma holds_unique cs i i' c c' k :
  NoDup (omap holds cs) → cs !! i = Some c → cs !! i' = Some c' →
  holds c = Some k → holds c' = Some k → i = i'.
Proof.
  intros Ho. assert (∀ i i' c c', (i < i')%nat → cs !! i = Some c → cs !! i' = Some c' →
    holds c = Some k → holds c' = Some k → False) as Hlt.
  { clear i i' c c'. intros i i' c c' Hlt Hi Hi' Hk Hk'.
    rewrite <-(take_drop_middle _ _ _ Hi) in Ho, Hi'.
    rewrite omap_app, omap_cons_opt, Hk in Ho. simpl in Ho.
    rewrite lookup_app_r in Hi' by (rewrite length_take; lia).
    pose proof (lookup_lt_Some _ _ _ Hi) as Hl.
    rewrite length_take, Nat.min_l in Hi' by lia.
    destruct (i' - i)%nat as [|n] eqn:Hn; [lia|]. simpl in Hi'.
    apply NoDup_app in Ho as (_&_&[Hnin _]%NoDup_cons). apply Hnin, list_elem_of_omap.
    exists c'. split; [by eapply list_elem_of_lookup_2|done]. }
  intros Hi Hi' Hk Hk'. destruct (Nat.lt_trichotomy i i') as [?|[?|?]]; [|done|];
    exfalso; eauto.
Qed.

(** In every reachable state of the pool, a node that a call has
    taken is marked busy, and no two calls hold the same node: a node never runs two
    requests at once, whatever the interleaving of calls of any number of proofs. *)
Theorem node_exclusive addrs p :
  reachable addrs p →
  (∀ c k, c ∈ pl_calls p → holds c = Some k → node_busy (pl_shared p) k) ∧
  (∀ i i' c c' k, pl_calls p !! i = Some c → pl_calls p !! i' = Some c' →
     holds c = Some k → holds c' = Some k → i = i').
Proof.
  intros [Ho Hb _ _]%reachable_inv. split.
  - intros c k Hc Hk. apply Hb, list_elem_of_omap. by exists c.
  - intros i i' c c' k. by apply holds_unique.
Qed.

(** [C35] In every reachable state, a proof's [cur_prover_num] is the
    number of its calls between the second check and the answer plus the number of
    its calls that skipped the same node; it never exceeds [max_prover_num], so at
    most that many nodes work for the proof, and the decrement after a call never
    underflows. *)
Theorem prover_count_bounded addrs p j :
  reachable addrs p → 0 ≤ max_prover_num j →
  let cs := pl_calls p in
  sh_count (pl_shared p) j = total (running j) cs + total (leaked j) cs ∧
  0 ≤ sh_count (pl_shared p) j ≤ max_prover_num j ∧
  total (running j) cs ≤ max_prover_num j ∧
  (∀ c k, c ∈ cs → of_job j c = true → c_phase c = Rpc k →
     0 < sh_count (pl_shared p) j).
Proof.
  intros [_ _ Hc Hm]%reachable_inv Hj. cbv zeta. specialize (Hm j Hj).
  rewrite Hc, total_uses in *.
  pose proof (total_nonneg _ (pl_calls p) (running_nonneg j)).
  pose proof (total_nonneg _ (pl_calls p) (leaked_nonneg j)).
  split_and!; try lia. intros c k Hin Hof Hp.
  pose proof (total_elem _ _ _ (running_nonneg j) Hin) as Hle.
  assert (running j c = 1) as Hr; [|lia].
  unfold running, in_rpc. by rewrite Hof, Hp.
Qed.

(** [C36] A call that skips the node its task failed on keeps the prover
    count it took: once [max_prover_num] calls of a proof have done so, no call of
    that proof ever reaches a node again. *)
Theorem same_node_starves addrs p j :
  reachable addrs p → 0 ≤ max_prover_num j →
  max_prover_num j ≤ total (leaked j) (pl_calls p) →
  ∀ p' c k, rtc pool_step p p' → c ∈ pl_calls p' → of_job j c = true → c_phase c ≠ Rpc k.
Proof.
  intros Hr Hj Hl p' c k Hsteps Hin Hof Hp.
  assert (reachable addrs p') as [_ _ Hc Hm]%reachable_inv.
  { unfold reachable in *. by etrans. }
  apply (leaked_steps j) in Hsteps. specialize (Hm j Hj).
  rewrite Hc, total_uses in Hm.
  pose proof (total_elem _ _ _ (running_nonneg j) Hin) as Hle.
  assert (running j c = 1) as Hr1; [|lia].
  unfold running, in_rpc. by rewrite Hof, Hp.
Qed.

End pool.

(** ** Witnesses

    One node, which failed a segment before: the retry is given the same node. *)
Section sample_pool.
Definition sample_events : list (nat * option (@Event unit)) :=
  [(0%nat, None); (0%nat, Some (Go 1)); (0%nat, Some (Shuffled [0%nat]));
   (0%nat, Some (Go 2)); (0%nat, Some (Connect 3 true)); (0%nat, Some (Go 4))].
Definition sample_skip : list (nat * option (@Event unit)) :=
  sample_events ++ [(0%nat, Some (Go 5))].
Definition sample_pool (l : list (nat * option (@Event unit))) : Pool :=
  default (pool_init ["n0"]) (pool_run (λ _, 1) None (pool_init ["n0"]) l).

Lemma node_exclusive_witness :
  ∃ c, pl_calls (sample_pool sample_events) = [c] ∧ holds c = Some 0%nat ∧
    node_busy (pl_shared (sample_pool sample_events)) 0.
Proof.
  eexists. split; [vm_compute; reflexivity|]. split; [reflexivity|].
  assert (reachable (λ _, 1) None ["n0"] (sample_pool sample_events)) as Hr.
  { apply (pool_run_steps _ _ _ sample_events). vm_compute. reflexivity. }
  eapply (proj1 (node_exclusive (λ _, 1) None ["n0"] _ Hr) _ 0%nat);
    [eapply list_elem_of_lookup_2 with (i := 0%nat); vm_compute; reflexivity|reflexivity].
Defined.

Lemma prover_count_bounded_witness :
  sh_count (pl_shared (sample_pool sample_events)) 0 = 1 ∧
  0 ≤ sh_count (pl_shared (sample_pool sample_events)) 0 ≤ 1.
Proof.
  assert (reachable (λ _, 1) None ["n0"] (sample_pool sample_events)) as Hr.
  { apply (pool_run_steps _ _ _ sample_events). vm_compute. reflexivity. }
  split; [vm_compute; reflexivity|].
  exact (proj1 (proj2 (prover_count_bounded (λ _, 1) None ["n0"] _ 0 Hr ltac:(lia)))).
Defined.

(** Another call of the proof after the skip: it is counted and not at a node. *)
Definition sample_again : list (nat * option (@Event unit)) :=
  sample_skip ++ [(0%nat, None)].

Lemma same_node_starves_witness :
  ∃ c, pl_calls (sample_pool sample_again) !! 1%nat = Some c ∧ of_job 0 c = true ∧
    c_phase c ≠ Rpc 0.
Proof.
  assert (reachable (λ _, 1) None ["n0"] (sample_pool sample_skip)) as Hr.
  { apply (pool_run_steps _ _ _ sample_skip). vm_compute. reflexivity. }
  assert (rtc (pool_step (λ _, 1) None) (sample_pool sample_skip) (sample_pool sample_again)).
  { apply (pool_run_steps _ _ _ [(0%nat, None)]). vm_compute. reflexivity. }
  eexists. split; [vm_compute; reflexivity|]. split; [reflexivity|].
  apply (same_node_starves (λ _, 1) None ["n0"] _ 0 Hr ltac:(lia)
    ltac:(vm_compute; discriminate) (sample_pool sample_again)); [done| |reflexivity].
  eapply list_elem_of_lookup_2 with (i := 1%nat). vm_compute. reflexivity.
Defined.
End sample_pool.
