(* ===== verification/ProverClient.v ===== *)
(** * ProverClient: what a call to a prover node makes of its task

    [prover_client.rs] sends a task to a node and turns the end of the call
    ([CallEnd] of ProverPool) into the task handed back to the stage.  The class
    [Client] states what the worker relies on; the functions of the source are its
    instance. *)

From S2P Require Import Prelude Text Proto World Tasks ProverPool.

(** ** Requests and responses (prover.v1) *)

Record SplitElfRequest := {
  sq_proof_id : string; sq_computed_request_id : string; sq_elf_path : string;
  sq_base_dir : string; sq_seg_path : string; sq_public_input_path : string;
  sq_private_input_path : string; sq_output_path : string; sq_args : string;
  sq_block_no : option Z; sq_seg_size : Z; sq_receipt_inputs_path : string;
  sq_program_id : string }.
Record ProveRequest := {
  vq_proof_id : string; vq_computed_request_id : string; vq_program_id : string;
  vq_segment : string; vq_block_no : option Z; vq_seg_size : Z; vq_elf_path : string;
  vq_receipts_input : list bytes; vq_index : Z }.
Record AggregateRequest := {
  gq_proof_id : string; gq_computed_request_id : string; gq_block_no : option Z;
  gq_seg_size : Z; gq_vk : bytes; gq_inputs : list AggregateInput; gq_is_final : bool;
  gq_is_first_shard : bool; gq_is_leaf_layer : bool; gq_is_deferred : bool }.
Record SnarkProofRequest := {
  nq_version : Z; nq_proof_id : string; nq_computed_request_id : string;
  nq_agg_receipt : bytes; nq_from_input : bool }.
Record SingleNodeRequest := {
  oq_proof_id : string; oq_computed_request_id : string; oq_base_dir : string;
  oq_elf_path : string; oq_private_input_path : string; oq_receipt_inputs_path : string;
  oq_program_id : string; oq_target_step : Z; oq_seg_size : Z }.

Record SplitElfResponse := {
  sr_result : option RpcResult; sr_total_steps : Z; sr_total_segments : Z }.
Record ProveResponse := {
  vr_result : option RpcResult; vr_output_receipt : bytes }.
Record AggregateResponse := {
  gr_result : option RpcResult; gr_agg_receipt : bytes }.
Record SnarkProofResponse := {
  nr_result : option RpcResult; nr_snark_proof_with_public_inputs : bytes }.
Record SingleNodeResponse := {
  or_result : option RpcResult; or_output : bytes; or_total_steps : Z }.

Definition split_request (t : SplitTask) : SplitElfRequest :=
  {| sq_proof_id := st_proof_id t; sq_computed_request_id := st_task_id t;
     sq_elf_path := st_elf_path t; sq_base_dir := st_base_dir t;
     sq_seg_path := st_seg_path t; sq_public_input_path := st_public_input_path t;
     sq_private_input_path := st_private_input_path t;
     sq_output_path := st_output_path t; sq_args := st_args t;
     sq_block_no := st_block_no t; sq_seg_size := st_seg_size t;
     sq_receipt_inputs_path := st_recepit_inputs_path t;
     sq_program_id := st_program_id t |}.

(** [index] is [file_no as u32]. *)
Definition prove_request (t : ProveTask) : ProveRequest :=
  {| vq_proof_id := pg_proof_id (pt_program t); vq_computed_request_id := pt_task_id t;
     vq_program_id := pt_program_id t; vq_segment := pt_segment t;
     vq_block_no := pg_block_no (pt_program t);
     vq_seg_size := pg_seg_size (pt_program t);
     vq_elf_path := pg_elf_path (pt_program t);
     vq_receipts_input := pg_receipts (pt_program t);
     vq_index := u32_wrap (pt_file_no t) |}.

Definition aggregate_request (t : AggTask) : AggregateRequest :=
  {| gq_proof_id := at_proof_id t; gq_computed_request_id := at_task_id t;
     gq_block_no := at_block_no t; gq_seg_size := at_seg_size t; gq_vk := at_vk t;
     gq_inputs := at_inputs t; gq_is_final := at_is_final t;
     gq_is_first_shard := at_is_first_shard t; gq_is_leaf_layer := at_is_leaf_layer t;
     gq_is_deferred := at_is_deferred t |}.

Definition snark_request (t : SnarkTask) : SnarkProofRequest :=
  {| nq_version := sn_version t; nq_proof_id := sn_proof_id t;
     nq_computed_request_id := sn_task_id t; nq_agg_receipt := sn_agg_receipt t;
     nq_from_input := sn_from_input t |}.

Definition single_node_request (t : SingleNodeTask) : SingleNodeRequest :=
  {| oq_proof_id := sg_proof_id t; oq_computed_request_id := sg_task_id t;
     oq_base_dir := sg_base_dir t; oq_elf_path := sg_elf_path t;
     oq_private_input_path := sg_private_input_path t;
     oq_receipt_inputs_path := sg_receipt_inputs_path t;
     oq_program_id := sg_program_id t; oq_target_step := Step_i32 (sg_target_step t);
     oq_seg_size := sg_seg_size t |}.

(** ** Answers *)

Definition result_code_to_state (code : Z) : Z :=
  match ResultCode_from_i32 code with
  | Some Unspecified => TASK_STATE_PROCESSING
  | Some Ok => TASK_STATE_SUCCESS
  | Some InternalError => TASK_STATE_FAILED
  | Some Busy => TASK_STATE_UNPROCESSED
  | _ => TASK_STATE_FAILED
  end.

Definition split (t : SplitTask) (e : CallEnd SplitElfResponse) : SplitTask :=
  let t := t <| st_state := TASK_STATE_UNPROCESSED |> in
  match e with
  | Replied addr resp =>
      match sr_result resp with
      | Some r => t <| st_state := result_code_to_state (rr_code r) |>
                    <| st_trace := st_trace t <| tr_node_info := addr |> |>
                    <| st_total_steps := sr_total_steps resp |>
                    <| st_total_segments := sr_total_segments resp |>
      | None => t
      end
  | _ => t
  end.

Definition prove (t : ProveTask) (e : CallEnd ProveResponse) : ProveTask :=
  let t := t <| pt_state := TASK_STATE_UNPROCESSED |> in
  match e with
  | Replied addr resp =>
      match vr_result resp with
      | Some r => t <| pt_state := result_code_to_state (rr_code r) |>
                    <| pt_trace := pt_trace t <| tr_node_info := addr |> |>
                    <| pt_output := vr_output_receipt resp |>
      | None => t
      end
  | _ => t
  end.

Definition aggregate (t : AggTask) (e : CallEnd AggregateResponse) : AggTask :=
  let t := t <| at_state := TASK_STATE_UNPROCESSED |> in
  match e with
  | Replied addr resp =>
      match gr_result resp with
      | Some r => t <| at_state := result_code_to_state (rr_code r) |>
                    <| at_trace := at_trace t <| tr_node_info := addr |> |>
                    <| at_output := gr_agg_receipt resp |>
      | None => t
      end
  | _ => t
  end.

(** Unlike the others, the task keeps the state it came with when the proof is at its
    prover count, and an unreachable node is a failure. *)
Definition snark_proof (t : SnarkTask) (e : CallEnd SnarkProofResponse) : SnarkTask :=
  match e with
  | AtCapacity => t
  | NoClient => t <| sn_state := TASK_STATE_UNPROCESSED |>
  | Replied addr resp =>
      match nr_result resp with
      | Some r =>
          if decide (ResultCode_from_i32 (rr_code r) = Some Ok)
          then t <| sn_state := TASK_STATE_SUCCESS |>
                 <| sn_trace := sn_trace t <| tr_node_info := addr |> |>
                 <| sn_output := nr_snark_proof_with_public_inputs resp |>
          else t <| sn_state := TASK_STATE_FAILED |>
      | None => t <| sn_state := TASK_STATE_FAILED |>
      end
  | _ => t <| sn_state := TASK_STATE_FAILED |>
  end.

(** [None]: the call returns [Err]. *)
Definition single_node (t : SingleNodeTask) (e : CallEnd SingleNodeResponse) :
    option SingleNodeTask :=
  let t := t <| sg_state := TASK_STATE_UNPROCESSED |> in
  match e with
  | DbError => None
  | Replied addr resp =>
      match or_result resp with
      | Some r => Some (t <| sg_state := result_code_to_state (rr_code r) |>
                          <| sg_trace := sg_trace t <| tr_node_info := addr |> |>
                          <| sg_total_cycles := or_total_steps resp |>
                          <| sg_output := or_output resp |>)
      | None => Some t
      end
  | _ => Some t
  end.

(** ** The interface the worker uses *)

Class Client := {
  client_split : SplitTask → CallEnd SplitElfResponse → SplitTask;
  client_prove : ProveTask → CallEnd ProveResponse → ProveTask;
  client_aggregate : AggTask → CallEnd AggregateResponse → AggTask;
  client_snark_proof : SnarkTask → CallEnd SnarkProofResponse → SnarkTask;
  client_single_node :
    SingleNodeTask → CallEnd SingleNodeResponse → option SingleNodeTask;
  (** an answer is about the task it was asked for *)
  client_prove_id : ∀ t e, pt_task_id (client_prove t e) = pt_task_id t;
  client_aggregate_id : ∀ t e, at_task_id (client_aggregate t e) = at_task_id t
}.

Lemma prove_id t e : pt_task_id (prove t e) = pt_task_id t.
Proof. destruct e; try done. unfold prove. simpl. by case_match. Qed.
Lemma aggregate_id t e : at_task_id (aggregate t e) = at_task_id t.
Proof. destruct e; try done. unfold aggregate. simpl. by case_match. Qed.

#[export] Instance prover_client : Client := {|
  client_split := split;
  client_prove := prove;
  client_aggregate := aggregate;
  client_snark_proof := snark_proof;
  client_single_node := single_node;
  client_prove_id := prove_id;
  client_aggregate_id := aggregate_id
|}.
