(* ===== verification/Worker.v ===== *)
(** * Worker: running one stage task ([proof-service/src/stage/stage_worker.rs])

    The loop of [run_stage_task] dispatches tasks to the prover client and takes the
    answers back, in any order, between clock ticks.  A turn of the loop has two
    parts, [loop_top] (hand out tasks) and [loop_bottom] (an answer or a tick, then
    the exit test, [dispatch] and the heartbeat); between them other processes may
    change files.  The clock, the file changes and the answers are the events of the
    run. *)

From S2P Require Import Prelude Text Proto World Tasks Stage Database ProverPool.
From S2P Require Import ProverClient.

(** ** Code outside the repository: serde_json *)
Class Json := {
  split_to_json : SplitTask → string;
  snark_to_json : SnarkTask → string;
  generate_to_json : GenerateTask → string;
  generate_from_json : string → option GenerateTask
}.

(** ** save_task! *)

(** [as i64] of a [u64]. *)
Definition i64_of_u64 (z : Z) : Z := (z + 2 ^ 63) mod 2 ^ 64 - 2 ^ 63.

Definition finished_state (st : Z) : bool :=
  (st =? TASK_STATE_FAILED) || (st =? TASK_STATE_SUCCESS).

(** An error of the insert is only logged. *)
Definition save_row (db : Database) (r : ProveRow) : Database :=
  default db (insert_prove_task db r).

Section worker.
Context `{E : !External} `{J : !Json} `{C : !Client}.

Definition save_split (t : SplitTask) (db : Database) : Database :=
  if finished_state (st_state t) then
    save_row db {| pr_id := st_task_id t; pr_itype := TASK_ITYPE_SPLIT;
                   pr_proof_id := st_proof_id t; pr_status := st_state t;
                   pr_time_cost := i64_of_u64 (Trace_duration (st_trace t));
                   pr_node_info := tr_node_info (st_trace t);
                   pr_content := Some (split_to_json t); pr_check_at := 0 |}
  else db.
Definition save_snark (t : SnarkTask) (db : Database) : Database :=
  if finished_state (sn_state t) then
    save_row db {| pr_id := sn_task_id t; pr_itype := TASK_ITYPE_FINAL;
                   pr_proof_id := sn_proof_id t; pr_status := sn_state t;
                   pr_time_cost := i64_of_u64 (Trace_duration (sn_trace t));
                   pr_node_info := tr_node_info (sn_trace t);
                   pr_content := Some (snark_to_json t); pr_check_at := 0 |}
  else db.

(** ** The loop *)

(** The variables of the loop.  [ws_inflight] are the tasks handed to spawned client
    calls that have not answered; [ws_row_check_at] is [task.check_at], the value the
    stage believes its database row has; [ws_last_step] is [current_step]. *)
Record WorkerState := mkWorkerState {
  ws_stage : Stage;
  ws_inflight : list Task;
  ws_db : Database;
  ws_check_at : Z;
  ws_row_check_at : Z;
  ws_last_step : Step
}.
#[export] Instance WorkerState_settable : Settable WorkerState := λ r,
  mkWorkerState (ws_stage r) (ws_inflight r) (ws_db r) (ws_check_at r)
    (ws_row_check_at r) (ws_last_step r).

(** The tasks one turn hands out, at most one of each kind. *)
Definition spawn_tasks (now : Z) (s : Stage) : M (list Task * Stage) :=
  match stage_step s with
  | Prove =>
      let max := gt_max_prover_num (stage_generate_task s) in
      let '(split_task, s) := get_split_task now s in
      w ← get_world;
      let '(prove_task, s) :=
        if Z.of_nat (count_processing_prove_tasks s) <? max
        then get_prove_task (w_fs w) now s else (None, s) in
      '(agg_task, s) ←
        (if stage_is_tasks_gen_done s
            && (Z.of_nat (count_unfinished_prove_tasks s) <? max)
         then lift (get_agg_task now s) else mret (None, s)) : M (option AggTask * Stage);
      mret (option_list (TSplit <$> split_task) ++ option_list (TProve <$> prove_task) ++
            option_list (TAgg <$> agg_task), s)
  | Snark =>
      let '(snark_task, s) := get_snark_task now s in
      mret (option_list (TSnark <$> snark_task), s)
  | _ => mret ([], s)
  end.

Definition loop_top (now : Z) (ws : WorkerState) : M WorkerState :=
  let current_step := stage_step (ws_stage ws) in
  '(tasks, s) ← spawn_tasks now (ws_stage ws);
  mret (ws <| ws_stage := s |> <| ws_inflight := ws_inflight ws ++ tasks |>
           <| ws_last_step := current_step |>).

(** How a client call ended, by kind. *)
Inductive TaskEnd :=
  | ESplit (e : CallEnd SplitElfResponse)
  | EProve (e : CallEnd ProveResponse)
  | EAgg (e : CallEnd AggregateResponse)
  | ESnark (e : CallEnd SnarkProofResponse).

(** The answer of a spawned call. *)
Definition answer (t : Task) (e : TaskEnd) : option Task :=
  match t, e with
  | TSplit t, ESplit e => Some (TSplit (client_split t e))
  | TProve t, EProve e => Some (TProve (client_prove t e))
  | TAgg t, EAgg e => Some (TAgg (client_aggregate t e))
  | TSnark t, ESnark e => Some (TSnark (client_snark_proof t e))
  | _, _ => None
  end.

(** [rx.recv()]: the stage takes the answer; finished split and snark tasks are saved. *)
Definition on_answer (now : Z) (r : Task) (s : Stage) (db : Database) :
    M (Stage * Database) :=
  match r with
  | TSplit data =>
      let '(data, s) := on_split_task now data s in mret (s, save_split data db)
  | TProve data => mret ((on_prove_task now data s).2, db)
  | TAgg data => '(_, s) ← on_agg_task now data s; mret (s, db)
  | TSnark data =>
      '(data, s) ← on_snark_task now data s; mret (s, save_snark data db)
  end.

(** One branch of [select!]: the [i]-th call in flight answers, or the timer ticks. *)
Inductive LoopEvent := Tick | Answers (i : nat) (e : TaskEnd).

Definition take_event (now : Z) (ev : LoopEvent) (ws : WorkerState) :
    M (option WorkerState) :=
  match ev with
  | Tick => mret (Some ws)
  | Answers i e =>
      match t ← ws_inflight ws !! i; answer t e with
      | None => mret None
      | Some r =>
          '(s, db) ← on_answer now r (ws_stage ws) (ws_db ws);
          mret (Some (ws <| ws_stage := s |> <| ws_db := db |>
                         <| ws_inflight := delete i (ws_inflight ws) |>))
      end
  end.

(** The heartbeat: every ten seconds and at every change of step. *)
Definition heartbeat (id : string) (now : Z) (ws : WorkerState) : WorkerState :=
  if (ws_check_at ws + 10 <? now)
     || negb (bool_decide (ws_last_step ws = stage_step (ws_stage ws)))
  then
    let ws := ws <| ws_check_at := now |> in
    match update_stage_task_check_at (ws_db ws) id (ws_row_check_at ws) now
            (Step_i32 (stage_step (ws_stage ws))) with
    | Some (rows, db) =>
        let ws := ws <| ws_db := db |> in
        if rows =? 1 then ws <| ws_row_check_at := now |> else ws
    | None => ws
    end
  else ws.

Inductive Turn := Continue (ws : WorkerState) | Break (ws : WorkerState).

(** The worker a turn leads to. *)
Definition turn_state (t : Turn) : WorkerState :=
  match t with Continue ws | Break ws => ws end.

Definition loop_bottom (feature : Feature) (id : string) (now : Z) (ev : LoopEvent)
    (ws : WorkerState) : M (option Turn) :=
  ws ← take_event now ev ws;
  match ws with
  | None => mret None
  | Some ws =>
      if is_success (ws_stage ws) || is_error (ws_stage ws) then mret (Some (Break ws))
      else s ← dispatch feature (ws_stage ws);
           mret (Some (Continue (heartbeat id now (ws <| ws_stage := s |>))))
  end.

(** Before the loop: the stage is built and dispatched once, and the row gets the
    step and the time. *)
Definition loop_start (feature : Feature) (task : StageTask) (g : GenerateTask)
    (now now' : Z) (db : Database) : M WorkerState :=
  s ← dispatch feature (Stage_new g);
  let db := match update_stage_task_check_at db (stg_id task)
                    (u64_wrap (stg_check_at task)) now (Step_i32 (stage_step s)) with
            | Some (_, db) => db
            | None => db
            end in
  mret (mkWorkerState s [] db now' now (stage_step s)).

(** After the loop. *)
Definition error_status (st : Step) : Status.t :=
  match st with
  | Split => Status.SplitError
  | Prove => Status.ProveError
  | Agg => Status.AggError
  | Snark => Status.SnarkError
  | _ => Status.InternalError
  end.

Definition loop_finish (id : string) (g : GenerateTask) (duration : Z)
    (ws : WorkerState) : M Database :=
  let s := ws_stage ws in
  if is_error s then
    lift (unwrap (update_stage_task (ws_db ws) id
                    (Status.i32 (error_status (stage_step s))) empty_str))
  else
    result ← (if decide (gt_target_step g = Snark)
              then r ← file_read (gt_snark_path g); lift (unwrap r)
              else mret []) : M bytes;
    '(_, db) ← lift (unwrap (update_stage_task_check_at (ws_db ws) id
                 (ws_row_check_at ws) duration (Step_i32 (stage_step s))));
    text ← lift (unwrap (from_utf8 result));
    lift (unwrap (update_stage_task db id (Status.i32 Status.Success) text)).

(** ** The loop as a whole

    One turn, with what the outside does in it: the files change before either part. *)
Record TurnInput := {
  ti_fs_top : Fs;
  ti_now_top : Z;
  ti_fs_bottom : Fs;
  ti_now_bottom : Z;
  ti_event : LoopEvent
}.

Definition loop_turn (feature : Feature) (id : string) (ti : TurnInput)
    (ws : WorkerState) : M (option Turn) :=
  put_fs (ti_fs_top ti);;
  ws ← loop_top (ti_now_top ti) ws;
  put_fs (ti_fs_bottom ti);;
  loop_bottom feature id (ti_now_bottom ti) (ti_event ti) ws.

(** The turns of a run; [None]: an event that does not fit. *)
Fixpoint run_loop (feature : Feature) (id : string) (tis : list TurnInput)
    (ws : WorkerState) : M (option Turn) :=
  match tis with
  | [] => mret (Some (Continue ws))
  | ti :: tis =>
      t ← loop_turn feature id ti ws;
      match t with
      | Some (Continue ws) => run_loop feature id tis ws
      | Some (Break ws) => mret (Some (Break ws))
      | None => mret None
      end
  end.

(** ** Single-node proofs

    One call proves everything; [split_task] only records its cycles. *)
Definition run_single_node (task : StageTask) (g : GenerateTask)
    (now duration : Z) (e : CallEnd SingleNodeResponse) (db : Database) : M Database :=
  if negb (stg_step task =? Step_i32 Init) then mret db
  else
    let s := Stage_new g in
    single_node_task ← get_single_node_task s;
    id ← new_uuid;
    let split_task := SplitTask_default <| st_task_id := id |>
                        <| st_proof_id := sg_proof_id single_node_task |> in
    (* once a node is found, the row is marked as proving; an error of the database
       ends the call *)
    let marked := update_stage_task_check_at db (stg_id task)
                    (u64_wrap (stg_check_at task)) now (Step_i32 Prove) in
    let db := match marked with Some (_, db) => db | None => db end in
    let e := match marked with Some _ => e | None => DbError end in
    '(s, result, split_task) ←
      (match client_single_node single_node_task e with
       | Some t =>
           s ← on_single_node_task t s;
           mret (s, (if decide (gt_target_step (stage_generate_task s) = Snark)
                     then sg_output t else []),
                 split_task <| st_total_steps := sg_total_cycles t |>
                            <| st_state := TASK_STATE_SUCCESS |>)
       | None => mret (s <| stage_is_error := true |>, [],
                       split_task <| st_state := TASK_STATE_FAILED |>)
       end) : M (Stage * bytes * SplitTask);
    let db := save_split split_task db in
    if is_error s then
      lift (unwrap (update_stage_task db (stg_id task)
                      (Status.i32 Status.InternalError) empty_str))
    else
      '(_, db) ← lift (unwrap (update_stage_task_check_at db (stg_id task) now duration
                                 (Step_i32 (stage_step s))));
      text ← lift (unwrap (from_utf8 result));
      lift (unwrap (update_stage_task db (stg_id task) (Status.i32 Status.Success) text)).

(** ** run_stage_task

    The database at the end of the task, or [None] while the loop still runs.  A task
    without context does nothing; one whose context does not decode is an internal
    error. *)
Definition run_stage_task (feature : Feature) (task : StageTask)
    (now now' duration : Z) (single : CallEnd SingleNodeResponse)
    (tis : list TurnInput) (db : Database) : M (option Database) :=
  match stg_context task with
  | None => mret (Some db)
  | Some context =>
      match generate_from_json context with
      | None => mret (Some (default db
                  (update_stage_task db (stg_id task) (Status.i32 Status.InternalError)
                     empty_str)))
      | Some g =>
          if gt_single_node g then
            db ← run_single_node task g now duration single db; mret (Some db)
          else
            ws ← loop_start feature task g now now' db;
            t ← run_loop feature (stg_id task) tis ws;
            match t with
            | Some (Break ws) => db ← loop_finish (stg_id task) g duration ws; mret (Some db)
            | _ => mret None
            end
      end
  end.

End worker.
