(* ===== verification/WorkerInv.v ===== *)
(** * WorkerInv: the invariant of a running stage task

    The worker hands out tasks and takes answers back in any order.  [inflight_ok]
    relates the tasks out to the stage: an id is out at most once, and a stored task
    with that id is being processed.  It makes every answer acceptable to the stage,
    so that [stage_inv] holds throughout a run. *)

From S2P Require Import Prelude Text Proto World Tasks Stage AggGraph StageInv StageGen.
From S2P Require Import StageOps StageSteps Database ProverPool ProverClient Worker.

Definition prove_id (t : Task) : option string :=
  match t with TProve p => Some (pt_task_id p) | _ => None end.
Definition agg_id (t : Task) : option string :=
  match t with TAgg t => Some (at_task_id t) | _ => None end.
Abbreviation prove_ids l := (omap prove_id l).
Abbreviation agg_ids l := (omap agg_id l).

Section inflight.
Context `{E : !External}.

Record inflight_ok (P : list ProveTask) (T : list AggTask) (w : World)
    (l : list Task) : Prop := {
  io_prove_nodup : NoDup (prove_ids l);
  io_prove : ∀ id, id ∈ prove_ids l →
    drawn w id ∧ (id ∈ at_ids T → id ∈ pt_ids P) ∧
    ∀ p, p ∈ P → pt_task_id p = id → pt_state p = TASK_STATE_PROCESSING;
  io_agg_nodup : NoDup (agg_ids l);
  io_agg : ∀ id, id ∈ agg_ids l →
    ∃ t, t ∈ T ∧ at_task_id t = id ∧ at_state t = TASK_STATE_PROCESSING
}.

(** Every task that is being processed is out. *)
Record settled (P : list ProveTask) (T : list AggTask) (l : list Task) : Prop := {
  se_prove : ∀ p, p ∈ P → pt_state p = TASK_STATE_PROCESSING → pt_task_id p ∈ prove_ids l;
  se_agg : ∀ t, t ∈ T → at_state t = TASK_STATE_PROCESSING → at_task_id t ∈ agg_ids l
}.

Lemma ids_app l t :
  prove_ids (l ++ [t]) = prove_ids l ++ option_list (prove_id t) ∧
  agg_ids (l ++ [t]) = agg_ids l ++ option_list (agg_id t).
Proof. rewrite !omap_app. simpl. by destruct (prove_id t), (agg_id t). Qed.

Lemma NoDup_snoc {A} (l : list A) x : NoDup l → x ∉ l → NoDup (l ++ [x]).
Proof. intros ??. rewrite Permutation_app_comm. by constructor. Qed.

(** A task of another kind goes out or comes back. *)
Lemma inflight_other P T w l t :
  prove_id t = None → agg_id t = None →
  (inflight_ok P T w l → inflight_ok P T w (l ++ [t])) ∧
  (settled P T l → settled P T (l ++ [t])).
Proof.
  intros Hp Ha. destruct (ids_app l t) as [Ep Ea]. rewrite Hp, app_nil_r in Ep.
  rewrite Ha, app_nil_r in Ea. split; intros []; split; by rewrite ?Ep, ?Ea.
Qed.

Lemma inflight_back P T w l i t :
  l !! i = Some t → prove_id t = None → agg_id t = None →
  (inflight_ok P T w l → inflight_ok P T w (delete i l)) ∧
  (settled P T l → settled P T (delete i l)).
Proof.
  intros Hi Hp Ha. destruct (delete_split _ _ _ Hi) as (l1&l2&->&->).
  assert (prove_ids (l1 ++ t :: l2) = prove_ids (l1 ++ l2)) as Ep
    by by rewrite !omap_app, omap_cons_opt, Hp.
  assert (agg_ids (l1 ++ t :: l2) = agg_ids (l1 ++ l2)) as Ea
    by by rewrite !omap_app, omap_cons_opt, Ha.
  split; intros []; split; by rewrite <-?Ep, <-?Ea.
Qed.

(** A prove task goes out. *)
Lemma inflight_pick_prove P T w l test now p :
  NoDup (pt_ids P) → Forall (drawn w) (pt_ids P) →
  find_first test P = Some p → pt_state p ≠ TASK_STATE_PROCESSING →
  (inflight_ok P T w l → inflight_ok (update_first test (dispatched_prove now) P) T w
     (l ++ [TProve (dispatched_prove now p)])) ∧
  (settled P T l → settled (update_first test (dispatched_prove now) P) T
     (l ++ [TProve (dispatched_prove now p)])).
Proof.
  intros Hnd Hdr Hf Hs. destruct (ids_app l (TProve (dispatched_prove now p))) as [Ep Ea].
  simpl in Ep, Ea. rewrite app_nil_r in Ea.
  destruct (find_first_split test (dispatched_prove now) P p Hf) as (l1&l2&HP&->).
  assert (p ∈ P) as Hp by (rewrite HP; set_solver).
  assert (pt_ids (l1 ++ dispatched_prove now p :: l2) = pt_ids P) as Hids.
  { rewrite HP, !fmap_app. done. }
  split; intros [].
  - assert (pt_task_id p ∉ prove_ids l) as Hnew.
    { intros Hin. apply io_prove0 in Hin as (_&_&Hpr). by apply Hs, Hpr. }
    split; rewrite ?Ep, ?Ea; [by apply NoDup_snoc| |done..].
    intros id [Hid|Hid%list_elem_of_singleton]%elem_of_app.
    + destruct (io_prove0 id Hid) as (?&Ha&Hpr). split_and!; [done|by rewrite Hids|].
      intros q [Hq|[->|Hq]%elem_of_cons]%elem_of_app Hqid; [|done|];
        (apply Hpr; [rewrite HP; set_solver|done]).
    + subst id. split_and!.
      * eapply Forall_forall; [exact Hdr|]. by apply list_elem_of_fmap_2.
      * intros _. rewrite Hids. by apply list_elem_of_fmap_2.
      * intros q Hq Hqid. assert (dispatched_prove now p = q) as <-; [|done].
        eapply (NoDup_fmap_inj_elem pt_task_id); [by rewrite Hids|set_solver|done|done].
  - split; rewrite ?Ep, ?Ea; [|done].
    intros q Hq Hst. apply elem_of_app.
    apply elem_of_app in Hq as [Hq|[->|Hq]%elem_of_cons]; [|by right; left|];
      (left; apply se_prove0; [rewrite HP; set_solver|done]).
Qed.

(** An aggregation task goes out. *)
Lemma inflight_pick_agg P T w l test now t t' :
  NoDup (at_ids T) → find_first test T = Some t → at_state t ≠ TASK_STATE_PROCESSING →
  at_task_id t' = at_task_id t →
  (inflight_ok P T w l → inflight_ok P (update_first test (dispatched_agg now) T) w
     (l ++ [TAgg t'])) ∧
  (settled P T l → settled P (update_first test (dispatched_agg now) T) (l ++ [TAgg t'])).
Proof.
  intros Hnd Hf Hs Hid. destruct (ids_app l (TAgg t')) as [Ep Ea].
  simpl in Ep, Ea. rewrite app_nil_r in Ep. rewrite Hid in Ea.
  destruct (find_first_split test (dispatched_agg now) T t Hf) as (l1&l2&HT&->).
  assert (t ∈ T) as Ht by (rewrite HT; set_solver).
  assert (at_ids (l1 ++ dispatched_agg now t :: l2) = at_ids T) as Hids.
  { rewrite HT, !fmap_app. done. }
  split; intros [].
  - assert (at_task_id t ∉ agg_ids l) as Hnew.
    { intros (u&Hu&Huid&Hus)%io_agg0. assert (u = t) as ->; [|done].
      by eapply NoDup_fmap_inj_elem. }
    split; rewrite ?Ep, ?Ea, ?Hids; [done..|by apply NoDup_snoc|].
    intros id [Hin|Hin%list_elem_of_singleton]%elem_of_app.
    + destruct (io_agg0 id Hin) as (u&Hu&?&?). exists u. split; [|done].
      assert (u ≠ t) by (by intros ->). rewrite HT in Hu. set_solver.
    + subst id. exists (dispatched_agg now t). split; [set_solver|done].
  - split; rewrite ?Ep, ?Ea; [done|].
    intros u Hu Hst. apply elem_of_app.
    apply elem_of_app in Hu as [Hu|[->|Hu]%elem_of_cons]; [|by right; left|];
      (left; apply se_agg0; [rewrite HT; set_solver|done]).
Qed.
(** *** A prove task comes back *)

Lemma inflight_prove_ok P T w l p r :
  graph_inv P T → inflight_ok P T w l → TProve p ∈ l → pt_task_id r = pt_task_id p →
  prove_reply_ok P T r.
Proof.
  intros HG [] Hl Hid _. rewrite Hid.
  assert (pt_task_id p ∈ prove_ids l) as Hin by (apply list_elem_of_omap; by eexists).
  destruct (io_prove0 _ Hin) as (_&Ha&Hpr).
  destruct (decide (pt_task_id p ∈ pt_ids P)) as [(q&Hq&HqP)%list_elem_of_fmap|Hn].
  - left. destruct (find_first _ P) as [q'|] eqn:Hf; [by eexists|].
    apply find_first_None in Hf. eapply Forall_forall in Hf; [|exact HqP].
    unfold awaits_prove in Hf. rewrite <-Hq, String.eqb_refl, (Hpr q) in Hf; done.
  - right. intros (t&Hid'&Ht)%list_elem_of_bind.
    apply (gi_child _ _ HG t Ht) in Hid' as (i&Hi&Hti)%list_elem_of_fmap.
    apply list_elem_of_lookup in Ht as [k Hk].
    pose proof (gi_inputs _ _ HG k t i Hk Hti) as Hx. rewrite <-Hi in Hx.
    destruct (ai_is_agg i); [|done]. destruct Hx as [Hx _]. apply Hn, Ha.
    rewrite fmap_take in Hx. by eapply sublist_subseteq, Hx; apply sublist_take.
Qed.

(** Only the task with the reply's id changes. *)
Lemma reply_prove_elem now r err P p :
  p ∈ reply_prove now r err P →
  p ∈ P ∨ pt_task_id p = pt_task_id r ∧
          (is_reply_state (pt_state r) = true → pt_state p = pt_state r).
Proof.
  unfold reply_prove. destruct (find_first _ P) as [q|] eqn:Hf; [|by left].
  pose proof (on_prove_task_macro_spec now r q err) as Hm.
  destruct (on_prove_task_macro _ _ _ _) as [[src q'] e]. destruct Hm as (_&_&Hi&Hs).
  destruct (find_first_split (awaits_prove (pt_task_id r)) (λ _, q') P q Hf) as (l1&l2&->&E2).
  cbn [fst snd]. rewrite E2. apply find_first_Some in Hf as [_ [Hid _]%awaits_prove_true].
  intros [Hp|[->|Hp]%elem_of_cons]%elem_of_app; [left; set_solver| |left; set_solver].
  right. split; [congruence|]. intros Hr. by rewrite Hs, Hr.
Qed.

(** The stored task with a fresh reply is not left in processing. *)
Lemma reply_prove_answered now r err P p :
  NoDup (pt_ids P) → is_reply_state (pt_state r) = true →
  p ∈ reply_prove now r err P → pt_task_id p = pt_task_id r →
  pt_state p ≠ TASK_STATE_PROCESSING.
Proof.
  intros Hnd Hr Hp Hid Hst. unfold reply_prove in Hp.
  destruct (find_first _ P) as [q|] eqn:Hf.
  - pose proof (on_prove_task_macro_spec now r q err) as Hm.
    destruct (on_prove_task_macro _ _ _ _) as [[src q'] e]. destruct Hm as (_&_&Hi&Hs).
    rewrite Hr in Hs.
    destruct (find_first_split (awaits_prove (pt_task_id r)) (λ _, q') P q Hf) as (l1&l2&HP&E2).
    cbn [fst snd] in Hp. rewrite E2 in Hp.
    apply find_first_Some in Hf as [_ [Hqid _]%awaits_prove_true].
    assert (p = q') as ->; [|by rewrite Hs in Hst; rewrite Hst in Hr].
    eapply (NoDup_fmap_inj_elem pt_task_id (l1 ++ q' :: l2));
      [|done|set_solver|congruence].
    rewrite HP, fmap_app, fmap_cons, <-Hi in Hnd. by rewrite fmap_app.
  - apply find_first_None in Hf. eapply Forall_forall in Hf; [|exact Hp].
    unfold awaits_prove in Hf. by rewrite Hid, String.eqb_refl, Hst in Hf.
Qed.

Lemma clear_if_elem (b : bool) id T t :
  NoDup (T ≫= child_ids) → waiters_unprocessed T → t ∈ clear_if b id T →
  ∃ u, u ∈ T ∧ at_task_id t = at_task_id u ∧ at_state t = at_state u.
Proof.
  intros Hnd Hw Ht. pose proof (clear_if_unwait b id T Hnd Hw) as HU.
  destruct (Forall2_elem_r _ _ _ _ HU Ht) as (u&?&[]%same_but_childs_fields&_). by exists u.
Qed.
Lemma clear_if_elem' (b : bool) id T u :
  NoDup (T ≫= child_ids) → waiters_unprocessed T → u ∈ T →
  ∃ t, t ∈ clear_if b id T ∧ at_task_id t = at_task_id u ∧ at_state t = at_state u.
Proof.
  intros Hnd Hw Ht. pose proof (clear_if_unwait b id T Hnd Hw) as HU.
  destruct (Forall2_elem_l _ _ _ _ HU Ht) as (t&?&[]%same_but_childs_fields&_). by exists t.
Qed.

Lemma inflight_reply_prove now err P T w l i p r :
  graph_inv P T → inflight_ok P T w l → l !! i = Some (TProve p) →
  pt_task_id r = pt_task_id p →
  let P' := reply_prove now r err P in
  let T' := clear_if (pt_state r =? TASK_STATE_SUCCESS) (pt_task_id r) T in
  inflight_ok P' T' w (delete i l) ∧
  (settled P T l → is_reply_state (pt_state r) = true → settled P' T' (delete i l)).
Proof.
  intros HG HI Hi Hid P' T'.
  destruct (delete_split _ _ _ Hi) as (l1&l2&Hl&->).
  assert (prove_ids l = prove_ids l1 ++ pt_task_id p :: prove_ids l2) as Ep
    by by rewrite Hl, omap_app, omap_cons_opt.
  assert (agg_ids l = agg_ids (l1 ++ l2)) as Ea
    by by rewrite Hl, !omap_app, omap_cons_opt.
  assert (pt_ids P' = pt_ids P) as EP.
  { apply pt_later_ids. by destruct (reply_prove_later now r err P). }
  assert (at_ids T' = at_ids T) as ET.
  { eapply unwait_ids, clear_if_unwait; apply HG. }
  split.
  - destruct HI. rewrite Ep in io_prove_nodup0. rewrite Ep in io_prove0.
    assert (pt_task_id p ∉ prove_ids (l1 ++ l2)) as Hnew.
    { apply NoDup_app in io_prove_nodup0 as (_&Hd&[Hn _]%NoDup_cons).
      rewrite omap_app. intros [Hx|Hx]%elem_of_app; [|done].
      apply (Hd _ Hx). by left. }
    split.
    + rewrite omap_app. rewrite <-Permutation_middle in io_prove_nodup0.
      by apply NoDup_cons in io_prove_nodup0 as [_ ?].
    + intros id Hin. destruct (io_prove0 id) as (?&Ha&Hpr).
      { rewrite omap_app in Hin. set_solver. }
      split_and!; [done|by rewrite ET, EP|].
      intros q [Hq|[Hq _]]%reply_prove_elem Hqid; [by apply Hpr|].
      destruct Hnew. by rewrite <-Hid, <-Hq, Hqid.
    + by rewrite <-Ea.
    + rewrite <-Ea. intros id (u&Hu&<-&<-)%io_agg0.
      destruct (clear_if_elem' (pt_state r =? TASK_STATE_SUCCESS) (pt_task_id r) T u)
        as (t&?&?&?); [apply HG..|done|]. by exists t.
  - intros [] Hr. split.
    + intros q Hq Hst. pose proof Hq as [HqP|[Hqid _]]%reply_prove_elem.
      * pose proof (se_prove0 q HqP Hst) as Hx. rewrite Ep in Hx. rewrite omap_app.
        apply elem_of_app in Hx as [|[Hqid|]%elem_of_cons]; [set_solver| |set_solver].
        exfalso. eapply (reply_prove_answered now r err P q); try done; [apply HG|congruence].
      * exfalso. eapply (reply_prove_answered now r err P q); try done. apply HG.
    + rewrite <-Ea. intros t Ht Hst.
      apply clear_if_elem in Ht as (u&?&->&E2); [|apply HG..]. apply se_agg0; congruence.
Qed.
(** *** An aggregation task comes back *)

Lemma inflight_agg_ok P T w l t r :
  inflight_ok P T w l → TAgg t ∈ l → at_task_id r = at_task_id t → agg_reply_ok T r.
Proof.
  intros [] Hl Hid _. left. rewrite Hid.
  assert (at_task_id t ∈ agg_ids l) as (u&Hu&Huid&Hs)%io_agg0
    by (apply list_elem_of_omap; by eexists).
  destruct (find_first _ T) as [q|] eqn:Hf; [by eexists|].
  apply find_first_None in Hf. eapply Forall_forall in Hf; [|exact Hu].
  unfold awaits_agg in Hf. by rewrite Huid, String.eqb_refl, Hs in Hf.
Qed.

Lemma reply_agg_elem now r err T t :
  t ∈ reply_agg now r err T →
  t ∈ T ∨ at_task_id t = at_task_id r ∧
          (is_reply_state (at_state r) = true → at_state t = at_state r).
Proof.
  unfold reply_agg. destruct (find_first _ T) as [q|] eqn:Hf; [|by left].
  pose proof (on_task_agg_spec now r q err) as Hm.
  destruct (on_task _ _ _ _) as [[src q'] e]. destruct Hm as (_&_&_&_&Hi&_&_&Hs).
  destruct (find_first_split (awaits_agg (at_task_id r)) (λ _, q') T q Hf) as (l1&l2&->&E2).
  cbn [fst snd]. rewrite E2. apply find_first_Some in Hf as [_ [Hid _]%awaits_agg_true].
  intros [Hp|[->|Hp]%elem_of_cons]%elem_of_app; [left; set_solver| |left; set_solver].
  right. split; [congruence|]. intros Hr. by rewrite Hs, Hr.
Qed.

Lemma reply_agg_other now r err T u :
  u ∈ T → at_task_id u ≠ at_task_id r → u ∈ reply_agg now r err T.
Proof.
  intros Hu Hne. unfold reply_agg. destruct (find_first _ T) as [q|] eqn:Hf; [|done].
  destruct (find_first_split (awaits_agg (at_task_id r))
    (λ _, (on_task now r q err).1.2) T q Hf) as (l1&l2&HT&->).
  apply find_first_Some in Hf as [_ [Hid _]%awaits_agg_true].
  assert (u ≠ q) by congruence. rewrite HT in Hu. set_solver.
Qed.

Lemma reply_agg_answered now r err T t :
  NoDup (at_ids T) → is_reply_state (at_state r) = true →
  t ∈ reply_agg now r err T → at_task_id t = at_task_id r →
  at_state t ≠ TASK_STATE_PROCESSING.
Proof.
  intros Hnd Hr Hp Hid Hst. unfold reply_agg in Hp.
  destruct (find_first _ T) as [q|] eqn:Hf.
  - pose proof (on_task_agg_spec now r q err) as Hm.
    destruct (on_task _ _ _ _) as [[src q'] e]. destruct Hm as (_&_&_&_&Hi&_&_&Hs).
    rewrite Hr in Hs.
    destruct (find_first_split (awaits_agg (at_task_id r)) (λ _, q') T q Hf) as (l1&l2&HP&E2).
    cbn [fst snd] in Hp. rewrite E2 in Hp.
    apply find_first_Some in Hf as [_ [Hqid _]%awaits_agg_true].
    assert (t = q') as ->; [|by rewrite Hs in Hst; rewrite Hst in Hr].
    eapply (NoDup_fmap_inj_elem at_task_id (l1 ++ q' :: l2));
      [|done|set_solver|congruence].
    rewrite HP, fmap_app, fmap_cons, <-Hi in Hnd. by rewrite fmap_app.
  - apply find_first_None in Hf. eapply Forall_forall in Hf; [|exact Hp].
    unfold awaits_agg in Hf. by rewrite Hid, String.eqb_refl, Hst in Hf.
Qed.

Lemma reply_agg_waits now r err T :
  NoDup (T ≫= child_ids) → waiters_unprocessed T →
  NoDup (reply_agg now r err T ≫= child_ids) ∧
  waiters_unprocessed (reply_agg now r err T) ∧
  at_ids (reply_agg now r err T) = at_ids T.
Proof.
  intros Hnd Hw. destruct (reply_agg_later now r err T Hw) as [HT _]. split_and!.
  - assert (reply_agg now r err T ≫= child_ids = T ≫= child_ids) as ->; [|done].
    clear -HT. induction HT as [|t t' T T' Ht _ IH]; [done|].
    by rewrite !bind_cons, IH, (at_later_child_ids _ _ Ht).
  - intros t' Ht' Hc. destruct (Forall2_elem_r _ _ _ _ HT Ht') as (t&Ht&Hl).
    rewrite (at_later_child_ids _ _ Hl) in Hc. rewrite (al_waits _ _ Hl Hc). auto.
  - by apply at_later_ids.
Qed.

Lemma inflight_reply_agg now err P T w l i t r :
  graph_inv P T → inflight_ok P T w l → l !! i = Some (TAgg t) →
  at_task_id r = at_task_id t →
  let T' := clear_if (at_state r =? TASK_STATE_SUCCESS) (at_task_id r)
              (reply_agg now r err T) in
  inflight_ok P T' w (delete i l) ∧
  (settled P T l → is_reply_state (at_state r) = true → settled P T' (delete i l)).
Proof.
  intros HG HI Hi Hid T'.
  destruct (reply_agg_waits now r err T (gi_wait _ _ HG) (gi_waiters _ _ HG)) as (Hw1&Hw2&ET1).
  destruct (delete_split _ _ _ Hi) as (l1&l2&Hl&->).
  assert (agg_ids l = agg_ids l1 ++ at_task_id t :: agg_ids l2) as Ea
    by by rewrite Hl, omap_app, omap_cons_opt.
  assert (prove_ids l = prove_ids (l1 ++ l2)) as Ep
    by by rewrite Hl, !omap_app, omap_cons_opt.
  assert (at_ids T' = at_ids T) as ET.
  { rewrite <-ET1. by eapply unwait_ids, clear_if_unwait. }
  split.
  - destruct HI. rewrite Ea in io_agg_nodup0. rewrite Ea in io_agg0.
    assert (at_task_id t ∉ agg_ids (l1 ++ l2)) as Hnew.
    { apply NoDup_app in io_agg_nodup0 as (_&Hd&[Hn _]%NoDup_cons).
      rewrite omap_app. intros [Hx|Hx]%elem_of_app; [|done]. apply (Hd _ Hx). by left. }
    split; rewrite <-?Ep, ?ET; [done..| |].
    + rewrite omap_app. rewrite <-Permutation_middle in io_agg_nodup0.
      by apply NoDup_cons in io_agg_nodup0 as [_ ?].
    + intros id Hin. destruct (io_agg0 id) as (u&Hu&Huid&Hus).
      { rewrite omap_app in Hin. set_solver. }
      assert (at_task_id u ≠ at_task_id r) as Hne.
      { intros Heq. apply Hnew. by rewrite <-Hid, <-Heq, Huid. }
      destruct (clear_if_elem' (at_state r =? TASK_STATE_SUCCESS) (at_task_id r) _ u Hw1 Hw2
        (reply_agg_other now r err T u Hu Hne)) as (v&?&?&?).
      exists v. split_and!; [done|congruence..].
  - intros [] Hr. split; rewrite <-?Ep; [done|].
    intros v (u&Hu&Ev&Es)%clear_if_elem Hst; [|done..].
    rewrite Ev. rewrite Es in Hst.
    pose proof Hu as [HuT|[Huid _]]%reply_agg_elem.
    + pose proof (se_agg0 u HuT Hst) as Hx. rewrite Ea in Hx. rewrite omap_app.
      apply elem_of_app in Hx as [|[Hqid|]%elem_of_cons]; [set_solver| |set_solver].
      exfalso. eapply (reply_agg_answered now r err T u); try done; [apply HG|congruence].
    + exfalso. eapply (reply_agg_answered now r err T u); try done. apply HG.
Qed.

(** *** Dispatch *)

Lemma inflight_dispatch s w s' w' l :
  stage_inv s w → lists_after s w s' w' →
  (inflight_ok (stage_prove_tasks s) (stage_agg_tasks s) w l →
   inflight_ok (stage_prove_tasks s') (stage_agg_tasks s') w' l) ∧
  (settled (stage_prove_tasks s) (stage_agg_tasks s) l →
   settled (stage_prove_tasks s') (stage_agg_tasks s') l).
Proof.
  intros Hi [Hw Hdone Hnew Hagg]. split; intros [].
  - assert (∀ id, id ∈ prove_ids l → ∀ p, p ∈ stage_prove_tasks s' →
      pt_task_id p = id → pt_state p = TASK_STATE_PROCESSING) as Hst.
    { intros id Hid p [Hp|[Hd _]]%Hnew Hpid.
      - by apply (io_prove0 id Hid).
      - subst id. by destruct Hd; apply io_prove0. }
    destruct Hagg as [->|(HT0&_&Hids)].
    + split; try done. intros id Hid. split_and!; [eapply drawn_mono; [done|]; by apply io_prove0| |by apply Hst].
      intros Ha. destruct (stage_is_tasks_gen_done s) eqn:Hg.
      * destruct Hdone as [-> _]; [done|]. by apply io_prove0.
      * destruct (si_start _ _ Hi Hg) as [HT _]. rewrite HT in Ha. by apply elem_of_nil in Ha.
    + split; try done.
      * intros id Hid. split_and!; [eapply drawn_mono; [done|]; by apply io_prove0| |by apply Hst].
        intros [|Hd]%Hids; [done|]. by destruct Hd; apply io_prove0.
      * intros id (t&Ht&_)%io_agg0. rewrite HT0 in Ht. by apply elem_of_nil in Ht.
  - split.
    + intros p [Hp|[_ Hs]]%Hnew Hst; [auto|]. by apply fresh_task_initial, initial_not_processing in Hs.
    + destruct Hagg as [->|(HT0&HS&_)]; [done|]. intros t Ht Hst.
      eapply Forall_forall in HS; [|done]. by apply initial_not_processing in HS.
Qed.
End inflight.
