(* ===== verification/WorkerRun.v ===== *)
(** * WorkerRun: every state of a run satisfies the invariant

    [worker_inv] holds when the loop starts and after every turn, whatever the
    answers, their order, the clock and the files.  The theorems about runs are at
    the end. *)

From S2P Require Import Prelude Text Proto World Tasks Stage AggGraph StageInv StageGen.
From S2P Require Import StageOps StageSteps Database ProverPool ProverClient Worker.
From S2P Require Import WorkerInv.

Abbreviation inflight_okS s w l := (inflight_ok (stage_prove_tasks s) (stage_agg_tasks s) w l).
Abbreviation settledS s l := (settled (stage_prove_tasks s) (stage_agg_tasks s) l).

Section run.
Context `{E : !External} `{J : !Json} `{C : !Client} `{F : !UuidFresh}.

(** ** Operations that advance tasks *)

Definition final_step (s : Stage) : Prop := stage_step s = Snark ∨ stage_step s = End.

(** The operation keeps the request, the step and the finished tasks. *)
Record stage_later (s s' : Stage) : Prop := {
  sl_request : stage_generate_task s' = stage_generate_task s;
  sl_step : stage_step s' = stage_step s;
  sl_gen : stage_is_tasks_gen_done s' = stage_is_tasks_gen_done s;
  sl_prove : Forall (λ p, pt_state p = TASK_STATE_SUCCESS) (stage_prove_tasks s) →
    Forall (λ p, pt_state p = TASK_STATE_SUCCESS) (stage_prove_tasks s');
  sl_agg : Forall (λ t, at_state t = TASK_STATE_SUCCESS) (stage_agg_tasks s) →
    Forall (λ t, at_state t = TASK_STATE_SUCCESS) (stage_agg_tasks s')
}.

Lemma stage_later_trans s1 s2 s3 :
  stage_later s1 s2 → stage_later s2 s3 → stage_later s1 s3.
Proof. intros [] []. split; try congruence; auto. Qed.
Lemma stage_later_refl s : stage_later s s.
Proof. by split. Qed.

Lemma complete_step_later s s' : stage_later s s' → complete_step s → complete_step s'.
Proof.
  intros [E1 E2 E3 HP HT] Hc. unfold complete_step. rewrite E1, E2.
  intros [|[|[]]]%Hc; [by left|by right; left|right; right].
  split; [congruence|auto|]. rewrite E1. destruct ad_agg; [by left|right; auto].
Qed.

Lemma get_split_task_later now s :
  stage_later s (get_split_task now s).2 ∧
  stage_prove_tasks (get_split_task now s).2 = stage_prove_tasks s ∧
  stage_agg_tasks (get_split_task now s).2 = stage_agg_tasks s ∧
  stage_snark_task (get_split_task now s).2 = stage_snark_task s.
Proof. unfold get_split_task, get_task. case_match; by split_and!. Qed.

Lemma on_split_task_later now r s :
  stage_later s (on_split_task now r s).2 ∧
  stage_prove_tasks (on_split_task now r s).2 = stage_prove_tasks s ∧
  stage_agg_tasks (on_split_task now r s).2 = stage_agg_tasks s ∧
  stage_snark_task (on_split_task now r s).2 = stage_snark_task s.
Proof. unfold on_split_task. destruct (on_task _ _ _ _) as [[]]. by split_and!. Qed.

Lemma Forall_success_pt P P' :
  Forall2 pt_later P P' → Forall (λ p, pt_state p = TASK_STATE_SUCCESS) P →
  Forall (λ p, pt_state p = TASK_STATE_SUCCESS) P'.
Proof. induction 1 as [|p p' P P' [] _ IH]; [done|]. intros []%Forall_cons. by constructor; auto. Qed.

Lemma get_prove_task_later fs now s :
  stage_later s (get_prove_task fs now s).2 ∧
  stage_agg_tasks (get_prove_task fs now s).2 = stage_agg_tasks s ∧
  stage_snark_task (get_prove_task fs now s).2 = stage_snark_task s.
Proof.
  unfold get_prove_task. rewrite pick_prove_update. split_and!; [|done..].
  split; simpl; try done. apply Forall_success_pt, update_first_Forall2; [done|].
  intros p _ [Hr%is_ready_not_success _]%andb_true_iff. by split.
Qed.

Lemma on_prove_task_later now r s :
  stage_later s (on_prove_task now r s).2 ∧
  stage_snark_task (on_prove_task now r s).2 = stage_snark_task s.
Proof.
  destruct (on_prove_task_lists now r s) as [HP HT].
  assert (stage_generate_task (on_prove_task now r s).2 = stage_generate_task s ∧
    stage_step (on_prove_task now r s).2 = stage_step s ∧
    stage_is_tasks_gen_done (on_prove_task now r s).2 = stage_is_tasks_gen_done s ∧
    stage_snark_task (on_prove_task now r s).2 = stage_snark_task s) as (?&?&?&?).
  { unfold on_prove_task. destruct (find_first _ _); simpl; [|by case_match].
    destruct (on_prove_task_macro _ _ _ _) as [[]]. simpl. by case_match. }
  split; [|done]. split; rewrite ?HP, ?HT; try done.
  - apply Forall_success_pt. by destruct (reply_prove_later now r (stage_is_error s)
      (stage_prove_tasks s)).
  - intros HS. destruct (_ =? _); [|done].
    by apply (clear_child_in_states (λ st, st = TASK_STATE_SUCCESS)).
Qed.

Lemma Forall_success_at T T' :
  Forall2 at_later T T' → Forall (λ p, at_state p = TASK_STATE_SUCCESS) T →
  Forall (λ p, at_state p = TASK_STATE_SUCCESS) T'.
Proof. induction 1 as [|p p' P P' [] _ IH]; [done|]. intros []%Forall_cons. by constructor; auto. Qed.

Lemma get_agg_task_later now s r s' :
  get_agg_task now s = Ret (r, s') →
  stage_later s s' ∧ stage_prove_tasks s' = stage_prove_tasks s ∧
  stage_snark_task s' = stage_snark_task s ∧
  let test := λ t, negb (has_child t) && is_ready_state (at_state t) in
  stage_agg_tasks s' = update_first test (dispatched_agg now) (stage_agg_tasks s) ∧
  match r with
  | Some t => ∃ t0, find_first test (stage_agg_tasks s) = Some t0 ∧
      at_task_id t = at_task_id t0 ∧ at_state t = TASK_STATE_PROCESSING
  | None => find_first test (stage_agg_tasks s) = None
  end.
Proof.
  unfold get_agg_task. rewrite pick_agg_update. cbv zeta.
  set (test := λ t, negb (has_child t) && is_ready_state (at_state t)).
  assert (∀ s1, s1 = s <| stage_agg_tasks := update_first test (dispatched_agg now)
      (stage_agg_tasks s) |> → stage_later s s1) as HL.
  { intros s1 ->. split; simpl; try done. apply Forall_success_at, update_first_Forall2; [done|].
    intros t _ [Hc%negb_true_iff%has_child_false Hr%is_ready_not_success]%andb_true_iff.
    by split. }
  destruct (find_first test (stage_agg_tasks s)) as [t0|] eqn:Hf; simpl.
  - intros (ins&_&Hr)%bind_Ret. injection Hr as <- <-.
    split_and!; [by apply HL|done..|]. exists t0. by split_and!.
  - intros [= <- <-]. split_and!; [by apply HL|done..].
Qed.

Lemma on_agg_task_later now r s w src s' w' :
  waiters_unprocessed (stage_agg_tasks s) →
  on_agg_task now r s w = Ret ((src, s'), w') →
  stage_later s s' ∧ stage_snark_task s' = stage_snark_task s.
Proof.
  intros Hw (HP&HT&?&?&?&?&_)%on_agg_task_run. split; [|done].
  split; rewrite ?HP, ?HT; try done. intros HS.
  destruct (reply_agg_later now r (stage_is_error s) _ Hw) as [HL _].
  pose proof (Forall_success_at _ _ HL HS).
  destruct (_ =? _); [|done].
  by apply (clear_child_in_states (λ st, st = TASK_STATE_SUCCESS)).
Qed.

(** ** The invariant *)


Record run_inv (g : GenerateTask) (s : Stage) (l : list Task) (w : World) : Prop := {
  ri_request : stage_generate_task s = g;
  ri_stage : stage_inv s w;
  ri_inflight : inflight_okS s w l;
  ri_complete : complete_step s;
  ri_snark : sn_state (stage_snark_task s) ≠ TASK_STATE_INITIAL → final_step s;
  ri_snark_out : ∀ t, TSnark t ∈ l → final_step s
}.

(** A step that keeps the request, the step and the snark task. *)
Lemma run_inv_later g s l w s' l' w' :
  run_inv g s l w → stage_later s s' → stage_snark_task s' = stage_snark_task s →
  stage_inv s' w' → inflight_okS s' w' l' → (∀ t, TSnark t ∈ l' → TSnark t ∈ l) →
  run_inv g s' l' w'.
Proof.
  intros [] HL Es Hi Hl Hsub. pose proof HL as [E1 E2 _ _ _].
  split; try done; rewrite ?E1, ?Es; unfold final_step in *; rewrite ?E2; try done.
  - by eapply complete_step_later.
  - eauto.
Qed.

Definition no_snark (l : list Task) : Prop := ∀ t, TSnark t ∉ l.

(** [l'] is [l] with the task of a getter. *)
Definition keeps_inv (g : GenerateTask) (w : World) (s s' : Stage) (out : list Task) : Prop :=
  ∀ l, run_inv g s l w →
    run_inv g s' (l ++ out) w ∧ (settledS s l → settledS s' (l ++ out)).

Lemma keeps_inv_trans g w s1 s2 s3 o1 o2 :
  keeps_inv g w s1 s2 o1 → keeps_inv g w s2 s3 o2 → keeps_inv g w s1 s3 (o1 ++ o2).
Proof.
  intros H1 H2 l Hr. destruct (H1 l Hr) as [Hr1 Hs1].
  destruct (H2 (l ++ o1) Hr1) as [Hr2 Hs2]. rewrite app_assoc. auto.
Qed.
Lemma keeps_inv_refl g w s : keeps_inv g w s s [].
Proof. intros l Hr. by rewrite app_nil_r. Qed.

Lemma snark_not_out (l : list Task) x t :
  TSnark t ∈ l ++ [x] → (∀ u, x ≠ TSnark u) → TSnark t ∈ l.
Proof. intros [|<-%list_elem_of_singleton]%elem_of_app Hx; [done|]. by destruct (Hx t). Qed.

Lemma spawn_split now g w s :
  keeps_inv g w s (get_split_task now s).2
    (option_list (TSplit <$> (get_split_task now s).1)).
Proof.
  intros l Hr. destruct (get_split_task_later now s) as (HL&EP&ET&ES).
  assert (stage_inv (get_split_task now s).2 w) as Hi.
  { eapply stage_inv_ext; [apply Hr|done|done| |done]. apply HL. }
  destruct (get_split_task now s) as [[t|] s']; cbn [fst snd option_list fmap option_fmap option_map] in *.
  - destruct (inflight_other (stage_prove_tasks s) (stage_agg_tasks s) w l (TSplit t))
      as [H1 H2]; [done..|]. split; [|by rewrite EP, ET].
    eapply run_inv_later; [done..| |].
    + rewrite EP, ET. apply H1, Hr.
    + intros u Hu. by eapply snark_not_out.
  - rewrite app_nil_r, EP, ET. split; [|done]. eapply run_inv_later; [done..| |done].
    rewrite EP, ET. apply Hr.
Qed.

Lemma spawn_prove fs now g w s :
  keeps_inv g w s (get_prove_task fs now s).2
    (option_list (TProve <$> (get_prove_task fs now s).1)).
Proof.
  intros l Hr. destruct (get_prove_task_later fs now s) as (HL&ET&ES).
  pose proof (get_prove_task_inv fs now s w (ri_stage _ _ _ _ Hr)) as Hi.
  pose proof (ri_inflight _ _ _ _ Hr) as Hf. pose proof (ri_stage _ _ _ _ Hr) as Hs.
  revert HL ET ES Hi. unfold get_prove_task. rewrite pick_prove_update.
  set (test := λ p, is_ready_state (pt_state p) && fs_exists fs (pt_segment p)).
  destruct (find_first test (stage_prove_tasks s)) as [p|] eqn:Hp; simpl; intros HL ET ES Hi.
  - assert (pt_state p ≠ TASK_STATE_PROCESSING) as Hne.
    { apply find_first_Some in Hp as [_ [Hrd _]%andb_true_iff]. by intros Hst; rewrite Hst in Hrd. }
    destruct (inflight_pick_prove (stage_prove_tasks s) (stage_agg_tasks s) w l test now p)
      as [H1 H2]; [apply Hs|apply Hs|done..|].
    split; [|auto]. eapply run_inv_later; [done..|by apply H1|].
    intros u Hu. by eapply snark_not_out.
  - assert (update_first test (dispatched_prove now) (stage_prove_tasks s) =
            stage_prove_tasks s) as Hsame.
    { destruct (update_first_split test (dispatched_prove now) (stage_prove_tasks s))
        as [[Hu _]|(l1&x&l2&Hl&Hx&_&_)]; [done|].
      apply find_first_None in Hp. rewrite Hl in Hp.
      apply Forall_app in Hp as [_ [Hp _]%Forall_cons]. congruence. }
    rewrite app_nil_r. split; [|by rewrite Hsame].
    eapply run_inv_later; [done..| |done]. simpl. by rewrite Hsame.
Qed.

Lemma spawn_agg now g w s r s' :
  get_agg_task now s = Ret (r, s') → keeps_inv g w s s' (option_list (TAgg <$> r)).
Proof.
  intros Hg l Hr. pose proof (ri_stage _ _ _ _ Hr) as Hs.
  pose proof (get_agg_task_inv now s w r s' Hs Hg) as Hi.
  destruct (get_agg_task_later now s r s' Hg) as (HL&EP&ES&ET&Hres).
  destruct r as [t|]; simpl.
  - destruct Hres as (t0&Hf&Hid&_).
    assert (at_state t0 ≠ TASK_STATE_PROCESSING) as Hne.
    { apply find_first_Some in Hf as [_ [_ Hrd]%andb_true_iff]. by intros Hst; rewrite Hst in Hrd. }
    destruct (inflight_pick_agg (stage_prove_tasks s) (stage_agg_tasks s) w l _ now t0 t
      (gi_at _ _ (si_graph _ _ Hs)) Hf Hne Hid) as [H1 H2].
    rewrite EP, ET. split; [|auto]. eapply run_inv_later; [done..| |].
    + rewrite EP, ET. apply H1, Hr.
    + intros u Hu. by eapply snark_not_out.
  - assert (stage_agg_tasks s' = stage_agg_tasks s) as ET'.
    { rewrite ET. destruct (update_first_split (λ t, negb (has_child t) &&
        is_ready_state (at_state t)) (dispatched_agg now) (stage_agg_tasks s))
        as [[Hu _]|(l1&x&l2&Hl&Hx&_&_)]; [done|].
      apply find_first_None in Hres. rewrite Hl in Hres.
      apply Forall_app in Hres as [_ [Hp _]%Forall_cons]. congruence. }
    rewrite app_nil_r, EP, ET'. split; [|done].
    eapply run_inv_later; [done..| |done]. rewrite EP, ET'. apply Hr.
Qed.

Lemma spawn_snark now g w s :
  final_step s →
  keeps_inv g w s (get_snark_task now s).2
    (option_list (TSnark <$> (get_snark_task now s).1)).
Proof.
  intros Hfin l Hr. unfold get_snark_task.
  destruct (get_task now (stage_snark_task s)) as [[t|] t'] eqn:Hg; simpl.
  - destruct (inflight_other (stage_prove_tasks s) (stage_agg_tasks s) w l (TSnark t))
      as [H1 H2]; [done..|].
    split; [|exact H2]. destruct Hr. split; simpl; auto.
    + by eapply stage_inv_ext.
    + intros Hst. destruct (ri_complete0 Hst) as [|[|[]]]; [by left|by right; left|].
      right; right. by split.
  - assert (t' = stage_snark_task s) as ->.
    { unfold get_task in Hg. case_match; by simplify_eq. }
    rewrite app_nil_r. by destruct s.
Qed.

Lemma spawn_tasks_inv now g s w tasks s' w' :
  spawn_tasks now s w = Ret ((tasks, s'), w') → w' = w ∧ keeps_inv g w s s' tasks.
Proof.
  unfold spawn_tasks. destruct (stage_step s) eqn:Hst.
  1-2,4,6: by intros [[= <- <-] <-]%M_mret_Ret; split; [|apply keeps_inv_refl].
  - pose proof (spawn_split now g w s) as H1.
    destruct (get_split_task now s) as [sp s1]. cbn [fst snd] in H1.
    intros (w1&w1'&[= <- <-]&H)%M_bind_Ret.
    pose proof (spawn_prove (w_fs w) now g w s1) as H2.
    set (b := Z.of_nat _ <? _) in H. 
    assert (∃ pr s2, (if b then get_prove_task (w_fs w) now s1 else (None, s1)) = (pr, s2) ∧
      keeps_inv g w s1 s2 (option_list (TProve <$> pr))) as (pr&s2&E2&H2').
    { destruct b.
      - destruct (get_prove_task (w_fs w) now s1) as [pr s2]. by exists pr, s2.
      - exists None, s1. split; [done|apply keeps_inv_refl]. }
    rewrite E2 in H. apply M_bind_Ret in H as ([ag s3]&w3&H3&[[= <- <-] <-]%M_mret_Ret).
    assert (w3 = w ∧ keeps_inv g w s2 s3 (option_list (TAgg <$> ag))) as [-> H3'].
    { destruct (_ && _).
      - apply lift_Ret in H3 as [H3 <-]. split; [done|]. by eapply spawn_agg.
      - apply M_mret_Ret in H3 as [[= <- <-] <-]. split; [done|apply keeps_inv_refl]. }
    split; [done|]. rewrite app_assoc.
    eapply keeps_inv_trans; [|done]. by eapply keeps_inv_trans.
  - pose proof (spawn_snark now g w s (or_introl Hst)) as H1.
    destruct (get_snark_task now s) as [sn s1]. by intros [[= <- <-] <-]%M_mret_Ret.
Qed.

(** ** Answers *)

Lemma inflight_ok_world P T w w' l :
  (w_uuids w ≤ w_uuids w')%nat → inflight_ok P T w l → inflight_ok P T w' l.
Proof.
  intros Hw [? Hp ? ?]. split; try done. intros id Hid. destruct (Hp id Hid) as (?&?&?).
  split_and!; [by eapply drawn_mono|done..].
Qed.

Lemma run_inv_world g s l w w' :
  (w_uuids w ≤ w_uuids w')%nat → run_inv g s l w → run_inv g s l w'.
Proof.
  intros Hw []. split; try done; [by eapply stage_inv_ext|by eapply inflight_ok_world].
Qed.

(** An answer that ends the attempt: not the code the client maps to "processing". *)
Definition settles (r : Task) : Prop :=
  match r with
  | TProve p => is_reply_state (pt_state p) = true
  | TAgg t => is_reply_state (at_state t) = true
  | _ => True
  end.

Lemma on_answer_split now g s l w i t e :
  run_inv g s l w → l !! i = Some (TSplit t) →
  run_inv g (on_split_task now (client_split t e) s).2 (delete i l) w ∧
  (settledS s l → settledS (on_split_task now (client_split t e) s).2 (delete i l)).
Proof.
  intros Hr Hi. destruct (on_split_task_later now (client_split t e) s) as (HL&EP&ET&ES).
  destruct (inflight_back (stage_prove_tasks s) (stage_agg_tasks s) w l i _ Hi)
    as [H1 H2]; [done..|]. rewrite EP, ET. split; [|done].
  eapply run_inv_later; [done..| |rewrite EP, ET; apply H1, Hr|].
  - eapply stage_inv_ext; [apply Hr|done|done|apply HL|done].
  - intros u. apply sublist_subseteq, sublist_delete.
Qed.

Lemma on_answer_prove now g s l w i t e :
  run_inv g s l w → l !! i = Some (TProve t) →
  let r := client_prove t e in
  run_inv g (on_prove_task now r s).2 (delete i l) w ∧
  (settledS s l → settles (TProve r) → settledS (on_prove_task now r s).2 (delete i l)).
Proof.
  intros Hr Hi r. pose proof (ri_inflight _ _ _ _ Hr) as Hf.
  destruct (on_prove_task_later now r s) as [HL ES].
  destruct (on_prove_task_lists now r s) as [EP ET].
  pose proof (client_prove_id t e) as Hid.
  destruct (inflight_reply_prove now (stage_is_error s) _ _ w l i t r
    (si_graph _ _ (ri_stage _ _ _ _ Hr)) Hf Hi Hid) as [H1 H2].
  rewrite EP, ET. split; [|auto].
  eapply run_inv_later; [done|done|done| |rewrite EP, ET; by apply H1|].
  - apply on_prove_task_inv; [apply Hr|].
    eapply inflight_prove_ok; [apply (ri_stage _ _ _ _ Hr)|done| |exact Hid].
    by eapply list_elem_of_lookup_2.
  - intros u. apply sublist_subseteq, sublist_delete.
Qed.

Lemma on_answer_agg now g s l w i t e d s' w' :
  run_inv g s l w → l !! i = Some (TAgg t) →
  on_agg_task now (client_aggregate t e) s w = Ret ((d, s'), w') →
  run_inv g s' (delete i l) w' ∧
  (settledS s l → settles (TAgg (client_aggregate t e)) → settledS s' (delete i l)) ∧
  (w_uuids w ≤ w_uuids w')%nat.
Proof.
  intros Hr Hi Hon. pose proof (ri_inflight _ _ _ _ Hr) as Hf.
  pose proof (si_graph _ _ (ri_stage _ _ _ _ Hr)) as HG.
  pose proof (client_aggregate_id t e) as Hid.
  destruct (on_agg_task_later _ _ _ _ _ _ _ (gi_waiters _ _ HG) Hon) as [HL ES].
  destruct (on_agg_task_run _ _ _ _ _ _ _ Hon) as (EP&ET&_&_&_&_&Hw).
  destruct (inflight_reply_agg now (stage_is_error s) _ _ w l i t (client_aggregate t e)
    HG Hf Hi Hid) as [H1 H2].
  rewrite EP, ET. split_and!; [|auto|lia].
  eapply run_inv_later; [done..| | |].
  - eapply on_agg_task_inv; [apply Hr| |done].
    eapply inflight_agg_ok; [done| |exact Hid]. by eapply list_elem_of_lookup_2.
  - rewrite EP, ET. eapply inflight_ok_world; [|done]. lia.
  - intros u. apply sublist_subseteq, sublist_delete.
Qed.

Lemma on_answer_snark now g s l w i t r d s' w' :
  run_inv g s l w → l !! i = Some (TSnark t) →
  on_snark_task now r s w = Ret ((d, s'), w') →
  run_inv g s' (delete i l) w' ∧ (settledS s l → settledS s' (delete i l)) ∧
  (w_uuids w ≤ w_uuids w')%nat.
Proof.
  intros Hr Hi Hon.
  pose proof (ri_snark_out _ _ _ _ Hr _ (list_elem_of_lookup_2 _ _ _ Hi)) as Hfin.
  unfold on_snark_task in Hon. apply M_bind_Ret in Hon as (u&w2&Hc&Hon).
  apply create_or_panic_uuids in Hc.
  destruct (on_task now r (stage_snark_task s) (stage_is_error s)) as [[src dst] err].
  apply M_mret_Ret in Hon as [[= <- <-] <-].
  destruct (inflight_back (stage_prove_tasks s) (stage_agg_tasks s) w l i _ Hi)
    as [H1 H2]; [done..|].
  split_and!; [|simpl; auto|lia]. apply (run_inv_world _ _ _ w); [lia|].
  destruct Hr. split; simpl; auto.
  - by eapply stage_inv_ext.
  - intros Hst. destruct (ri_complete0 Hst) as [|[|[]]]; [by left|by right; left|].
    right; right. by split.
Qed.

(** The stage after the [i]-th call in flight answered [r]. *)
Lemma on_answer_inv now g s l w i t e r db s' db' w' :
  run_inv g s l w → l !! i = Some t → answer t e = Some r →
  on_answer now r s db w = Ret ((s', db'), w') →
  run_inv g s' (delete i l) w' ∧
  (settledS s l → settles r → settledS s' (delete i l)) ∧ (w_uuids w ≤ w_uuids w')%nat.
Proof.
  intros Hr Hi Ha. destruct t as [t|t|t|t], e as [e|e|e|e]; simplify_eq/=.
  - pose proof (on_answer_split now g s l w i t e Hr Hi) as [H1 H2].
    destruct (on_split_task now (client_split t e) s) as [d s1].
    intros [[= <- <-] <-]%M_mret_Ret. split_and!; [done|auto|done].
  - intros [[= <- <-] <-]%M_mret_Ret.
    destruct (on_answer_prove now g s l w i t e Hr Hi) as [H1 H2]. by split_and!.
  - intros ([d s1]&w1&Hon&[[= <- <-] <-]%M_mret_Ret)%M_bind_Ret. by eapply on_answer_agg.
  - intros ([d s1]&w1&Hon&[[= <- <-] <-]%M_mret_Ret)%M_bind_Ret.
    destruct (on_answer_snark _ _ _ _ _ _ _ _ _ _ _ Hr Hi Hon) as (H1&H2&H3).
    split_and!; [done|auto|done].
Qed.

(** ** Dispatch *)

Lemma dispatch_final feature s w s' w' :
  dispatch feature s w = Ret (s', w') →
  (final_step s → final_step s') ∧
  (sn_state (stage_snark_task s') ≠ TASK_STATE_INITIAL →
   sn_state (stage_snark_task s) ≠ TASK_STATE_INITIAL ∨ final_step s').
Proof.
  unfold dispatch, final_step. destruct (stage_step s) eqn:Hst.
  - intros (s1&w1&H1&[<- <-]%M_mret_Ret)%M_bind_Ret. unfold gen_split_task in H1.
    apply M_bind_Ret in H1 as (u&w2&_&H1).
    apply M_bind_Ret in H1 as (id&w3&_&[<- <-]%M_mret_Ret). split; [by intros [|]|by left].
  - intros [<- <-]%M_mret_Ret. split; [by rewrite Hst|by left].
  - unfold dispatch_prove. intros (s1&w1&H1%gen_prove_task_keeps&H)%M_bind_Ret.
    split; [by intros [|]|].
    assert (∀ s2 w2, stage_snark_task s2 = stage_snark_task s →
      finish_prove s2 w2 = Ret (s', w') →
      sn_state (stage_snark_task s') ≠ TASK_STATE_INITIAL →
      sn_state (stage_snark_task s) ≠ TASK_STATE_INITIAL ∨
      stage_step s' = Snark ∨ stage_step s' = End) as Hfin.
    { intros s2 w2 Es [_ [->|(_&_&[(->&->&_)|(->&_)])]]%finish_prove_cases; rewrite ?Es; auto. }
    pose proof (ke_snark _ _ H1) as E1.
    destruct (_ && _); [|by eapply Hfin].
    case_decide; [apply M_mret_Ret in H as [<- <-]; simpl; rewrite E1; auto|].
    apply M_bind_Ret in H as (s2&w2&H2%on_split_done_keeps&H). eapply Hfin; [|done].
    by rewrite (ke_snark _ _ H2).
  - intros (u&w1&_&H)%M_bind_Ret.
    apply M_bind_Ret in H as (s1&w2&_&[<- <-]%M_mret_Ret). split; [by intros [|]|]. by right; left.
  - intros [<- <-]%M_mret_Ret. case_match; simpl; rewrite ?Hst; auto.
  - intros [<- <-]%M_mret_Ret. rewrite Hst. auto.
Qed.

Lemma dispatch_run_inv feature g s l w s' w' :
  run_inv g s l w → dispatch feature s w = Ret (s', w') →
  run_inv g s' l w' ∧ (settledS s l → settledS s' l).
Proof.
  intros [] Hd. destruct (dispatch_final _ _ _ _ _ Hd) as [Hf1 Hf2].
  pose proof (dispatch_lists _ _ _ _ _ F ri_stage0 Hd) as HL.
  destruct (inflight_dispatch _ _ _ _ l ri_stage0 HL) as [H1 H2].
  split; [|done]. split; auto.
  - by rewrite (dispatch_request _ _ _ _ _ Hd).
  - by eapply dispatch_inv.
  - by eapply dispatch_complete_step.
  - intros [|]%Hf2; auto.
  - intros t Ht. eapply Hf1, ri_snark_out0, Ht.
Qed.

(** ** A turn of the loop *)

(** The answer a turn takes ends its attempt. *)
Definition turn_settles (ti : TurnInput) : Prop :=
  match ti_event ti with
  | Tick => True
  | Answers _ e => ∀ t r, answer t e = Some r → settles r
  end.

Abbreviation ws_inv g ws w := (run_inv g (ws_stage ws) (ws_inflight ws) w).
Abbreviation ws_settled ws := (settledS (ws_stage ws) (ws_inflight ws)).

Lemma heartbeat_stage id now ws :
  ws_stage (heartbeat id now ws) = ws_stage ws ∧
  ws_inflight (heartbeat id now ws) = ws_inflight ws.
Proof. unfold heartbeat. by repeat case_match. Qed.

Lemma take_event_inv now ev g ws w ws' w' :
  ws_inv g ws w → take_event now ev ws w = Ret (Some ws', w') →
  ws_inv g ws' w' ∧
  (ws_settled ws →
   match ev with Tick => True | Answers _ e => ∀ t r, answer t e = Some r → settles r end →
   ws_settled ws').
Proof.
  intros Hr. destruct ev as [|i e]; simpl; [by intros [[= <-] <-]%M_mret_Ret|].
  destruct (ws_inflight ws !! i) as [t|] eqn:Hi; simpl; [|by intros [[=] _]%M_mret_Ret].
  destruct (answer t e) as [r|] eqn:Ha; [|by intros [[=] _]%M_mret_Ret].
  intros ([s1 db1]&w1&Ho&[[= <-] <-]%M_mret_Ret)%M_bind_Ret. simpl.
  destruct (on_answer_inv _ _ _ _ _ _ _ _ _ _ _ _ _ Hr Hi Ha Ho) as (?&Hs&_). eauto.
Qed.

Lemma loop_turn_inv feature id ti g ws w t w' :
  ws_inv g ws w → loop_turn feature id ti ws w = Ret (Some t, w') →
  ws_inv g (turn_state t) w' ∧
  (ws_settled ws → turn_settles ti → ws_settled (turn_state t)) ∧
  match t with
  | Break ws' => is_success (ws_stage ws') || is_error (ws_stage ws') = true
  | Continue _ => True
  end.
Proof.
  intros Hr. unfold loop_turn, put_fs.
  intros (u&w1&[= <- <-]&H)%M_bind_Ret.
  apply M_bind_Ret in H as (ws1&w2&Htop&H).
  apply M_bind_Ret in H as (u&w3&[= <- <-]&H).
  apply (run_inv_world _ _ _ _ (w <| w_fs := ti_fs_top ti |>)) in Hr; [|done].
  unfold loop_top in Htop.
  apply M_bind_Ret in Htop as ([tasks s1]&w3&Hsp&[<- <-]%M_mret_Ret).
  apply (spawn_tasks_inv _ g) in Hsp as [-> Hk].
  destruct (Hk _ Hr) as [Hr1 Hs1]. clear Hk Hr.
  set (ws1 := ws <| ws_stage := s1 |> <| ws_inflight := ws_inflight ws ++ tasks |>
                 <| ws_last_step := stage_step (ws_stage ws) |>) in *.
  set (w2 := w <| w_fs := ti_fs_top ti |> <| w_fs := ti_fs_bottom ti |>) in *.
  assert (ws_inv g ws1 w2) as Hr2 by by eapply run_inv_world; [|exact Hr1].
  unfold loop_bottom in H. apply M_bind_Ret in H as ([ws2|]&w4&He&H);
    [|by apply M_mret_Ret in H as [[=] _]].
  destruct (take_event_inv _ _ _ _ _ _ _ Hr2 He) as [Hr3 Hs3].
  destruct (_ || _) eqn:Hend.
  - apply M_mret_Ret in H as [[= <-] <-]. split_and!; auto.
  - apply M_bind_Ret in H as (s5&w5&Hd&[[= <-] <-]%M_mret_Ret). cbn [turn_state].
    destruct (dispatch_run_inv _ _ _ _ _ _ _ Hr3 Hd) as [Hr4 Hs4].
    destruct (heartbeat_stage id (ti_now_bottom ti) (ws2 <| ws_stage := s5 |>)) as [E1 E2].
    simpl in *. rewrite E1, E2. split_and!; auto.
Qed.

(** ** A run *)

(** The states at the top of the loop. *)
Inductive loop_reaches (feature : Feature) (task : StageTask) (g : GenerateTask)
    (allowed : TurnInput → Prop) : WorkerState → World → Prop :=
  | reach_start now now' db w ws w' :
      loop_start feature task g now now' db w = Ret (ws, w') →
      loop_reaches feature task g allowed ws w'
  | reach_turn ti ws w ws' w' :
      loop_reaches feature task g allowed ws w → allowed ti →
      loop_turn feature (stg_id task) ti ws w = Ret (Some (Continue ws'), w') →
      loop_reaches feature task g allowed ws' w'.

Lemma run_inv_new g w : gt_from_step g ≠ Snark → gt_from_step g ≠ End →
  run_inv g (Stage_new g) [] w ∧ settledS (Stage_new g) [].
Proof.
  intros H1 H2. split.
  - split; simpl; try done.
    + apply stage_inv_new.
    + split; simpl; try apply NoDup_nil_2; by intros ? ?%elem_of_nil.
    + intros [|]; done.
    + by intros t ?%elem_of_nil.
  - split; by intros ? ?%elem_of_nil.
Qed.

Lemma loop_start_inv feature task g now now' db w ws w' :
  gt_from_step g ≠ Snark → gt_from_step g ≠ End →
  loop_start feature task g now now' db w = Ret (ws, w') →
  ws_inv g ws w' ∧ ws_settled ws.
Proof.
  intros H1 H2. unfold loop_start. intros (s&w1&Hd&[<- <-]%M_mret_Ret)%M_bind_Ret. simpl.
  destruct (run_inv_new g w H1 H2) as [Hr Hs].
  destruct (dispatch_run_inv _ _ _ _ _ _ _ Hr Hd) as [? ?]. auto.
Qed.

Lemma loop_reaches_inv feature task g allowed ws w :
  gt_from_step g ≠ Snark → gt_from_step g ≠ End →
  loop_reaches feature task g allowed ws w →
  ws_inv g ws w ∧ ((∀ ti, allowed ti → turn_settles ti) → ws_settled ws).
Proof.
  intros H1 H2. induction 1 as [now now' db w ws w' Hst|ti ws w ws' w' _ [IH1 IH2] Hal Ht].
  - destruct (loop_start_inv _ _ _ _ _ _ _ _ _ H1 H2 Hst). auto.
  - destruct (loop_turn_inv _ _ _ _ _ _ _ _ IH1 Ht) as (?&?&_). simpl in *. auto.
Qed.

End run.
