(* ===== verification/TaskManager.v ===== *)
(** * TaskManager: the queue of proofs ([proof-service/src/stage/stage_worker.rs])

    [TaskManager] runs [run_stage_task] for the tasks of a bounded channel, as many at a
    time as its semaphore has permits.  The service fills the channel, at its start from
    the database.  A step is what happens between two awaits of [process_tasks], of a
    sender, or of a running task. *)

From S2P Require Import Prelude Text Proto Database.

(** ** Code outside the repository: tokio's channel and semaphore

    A bounded [mpsc::channel] keeps the order; a [Semaphore] counts permits. *)
Class Tokio := {
  channel : Type;
  mpsc_channel : nat → channel;
  contents : channel → list StageTask;
  capacity : channel → nat;
  try_send : StageTask → channel → option channel;
  recv : channel → option (StageTask * channel);
  mpsc_channel_new n : contents (mpsc_channel n) = [] ∧ capacity (mpsc_channel n) = n;
  try_send_room t c : (length (contents c) < capacity c)%nat →
    ∃ c', try_send t c = Some c' ∧ contents c' = contents c ++ [t] ∧ capacity c' = capacity c;
  try_send_full t c : (capacity c ≤ length (contents c))%nat → try_send t c = None;
  recv_empty c : contents c = [] → recv c = None;
  recv_first c t ts : contents c = t :: ts →
    ∃ c', recv c = Some (t, c') ∧ contents c' = ts ∧ capacity c' = capacity c;
  semaphore : Type;
  semaphore_new : nat → semaphore;
  permits : semaphore → nat;
  acquire : semaphore → option semaphore;
  release : semaphore → semaphore;
  semaphore_new_permits n : permits (semaphore_new n) = n;
  acquire_none s : permits s = 0%nat → acquire s = None;
  acquire_some s n : permits s = S n → ∃ s', acquire s = Some s' ∧ permits s' = n;
  release_permits s : permits (release s) = S (permits s)
}.

Section manager.
Context `{K : !Tokio}.

(** [tm_next]: the task [process_tasks] has received and holds until it has a permit.
    [tm_running]: the tasks spawned with their permit and not finished. *)
Record TaskManager := mkTaskManager {
  tm_task_receiver : channel;
  tm_semaphore : semaphore;
  tm_next : option StageTask;
  tm_running : list StageTask
}.
#[export] Instance TaskManager_settable : Settable TaskManager := λ r,
  mkTaskManager (tm_task_receiver r) (tm_semaphore r) (tm_next r) (tm_running r).

Definition TaskManager_new (max_concurrent_tasks : option nat) : TaskManager :=
  let max_concurrent_tasks := default 1%nat max_concurrent_tasks in
  mkTaskManager (mpsc_channel 256) (semaphore_new max_concurrent_tasks) None [].

(** The first task that does not fit ends the loading. *)
Fixpoint load_tasks (tasks : list StageTask) (c : channel) : channel :=
  match tasks with
  | [] => c
  | task :: tasks =>
      match try_send task c with
      | Some c => load_tasks tasks c
      | None => c
      end
  end.

Definition i32_MAX : Z := 2 ^ 31 - 1.

Definition load_incomplete_tasks_from_db (db : Database) (now : Z) (m : TaskManager) :
    option TaskManager :=
  tasks ← get_incomplete_stage_tasks db (Status.i32 Status.Computing) now i32_MAX;
  Some (m <| tm_task_receiver := load_tasks tasks (tm_task_receiver m) |>).

(** [StageServiceSVC::new]: the manager, loaded and started. *)
Definition start_manager (max_concurrent_tasks : option nat) (db : Database) (now : Z) :
    option TaskManager :=
  load_incomplete_tasks_from_db db now (TaskManager_new max_concurrent_tasks).

(** What can be seen of a manager: a task is sent to it, [run_stage_task] starts with
    it, and ends. *)
Inductive ManagerEvent :=
  | Submit (t : StageTask)
  | Start (t : StageTask)
  | Finish (t : StageTask).

Inductive manager_step : TaskManager → option ManagerEvent → TaskManager → Prop :=
  | manager_submit m t c :
      (* [send] waits until the channel has room *)
      try_send t (tm_task_receiver m) = Some c →
      manager_step m (Some (Submit t)) (m <| tm_task_receiver := c |>)
  | manager_recv m t c :
      tm_next m = None → recv (tm_task_receiver m) = Some (t, c) →
      manager_step m None (m <| tm_task_receiver := c |> <| tm_next := Some t |>)
  | manager_spawn m t s :
      (* [acquire_owned] waits for a permit *)
      tm_next m = Some t → acquire (tm_semaphore m) = Some s →
      manager_step m (Some (Start t))
        (m <| tm_semaphore := s |> <| tm_next := None |>
           <| tm_running := tm_running m ++ [t] |>)
  | manager_finish m l1 t l2 :
      (* the permit is dropped when the task returns, or by a panic's unwinding *)
      tm_running m = l1 ++ t :: l2 →
      manager_step m (Some (Finish t))
        (m <| tm_semaphore := release (tm_semaphore m) |> <| tm_running := l1 ++ l2 |>).

End manager.

(** ** Traces: the events of a run *)

Section trace.
Context {S E : Type} (step : S → option E → S → Prop).
Inductive trace : S → list E → S → Prop :=
  | trace_nil s : trace s [] s
  | trace_silent s s' s'' es : step s None s' → trace s' es s'' → trace s es s''
  | trace_event s s' s'' e es :
      step s (Some e) s' → trace s' es s'' → trace s (e :: es) s''.

Lemma trace_app s s' s'' es es' :
  trace s es s' → trace s' es' s'' → trace s (es ++ es') s''.
Proof. induction 1; cbn; eauto using trace. Qed.
End trace.

(** ** The specification: a queue with a bounded number of places to run *)

Record Queue := mkQueue { q_waiting : list StageTask; q_running : list StageTask }.

Inductive queue_step (max : nat) : Queue → option ManagerEvent → Queue → Prop :=
  | queue_submit ws rs t :
      queue_step max (mkQueue ws rs) (Some (Submit t)) (mkQueue (ws ++ [t]) rs)
  | queue_start t ws rs :
      (length rs < max)%nat →
      queue_step max (mkQueue (t :: ws) rs) (Some (Start t)) (mkQueue ws (rs ++ [t]))
  | queue_finish ws l1 t l2 :
      queue_step max (mkQueue ws (l1 ++ t :: l2)) (Some (Finish t)) (mkQueue ws (l1 ++ l2)).

Definition submitted (es : list ManagerEvent) : list StageTask :=
  omap (λ e, match e with Submit t => Some t | _ => None end) es.
Definition started (es : list ManagerEvent) : list StageTask :=
  omap (λ e, match e with Start t => Some t | _ => None end) es.
Definition finished (es : list ManagerEvent) : list StageTask :=
  omap (λ e, match e with Finish t => Some t | _ => None end) es.

(** Tasks are started in the order they were queued, each once, and run until they
    finish. *)
Lemma queue_trace_order max q es q' :
  trace (queue_step max) q es q' →
  started es ++ q_waiting q' = q_waiting q ++ submitted es ∧
  q_running q ++ started es ≡ₚ finished es ++ q_running q'.
Proof.
  unfold started, submitted, finished. induction 1 as [|? ? ? ? Hs|q1 q2 q3 e es Hs Ht [IH1 IH2]]; [by rewrite !app_nil_r|by inversion Hs|].
  inversion Hs; subst; cbn in *.
  - split; [by rewrite IH1, <-(assoc_L (++))|done].
  - split; [by rewrite IH1|]. rewrite <-IH2. by rewrite <-(assoc_L (++)).
  - split; [done|]. rewrite <-IH2, <-!(assoc_L (++)). cbn. by rewrite <-Permutation_middle.
Qed.
