(* ===== verification/ManagerThms.v ===== *)
(** * ManagerThms: the task manager is a queue

    [TaskManager] implements the specification [Queue]: what it starts and finishes is
    what a first-in first-out queue with as many places as permits would. *)

From S2P Require Import Prelude Text Proto Database TaskManager.

Section theorems.
Context `{K : !Tokio}.
Implicit Types (m : TaskManager) (es : list ManagerEvent).

(** The queue a manager stands for: the task that waits for a permit is its first. *)
Definition queue_of m : Queue :=
  mkQueue (option_list (tm_next m) ++ contents (tm_task_receiver m)) (tm_running m).

(** The permits out are the tasks that run. *)
Record well_formed (max : nat) m : Prop := {
  wf_permits : (permits (tm_semaphore m) + length (tm_running m) = max)%nat;
  wf_capacity : capacity (tm_task_receiver m) = 256%nat;
  wf_room : (length (contents (tm_task_receiver m)) ≤ 256)%nat
}.

Lemma load_tasks_contents tasks c :
  (length (contents c) ≤ capacity c)%nat →
  contents (load_tasks tasks c) = contents c ++ take (capacity c - length (contents c)) tasks ∧
  capacity (load_tasks tasks c) = capacity c.
Proof.
  revert c. induction tasks as [|t tasks IH]; intros c Hc; cbn.
  { by rewrite take_nil, app_nil_r. }
  destruct (decide (length (contents c) < capacity c)%nat) as [Hlt|Hge].
  - destruct (try_send_room t c Hlt) as (c'&->&Hc'&Hcap).
    destruct (IH c') as [-> ->]; [rewrite Hc', Hcap, length_app; cbn; lia|].
    rewrite Hc', Hcap, length_app. split; [|done].
    replace (capacity c - length (contents c))%nat
      with (S (capacity c - (length (contents c) + length [t])))%nat by (cbn; lia).
    by rewrite <-(assoc_L (++)).
  - rewrite try_send_full by lia.
    replace (capacity c - length (contents c))%nat with 0%nat by lia. by rewrite app_nil_r.
Qed.

Lemma start_manager_queue mc db now m :
  start_manager mc db now = Some m →
  ∃ tasks, get_incomplete_stage_tasks db (Status.i32 Status.Computing) now i32_MAX = Some tasks ∧
    queue_of m = mkQueue (take 256 tasks) [] ∧ well_formed (default 1%nat mc) m.
Proof.
  unfold start_manager, load_incomplete_tasks_from_db. intros (tasks&Ht&[= <-])%bind_Some.
  destruct (mpsc_channel_new 256) as [Hnil Hcap].
  destruct (load_tasks_contents tasks (mpsc_channel 256)) as [Hl Hc]; [rewrite Hnil; cbn; lia|].
  rewrite Hnil, Hcap in Hl. cbn in Hl. exists tasks. split; [done|].
  unfold queue_of. cbn. rewrite Hl. split; [done|]. split; cbn.
  - by rewrite semaphore_new_permits, Nat.add_0_r.
  - by rewrite Hc.
  - rewrite Hl, length_take. lia.
Qed.

(** One step is a step of the queue, or none when a task is received. *)
Lemma manager_step_queue max m e m' :
  well_formed max m → manager_step m e m' →
  well_formed max m' ∧
  match e with
  | Some e => queue_step max (queue_of m) (Some e) (queue_of m')
  | None => queue_of m' = queue_of m
  end.
Proof.
  intros [Hp Hcap Hroom] Hstep.
  destruct Hstep as [m t c Hs|m t c Hn Hr|m t s Hn Ha|m l1 t l2 Hrun].
  - destruct (decide (length (contents (tm_task_receiver m)) < 256)%nat) as [Hlt|Hge].
    2: { rewrite try_send_full in Hs by lia. done. }
    destruct (try_send_room t (tm_task_receiver m)) as (c'&Hs'&Hc&Hcap'); [lia|].
    rewrite Hs in Hs'. injection Hs' as <-. split.
    + split; cbn; [done|by rewrite Hcap'|]. rewrite Hc, length_app. cbn. lia.
    + unfold queue_of. cbn. rewrite Hc, (assoc_L (++)). constructor.
  - destruct (contents (tm_task_receiver m)) as [|u us] eqn:Hc.
    { by rewrite recv_empty in Hr by done. }
    destruct (recv_first _ _ _ Hc) as (c'&Hr'&Hc'&Hcap'). rewrite Hr in Hr'.
    injection Hr' as <- <-. split.
    + split; cbn; [done|by rewrite Hcap'|]. rewrite Hc'. cbn in Hroom. lia.
    + unfold queue_of. cbn. by rewrite Hn, Hc, Hc'.
  - destruct (permits (tm_semaphore m)) as [|n] eqn:Hper.
    { by rewrite acquire_none in Ha by done. }
    destruct (acquire_some _ _ Hper) as (s'&Ha'&Hs'). rewrite Ha in Ha'. injection Ha' as <-.
    split.
    + split; cbn; [|done..]. rewrite Hs', length_app. cbn. lia.
    + unfold queue_of. cbn. rewrite Hn. constructor. lia.
  - split.
    + split; cbn; [|done..]. rewrite release_permits. rewrite Hrun, length_app in Hp.
      cbn in Hp. rewrite length_app. lia.
    + unfold queue_of. cbn. rewrite Hrun. constructor.
Qed.

Lemma manager_trace_queue max m es m' :
  well_formed max m → trace manager_step m es m' →
  well_formed max m' ∧ trace (queue_step max) (queue_of m) es (queue_of m').
Proof.
  intros Hwf Ht. revert Hwf. induction Ht as [m|m m1 m2 es Hs _ IH|m m1 m2 e es Hs _ IH];
    intros Hwf; [eauto using trace|..].
  - destruct (manager_step_queue max _ _ _ Hwf Hs) as [Hwf' Heq].
    destruct (IH Hwf') as [? Ht']. by rewrite Heq in Ht'.
  - destruct (manager_step_queue max _ _ _ Hwf Hs) as [Hwf' Hq].
    destruct (IH Hwf') as [? Ht']. eauto using trace.
Qed.

(** [C4] The task manager implements a first-in first-out queue with one place to run
    for every permit: what is sent to it, started and finished in a run is a run of the
    queue, which begins with the first 256 incomplete tasks of the database. *)
Theorem manager_refines_queue mc db now m es m' :
  start_manager mc db now = Some m → trace manager_step m es m' →
  ∃ tasks, get_incomplete_stage_tasks db (Status.i32 Status.Computing) now i32_MAX = Some tasks ∧
    trace (queue_step (default 1%nat mc)) (mkQueue (take 256 tasks) []) es (queue_of m').
Proof.
  intros (tasks&Ht&Hq&Hwf)%start_manager_queue Htr. exists tasks. split; [done|].
  rewrite <-Hq. by eapply manager_trace_queue.
Qed.

(** Tasks are started in the order in which they were queued, each once; at most as
    many run as [max_concurrent_tasks] says (one by default); a task that is not
    finished and was started is running, and one that was not is waiting. *)
Theorem manager_order mc db now m es m' :
  start_manager mc db now = Some m → trace manager_step m es m' →
  started es ++ q_waiting (queue_of m') = q_waiting (queue_of m) ++ submitted es ∧
  started es ≡ₚ finished es ++ tm_running m' ∧
  (length (tm_running m') ≤ default 1 mc)%nat.
Proof.
  intros (tasks&_&Hq&Hwf)%start_manager_queue Htr.
  destruct (manager_trace_queue _ _ _ _ Hwf Htr) as [Hwf' Ht].
  apply queue_trace_order in Ht as [H1 H2]. split; [done|]. split.
  - by rewrite Hq in H2.
  - destruct Hwf' as [Hp _ _]. lia.
Qed.

(** A waiting task starts as soon as fewer tasks run than may: nothing but the
    permits holds it back, and the one that waits longest is next. *)
Theorem manager_starts_next mc db now m es m' t ws :
  start_manager mc db now = Some m → trace manager_step m es m' →
  q_waiting (queue_of m') = t :: ws → (length (tm_running m') < default 1 mc)%nat →
  ∃ m'', trace manager_step m' [Start t] m'' ∧
    queue_of m'' = mkQueue ws (tm_running m' ++ [t]).
Proof.
  intros (tasks&_&_&Hwf)%start_manager_queue Htr Hw Hlt.
  destruct (manager_trace_queue _ _ _ _ Hwf Htr) as [[Hp _ _] _].
  destruct (permits (tm_semaphore m')) as [|n] eqn:Hper; [lia|].
  destruct (acquire_some _ _ Hper) as (s&Ha&_).
  unfold queue_of in Hw. cbn in Hw. destruct (tm_next m') as [u|] eqn:Hn; cbn in Hw.
  - injection Hw as -> Hc. eexists. split.
    + eapply trace_event; [by eapply manager_spawn|constructor].
    + unfold queue_of. cbn. by rewrite Hc.
  - destruct (recv_first _ _ _ Hw) as (c&Hr&Hc&_). eexists. split.
    + eapply trace_silent; [by eapply manager_recv|].
      eapply trace_event; [by eapply manager_spawn|constructor].
    + unfold queue_of. cbn. by rewrite Hc.
Qed.

(** With [max_concurrent_tasks = Some(0)] the service takes proofs and never runs
    one. *)
Theorem no_permits_no_task db now m es m' :
  start_manager (Some 0%nat) db now = Some m → trace manager_step m es m' →
  started es = [] ∧ q_waiting (queue_of m') = q_waiting (queue_of m) ++ submitted es.
Proof.
  intros (tasks&_&Hq&Hwf)%start_manager_queue Htr.
  destruct (manager_trace_queue _ _ _ _ Hwf Htr) as [_ Ht]. cbn in Ht.
  assert (started es = []) as Hes.
  { clear -Ht. induction Ht as [|? ? ? ? Hs|? ? ? ? ? Hs _ IH]; [done|by inversion Hs|].
    inversion Hs; subst; [done|lia|done]. }
  apply queue_trace_order in Ht as [H1 _]. by rewrite Hes in H1.
Qed.

(** After a restart every proof that was computing is queued again, exactly once,
    as long as there are at most 256; nothing else is. *)
Theorem restart_reloads mc db now m tasks :
  start_manager mc db now = Some m →
  map_Forall (λ id r, stg_id r.2 = id) (db_stage_task db) →
  get_incomplete_stage_tasks db (Status.i32 Status.Computing) now i32_MAX = Some tasks →
  (length tasks ≤ 256)%nat →
  NoDup (stg_id <$> q_waiting (queue_of m)) ∧
  ∀ t, t ∈ q_waiting (queue_of m) ↔
    (∃ user, db_stage_task db !! stg_id t = Some (user, t)) ∧
    stg_status t = Status.i32 Status.Computing ∧ stg_check_at t < now.
Proof.
  intros (tasks'&Ht&Hq&_)%start_manager_queue Hid Ht' Hfew. rewrite Ht in Ht'.
  injection Ht' as ->. rewrite Hq. cbn [q_waiting]. rewrite take_ge by done.
  unfold get_incomplete_stage_tasks, online in Ht. destruct (db_online db); [|done].
  injection Ht as <-. set (rows := (map_to_list (db_stage_task db)).*2.*2) in *.
  set (live := filter _ rows) in *.
  assert (256 < Z.to_nat i32_MAX)%nat by (unfold i32_MAX; lia).
  rewrite length_take in Hfew. rewrite take_ge by lia.
  assert (∀ t, t ∈ rows ↔ ∃ user, db_stage_task db !! stg_id t = Some (user, t)) as Hrows.
  { intros t. unfold rows. rewrite stage_rows_elem. split; [|intros [user Hu]; eauto].
    intros (id&user&Hr). exists user. pose proof (map_Forall_lookup_1 _ _ _ _ Hid Hr) as Hi.
    cbn in Hi. by rewrite Hi. }
  split.
  - assert (stg_id <$> rows = (map_to_list (db_stage_task db)).*1) as Hids.
    { unfold rows. rewrite <-!list_fmap_compose. apply list_fmap_ext.
      intros i [id r] Hi%list_elem_of_lookup_2%elem_of_map_to_list.
      exact (map_Forall_lookup_1 _ _ _ _ Hid Hi). }
    assert (NoDup (stg_id <$> rows)) as Hnd by (rewrite Hids; apply NoDup_fst_map_to_list).
    eapply sublist_NoDup; [exact Hnd|]. apply fmap_sublist, sublist_filter.
  - intros t. unfold live. rewrite list_elem_of_filter. fold rows. rewrite Hrows. tauto.
Qed.

End theorems.

(** ** Examples: lists for channels, numbers for semaphores *)

Module SampleManager.

#[export] Instance list_tokio : Tokio.
Proof.
  refine {|
    channel := nat * list StageTask; mpsc_channel n := (n, []); contents := snd; capacity := fst;
    try_send t c := if decide (length c.2 < c.1)%nat then Some (c.1, c.2 ++ [t]) else None;
    recv c := match c.2 with t :: ts => Some (t, (c.1, ts)) | [] => None end;
    semaphore := nat; semaphore_new n := n; permits n := n;
    acquire n := match n with S n => Some n | O => None end; release := S |}; cbn.
  - done.
  - intros t c H. rewrite decide_True by done. eauto.
  - intros t c H. by rewrite decide_False by lia.
  - by intros c ->.
  - intros c t ts ->. eauto.
  - done.
  - by intros s ->.
  - intros s n ->. eauto.
  - done.
Defined.

Definition task (id : string) : StageTask :=
  mkStageTask id (Status.i32 Status.Computing) None None 0 0.
Definition db : Database :=
  mkDatabase {[ "a" := ("0x1", task "a");
                "b" := ("0x1", task "b" <| stg_status := Status.i32 Status.Success |>) ]} ∅ ∅ true.
(** The incomplete task of the database is loaded; another one is sent, the first starts
    and ends. *)
Definition m0 (mc : option nat) : TaskManager := mkTaskManager (256%nat, [task "a"]) (default 1%nat mc) None [].
Definition m1 : TaskManager := mkTaskManager (256%nat, [task "c"]) 1%nat None [].
Definition events : list ManagerEvent := [Submit (task "c"); Start (task "a"); Finish (task "a")].

Lemma incomplete :
  get_incomplete_stage_tasks db (Status.i32 Status.Computing) 1 i32_MAX = Some [task "a"].
Proof.
  unfold get_incomplete_stage_tasks, online. cbn [db_online db]. f_equal.
Qed.

Lemma start_ok mc : start_manager mc db 1 = Some (m0 mc).
Proof. unfold start_manager, load_incomplete_tasks_from_db. by rewrite incomplete. Qed.

Lemma events_run : trace manager_step (m0 None) events m1.
Proof.
  eapply trace_event; [by eapply manager_submit|].
  eapply trace_silent; [by eapply manager_recv|].
  eapply trace_event; [by eapply manager_spawn|].
  eapply trace_event; [by apply (manager_finish _ [] (task "a") [])|].
  eapply trace_nil.
Qed.

End SampleManager.

Import SampleManager.

Lemma manager_refines_queue_witness :
  ∃ tasks, get_incomplete_stage_tasks db (Status.i32 Status.Computing) 1 i32_MAX = Some tasks ∧
    trace (queue_step 1) (mkQueue (take 256 tasks) []) events (queue_of m1).
Proof. exact (manager_refines_queue None db 1 (m0 None) events m1 (start_ok None) events_run). Defined.

Lemma manager_order_witness :
  [task "a"] ++ q_waiting (queue_of m1) = [task "a"] ++ [task "c"] ∧ (length (tm_running m1) ≤ 1)%nat.
Proof.
  destruct (manager_order None db 1 (m0 None) events m1 (start_ok None) events_run)
    as (H1&_&H3).
  split; [exact H1|exact H3].
Defined.

Lemma manager_starts_next_witness :
  ∃ m'', trace manager_step m1 [Start (task "c")] m'' ∧ queue_of m'' = mkQueue [] [task "c"].
Proof.
  apply (manager_starts_next None db 1 (m0 None) events m1 (task "c") [] (start_ok None) events_run);
    [reflexivity|cbn; lia].
Defined.

Lemma no_permits_no_task_witness :
  q_waiting (queue_of (m0 (Some 0%nat) <| tm_task_receiver := (256%nat, [task "a"; task "c"]) |>))
    = [task "a"; task "c"].
Proof.
  apply (no_permits_no_task db 1 (m0 (Some 0%nat)) [Submit (task "c")]).
  - apply start_ok.
  - eapply trace_event; [by eapply manager_submit|apply trace_nil].
Defined.

Lemma restart_reloads_witness :
  NoDup (stg_id <$> q_waiting (queue_of (m0 None))) ∧ task "a" ∈ q_waiting (queue_of (m0 None)).
Proof.
  destruct (restart_reloads None db 1 (m0 None) [task "a"] (start_ok None)) as [Hnd Hin].
  - apply map_Forall_insert_2; [done|]. by apply map_Forall_singleton.
  - exact incomplete.
  - cbn. lia.
  - split; [exact Hnd|]. apply Hin. split; [by exists "0x1"|]. split; [reflexivity|].
    cbn. lia.
Defined.
