(* ===== verification/RunRows.v ===== *)
(** * RunRows: what a run of [run_stage_task] does to the table of stages

    A run writes its own row of [stage_task] and no other; when it returns, the row is
    final, so that a restart of the service does not run the task again. *)

From S2P Require Import Prelude Text Proto World Tasks Stage Database ProverClient Worker.
From S2P Require Import TaskManager.

(** [db'] differs from [db] in the stage row [id] only, and there not in the status. *)
Record rows_kept (id : string) (db db' : Database) : Prop := {
  rk_online : db_online db' = db_online db;
  rk_others j : j ≠ id → db_stage_task db' !! j = db_stage_task db !! j;
  rk_row u t : db_stage_task db !! id = Some (u, t) →
    ∃ t', db_stage_task db' !! id = Some (u, t') ∧ stg_id t' = stg_id t ∧
      stg_status t' = stg_status t ∧ stg_context t' = stg_context t
}.

#[export] Instance rows_kept_preorder id : PreOrder (rows_kept id).
Proof.
  split.
  - intros db. split; [done|done|]. eauto.
  - intros d1 d2 d3 [H1 H2 H3] [K1 K2 K3]. split.
    + congruence.
    + intros j Hj. by rewrite K2, H2.
    + intros u t Ht. destruct (H3 u t Ht) as (t'&Ht'&?&?&?).
      destruct (K3 u t' Ht') as (t''&?&?&?&?). exists t''. split_and!; congruence.
Qed.

Lemma insert_prove_task_rows id db r db' :
  insert_prove_task db r = Some db' → rows_kept id db db'.
Proof.
  unfold insert_prove_task. intros H. repeat case_match; simplify_eq.
  split; [done|done|]. cbn. eauto.
Qed.

Lemma save_row_rows id db r : rows_kept id db (save_row db r).
Proof.
  unfold save_row. destruct (insert_prove_task db r) eqn:H; [|done]. cbn.
  by eapply insert_prove_task_rows.
Qed.

Lemma update_check_at_rows id db old now step n db' :
  update_stage_task_check_at db id old now step = Some (n, db') → rows_kept id db db'.
Proof.
  unfold update_stage_task_check_at, online.
  destruct (db_stage_task db !! id) as [[a t]|] eqn:Ht; repeat case_match; intros [= <- <-];
    try done.
  split; [done| |].
  - intros j Hj. cbn. by rewrite lookup_insert_ne.
  - intros u t' Hu. rewrite Ht in Hu. simplify_eq. cbn. rewrite lookup_insert_eq. by eexists.
Qed.

Create HintDb rows.
#[export] Hint Resolve save_row_rows update_check_at_rows : rows.
#[export] Hint Extern 5 (rows_kept _ ?db ?db) => reflexivity : rows.

Section run.
Context `{E : !External} `{J : !Json} `{C : !Client}.
Implicit Types (ws : WorkerState) (w : World).

Lemma save_split_rows id t db : rows_kept id db (save_split t db).
Proof. unfold save_split. case_match; auto with rows. Qed.
Lemma save_snark_rows id t db : rows_kept id db (save_snark t db).
Proof. unfold save_snark. case_match; auto with rows. Qed.
Hint Resolve save_split_rows save_snark_rows : rows.

Lemma on_answer_rows id now r s db w s' db' w' :
  on_answer now r s db w = Ret ((s', db'), w') → rows_kept id db db'.
Proof.
  unfold on_answer. intros H. destruct r; repeat case_match; m_inv; repeat case_match;
    m_inv; auto with rows.
Qed.

Lemma take_event_rows id now ev ws w ws' w' :
  take_event now ev ws w = Ret (Some ws', w') → rows_kept id (ws_db ws) (ws_db ws').
Proof.
  unfold take_event. intros H. destruct ev; [by m_inv|].
  destruct (ws_inflight ws !! i ≫= _) as [r|]; [|by m_inv].
  apply M_bind_Ret in H as ([s db]&w1&Ha&H). m_inv. cbn. by eapply on_answer_rows.
Qed.

Lemma heartbeat_rows id now ws : rows_kept id (ws_db ws) (ws_db (heartbeat id now ws)).
Proof.
  unfold heartbeat. case_match; [|done].
  destruct (update_stage_task_check_at _ _ _ _ _) as [[n db]|] eqn:Hu; [|done].
  cbn in Hu |- *. case_match; cbn; by eapply update_check_at_rows.
Qed.

Lemma loop_turn_rows feature id ti ws w t w' :
  loop_turn feature id ti ws w = Ret (Some t, w') →
  rows_kept id (ws_db ws) (ws_db (turn_state t)).
Proof.
  unfold loop_turn. intros ([]&?&_&H)%M_bind_Ret.
  apply M_bind_Ret in H as (ws1&?&Htop&H). apply M_bind_Ret in H as ([]&?&_&H).
  unfold loop_bottom in H. apply M_bind_Ret in H as ([ws2|]&?&Hev&H); [|by m_inv].
  assert (ws_db ws1 = ws_db ws) as Htop'.
  { unfold loop_top in Htop. apply M_bind_Ret in Htop as ([ts s]&?&_&Htop). by m_inv. }
  apply (take_event_rows id) in Hev. rewrite Htop' in Hev.
  destruct (_ || _); [by m_inv|].
  apply M_bind_Ret in H as (s&?&_&H). m_inv. cbn. etransitivity; [exact Hev|].
  etransitivity; [|apply heartbeat_rows]. done.
Qed.

Lemma run_loop_rows feature id tis ws w t w' :
  run_loop feature id tis ws w = Ret (Some t, w') →
  rows_kept id (ws_db ws) (ws_db (turn_state t)).
Proof.
  revert ws w. induction tis as [|ti tis IH]; intros ws w H; cbn [run_loop] in H; [by m_inv|].
  apply M_bind_Ret in H as ([[ws1|ws1]|]&w1&Hturn&H); [| |by m_inv].
  - apply loop_turn_rows in Hturn. etransitivity; [exact Hturn|by eapply IH].
  - m_inv. by apply loop_turn_rows in Hturn.
Qed.

Lemma loop_start_rows feature task g now now' db w ws w' :
  loop_start feature task g now now' db w = Ret (ws, w') →
  rows_kept (stg_id task) db (ws_db ws).
Proof.
  unfold loop_start. intros (s&?&_&H)%M_bind_Ret. m_inv. cbn. case_match; [|done].
  case_match. by eapply update_check_at_rows.
Qed.

(** The last write of a run: the row is final. *)
Record row_final (id : string) (db db' : Database) : Prop := {
  rf_others j : j ≠ id → db_stage_task db' !! j = db_stage_task db !! j;
  rf_row u t : db_stage_task db !! id = Some (u, t) →
    ∃ t', db_stage_task db' !! id = Some (u, t') ∧ stg_id t' = stg_id t ∧
      stg_status t' ≠ Status.i32 Status.Computing ∧ stg_context t' = stg_context t
}.

Lemma update_stage_task_final id db0 db status result db' :
  rows_kept id db0 db → status ≠ Status.i32 Status.Computing →
  update_stage_task db id status result = Some db' → row_final id db0 db'.
Proof.
  intros [_ H2 H3] Hst. unfold update_stage_task, online. destruct (db_online db); [|done].
  intros [= <-]. split.
  - intros j Hj. cbn. by rewrite lookup_alter_ne, H2.
  - intros u t Ht. destruct (H3 u t Ht) as (t'&Ht'&?&?&?). cbn.
    rewrite lookup_alter_eq, Ht'. cbn. by eexists.
Qed.

Lemma error_status_final st : Status.i32 (error_status st) ≠ Status.i32 Status.Computing.
Proof. by destruct st. Qed.

Lemma loop_finish_final id g duration ws db0 w db w' :
  rows_kept id db0 (ws_db ws) →
  loop_finish id g duration ws w = Ret (db, w') → row_final id db0 db.
Proof.
  intros Hk. unfold loop_finish. destruct (is_error (ws_stage ws)).
  { intros [Hu%unwrap_Ret _]%lift_Ret.
    eapply update_stage_task_final; [done|apply error_status_final|done]. }
  intros (result&w1&_&H)%M_bind_Ret. apply M_bind_Ret in H as ([n db1]&w2&[Hc _]%lift_Ret&H).
  apply unwrap_Ret, update_check_at_rows in Hc.
  apply M_bind_Ret in H as (text&w3&_&H). apply lift_Ret in H as [Hu%unwrap_Ret _].
  eapply update_stage_task_final; [| |exact Hu]; [by etransitivity|discriminate].
Qed.

Lemma run_single_node_final task g now duration e db w db' w' :
  stg_step task = Step_i32 Init →
  run_single_node task g now duration e db w = Ret (db', w') → row_final (stg_id task) db db'.
Proof.
  intros Hi. unfold run_single_node. rewrite Hi, Z.eqb_refl. cbn [negb].
  intros (t&w1&_&H)%M_bind_Ret. apply M_bind_Ret in H as (id&w2&_&H).
  set (marked := update_stage_task_check_at _ _ _ _ _) in H.
  set (db1 := match marked with Some (_, d) => d | None => db end) in H.
  assert (rows_kept (stg_id task) db db1) as H1.
  { unfold db1. destruct marked as [[n d]|] eqn:Hm; [|done]. by eapply update_check_at_rows. }
  apply M_bind_Ret in H as ([[s result] st]&w3&_&H).
  assert (rows_kept (stg_id task) db (save_split st db1)) as H2
    by (etransitivity; [exact H1|apply save_split_rows]).
  cbv zeta in H. destruct (is_error s).
  { apply lift_Ret in H as [Hu%unwrap_Ret _].
    eapply update_stage_task_final; [| |exact Hu]; [exact H2|discriminate]. }
  apply M_bind_Ret in H as ([n db2]&w4&[Hc%unwrap_Ret _]%lift_Ret&H).
  apply update_check_at_rows in Hc.
  apply M_bind_Ret in H as (text&w5&_&H). apply lift_Ret in H as [Hu%unwrap_Ret _].
  eapply update_stage_task_final; [| |exact Hu]; [by etransitivity|discriminate].
Qed.

(** The tasks [run_stage_task] returns from without a trace: one without a context, one
    whose context cannot be read while the database is away, and a single-node proof that
    has been started before. *)
Definition left_alone (task : StageTask) (db : Database) : bool :=
  match stg_context task with
  | None => true
  | Some context =>
      match generate_from_json context with
      | None => negb (db_online db)
      | Some g => gt_single_node g && negb (stg_step task =? Step_i32 Init)
      end
  end.

Lemma run_stage_task_left feature task now now' duration single tis db w db' w' :
  left_alone task db = true →
  run_stage_task feature task now now' duration single tis db w = Ret (Some db', w') → db' = db.
Proof.
  unfold left_alone, run_stage_task. destruct (stg_context task) as [context|]; [|by intros _ ?; m_inv].
  destruct (generate_from_json context) as [g|].
  - intros [-> Hstep]%andb_true_iff H. apply M_bind_Ret in H as (db1&w1&Hrun&H). m_inv.
    unfold run_single_node in Hrun. rewrite Hstep in Hrun. by m_inv.
  - intros Hoff H. m_inv. unfold update_stage_task, online. by destruct (db_online db).
Qed.

Lemma run_stage_task_final feature task now now' duration single tis db w db' w' :
  left_alone task db = false →
  run_stage_task feature task now now' duration single tis db w = Ret (Some db', w') →
  row_final (stg_id task) db db'.
Proof.
  unfold left_alone, run_stage_task. destruct (stg_context task) as [context|]; [|done].
  destruct (generate_from_json context) as [g|].
  - intros Hl. destruct (gt_single_node g).
    + apply negb_false_iff, Z.eqb_eq in Hl. intros (db1&?&Hrun&H)%M_bind_Ret. m_inv.
      by eapply run_single_node_final.
    + intros (ws&w1&Hstart&H)%M_bind_Ret.
      apply M_bind_Ret in H as ([[ws'|ws']|]&w2&Hloop&H); [by m_inv| |by m_inv].
      apply M_bind_Ret in H as (db1&w3&Hfin&H). m_inv.
      eapply loop_finish_final; [|exact Hfin].
      etransitivity; [by eapply loop_start_rows|]. by apply run_loop_rows in Hloop.
  - intros Hon%negb_false_iff H. m_inv.
    apply (update_stage_task_final _ _ db (Status.i32 Status.InternalError) empty_str);
      [done|discriminate|]. unfold update_stage_task, online. by rewrite Hon.
Qed.

(** A row that is final is not among the incomplete ones. *)
Lemma row_final_complete id db db' at_ limit tasks :
  map_Forall (λ id r, stg_id r.2 = id) (db_stage_task db) → row_final id db db' →
  is_Some (db_stage_task db !! id) →
  get_incomplete_stage_tasks db' (Status.i32 Status.Computing) at_ limit = Some tasks →
  id ∉ stg_id <$> tasks.
Proof.
  intros Hids [Hoth Hrow] [[user t] Ht]. destruct (Hrow user t Ht) as (t'&Ht'&Hid&Hst&Hc).
  unfold get_incomplete_stage_tasks, online. destruct (db_online db'); [|done].
  intros [= <-] Hin. apply list_elem_of_fmap in Hin as (u&Hu&Hin).
  apply (subseteq_take _ _ _) in Hin. apply list_elem_of_filter in Hin as [[Hcomp _] Hin].
  apply stage_rows_elem in Hin as (j&a&Hj). destruct (decide (j = id)) as [->|Hne].
  - rewrite Ht' in Hj. by simplify_eq.
  - rewrite Hoth in Hj by done. specialize (Hids _ _ Hj). cbn in Hids. congruence.
Qed.


End run.
