(* ===== verification/SegmentRun.v ===== *)
(** * SegmentRun: a run proves every segment, once and in order

    The prove tasks of a run are the segments 0, 1, 2, ... of the split, in order,
    followed by the deferred proofs; once they are complete their number is the number
    of segments the split reported. *)

From S2P Require Import Prelude Text Proto World Tasks Stage AggGraph StageInv StageGen.
From S2P Require Import StageOps StageSteps Database ProverPool ProverClient Worker.
From S2P Require Import WorkerInv WorkerRun.

(** ** Numbered tasks *)

Record numbered (g : GenerateTask) (no : Z) (p : ProveTask) : Prop := {
  nb_no : pt_file_no p = no;
  nb_segment : pt_segment p = gt_seg_path g +:+ "/" +:+ pretty no;
  nb_deferred : pt_is_deferred p = false
}.

(** The task at position [k] proves segment [k]. *)
Definition numbered_list (g : GenerateTask) (l : list ProveTask) : Prop :=
  ∀ k p, l !! k = Some p → numbered g (Z.of_nat k) p.

(** What the operations on a task keep. *)
Definition same_segment (p p' : ProveTask) : Prop :=
  pt_file_no p' = pt_file_no p ∧ pt_segment p' = pt_segment p ∧
  pt_is_deferred p' = pt_is_deferred p.

Lemma same_segment_refl p : same_segment p p.
Proof. done. Qed.
#[export] Hint Resolve same_segment_refl : core.

Definition split_of (t : Task) : option SplitTask :=
  match t with TSplit t => Some t | _ => None end.
Abbreviation splits l := (omap split_of l).

(** The prove tasks of a stage: numbered segments, then deferred proofs. *)
Record segments_ok (g : GenerateTask) (s : Stage) : Prop := {
  sg_lists : ∃ segs defs, stage_prove_tasks s = segs ++ defs ∧ numbered_list g segs ∧
    Forall (λ p, pt_is_deferred p = true) defs ∧
    (stage_is_tasks_gen_done s = false → defs = []) ∧
    (stage_is_tasks_gen_done s = true →
       len segs = Z.max 0 (st_total_segments (stage_split_task s)));
  sg_done : stage_is_tasks_gen_done s = true →
    st_state (stage_split_task s) = TASK_STATE_SUCCESS
}.

(** At most one split is out, and then the stage is waiting for it. *)
Definition split_ok (s : Stage) (l : list Task) : Prop :=
  splits l = [] ∨
  (∃ t, splits l = [t]) ∧ st_state (stage_split_task s) = TASK_STATE_PROCESSING.

Lemma splits_app l l' : splits (l ++ l') = splits l ++ splits l'.
Proof. apply omap_app. Qed.

(** A task that is not a split comes or goes. *)
Lemma split_ok_other s s' l t :
  split_of t = None → st_state (stage_split_task s') = st_state (stage_split_task s) →
  split_ok s l → split_ok s' (l ++ [t]).
Proof.
  intros Ht Es. unfold split_ok. rewrite splits_app, Es, omap_cons_opt, Ht. simpl.
  by rewrite app_nil_r.
Qed.
Lemma split_ok_delete s s' l i t :
  l !! i = Some t → split_of t = None →
  st_state (stage_split_task s') = st_state (stage_split_task s) →
  split_ok s l → split_ok s' (delete i l).
Proof.
  intros (l1&l2&->&->)%delete_split Ht Es. unfold split_ok.
  by rewrite !splits_app, Es, omap_cons_opt, Ht.
Qed.

Lemma numbered_same g l l' : Forall2 same_segment l l' → numbered_list g l → numbered_list g l'.
Proof.
  intros HF Hn k p' Hk. destruct (Forall2_lookup_r _ _ _ _ _ HF Hk) as (p&Hp&E1&E2&E3).
  destruct (Hn _ _ Hp). split; congruence.
Qed.

Lemma deferred_same (l l' : list ProveTask) :
  Forall2 same_segment l l' → Forall (λ p, pt_is_deferred p = true) l →
  Forall (λ p, pt_is_deferred p = true) l'.
Proof.
  induction 1 as [|p p' l l' (_&_&E) _ IH]; [done|]. intros []%Forall_cons.
  constructor; [congruence|auto].
Qed.

(** An operation that leaves the split and the segments of the tasks. *)
Lemma segments_ok_same g s s' :
  segments_ok g s → Forall2 same_segment (stage_prove_tasks s) (stage_prove_tasks s') →
  stage_is_tasks_gen_done s' = stage_is_tasks_gen_done s →
  (stage_is_tasks_gen_done s = true → stage_split_task s' = stage_split_task s) →
  segments_ok g s'.
Proof.
  intros [(segs&defs&HP&Hn&Hd&H0&H1) Hdone] HF Eg Es. rewrite HP in HF.
  apply Forall2_app_inv_l in HF as (segs'&defs'&HF1&HF2&HP'). split.
  - exists segs', defs'. rewrite Eg. split_and!; [done|by eapply numbered_same| | |].
    + by eapply deferred_same.
    + intros Hg. rewrite (H0 Hg) in HF2. by apply Forall2_nil_inv_l in HF2.
    + intros Hg. rewrite (Es Hg), <-(Forall2_length _ _ _ HF1). auto.
  - rewrite Eg. intros Hg. rewrite (Es Hg). auto.
Qed.

Section segments.
Context `{E : !External} `{J : !Json} `{C : !Client} `{F : !UuidFresh}.

(** ** Generating the tasks *)

Lemma numbered_app g P w lo hi ts w' :
  numbered_list g P → lo = len P → tasks_with_nos g lo hi w = Ret (ts, w') →
  numbered_list g (P ++ ts).
Proof.
  intros Hn -> (_&_&HF)%tasks_with_nos_run k p [Hk|[Hk Hp]]%lookup_app_Some; [auto|].
  destruct (Forall2_lookup_r _ _ _ _ _ HF Hp) as (no&[-> _]%lookup_seqZ&[]).
  replace (len P + Z.of_nat (k - length P)) with (Z.of_nat k) in * by lia. by split.
Qed.

Lemma gen_prove_task_segments s w s' w' :
  segments_ok (stage_generate_task s) s → gen_prove_task s w = Ret (s', w') →
  segments_ok (stage_generate_task s) s'.
Proof.
  intros Hs. unfold gen_prove_task.
  destruct (_ || _) eqn:Hb; [by intros [<- <-]%M_mret_Ret|].
  apply orb_false_iff in Hb as [_ Hg].
  intros (s1&w1&H1&H2)%M_bind_Ret.
  assert (∀ s0, numbered_list (stage_generate_task s) (stage_prove_tasks s0) →
    stage_is_tasks_gen_done s0 = false → segments_ok (stage_generate_task s) s0) as Hok.
  { intros s0 Hn Hg0. split; [|by rewrite Hg0]. exists (stage_prove_tasks s0), [].
    rewrite app_nil_r, Hg0. by split_and!. }
  assert (numbered_list (stage_generate_task s) (stage_prove_tasks s)) as Hn.
  { destruct Hs as [(segs&defs&->&?&_&H0&_) _]. by rewrite (H0 Hg), app_nil_r. }
  assert (numbered_list (stage_generate_task s) (stage_prove_tasks s1) ∧
    stage_is_tasks_gen_done s1 = false) as [Hn1 Hg1].
  { destruct (stage_prove_tasks s) eqn:HP; [|by apply M_mret_Ret in H1 as [<- <-]; rewrite HP].
    apply M_bind_Ret in H1 as (ts&w2&Hts&[<- <-]%M_mret_Ret). split; [|done].
    by apply (numbered_app _ [] _ 0 64 _ _ Hn eq_refl Hts). }
  apply M_bind_Ret in H2 as (n&w2&_&H2).
  destruct n; [|apply M_mret_Ret in H2 as [<- <-]; auto].
  apply M_bind_Ret in H2 as (ts&w3&Hts&[<- <-]%M_mret_Ret). apply Hok; [|done].
  by apply (numbered_app _ _ _ _ _ _ _ Hn1 eq_refl Hts).
Qed.

Lemma numbered_take g l n : numbered_list g l → numbered_list g (take n l).
Proof. intros Hn k p [Hk _]%lookup_take_Some. auto. Qed.

Lemma complete_numbered s w s' w' :
  numbered_list (stage_generate_task s) (stage_prove_tasks s) →
  complete_prove_tasks s w = Ret (s', w') →
  numbered_list (stage_generate_task s) (stage_prove_tasks s') ∧
  len (stage_prove_tasks s') = Z.max 0 (st_total_segments (stage_split_task s)) ∧
  stage_is_tasks_gen_done s' = stage_is_tasks_gen_done s ∧
  stage_is_error s' = stage_is_error s.
Proof.
  intros Hn. unfold complete_prove_tasks.
  destruct (Z.ltb_spec (st_total_segments (stage_split_task s)) (len (stage_prove_tasks s))).
  - intros [<- <-]%M_mret_Ret. simpl. split_and!; [by apply numbered_take| |done..].
    rewrite length_take. lia.
  - intros (ts&w2&Hts&[<- <-]%M_mret_Ret)%M_bind_Ret. simpl.
    pose proof (numbered_app _ _ _ _ _ _ _ Hn eq_refl Hts) as Hn'.
    apply tasks_with_nos_run in Hts as (_&_&HF). apply Forall2_length in HF.
    rewrite length_seqZ in HF. split_and!; [done| |done..]. rewrite length_app. lia.
Qed.

Lemma gen_prove_task_post_segments feature s w s' w' :
  numbered_list (stage_generate_task s) (stage_prove_tasks s) →
  gen_prove_task_post feature s w = Ret (s', w') →
  (∃ segs defs, stage_prove_tasks s' = segs ++ defs ∧
     numbered_list (stage_generate_task s) segs ∧
     Forall (λ p, pt_is_deferred p = true) defs ∧
     len segs = Z.max 0 (st_total_segments (stage_split_task s))) ∧
  (feature = feature_prover → stage_is_error s' = false → 2 ≤ len (stage_prove_tasks s')).
Proof.
  intros Hn. unfold gen_prove_task_post. intros (s1&w1&H1&H2)%M_bind_Ret.
  destruct (complete_numbered _ _ _ _ Hn H1) as (Hn1&Hl&Hg&He). destruct feature.
  - assert (∃ segs defs, stage_prove_tasks s1 = segs ++ defs ∧
     numbered_list (stage_generate_task s) segs ∧
     Forall (λ p, pt_is_deferred p = true) defs ∧
     len segs = Z.max 0 (st_total_segments (stage_split_task s))) as Hs.
    { exists (stage_prove_tasks s1), []. rewrite app_nil_r. by split_and!. }
    destruct (Z.ltb_spec (len (stage_prove_tasks s1)) 2);
      apply M_mret_Ret in H2 as [<- <-]; (split; [done|]); [done|lia].
  - apply M_bind_Ret in H2 as (fs&w2&_&H2). apply M_bind_Ret in H2 as (files&w3&_&H2).
    apply M_bind_Ret in H2 as (ts&w4&Hts&[<- <-]%M_mret_Ret). split; [|done].
    destruct (mapM_draw _ deferred_proof pt_task_id _ (deferred_task_run _) _ _ _ Hts)
      as (_&_&HF).
    exists (stage_prove_tasks s1), ts. split_and!; [done|done| |done].
    clear -HF. induction HF as [|??? ? []]; by constructor.
Qed.

(** ** Handing out tasks *)

Definition segs_inv (g : GenerateTask) (s : Stage) (l : list Task) : Prop :=
  stage_generate_task s = g ∧ segments_ok g s ∧ split_ok s l.

Definition keeps_segs (g : GenerateTask) (s s' : Stage) (out : list Task) : Prop :=
  ∀ l, segs_inv g s l → segs_inv g s' (l ++ out).

Lemma keeps_segs_trans g s1 s2 s3 o1 o2 :
  keeps_segs g s1 s2 o1 → keeps_segs g s2 s3 o2 → keeps_segs g s1 s3 (o1 ++ o2).
Proof. intros H1 H2 l Hs. rewrite app_assoc. by apply H2, H1. Qed.
Lemma keeps_segs_refl g s : keeps_segs g s s [].
Proof. intros l. by rewrite app_nil_r. Qed.

(** An operation that changes neither the request nor the split. *)
Lemma keeps_segs_same g s s' r :
  stage_generate_task s' = stage_generate_task s →
  stage_split_task s' = stage_split_task s →
  stage_is_tasks_gen_done s' = stage_is_tasks_gen_done s →
  Forall2 same_segment (stage_prove_tasks s) (stage_prove_tasks s') →
  (∀ t, r = Some t → split_of t = None) → keeps_segs g s s' (option_list r).
Proof.
  intros Eg Es Ed HF Hr l (<-&Hs&Ho). split_and!; [done|by eapply segments_ok_same|].
  destruct r as [t|]; simpl.
  - eapply split_ok_other; [by apply Hr|by rewrite Es|done].
  - unfold split_ok. by rewrite app_nil_r, Es.
Qed.

Lemma segs_split now g s :
  keeps_segs g s (get_split_task now s).2 (option_list (TSplit <$> (get_split_task now s).1)).
Proof.
  intros l (<-&Hs&Ho). unfold get_split_task, get_task.
  destruct (is_ready_state (t_state (stage_split_task s))) eqn:Hr; simpl in *.
  - split_and!; [done| |].
    + eapply segments_ok_same; simpl; [exact Hs|by apply Forall2_refl_l|done|].
      intros Hg. apply (sg_done _ _ Hs) in Hg. by rewrite Hg in Hr.
    + right. rewrite splits_app. destruct Ho as [->|[_ Hp]]; [|by rewrite Hp in Hr].
      split; [by eexists|done].
  - rewrite app_nil_r. by destruct s.
Qed.

Lemma segs_prove fs now g s :
  keeps_segs g s (get_prove_task fs now s).2
    (option_list (TProve <$> (get_prove_task fs now s).1)).
Proof.
  unfold get_prove_task. rewrite pick_prove_update. apply keeps_segs_same; try done; simpl.
  - by apply update_first_Forall2.
  - by destruct (find_first _ _); intros ? [= <-].
Qed.

Lemma segs_agg now g s r s' :
  get_agg_task now s = Ret (r, s') → keeps_segs g s s' (option_list (TAgg <$> r)).
Proof.
  intros ->%get_agg_task_frame. apply keeps_segs_same; try done; simpl.
  - by apply Forall2_refl_l.
  - by destruct r; intros ? [= <-].
Qed.

Lemma segs_snark now g s :
  keeps_segs g s (get_snark_task now s).2 (option_list (TSnark <$> (get_snark_task now s).1)).
Proof.
  unfold get_snark_task. destruct (get_task now (stage_snark_task s)) as [t t'].
  apply keeps_segs_same; try done; simpl; [by apply Forall2_refl_l|].
  by destruct t; intros ? [= <-].
Qed.

Lemma spawn_tasks_segs now g s w tasks s' w' :
  spawn_tasks now s w = Ret ((tasks, s'), w') → keeps_segs g s s' tasks.
Proof.
  unfold spawn_tasks. destruct (stage_step s).
  1-2,4,6: by intros [[= <- <-] <-]%M_mret_Ret; apply keeps_segs_refl.
  - pose proof (segs_split now g s) as H1. destruct (get_split_task now s) as [sp s1].
    intros (w1&w1'&_&H)%M_bind_Ret.
    set (b := Z.of_nat _ <? _) in H.
    pose proof (segs_prove (w_fs w1) now g s1) as H2.
    assert (∃ pr s2, (if b then get_prove_task (w_fs w1) now s1 else (None, s1)) = (pr, s2) ∧
      keeps_segs g s1 s2 (option_list (TProve <$> pr))) as (pr&s2&E2&H2').
    { destruct b.
      - destruct (get_prove_task (w_fs w1) now s1) as [pr s2]. by exists pr, s2.
      - exists None, s1. split; [done|apply keeps_segs_refl]. }
    rewrite E2 in H. apply M_bind_Ret in H as ([ag s3]&w3&H3&[[= <- <-] _]%M_mret_Ret).
    assert (keeps_segs g s2 s3 (option_list (TAgg <$> ag))) as H3'.
    { destruct (_ && _); [apply lift_Ret in H3 as [H3 _]; by eapply segs_agg|].
      apply M_mret_Ret in H3 as [[= <- <-] _]. apply keeps_segs_refl. }
    rewrite app_assoc. eapply keeps_segs_trans; [|done]. by eapply keeps_segs_trans.
  - pose proof (segs_snark now g s) as H1.
    destruct (get_snark_task now s) as [sn s1]. by intros [[= <- <-] _]%M_mret_Ret.
Qed.

(** ** Answers *)

Lemma reply_prove_same now r err P : Forall2 same_segment P (reply_prove now r err P).
Proof.
  unfold reply_prove. destruct (find_first _ _) as [p|] eqn:Hf; [|by apply Forall2_refl_l].
  eapply update_first_later; [done..|]. unfold on_prove_task_macro.
  by repeat case_match; simplify_eq/=.
Qed.

Lemma segs_delete g s s' l i t :
  segs_inv g s l → l !! i = Some t → split_of t = None →
  stage_generate_task s' = stage_generate_task s →
  stage_split_task s' = stage_split_task s →
  stage_is_tasks_gen_done s' = stage_is_tasks_gen_done s →
  Forall2 same_segment (stage_prove_tasks s) (stage_prove_tasks s') →
  segs_inv g s' (delete i l).
Proof.
  intros (<-&Hs&Ho) Hi Ht Eg Es Ed HF. split_and!; [done|by eapply segments_ok_same|].
  eapply split_ok_delete; [done..|by rewrite Es|done].
Qed.

Lemma on_answer_segs now g s l w i t e r db s' db' w' :
  segs_inv g s l → l !! i = Some t → answer t e = Some r →
  on_answer now r s db w = Ret ((s', db'), w') → segs_inv g s' (delete i l).
Proof.
  intros Hs Hi Ha. destruct t as [t|t|t|t], e as [e|e|e|e]; simplify_eq/=.
  - (* split *)
    destruct Hs as (<-&Hs&Ho). unfold on_split_task.
    destruct (on_task now (client_split t e) _ (stage_is_error s)) as [[src dst] err].
    intros [[= <- _] _]%M_mret_Ret.
    apply delete_split in Hi as (l1&l2&->&->).
    assert (splits (l1 ++ l2) = [] ∧
      st_state (stage_split_task s) = TASK_STATE_PROCESSING) as [Hn Hp].
    { unfold split_ok in Ho. rewrite splits_app, omap_cons_opt in *. simpl in Ho.
      destruct Ho as [Ho|[[u Ho] Hp]]; [by destruct (splits l1)|].
      split; [|done]. destruct (splits l1) as [|u1 [|u2 k]]; by simplify_eq/=. }
    split_and!; [done| |by left].
    assert (stage_is_tasks_gen_done s = false) as Hg.
    { apply not_true_is_false. intros Hg%(sg_done _ _ Hs). by rewrite Hp in Hg. }
    destruct Hs as [(segs&defs&?&?&?&?&_) _].
    split; simpl; [|by rewrite Hg]. exists segs, defs. rewrite Hg in *. by split_and!.
  - (* prove *)
    intros [[= <- _] _]%M_mret_Ret.
    destruct (on_prove_task_frame now (client_prove t e) s) as [Hf _].
    eapply segs_delete; [done..| | | |].
    1-3: by rewrite Hf.
    rewrite (proj1 (on_prove_task_lists _ _ _)). apply reply_prove_same.
  - (* aggregate *)
    intros ([d s1]&w1&[Hf _]%on_agg_task_frame&[[= <- _] _]%M_mret_Ret)%M_bind_Ret.
    eapply segs_delete; [done..| | | |].
    1-3: by rewrite Hf.
    rewrite Hf. by apply Forall2_refl_l.
  - (* snark *)
    intros ([d s1]&w1&Hon&[[= <- _] _]%M_mret_Ret)%M_bind_Ret.
    unfold on_snark_task in Hon. apply M_bind_Ret in Hon as (u&w2&_&Hon).
    destruct (on_task _ _ _ _) as [[src dst] err]. apply M_mret_Ret in Hon as [[= _ <-] _].
    eapply segs_delete; [done..|by apply Forall2_refl_l].
Qed.

(** ** Dispatch *)

Lemma finish_prove_same s w s' w' :
  finish_prove s w = Ret (s', w') →
  stage_generate_task s' = stage_generate_task s ∧
  stage_split_task s' = stage_split_task s ∧
  stage_is_tasks_gen_done s' = stage_is_tasks_gen_done s ∧
  stage_prove_tasks s' = stage_prove_tasks s ∧ stage_agg_tasks s' = stage_agg_tasks s ∧
  stage_is_error s' = stage_is_error s.
Proof. by intros [(st&[->|(t&->)]) _]%finish_prove_frame. Qed.

Lemma segs_inv_same g s s' l :
  segs_inv g s l → stage_generate_task s' = stage_generate_task s →
  stage_split_task s' = stage_split_task s →
  stage_is_tasks_gen_done s' = stage_is_tasks_gen_done s →
  stage_prove_tasks s' = stage_prove_tasks s → segs_inv g s' l.
Proof.
  intros Hs Eg Es Ed EP. rewrite <-(app_nil_r l).
  apply (keeps_segs_same g s s' None); [done..|rewrite EP; by apply Forall2_refl_l|done|done].
Qed.

Lemma on_split_done_segs feature g s w s' w' l :
  segs_inv g s l → st_state (stage_split_task s) = TASK_STATE_SUCCESS →
  stage_is_tasks_gen_done s = false →
  on_split_done feature s w = Ret (s', w') →
  segs_inv g s' l ∧
  (feature = feature_prover → stage_is_error s' = false → 2 ≤ len (stage_prove_tasks s')).
Proof.
  intros (<-&Hs&Ho) Hst Hg (s1&w1&T&H1&_&->)%on_split_done_parts.
  assert (numbered_list (stage_generate_task s) (stage_prove_tasks s)) as Hn.
  { destruct Hs as [(segs&defs&->&?&_&H0&_) _]. by rewrite (H0 Hg), app_nil_r. }
  pose proof (gen_prove_task_post_keeps _ _ _ _ _ H1) as [Eg Es _ _].
  destruct (gen_prove_task_post_segments _ _ _ _ _ Hn H1) as [(segs&defs&HP&Hn1&Hd&Hl) Hlen].
  split; [|done]. split_and!; simpl; [done| |].
  - split; simpl; rewrite Es; [|done]. exists segs, defs. by split_and!.
  - unfold split_ok in *. simpl. by rewrite Es.
Qed.

Lemma gen_prove_task_segs g s w s' w' l :
  segs_inv g s l → gen_prove_task s w = Ret (s', w') → segs_inv g s' l.
Proof.
  intros (<-&Hs&Ho) H. pose proof (gen_prove_task_keeps _ _ _ _ H) as [Eg Es _ _].
  split_and!; [done|by eapply gen_prove_task_segments|]. unfold split_ok in *. by rewrite Es.
Qed.

Lemma dispatch_segs feature g s w s' w' l :
  segs_inv g s l → dispatch feature s w = Ret (s', w') → segs_inv g s' l.
Proof.
  intros Hs. unfold dispatch. destruct (stage_step s).
  - intros (s1&w1&H1&[<- <-]%M_mret_Ret)%M_bind_Ret. unfold gen_split_task in H1.
    apply M_bind_Ret in H1 as (u&w2&[Ha _]%lift_Ret&H1).
    apply rust_assert_Ret, Z.eqb_eq in Ha.
    apply M_bind_Ret in H1 as (id&w3&_&[<- <-]%M_mret_Ret).
    destruct Hs as (<-&Hs&Ho).
    assert (stage_is_tasks_gen_done s = false) as Hg.
    { apply not_true_is_false. intros Hg%(sg_done _ _ Hs). by rewrite Ha in Hg. }
    split_and!; [done| |].
    + destruct Hs as [(segs&defs&?&?&?&?&_) _]. split; simpl; [|by rewrite Hg].
      exists segs, defs. rewrite Hg in *. by split_and!.
    + left. destruct Ho as [|[_ Hp]]; [done|]. by rewrite Ha in Hp.
  - by intros [<- <-]%M_mret_Ret.
  - unfold dispatch_prove. intros (s1&w1&H1&H)%M_bind_Ret.
    assert (segs_inv g s1 l) as Hs1 by by eapply gen_prove_task_segs.
    assert (∀ s2 w2, segs_inv g s2 l → finish_prove s2 w2 = Ret (s', w') → segs_inv g s' l)
      as Hfin.
    { intros s2 w2 Hs2 (?&?&?&?&_)%finish_prove_same. by eapply segs_inv_same. }
    destruct (_ && _) eqn:Hb; [|by eapply Hfin].
    apply andb_true_iff in Hb as [Hst%Z.eqb_eq Hg%negb_true_iff].
    case_decide; [apply M_mret_Ret in H as [<- <-]; by eapply segs_inv_same|].
    apply M_bind_Ret in H as (s2&w2&H2&H). eapply Hfin; [|done].
    by eapply on_split_done_segs.
  - intros (u&w1&_&H)%M_bind_Ret.
    apply M_bind_Ret in H as (s1&w2&(t&->&_)%gen_snark_task_frame&[<- <-]%M_mret_Ret).
    by eapply segs_inv_same.
  - intros [<- <-]%M_mret_Ret. case_match; [by eapply segs_inv_same|done].
  - by intros [<- <-]%M_mret_Ret.
Qed.

(** ** The run *)

Abbreviation ws_segs g ws := (segs_inv g (ws_stage ws) (ws_inflight ws)).

Lemma take_event_segs now ev g ws w ws' w' :
  ws_segs g ws → take_event now ev ws w = Ret (Some ws', w') → ws_segs g ws'.
Proof.
  intros Hs. destruct ev as [|i e]; simpl; [by intros [[= <-] _]%M_mret_Ret|].
  destruct (ws_inflight ws !! i) as [t|] eqn:Hi; simpl; [|by intros [[=] _]%M_mret_Ret].
  destruct (answer t e) as [r|] eqn:Ha; [|by intros [[=] _]%M_mret_Ret].
  intros ([s1 db1]&w1&Ho&[[= <-] _]%M_mret_Ret)%M_bind_Ret. by eapply on_answer_segs.
Qed.

Lemma loop_turn_segs feature id ti g ws w t w' :
  ws_segs g ws → loop_turn feature id ti ws w = Ret (Some t, w') →
  ws_segs g (turn_state t).
Proof.
  intros Hs. unfold loop_turn. intros (u&w1&_&H)%M_bind_Ret.
  apply M_bind_Ret in H as (ws1&w2&Htop&H). apply M_bind_Ret in H as (u'&w3&_&H).
  unfold loop_top in Htop.
  apply M_bind_Ret in Htop as ([tasks s1]&w4&Hsp%(spawn_tasks_segs _ g)&[<- _]%M_mret_Ret).
  apply Hsp in Hs. clear Hsp.
  unfold loop_bottom in H. apply M_bind_Ret in H as ([ws2|]&w5&He&H);
    [|by apply M_mret_Ret in H as [[=] _]].
  apply (take_event_segs _ _ g) in He; [|done].
  destruct (_ || _); [by apply M_mret_Ret in H as [[= <-] _]|].
  apply M_bind_Ret in H as (s5&w6&Hd%(dispatch_segs _ g _ _ _ _ (ws_inflight ws2))
    &[[= <-] _]%M_mret_Ret); [|done].
  simpl. destruct (heartbeat_stage id (ti_now_bottom ti) (ws2 <| ws_stage := s5 |>)) as [E1 E2].
  simpl in *. by rewrite E1, E2.
Qed.

Lemma loop_start_segs feature task g now now' db w ws w' :
  loop_start feature task g now now' db w = Ret (ws, w') → ws_segs g ws.
Proof.
  unfold loop_start.
  intros (s&w1&Hd%(dispatch_segs _ g _ _ _ _ [])&[<- _]%M_mret_Ret)%M_bind_Ret; [done|].
  split_and!; [done| |by left]. split; [|done]. by exists [], [].
Qed.

Lemma loop_reaches_segs feature task g allowed ws w :
  loop_reaches feature task g allowed ws w → ws_segs g ws.
Proof.
  induction 1 as [now now' db w ws w' Hst|ti ws w ws' w' _ IH _ Ht].
  - by eapply loop_start_segs.
  - by apply (loop_turn_segs _ _ _ _ _ _ _ _ IH Ht).
Qed.

(** [C16] A run proves the segments the split produced, each by one task
    and in order: in every reachable state, and after the turn that ends the run, the
    task at position k is for the file "seg_path/k" and has that number, deferred
    proofs come after the segments and only once the tasks are complete, and from
    then on the number of segment tasks is the number the split reported. *)
Theorem run_segments feature task g allowed ws w ti t w' :
  loop_reaches feature task g allowed ws w →
  loop_turn feature (stg_id task) ti ws w = Ret (Some t, w') →
  let s := ws_stage (turn_state t) in
  ∃ segs defs, stage_prove_tasks s = segs ++ defs ∧
    (∀ k p, segs !! k = Some p →
       pt_file_no p = Z.of_nat k ∧
       pt_segment p = gt_seg_path g +:+ "/" +:+ pretty (Z.of_nat k)) ∧
    (defs ≠ [] → stage_is_tasks_gen_done s = true) ∧
    Forall (λ p, pt_is_deferred p = true) defs ∧
    (stage_is_tasks_gen_done s = true →
       len segs = Z.max 0 (st_total_segments (stage_split_task s))).
Proof.
  intros Hr%loop_reaches_segs Ht.
  destruct (loop_turn_segs _ _ _ _ _ _ _ _ Hr Ht) as (_&[(segs&defs&?&Hn&?&Hd&?) _]&_).
  exists segs, defs. split_and!; [done| | |done..].
  - intros k p Hk. by destruct (Hn k p Hk).
  - intros Hne. destruct (stage_is_tasks_gen_done _); [done|]. by destruct Hne; apply Hd.
Qed.

End segments.
