(* ===== verification/Segments.v ===== *)
(** * Segments: splitting a program into segments ([prover_v2/src/executor.rs])

    [split_with_context] runs one thread that executes the program from checkpoint to
    checkpoint and a number of workers that trace the checkpoints, take turns to
    number the segments that come out, and write them, each on its own.  The threads
    share the channel, the turn, the public values, the deferred events and the next
    segment number; every step between two of their accesses is one transition, so
    that all interleavings are covered. *)

From S2P Require Import Prelude Text Proto World.

(** ** Code outside the repository: the zkVM

    [TurnBasedSync] lets thread [i] pass when [i] turns have been advanced. *)
Class TurnSync := {
  sync : Type;
  sync_new : sync;
  my_turn : sync → nat → bool;
  advance_turn : sync → sync;
  my_turn_iter k i : my_turn (Nat.iter k advance_turn sync_new) i = bool_decide (i = k)
}.

(** The public values the workers thread through the shards ([zkm_stark]). *)
Record PublicValues {digest addr_bits : Type} := mkPublicValues {
  pv_shard : Z;
  pv_execution_shard : Z;
  pv_start_pc : Z;
  pv_next_pc : Z;
  pv_committed_value_digest : digest;
  pv_deferred_proofs_digest : digest;
  pv_previous_init_addr_bits : addr_bits;
  pv_last_init_addr_bits : addr_bits;
  pv_previous_finalize_addr_bits : addr_bits;
  pv_last_finalize_addr_bits : addr_bits
}.
Arguments PublicValues : clear implicits.

Class Zkvm := {
  digest : Type;
  addr_bits : Type;
  exe_state : Type;
  record : Type;
  (** [public_values] of a record, and its update *)
  record_pv : record → PublicValues digest addr_bits;
  with_pv : PublicValues digest addr_bits → record → record;
  (** [record.defer()], [deferred.append] *)
  defer : record → record;
  append : record → record → record;
  (** the public values a split starts from *)
  pv_reset : PublicValues digest addr_bits;
  (** bincode and zstd of a segment *)
  encode_state : exe_state → PublicValues digest addr_bits → bytes;
  encode_record : record → bytes;
  record_with_pv v r : record_pv (with_pv v r) = v
}.

(** What one split runs with: its program, key, input and options. *)
Class Splitter {Z0 : Zkvm} := {
  (** [trace_checkpoint] *)
  trace_checkpoint : exe_state → list record;
  (** [deferred.split(done, opts)] *)
  split_deferred : bool → record → list record * record;
  (** the record the deferred events are collected in *)
  record_new : record;
  (** [get_recursion_deferred_inputs] of the proofs on the input, serialised; none when
      there are no proofs *)
  deferred_inputs : PublicValues digest addr_bits → list bytes;
  (** no value is serialised to nothing, which would not be written *)
  deferred_inputs_written pv : [] ∉ deferred_inputs pv
}.

(** ** Files being written *)

(** How far a file has been written: 0 before [File::create], [S c] with [c] bytes in it.
    [write_all] hands the data to the system in pieces of its choice; a byte at a time
    has all of their ends among its states. *)
Abbreviation Sent := nat (only parsing).
(** What is to be found under the name the data is written to. *)
Definition visible (path : string) (data : bytes) (sent : Sent) : list (string * bytes) :=
  match sent with O => [] | S c => [(path, take c data)] end.
(** Nothing of it is written yet. *)
Definition unsent {A} (l : list A) : list (A * Sent) := (λ a, (a, O)) <$> l.

Section executor.
Context `{T : !TurnSync} `{Z0 : !Zkvm} `{Sp : !Splitter}.
Abbreviation PV := (PublicValues digest addr_bits).

Inductive Segment :=
  | SState (state : exe_state) (public_values : PV)
  | SRecord (r : record).
Definition encode (s : Segment) : bytes :=
  match s with SState e pv => encode_state e pv | SRecord r => encode_record r end.

(** ** One checkpoint, in its turn *)

(** A shard with CPU events: the next number, the record's own values. *)
Definition cpu_shard (state : PV) (r : record) : PV :=
  let pv := record_pv r in
  mkPublicValues _ _ (u32_wrap (pv_shard state + 1)) (pv_execution_shard pv)
    (pv_start_pc pv) (pv_next_pc pv) (pv_committed_value_digest pv)
    (pv_deferred_proofs_digest pv) (pv_previous_init_addr_bits state)
    (pv_last_init_addr_bits state) (pv_previous_finalize_addr_bits state)
    (pv_last_finalize_addr_bits state).
(** A shard of deferred events: the next number, the addresses it covers. *)
Definition deferred_shard (state : PV) (r : record) : PV :=
  let pv := record_pv r in
  mkPublicValues _ _ (u32_wrap (pv_shard state + 1)) (pv_execution_shard state)
    (pv_next_pc state) (pv_next_pc state) (pv_committed_value_digest state)
    (pv_deferred_proofs_digest state) (pv_previous_init_addr_bits pv)
    (pv_last_init_addr_bits pv) (pv_previous_finalize_addr_bits pv)
    (pv_last_finalize_addr_bits pv).
Definition next_execution_shard (state : PV) : PV :=
  mkPublicValues _ _ (pv_shard state) (u32_wrap (pv_execution_shard state + 1))
    (pv_start_pc state) (pv_next_pc state) (pv_committed_value_digest state)
    (pv_deferred_proofs_digest state) (pv_previous_init_addr_bits state)
    (pv_last_init_addr_bits state) (pv_previous_finalize_addr_bits state)
    (pv_last_finalize_addr_bits state).

(** The records get the running values, in order. *)
Fixpoint number_shards (shard : PV → record → PV) (state : PV) (rs : list record) :
    list record * PV :=
  match rs with
  | [] => ([], state)
  | r :: rs =>
      let state := shard state r in
      let '(rs, last) := number_shards shard state rs in
      (with_pv state r :: rs, last)
  end.

(** What the turn of a checkpoint yields: the segments, how far the segment number
    moves, the shared values after it, and the public values of the last record. *)
Record TurnOutput := mkTurnOutput {
  to_segments : list Segment;
  to_numbers : nat;
  to_state : PV;
  to_deferred : record;
  to_last : PV
}.

(** [records[0]] of no records panics. *)
Definition take_turn (e : exe_state) (is_done : bool) (state : PV) (deferred : record) :
    outcome TurnOutput :=
  let '(records, state) := number_shards cpu_shard state (trace_checkpoint e) in
  let deferred := foldl append deferred (defer <$> records) in
  let '(shards, deferred) := split_deferred is_done deferred in
  let state := if is_done then state else next_execution_shard state in
  let '(shards, state) := number_shards deferred_shard state shards in
  first ← unwrap (head records);
  let segments := SState e (record_pv first) :: (SRecord <$> shards) in
  mret {| to_segments := segments;
          to_numbers := (length records + length shards)%nat;
          to_state := state;
          to_deferred := deferred;
          to_last := match last shards with
                     | Some r => record_pv r
                     | None => record_pv (default first (last records))
                     end |}.

(** ** Files *)

Definition segment_path (seg_path : string) (n : nat) : string :=
  seg_path +:+ "/" +:+ pretty n.
Definition segments_txt (seg_path : string) : string := seg_path +:+ "/segments.txt".
(** The numbers start from 2^16. *)
Definition deferred_name (i : nat) : string :=
  "deferred_proof_" +:+ pretty (Z.lor (Z.shiftl 1 16) (Z.of_nat i)).
Definition deferred_path (seg_path : string) (i : nat) : string :=
  seg_path +:+ "/" +:+ deferred_name i.

(** [write_file]: the text goes to a temporary file that is then renamed. *)
Definition fs_rename (fs : Fs) (from to : string) : option Fs :=
  if decide (from ∈ fs_denied fs ∨ to ∈ fs_denied fs ∨ to ∈ fs_dirs fs) then None
  else data ← fs_files fs !! from;
       Some (fs <| fs_files := <[to := data]> (delete from (fs_files fs)) |>).
Definition tmp_path (path : string) : string := path +:+ ".tmp".
Definition write_file (fs : Fs) (path : string) (buf : bytes) : option Fs :=
  fs ← fs_create fs (tmp_path path) buf;
  fs_rename fs (tmp_path path) path.

(** ** The threads *)

Definition Checkpoint : Type := nat * exe_state * bool.

(** A worker: before [recv]; with a checkpoint, until its turn; in its turn, with
    [segments.txt] to write; with segments to write and, for the last checkpoint, the
    public values the deferred proofs need; with deferred proofs to write; gone. *)
Inductive Worker :=
  | Receiving
  | Tracing (c : Checkpoint)
  | Announcing (sent : Sent) (segments : list (nat * Segment)) (last : option PV)
  | Writing (pending : list (nat * Segment * Sent)) (last : option PV)
  | WritingDeferred (pending : list (nat * bytes * Sent))
  | Exited.

(** [x_todo]: the checkpoints the program has not reached.  [x_locked]: the guards of
    the public values, the deferred record and the segment number, taken together in a
    turn, are held; they live to the end of the iteration, past [advance_turn].
    [x_files]: the files that are complete. *)
Record Exec := mkExec {
  x_todo : list exe_state;
  x_next : nat;
  x_channel : list Checkpoint;
  x_sync : sync;
  x_state : PV;
  x_deferred : record;
  x_segment_index : nat;
  x_locked : bool;
  x_workers : list Worker;
  x_files : gmap string bytes
}.
#[export] Instance Exec_settable : Settable Exec := λ r,
  mkExec (x_todo r) (x_next r) (x_channel r) (x_sync r) (x_state r) (x_deferred r)
    (x_segment_index r) (x_locked r) (x_workers r) (x_files r).

Definition set_worker (j : nat) (k : Worker) (x : Exec) : Exec :=
  x <| x_workers := <[j := k]> (x_workers x) |>.
Definition put_file (path : string) (data : bytes) (x : Exec) : Exec :=
  x <| x_files := <[path := data]> (x_files x) |>.

Context (capacity : nat) (seg_path : string).

(** What a turn does to the shared values. *)
Definition take_values (t : TurnOutput) (x : Exec) : Exec :=
  x <| x_state := to_state t |> <| x_deferred := to_deferred t |>
    <| x_segment_index := (x_segment_index x + to_numbers t)%nat |> <| x_locked := true |>.
(** [segments.txt] announces the segments of a turn before they are written. *)
Definition announcement (x : Exec) : bytes :=
  String.list_byte_of_string (pretty (x_segment_index x)).
(** The turn ends when [segments.txt] has been renamed. *)
Definition end_turn (x : Exec) : Exec :=
  put_file (segments_txt seg_path) (announcement x)
    (x <| x_sync := advance_turn (x_sync x) |>).
(** The end of an iteration drops the guards. *)
Definition end_iteration (j : nat) (x : Exec) : Exec :=
  set_worker j Receiving (x <| x_locked := false |>).

(** Numbered from the segment number the turn found. *)
Definition number_from {A} (base : nat) (l : list A) : list (nat * A) :=
  imap (λ i a, ((base + i)%nat, a)) l.

Inductive exec_step : Exec → Exec → Prop :=
  | exec_checkpoint x e es :
      (* a checkpoint is reached; the last one is done *)
      x_todo x = e :: es → (length (x_channel x) < capacity)%nat →
      exec_step x (x <| x_todo := es |> <| x_next := S (x_next x) |>
                     <| x_channel := x_channel x ++
                          [(x_next x, e, bool_decide (es = []))] |>)
  | exec_receive x j c cs :
      x_workers x !! j = Some Receiving → x_channel x = c :: cs →
      exec_step x (set_worker j (Tracing c) (x <| x_channel := cs |>))
  | exec_closed x j :
      (* the sender is gone and the channel is empty *)
      x_workers x !! j = Some Receiving → x_channel x = [] → x_todo x = [] →
      exec_step x (set_worker j Exited x)
  | exec_turn x j i e is_done t :
      x_workers x !! j = Some (Tracing (i, e, is_done)) → my_turn (x_sync x) i = true →
      x_locked x = false →
      take_turn e is_done (x_state x) (x_deferred x) = Ret t →
      exec_step x (set_worker j
        (Announcing 0 (number_from (x_segment_index x) (to_segments t))
           (if is_done then Some (to_last t) else None)) (take_values t x))
  | exec_announce x j sent l last :
      x_workers x !! j = Some (Announcing sent l last) →
      (sent ≤ length (announcement x))%nat →
      exec_step x (set_worker j (Announcing (S sent) l last) x)
  | exec_announced x j sent l last :
      x_workers x !! j = Some (Announcing sent l last) →
      (length (announcement x) < sent)%nat →
      exec_step x (set_worker j (Writing (unsent l) last) (end_turn x))
  | exec_write x j l1 n s sent l2 last :
      (* the segments of a worker are written in parallel, under temporary names *)
      x_workers x !! j = Some (Writing (l1 ++ (n, s, sent) :: l2) last) →
      (sent ≤ length (encode s))%nat →
      exec_step x (set_worker j (Writing (l1 ++ (n, s, S sent) :: l2) last) x)
  | exec_rename x j l1 n s sent l2 last :
      x_workers x !! j = Some (Writing (l1 ++ (n, s, sent) :: l2) last) →
      (length (encode s) < sent)%nat →
      exec_step x (set_worker j (Writing (l1 ++ l2) last)
        (put_file (segment_path seg_path n) (encode s) x))
  | exec_written x j :
      x_workers x !! j = Some (Writing [] None) → exec_step x (end_iteration j x)
  | exec_last_written x j pv :
      x_workers x !! j = Some (Writing [] (Some pv)) →
      exec_step x (set_worker j
        (WritingDeferred (unsent (number_from 0 (deferred_inputs pv)))) x)
  | exec_write_deferred x j l1 n b sent l2 :
      (* the inputs of the deferred proofs are written under their own names *)
      x_workers x !! j = Some (WritingDeferred (l1 ++ (n, b, sent) :: l2)) →
      (sent ≤ length b)%nat →
      exec_step x (set_worker j (WritingDeferred (l1 ++ (n, b, S sent) :: l2)) x)
  | exec_close_deferred x j l1 n b sent l2 :
      x_workers x !! j = Some (WritingDeferred (l1 ++ (n, b, sent) :: l2)) →
      (length b < sent)%nat →
      exec_step x (set_worker j (WritingDeferred (l1 ++ l2))
        (put_file (deferred_path seg_path n) b x))
  | exec_deferred_written x j :
      x_workers x !! j = Some (WritingDeferred []) → exec_step x (end_iteration j x).

(** What the directory shows of the files a worker is writing: [segments.txt] and the
    segments under the names [write_file] renames, the inputs of the deferred proofs
    under their own. *)
Definition partial (x : Exec) (w : Worker) : list (string * bytes) :=
  match w with
  | Announcing sent _ _ =>
      visible (tmp_path (segments_txt seg_path)) (announcement x) sent
  | Writing p _ =>
      p ≫= λ '(n, s, sent), visible (tmp_path (segment_path seg_path n)) (encode s) sent
  | WritingDeferred p =>
      p ≫= λ '(n, b, sent), visible (deferred_path seg_path n) b sent
  | _ => []
  end.
(** The directory, as other processes see it. *)
Definition dir_files (x : Exec) : gmap string bytes :=
  list_to_map (x_workers x ≫= partial x) ∪ x_files x.

(** A schedule says which thread runs: the program, or worker [j], which goes on
    with the [i]-th of the files it has pending when it writes. *)
Inductive Choice := Program | Thread (j i : nat).

Definition exec_run_worker (j i : nat) (x : Exec) : option Exec :=
  k ← x_workers x !! j;
  match k with
  | Receiving =>
      match x_channel x, x_todo x with
      | c :: cs, _ => Some (set_worker j (Tracing c) (x <| x_channel := cs |>))
      | [], [] => Some (set_worker j Exited x)
      | [], _ => None
      end
  | Tracing (i, e, is_done) =>
      if my_turn (x_sync x) i && negb (x_locked x) then
        match take_turn e is_done (x_state x) (x_deferred x) with
        | Ret t => Some (set_worker j
            (Announcing 0 (number_from (x_segment_index x) (to_segments t))
               (if is_done then Some (to_last t) else None)) (take_values t x))
        | Panic => None
        end
      else None
  | Announcing sent l last =>
      Some (if (sent <=? length (announcement x))%nat
            then set_worker j (Announcing (S sent) l last) x
            else set_worker j (Writing (unsent l) last) (end_turn x))
  | Writing [] None => Some (end_iteration j x)
  | Writing [] (Some pv) =>
      Some (set_worker j (WritingDeferred (unsent (number_from 0 (deferred_inputs pv)))) x)
  | Writing p last =>
      '(n, s, sent) ← p !! i;
      Some (if (sent <=? length (encode s))%nat
            then set_worker j (Writing (<[i := (n, s, S sent)]> p) last) x
            else set_worker j (Writing (delete i p) last)
                   (put_file (segment_path seg_path n) (encode s) x))
  | WritingDeferred [] => Some (end_iteration j x)
  | WritingDeferred p =>
      '(n, b, sent) ← p !! i;
      Some (if (sent <=? length b)%nat
            then set_worker j (WritingDeferred (<[i := (n, b, S sent)]> p)) x
            else set_worker j (WritingDeferred (delete i p))
                   (put_file (deferred_path seg_path n) b x))
  | Exited => None
  end.

Definition exec_run_one (c : Choice) (x : Exec) : option Exec :=
  match c with
  | Program =>
      match x_todo x with
      | e :: es =>
          if decide (length (x_channel x) < capacity)%nat then
            Some (x <| x_todo := es |> <| x_next := S (x_next x) |>
                    <| x_channel := x_channel x ++ [(x_next x, e, bool_decide (es = []))] |>)
          else None
      | [] => None
      end
  | Thread j i => exec_run_worker j i x
  end.

Definition exec_run (cs : list Choice) (x : Exec) : option Exec :=
  foldl (λ o c, x ← o; exec_run_one c x) (Some x) cs.

(** The threads that can go on, a writer with each of the files it has pending. *)
Definition pending (k : Worker) : nat :=
  match k with Writing p _ => length p | WritingDeferred p => length p | _ => O end.
Definition choices (x : Exec) : list Choice :=
  Program :: mjoin (imap (λ j k, Thread j <$> seq 0 (pending k `max` 1)) (x_workers x)).
Definition runnable (x : Exec) : list Choice :=
  filter (λ c, is_Some (exec_run_one c x)) (choices x).

(** A scheduler's decisions: each picks one of the threads that can go on; without such
    a thread nothing happens any more. *)
Fixpoint run_threads (sched : list nat) (x : Exec) : Exec :=
  match sched with
  | [] => x
  | i :: sched =>
      match runnable x !! (i mod length (runnable x))%nat with
      | Some c => run_threads sched (default x (exec_run_one c x))
      | None => x
      end
  end.

(** [es]: the checkpoints of the execution, the last one where the program ends. *)
Definition exec_init (trace_gen_workers : nat) (es : list exe_state) : Exec :=
  {| x_todo := es; x_next := 0; x_channel := []; x_sync := sync_new;
     x_state := pv_reset; x_deferred := record_new; x_segment_index := 0; x_locked := false;
     x_workers := repeat Receiving trace_gen_workers; x_files := ∅ |}.

Definition exec_reachable (trace_gen_workers : nat) (es : list exe_state) (x : Exec) : Prop :=
  rtc exec_step (exec_init trace_gen_workers es) x.

(** All threads have been joined; [total_segments] is the segment number. *)
Definition joined (x : Exec) : Prop :=
  x_todo x = [] ∧ Forall (λ k, k = Exited) (x_workers x).
#[export] Instance exited_dec (k : Worker) : Decision (k = Exited).
Proof. destruct k; (by left) || (by right). Defined.
#[export] Instance joined_dec x : Decision (joined x).
Proof.
  destruct (x_todo x) eqn:Ht; [|by right; intros [? _]; congruence].
  destruct (decide (Forall (λ k, k = Exited) (x_workers x))); [by left|by right; intros []].
Defined.
Definition total_segments (x : Exec) : Z := u32_wrap (Z.of_nat (x_segment_index x)).

(** ** The sequential reference: the checkpoints one after the other *)

Fixpoint sequential (es : list exe_state) (state : PV) (deferred : record) :
    outcome (list Segment * PV) :=
  match es with
  | [] => mret ([], state)
  | e :: es =>
      t ← take_turn e (bool_decide (es = [])) state deferred;
      match es with
      | [] => mret (to_segments t, to_last t)
      | _ => '(rest, last) ← sequential es (to_state t) (to_deferred t);
             mret (to_segments t ++ rest, last)
      end
  end.

End executor.
