(* ===== verification/SegmentsInv.v ===== *)
(** * SegmentsInv: the invariant of the splitting threads

    What the threads of [Segments] have done so far is a prefix of the sequential
    execution: the checkpoints whose turn is over, the segments they gave, the files
    written and the files the one writer still owes.  The invariant is kept by every
    step, and every step lowers a measure. *)

From S2P Require Import Prelude Text Proto World Segments.
From Stdlib Require Import Ascii.

(** ** Replacing a worker *)

Lemma replace_Permutation {A} (l : list A) j x y :
  l !! j = Some x → ∃ rest, l ≡ₚ x :: rest ∧ <[j := y]> l ≡ₚ y :: rest.
Proof.
  intros H. exists (delete j l). split; [by apply delete_Permutation|].
  rewrite insert_take_drop by eauto using lookup_lt_Some.
  by rewrite delete_take_drop, Permutation_middle.
Qed.

Lemma sum_list_replace {A} (f : A → nat) (l : list A) j x y :
  l !! j = Some x →
  (sum_list_with f (<[j := y]> l) + f x = sum_list_with f l + f y)%nat.
Proof.
  revert j. induction l as [|z l IH]; intros [|j] H; simplify_eq/=; [lia|].
  specialize (IH _ H). lia.
Qed.

Lemma sum_list_map {A B} (f : B → nat) (g : A → B) l :
  sum_list_with f (g <$> l) = sum_list_with (λ a, f (g a)) l.
Proof. induction l as [|a l IH]; [done|]. cbn. by rewrite <-IH. Qed.

Lemma omap_replace_None {A B} (f : A → option B) (ws : list A) j w w' :
  ws !! j = Some w → f w = f w' → omap f (<[j := w']> ws) = omap f ws.
Proof.
  revert j. induction ws as [|v ws IH]; intros [|j] H Hf; simplify_eq/=; [by rewrite Hf|].
  by rewrite (IH j).
Qed.

Lemma omap_replace_Permutation {A B} (f : A → option B) (ws : list A) j w w' :
  ws !! j = Some w → ∃ l, omap f ws ≡ₚ option_list (f w) ++ l ∧
    omap f (<[j := w']> ws) ≡ₚ option_list (f w') ++ l.
Proof.
  intros H. destruct (replace_Permutation ws j w w' H) as (rest&H1&H2).
  exists (omap f rest). apply (omap_Permutation f) in H1, H2. revert H1 H2. cbn.
  by destruct (f w), (f w').
Qed.

(** Elements that are skipped first are skipped by a sparser list, too. *)
Lemma omap_none_incl {A B C} (f : A → option B) (g : A → option C) (ws : list A) :
  (∀ w, f w = None → g w = None) → omap f ws = [] → omap g ws = [].
Proof.
  intros Hfg. induction ws as [|v ws IH]; [done|]. cbn.
  destruct (f v) eqn:Hf; [done|]. intros H. by rewrite (Hfg _ Hf), IH.
Qed.

Lemma elem_of_replace {A} (ws : list A) j w' v :
  v ≠ w' → v ∈ <[j := w']> ws → v ∈ ws.
Proof.
  intros Hw (i&Hi)%list_elem_of_lookup.
  apply list_lookup_insert_Some in Hi as [(->&<-&_)|[_ Hi]]; [done|].
  by apply list_elem_of_lookup_2 in Hi.
Qed.

(** ** The names of the files *)

Lemma pretty_nat_first (n : nat) : ∃ c s, pretty n = String c s ∧ is_Some (digit c).
Proof. apply pretty_N_first. Qed.

Lemma segment_path_inj p m n : segment_path p m = segment_path p n → m = n.
Proof. unfold segment_path. intros H. by simplify_eq. Qed.

Lemma segment_path_not_txt p n : segment_path p n ≠ segments_txt p.
Proof.
  intros H%(inj (String.app p)). destruct (pretty_nat_first n) as (c&s&Hs&[z Hz]).
  change (String "/"%char (pretty n) = String "/"%char "segments.txt") in H.
  rewrite Hs in H. by simplify_eq.
Qed.

Lemma segment_path_not_deferred p n i : segment_path p n ≠ deferred_path p i.
Proof.
  intros H%(inj (String.app p)). destruct (pretty_nat_first n) as (c&s&Hs&[z Hz]).
  change (String "/"%char (pretty n) = String "/"%char (deferred_name i)) in H.
  rewrite Hs in H. by simplify_eq.
Qed.

(** What [write_file] writes first has another name. *)
Lemma last_char_tmp p : last_char (tmp_path p) = Some "p"%char.
Proof. by apply last_char_app. Qed.

Lemma segment_path_not_tmp p n q : segment_path p n ≠ tmp_path q.
Proof.
  intros H. pose proof (last_char_tmp q) as Hl. rewrite <-H in Hl. revert Hl.
  unfold segment_path. rewrite <-str_app_assoc.
  intros Hl%last_char_digits; [|apply (digits_pretty (N.of_nat n))].
  by destruct (pretty_nat_first n) as (c&t&Ht&_); rewrite Ht in Hl.
Qed.

Lemma deferred_path_not_txt p i : deferred_path p i ≠ segments_txt p.
Proof. intros H%(inj (String.app p)). by simplify_eq. Qed.

(** [(1 << 16) | i] adds as long as [i] has sixteen bits. *)
Lemma deferred_number (i : nat) :
  Z.of_nat i < 2 ^ 16 → Z.lor (Z.shiftl 1 16) (Z.of_nat i) = 2 ^ 16 + Z.of_nat i.
Proof.
  intros Hi. rewrite Z.shiftl_1_l, Z.add_nocarry_lor; [done|].
  apply Z.bits_inj'. intros b Hb. rewrite Z.land_spec, Z.pow2_bits_eqb, Z.bits_0 by lia.
  destruct (Z.eqb_spec 16 b) as [<-|]; [|done].
  cbn [andb]. apply Z.testbit_false; [lia|]. by rewrite Z.div_small by lia.
Qed.

Lemma deferred_name_inj i j :
  Z.of_nat i < 2 ^ 16 → Z.of_nat j < 2 ^ 16 → deferred_name i = deferred_name j → i = j.
Proof.
  intros Hi Hj. unfold deferred_name. rewrite !deferred_number by done.
  intros H%(inj (String.app _)). apply (inj pretty) in H. lia.
Qed.

Lemma deferred_path_inj p i j :
  Z.of_nat i < 2 ^ 16 → Z.of_nat j < 2 ^ 16 → deferred_path p i = deferred_path p j → i = j.
Proof.
  intros Hi Hj H%(inj (String.app p)). apply deferred_name_inj; [done..|].
  change (String "/"%char (deferred_name i) = String "/"%char (deferred_name j)) in H.
  revert H. generalize (deferred_name i) (deferred_name j). intros s t H. by injection H.
Qed.

(** ** The sequential execution *)

Section invariant.
Context `{T : !TurnSync} `{Z0 : !Zkvm} `{Sp : !Splitter}.
Abbreviation PV := (PublicValues digest addr_bits).
Context (capacity : nat) (seg_path : string).

Abbreviation exec_step := (exec_step capacity seg_path).

(** A checkpoint gives one record, as [debug_assert_eq!(records.len(), 1)] says. *)
Definition one_record : Prop := ∀ e, ∃ r, trace_checkpoint e = [r].

Lemma number_shards_length shard state rs :
  length (number_shards shard state rs).1 = length rs.
Proof.
  revert state. induction rs as [|r rs IH]; intros state; [done|]. cbn.
  specialize (IH (shard state r)). destruct (number_shards _ _ _). cbn in *. by rewrite IH.
Qed.

Lemma take_turn_one e is_done state deferred :
  one_record → ∃ t, take_turn e is_done state deferred = Ret t ∧
    to_numbers t = length (to_segments t).
Proof.
  intros H. destruct (H e) as [r Hr]. unfold take_turn. rewrite Hr. cbn [number_shards].
  destruct (split_deferred _ _) as [shards d'].
  destruct (number_shards deferred_shard _ _) as [ss st'].
  eexists. split; [done|]. cbn. by rewrite length_fmap.
Qed.

Lemma sequential_cons e es state deferred segs last :
  sequential (e :: es) state deferred = Ret (segs, last) →
  ∃ t, take_turn e (bool_decide (es = [])) state deferred = Ret t ∧
    (es = [] → segs = to_segments t ∧ last = to_last t) ∧
    (es ≠ [] → ∃ rest, sequential es (to_state t) (to_deferred t) = Ret (rest, last) ∧
                 segs = to_segments t ++ rest).
Proof.
  cbn. intros (t&Ht&H)%bind_Ret. exists t. split; [done|].
  destruct es as [|e' es]; [injection H as <- <-; done|].
  split; [done|]. intros _.
  apply bind_Ret in H as ([rest last']&Hr&H). injection H as <- <-. eauto.
Qed.

Lemma sequential_total es state deferred :
  one_record → ∃ segs last, sequential es state deferred = Ret (segs, last).
Proof.
  intros H. revert state deferred. induction es as [|e es IH]; intros; cbn; [by eexists _, _|].
  destruct (take_turn_one e (bool_decide (es = [])) state deferred H) as (t&->&_). cbn.
  destruct es as [|e' es]; [by eexists _, _|].
  destruct (IH (to_state t) (to_deferred t)) as (segs&last&->). by eexists _, _.
Qed.

(** ** Schedules *)

Lemma exec_run_writing j i p last x y :
  x_workers x !! j = Some (Writing p last) →
  ('(n, s, sent) ← p !! i;
   Some (if (sent <=? length (encode s))%nat
         then set_worker j (Writing (<[i := (n, s, S sent)]> p) last) x
         else set_worker j (Writing (delete i p) last)
                (put_file (segment_path seg_path n) (encode s) x))) = Some y →
  exec_step x y.
Proof.
  intros Hj ([[n s] sent]&Hi&[= <-])%bind_Some.
  rewrite <-(take_drop_middle _ _ _ Hi) in Hj.
  destruct (Nat.leb_spec sent (length (encode s))).
  - rewrite insert_take_drop by by eapply lookup_lt_Some. by eapply exec_write.
  - rewrite delete_take_drop. by eapply exec_rename.
Qed.

Lemma exec_run_writing_deferred j i p x y :
  x_workers x !! j = Some (WritingDeferred p) →
  ('(n, b, sent) ← p !! i;
   Some (if (sent <=? length b)%nat
         then set_worker j (WritingDeferred (<[i := (n, b, S sent)]> p)) x
         else set_worker j (WritingDeferred (delete i p))
                (put_file (deferred_path seg_path n) b x))) = Some y →
  exec_step x y.
Proof.
  intros Hj ([[n b] sent]&Hi&[= <-])%bind_Some.
  rewrite <-(take_drop_middle _ _ _ Hi) in Hj.
  destruct (Nat.leb_spec sent (length b)).
  - rewrite insert_take_drop by by eapply lookup_lt_Some. by eapply exec_write_deferred.
  - rewrite delete_take_drop. by eapply exec_close_deferred.
Qed.

Lemma exec_run_worker_step j i x y :
  exec_run_worker seg_path j i x = Some y → exec_step x y.
Proof.
  unfold exec_run_worker. intros (k&Hj&H)%bind_Some.
  destruct k as [|[[k e] d]|sent l last|p last|p|].
  - destruct (x_channel x) as [|c cs] eqn:Hc; [destruct (x_todo x) eqn:Ht|];
      simplify_eq; by constructor.
  - destruct (my_turn _ _) eqn:Hm; [|done]. destruct (x_locked x) eqn:Hl; [done|].
    cbn in H. destruct (take_turn _ _ _ _) eqn:Ht; simplify_eq. by econstructor.
  - injection H as <-. destruct (Nat.leb_spec sent (length (announcement x))).
    + by apply exec_announce.
    + by eapply exec_announced.
  - destruct p as [|f p']; [destruct last; simplify_eq; by econstructor|].
    by eapply exec_run_writing.
  - destruct p as [|f p']; [simplify_eq; by econstructor|].
    by eapply exec_run_writing_deferred.
  - done.
Qed.

Lemma exec_run_one_step c x y : exec_run_one capacity seg_path c x = Some y → exec_step x y.
Proof.
  destruct c as [|j i]; cbn; [|apply exec_run_worker_step].
  destruct (x_todo x) eqn:Ht; [done|]. case_decide; [|done]. intros [= <-]. by constructor.
Qed.

Lemma exec_run_steps cs x y :
  exec_run capacity seg_path cs x = Some y → rtc exec_step x y.
Proof.
  unfold exec_run. revert x. induction cs as [|c cs IH]; intros x; cbn [foldl mbind option_bind].
  { by intros [= <-]. }
  destruct (exec_run_one capacity seg_path c x) as [z|] eqn:Hz.
  - intros H. apply rtc_l with z; [by eapply exec_run_one_step|by apply IH].
  - clear. induction cs; [done|]. cbn. done.
Qed.

(** ** The files of an execution *)

Definition seg_file (f : nat * Segment) : string * bytes :=
  (segment_path seg_path f.1, encode f.2).
Definition input_file (f : nat * bytes) : string * bytes :=
  (deferred_path seg_path f.1, f.2).
Definition segment_files (segs : list Segment) : list (string * bytes) :=
  seg_file <$> number_from 0 segs.
Definition deferred_files_of (last : PV) : list (string * bytes) :=
  input_file <$> number_from 0 (deferred_inputs last).
(** The files besides [segments.txt]. *)
Definition all_files (segs : list Segment) (last : PV) : list (string * bytes) :=
  segment_files segs ++ deferred_files_of last.

Lemma number_from_app {A} b (l1 l2 : list A) :
  number_from b (l1 ++ l2) = number_from b l1 ++ number_from (b + length l1) l2.
Proof.
  unfold number_from. rewrite imap_app. f_equal. apply imap_ext. intros. cbn. f_equal. lia.
Qed.

Lemma segment_files_app l1 l2 :
  segment_files (l1 ++ l2) = segment_files l1 ++ (seg_file <$> number_from (length l1) l2).
Proof. unfold segment_files. by rewrite number_from_app, fmap_app. Qed.

Lemma elem_of_number_from {A} b (l : list A) n a :
  (n, a) ∈ number_from b l ↔ ∃ i, n = (b + i)%nat ∧ l !! i = Some a.
Proof.
  unfold number_from. rewrite list_elem_of_lookup. setoid_rewrite list_lookup_imap_Some.
  split; [intros (i&x&Hx&[= -> ->]); eauto|]. intros (i&->&Hi). by exists i, a.
Qed.

Lemma length_number_from {A} b (l : list A) : length (number_from b l) = length l.
Proof. apply length_imap. Qed.

(** Sixteen bits number the deferred proofs. *)
Definition few_deferred (last : PV) : Prop := len (deferred_inputs last) ≤ 2 ^ 16.

Lemma all_files_fun segs last p d1 d2 :
  few_deferred last →
  (p, d1) ∈ all_files segs last → (p, d2) ∈ all_files segs last → d1 = d2.
Proof.
  intros Hfew. unfold all_files, segment_files, deferred_files_of.
  rewrite !elem_of_app, !list_elem_of_fmap.
  assert (∀ i b, deferred_inputs last !! i = Some b → Z.of_nat i < 2 ^ 16) as Hlt.
  { intros i b Hi%lookup_lt_Some. unfold few_deferred in Hfew. lia. }
  intros [([n s]&[= -> ->]&Hn)|([i a]&[= -> ->]&Hi)]
    [([n' s']&[= E ->]&Hn')|([i' a']&[= E ->]&Hi')]; cbn in *.
  - apply segment_path_inj in E. subst.
    apply elem_of_number_from in Hn as (?&->&?), Hn' as (?&?&?). by simplify_eq/=.
  - by apply segment_path_not_deferred in E.
  - by apply symmetry, segment_path_not_deferred in E.
  - apply elem_of_number_from in Hi as (?&->&?), Hi' as (?&->&?).
    apply deferred_path_inj in E; [by simplify_eq/=|eauto..].
Qed.

Lemma all_files_not_txt segs last d : (segments_txt seg_path, d) ∉ all_files segs last.
Proof.
  unfold all_files, segment_files, deferred_files_of.
  rewrite elem_of_app, !list_elem_of_fmap. intros [([n s]&[= E]&_)|([i a]&[= E]&_)].
  - by apply symmetry, segment_path_not_txt in E.
  - by apply symmetry, deferred_path_not_txt in E.
Qed.

(** ** The invariant *)

Definition held (w : Worker) : option Checkpoint :=
  match w with Tracing c => Some c | _ => None end.
(** A worker that writes [segments.txt] has not advanced the turn yet. *)
Definition announcing (w : Worker) : option () :=
  match w with Announcing _ _ _ => Some tt | _ => None end.
(** What a worker that holds the guards still has to write, apart from [segments.txt]. *)
Definition owed (w : Worker) : option (list (string * bytes)) :=
  match w with
  | Announcing _ p last =>
      Some ((seg_file <$> p) ++ default [] (deferred_files_of <$> last))
  | Writing p last =>
      Some ((seg_file <$> p.*1) ++ default [] (deferred_files_of <$> last))
  | WritingDeferred p => Some (input_file <$> p.*1)
  | _ => None
  end.

Lemma owed_announcing w : owed w = None → announcing w = None.
Proof. by destruct w. Qed.
Lemma fst_unsent {A} (l : list A) : (unsent l).*1 = l.
Proof. unfold unsent. rewrite <-list_fmap_compose. apply list_fmap_id. Qed.

Context (es : list exe_state) (segs : list Segment) (last : PV).

Definition checkpoints : list Checkpoint :=
  imap (λ i e, (i, e, bool_decide (S i = length es))) es.
(** A number of segments, as [segments.txt] gives it. *)
Definition count_text (n : nat) : bytes := String.list_byte_of_string (pretty n).
(** The files due when [k] turns have given the segments [done]. *)
Definition due (k : nat) (done : list Segment) : list (string * bytes) :=
  segment_files done ++ if bool_decide (k = length es) then deferred_files_of last else [].

(** [k] turns are over, [m] checkpoints have been received; [done] are the segments of
    the turns that are over and [rest] those to come; [o] is what the writer owes. *)
Record Inv (x : Exec) (k m : nat) (done rest : list Segment)
    (o : option (list (string * bytes))) : Prop := {
  inv_todo : x_todo x = drop (x_next x) es;
  inv_next : (k ≤ m ≤ x_next x)%nat ∧ (x_next x ≤ length es)%nat;
  inv_channel : x_channel x = drop m (take (x_next x) checkpoints);
  inv_held : omap held (x_workers x) ≡ₚ drop k (take m checkpoints);
  inv_exited : Exited ∈ x_workers x → x_todo x = [] ∧ x_channel x = [];
  inv_sync : x_sync x =
    Nat.iter (k - length (omap announcing (x_workers x))) advance_turn sync_new;
  inv_segs : segs = done ++ rest;
  inv_rest : (k < length es)%nat →
    sequential (drop k es) (x_state x) (x_deferred x) = Ret (rest, last);
  inv_end : k = length es → rest = [];
  inv_index : x_segment_index x = length done;
  inv_txt : omap announcing (x_workers x) = [] → (0 < k)%nat →
    x_files x !! segments_txt seg_path = Some (count_text (length done));
  inv_writer : omap owed (x_workers x) ≡ₚ option_list o;
  inv_locked : x_locked x = bool_decide (is_Some o);
  inv_started : is_Some o → (0 < k)%nat;
  inv_owed f : f ∈ default [] o → f ∈ due k done;
  inv_written f : f ∈ due k done → f ∈ default [] o ∨ x_files x !! f.1 = Some f.2;
  inv_files p d : x_files x !! p = Some d →
    (∃ n, (n ≤ length done)%nat ∧ p = segments_txt seg_path ∧ d = count_text n) ∨
    (p, d) ∈ due k done
}.

(** Work left: every step does some of it.  A file takes a step to create it, one for a
    byte and one to close or rename it. *)
Definition left_of (data : bytes) (sent : Sent) : nat := S (S (length data) - sent).
Definition file_work (f : string * bytes) : nat := left_of f.2 0.
Definition txt_work : nat := left_of (count_text (length segs)) 0.
#[local] Arguments txt_work : simpl never.
Definition worker_work (w : Worker) : nat :=
  match w with
  | Receiving => 1
  | Tracing _ => 4 + txt_work
  | Announcing sent p _ =>
      3 + left_of (count_text (length segs)) sent +
      sum_list_with file_work (default [] (owed w))
  | Writing p last =>
      3 + sum_list_with (λ f, left_of (encode f.1.2) f.2) p +
      sum_list_with file_work (default [] (deferred_files_of <$> last))
  | WritingDeferred p => 2 + sum_list_with (λ f, left_of f.1.2 f.2) p
  | Exited => 0
  end.
Definition work (x : Exec) (k : nat) (rest : list Segment) : nat :=
  (5 + txt_work) * length (x_todo x) + (4 + txt_work) * length (x_channel x) +
  sum_list_with worker_work (x_workers x) +
  sum_list_with file_work (segment_files rest) +
  if bool_decide (k = length es) then 0 else sum_list_with file_work (deferred_files_of last).

(** Whatever the numbers the segments get. *)
Lemma segments_work b (l : list Segment) :
  sum_list_with file_work (seg_file <$> number_from b l) =
  sum_list_with (λ s, left_of (encode s) 0) l.
Proof.
  revert b. induction l as [|s l IH]; intros b; [done|].
  unfold number_from in *. rewrite imap_cons, fmap_cons. cbn [sum_list_with].
  rewrite <-(IH (S b)). unfold file_work at 1. cbn [seg_file fst snd].
  f_equal. f_equal. f_equal. apply imap_ext. intros. cbn. f_equal. lia.
Qed.
Lemma segment_files_work_app l1 l2 :
  sum_list_with file_work (segment_files (l1 ++ l2)) =
  (sum_list_with file_work (segment_files l1) + sum_list_with file_work (segment_files l2))%nat.
Proof.
  unfold segment_files. rewrite !segments_work, sum_list_with_app. done.
Qed.
Lemma writing_work p last' :
  worker_work (Writing (unsent p) last') =
  (3 + sum_list_with file_work ((seg_file <$> p) ++ default [] (deferred_files_of <$> last')))%nat.
Proof.
  unfold worker_work, unsent. by rewrite sum_list_with_app, !sum_list_map, Nat.add_assoc.
Qed.
Lemma writing_deferred_work pv :
  worker_work (WritingDeferred (unsent (number_from 0 (deferred_inputs pv)))) =
  (2 + sum_list_with file_work (deferred_files_of pv))%nat.
Proof.
  unfold worker_work, deferred_files_of, unsent. by rewrite !sum_list_map.
Qed.
Lemma count_text_length m n : (m ≤ n)%nat → (length (count_text m) ≤ length (count_text n))%nat.
Proof.
  assert (∀ s, length (String.list_byte_of_string s) = String.length s) as Hl.
  { intros s. unfold String.list_byte_of_string. rewrite length_map.
    induction s as [|c s IH]; [done|]. cbn. by rewrite IH. }
  intros Hmn. unfold count_text. rewrite !Hl. apply pretty_N_length. lia.
Qed.

Lemma due_all k done rest f :
  segs = done ++ rest → f ∈ due k done → f ∈ all_files segs last.
Proof.
  intros -> [Hf|Hf]%elem_of_app; unfold all_files; rewrite segment_files_app.
  - set_solver.
  - case_bool_decide; set_solver.
Qed.

Context (Hone : one_record) (Hne : es ≠ []).
Context (Hseq : sequential es pv_reset record_new = Ret (segs, last)).
Context (Hfew : few_deferred last).

Lemma omap_repeat_None {A B} (f : A → option B) a n : f a = None → omap f (repeat a n) = [].
Proof. intros Hf. induction n as [|n IH]; [done|]. cbn. by rewrite Hf. Qed.

Lemma inv_init w : Inv (exec_init w es) 0 0 [] segs None.
Proof.
  assert (0 ≠ length es)%nat by (by destruct es).
  split; cbn; try done.
  - lia.
  - by rewrite omap_repeat_None.
  - intros [=]%list_elem_of_In%repeat_spec.
  - lia.
  - by rewrite omap_repeat_None.
  - intros f Hf%elem_of_nil. done.
  - intros f. unfold due. rewrite bool_decide_false by done. by intros ?%elem_of_nil.
Qed.

(** ** Every step keeps the invariant and does some work *)

Definition kept (x : Exec) (k : nat) (rest : list Segment) (y : Exec) : Prop :=
  ∃ k' m' done' rest' o',
    Inv y k' m' done' rest' o' ∧ (work y k' rest' < work x k rest)%nat.

Lemma checkpoints_lookup i c :
  checkpoints !! i = Some c ↔
  ∃ e, es !! i = Some e ∧ c = (i, e, bool_decide (S i = length es)).
Proof.
  unfold checkpoints. rewrite list_lookup_imap_Some.
  split; intros (e&?&?); exists e; by subst.
Qed.

Lemma checkpoints_length : length checkpoints = length es.
Proof. apply length_imap. Qed.

Lemma checkpoint_kept x k m done rest o e es' :
  Inv x k m done rest o → x_todo x = e :: es' →
  kept x k rest (x <| x_todo := es' |> <| x_next := S (x_next x) |>
    <| x_channel := x_channel x ++ [(x_next x, e, bool_decide (es' = []))] |>).
Proof.
  intros [] Hx. rewrite Hx in *.
  assert (es !! x_next x = Some e) as He.
  { rewrite <-(Nat.add_0_r (x_next x)), <-lookup_drop. by rewrite <-inv_todo0. }
  assert (S (x_next x) ≤ length es)%nat by (by apply lookup_lt_Some in He).
  assert (es' = drop (S (x_next x)) es) as Hes.
  { rewrite (drop_S _ _ _ He) in inv_todo0. by simplify_eq. }
  assert (bool_decide (es' = []) = bool_decide (S (x_next x) = length es)) as Hdone.
  { apply bool_decide_ext. rewrite <-length_zero_iff_nil, Hes, length_drop. lia. }
  exists k, m, done, rest, o. split.
  - split; cbn; try done.
    + lia.
    + rewrite inv_channel0, Hdone, (take_S_r checkpoints (x_next x)
        (x_next x, e, bool_decide (S (x_next x) = length es))).
      * rewrite drop_app_le; [done|]. rewrite length_take, checkpoints_length. lia.
      * apply checkpoints_lookup. eauto.
    + intros H1. by apply inv_exited0 in H1 as [].
  - unfold work. cbn. rewrite Hx, length_app. cbn. lia.
Qed.

Lemma receive_kept x k m done rest o j c cs :
  Inv x k m done rest o → x_workers x !! j = Some Receiving → x_channel x = c :: cs →
  kept x k rest (set_worker j (Tracing c) (x <| x_channel := cs |>)).
Proof.
  intros [] Hj Hc. rewrite Hc in *.
  assert (take (x_next x) checkpoints !! m = Some c) as Hm.
  { rewrite <-(Nat.add_0_r m), <-lookup_drop. by rewrite <-inv_channel0. }
  assert (m < x_next x)%nat by (apply lookup_lt_Some in Hm; rewrite length_take in Hm; lia).
  rewrite lookup_take_lt in Hm by done.
  exists k, (S m), done, rest, o. split.
  - destruct (omap_replace_Permutation held _ j _ (Tracing c) Hj) as (l&H1&H2).
    split; cbn; try done.
    + lia.
    + rewrite (drop_S _ c) in inv_channel0 by (by rewrite lookup_take_lt).
      by simplify_eq.
    + rewrite H2. cbn in *. rewrite <-H1, inv_held0.
      rewrite (take_S_r _ _ _ Hm), drop_app_le
        by (rewrite length_take, checkpoints_length; lia).
      by rewrite <-Permutation_cons_append.
    + intros Hex%elem_of_replace; [|done]. by apply inv_exited0 in Hex as [].
    + by rewrite (omap_replace_None _ _ j Receiving).
    + by rewrite (omap_replace_None _ _ j Receiving).
    + by rewrite (omap_replace_None _ _ j Receiving).
  - unfold work. cbn. rewrite Hc.
    pose proof (sum_list_replace worker_work _ j _ (Tracing c) Hj). cbn in *. lia.
Qed.

Lemma closed_kept x k m done rest o j :
  Inv x k m done rest o → x_workers x !! j = Some Receiving →
  x_channel x = [] → x_todo x = [] → kept x k rest (set_worker j Exited x).
Proof.
  intros [] Hj Hc Ht. exists k, m, done, rest, o. split.
  - split; cbn; try done.
    + by rewrite (omap_replace_None _ _ j Receiving).
    + by rewrite (omap_replace_None _ _ j Receiving).
    + by rewrite (omap_replace_None _ _ j Receiving).
    + by rewrite (omap_replace_None _ _ j Receiving).
  - unfold work. cbn.
    pose proof (sum_list_replace worker_work _ j _ Exited Hj). cbn in *. lia.
Qed.

(** A checkpoint in a worker's hands waits for its turn. *)
Lemma held_checkpoint x k m done rest o j i e d :
  Inv x k m done rest o → x_workers x !! j = Some (Tracing (i, e, d)) →
  (k ≤ i < m)%nat ∧ es !! i = Some e ∧ d = bool_decide (S i = length es).
Proof.
  intros [] Hj.
  assert ((i, e, d) ∈ drop k (take m checkpoints)) as Hin.
  { rewrite <-inv_held0, list_elem_of_omap. exists (Tracing (i, e, d)).
    split; [by apply list_elem_of_lookup_2 in Hj|done]. }
  apply list_elem_of_lookup in Hin as (a&Ha). rewrite lookup_drop in Ha.
  apply lookup_take_Some in Ha as [Ha Hlt].
  apply checkpoints_lookup in Ha as (e'&He&[= -> -> ->]). auto with lia.
Qed.

(** The turn of checkpoint [k] takes its segments off the sequential execution. *)
Lemma sequential_turn k e state deferred rest t :
  es !! k = Some e → sequential (drop k es) state deferred = Ret (rest, last) →
  take_turn e (bool_decide (S k = length es)) state deferred = Ret t →
  ∃ rest', rest = to_segments t ++ rest' ∧
    (S k = length es → rest' = [] ∧ to_last t = last) ∧
    ((S k < length es)%nat →
       sequential (drop (S k) es) (to_state t) (to_deferred t) = Ret (rest', last)).
Proof.
  intros He Hs Ht. rewrite (drop_S _ _ _ He) in Hs.
  assert (S k ≤ length es)%nat by (by apply lookup_lt_Some in He).
  assert (drop (S k) es = [] ↔ S k = length es) as Hnil.
  { rewrite <-length_zero_iff_nil, length_drop. lia. }
  apply sequential_cons in Hs as (t'&Ht'&H1&H2).
  rewrite (bool_decide_ext _ _ Hnil), Ht in Ht'. injection Ht' as <-.
  destruct (decide (S k = length es)) as [Hk|Hk].
  - destruct H1 as [-> ->]; [by apply Hnil|]. exists []. rewrite app_nil_r. auto with lia.
  - destruct H2 as (rest'&Hr&->); [by rewrite Hnil|]. exists rest'. auto with lia.
Qed.

(** What the worker owes after its turn, and the work that is. *)
Lemma turn_owed k done t :
  (k < length es)%nat → (S k = length es → to_last t = last) →
  ∃ w due_now,
    w = Announcing 0 (number_from (length done) (to_segments t))
          (if bool_decide (S k = length es) then Some (to_last t) else None) ∧
    owed w = Some due_now ∧ due (S k) (done ++ to_segments t) = due k done ++ due_now ∧
    (worker_work w + (if bool_decide (S k = length es) then 0
                      else sum_list_with file_work (deferred_files_of last)) =
     3 + txt_work + sum_list_with file_work (segment_files (to_segments t)) +
     sum_list_with file_work (deferred_files_of last))%nat.
Proof.
  intros Hk Hlast. eexists _, _. split; [done|]. split; [done|]. split.
  - unfold due. rewrite (bool_decide_false (k = length es)), segment_files_app, app_nil_r,
      <-(assoc_L (++)) by lia. do 2 f_equal. case_bool_decide; [|done]. cbn. by rewrite Hlast.
  - unfold worker_work. cbn [owed default from_option].
    unfold segment_files, id. rewrite sum_list_with_app, !segments_work. fold txt_work.
    case_bool_decide; cbn [default from_option fmap option_fmap option_map sum_list_with].
    + rewrite Hlast by done. unfold id. lia.
    + unfold id. cbn. lia.
Qed.

Lemma turn_kept x k m done rest o j i e d t :
  Inv x k m done rest o → x_workers x !! j = Some (Tracing (i, e, d)) →
  my_turn (x_sync x) i = true → x_locked x = false →
  take_turn e d (x_state x) (x_deferred x) = Ret t →
  kept x k rest (set_worker j
    (Announcing 0 (number_from (x_segment_index x) (to_segments t))
       (if d then Some (to_last t) else None)) (take_values t x)).
Proof.
  intros HI Hj Hturn Hlock Ht.
  destruct (held_checkpoint _ _ _ _ _ _ _ _ _ _ HI Hj) as (Hkm&He&->).
  destruct HI. assert (o = None) as ->.
  { rewrite inv_locked0 in Hlock. by destruct o. }
  apply Permutation_nil_r in inv_writer0 as Howed.
  pose proof (omap_none_incl owed announcing _ owed_announcing Howed) as Hann.
  rewrite inv_sync0, Hann, Nat.sub_0_r, my_turn_iter in Hturn.
  apply bool_decide_eq_true in Hturn as ->.
  assert (S k ≤ length es)%nat by (by apply lookup_lt_Some in He).
  destruct (sequential_turn k e (x_state x) (x_deferred x) rest t) as (rest'&->&Hend&Hmore);
    [done|by apply inv_rest0|done|].
  destruct (take_turn_one e (bool_decide (S k = length es)) (x_state x) (x_deferred x) Hone)
    as (t'&Ht'&Hnum). rewrite Ht in Ht'. injection Ht' as <-.
  destruct (turn_owed k done t) as (w&due_now&Hw'&Hw&Hdue&Hwork); [lia|apply Hend|].
  rewrite inv_index0, <-Hw'.
  assert (held w = None ∧ w ≠ Exited ∧ announcing w = Some tt) as (Hh&Hx&Ha) by by rewrite Hw'.
  exists (S k), m, (done ++ to_segments t), rest', (Some due_now). split.
  - destruct (omap_replace_Permutation held _ j _ w Hj) as (lh&H1&H2).
    destruct (omap_replace_Permutation owed _ j _ w Hj) as (lo&H3&H4).
    assert (omap announcing (<[j := w]> (x_workers x)) = [tt]) as Hann'.
    { destruct (omap_replace_Permutation announcing _ j _ w Hj) as (la&H5&H6).
      rewrite Hann in H5. cbn in H5. apply Permutation_nil_l in H5. subst la.
      rewrite Ha in H6. by apply Permutation_singleton_r in H6. }
    split; cbn; try done.
    + lia.
    + rewrite H2, Hh. cbn in H1 |- *.
      apply (Permutation_cons_inv (a := (k, e, bool_decide (S k = length es)))).
      rewrite <-H1, inv_held0, <-drop_S; [done|].
      rewrite lookup_take_lt by lia. apply checkpoints_lookup. eauto.
    + intros Hex%elem_of_replace; [|done]. by apply inv_exited0 in Hex.
    + rewrite inv_sync0, Hann, Hann'. cbn. by rewrite !Nat.sub_0_r.
    + by rewrite inv_segs0, (assoc_L (++)).
    + intros Hk. by apply Hend in Hk as [].
    + by rewrite length_app, inv_index0, Hnum.
    + rewrite Hann'. done.
    + rewrite H4, Hw. cbn. rewrite <-H3, inv_writer0. done.
    + lia.
    + intros f Hf. rewrite Hdue. set_solver.
    + intros f. rewrite Hdue. intros [Hf|Hf]%elem_of_app; [|by left]. right.
      by destruct (inv_written0 f Hf) as [?%elem_of_nil|].
    + intros p b Hp. rewrite Hdue, length_app.
      destruct (inv_files0 p b Hp) as [(n&Hn&Hb)|Hb]; [left; exists n; auto with lia|].
      right. set_solver.
  - pose proof (sum_list_replace worker_work _ j _ w Hj) as Hsum.
    unfold work. cbn [x_todo x_channel x_workers set_worker take_values].
    rewrite (bool_decide_false (k = length es)), segment_files_work_app by lia.
    cbn [worker_work] in Hsum. cbn in *. lia.
Qed.

(** The worker that holds the guards is the writer, and it is the only one. *)
Lemma the_writer x k m done rest o j w q w' :
  Inv x k m done rest o → x_workers x !! j = Some w → owed w = Some q →
  o = Some q ∧
  omap owed (<[j := w']> (x_workers x)) = option_list (owed w') ∧
  omap announcing (x_workers x) = option_list (announcing w) ∧
  omap announcing (<[j := w']> (x_workers x)) = option_list (announcing w').
Proof.
  intros [] Hj Hw. destruct (replace_Permutation _ j _ w' Hj) as (l&H1&H2).
  apply (omap_Permutation owed) in H1 as H3. rewrite inv_writer0 in H3. cbn in H3.
  rewrite Hw in H3. destruct o as [q'|]; cbn in H3.
  2:{ by apply Permutation_nil_cons in H3. }
  apply symmetry, Permutation_singleton_r in H3. injection H3 as -> Hl.
  pose proof (omap_none_incl owed announcing _ owed_announcing Hl) as Hl'.
  split; [done|].
  assert (∀ A (f : Worker → option A) v ws, ws ≡ₚ v :: l → omap f l = [] →
    omap f ws = option_list (f v)) as Hone_of.
  { intros A f v ws Hws Hf. apply (omap_Permutation f) in Hws. cbn in Hws. rewrite Hf in Hws.
    destruct (f v); [by apply Permutation_singleton_r in Hws|by apply Permutation_nil_r in Hws]. }
  split_and!; by apply Hone_of.
Qed.

(** The writer's next step leaves it with less to write, or with another kind of file. *)
Lemma writer_kept x k m done rest o j w w' q q' files :
  Inv x k m done rest o → x_workers x !! j = Some w → owed w = Some q →
  owed w' = Some q' → announcing w = announcing w' → (∃ put, q ≡ₚ put ++ q' ∧
    files = foldl (λ fs f, <[f.1 := f.2]> fs) (x_files x) put ∧ length put ≤ 1)%nat →
  (worker_work w' < worker_work w)%nat →
  kept x k rest (set_worker j w' (x <| x_files := files |>)).
Proof.
  intros HI Hj Hw Hw' Hann (put&Hq&->&Hput) Hwork.
  destruct (the_writer _ _ _ _ _ _ _ _ _ w' HI Hj Hw) as (->&Howed&_).
  destruct HI. exists k, m, done, rest, (Some q'). split.
  - assert (held w = None ∧ held w' = None ∧ w' ≠ Exited) as (Hh&Hh'&Hx')
      by (by destruct w, w').
    assert (∀ f, f ∈ put → f ∈ due k done) as Hdue.
    { intros f Hf. apply inv_owed0. cbn. rewrite Hq. set_solver. }
    split; cbn; try done.
    + rewrite (omap_replace_None _ _ j w); [done|done|by rewrite Hh, Hh'].
    + intros Hex%elem_of_replace; [|done]. by apply inv_exited0 in Hex.
    + by rewrite (omap_replace_None _ _ j w).
    + rewrite (omap_replace_None _ _ j w) by done.
      intros Hno Hk. destruct put as [|[p b] [|]]; cbn in *; [by apply inv_txt0| |lia].
      rewrite lookup_insert_ne; [by apply inv_txt0|]. intros ->.
      apply (all_files_not_txt segs last b), (due_all k done rest); [done|].
      apply Hdue. set_solver.
    + by rewrite Howed, Hw'.
    + intros _. apply inv_started0. eauto.
    + intros f Hf. apply inv_owed0. cbn. rewrite Hq. set_solver.
    + intros f Hf. destruct put as [|[p b] [|]]; cbn in *; [|clear Hput|lia].
      * rewrite <-Hq. by apply inv_written0.
      * destruct (decide (f.1 = p)) as [Hp|Hp].
        -- right. rewrite Hp, lookup_insert_eq. f_equal. destruct f as [p' b']. cbn in *.
           subst p'. apply (all_files_fun segs last p); [done|..];
             (apply (due_all k done rest); [done|]); [apply Hdue; set_solver|done].
        -- rewrite lookup_insert_ne by done. destruct (inv_written0 f Hf) as [H|H];
             [|by right]. left. rewrite Hq in H. apply elem_of_cons in H as [->|]; done.
    + intros p b. destruct put as [|[p' b'] [|]]; cbn in *; [by apply inv_files0| |lia].
      intros [[<- <-]|[_ Hb]]%lookup_insert_Some; [|by apply inv_files0]. right.
      apply Hdue. set_solver.
  - pose proof (sum_list_replace worker_work _ j _ w' Hj) as Hsum. unfold work. cbn. lia.
Qed.

(** [segments.txt] is renamed: the turn goes to the next checkpoint. *)
Lemma announced_kept x k m done rest o j sent l last' :
  Inv x k m done rest o → x_workers x !! j = Some (Announcing sent l last') →
  kept x k rest (set_worker j (Writing (unsent l) last') (end_turn seg_path x)).
Proof.
  intros HI Hj. set (w := Announcing sent l last') in *.
  set (w' := Writing (unsent l) last').
  destruct (the_writer _ _ _ _ _ _ _ _ (default [] (owed w)) w' HI Hj) as (->&Howed&Ha&Ha');
    [done|].
  assert (owed w' = owed w) as How by (unfold w, w'; cbn; by rewrite fst_unsent).
  destruct HI. assert (0 < k)%nat as Hk by eauto.
  exists k, m, done, rest, (owed w). split.
  - split; cbn; try done.
    + by rewrite (omap_replace_None _ _ j w).
    + intros Hex%elem_of_replace; [|done]. by apply inv_exited0 in Hex.
    + rewrite inv_sync0, Ha, Ha'. cbn. rewrite Nat.sub_0_r.
      by destruct k; [lia|]; cbn; rewrite Nat.sub_0_r.
    + intros _ _. unfold announcement. rewrite lookup_insert_eq. by rewrite inv_index0.
    + by rewrite Howed, How.
    + intros f Hf. destruct (inv_written0 f Hf) as [|Hp]; [by left|right].
      rewrite lookup_insert_ne; [done|]. intros Hp'. destruct f as [p b]. cbn in Hp'. subst p.
      eapply all_files_not_txt, due_all; [exact inv_segs0|exact Hf].
    + intros p b [[<- <-]|[_ Hb]]%lookup_insert_Some; [|by apply inv_files0].
      left. exists (length done). unfold announcement. by rewrite inv_index0.
  - pose proof (sum_list_replace worker_work _ j _ w' Hj) as Hsum.
    assert (worker_work w' < worker_work w)%nat.
    { unfold w'. rewrite writing_work. unfold w, worker_work, left_of.
      cbn [owed default from_option]. unfold id. lia. }
    unfold work. cbn. lia.
Qed.

(** An iteration ends when the writer owes nothing. *)
Lemma end_iteration_kept x k m done rest o j w :
  Inv x k m done rest o → x_workers x !! j = Some w → owed w = Some [] →
  announcing w = None → kept x k rest (end_iteration j x).
Proof.
  intros HI Hj Hw Hno.
  destruct (the_writer _ _ _ _ _ _ _ _ _ Receiving HI Hj Hw) as (->&Hnone&_).
  destruct HI. exists k, m, done, rest, None. split.
  - split; cbn; try done.
    + rewrite (omap_replace_None _ _ j w); [done..|]. by destruct w.
    + intros Hex%elem_of_replace; [|done]. by apply inv_exited0 in Hex.
    + by rewrite (omap_replace_None _ _ j w) by done.
    + by rewrite (omap_replace_None _ _ j w) by done.
    + by rewrite Hnone.
  - pose proof (sum_list_replace worker_work _ j _ Receiving Hj) as Hsum. unfold work. cbn.
    cbn in Hsum. assert (1 < worker_work w)%nat by (destruct w; cbn in *; [done|done|lia..|done]).
    lia.
Qed.

Lemma left_of_pos data sent : (0 < left_of data sent)%nat.
Proof. unfold left_of. lia. Qed.

(** A file that is written on, in the list of the writer's files. *)
Lemma sum_list_sent {A} (f : A → bytes) (l1 l2 : list (A * Sent)) a sent sent' :
  (sum_list_with (λ g, left_of (f g.1) g.2) (l1 ++ (a, sent) :: l2) + left_of (f a) sent' =
   sum_list_with (λ g, left_of (f g.1) g.2) (l1 ++ (a, sent') :: l2) + left_of (f a) sent)%nat.
Proof. rewrite !sum_list_with_app. cbn [sum_list_with fst snd]. lia. Qed.

Lemma write_kept x k m done rest o j l1 n s sent l2 last' :
  Inv x k m done rest o → x_workers x !! j = Some (Writing (l1 ++ (n, s, sent) :: l2) last') →
  ((sent ≤ length (encode s))%nat →
   kept x k rest (set_worker j (Writing (l1 ++ (n, s, S sent) :: l2) last') x)) ∧
  kept x k rest (set_worker j (Writing (l1 ++ l2) last')
    (put_file (segment_path seg_path n) (encode s) x)).
Proof.
  intros HI Hj. split; [intros Hs|]; eapply writer_kept;
    [exact HI|exact Hj|done|done|done| | |exact HI|exact Hj|done|done|done| |].
  - exists []. split_and!; [|done|cbn; lia]. by rewrite !fmap_app, !fmap_cons.
  - pose proof (sum_list_sent (λ f, encode f.2) l1 l2 (n, s) sent (S sent)) as Hsum.
    cbn [worker_work fst snd] in *. unfold left_of at 2 4 in Hsum. cbn [fst snd] in Hsum. lia.
  - exists [seg_file (n, s)]. split; [|done]. rewrite !fmap_app, fmap_cons. cbn.
    by rewrite <-Permutation_middle.
  - unfold worker_work. rewrite !sum_list_with_app. cbn [sum_list_with fst snd].
    pose proof (left_of_pos (encode s) sent). lia.
Qed.

Lemma write_deferred_kept x k m done rest o j l1 n b sent l2 :
  Inv x k m done rest o → x_workers x !! j = Some (WritingDeferred (l1 ++ (n, b, sent) :: l2)) →
  ((sent ≤ length b)%nat →
   kept x k rest (set_worker j (WritingDeferred (l1 ++ (n, b, S sent) :: l2)) x)) ∧
  kept x k rest (set_worker j (WritingDeferred (l1 ++ l2))
    (put_file (deferred_path seg_path n) b x)).
Proof.
  intros HI Hj. split; [intros Hs|]; eapply writer_kept;
    [exact HI|exact Hj|done|done|done| | |exact HI|exact Hj|done|done|done| |].
  - exists []. split_and!; [|done|cbn; lia]. by rewrite !fmap_app, !fmap_cons.
  - pose proof (sum_list_sent snd l1 l2 (n, b) sent (S sent)) as Hsum.
    cbn [worker_work fst snd] in *. unfold left_of at 2 4 in Hsum. cbn [fst snd] in Hsum. lia.
  - exists [input_file (n, b)]. split; [|done]. rewrite !fmap_app, fmap_cons. cbn.
    by rewrite <-Permutation_middle.
  - unfold worker_work. rewrite !sum_list_with_app. cbn [sum_list_with fst snd].
    pose proof (left_of_pos b sent). lia.
Qed.

Lemma step_kept x y k m done rest o :
  Inv x k m done rest o → exec_step x y → kept x k rest y.
Proof.
  intros HI Hstep. destruct Hstep as [x e es' Hx _|x j c cs Hj Hc|x j Hj Hc Ht
    |x j i e d t Hj Hi Hl Ht|x j sent l last' Hj Hs|x j sent l last' Hj Hs
    |x j l1 n s sent l2 last' Hj Hs|x j l1 n s sent l2 last' Hj Hs|x j Hj|x j pv Hj
    |x j l1 n b sent l2 Hj Hs|x j l1 n b sent l2 Hj Hs|x j Hj].
  - by eapply checkpoint_kept.
  - by eapply receive_kept.
  - by eapply closed_kept.
  - by eapply turn_kept.
  - eapply (writer_kept _ _ _ _ _ _ _ _ _ _ _ (x_files x));
      [done|exact Hj|done|done|done|exists []; cbn; auto with lia|].
    assert (length (announcement x) ≤ length (count_text (length segs)))%nat as Hlen.
    { unfold announcement. rewrite (inv_index _ _ _ _ _ _ HI), (inv_segs _ _ _ _ _ _ HI).
      apply count_text_length. rewrite length_app. lia. }
    unfold worker_work, left_of. cbn [owed]. lia.
  - by eapply announced_kept.
  - by eapply write_kept.
  - by eapply write_kept.
  - by eapply end_iteration_kept.
  - eapply (writer_kept _ _ _ _ _ _ _ _ _ _ _ (x_files x)); [done|exact Hj|done|done|done| |].
    + exists []. split; [cbn; by rewrite fst_unsent|]. split; [done|]. cbn. lia.
    + rewrite writing_deferred_work. cbn. unfold id. lia.
  - by eapply write_deferred_kept.
  - by eapply write_deferred_kept.
  - by eapply end_iteration_kept.
Qed.

End invariant.
