(* ===== verification/SegmentsThms.v ===== *)
(** * SegmentsThms: what a split leaves on disk

    Whatever the interleaving of the threads, the files are those of the sequential
    execution, no thread waits for ever, and the number of steps is bounded. *)

From S2P Require Import Prelude Text Proto World Segments SegmentsInv.

Section theorems.
Context `{T : !TurnSync} `{Z0 : !Zkvm} `{Sp : !Splitter}.
Abbreviation PV := (PublicValues digest addr_bits).
Context (capacity : nat) (seg_path : string) (es : list exe_state).
Abbreviation exec_step := (exec_step capacity seg_path).
Abbreviation all_files := (all_files seg_path).

Implicit Types (x y : Exec) (segs : list Segment) (last : PV).

(** A program runs in at least one checkpoint; the names of its deferred proofs have
    sixteen bits. *)
Record splittable segs last : Prop := {
  sp_one : one_record;
  sp_nonempty : es ≠ [];
  sp_sequential : sequential es pv_reset record_new = Ret (segs, last);
  sp_few : few_deferred last
}.

Lemma steps_kept segs last x k m done rest o n y :
  splittable segs last → Inv seg_path es segs last x k m done rest o →
  nsteps exec_step n x y →
  ∃ k' m' done' rest' o', Inv seg_path es segs last y k' m' done' rest' o' ∧
    (n + work seg_path es segs last y k' rest' ≤ work seg_path es segs last x k rest)%nat.
Proof.
  intros [] HI Hn. revert k m done rest o HI.
  induction Hn as [x|n x z y Hxz Hzy IH]; intros.
  { do 5 eexists. split; [exact HI|lia]. }
  edestruct (step_kept capacity seg_path es segs last) as (k1&m1&d1&r1&o1&HI1&Hw); [done..|].
  destruct (IH _ _ _ _ _ HI1) as (k2&m2&d2&r2&o2&HI2&Hw2).
  do 5 eexists. split; [exact HI2|lia].
Qed.

Lemma split_reachable_inv segs last w x :
  splittable segs last → exec_reachable capacity seg_path w es x →
  ∃ k m done rest o, Inv seg_path es segs last x k m done rest o.
Proof.
  intros Hs [n Hn]%rtc_nsteps.
  assert (HI : Inv seg_path es segs last (exec_init w es) 0 0 [] segs None)
    by (apply inv_init; apply Hs).
  destruct (steps_kept segs last _ _ _ _ _ _ _ _ Hs HI Hn) as (?&?&?&?&?&?&_). eauto 6.
Qed.

Lemma workers_length w x :
  exec_reachable capacity seg_path w es x → length (x_workers x) = w.
Proof.
  unfold exec_reachable. intros Hx.
  replace w with (length (x_workers (exec_init w es))) by apply repeat_length.
  induction Hx as [|a b c Hab _ IH]; [done|]. rewrite IH.
  by destruct Hab; cbn; rewrite ?length_insert.
Qed.

(** [x_files] of a joined split. *)
Definition split_files segs last : gmap string bytes :=
  <[segments_txt seg_path := count_text (length segs)]>
    (list_to_map (all_files segs last)).

Lemma all_files_lookup segs last p b :
  few_deferred last →
  (list_to_map (all_files segs last) : gmap string bytes) !! p = Some b ↔
  (p, b) ∈ all_files segs last.
Proof.
  intros Hfew. split; [apply elem_of_list_to_map_2|]. intros Hin.
  apply elem_of_list_to_map_1'; [|done]. intros b' Hin'.
  by eapply (all_files_fun seg_path segs last p).
Qed.

Lemma omap_exited {B} (f : Worker → option B) ws :
  Forall (λ v, v = Exited) ws → f Exited = None → omap f ws = [].
Proof. intros Hall Hf. induction Hall as [|v ws -> _ IH]; [done|]. cbn. by rewrite Hf. Qed.

Lemma joined_inv segs last w x k m done rest o :
  (0 < w)%nat → exec_reachable capacity seg_path w es x → es ≠ [] →
  Inv seg_path es segs last x k m done rest o → joined x →
  k = length es ∧ done = segs ∧ o = None.
Proof.
  intros Hw Hx%workers_length Hne [] [Htodo Hall].
  assert (Exited ∈ x_workers x) as Hex.
  { destruct (x_workers x) as [|v ws]; cbn in *; [lia|]. inversion_clear Hall. set_solver. }
  apply inv_exited in Hex as [_ Hch].
  assert (∀ B (f : Worker → option B), f Exited = None → omap f (x_workers x) = []) as Hnil
    by (intros B f; by apply omap_exited).
  assert (m = length es) as ->.
  { rewrite Htodo in inv_todo. apply (f_equal length) in inv_todo.
    rewrite Hch in inv_channel. apply (f_equal length) in inv_channel.
    rewrite length_drop in inv_todo. rewrite length_drop, length_take, checkpoints_length in inv_channel.
    cbn in *. lia. }
  assert (k = length es) as ->.
  { rewrite Hnil in inv_held by done. apply Permutation_length in inv_held.
    rewrite length_drop, length_take, checkpoints_length in inv_held. cbn in *. lia. }
  rewrite inv_end, app_nil_r in inv_segs by done. split; [done|]. split; [done|].
  rewrite Hnil in inv_writer by done. destruct o; [|done].
  by apply Permutation_nil_cons in inv_writer.
Qed.

Lemma joined_files segs last w x :
  splittable segs last → (0 < w)%nat → exec_reachable capacity seg_path w es x →
  joined x →
  x_files x = split_files segs last ∧ x_segment_index x = length segs.
Proof.
  intros Hs Hw Hx Hj.
  destruct (split_reachable_inv _ _ _ _ Hs Hx) as (k&m&done&rest&o&HI).
  destruct (joined_inv segs last w x _ _ _ _ _ Hw Hx ltac:(apply Hs) HI Hj) as (->&->&->).
  destruct HI. split; [|done].
  assert (∀ f, f ∈ due seg_path es last (length es) segs ↔ f ∈ all_files segs last) as Hdue.
  { intros f. unfold due, SegmentsInv.all_files. by rewrite bool_decide_true by done. }
  assert (0 < length es)%nat by (apply sp_nonempty in Hs; destruct es; [done|cbn; lia]).
  assert (omap announcing (x_workers x) = []) as Hann by (apply omap_exited; [apply Hj|done]).
  apply map_eq. intros p. unfold split_files. apply option_eq. intros b.
  rewrite lookup_insert_Some, all_files_lookup by apply Hs. split.
  - intros Hp. destruct (inv_files p b Hp) as [(n&_&->&_)|Hd%Hdue].
    + left. rewrite inv_txt in Hp by done. by simplify_eq.
    + right. split; [|done]. intros <-. by apply all_files_not_txt in Hd.
  - intros [[<- <-]|[_ Hb%Hdue]]; [by apply inv_txt|].
    by destruct (inv_written _ Hb) as [?%elem_of_nil|].
Qed.

(** ** What the directory shows *)

(** A file that is not complete: it has a temporary name, or it is the input of a deferred
    proof. *)
Lemma partial_file x w p b :
  (p, b) ∈ partial seg_path x w →
  announcing w = Some tt ∧ p = tmp_path (segments_txt seg_path) ∧ b `prefix_of` announcement x ∨
  ∃ fs, owed seg_path w = Some fs ∧
    ((∃ n s, seg_file seg_path (n, s) ∈ fs ∧ p = tmp_path (segment_path seg_path n) ∧
        b `prefix_of` encode s) ∨
     (∃ i d, input_file seg_path (i, d) ∈ fs ∧ p = deferred_path seg_path i ∧ b `prefix_of` d)).
Proof.
  assert (∀ q data sent, (p, b) ∈ visible q data sent → p = q ∧ b `prefix_of` data) as Hvis.
  { intros q data [|c] Hin; [by apply elem_of_nil in Hin|].
    apply list_elem_of_singleton in Hin as [= -> ->]. split; [done|]. apply prefix_take. }
  destruct w as [|c|sent l lst|l lst|l|]; cbn; intros Hin;
    try (by apply elem_of_nil in Hin).
  - left. by apply Hvis in Hin as [-> ?].
  - right. eexists. split; [done|]. left.
    apply list_elem_of_bind in Hin as ([[n s] sent]&Hin&Hl). apply Hvis in Hin as [-> Hb].
    exists n, s. split; [|done]. apply elem_of_app. left. apply list_elem_of_fmap_2'
      with (x := (n, s)); [|done]. by apply (list_elem_of_fmap_2 fst) in Hl.
  - right. eexists. split; [done|]. right.
    apply list_elem_of_bind in Hin as ([[n d] sent]&Hin&Hl). apply Hvis in Hin as [-> Hb].
    exists n, d. split; [|done]. apply list_elem_of_fmap_2' with (x := (n, d)); [|done].
    by apply (list_elem_of_fmap_2 fst) in Hl.
Qed.

(** A file under the number of a segment is complete. *)
Lemma dir_files_segment x n :
  dir_files seg_path x !! segment_path seg_path n = x_files x !! segment_path seg_path n.
Proof.
  unfold dir_files. apply lookup_union_r, not_elem_of_list_to_map_1.
  intros ([p b]&Hp&(w&Hin&_)%list_elem_of_bind)%list_elem_of_fmap. cbn in Hp. subst p.
  apply partial_file in Hin as [(_&Hp&_)|(fs&_&[(m&s&_&Hp&_)|(i&d&_&Hp&_)])].
  - by apply segment_path_not_tmp in Hp.
  - by apply segment_path_not_tmp in Hp.
  - by apply segment_path_not_deferred in Hp.
Qed.

Lemma joined_dir_files x : joined x → dir_files seg_path x = x_files x.
Proof.
  intros [_ Hall]. unfold dir_files. assert (x_workers x ≫= partial seg_path x = []) as ->.
  { clear -Hall. generalize (partial seg_path x) as f, (eq_refl : partial seg_path x Exited = []).
    intros f Hf. induction Hall as [|v ws -> _ IH]; [done|]. cbn. by rewrite Hf. }
  apply (left_id_L ∅ (∪)).
Qed.

(** [C3] However the threads of a split interleave, when they have all been joined the
    directory holds exactly the segments of the sequential execution under their
    numbers, the deferred proofs' inputs under theirs, and their count in
    [segments.txt], and no temporary file; [total_segments] is that count. *)
Theorem split_equals_sequential segs last w x :
  splittable segs last → (0 < w)%nat → exec_reachable capacity seg_path w es x →
  joined x →
  x_files x = split_files segs last ∧ dir_files seg_path x = split_files segs last ∧
  total_segments x = u32_wrap (len segs).
Proof.
  intros Hs Hw Hx Hj. destruct (joined_files _ _ _ _ Hs Hw Hx Hj) as [Hf Hi].
  split; [done|]. split; [by rewrite joined_dir_files|]. unfold total_segments. by rewrite Hi.
Qed.

(** A file that is still being written: [segments.txt] and the segments under their
    temporary names, the inputs of the deferred proofs under their own, each with the
    beginning of what it will hold. *)
Definition unfinished segs last (p : string) (b : bytes) : Prop :=
  (∃ n, (n ≤ length segs)%nat ∧ p = tmp_path (segments_txt seg_path) ∧
     b `prefix_of` count_text n) ∨
  (∃ n s, segs !! n = Some s ∧ p = tmp_path (segment_path seg_path n) ∧ b `prefix_of` encode s) ∨
  (∃ i d, deferred_inputs last !! i = Some d ∧ p = deferred_path seg_path i ∧ b `prefix_of` d).

Lemma owed_all_files segs last x k m done rest o w fs f :
  Inv seg_path es segs last x k m done rest o → w ∈ x_workers x → owed seg_path w = Some fs →
  f ∈ fs → f ∈ all_files segs last.
Proof.
  intros [] Hw Hfs Hf. assert (fs ∈ option_list o) as Ho.
  { rewrite <-inv_writer. apply list_elem_of_omap. eauto. }
  destruct o as [fs'|]; [|by apply elem_of_nil in Ho].
  apply list_elem_of_singleton in Ho as <-. eapply due_all; [exact inv_segs|by apply inv_owed].
Qed.

(** What is under its final name. *)
Lemma complete_file segs last x k m done rest o p b :
  splittable segs last → Inv seg_path es segs last x k m done rest o → x_files x !! p = Some b →
  (∃ n, (n ≤ length segs)%nat ∧ p = segments_txt seg_path ∧ b = count_text n) ∨
  split_files segs last !! p = Some b.
Proof.
  intros Hs [] Hp. destruct (inv_files p b Hp) as [(n&Hn&->&->)|Hd].
  - left. exists n. split; [|done]. rewrite inv_segs, length_app. lia.
  - right. apply (due_all seg_path es segs last _ _ rest) in Hd; [|done]. unfold split_files.
    rewrite lookup_insert_ne, all_files_lookup; [done|apply Hs|].
    intros <-. by apply all_files_not_txt in Hd.
Qed.

Lemma complete_segment segs last w x n b :
  splittable segs last → exec_reachable capacity seg_path w es x →
  x_files x !! segment_path seg_path n = Some b → encode <$> segs !! n = Some b.
Proof.
  intros Hs Hx Hp. destruct (split_reachable_inv _ _ _ _ Hs Hx) as (k&m&done&rest&o&HI).
  destruct (complete_file _ _ _ _ _ _ _ _ _ _ Hs HI Hp) as [(?&_&E&_)|Hf].
  { by apply segment_path_not_txt in E. }
  unfold split_files in Hf. rewrite lookup_insert_ne, all_files_lookup in Hf
    by (apply Hs || (intros E; by apply symmetry, segment_path_not_txt in E)).
  apply elem_of_app in Hf as [Hf|Hf]; apply list_elem_of_fmap in Hf as ([n' a]&E&Hn).
  - injection E as E ->. apply segment_path_inj in E as ->.
    apply elem_of_number_from in Hn as (i&->&Hi). cbn. by rewrite Hi.
  - by injection E as E%segment_path_not_deferred.
Qed.

Lemma partial_unfinished segs last x k m done rest o w p b :
  few_deferred last → Inv seg_path es segs last x k m done rest o → w ∈ x_workers x →
  (p, b) ∈ partial seg_path x w → unfinished segs last p b.
Proof.
  intros Hfew HI Hw [(_&->&Hb)|(fs&Hfs&H)]%partial_file.
  { left. exists (length done). unfold announcement in Hb. rewrite (inv_index _ _ _ _ _ _ _ _ _ _ HI) in Hb.
    split; [|done]. rewrite (inv_segs _ _ _ _ _ _ _ _ _ _ HI), length_app. lia. }
  right. destruct H as [(n&s&Hin&->&Hb)|(i&d&Hin&->&Hb)];
    apply (owed_all_files _ _ _ _ _ _ _ _ _ _ _ HI Hw Hfs), elem_of_app in Hin as [Hin|Hin];
    apply list_elem_of_fmap in Hin as ([n' a]&E&Hn).
  - left. injection E as E1 E2. apply segment_path_inj in E1 as ->.
    apply elem_of_number_from in Hn as (j&->&Hj). exists (0 + j)%nat, a. by rewrite <-E2.
  - by injection E as E%segment_path_not_deferred.
  - injection E as E _. by apply symmetry, segment_path_not_deferred in E.
  - right. injection E as E1 ->. apply elem_of_number_from in Hn as (j&->&Hj).
    exists j, a. split; [done|]. by rewrite E1.
Qed.


(** Seven steps and the text of the number of segments for a checkpoint; a file takes two
    steps and one for every byte. *)
Definition split_steps segs last (w : nat) : nat :=
  ((7 + length (count_text (length segs))) * length es +
   sum_list_with (λ f, 2 + length f.2) (all_files segs last) + w)%nat.
Lemma steps_bounded segs last w x n :
  splittable segs last → nsteps exec_step n (exec_init w es) x →
  (n ≤ split_steps segs last w)%nat.
Proof.
  intros Hs Hn.
  assert (HI : Inv seg_path es segs last (exec_init w es) 0 0 [] segs None)
    by (apply inv_init; apply Hs).
  destruct (steps_kept segs last _ _ _ _ _ _ _ _ Hs HI Hn) as (k&m&d&r&o&_&Hle).
  assert (sum_list_with (worker_work seg_path segs) (repeat Receiving w) = w) as Hsum
    by (clear; induction w; cbn in *; lia).
  unfold work at 2 in Hle. cbn [exec_init x_todo x_channel x_workers length] in Hle.
  rewrite Hsum in Hle. unfold split_steps.
  change (λ f : string * bytes, (2 + length f.2)%nat) with file_work.
  unfold SegmentsInv.all_files. rewrite sum_list_with_app.
  unfold txt_work, left_of in Hle. rewrite Nat.sub_0_r in Hle.
  repeat case_bool_decide; lia.
Qed.

(** A writer can always write on, or end its iteration. *)
Lemma writer_steps x j w q :
  x_workers x !! j = Some w → owed seg_path w = Some q → ∃ y, exec_step x y.
Proof.
  intros Hj Hw.
  destruct w as [| |sent l last|[|[[n s] sent] p] last|[|[[n b] sent] p]|]; try done.
  - destruct (decide (sent ≤ length (announcement x))%nat);
      eexists; [by eapply exec_announce|eapply exec_announced; [done|lia]].
  - destruct last; eexists; [by eapply exec_last_written|by eapply exec_written].
  - destruct (decide (sent ≤ length (encode s))%nat); eexists;
      [by apply (exec_write capacity seg_path x j [] n s sent p)|].
    apply (exec_rename capacity seg_path x j [] n s sent p last); [done|lia].
  - eexists. by eapply exec_deferred_written.
  - destruct (decide (sent ≤ length b)%nat); eexists;
      [by apply (exec_write_deferred capacity seg_path x j [] n b sent p)|].
    apply (exec_close_deferred capacity seg_path x j [] n b sent p); [done|lia].
Qed.

(** Without a writer, the checkpoint whose turn it is goes on if a worker holds it. *)
Lemma turn_steps segs last x k m done rest o :
  splittable segs last → Inv seg_path es segs last x k m done rest o → o = None →
  (k < m)%nat → ∃ y, exec_step x y.
Proof.
  intros Hs HI -> Hkm. pose proof (inv_next _ _ _ _ _ _ _ _ _ _ HI) as Hn.
  destruct (lookup_lt_is_Some_2 es k) as [e He]; [lia|].
  assert ((k, e, bool_decide (S k = length es)) ∈ omap held (x_workers x)) as Hin.
  { rewrite (inv_held _ _ _ _ _ _ _ _ _ _ HI). apply list_elem_of_lookup. exists O.
    rewrite lookup_drop, Nat.add_0_r, lookup_take_lt by done.
    apply checkpoints_lookup. eauto. }
  apply list_elem_of_omap in Hin as (v&Hv&Hheld). destruct v; simplify_eq/=.
  apply list_elem_of_lookup in Hv as [j Hj].
  destruct (take_turn_one e (bool_decide (S k = length es)) (x_state x) (x_deferred x)
    (sp_one _ _ Hs)) as (t&Ht&_).
  eexists. eapply exec_turn; [done| | |done].
  - rewrite (inv_sync _ _ _ _ _ _ _ _ _ _ HI), my_turn_iter.
    pose proof (inv_writer _ _ _ _ _ _ _ _ _ _ HI) as Ho%Permutation_nil_r.
    rewrite (omap_none_incl _ announcing _ (owed_announcing seg_path) Ho), Nat.sub_0_r.
    by apply bool_decide_eq_true.
  - rewrite (inv_locked _ _ _ _ _ _ _ _ _ _ HI). done.
Qed.

(** With no writer and no turn to take, every worker waits for a checkpoint or is gone. *)
Lemma idle_worker segs last x k m done rest v :
  Inv seg_path es segs last x k m done rest None → (m ≤ k)%nat → v ∈ x_workers x →
  v = Receiving ∨ v = Exited.
Proof.
  intros [] Hkm Hv.
  assert (omap held (x_workers x) = []) as Hh.
  { apply Permutation_nil_r. rewrite inv_held, drop_ge; [done|]. rewrite length_take. lia. }
  assert (omap (owed seg_path) (x_workers x) = []) as Ho by by apply Permutation_nil_r.
  assert (∀ B (f : Worker → option B), omap f (x_workers x) = [] → f v = None) as Hnone.
  { intros B f Hf. destruct (f v) as [c|] eqn:Hc; [|done].
    assert (c ∈ omap f (x_workers x)) as Hin by (apply list_elem_of_omap; eauto).
    rewrite Hf in Hin. by apply elem_of_nil in Hin. }
  pose proof (Hnone _ _ Hh). pose proof (Hnone _ _ Ho). destruct v; naive_solver.
Qed.

Lemma joined_or_step segs last w x :
  splittable segs last → (0 < w)%nat → (0 < capacity)%nat →
  exec_reachable capacity seg_path w es x → joined x ∨ ∃ y, exec_step x y.
Proof.
  intros Hs Hw Hcap Hx. destruct (split_reachable_inv _ _ _ _ Hs Hx) as (k&m&done&rest&o&HI).
  pose proof HI as []. destruct o as [q|].
  { right. assert (q ∈ omap (owed seg_path) (x_workers x)) as Hq
      by (rewrite inv_writer; set_solver).
    apply list_elem_of_omap in Hq as (v&[j Hj]%list_elem_of_lookup&Hv).
    by eapply writer_steps. }
  destruct (decide (k < m)%nat) as [Hkm|Hkm].
  { right. by eapply turn_steps. }
  assert (∀ v, v ∈ x_workers x → v = Receiving ∨ v = Exited) as Hidle
    by (intros v; eapply idle_worker; [done|lia]).
  assert (∀ j v, x_workers x !! j = Some v → v = Receiving ∨ x_todo x = [] ∧ x_channel x = [])
    as Hex.
  { intros j v Hj%list_elem_of_lookup_2. destruct (Hidle v Hj) as [->| ->]; [by left|].
    right. by apply inv_exited. }
  destruct (lookup_lt_is_Some_2 (x_workers x) 0) as [v0 Hv0].
  { by rewrite (workers_length w x). }
  destruct (x_channel x) as [|c cs] eqn:Hc.
  - destruct (x_todo x) as [|e es'] eqn:Ht.
    + assert (∀ v : Worker, Decision (v = Receiving)) by (intros []; by (left + right)).
      destruct (decide (Exists (λ v, v = Receiving) (x_workers x)))
        as [(v&[j Hj]%list_elem_of_lookup&->)%Exists_exists|Hno].
      * right. eexists. by eapply exec_closed.
      * left. split; [done|]. apply Forall_forall. intros v Hv.
        destruct (Hidle v Hv) as [->|]; [|done]. destruct Hno. apply Exists_exists. eauto.
    + right. eexists. eapply exec_checkpoint; [done|]. by rewrite Hc.
  - destruct (Hex 0%nat v0 Hv0) as [->|[_ ?]]; [|done]. right. eexists.
    by eapply exec_receive.
Qed.

(** A reader of a file that [write_file] writes finds its old content or the whole
    new content: the file that is being written has another name until it is complete,
    and no other file changes. *)
Theorem write_file_atomic fs fs' path buf :
  write_file fs path buf = Some fs' →
  fs_read fs' path = Some buf ∧
  (∃ fs1, fs_create fs (tmp_path path) buf = Some fs1 ∧
     fs_rename fs1 (tmp_path path) path = Some fs' ∧ fs_read fs1 path = fs_read fs path) ∧
  ∀ q, q ≠ path → q ≠ tmp_path path → fs_read fs' q = fs_read fs q.
Proof.
  assert (tmp_path path ≠ path) as Hne.
  { unfold tmp_path. induction path as [|c p IH]; [done|]. by intros [= H]. }
  unfold write_file. intros (fs1&H1&H2)%bind_Some. pose proof H1 as Hc. pose proof H2 as Hr.
  unfold fs_create in H1. case_decide; [done|]. case_match; [|done].
  injection H1 as <-.
  unfold fs_rename in H2. case_decide as Hd; [done|]. apply bind_Some in H2 as (b&Hb&H2).
  cbn in Hb, Hd. rewrite lookup_insert_eq in Hb. injection Hb as <-. injection H2 as <-.
  unfold fs_read. cbn.
  split_and!.
  - rewrite decide_False by tauto. by rewrite lookup_insert_eq.
  - eexists. split_and!; [done..|]. cbn.
    rewrite !decide_False by tauto. by rewrite lookup_insert_ne by done.
  - intros q Hq Ht. destruct (decide _); [done|].
    by rewrite lookup_insert_ne, lookup_delete_ne, lookup_insert_ne by done.
Qed.

End theorems.
