(* ===== verification/SplitSched.v ===== *)
(** * SplitSched: schedules of the splitting threads

    [run_threads] lets a scheduler pick, again and again, one of the threads that can go
    on.  Its decisions give exactly the interleavings of [exec_step], and enough of them
    bring any split to its end. *)

From S2P Require Import Prelude Text Proto World Segments SegmentsInv SegmentsThms.

Section schedules.
Context `{T : !TurnSync} `{Z0 : !Zkvm} `{Sp : !Splitter}.
Context (capacity : nat) (seg_path : string).
Abbreviation exec_step := (exec_step capacity seg_path).
Abbreviation exec_run_one := (exec_run_one capacity seg_path).
Abbreviation runnable := (runnable capacity seg_path).
Abbreviation run_threads := (run_threads capacity seg_path).

Implicit Types x y : Exec.

(** ** The choices are the steps *)

Lemma elem_of_choices x j i k :
  x_workers x !! j = Some k → (i < pending k `max` 1)%nat → Thread j i ∈ choices x.
Proof.
  intros Hj Hi. unfold choices. apply elem_of_cons. right. apply list_elem_of_join.
  exists (Thread j <$> seq 0 (pending k `max` 1)). split.
  - apply list_elem_of_fmap. exists i. split; [done|]. apply elem_of_seq. lia.
  - apply list_elem_of_lookup. exists j. by rewrite list_lookup_imap, Hj.
Qed.

(** Picking the [length l1]-th file of a writer. *)
Lemma lookup_hole {A} (l1 l2 : list A) a b :
  (l1 ++ a :: l2) !! length l1 = Some a ∧
  delete (length l1) (l1 ++ a :: l2) = l1 ++ l2 ∧
  <[length l1 := b]> (l1 ++ a :: l2) = l1 ++ b :: l2.
Proof.
  split_and!; [by apply list_lookup_middle|by apply delete_middle|].
  by rewrite insert_app_r_alt, Nat.sub_diag.
Qed.

Lemma exec_run_writer x j l1 f l2 last :
  x_workers x !! j = Some (Writing (l1 ++ f :: l2) last) →
  exec_run_worker seg_path j (length l1) x =
    let '(n, s, sent) := f in
    Some (if (sent <=? length (encode s))%nat
          then set_worker j (Writing (l1 ++ (n, s, S sent) :: l2) last) x
          else set_worker j (Writing (l1 ++ l2) last)
                 (put_file (segment_path seg_path n) (encode s) x)).
Proof.
  intros Hj. unfold exec_run_worker. rewrite Hj. cbn [mbind option_bind].
  destruct (l1 ++ f :: l2) as [|g p] eqn:Ep; [by destruct l1|]. rewrite <-Ep.
  destruct f as [[n s] sent].
  destruct (lookup_hole l1 l2 (n, s, sent) (n, s, S sent)) as (->&Hd&Hi).
  destruct last; cbn [mbind option_bind]; by rewrite Hd, Hi.
Qed.

Lemma exec_run_deferred_writer x j l1 f l2 :
  x_workers x !! j = Some (WritingDeferred (l1 ++ f :: l2)) →
  exec_run_worker seg_path j (length l1) x =
    let '(n, b, sent) := f in
    Some (if (sent <=? length b)%nat
          then set_worker j (WritingDeferred (l1 ++ (n, b, S sent) :: l2)) x
          else set_worker j (WritingDeferred (l1 ++ l2))
                 (put_file (deferred_path seg_path n) b x)).
Proof.
  intros Hj. unfold exec_run_worker. rewrite Hj. cbn [mbind option_bind].
  destruct (l1 ++ f :: l2) as [|g p] eqn:Ep; [by destruct l1|]. rewrite <-Ep.
  destruct f as [[n b] sent].
  destruct (lookup_hole l1 l2 (n, b, sent) (n, b, S sent)) as (->&Hd&Hi).
  cbn [mbind option_bind]. by rewrite Hd, Hi.
Qed.

Lemma exec_step_choice x y : exec_step x y → ∃ c, c ∈ choices x ∧ exec_run_one c x = Some y.
Proof.
  assert (∀ j i k, x_workers x !! j = Some k → (i < pending k `max` 1)%nat →
    exec_run_worker seg_path j i x = Some y → ∃ c, c ∈ choices x ∧ exec_run_one c x = Some y)
    as Hin by (intros j i k Hj Hi Hy; exists (Thread j i); eauto using elem_of_choices).
  assert (∀ A (l1 : list A) a l2 k, pending k = length (l1 ++ a :: l2) → (length l1 < pending k `max` 1)%nat) as Hlt.
  { intros A l1 a l2 k ->. rewrite length_app. cbn. lia. }
  destruct 1 as [x e es Ht Hc|x j c cs Hj Hc|x j Hj Hc Ht|x j i e d t Hj Hm Hl Ht
    |x j sent l last Hj Hs|x j sent l last Hj Hs|x j l1 n s sent l2 last Hj Hs
    |x j l1 n s sent l2 last Hj Hs|x j Hj|x j pv Hj|x j l1 n b sent l2 Hj Hs
    |x j l1 n b sent l2 Hj Hs|x j Hj].
  - exists Program. split; [by constructor|]. cbn. by rewrite Ht, decide_True.
  - apply (Hin j 0%nat _ Hj); [cbn; lia|]. unfold exec_run_worker. rewrite Hj. cbn. by rewrite Hc.
  - apply (Hin j 0%nat _ Hj); [cbn; lia|]. unfold exec_run_worker. rewrite Hj. cbn. by rewrite Hc, Ht.
  - apply (Hin j 0%nat _ Hj); [cbn; lia|]. unfold exec_run_worker. rewrite Hj. cbn.
    by rewrite Hm, Hl, Ht.
  - apply (Hin j 0%nat _ Hj); [cbn; lia|]. unfold exec_run_worker. rewrite Hj. cbn.
    by rewrite (proj2 (Nat.leb_le _ _) Hs).
  - apply (Hin j 0%nat _ Hj); [cbn; lia|]. unfold exec_run_worker. rewrite Hj. cbn.
    by rewrite (proj2 (Nat.leb_gt _ _) Hs).
  - apply (Hin j (length l1) _ Hj); [by eapply Hlt|]. rewrite (exec_run_writer _ _ _ _ _ _ Hj).
    by rewrite (proj2 (Nat.leb_le _ _) Hs).
  - apply (Hin j (length l1) _ Hj); [by eapply Hlt|]. rewrite (exec_run_writer _ _ _ _ _ _ Hj).
    by rewrite (proj2 (Nat.leb_gt _ _) Hs).
  - apply (Hin j 0%nat _ Hj); [cbn; lia|]. unfold exec_run_worker. by rewrite Hj.
  - apply (Hin j 0%nat _ Hj); [cbn; lia|]. unfold exec_run_worker. by rewrite Hj.
  - apply (Hin j (length l1) _ Hj); [by eapply Hlt|].
    rewrite (exec_run_deferred_writer _ _ _ _ _ Hj). by rewrite (proj2 (Nat.leb_le _ _) Hs).
  - apply (Hin j (length l1) _ Hj); [by eapply Hlt|].
    rewrite (exec_run_deferred_writer _ _ _ _ _ Hj). by rewrite (proj2 (Nat.leb_gt _ _) Hs).
  - apply (Hin j 0%nat _ Hj); [cbn; lia|]. unfold exec_run_worker. by rewrite Hj.
Qed.

Lemma elem_of_runnable x c : c ∈ runnable x ↔ c ∈ choices x ∧ is_Some (exec_run_one c x).
Proof. unfold Segments.runnable. rewrite list_elem_of_filter. tauto. Qed.

Lemma runnable_nil x : runnable x = [] → ∀ y, ¬ exec_step x y.
Proof.
  intros Hn y (c&Hc&Hy)%exec_step_choice.
  assert (c ∈ runnable x) as H by (apply elem_of_runnable; eauto).
  rewrite Hn in H. by apply elem_of_nil in H.
Qed.

(** ** Running *)

Lemma run_threads_cons i sched x :
  (runnable x = [] ∧ run_threads (i :: sched) x = x) ∨
  ∃ y, exec_step x y ∧ run_threads (i :: sched) x = run_threads sched y.
Proof.
  cbn [Segments.run_threads]. destruct (runnable x !! _) as [c|] eqn:Hc.
  - right. apply list_elem_of_lookup_2, elem_of_runnable in Hc as [_ [y Hy]]. exists y.
    rewrite Hy. split; [by eapply exec_run_one_step|done].
  - left. split; [|done]. apply lookup_ge_None in Hc. destruct (runnable x) as [|c l]; [done|].
    pose proof (Nat.mod_upper_bound i (length (c :: l))). cbn in *. lia.
Qed.

Lemma run_threads_steps sched x :
  ∃ n, nsteps exec_step n x (run_threads sched x) ∧
    (n = length sched ∨ runnable (run_threads sched x) = []).
Proof.
  revert x. induction sched as [|i sched IH]; intros x.
  { exists O. split; [constructor|by left]. }
  destruct (run_threads_cons i sched x) as [[Hn ->]|(y&Hy&->)].
  - exists O. split; [constructor|by right].
  - destruct (IH y) as (n&Hs&Hn). exists (S n). split; [by econstructor|]. cbn.
    destruct Hn as [->|]; [by left|by right].
Qed.

(** Every interleaving is one a scheduler can choose. *)
Lemma run_threads_covers x y : rtc exec_step x y → ∃ sched, run_threads sched x = y.
Proof.
  induction 1 as [x|x y z Hxy _ [sched IH]]; [by exists []|].
  apply exec_step_choice in Hxy as (c&Hc&Hy).
  assert (c ∈ runnable x) as [i Hi]%list_elem_of_lookup by (apply elem_of_runnable; eauto).
  exists (i :: sched). cbn [Segments.run_threads]. rewrite Nat.mod_small by (by eapply lookup_lt_Some).
  by rewrite Hi, Hy.
Qed.

(** Enough decisions bring a split to its end, with the files of the sequential
    execution. *)
Lemma run_threads_joined es segs last w sched :
  splittable es segs last → (0 < w)%nat → (0 < capacity)%nat →
  (split_steps seg_path es segs last w < length sched)%nat →
  let x := run_threads sched (exec_init w es) in
  exec_reachable capacity seg_path w es x ∧ joined x.
Proof.
  intros Hs Hw Hcap Hlen. cbn.
  destruct (run_threads_steps sched (exec_init w es)) as (n&Hn&Hend).
  assert (exec_reachable capacity seg_path w es (run_threads sched (exec_init w es))) as Hr
    by (apply rtc_nsteps; eauto).
  split; [done|].
  destruct Hend as [->|Hend].
  { pose proof (steps_bounded capacity seg_path es segs last w _ _ Hs Hn). lia. }
  destruct (joined_or_step capacity seg_path es segs last w _ Hs Hw Hcap Hr) as [|[y Hy]]; [done|].
  by apply runnable_nil in Hy.
Qed.

Lemma joined_stuck x y : joined x → ¬ exec_step x y.
Proof.
  intros [Ht Hall] Hxy.
  assert (∀ j k, x_workers x !! j = Some k → k = Exited) as Hex
    by (intros j k; apply (Forall_lookup_1 _ _ _ _ Hall)).
  destruct Hxy; try congruence; by (match goal with H : _ !! _ = Some _ |- _ => apply Hex in H end).
Qed.

(** [C18] The threads of a split never wait for each other in a circle: a scheduler finds
    one that can go on exactly until they are all joined. *)
Theorem split_progress es segs last w x :
  splittable es segs last → (0 < w)%nat → (0 < capacity)%nat →
  exec_reachable capacity seg_path w es x → joined x ↔ runnable x = [].
Proof.
  intros Hs Hw Hcap Hx. split.
  - intros Hj. destruct (runnable x) as [|c l] eqn:Hl; [done|].
    assert (c ∈ runnable x) as [_ [y Hy]]%elem_of_runnable by (rewrite Hl; by left).
    by eapply exec_run_one_step, joined_stuck in Hy.
  - intros Hn. destruct (joined_or_step capacity seg_path es segs last w x) as [|[y Hy]]; [done..|].
    by apply runnable_nil in Hy.
Qed.


End schedules.
