(* ===== verification/SplitStage.v ===== *)
(** * SplitStage: the files of a split, read back by the stage

    The executor names and writes the files of a split ([prover_v2/src/executor.rs]);
    the stage reads the number of segments, the segments and the deferred proofs from
    the same directory ([proof-service/src/stage/stage.rs]). *)

From S2P Require Import Prelude Text Proto World Tasks Stage.
From S2P Require Import Segments SegmentsInv SegmentsThms.
From Stdlib Require Import Ascii String ZifyN ZifyBool.
#[global] Open Scope list_scope.
#[global] Open Scope Z_scope.

(** ** Decimal text *)

Lemma drop_while_ws_none ws fuel s : ws s = 0%nat → drop_while_ws ws fuel s = s.
Proof. destruct fuel; cbn; [done|]. by intros ->. Qed.

(** There is no white space around a number. *)
Lemma trim_digits s : digits s → trim s = s.
Proof.
  intros Hd. unfold trim, trim_codes.
  assert (Forall (λ n, 48 ≤ n ≤ 57)%N (code <$> list_ascii_of_string s)) as H.
  { apply Forall_fmap. eapply Forall_impl; [exact Hd|]. intros c. apply digit_code. }
  assert (∀ l, Forall (λ n, 48 ≤ n ≤ 57)%N l → ws_head l = 0%nat ∧ ws_tail l = 0%nat) as Hws.
  { assert (∀ b, (48 ≤ b ≤ 57)%N → ws1 b = false) as H1 by (intros; unfold ws1; lia).
    assert (∀ b c, (48 ≤ b ≤ 57 ∨ 48 ≤ c ≤ 57)%N → ws2 b c = false) as H2
      by (intros; unfold ws2; lia).
    assert (∀ b c d, (48 ≤ b ≤ 57 ∨ 48 ≤ d ≤ 57)%N → ws3 b c d = false) as H3
      by (intros; unfold ws3; lia).
    intros l Hl. destruct Hl as [|a l Ha [|b l' Hb [|c l'' Hc _]]]; cbn [ws_head ws_tail];
      rewrite ?H1, ?H2, ?H3 by lia; done. }
  rewrite (drop_while_ws_none ws_head) by by apply Hws.
  rewrite (drop_while_ws_none ws_tail) by by apply Hws, Forall_rev.
  rewrite rev_involutive, <-list_fmap_compose.
  rewrite <-(string_of_list_ascii_of_string s) at 2. f_equal.
  rewrite <-(list_fmap_id (list_ascii_of_string s)) at 2.
  apply list_fmap_ext. intros. apply ascii_N_embedding.
Qed.


(** ** The names in the directory *)


Lemma child_name_Some dir p name :
  child_name dir p = Some name → p = dir +:+ "/" +:+ name ∧ contains "/" name = false.
Proof.
  unfold child_name. intros (s&Hs%strip_prefix_Some&H)%bind_Some.
  destruct (contains "/" s) eqn:Hc; cbn in H; [done|].
  destruct (is_empty s); simplify_eq. by rewrite str_app_assoc.
Qed.

Lemma child_name_app dir name :
  contains "/" name = false → is_empty name = false →
  child_name dir (dir +:+ "/" +:+ name) = Some name.
Proof.
  intros Hc He. unfold child_name. rewrite <-str_app_assoc, strip_prefix_app. cbn.
  by rewrite Hc, He.
Qed.

Lemma deferred_name_pretty i :
  Z.of_nat i < 2 ^ 16 → deferred_name i = "deferred_proof_" +:+ pretty (Z.to_N (2 ^ 16 + Z.of_nat i)).
Proof.
  intros Hi. unfold deferred_name. rewrite deferred_number by done. f_equal.
  destruct (2 ^ 16 + Z.of_nat i) eqn:E; [lia|done|lia].
Qed.

Lemma child_name_deferred dir i :
  Z.of_nat i < 2 ^ 16 → child_name dir (deferred_path dir i) = Some (deferred_name i).
Proof.
  intros Hi. apply child_name_app; [|done]. rewrite deferred_name_pretty, contains_app by done.
  by rewrite (digits_no_slash (pretty _)) by apply digits_pretty.
Qed.

(** The stage reads the executor's name of a deferred proof back. *)
Lemma deferred_file_name i :
  Z.of_nat i < 2 ^ 16 →
  deferred_file (deferred_name i) = Some (2 ^ 16 + Z.of_nat i, deferred_name i).
Proof.
  intros Hi. unfold deferred_file. rewrite deferred_name_pretty at 1 by done.
  rewrite strip_prefix_app. cbn [mbind option_bind].
  rewrite parse_usize_pretty by (unfold usize_MAX; lia). cbn. by rewrite Z2N.id by lia.
Qed.

Lemma deferred_file_starts name x :
  deferred_file name = Some x → ∃ s, name = "deferred_proof_" +:+ s.
Proof.
  unfold deferred_file. intros (s&Hs%strip_prefix_Some&_)%bind_Some. eauto.
Qed.

(** ** Sorting by number *)

Definition by_no (x y : Z * string) : Prop := x.1 ≤ y.1.

Lemma insert_by_no_Permutation x l : insert_by_no x l ≡ₚ x :: l.
Proof. induction l as [|y l IH]; cbn; [done|]. case_match; [done|]. rewrite IH. by apply Permutation_swap. Qed.

Lemma insert_by_no_sorted x l : StronglySorted by_no l → StronglySorted by_no (insert_by_no x l).
Proof.
  induction 1 as [|y l Hl IH Hy]; cbn; [repeat constructor|].
  destruct (x.1 <=? y.1) eqn:E.
  - constructor; [by constructor|]. constructor; [unfold by_no; lia|].
    eapply Forall_impl; [exact Hy|]. unfold by_no. intros. lia.
  - constructor; [done|]. rewrite insert_by_no_Permutation. constructor; [unfold by_no; lia|done].
Qed.

Lemma sort_by_no_sorted l : StronglySorted by_no (sort_by_no l) ∧ sort_by_no l ≡ₚ l.
Proof.
  induction l as [|x l [IH1 IH2]]; cbn; [by repeat constructor|].
  split; [by apply insert_by_no_sorted|]. by rewrite insert_by_no_Permutation, IH2.
Qed.

(** A sorted list with distinct numbers is what sorting makes of its elements. *)
Lemma sort_by_no_unique l l' :
  StronglySorted by_no l' → NoDup l'.*1 → l ≡ₚ l' → sort_by_no l = l'.
Proof.
  intros Hl' Hnd Hp. destruct (sort_by_no_sorted l) as [Hs1 Hs2].
  apply (StronglySorted_unique_strong by_no); [|done|done|by rewrite Hs2].
  intros [a s] [b t] Ha Hb H1 H2. assert (a = b) as <- by (unfold by_no in *; cbn in *; lia).
  rewrite Hs2, Hp in Ha.
  apply list_elem_of_lookup in Ha as [i Hi], Hb as [j Hj].
  assert (i = j) as <-; [|by simplify_eq].
  eapply (NoDup_lookup l'.*1); [done|..]; rewrite list_lookup_fmap, ?Hi, ?Hj; done.
Qed.

Lemma StronglySorted_seq i n : StronglySorted lt (seq i n).
Proof.
  revert i. induction n as [|n IH]; intros i; cbn; constructor; [apply IH|].
  apply Forall_forall. intros k Hk%elem_of_seq. lia.
Qed.

(** ** The directory of a joined split *)

Section read_back.
Context `{T : !TurnSync} `{Z0 : !Zkvm} `{Sp : !Splitter} `{E : !External}.
Context (capacity : nat) (seg_path : string) (es : list exe_state).
Context (segs : list Segment) (last : PublicValues digest addr_bits).
Context (Hsplit : splittable es segs last).
Implicit Types (W : World) (g : GenerateTask).

(** What is directly under [seg_path] are the files a split wrote, on a local disk that
    reads them. *)
Record split_dir (files : gmap string bytes) (W : World) : Prop := {
  sd_files p name : child_name seg_path p = Some name →
    fs_files (w_fs W) !! p = files !! p;
  sd_subdirs d name : d ∈ fs_dirs (w_fs W) → child_name seg_path d ≠ Some name;
  sd_dir : seg_path ∈ fs_dirs (w_fs W);
  sd_denied : fs_denied (w_fs W) = ∅
}.

Lemma split_dir_read W p name b :
  split_dir (split_files seg_path segs last) W → child_name seg_path p = Some name →
  split_files seg_path segs last !! p = Some b → fs_read (w_fs W) p = Some b.
Proof.
  intros [Hf _ _ Hd] Hc Hp. unfold fs_read. rewrite Hd, decide_False by set_solver.
  by rewrite (Hf _ _ Hc).
Qed.

Lemma input_small i b : deferred_inputs last !! i = Some b → Z.of_nat i < 2 ^ 16.
Proof. intros Hi%lookup_lt_Some. pose proof (sp_few _ _ _ Hsplit). unfold few_deferred in *. lia. Qed.

Lemma split_files_deferred i b :
  deferred_inputs last !! i = Some b →
  split_files seg_path segs last !! deferred_path seg_path i = Some b.
Proof.
  intros Hi. unfold split_files.
  rewrite lookup_insert_ne by (intros H; by eapply deferred_path_not_txt).
  apply all_files_lookup; [apply Hsplit|]. apply elem_of_app. right.
  apply list_elem_of_fmap. exists (i, b). split; [done|]. apply elem_of_number_from. eauto.
Qed.

Lemma split_files_segment n s :
  segs !! n = Some s →
  split_files seg_path segs last !! segment_path seg_path n = Some (encode s).
Proof.
  intros Hn. unfold split_files.
  rewrite lookup_insert_ne by (intros H; by eapply segment_path_not_txt).
  apply all_files_lookup; [apply Hsplit|]. apply elem_of_app. left.
  apply list_elem_of_fmap. exists (n, s). split; [done|]. apply elem_of_number_from. eauto.
Qed.

(** The files whose names the stage takes for deferred proofs. *)
Lemma split_files_names p name x :
  child_name seg_path p = Some name → is_Some (split_files seg_path segs last !! p) →
  deferred_file name = Some x →
  ∃ i b, deferred_inputs last !! i = Some b ∧ name = deferred_name i.
Proof.
  intros [-> _]%child_name_Some [b Hb] (s&->)%deferred_file_starts.
  unfold split_files in Hb. apply lookup_insert_Some in Hb as [[H _]|[_ Hb]].
  { by apply (inj (String.app _)) in H. }
  apply all_files_lookup in Hb; [|apply Hsplit]. unfold all_files in Hb.
  apply elem_of_app in Hb as [Hb|Hb];
    apply list_elem_of_fmap in Hb as ([n a]&[= Hp ->]&Hn); apply elem_of_number_from in Hn as (i&->&Hi).
  - apply (inj (String.app _)) in Hp. destruct (pretty_nat_first i) as (c&t&Ht&[z Hz]).
    change (String "/" ("deferred_proof_" +:+ s) = String "/" (pretty (0 + i)%nat)) in Hp.
    cbn [Nat.add] in Hp. rewrite Ht in Hp. by simplify_eq.
  - exists i, a. split; [done|]. apply (inj (String.app _)) in Hp.
    by apply (inj (String.app "/")) in Hp.
Qed.

(** The names the stage takes for deferred proofs, with their numbers: all the inputs'. *)
Definition numbered_names : list (Z * string) :=
  (λ i : nat, (2 ^ 16 + Z.of_nat i, deferred_name i)) <$> seq 0 (Datatypes.length (deferred_inputs last)).

Lemma split_dir_deferred W names :
  split_dir (split_files seg_path segs last) W → fs_read_dir (w_fs W) seg_path = Some names →
  deferred_files names = numbered_names.
Proof.
  intros [Hf Hd Hdir Hden]. unfold fs_read_dir.
  rewrite Hden, decide_False by set_solver. intros [= <-].
  assert (omap (child_name seg_path) (elements (fs_dirs (w_fs W))) = []) as ->.
  { apply omap_nil. intros d Hin%elem_of_elements. destruct (child_name seg_path d) eqn:Hc; [|done].
    by apply Hd in Hc. }
  rewrite app_nil_r. unfold numbered_names. apply sort_by_no_unique.
  { apply (StronglySorted_fmap _ lt); [unfold by_no; cbn; lia|apply StronglySorted_seq]. }
  { rewrite <-list_fmap_compose. apply NoDup_fmap; [intros i j H; cbn in H; lia|apply NoDup_seq]. }
  apply NoDup_Permutation.
  - apply NoDup_omap.
    + intros a b c Ha Hb. unfold deferred_file in *. 
      apply bind_Some in Ha as (?&_&(?&_&Ha)%bind_Some).
      apply bind_Some in Hb as (?&_&(?&_&Hb)%bind_Some). by simplify_eq/=.
    + apply NoDup_omap; [|apply NoDup_fst_map_to_list].
      intros a b c [-> _]%child_name_Some [-> _]%child_name_Some. done.
  - apply NoDup_fmap; [|apply NoDup_seq]. intros i j [= H _]. lia.
  - intros [no nm]. rewrite list_elem_of_omap, list_elem_of_fmap. split.
    + intros (name&Hname&Hdef). apply list_elem_of_omap in Hname as (p&Hp&Hc).
      apply list_elem_of_fmap in Hp as ([p' b]&->&Hp). apply elem_of_map_to_list in Hp.
      destruct (split_files_names p' name (no, nm)) as (i&b'&Hi&->); [done| |done|].
      { exists b. cbn in Hc. by rewrite <-(Hf _ _ Hc). }
      rewrite deferred_file_name in Hdef by by eapply input_small. simplify_eq.
      exists i. split; [done|]. apply elem_of_seq. apply lookup_lt_Some in Hi. lia.
    + intros (i&[= -> ->]&Hi%elem_of_seq).
      destruct (lookup_lt_is_Some_2 (deferred_inputs last) i) as [b Hb]; [lia|].
      assert (Hsm := input_small _ _ Hb). exists (deferred_name i).
      split; [|by apply deferred_file_name]. apply list_elem_of_omap.
      exists (deferred_path seg_path i). split; [|by apply child_name_deferred].
      apply list_elem_of_fmap. exists (deferred_path seg_path i, b). split; [done|].
      apply elem_of_map_to_list.
      rewrite (Hf _ _ (child_name_deferred seg_path i Hsm)). by apply split_files_deferred.
Qed.

Lemma split_dir_count W g :
  split_dir (split_files seg_path segs last) W → gt_seg_path g = seg_path → len segs ≤ usize_MAX →
  read_segments_txt g W = Ret (Some (len segs), W).
Proof.
  intros HW Hg Hsmall. unfold read_segments_txt, read_m, mbind, M_bind. rewrite Hg.
  cbn -[fs_read parse_usize trim].
  rewrite (split_dir_read W _ "segments.txt" (list_byte_of_string (pretty (Datatypes.length segs))));
    [|done|by apply child_name_app|apply lookup_insert_eq].
  cbn -[parse_usize trim]. rewrite string_of_list_byte_of_string, trim_digits by apply digits_pretty.
  unfold pretty, pretty_nat. rewrite parse_usize_pretty by lia. by rewrite nat_N_Z.
Qed.

Lemma split_dir_safe_read W p name b :
  split_dir (split_files seg_path segs last) W → child_name seg_path p = Some name →
  split_files seg_path segs last !! p = Some b → safe_read p W = Ret (b, W).
Proof.
  intros HW Hc Hp. unfold safe_read, read_m, mbind, M_bind. cbn -[fs_read].
  by rewrite (split_dir_read W p name b).
Qed.

Lemma child_name_segment n :
  child_name seg_path (segment_path seg_path n) = Some (pretty n).
Proof.
  apply child_name_app; [apply digits_no_slash, digits_pretty|].
  destruct (pretty_nat_first n) as (c&s&->&_). done.
Qed.

(** What the stage reads from the directory of a split. *)
Definition reads_back W g : Prop :=
  read_segments_txt g W = Ret (Some (len segs), W) ∧
  (∀ n s, segs !! n = Some s →
     safe_read (gt_seg_path g +:+ "/" +:+ pretty n) W = Ret (encode s, W)) ∧
  ∃ names, file_read_dir (gt_seg_path g) W = Ret (Some names, W) ∧
    deferred_files names = numbered_names ∧
    Forall2 (λ f b, safe_read (gt_seg_path g +:+ "/" +:+ f.2) W = Ret (b, W))
      (deferred_files names) (deferred_inputs last).

Lemma split_dir_reads_back W g :
  split_dir (split_files seg_path segs last) W → gt_seg_path g = seg_path →
  is_s3_path seg_path = false → len segs < 2 ^ 32 → reads_back W g.
Proof.
  intros HW Hg Hs3 Hsmall. split.
  { apply split_dir_count; [done..|]. unfold usize_MAX. lia. }
  split.
  { intros n s Hn. rewrite Hg. eapply split_dir_safe_read; [done| |by apply split_files_segment].
    apply child_name_segment. }
  assert (is_Some (fs_read_dir (w_fs W) seg_path)) as [names Hnames].
  { destruct HW as [_ _ ? Hd]. unfold fs_read_dir. rewrite Hd, decide_False by set_solver. eauto. }
  exists names. split.
  { rewrite file_read_dir_eq. unfold mbind, M_bind. rewrite Hg, Hs3. cbn -[fs_read_dir]. by rewrite Hnames. }
  rewrite (split_dir_deferred W) by done.
  split; [done|]. unfold numbered_names. apply Forall2_fmap_l, Forall2_same_length_lookup.
  split; [by rewrite length_seq|]. intros i j b Hi Hb. cbn. rewrite Hg.
  apply lookup_seq in Hi as [-> _]. eapply split_dir_safe_read; [done| |by apply split_files_deferred].
  apply child_name_deferred. by eapply input_small.
Qed.

(** When a split has been joined, the stage reads back from its directory what the
    executor wrote: the number of segments from [segments.txt], every segment under its
    number, and the names of the deferred proofs, in their order and numbered from 2^16,
    each with its input. *)
Theorem split_read_back w x W g :
  (0 < w)%nat → exec_reachable capacity seg_path w es x → joined x →
  split_dir (x_files x) W → gt_seg_path g = seg_path → is_s3_path seg_path = false →
  len segs < 2 ^ 32 → total_segments x = len segs ∧ reads_back W g.
Proof.
  intros Hw Hx Hj HW Hg Hs3 Hsmall.
  destruct (joined_files capacity seg_path es segs last w x Hsplit Hw Hx Hj)
    as [Hfiles Hidx]. rewrite Hfiles in HW. split; [|by apply split_dir_reads_back].
  unfold total_segments. rewrite Hidx. apply u32_wrap_small. lia.
Qed.

End read_back.
