(* ===== verification/SplitTasks.v ===== *)
(** * SplitTasks: from the directory of a split to the tasks of the stage

    Feature "prover_v2": what [gen_prove_task_post] makes of the directory a split left.
    There is one prove task for every segment, whose file holds that segment, and one
    finished task for every deferred proof, which carries its input. *)

From S2P Require Import Prelude Text Proto World Tasks Stage AggGraph StageInv StageGen.
From S2P Require Import SegmentRun Segments SegmentsInv SegmentsThms SplitStage.

(** ** Reading after more UUIDs have been drawn *)

Section reading.
Context `{E : !External}.
Implicit Types (w : World) (g : GenerateTask).

(** A computation that answers the same, and leaves the world alone, after any number of
    draws. *)
Definition answers {A} (m : M A) (a : A) w : Prop := ∀ n, m (bump n w) = Ret (a, bump n w).

Lemma safe_read_answers p w a : safe_read p w = Ret (a, w) → answers (safe_read p) a w.
Proof.
  unfold safe_read, read_m, mbind, M_bind, mret, M_ret, get_world.
  intros H n. cbn -[bump] in *. rewrite w_fs_bump. by injection H as ->.
Qed.

Lemma file_read_answers p w a : file_read p w = Ret (a, w) → answers (file_read p) a w.
Proof.
  intros H n. rewrite file_read_eq in H |- *. destruct (is_s3_path p).
  - unfold s3_read, lift, mbind, M_bind in *. destruct (parse_s3_path p) as [[b k]|]; [|done].
    unfold get_world, mret, M_ret in *. cbn -[bump] in *. rewrite w_s3_bump. by injection H as ->.
  - unfold read_m, mbind, M_bind, mret, M_ret, get_world in *.
    cbn -[bump] in *. rewrite w_fs_bump. by injection H as ->.
Qed.

Lemma file_read_dir_answers p w a :
  file_read_dir p w = Ret (a, w) → answers (file_read_dir p) a w.
Proof.
  intros H n. rewrite file_read_dir_eq in H |- *. destruct (is_s3_path p).
  - unfold list_files_in_s3, lift, mbind, M_bind in *.
    destruct (parse_s3_path p) as [[b k]|]; [|done].
    unfold get_world, mret, M_ret in *. cbn -[bump] in *. rewrite w_s3_bump. by injection H as ->.
  - unfold mbind, M_bind, mret, M_ret, get_world in *.
    cbn -[bump] in *. rewrite w_fs_bump. by injection H as ->.
Qed.

Lemma gen_program_answers g w a : gen_program g w = Ret (a, w) → answers (gen_program g) a w.
Proof.
  unfold gen_program. intros H n. destruct (gt_program g) as [p|]; [by injection H as ->|].
  apply M_bind_Ret in H as (block&w1&[Hb <-]%lift_Ret&H).
  apply M_bind_Ret in H as (receipts&w1&Hr&H).
  apply M_bind_Ret in H as (pub&w2&Hpub&H). apply M_bind_Ret in H as (priv&w3&Hpriv&H).
  apply M_bind_Ret in H as (out&w4&Hout&[<- ->]%M_mret_Ret).
  assert (w1 = w) as ->.
  { clear -Hr. destruct (is_empty _); [by apply M_mret_Ret in Hr as [_ ->]|].
    m_inv. by eapply file_read_same. }
  pose proof (safe_read_same _ _ _ _ Hpub) as ->. pose proof (safe_read_same _ _ _ _ Hpriv) as ->.
  erewrite M_bind_run by (apply lift_Ret; done). erewrite M_bind_run; cycle 1.
  { destruct (is_empty (gt_receipt_inputs_path g)).
    { apply M_mret_Ret in Hr as [-> _]. reflexivity. }
    apply M_bind_Ret in Hr as (data&w1&Hd&Hr). pose proof (file_read_same _ _ _ _ Hd) as ->.
    rewrite (M_bind_run _ _ _ _ _ (file_read_answers _ _ _ Hd n)).
    apply M_bind_Ret in Hr as (d&w1&[Hu ->]%lift_Ret&[Hu' _]%lift_Ret).
    unfold lift. rewrite Hu. unfold mbind, M_bind. by rewrite Hu'. }
  rewrite (M_bind_run _ _ _ _ _ (safe_read_answers _ _ _ Hpub n)).
  rewrite (M_bind_run _ _ _ _ _ (safe_read_answers _ _ _ Hpriv n)).
  by rewrite (M_bind_run _ _ _ _ _ (safe_read_answers _ _ _ Hout n)).
Qed.

(** Tasks that draw one id each are all made. *)
Lemma mapM_total {A B} (f : A → M B) (P : A → B → Prop) w l :
  (∀ a, a ∈ l → ∀ n, ∃ b, f a (bump n w) = Ret (b, bump (S n) w) ∧ P a b) →
  ∀ n, ∃ bs, mapM f l (bump n w) = Ret (bs, bump (length l + n) w) ∧ Forall2 P l bs.
Proof.
  induction l as [|a l IH]; intros Hf n; cbn [mapM].
  { exists []. by split. }
  destruct (Hf a (list_elem_of_here _ _) n) as (b&Hb&HP).
  destruct (IH (λ a' Ha', Hf a' (list_elem_of_further _ _ _ Ha')) (S n)) as (bs&Hbs&HF).
  exists (b :: bs). split; [|by constructor].
  rewrite (M_bind_run _ _ _ _ _ Hb), (M_bind_run _ _ _ _ _ Hbs).
  replace (length (a :: l) + n)%nat with (length l + S n)%nat by (cbn; lia). done.
Qed.

Lemma bump_S n w : bump 1 (bump n w) = bump (S n) w.
Proof. by rewrite bump_bump. Qed.

Lemma tasks_with_nos_total g prog w lo hi :
  gen_program g w = Ret (prog, w) →
  ∀ n, ∃ ts m, tasks_with_nos g lo hi (bump n w) = Ret (ts, bump m w).
Proof.
  intros Hp n. destruct (mapM_total (task_with_no g) (λ _ _, True) w (seqZ lo (hi - lo))) with n
    as (ts&Hts&_); [|by eexists ts, _].
  intros no _ k. eexists. split; [|done]. unfold task_with_no, new_uuid.
  unfold mbind at 1, M_bind at 1. fold (bump 1 (bump k w)).
  change (bump k w <| w_uuids := S (w_uuids (bump k w)) |>) with (bump 1 (bump k w)).
  rewrite bump_S. by rewrite (M_bind_run _ _ _ _ _ (gen_program_answers _ _ _ Hp (S k))).
Qed.

(** A deferred proof's task carries what its file holds. *)
Lemma deferred_task_total g prog w f b n :
  gen_program g w = Ret (prog, w) →
  safe_read (gt_seg_path g +:+ "/" +:+ f.2) w = Ret (b, w) →
  ∃ p, deferred_task g f (bump n w) = Ret (p, bump (S n) w) ∧
    deferred_proof f p ∧ pt_output p = b.
Proof.
  intros Hp Hr. destruct f as [no name]. eexists.
  unfold deferred_task, new_uuid. unfold mbind at 1, M_bind at 1.
  change (bump n w <| w_uuids := S (w_uuids (bump n w)) |>) with (bump 1 (bump n w)).
  rewrite bump_S. rewrite (M_bind_run _ _ _ _ _ (gen_program_answers _ _ _ Hp (S n))).
  rewrite (M_bind_run _ _ _ _ _ (safe_read_answers _ _ _ Hr (S n))).
  split; [reflexivity|]. split; [by split|done].
Qed.

End reading.

Lemma pretty_Z_nat (k : nat) : pretty (Z.of_nat k) = pretty k.
Proof. by destruct k. Qed.

(** ** The tasks of a split *)

Section tasks.
Context `{T : !TurnSync} `{Z0 : !Zkvm} `{Sp : !Splitter} `{E : !External}.
Context (es : list exe_state) (segs : list Segment) (last : PublicValues digest addr_bits).
Implicit Types (W : World) (s : Stage).

(** A prove task for every segment, whose file is that segment, then a finished task for
    every deferred proof, with its input. *)
Definition tasks_of_split W (P : list ProveTask) : Prop :=
  ∃ proves defs, P = proves ++ defs ∧
    Forall2 (λ seg p, pt_is_deferred p = false ∧ safe_read (pt_segment p) W = Ret (encode seg, W))
      segs proves ∧
    (∀ k p, proves !! k = Some p → pt_file_no p = Z.of_nat k) ∧
    Forall2 (λ b d, pt_is_deferred d = true ∧ pt_state d = TASK_STATE_SUCCESS ∧ pt_output d = b)
      (deferred_inputs last) defs ∧
    ∀ i d, defs !! i = Some d → pt_file_no d = 2 ^ 16 + Z.of_nat i.

(** The segments' tasks are completed to one for every segment. *)
Lemma complete_prove_tasks_total s W prog :
  gen_program (stage_generate_task s) W = Ret (prog, W) →
  ∃ s1 m, complete_prove_tasks s W = Ret (s1, bump m W) ∧
    stage_generate_task s1 = stage_generate_task s.
Proof.
  intros Hp. unfold complete_prove_tasks. destruct (_ <? _).
  { exists (s <| stage_prove_tasks := take (Z.to_nat (st_total_segments (stage_split_task s)))
              (stage_prove_tasks s) |>), O. by rewrite bump_0. }
  destruct (tasks_with_nos_total _ _ _ (len (stage_prove_tasks s))
    (st_total_segments (stage_split_task s)) Hp O) as (ts&m&Hts).
  rewrite bump_0 in Hts. rewrite (M_bind_run _ _ _ _ _ Hts). by eexists _, m.
Qed.

Lemma deferred_tasks_total g prog W files inputs n :
  gen_program g W = Ret (prog, W) →
  Forall2 (λ f b, safe_read (gt_seg_path g +:+ "/" +:+ f.2) W = Ret (b, W)) files inputs →
  ∃ ds m, mapM (deferred_task g) files (bump n W) = Ret (ds, bump m W) ∧
    Forall2 deferred_proof files ds ∧
    Forall2 (λ b d, pt_is_deferred d = true ∧ pt_state d = TASK_STATE_SUCCESS ∧ pt_output d = b)
      inputs ds.
Proof.
  intros Hp Hin. destruct (mapM_total (deferred_task g) (λ f d, deferred_proof f d ∧
    safe_read (gt_seg_path g +:+ "/" +:+ f.2) W = Ret (pt_output d, W)) W files) with n
    as (ds&Hds&HF).
  { intros f Hf k. apply list_elem_of_lookup in Hf as [i Hi].
    destruct (Forall2_lookup_l _ _ _ _ _ Hin Hi) as (b&_&Hb).
    destruct (deferred_task_total g prog W f b k Hp Hb) as (d&Hd&Hd1&<-). by exists d. }
  exists ds. eexists. split; [exact Hds|].
  split; [eapply Forall2_impl; [exact HF|]; by intros ?? [? _]|].
  clear -HF Hin. revert ds HF. induction Hin as [|f b fs bs Hb _ IH]; intros ds HF;
    inversion_clear HF as [|? d ? ds' [[] Hr] HF']; constructor; [|by apply IH].
  rewrite Hb in Hr. by injection Hr as <-.
Qed.

Lemma gen_prove_task_post_split s W prog :
  reads_back segs last W (stage_generate_task s) →
  gen_program (stage_generate_task s) W = Ret (prog, W) →
  numbered_list (stage_generate_task s) (stage_prove_tasks s) →
  st_total_segments (stage_split_task s) = len segs →
  ∃ s' m, gen_prove_task_post feature_prover_v2 s W = Ret (s', bump m W) ∧
    tasks_of_split W (stage_prove_tasks s').
Proof.
  set (g := stage_generate_task s). intros (_&Hseg&names&Hdir&Hnames&Hin) Hp Hn Htot.
  destruct (complete_prove_tasks_total s W prog Hp) as (s1&m&Hc&Hg1).
  destruct (complete_numbered s W s1 _ Hn Hc) as (Hn1&Hlen&_).
  assert (Forall2 (λ seg p, pt_is_deferred p = false ∧
    safe_read (pt_segment p) W = Ret (encode seg, W)) segs (stage_prove_tasks s1)) as Hproves.
  { apply Forall2_same_length_lookup. split; [lia|]. intros k seg p Hk Hpk.
    destruct (Hn1 k p Hpk) as [_ -> ->]. split; [done|]. rewrite pretty_Z_nat. by apply Hseg. }
  destruct (deferred_tasks_total g prog W _ _ m Hp Hin) as (ds&m'&Hds&HF&Hout).
  exists (s1 <| stage_prove_tasks := stage_prove_tasks s1 ++ ds |>), m'. split.
  - unfold gen_prove_task_post. fold g. rewrite (M_bind_run _ _ _ _ _ Hc).
    rewrite (M_bind_run _ _ _ _ _ (file_read_dir_answers _ _ _ Hdir m)).
    rewrite (M_bind_run _ _ _ names (bump m W)) by done.
    by rewrite (M_bind_run _ _ _ _ _ Hds).
  - exists (stage_prove_tasks s1), ds. split_and!; [done|done| |done|].
    + intros k p Hk. by destruct (Hn1 k p Hk).
    + intros i d Hi. destruct (Forall2_lookup_r _ _ _ _ _ HF Hi) as (f&Hf&[-> _ _ _]).
      rewrite Hnames in Hf. apply list_lookup_fmap_Some in Hf as (j&->&Hj).
      by apply lookup_seq in Hj as [-> _].
Qed.

End tasks.
