(* ===== verification/SplitSample.v ===== *)
(** * SplitSample: a small split, run to the end

    A zkVM whose checkpoints are numbers, two workers and a channel of one place: an
    execution of [Segments] in which the second checkpoint is traced while the segments
    of the first are written. *)

From S2P Require Import Prelude Text Proto World Tasks Stage AggGraph.
From S2P Require Import Segments SegmentsInv SegmentsThms SplitSched SplitStage Codec.

#[export] Instance count_sync : TurnSync.
Proof.
  refine {| sync := nat; sync_new := 0%nat; my_turn k i := bool_decide (i = k);
            advance_turn := S |}.
  intros k i. assert (Nat.iter k S 0%nat = k) as ->; [|done].
  induction k as [|k IH]; [done|]. change (S (Nat.iter k S 0%nat) = S k). by rewrite IH.
Defined.

(** A record: its public values and the checkpoints it stands for. *)
Definition Rec : Type := PublicValues () Z * list byte.
Definition pv0 : PublicValues () Z := mkPublicValues _ _ 0 0 0 0 () () 0 0 0 0.

(** Public values as their numbers. *)
Definition pv_fields (v : PublicValues () Z) : list Z :=
  [ pv_shard v; pv_execution_shard v; pv_start_pc v; pv_next_pc v;
    pv_previous_init_addr_bits v; pv_last_init_addr_bits v;
    pv_previous_finalize_addr_bits v; pv_last_finalize_addr_bits v ].
Definition pv_of_fields (l : list Z) : PublicValues () Z :=
  match l with
  | [a; b; c; d; e; f; g; h] => mkPublicValues _ _ a b c d () () e f g h
  | _ => pv0
  end.
Lemma pv_of_to v : pv_of_fields (pv_fields v) = v.
Proof. by destruct v as [? ? ? ? [] [] ? ? ? ?]. Qed.

(** What a segment file holds: a checkpoint or a record, with the public values. *)
Definition SegmentFile : Type := (byte * list Z) + (list Z * list byte).

#[export] Instance byte_zkvm : Zkvm.
Proof.
  refine {| digest := (); addr_bits := Z; exe_state := byte; record := Rec;
    record_pv := fst; with_pv v r := (v, r.2);
    defer r := r; append a b := (a.1, a.2 ++ b.2); pv_reset := pv0;
    encode_state e v := to_bytes (inl (e, pv_fields v) : SegmentFile);
    encode_record r := to_bytes (inr (pv_fields r.1, r.2) : SegmentFile) |}.
  done.
Defined.
#[export] Instance byte_splitter : Splitter.
Proof.
  refine {| trace_checkpoint e := [(mkPublicValues _ _ 0 1 0 7 () () 0 0 0 0, [e])];
    split_deferred is_done d := if is_done : bool then ([d], (pv0, [])) else ([], d);
    record_new := (pv0, []); deferred_inputs pv := [[Byte.x01]; [Byte.x02]] |}.
  set_solver.
Defined.

(** Segment files are read back. *)
Definition read_back (b : bytes) : option Segment :=
  f ← of_bytes (A := SegmentFile) b;
  Some match f with
       | inl (e, v) => SState (e : exe_state) (pv_of_fields v)
       | inr (v, r) => SRecord ((pv_of_fields v, r) : record)
       end.
Lemma read_back_encode s : read_back (encode s) = Some s.
Proof.
  unfold read_back. destruct s as [e v|[v r]]; cbn [encode encode_state encode_record byte_zkvm];
    rewrite of_to_bytes; cbn -[pv_fields pv_of_fields]; by rewrite pv_of_to.
Qed.

Definition sample_es : list exe_state := [Byte.x0a; Byte.x0b].
Definition sample_segs : list Segment :=
  match sequential sample_es pv_reset record_new with Ret r => r.1 | Panic => [] end.
Definition sample_last : PublicValues digest addr_bits :=
  match sequential sample_es pv_reset record_new with Ret r => r.2 | Panic => pv0 end.

Lemma sample_splittable : splittable sample_es sample_segs sample_last.
Proof. split; [by eexists|done|reflexivity|]. unfold few_deferred. cbn. lia. Defined.

(** The second checkpoint is received while the first is traced; the files of the last
    turn are written out of order, the second while the first is begun.  A segment takes
    two steps and one for each of its 54, 58 and 69 bytes. *)
Definition sample_schedule : list Choice :=
  [Program; Thread 0 0; Program; Thread 1 0] ++ repeat (Thread 0 0) (1 + 3 + 56 + 1) ++
  repeat (Thread 1 0) (1 + 3) ++
  [Thread 1 0] ++ repeat (Thread 1 1) 71 ++ [Thread 0 0] ++ repeat (Thread 1 0) 59 ++
  [Thread 1 0] ++ repeat (Thread 1 1) 3 ++ repeat (Thread 1 0) 3 ++ repeat (Thread 1 0) 2.
Definition sample_exec (n : nat) : Exec :=
  default (exec_init 2 sample_es)
    (exec_run 1 "p/segment" (take n sample_schedule) (exec_init 2 sample_es)).
Definition sample_end : Exec := sample_exec (length sample_schedule).

(** Beyond its end the schedule changes nothing. *)
Lemma sample_reached_all n : exec_reachable 1 "p/segment" 2 sample_es (sample_exec n).
Proof.
  unfold sample_exec.
  destruct (exec_run 1 "p/segment" (take n sample_schedule) (exec_init 2 sample_es)) as [y|] eqn:Hy.
  - by eapply exec_run_steps.
  - apply rtc_refl.
Qed.

Lemma sample_end_joined : joined sample_end.
Proof.
  assert (x_todo sample_end = [] ∧ x_workers sample_end = [Exited; Exited]) as [H1 H2]
    by (vm_compute; done).
  split; [done|]. rewrite H2. by repeat constructor.
Qed.

Lemma split_equals_sequential_witness :
  joined sample_end ∧
  dir_files "p/segment" sample_end = split_files "p/segment" sample_segs sample_last ∧
  total_segments sample_end = 3.
Proof.
  destruct (split_equals_sequential 1 "p/segment" sample_es sample_segs sample_last 2 sample_end)
    as (_&Hf&Hi).
  - exact sample_splittable.
  - lia.
  - apply sample_reached_all.
  - exact sample_end_joined.
  - split; [exact sample_end_joined|]. split; [exact Hf|]. rewrite Hi. vm_compute. reflexivity.
Defined.

(** The first segment is written, the second is begun; later the second deferred proof. *)
Abbreviation files_at n := (dir_files "p/segment" (sample_exec n)).


Lemma split_progress_witness :
  x_workers (sample_exec 4) !! 1%nat = Some (Tracing (1%nat, Byte.x0b, true)) ∧
  runnable 1 "p/segment" (sample_exec 4) ≠ [].
Proof.
  assert (x_workers (sample_exec 4) !! 1%nat = Some (Tracing (1%nat, Byte.x0b, true))) as Hw
    by (vm_compute; reflexivity).
  split; [exact Hw|]. intros Hn.
  destruct (split_progress 1 "p/segment" sample_es sample_segs sample_last 2 (sample_exec 4)
    sample_splittable) as [_ Hj]; [lia|lia|apply sample_reached_all|].
  destruct (Hj Hn) as [_ Hex]. by apply (Forall_lookup_1 _ _ _ _ Hex) in Hw.
Defined.

(** The directory the stage reads. *)
Definition split_world : @World Sample.external :=
  Sample.world [] [] <| w_fs := mkFs (x_files sample_end) {[ "p/segment" ]} ∅ |>.
Definition split_generate : GenerateTask :=
  stage_generate_task (Stage_new SampleGraph.request).

Lemma split_read_back_witness :
  read_segments_txt (E := Sample.external) split_generate split_world = Ret (Some 3, split_world) ∧
  ∃ names, file_read_dir (E := Sample.external) "p/segment" split_world = Ret (Some names, split_world) ∧
    deferred_files names = [(65536, "deferred_proof_65536"); (65537, "deferred_proof_65537")].
Proof.
  destruct (split_read_back (E := Sample.external) 1 "p/segment" sample_es sample_segs sample_last
    sample_splittable 2 sample_end split_world split_generate) as (Ht&Hr&_&names&Hn&Hd&_).
  - lia.
  - apply sample_reached_all.
  - exact sample_end_joined.
  - split.
    + done.
    + intros d name Hd. change (d ∈ ({["p/segment"]} : gset string)) in Hd.
      apply elem_of_singleton in Hd as ->. vm_compute. congruence.
    + vm_compute. done.
    + done.
  - done.
  - done.
  - vm_compute. done.
  - split; [rewrite Hr; f_equal; f_equal; f_equal; exact Ht|].
    exists names. split; [exact Hn|]. rewrite Hd. vm_compute. reflexivity.
Defined.

Lemma write_file_atomic_witness :
  ∃ fs', write_file (mkFs {[ "p/0" := [Byte.x01] ]} {[ "p" ]} ∅) "p/0" [Byte.x02] = Some fs' ∧
    fs_read fs' "p/0" = Some [Byte.x02].
Proof.
  eexists. split; [reflexivity|].
  apply (write_file_atomic (mkFs {[ "p/0" := [Byte.x01] ]} {[ "p" ]} ∅)). reflexivity.
Defined.
