(* ===== verification/TaskPred.v ===== *)
(** * TaskPred: properties of prove tasks that every run keeps

    A property of a single prove task that survives being handed out and being
    answered, and that fresh tasks have, holds of every prove task in every reachable
    state of a run.  The class [TaskPred] is what a client shows; [loop_reaches_tasks]
    is what it gets. *)

From S2P Require Import Prelude Text Proto World Tasks Stage AggGraph StageInv StageGen.
From S2P Require Import StageOps StageSteps Database ProverPool ProverClient Worker.
From S2P Require Import WorkerInv WorkerRun SegmentRun.

Class TaskPred (g : GenerateTask) (Q : ProveTask → Prop) : Prop := {
  tp_dispatched now p : Q p → is_ready_state (pt_state p) = true → Q (dispatched_prove now p);
  tp_reply now r err p : Q p → pt_state p = TASK_STATE_PROCESSING →
    Q (on_prove_task_macro now r p err).1.2;
  tp_segment no p : segment_task g no p → Q p;
  tp_deferred f p : deferred_proof f p → Q p
}.

Section task_pred.
Context `{E : !External} `{J : !Json} `{C : !Client} (g : GenerateTask).
Context (Q : ProveTask → Prop) `{HQ : !TaskPred g Q}.

Abbreviation all_Q s := (Forall Q (stage_prove_tasks s)).

(** ** Generation *)

Lemma tasks_with_nos_Q lo hi w ts w' :
  tasks_with_nos g lo hi w = Ret (ts, w') → Forall Q ts.
Proof. intros (_&_&HF)%tasks_with_nos_run. eapply segment_tasks_Forall, HF. apply tp_segment. Qed.

Lemma gen_prove_task_Q s w s' w' :
  stage_generate_task s = g → gen_prove_task s w = Ret (s', w') → all_Q s → all_Q s'.
Proof.
  intros Hg H HP. unfold gen_prove_task in H. rewrite Hg in H.
  destruct (_ || _); [by apply M_mret_Ret in H as [<- _]|].
  apply M_bind_Ret in H as (s1&w1&H1&H2).
  assert (all_Q s1) as HP1.
  { destruct (stage_prove_tasks s) eqn:E0.
    - apply M_bind_Ret in H1 as (ts&w2&Hts%tasks_with_nos_Q&[<- _]%M_mret_Ret). done.
    - apply M_mret_Ret in H1 as [<- _]. by rewrite E0. }
  apply M_bind_Ret in H2 as ([n|]&w2&_&H2); [|by apply M_mret_Ret in H2 as [<- _]].
  apply M_bind_Ret in H2 as (ts&w3&Hts%tasks_with_nos_Q&[<- _]%M_mret_Ret).
  by apply Forall_app.
Qed.

Lemma gen_prove_task_post_Q feature s w s' w' :
  stage_generate_task s = g → gen_prove_task_post feature s w = Ret (s', w') →
  all_Q s → all_Q s'.
Proof.
  intros Hg H HP. unfold gen_prove_task_post in H. apply M_bind_Ret in H as (s1&w1&H1&H2).
  assert (all_Q s1) as HP1.
  { unfold complete_prove_tasks in H1. rewrite Hg in H1. destruct (_ <? _).
    - apply M_mret_Ret in H1 as [<- _]. by apply Forall_take.
    - apply M_bind_Ret in H1 as (ts&w2&Hts%tasks_with_nos_Q&[<- _]%M_mret_Ret).
      by apply Forall_app. }
  destruct feature; [by destruct (_ <? _); apply M_mret_Ret in H2 as [<- _]|].
  apply M_bind_Ret in H2 as (fs&w2&_&H2). apply M_bind_Ret in H2 as (files&w3&_&H2).
  apply M_bind_Ret in H2 as (ts&w4&Hts&[<- _]%M_mret_Ret). apply Forall_app. split; [done|].
  destruct (mapM_draw _ deferred_proof pt_task_id _ (deferred_task_run _) _ _ _ Hts) as (_&_&HF).
  clear -HF HQ. induction HF as [|f p fs ps Hp _ IH]; constructor; [|done].
  by eapply tp_deferred.
Qed.

Lemma dispatch_Q feature s w s' w' :
  stage_generate_task s = g → dispatch feature s w = Ret (s', w') → all_Q s → all_Q s'.
Proof.
  intros Hg H HP. unfold dispatch in H. destruct (stage_step s).
  - apply M_bind_Ret in H as (s1&w1&H1&[<- _]%M_mret_Ret). unfold gen_split_task in H1.
    apply M_bind_Ret in H1 as (u&w2&_&H1).
    by apply M_bind_Ret in H1 as (id&w3&_&[<- _]%M_mret_Ret).
  - by apply M_mret_Ret in H as [<- _].
  - unfold dispatch_prove in H. apply M_bind_Ret in H as (s1&w1&H1&H).
    pose proof (gen_prove_task_keeps _ _ _ _ H1) as [Eg _ _ _].
    assert (all_Q s1) as HP1 by by eapply gen_prove_task_Q.
    destruct (_ && _); [|by apply finish_prove_same in H as (_&_&_&->&_)].
    case_decide; [by apply M_mret_Ret in H as [<- _]|].
    apply M_bind_Ret in H as (s2&w2&(s3&w3&T&H3&_&->)%on_split_done_parts&H).
    apply finish_prove_same in H as (_&_&_&->&_).
    eapply (gen_prove_task_post_Q _ s1 w1 s3 w3); [congruence|done..].
  - apply M_bind_Ret in H as (u&w1&_&H).
    by apply M_bind_Ret in H as (s1&w2&(t&->&_)%gen_snark_task_frame&[<- _]%M_mret_Ret).
  - apply M_mret_Ret in H as [<- _]. by case_match.
  - by apply M_mret_Ret in H as [<- _].
Qed.

(** ** Handing out and answers *)

Lemma get_prove_task_Q fs now s : all_Q s → all_Q (get_prove_task fs now s).2.
Proof.
  intros HP. unfold get_prove_task. rewrite pick_prove_update. simpl.
  apply update_first_Forall; [|done]. intros p _ Hp [Hr _]%andb_true_iff.
  by apply tp_dispatched.
Qed.

Lemma spawn_tasks_Q now s w tasks s' w' :
  spawn_tasks now s w = Ret ((tasks, s'), w') → all_Q s → all_Q s'.
Proof.
  unfold spawn_tasks. destruct (stage_step s).
  1-2,4,6: by intros [[= <- <-] _]%M_mret_Ret.
  - destruct (get_split_task_later now s) as (_&EP&_).
    destruct (get_split_task now s) as [sp s1]. simpl in EP. intros H HP.
    rewrite <-EP in HP. apply M_bind_Ret in H as (w1&w1'&_&H).
    set (b := Z.of_nat _ <? _) in H.
    assert (all_Q (if b then get_prove_task (w_fs w1) now s1 else (None, s1)).2) as HP2.
    { destruct b; [by apply get_prove_task_Q|done]. }
    destruct (if b then _ else _) as [pr s2]. simpl in HP2.
    apply M_bind_Ret in H as ([ag s3]&w3&H3&[[= <- <-] _]%M_mret_Ret).
    destruct (_ && _); [|by apply M_mret_Ret in H3 as [[= <- <-] _]].
    apply lift_Ret in H3 as [H3 _]. by rewrite (get_agg_task_frame _ _ _ _ H3).
  - unfold get_snark_task. destruct (get_task _ _).
    by intros [[= <- <-] _]%M_mret_Ret.
Qed.

Lemma reply_prove_Q now r err P : Forall Q P → Forall Q (reply_prove now r err P).
Proof.
  intros HP. unfold reply_prove. destruct (find_first _ P) as [p|] eqn:Hf; [|done].
  apply find_first_Some in Hf as [Hp [_ Hst]%awaits_prove_true].
  apply update_first_Forall; [|done]. intros _ _ _ _. apply tp_reply; [|done].
  by eapply Forall_forall in HP.
Qed.

Lemma on_answer_Q now r s db w s' db' w' :
  on_answer now r s db w = Ret ((s', db'), w') → all_Q s → all_Q s'.
Proof.
  destruct r as [r|r|r|r]; simpl.
  - unfold on_split_task. destruct (on_task _ _ _ _) as [[src dst] err].
    by intros [[= <- _] _]%M_mret_Ret.
  - intros [[= <- _] _]%M_mret_Ret HP. rewrite (proj1 (on_prove_task_lists _ _ _)).
    by apply reply_prove_Q.
  - intros ([d s1]&w1&[Hf _]%on_agg_task_frame&[[= <- _] _]%M_mret_Ret)%M_bind_Ret HP.
    by rewrite Hf.
  - intros ([d s1]&w1&Hon&[[= <- _] _]%M_mret_Ret)%M_bind_Ret.
    unfold on_snark_task in Hon. apply M_bind_Ret in Hon as (u&w2&_&Hon).
    destruct (on_task _ _ _ _) as [[src dst] err]. by apply M_mret_Ret in Hon as [[= _ <-] _].
Qed.

Lemma take_event_Q now ev ws w ws' w' :
  take_event now ev ws w = Ret (Some ws', w') → all_Q (ws_stage ws) → all_Q (ws_stage ws').
Proof.
  destruct ev as [|i e]; simpl; [by intros [[= <-] _]%M_mret_Ret|].
  destruct (_ ≫= _) as [r|]; [|by intros [[=] _]%M_mret_Ret].
  intros ([s1 db1]&w1&Ho&[[= <-] _]%M_mret_Ret)%M_bind_Ret HP. by eapply on_answer_Q.
Qed.

(** ** Runs *)

Lemma loop_turn_Q feature id ti ws w t w' :
  stage_generate_task (ws_stage ws) = g →
  loop_turn feature id ti ws w = Ret (Some t, w') →
  stage_generate_task (ws_stage (turn_state t)) = g →
  all_Q (ws_stage ws) → all_Q (ws_stage (turn_state t)).
Proof.
  intros Hg. unfold loop_turn. intros (u&w1&_&H)%M_bind_Ret Hg' HP.
  apply M_bind_Ret in H as (ws1&w2&Htop&H). apply M_bind_Ret in H as (u'&w3&_&H).
  unfold loop_top in Htop.
  apply M_bind_Ret in Htop as ([tasks s1]&w4&Hsp&[<- _]%M_mret_Ret).
  pose proof (spawn_tasks_Q _ _ _ _ _ _ Hsp HP) as HP1.
  unfold loop_bottom in H. apply M_bind_Ret in H as ([ws2|]&w5&He&H);
    [|by apply M_mret_Ret in H as [[=] _]].
  pose proof (take_event_Q _ _ _ _ _ _ He HP1) as HP2.
  destruct (_ || _); [by apply M_mret_Ret in H as [[= <-] _]|].
  apply M_bind_Ret in H as (s5&w6&Hd&[[= <-] _]%M_mret_Ret). cbn [turn_state] in *.
  destruct (heartbeat_stage id (ti_now_bottom ti) (ws2 <| ws_stage := s5 |>)) as [E1 _].
  simpl in *. rewrite E1 in *. eapply dispatch_Q; [|done..].
  by rewrite (dispatch_request _ _ _ _ _ Hd) in Hg'.
Qed.

Lemma loop_reaches_tasks `{F : !UuidFresh} feature task allowed ws w :
  gt_from_step g = Init → loop_reaches feature task g allowed ws w → all_Q (ws_stage ws).
Proof.
  intros Hf. assert (gt_from_step g ≠ Snark ∧ gt_from_step g ≠ End) as [Hn1 Hn2]
    by (by rewrite Hf).
  induction 1 as [now now' db w ws w' Hst|ti ws w ws' w' Hr IH Hal Ht].
  - unfold loop_start in Hst. apply M_bind_Ret in Hst as (s&w1&Hd&[<- _]%M_mret_Ret). simpl.
    eapply dispatch_Q; [|exact Hd|]; done.
  - apply (loop_turn_Q _ _ _ _ _ _ _ ) in Ht; [done| | |done].
    + by destruct (loop_reaches_inv _ _ _ _ _ _ Hn1 Hn2 Hr) as [[] _].
    + assert (loop_reaches feature task g allowed ws' w') as Hr' by by eapply reach_turn.
      by destruct (loop_reaches_inv _ _ _ _ _ _ Hn1 Hn2 Hr') as [[] _].
Qed.

End task_pred.
