(* ===== verification/Retry.v ===== *)
(** * Retry: what happens to prove tasks that fail or get lost

    A failed prove task goes back to the queue until its fourth failure, which ends
    the run ([prove_retries]); a prove task whose answer carries the result code
    "unspecified" stays in processing for good, and the run never succeeds
    ([unspecified_answer_stalls]). *)

From S2P Require Import Prelude Text Proto World Tasks Stage AggGraph StageInv StageGen.
From S2P Require Import StageOps StageSteps Database ProverPool ProverClient Worker.
From S2P Require Import WorkerInv WorkerRun SegmentRun TaskPred.

(** ** The failure count *)

Definition count_ok (p : ProveTask) : Prop := 0 ≤ pt_failure_count p ≤ 3.

#[export] Instance count_ok_pred g : TaskPred g count_ok.
Proof.
  split.
  - done.
  - intros now r err p Hp _. unfold on_prove_task_macro, count_ok in *.
    repeat case_match; simplify_eq/=; try done; rewrite u32_wrap_small; lia.
  - intros no p []. unfold count_ok. lia.
  - intros f p []. unfold count_ok. lia.
Qed.

Section retry.
Context `{E : !External} `{J : !Json} `{C : !Client} `{F : !UuidFresh}.

Lemma macro_failed now r p err :
  pt_state r = TASK_STATE_FAILED → count_ok p →
  let '(src, p', err') := on_prove_task_macro now r p err in
  pt_task_id p' = pt_task_id p ∧ pt_state p' = TASK_STATE_FAILED ∧
  if pt_failure_count p <? 3
  then pt_failure_count p' = pt_failure_count p + 1 ∧ err' = err
  else pt_failure_count p' = 3 ∧ err' = true.
Proof.
  intros Hr Hc. unfold on_prove_task_macro, count_ok in *. rewrite Hr. cbn.
  destruct (Z.ltb_spec (pt_failure_count p) 3); rewrite Hr; cbn.
  - rewrite u32_wrap_small by lia. done.
  - split_and!; [done|done|lia|done].
Qed.

(** The reply meets the one stored task of that id. *)
Lemma find_awaited (P : list ProveTask) p id :
  NoDup (pt_ids P) → p ∈ P → pt_task_id p = id → pt_state p = TASK_STATE_PROCESSING →
  find_first (awaits_prove id) P = Some p.
Proof.
  intros Hnd Hp Hid Hst. destruct (find_first _ P) as [q|] eqn:Hf.
  - apply find_first_Some in Hf as [Hq [Hqid _]%awaits_prove_true].
    f_equal. eapply (NoDup_fmap_inj_elem pt_task_id P); [done..|congruence].
  - apply find_first_None in Hf. eapply Forall_forall in Hf; [|done].
    unfold awaits_prove in Hf. by rewrite Hid, String.eqb_refl, Hst in Hf.
Qed.

Lemma elem_update_first {A} test (f : A → A) l x y :
  find_first test l = Some x → y = f x → y ∈ update_first test f l.
Proof.
  intros Hf ->. destruct (find_first_split test f l x Hf) as (l1&l2&_&->). set_solver.
Qed.

(** The state after the top of a turn. *)
Lemma loop_top_inv g now ws w ws1 w1 :
  run_inv g (ws_stage ws) (ws_inflight ws) w → loop_top now ws w = Ret (ws1, w1) →
  run_inv g (ws_stage ws1) (ws_inflight ws1) w1 ∧ w1 = w ∧
  ws_inflight ws `prefix_of` ws_inflight ws1.
Proof.
  intros Hr Htop. unfold loop_top in Htop.
  apply M_bind_Ret in Htop as ([tasks s1]&w3&Hsp&[<- <-]%M_mret_Ret).
  apply (spawn_tasks_inv _ g) in Hsp as [-> Hk]. destruct (Hk _ Hr) as [Hr1 _].
  split_and!; [done|done|by eexists].
Qed.

Lemma loop_top_Q g Q `{!TaskPred g Q} now ws w ws1 w1 :
  loop_top now ws w = Ret (ws1, w1) → Forall Q (stage_prove_tasks (ws_stage ws)) →
  Forall Q (stage_prove_tasks (ws_stage ws1)).
Proof.
  intros Htop HP. unfold loop_top in Htop.
  apply M_bind_Ret in Htop as ([tasks s1]&w3&Hsp&[<- <-]%M_mret_Ret).
  by eapply (spawn_tasks_Q g).
Qed.

(** [C38] A prove task is retried three times: in every reachable state of a
    run, when a call for a stored prove task answers that it failed, the task is ready
    again; its failure count, which never exceeds 3, goes up by one and the run goes
    on as before, unless it already was 3: then the turn ends the run with an error. *)
Theorem prove_retries feature task g allowed ws w now ws1 w1 now' i t e p :
  gt_from_step g = Init → loop_reaches feature task g allowed ws w →
  loop_top now ws w = Ret (ws1, w1) →
  ws_inflight ws1 !! i = Some (TProve t) →
  pt_state (client_prove t e) = TASK_STATE_FAILED →
  p ∈ stage_prove_tasks (ws_stage ws1) → pt_task_id p = pt_task_id t →
  ∃ ws' p', take_event now' (Answers i (EProve e)) ws1 w1 = Ret (Some ws', w1) ∧
    p' ∈ stage_prove_tasks (ws_stage ws') ∧ pt_task_id p' = pt_task_id p ∧
    is_ready_state (pt_state p') = true ∧ 0 ≤ pt_failure_count p ≤ 3 ∧
    (pt_failure_count p < 3 → pt_failure_count p' = pt_failure_count p + 1 ∧
       is_error (ws_stage ws') = is_error (ws_stage ws1)) ∧
    (pt_failure_count p = 3 →
       loop_bottom feature (stg_id task) now' (Answers i (EProve e)) ws1 w1 =
         Ret (Some (Break ws'), w1) ∧ is_error (ws_stage ws') = true).
Proof.
  intros Hf Hr Htop Hi He Hp Hid.
  pose proof (loop_reaches_tasks g count_ok _ _ _ _ _ Hf Hr) as HQ.
  apply (loop_top_Q g _ _ _ _ _ _ Htop) in HQ.
  destruct (loop_reaches_inv feature task g allowed ws w) as [Hinv _]; [by rewrite Hf..|done|].
  destruct (loop_top_inv _ _ _ _ _ _ Hinv Htop) as ([_ Hs [_ Hio _ _] _ _ _]&_&_).
  assert (count_ok p) as Hc by by eapply Forall_forall in HQ.
  assert (pt_state p = TASK_STATE_PROCESSING) as Hst.
  { apply (Hio (pt_task_id t)); [|done..]. apply list_elem_of_omap. eexists.
    by split; [eapply list_elem_of_lookup_2|]. }
  pose proof (find_awaited _ _ (pt_task_id t) (gi_pt _ _ (si_graph _ _ Hs)) Hp Hid Hst)
    as Hfind.
  pose proof (macro_failed now' (client_prove t e) p (stage_is_error (ws_stage ws1)) He Hc) as Hm.
  assert (∃ ws' p', take_event now' (Answers i (EProve e)) ws1 w1 = Ret (Some ws', w1) ∧
    p' ∈ stage_prove_tasks (ws_stage ws') ∧
    on_prove_task_macro now' (client_prove t e) p (stage_is_error (ws_stage ws1)) =
      ((on_prove_task now' (client_prove t e) (ws_stage ws1)).1, p',
       stage_is_error (ws_stage ws'))) as (ws'&p'&Hev&Hp'&Hmac).
  { unfold take_event. rewrite Hi. simpl.
    eexists _, (on_prove_task_macro now' (client_prove t e) p
      (stage_is_error (ws_stage ws1))).1.2. split; [done|]. simpl.
    unfold on_prove_task. rewrite client_prove_id, Hfind. clear Hm.
    destruct (on_prove_task_macro now' _ p _) as [[src p'] err'].
    cbn [fst snd]. destruct (pt_state src =? TASK_STATE_SUCCESS); simpl; (split; [by eapply elem_update_first|done]). }
  rewrite Hmac in Hm. destruct Hm as (Hid'&Hst'&Hcount).
  exists ws', p'. split_and!; [done..|by rewrite Hst'|apply Hc|apply Hc| |].
  - intros Hlt. by rewrite (proj2 (Z.ltb_lt _ _) Hlt) in Hcount.
  - intros H3. rewrite H3 in Hcount. destruct Hcount as [_ Herr].
    split; [|done]. unfold loop_bottom.
    rewrite (M_bind_run _ _ _ _ _ Hev). unfold is_error. by rewrite Herr, orb_true_r.
Qed.

(** ** Lost tasks *)

(** The task [id] is being processed, but no call for it is out, and the tasks are
    complete. *)
Record lost (id : string) (s : Stage) (l : list Task) : Prop := {
  lo_step : stage_step s = Prove;
  lo_done : stage_is_tasks_gen_done s = true;
  lo_task : ∃ p, p ∈ stage_prove_tasks s ∧ pt_task_id p = id ∧
    pt_state p = TASK_STATE_PROCESSING;
  lo_out : id ∉ prove_ids l
}.

Lemma elem_update_first_other {A} test (f : A → A) l x :
  x ∈ l → test x = false → x ∈ update_first test f l.
Proof.
  intros Hx Ht. destruct (update_first_split test f l) as [[-> _]|(l1&y&l2&->&Hy&_&->)]; [done|].
  apply elem_of_app in Hx as [|[->|]%elem_of_cons]; [set_solver|congruence|set_solver].
Qed.

(** Handing out: a task in processing is not picked, and ids differ. *)
Lemma get_prove_task_lost g fs now id s l w :
  run_inv g s l w → lost id s l →
  lost id (get_prove_task fs now s).2
    (l ++ option_list (TProve <$> (get_prove_task fs now s).1)).
Proof.
  intros Hr [Hst Hg (p&Hp&Hid&Hpr) Hout]. unfold get_prove_task. rewrite pick_prove_update.
  set (test := λ p, is_ready_state (pt_state p) && fs_exists fs (pt_segment p)).
  assert (test p = false) as Ht by (unfold test; by rewrite Hpr).
  split; simpl; [done|done| |].
  - exists p. split_and!; [by apply elem_update_first_other|done..].
  - rewrite omap_app. intros [?|Hin]%elem_of_app; [done|].
    destruct (find_first test (stage_prove_tasks s)) as [q|] eqn:Hf; simpl in Hin;
      [|by apply elem_of_nil in Hin].
    apply list_elem_of_singleton in Hin.
    apply find_first_Some in Hf as [Hq Htq].
    assert (p = q) as ->; [|congruence].
    eapply (NoDup_fmap_inj_elem pt_task_id); [apply (si_graph _ _ (ri_stage _ _ _ _ Hr))|done..|].
    congruence.
Qed.

(** An operation that leaves the prove tasks and hands out no prove task. *)
Lemma lost_same id s s' l l' :
  lost id s l → stage_step s' = stage_step s →
  stage_is_tasks_gen_done s' = stage_is_tasks_gen_done s →
  stage_prove_tasks s' = stage_prove_tasks s →
  (∀ i, i ∈ prove_ids l' → i ∈ prove_ids l) → lost id s' l'.
Proof. intros [] E1 E2 E3 Hl. split; rewrite ?E1, ?E2, ?E3; auto. Qed.

Lemma spawn_tasks_lost g now id s l w tasks s' w' :
  run_inv g s l w → lost id s l → spawn_tasks now s w = Ret ((tasks, s'), w') →
  lost id s' (l ++ tasks).
Proof.
  intros Hr Hl. unfold spawn_tasks. rewrite (lo_step _ _ _ Hl).
  destruct (get_split_task_later now s) as (HL&EP&_).
  pose proof (spawn_split now g w s) as K1.
  assert (lost id (get_split_task now s).2
    (l ++ option_list (TSplit <$> (get_split_task now s).1))) as Hl1.
  { eapply lost_same; [done|apply HL| |done|].
    - unfold get_split_task. by destruct (get_task _ _).
    - intros i. rewrite omap_app. destruct (get_split_task now s) as [[]]; simpl;
        by rewrite app_nil_r. }
  destruct (K1 l Hr) as [Hr1 _]. clear K1 HL EP.
  destruct (get_split_task now s) as [sp s1]. cbn [fst snd] in *.
  intros (w1&w1'&[= <- <-]&H)%M_bind_Ret. set (b := Z.of_nat _ <? _) in H.
  assert (lost id (if b then get_prove_task (w_fs w) now s1 else (None, s1)).2
    ((l ++ option_list (TSplit <$> sp)) ++ option_list
       (TProve <$> (if b then get_prove_task (w_fs w) now s1 else (None, s1)).1))) as Hl2.
  { destruct b; [by eapply get_prove_task_lost|by rewrite app_nil_r]. }
  destruct (if b then _ else _) as [pr s2]. cbn [fst snd] in *.
  apply M_bind_Ret in H as ([ag s3]&w3&H3&[[= <- <-] _]%M_mret_Ret).
  rewrite !app_assoc. eapply lost_same; [exact Hl2|..].
  1-3: destruct (_ && _); [apply lift_Ret in H3 as [H3 _];
    by rewrite (get_agg_task_frame _ _ _ _ H3)|by apply M_mret_Ret in H3 as [[= <- <-] _]].
  intros i. rewrite omap_app. destruct ag; simpl; by rewrite app_nil_r.
Qed.

Lemma on_answer_lost now id s l i t e r db w s' db' w' :
  lost id s l → l !! i = Some t → answer t e = Some r →
  on_answer now r s db w = Ret ((s', db'), w') → lost id s' (delete i l).
Proof.
  intros Hl Hi Ha.
  assert (∀ j, j ∈ prove_ids (delete i l) → j ∈ prove_ids l) as Hsub.
  { intros j (u&Hu&Hj)%list_elem_of_omap. apply list_elem_of_omap. exists u. split; [|done].
    by eapply sublist_subseteq, Hu; apply sublist_delete. }
  destruct t as [t|t|t|t], e as [e|e|e|e]; simplify_eq/=.
  - unfold on_split_task. destruct (on_task _ _ _ _) as [[src dst] err].
    intros [[= <- _] _]%M_mret_Ret. by eapply lost_same.
  - intros [[= <- _] _]%M_mret_Ret.
    destruct (on_prove_task_frame now (client_prove t e) s) as [Hf _].
    destruct Hl as [Hst Hg (p&Hp&Hid&Hpr) Hout].
    split; [by rewrite Hf|by rewrite Hf| |auto].
    exists p. split_and!; [|done..]. rewrite (proj1 (on_prove_task_lists _ _ _)).
    unfold reply_prove. rewrite client_prove_id.
    destruct (find_first _ _) as [q|]; [|done]. apply elem_update_first_other; [done|].
    unfold awaits_prove. apply andb_false_iff. left. apply String.eqb_neq. intros Hid'.
    apply Hout. rewrite <-Hid, Hid'. apply list_elem_of_omap. eexists.
    by split; [eapply list_elem_of_lookup_2|].
  - intros ([d s1]&w1&[Hf _]%on_agg_task_frame&[[= <- _] _]%M_mret_Ret)%M_bind_Ret.
    eapply lost_same; [done|by rewrite Hf..|done].
  - intros ([d s1]&w1&Hon&[[= <- _] _]%M_mret_Ret)%M_bind_Ret.
    unfold on_snark_task in Hon. apply M_bind_Ret in Hon as (u&w2&_&Hon).
    destruct (on_task _ _ _ _) as [[src dst] err]. apply M_mret_Ret in Hon as [[= _ <-] _].
    by eapply lost_same.
Qed.

Lemma dispatch_lost feature id s l w s' w' :
  lost id s l → dispatch feature s w = Ret (s', w') → s' = s.
Proof.
  intros [Hst Hg (p&Hp&_&Hpr) _]. unfold dispatch, dispatch_prove, gen_prove_task.
  rewrite Hst, Hg, orb_true_r. intros (s1&w1&[<- <-]%M_mret_Ret&H)%M_bind_Ret.
  rewrite Hg, andb_false_r in H. unfold finish_prove in H.
  assert (all_prove_success s = false) as Hall.
  { apply not_true_is_false. intros HF%all_prove_success_true.
    eapply Forall_forall in HF; [|done]. by rewrite Hpr in HF. }
  rewrite Hall, andb_false_r in H. by apply M_mret_Ret in H as [<- _].
Qed.

Definition ws_lost id ws := lost id (ws_stage ws) (ws_inflight ws).

(** The event of a turn and what follows it. *)
Lemma loop_bottom_lost feature sid now ev id ws w t w' ws1 w1 :
  take_event now ev ws w = Ret (Some ws1, w1) → ws_lost id ws1 →
  loop_bottom feature sid now ev ws w = Ret (Some t, w') → ws_lost id (turn_state t).
Proof.
  unfold loop_bottom, ws_lost. intros Hev Hl. rewrite (M_bind_run _ _ _ _ _ Hev).
  destruct (_ || _); [by intros [[= <-] _]%M_mret_Ret|].
  intros (s5&w5&Hd&[[= <-] _]%M_mret_Ret)%M_bind_Ret. cbn [turn_state].
  apply (dispatch_lost _ id _ (ws_inflight ws1)) in Hd as ->; [|done].
  destruct (heartbeat_stage sid now (ws1 <| ws_stage := ws_stage ws1 |>)) as [E1 E2].
  simpl in *. by rewrite E1, E2.
Qed.

Lemma loop_turn_lost feature sid ti g id ws w t w' :
  run_inv g (ws_stage ws) (ws_inflight ws) w → ws_lost id ws →
  loop_turn feature sid ti ws w = Ret (Some t, w') → ws_lost id (turn_state t).
Proof.
  intros Hr Hl. unfold loop_turn, put_fs. intros (u&w1&[= <- <-]&H)%M_bind_Ret.
  apply M_bind_Ret in H as (ws1&w2&Htop&H). apply M_bind_Ret in H as (u&w3&[= <- <-]&H).
  apply (run_inv_world _ _ _ _ (w <| w_fs := ti_fs_top ti |>)) in Hr; [|done].
  unfold loop_top in Htop.
  apply M_bind_Ret in Htop as ([tasks s1]&w3&Hsp&[<- <-]%M_mret_Ret).
  pose proof (spawn_tasks_lost _ _ _ _ _ _ _ _ _ Hr Hl Hsp) as Hl1.
  pose proof H as H'. unfold loop_bottom in H'.
  apply M_bind_Ret in H' as ([ws2|]&w4&He&H'); [|by apply M_mret_Ret in H' as [[=] _]].
  eapply loop_bottom_lost; [exact He| |exact H].
  destruct (ti_event ti) as [|i e]; simpl in He; [by apply M_mret_Ret in He as [[= <-] _]|].
  destruct ((ws_inflight ws ++ tasks) !! i) as [u|] eqn:Hi; simpl in He;
    [|by apply M_mret_Ret in He as [[=] _]].
  destruct (answer u e) as [r|] eqn:Ha; [|by apply M_mret_Ret in He as [[=] _]].
  apply M_bind_Ret in He as ([s5 db5]&w5&Ho&[[= <-] _]%M_mret_Ret).
  by eapply on_answer_lost.
Qed.

Lemma run_loop_lost feature sid g id tis ws w t w' :
  run_inv g (ws_stage ws) (ws_inflight ws) w → ws_lost id ws →
  run_loop feature sid tis ws w = Ret (Some t, w') →
  run_inv g (ws_stage (turn_state t)) (ws_inflight (turn_state t)) w' ∧
  ws_lost id (turn_state t) ∧
  match t with
  | Break ws' => is_success (ws_stage ws') || is_error (ws_stage ws') = true
  | Continue _ => True
  end.
Proof.
  revert ws w. induction tis as [|ti tis IH]; intros ws w Hr Hl; simpl.
  - by intros [[= <-] <-]%M_mret_Ret.
  - intros ([t1|]&w1&Ht&H)%M_bind_Ret; [|by apply M_mret_Ret in H as [[=] _]].
    pose proof (loop_turn_lost _ _ _ _ _ _ _ _ _ Hr Hl Ht) as Hl1.
    destruct (loop_turn_inv _ _ _ _ _ _ _ _ Hr Ht) as (Hr1&_&Hb).
    destruct t1 as [ws1|ws1]; [by eapply IH|]. by apply M_mret_Ret in H as [[= <-] <-].
Qed.

(** The answer that loses its task. *)
Lemma lost_after now g s l w i t e p :
  run_inv g s l w → l !! i = Some (TProve t) →
  pt_state (client_prove t e) = TASK_STATE_PROCESSING →
  p ∈ stage_prove_tasks s → pt_task_id p = pt_task_id t →
  stage_step s = Prove → stage_is_tasks_gen_done s = true →
  lost (pt_task_id t) (on_prove_task now (client_prove t e) s).2 (delete i l).
Proof.
  intros Hr Hi He Hp Hid Hst Hg. destruct (ri_inflight _ _ _ _ Hr) as [Hnd Hio _ _].
  assert (pt_task_id t ∈ prove_ids l) as Hin.
  { apply list_elem_of_omap. eexists. by split; [eapply list_elem_of_lookup_2|]. }
  destruct (Hio _ Hin) as (_&_&Hpr).
  destruct (on_prove_task_frame now (client_prove t e) s) as [Hf _].
  split; [by rewrite Hf|by rewrite Hf| |].
  - exists p. split_and!; [|done|by apply Hpr].
    rewrite (proj1 (on_prove_task_lists _ _ _)). unfold reply_prove.
    rewrite client_prove_id.
    rewrite (find_awaited _ p (pt_task_id t)); [|apply (si_graph _ _ (ri_stage _ _ _ _ Hr))|
      done|done|by apply Hpr].
    assert ((on_prove_task_macro now (client_prove t e) p (stage_is_error s)).1.2 = p) as ->.
    { unfold on_prove_task_macro. by rewrite He. }
    eapply elem_update_first; [|done]. apply find_awaited; [|done|done|by apply Hpr].
    apply (si_graph _ _ (ri_stage _ _ _ _ Hr)).
  - apply delete_split in Hi as (l1&l2&->&->). rewrite omap_app in *. simpl in Hnd.
    intros Hin'. apply NoDup_app in Hnd as (_&Hn1&[Hn2 _]%NoDup_cons).
    apply elem_of_app in Hin' as [Hin'|Hin']; [|done]. apply (Hn1 _ Hin'). by left.
Qed.

(** One answer with the result code "unspecified" and the proof never
    succeeds: in every reachable proving state with the tasks generated, when a call
    for a stored prove task answers with the state PROCESSING (which is what the
    client makes of that code), then however the run goes on, it does not end without
    an error; if it never fails it stays in the proving step. *)
Theorem unspecified_answer_stalls feature task g allowed ws w ti ws1 w1 i t e p tis t' w' :
  gt_from_step g = Init → loop_reaches feature task g allowed ws w →
  loop_top (ti_now_top ti) ws (w <| w_fs := ti_fs_top ti |>) = Ret (ws1, w1) →
  stage_step (ws_stage ws1) = Prove → stage_is_tasks_gen_done (ws_stage ws1) = true →
  ti_event ti = Answers i (EProve e) →
  ws_inflight ws1 !! i = Some (TProve t) →
  pt_state (client_prove t e) = TASK_STATE_PROCESSING →
  p ∈ stage_prove_tasks (ws_stage ws1) → pt_task_id p = pt_task_id t →
  run_loop feature (stg_id task) (ti :: tis) ws w = Ret (Some t', w') →
  match t' with
  | Break ws' => is_error (ws_stage ws') = true
  | Continue ws' => stage_step (ws_stage ws') = Prove
  end.
Proof.
  intros Hf Hr Htop Hst Hg Hev Hi He Hp Hid.
  destruct (loop_reaches_inv feature task g allowed ws w) as [Hinv _]; [by rewrite Hf..|done|].
  simpl. intros ([t1|]&w2&Ht&H)%M_bind_Ret; [|by apply M_mret_Ret in H as [[=] _]].
  pose proof Ht as Ht'. unfold loop_turn in Ht'. apply M_bind_Ret in Ht' as (u&w3&Hput&Ht').
  unfold put_fs in Hput. injection Hput as <- <-.
  rewrite (M_bind_run _ _ _ _ _ Htop) in Ht'.
  apply M_bind_Ret in Ht' as (u&w3&Hput&Ht'). unfold put_fs in Hput. injection Hput as <- <-.
  apply (run_inv_world _ _ _ _ (w <| w_fs := ti_fs_top ti |>)) in Hinv as Hinv0; [|done].
  destruct (loop_top_inv _ _ _ _ _ _ Hinv0 Htop) as (Hinv1&_&_).
  assert (ws_lost (pt_task_id t) (turn_state t1)) as Hl1.
  { rewrite Hev in Ht'. eapply (loop_bottom_lost _ _ _ _ _ ws1); [| |exact Ht'].
    - unfold take_event. rewrite Hi. reflexivity.
    - by eapply lost_after. }
  destruct (loop_turn_inv _ _ _ _ _ _ _ _ Hinv Ht) as (Hinv2&_&Hb).
  assert (run_inv g (ws_stage (turn_state t')) (ws_inflight (turn_state t')) w' ∧
    ws_lost (pt_task_id t) (turn_state t') ∧
    match t' with
    | Break ws' => is_success (ws_stage ws') || is_error (ws_stage ws') = true
    | Continue _ => True
    end) as (Hinv'&Hl'&Hb').
  { destruct t1; [by eapply run_loop_lost|]. by apply M_mret_Ret in H as [[= <-] <-]. }
  destruct t' as [ws'|ws']; [apply Hl'|]. simpl in *.
  apply orb_true_iff in Hb' as [Hs|]; [|done]. exfalso.
  assert (¬ final_step (ws_stage ws')) as Hnf.
  { destruct Hl' as [Hst' _ _ _]. intros []; congruence. }
  apply orb_true_iff in Hs as [Hs%bool_decide_eq_true|Hs%Z.eqb_eq]; [by apply Hnf; right|].
  apply Hnf, (ri_snark _ _ _ _ Hinv'). by rewrite Hs.
Qed.

End retry.
