(* ===== verification/Receipts.v ===== *)
(** * Receipts: what the receipts of a run stand for

    The provers are outside the repository.  A predicate [attests] says which prove
    tasks a receipt stands for, left to right; [honest] is what a correct prover
    answers: a segment's receipt stands for that segment, an aggregation's receipt for
    the receipts it was sent, in order.  [receipts_ok] is the invariant that carries
    this through the graph: every stored receipt stands for the prove tasks below its
    task. *)

From S2P Require Import Prelude Text Proto World Tasks Stage AggGraph StageInv StageGen.
From S2P Require Import StageOps AggCover StageSteps Database ProverPool ProverClient.
From S2P Require Import Worker WorkerInv WorkerRun.

Section receipts.
Context `{E : !External}.
Context (attests : bytes → list string → Prop).

(** The answer [r] of a correct prover to the task [t]. *)
Definition honest (t r : Task) : Prop :=
  match t, r with
  | TProve p, TProve r =>
      pt_state r = TASK_STATE_SUCCESS → attests (pt_output r) [pt_task_id p]
  | TAgg t, TAgg r =>
      at_state r = TASK_STATE_SUCCESS →
      ∀ lss, Forall2 (λ i ls, attests (ai_receipt_input i) ls) (at_inputs t) lss →
        attests (at_output r) (concat lss)
  | _, _ => True
  end.

(** The files of deferred proofs hold receipts of theirs. *)
Definition deferred_valid (P : list ProveTask) : Prop :=
  ∀ p, p ∈ P → pt_is_deferred p = true → attests (pt_output p) [pt_task_id p].

(** ** The invariant of the lists *)

(** A task out for aggregation: its stored task, and inputs that are supplied. *)
Definition out_ok (P : list ProveTask) (T : list AggTask) (t : AggTask) : Prop :=
  ∃ t0, t0 ∈ T ∧ at_task_id t0 = at_task_id t ∧ at_from_prove t0 = false ∧
    Forall2 same_input (at_inputs t0) (at_inputs t) ∧ Forall (supplied P T) (at_inputs t).

Record receipts_ok (P : list ProveTask) (T : list AggTask) (l : list Task) : Prop := {
  rc_prove : ∀ p, p ∈ P → pt_state p = TASK_STATE_SUCCESS →
    attests (pt_output p) [pt_task_id p];
  rc_agg : ∀ t fuel ls, t ∈ T → at_state t = TASK_STATE_SUCCESS →
    at_from_prove t = false → leaves_below fuel T (to_agg_input t) = Some ls →
    attests (at_output t) ls;
  rc_odd : ∀ t, t ∈ T → at_from_prove t = true → at_task_id t ∈ pt_ids P;
  rc_out : ∀ t, TAgg t ∈ l → out_ok P T t
}.

(** A stored task after an operation: what is finished stays as it is. *)
Record pt_kept (p p' : ProveTask) : Prop := {
  pk_id : pt_task_id p' = pt_task_id p;
  pk_deferred : pt_is_deferred p' = pt_is_deferred p;
  pk_done : pt_state p = TASK_STATE_SUCCESS → p' = p
}.
Record at_kept (t t' : AggTask) : Prop := {
  ak_node : same_node t t';
  ak_from_prove : at_from_prove t' = at_from_prove t;
  ak_final : at_is_final t' = at_is_final t;
  ak_done : at_state t = TASK_STATE_SUCCESS →
    at_state t' = TASK_STATE_SUCCESS ∧ at_output t' = at_output t
}.

Lemma pt_kept_refl p : pt_kept p p.
Proof. by split. Qed.
Lemma at_kept_refl t : at_kept t t.
Proof. by split. Qed.
Lemma at_kept_trans t1 t2 t3 : at_kept t1 t2 → at_kept t2 t3 → at_kept t1 t3.
Proof.
  intros [[] ? ? Hd1] [[] ? ? Hd2]. split; [split|..]; try congruence.
  intros [Hs Ho]%Hd1. destruct (Hd2 Hs). split; congruence.
Qed.
#[local] Hint Resolve pt_kept_refl at_kept_refl : core.

Lemma kept_ids P P' : Forall2 pt_kept P P' → pt_ids P' = pt_ids P.
Proof. induction 1 as [|p p' P P' [] _ IH]; csimpl; [done|]. congruence. Qed.

Lemma kept_same T T' : Forall2 at_kept T T' → Forall2 same_node T T'.
Proof. intros H. eapply Forall2_impl; [done|]. by intros ?? []. Qed.

Lemma supplied_kept P P' T T' i :
  Forall2 pt_kept P P' → Forall2 at_kept T T' → supplied P T i → supplied P' T' i.
Proof.
  intros HP HT. unfold supplied. destruct (ai_is_agg i).
  - intros (u&Hu&Hid&Hs&Ho). destruct (Forall2_elem_l _ _ _ _ HT Hu) as (u'&Hu'&[[Ei _] _ _ Hd]).
    destruct (Hd Hs). exists u'. split_and!; congruence.
  - intros (p&Hp&Hid&Hs&Ho). destruct (Forall2_elem_l _ _ _ _ HP Hp) as (p'&Hp'&[_ _ Hd]).
    rewrite (Hd Hs) in Hp'. by exists p.
Qed.

Lemma out_kept P P' T T' t :
  Forall2 pt_kept P P' → Forall2 at_kept T T' → out_ok P T t → out_ok P' T' t.
Proof.
  intros HP HT (t0&Ht0&Hid&Hf&Hi&Hs).
  destruct (Forall2_elem_l _ _ _ _ HT Ht0) as (t'&Ht'&[[Ei En] Ef _ _]).
  exists t'. rewrite Ei, Ef, En. split_and!; try done.
  eapply Forall_impl; [done|]. intros i. by apply supplied_kept.
Qed.

(** Every operation on generated tasks is a step of this form: it keeps what is
    finished, and what it finishes is attested. *)
Definition pt_step (p p' : ProveTask) : Prop :=
  pt_kept p p' ∧ (pt_state p' = TASK_STATE_SUCCESS →
    pt_state p = TASK_STATE_SUCCESS ∨ attests (pt_output p') [pt_task_id p']).
Definition at_gain (T : list AggTask) (t t' : AggTask) : Prop :=
  at_kept t t' ∧ (at_state t' = TASK_STATE_SUCCESS → at_from_prove t = false →
    at_state t = TASK_STATE_SUCCESS ∨
    ∀ fuel ls, leaves_below fuel T (to_agg_input t) = Some ls → attests (at_output t') ls).

Lemma pt_step_refl p : pt_step p p.
Proof. split; auto. Qed.
Lemma at_gain_refl T t : at_gain T t t.
Proof. split; auto. Qed.
#[local] Hint Resolve pt_step_refl at_gain_refl : core.

Lemma pt_step_kept P P' : Forall2 pt_step P P' → Forall2 pt_kept P P'.
Proof. intros H. eapply Forall2_impl; [done|]. by intros ?? []. Qed.
Lemma at_gain_kept T T' : Forall2 (at_gain T) T T' → Forall2 at_kept T T'.
Proof. intros H. eapply Forall2_impl; [done|]. by intros ?? []. Qed.

Lemma receipts_step P P' T T' l l' :
  receipts_ok P T l → Forall2 pt_step P P' → Forall2 (at_gain T) T T' →
  (∀ t, TAgg t ∈ l' → TAgg t ∈ l ∨ out_ok P' T' t) →
  receipts_ok P' T' l'.
Proof.
  intros [Hp Ha Hodd Ho] HP HT Ho'.
  pose proof (pt_step_kept _ _ HP) as HPk. pose proof (at_gain_kept _ _ HT) as HTk. split.
  - intros p' Hin Hs. destruct (Forall2_elem_r _ _ _ _ HP Hin) as (p&Hin0&[[_ _ Hk] Hg]).
    destruct (Hg Hs) as [Hs0|]; [|done]. rewrite (Hk Hs0). auto.
  - intros t' fuel ls Ht' Hs. rewrite (leaves_below_same _ _ _ _ (kept_same _ _ HTk)).
    destruct (Forall2_elem_r _ _ _ _ HT Ht') as (t&Ht&[[[Ei En] Ef _ Hd] Hg]).
    rewrite Ef. intros Hf.
    assert (to_agg_input t' = to_agg_input t) as -> by (unfold to_agg_input; congruence).
    intros Hl. destruct (Hg Hs Hf) as [Hs0|Hn]; [|by eapply Hn].
    destruct (Hd Hs0) as [_ ->]. by eapply Ha.
  - intros t' Ht' Hf. rewrite (kept_ids _ _ HPk).
    destruct (Forall2_elem_r _ _ _ _ HTk Ht') as (t&Ht&[[-> _] Ef _ _]). apply Hodd; congruence.
  - intros t [Ht|]%Ho'; [|done]. eapply out_kept; eauto.
Qed.

(** ** The operations *)

Lemma picked_prove test now P :
  (∀ p, test p = true → is_ready_state (pt_state p) = true) →
  Forall2 pt_step P (update_first test (dispatched_prove now) P).
Proof.
  intros Htest. apply update_first_Forall2; [done|].
  intros p _ Hp%Htest%is_ready_not_success. split; [by split|done].
Qed.

Lemma picked_agg test now T :
  (∀ t, test t = true → is_ready_state (at_state t) = true) →
  Forall2 (at_gain T) T (update_first test (dispatched_agg now) T).
Proof.
  intros Htest. apply update_first_Forall2; [done|].
  intros t _ Ht%Htest%is_ready_not_success. split; [by split|done].
Qed.

Lemma on_prove_task_macro_kept now r p err :
  let p' := (on_prove_task_macro now r p err).1.2 in
  pt_task_id p' = pt_task_id p ∧ pt_is_deferred p' = pt_is_deferred p ∧
  (pt_state p' = TASK_STATE_SUCCESS → pt_state p = TASK_STATE_SUCCESS ∨
     pt_state r = TASK_STATE_SUCCESS ∧ pt_output p' = pt_output r).
Proof.
  unfold on_prove_task_macro. repeat case_match; simplify_eq/=; (split_and!; [done..|]); auto.
  all: intros Hr; rewrite Hr in *; try discriminate; auto.
Qed.

Lemma on_task_agg_kept now (r t : AggTask) err :
  let t' := (on_task now r t err).1.2 in
  same_node t t' ∧ at_from_prove t' = at_from_prove t ∧ at_is_final t' = at_is_final t ∧
  (at_state t' = TASK_STATE_SUCCESS → at_state t = TASK_STATE_SUCCESS ∨
     at_state r = TASK_STATE_SUCCESS ∧ at_output t' = at_output r).
Proof.
  unfold on_task. repeat case_match; simplify_eq/=; (split_and!; [done..|]); auto.
  all: intros Hr; rewrite Hr in *; try discriminate; auto.
Qed.

(** ** Answers *)

Lemma replied_prove now r err P :
  (pt_state r = TASK_STATE_SUCCESS → attests (pt_output r) [pt_task_id r]) →
  Forall2 pt_step P (reply_prove now r err P).
Proof.
  intros Hr. unfold reply_prove. destruct (find_first _ _) as [p|] eqn:Hf;
    [|by apply Forall2_refl_l].
  eapply update_first_later; [done..|].
  apply find_first_Some in Hf as [_ [Hid Hst]%awaits_prove_true].
  destruct (on_prove_task_macro_kept now r p err) as (Ei&Ed&Hs). cbv zeta in *.
  split; [split; [done|done|by rewrite Hst]|].
  intros [|[Hsr ->]]%Hs; [by left|right]. rewrite Ei, Hid. auto.
Qed.

Lemma leaves_below_input fuel T i i' :
  same_input i i' → leaves_below fuel T i' = leaves_below fuel T i.
Proof. intros [Hi Ha]. destruct fuel; simpl; by rewrite Ha, Hi. Qed.

(** The receipt sent for an input stands for the prove tasks below it. *)
Lemma input_attested P T l k t0 i i' fuel ls :
  receipts_ok P T l → graph_inv P T → T !! k = Some t0 → i ∈ at_inputs t0 →
  same_input i i' → supplied P T i' → leaves_below fuel T i = Some ls →
  attests (ai_receipt_input i') ls.
Proof.
  intros Hr HG Hk Hi Hsame Hs. rewrite <-(leaves_below_input _ _ _ _ Hsame).
  pose proof (gi_inputs _ _ HG k t0 i Hk Hi) as Hin. destruct Hsame as [Ei Ea].
  unfold supplied in Hs. rewrite <-Ea in Hin. destruct (ai_is_agg i') eqn:Ha.
  - destruct Hs as (u&Hu&Hid&Hst&->). destruct Hin as [_ Hn].
    assert (at_from_prove u = false) as Hf.
    { apply not_true_is_false. intros Hf%(rc_odd _ _ _ Hr); [|done]. congruence. }
    rewrite (leaves_below_input fuel T (to_agg_input u) i').
    + by apply (rc_agg _ _ _ Hr).
    + split; simpl; [done|by rewrite Ha, Hf].
  - destruct Hs as (p&Hp&Hid&Hst&->). rewrite leaves_below_leaf by done.
    intros [= <-]. rewrite <-Hid. by apply (rc_prove _ _ _ Hr).
Qed.

(** The inputs a task was sent with stand for what is below the task. *)
Lemma out_attested P T l t0 t fuel ls :
  receipts_ok P T l → graph_inv P T → t0 ∈ T → at_from_prove t0 = false →
  Forall2 same_input (at_inputs t0) (at_inputs t) → Forall (supplied P T) (at_inputs t) →
  leaves_below fuel T (to_agg_input t0) = Some ls →
  ∃ lss, ls = concat lss ∧
    Forall2 (λ i ls, attests (ai_receipt_input i) ls) (at_inputs t) lss.
Proof.
  intros Hr HG Ht0 Hf Hi Hs. destruct fuel as [|fuel]; [simpl; by rewrite Hf|].
  rewrite (reads_node T (gi_at _ _ HG)) by done.
  destruct (mapM _ _) as [lss|] eqn:Hm; [|done]. intros [= <-]. exists lss.
  split; [done|]. apply list_elem_of_lookup in Ht0 as [k Hk].
  apply mapM_Some_1 in Hm. apply Forall2_same_length_lookup. split.
  { by rewrite <-(Forall2_length _ _ _ Hi), (Forall2_length _ _ _ Hm). }
  intros j i' ls Hj Hls. destruct (Forall2_lookup_r _ _ _ _ _ Hi Hj) as (i&Hj0&Hsame).
  eapply input_attested; [done..| | |exact Hsame| |].
  - exact Hk.
  - by eapply list_elem_of_lookup_2.
  - by eapply Forall_lookup_1 in Hs.
  - by eapply Forall2_lookup_lr in Hm.
Qed.

Lemma clear_child_in_same x (T : list AggTask) :
  Forall2 same_but_childs T (clear_child_in x T).
Proof.
  induction T as [|t T IH]; [constructor|]. cbn [clear_child_in].
  assert (same_but_childs t (clear_child_task x t).2).
  { unfold clear_child_task. case_match; [|done]. by destruct (clear_child _ _). }
  destruct (clear_child_task x t) as [[] t']; constructor; try done. by apply Forall2_refl_l.
Qed.

Lemma clear_all_same ids (T : list AggTask) :
  Forall2 same_but_childs T (foldl (λ T id, clear_child_in id T) T ids).
Proof.
  revert T. induction ids as [|x ids IH]; intros T; [by apply Forall2_refl_l|].
  eapply Forall2_trans; [|apply (clear_child_in_same x)|apply IH].
  intros ???. apply same_but_childs_trans.
Qed.

Lemma cleared_gain T0 T T' b id :
  Forall2 (at_gain T0) T T' → Forall2 (at_gain T0) T (clear_if b id T').
Proof.
  intros HT. destruct b; [|done].
  eapply Forall2_trans; [|exact HT|apply clear_child_in_same].
  intros t t1 t2 [[[] ? ? ?] Hg] ->. split; [split; [split|..]|]; done.
Qed.

Lemma replied_agg now r err P T l t :
  receipts_ok P T l → graph_inv P T → TAgg t ∈ l → at_task_id r = at_task_id t →
  honest (TAgg t) (TAgg r) → Forall2 (at_gain T) T (reply_agg now r err T).
Proof.
  intros Hr HG Ht Eid Hh. unfold reply_agg.
  destruct (find_first _ _) as [u|] eqn:Hf; [|by apply Forall2_refl_l].
  eapply update_first_later; [done..|].
  apply find_first_Some in Hf as [Hu [Hid Hst]%awaits_agg_true].
  destruct (rc_out _ _ _ Hr t Ht) as (t0&Ht0&Hid0&_&Hi&Hs).
  assert (u = t0) as -> by (eapply NoDup_fmap_inj_elem; [apply HG|done|done|congruence]).
  destruct (on_task_agg_kept now r t0 err) as (En&Ef&El&Hres). cbv zeta in *.
  split; [split; [done..|by rewrite Hst]|]. intros [|[Hsr ->]]%Hres Hfp; [by left|right].
  intros fuel ls Hl. destruct (out_attested _ _ _ _ _ _ _ Hr HG Ht0 Hfp Hi Hs Hl)
    as (lss&->&Hlss). by apply Hh.
Qed.

End receipts.
