(* ===== verification/ReceiptRun.v ===== *)
(** * ReceiptRun: the final receipt of a run stands for the whole execution

    Along a run whose provers are honest, [run_receipts] holds: every receipt stands
    for the prove tasks below its task, and the receipt handed to the SNARK prover for
    all of them, in the order of the segments. *)

From S2P Require Import Prelude Text Proto World Tasks Stage AggGraph StageInv StageGen.
From S2P Require Import StageOps AggCover StageSteps Database ProverPool ProverClient.
From S2P Require Import Worker WorkerInv WorkerRun SegmentRun Receipts.

Section receipt_run.
Context `{E : !External} `{J : !Json} `{C : !Client} `{F : !UuidFresh}.
Context (attests : bytes → list string → Prop) (feature : Feature).

Abbreviation order s := (pt_ids (reading_order feature (stage_prove_tasks s))).
Abbreviation receipts_okS s l :=
  (receipts_ok attests (stage_prove_tasks s) (stage_agg_tasks s) l).

Record run_receipts (s : Stage) (l : list Task) : Prop := {
  rr_lists : receipts_okS s l;
  rr_pair : feature = feature_prover → stage_is_error s = false →
    stage_is_tasks_gen_done s = true → 2 ≤ len (stage_prove_tasks s);
  rr_odd : Forall (λ t, at_from_prove t = true → feature = feature_prover)
    (stage_agg_tasks s);
  rr_root : stage_is_tasks_gen_done s = true →
    gt_composite_proof (stage_generate_task s) = false → stage_prove_tasks s ≠ [] →
    ∃ root, root_of (order s) (stage_agg_tasks s) root;
  rr_snark : stage_step s = Snark → stage_is_error s = false → stage_prove_tasks s ≠ [] →
    attests (sn_agg_receipt (stage_snark_task s)) (order s)
}.

(** ** Steps on generated tasks *)

Lemma order_kept P P' :
  Forall2 pt_kept P P' →
  pt_ids (reading_order feature P') = pt_ids (reading_order feature P).
Proof.
  intros HP. destruct feature; simpl; [by apply kept_ids|]. rewrite !fmap_app.
  f_equal; (induction HP as [|p p' P P' [Ei Ed _] _ IH]; [done|]); rewrite !filter_cons, Ed;
    case_decide; csimpl; rewrite IH; congruence.
Qed.

Lemma root_kept ids T T' root :
  Forall2 at_kept T T' → root_of ids T root → ∃ root', root_of ids T' root'.
Proof.
  intros HT [Hf (T0&->&H0) Hl].
  rewrite <-(leaves_below_same _ _ _ _ (kept_same _ _ HT)) in Hl.
  rewrite (Forall2_length _ _ _ HT) in Hl.
  apply Forall2_app_inv_l in HT as (T1&T2&H1&H2&->).
  apply Forall2_cons_inv_l in H2 as (r&T3&[[Ei En] Ef El _]&->%Forall2_nil_inv_l&->).
  exists r. split.
  - congruence.
  - exists T1. split; [done|]. clear -H0 H1.
    induction H1 as [|t t' T T' [_ _ E _] _ IH]; [done|]. apply Forall_cons in H0 as [? ?].
    constructor; [congruence|auto].
  - rewrite <-Hl. f_equal. unfold to_agg_input. congruence.
Qed.

(** An operation that advances tasks and leaves the rest of the stage. *)
Lemma run_receipts_step s s' l l' :
  run_receipts s l →
  Forall2 (pt_step attests) (stage_prove_tasks s) (stage_prove_tasks s') →
  Forall2 (at_gain attests (stage_agg_tasks s)) (stage_agg_tasks s) (stage_agg_tasks s') →
  (∀ t, TAgg t ∈ l' → TAgg t ∈ l ∨
     out_ok (stage_prove_tasks s') (stage_agg_tasks s') t) →
  stage_generate_task s' = stage_generate_task s →
  stage_is_tasks_gen_done s' = stage_is_tasks_gen_done s →
  stage_step s' = stage_step s →
  (stage_is_error s' = false → stage_is_error s = false) →
  sn_agg_receipt (stage_snark_task s') = sn_agg_receipt (stage_snark_task s) →
  run_receipts s' l'.
Proof.
  intros [Hl Hp Ho Hr Hs] HP HT Hl' Eg Ed Est He Er.
  pose proof (pt_step_kept _ _ _ HP) as HPk. pose proof (at_gain_kept _ _ _ HT) as HTk.
  assert (stage_prove_tasks s' ≠ [] → stage_prove_tasks s ≠ []) as Hne.
  { intros Hne H0. rewrite H0 in HP. by apply Forall2_nil_inv_l in HP. }
  split.
  - by eapply receipts_step.
  - rewrite Ed, <-(Forall2_length _ _ _ HP). auto.
  - clear -HTk Ho. induction HTk as [|t t' T T' [_ E _ _] _ IH]; [done|].
    apply Forall_cons in Ho as [? ?]. constructor; [by rewrite E|auto].
  - rewrite Eg, Ed, (order_kept _ _ HPk). intros Hg Hc Hn.
    destruct (Hr Hg Hc (Hne Hn)) as [root Hroot]. by eapply root_kept.
  - rewrite Est, Er, (order_kept _ _ HPk). auto.
Qed.

(** The lists stay. *)
Lemma run_receipts_same s s' l l' :
  run_receipts s l → stage_prove_tasks s' = stage_prove_tasks s →
  stage_agg_tasks s' = stage_agg_tasks s → (∀ t, TAgg t ∈ l' → TAgg t ∈ l) →
  stage_generate_task s' = stage_generate_task s →
  stage_is_tasks_gen_done s' = stage_is_tasks_gen_done s →
  stage_step s' = stage_step s →
  (stage_is_error s' = false → stage_is_error s = false) →
  sn_agg_receipt (stage_snark_task s') = sn_agg_receipt (stage_snark_task s) →
  run_receipts s' l'.
Proof.
  intros Hr EP ET Hl. intros. eapply run_receipts_step; [done|..]; rewrite ?EP, ?ET; auto.
  - apply Forall2_refl_l. apply pt_step_refl.
  - apply Forall2_refl_l. apply at_gain_refl.
Qed.

(** ** Handing out tasks *)

Definition keeps_receipts (g : GenerateTask) (w : World) (s s' : Stage) (out : list Task) :=
  ∀ l, run_inv g s l w → run_receipts s l → run_receipts s' (l ++ out).

Lemma keeps_receipts_trans g w s1 s2 s3 o1 o2 :
  keeps_inv g w s1 s2 o1 → keeps_receipts g w s1 s2 o1 → keeps_receipts g w s2 s3 o2 →
  keeps_receipts g w s1 s3 (o1 ++ o2).
Proof.
  intros Hi H1 H2 l Hr Hs. rewrite app_assoc. apply H2; [by apply Hi|by apply H1].
Qed.
Lemma keeps_receipts_refl g w s : keeps_receipts g w s s [].
Proof. intros l _ Hs. by rewrite app_nil_r. Qed.

Lemma agg_not_out (l : list Task) r t :
  TAgg t ∈ l ++ option_list r → (∀ u, r ≠ Some (TAgg u)) → TAgg t ∈ l.
Proof.
  intros [|Ht]%elem_of_app Hr; [done|]. destruct r as [u|]; simpl in Ht.
  - apply list_elem_of_singleton in Ht as <-. by destruct (Hr t).
  - by apply elem_of_nil in Ht.
Qed.

Lemma receipts_split now g w s :
  keeps_receipts g w s (get_split_task now s).2
    (option_list (TSplit <$> (get_split_task now s).1)).
Proof.
  intros l _ Hr. unfold get_split_task.
  destruct (get_task now (stage_split_task s)) as [r t].
  eapply run_receipts_same; [done..| |done|done|done|done|done].
  intros u Hu. eapply agg_not_out; [done|]. by destruct r.
Qed.

Lemma receipts_prove fs now g w s :
  keeps_receipts g w s (get_prove_task fs now s).2
    (option_list (TProve <$> (get_prove_task fs now s).1)).
Proof.
  intros l _ Hr. unfold get_prove_task. rewrite pick_prove_update.
  eapply run_receipts_step; simpl; [done| | |..]; try done.
  - apply picked_prove. by intros p [? _]%andb_true_iff.
  - apply Forall2_refl_l. apply at_gain_refl.
  - intros u Hu. left. eapply agg_not_out; [done|]. by destruct (find_first _ _).
Qed.

Lemma receipts_agg now g w s r s' :
  get_agg_task now s = Ret (r, s') → keeps_receipts g w s s' (option_list (TAgg <$> r)).
Proof.
  intros Hg l Hi Hr. pose proof (si_graph _ _ (ri_stage _ _ _ _ Hi)) as HG.
  destruct (get_agg_task_supplied now s w (ri_stage _ _ _ _ Hi)) as (r'&s''&Hg'&Hres).
  rewrite Hg in Hg'. injection Hg' as <- <-.
  destruct (get_agg_task_later now s r s' Hg) as (_&EP&_&ET&_).
  pose proof (get_agg_task_frame _ _ _ _ Hg) as Hf.
  assert (Forall2 (at_gain attests (stage_agg_tasks s)) (stage_agg_tasks s)
    (stage_agg_tasks s')) as HT.
  { rewrite ET. apply picked_agg. by intros t [_ ?]%andb_true_iff. }
  eapply run_receipts_step; [done|rewrite EP; apply Forall2_refl_l, pt_step_refl|done| |
    by rewrite Hf..].
  simpl. rewrite <-EP in Hres. intros t [|Ht]%elem_of_app; [by left|right].
  destruct r as [t'|]; simpl in Ht; [|by apply elem_of_nil in Ht].
  apply list_elem_of_singleton in Ht as [= ->].
  destruct Hres as (t0&Ht0&Hrd&_&Hid&_&Hin&Hsup).
  destruct (Forall2_elem_l _ _ _ _ HT Ht0) as (t1&Ht1&[[[E1 E2] E3 _ _] _]).
  exists t1. rewrite E1, E2, E3. split_and!; try done.
  apply not_true_is_false. intros Hfp.
  apply (rc_odd _ _ _ _ (rr_lists _ _ Hr)) in Hfp; [|done].
  apply (gi_odd _ _ HG) in Hfp; [|done]. by apply is_ready_not_success in Hrd.
Qed.

Lemma receipts_snark now g w s :
  keeps_receipts g w s (get_snark_task now s).2
    (option_list (TSnark <$> (get_snark_task now s).1)).
Proof.
  intros l _ Hr. unfold get_snark_task.
  assert (sn_agg_receipt (get_task now (stage_snark_task s)).2 =
    sn_agg_receipt (stage_snark_task s)) as Ht by (unfold get_task; by case_match).
  destruct (get_task now (stage_snark_task s)) as [r t].
  eapply run_receipts_same; [done..| |done|done|done|done|exact Ht].
  intros u Hu. eapply agg_not_out; [done|]. by destruct r.
Qed.

Lemma spawn_tasks_receipts now g s w tasks s' w' :
  spawn_tasks now s w = Ret ((tasks, s'), w') → keeps_receipts g w s s' tasks.
Proof.
  unfold spawn_tasks. destruct (stage_step s) eqn:Hst.
  1-2,4,6: by intros [[= <- <-] <-]%M_mret_Ret; apply keeps_receipts_refl.
  - pose proof (receipts_split now g w s) as H1. pose proof (spawn_split now g w s) as K1.
    destruct (get_split_task now s) as [sp s1].
    intros (w1&w1'&[= <- <-]&H)%M_bind_Ret.
    pose proof (receipts_prove (w_fs w) now g w s1) as H2.
    pose proof (spawn_prove (w_fs w) now g w s1) as K2.
    set (b := Z.of_nat _ <? _) in H.
    assert (∃ pr s2, (if b then get_prove_task (w_fs w) now s1 else (None, s1)) = (pr, s2) ∧
      keeps_receipts g w s1 s2 (option_list (TProve <$> pr)) ∧
      keeps_inv g w s1 s2 (option_list (TProve <$> pr))) as (pr&s2&E2&H2'&K2').
    { destruct b.
      - destruct (get_prove_task (w_fs w) now s1) as [pr s2]. by exists pr, s2.
      - exists None, s1. split_and!; [done|apply keeps_receipts_refl|apply keeps_inv_refl]. }
    rewrite E2 in H. apply M_bind_Ret in H as ([ag s3]&w3&H3&[[= <- <-] _]%M_mret_Ret).
    assert (keeps_receipts g w s2 s3 (option_list (TAgg <$> ag))) as H3'.
    { destruct (_ && _); [apply lift_Ret in H3 as [H3 _]; by eapply receipts_agg|].
      apply M_mret_Ret in H3 as [[= <- <-] _]. apply keeps_receipts_refl. }
    rewrite app_assoc. eapply keeps_receipts_trans; [|by eapply keeps_receipts_trans|done].
    by eapply keeps_inv_trans.
  - pose proof (receipts_snark now g w s) as H1.
    destruct (get_snark_task now s) as [sn s1]. by intros [[= <- <-] _]%M_mret_Ret.
Qed.

(** ** Answers *)

Lemma agg_in_delete (l : list Task) i t : TAgg t ∈ delete i l → TAgg t ∈ l.
Proof. intros H. by eapply sublist_subseteq, H; apply sublist_delete. Qed.

Lemma on_answer_receipts now g s l w i t e r db s' db' w' :
  run_inv g s l w → run_receipts s l → l !! i = Some t → answer t e = Some r →
  honest attests t r → on_answer now r s db w = Ret ((s', db'), w') →
  run_receipts s' (delete i l).
Proof.
  intros Hi Hr Hl Ha Hh. pose proof (si_graph _ _ (ri_stage _ _ _ _ Hi)) as HG.
  pose proof (λ t, agg_in_delete l i t) as Hdel.
  destruct t as [t|t|t|t], e as [e|e|e|e]; simplify_eq/=.
  - (* split *)
    unfold on_split_task.
    pose proof (on_task_error now (client_split t e) (stage_split_task s
      <| st_total_steps := st_total_steps (client_split t e) |>
      <| st_total_segments := st_total_segments (client_split t e) |>) (stage_is_error s)) as He.
    destruct (on_task now (client_split t e) _ (stage_is_error s)) as [[src dst] err].
    intros [[= <- _] _]%M_mret_Ret. by eapply run_receipts_same.
  - (* prove *)
    intros [[= <- _] _]%M_mret_Ret.
    destruct (on_prove_task_frame now (client_prove t e) s) as [Hf He].
    destruct (on_prove_task_lists now (client_prove t e) s) as [EP ET].
    eapply run_receipts_step; [done| | | | | | |exact He|]; try by rewrite Hf.
    + rewrite EP. apply replied_prove. by rewrite client_prove_id.
    + rewrite ET. apply cleared_gain, Forall2_refl_l, at_gain_refl.
    + intros u Hu. left. auto.
  - (* aggregate *)
    intros ([d s1]&w1&Hon&[[= <- _] _]%M_mret_Ret)%M_bind_Ret.
    destruct (on_agg_task_frame _ _ _ _ _ _ _ Hon) as [Hf He].
    destruct (on_agg_task_run _ _ _ _ _ _ _ Hon) as (EP&ET&_).
    eapply run_receipts_step; [done| | | | | | |exact He|]; try by rewrite Hf.
    + rewrite EP. apply Forall2_refl_l, pt_step_refl.
    + rewrite ET. apply cleared_gain. eapply replied_agg; [apply Hr|done| |by apply client_aggregate_id|done].
      by eapply list_elem_of_lookup_2.
    + intros u Hu. left. auto.
  - (* snark *)
    intros ([d s1]&w1&Hon&[[= <- _] _]%M_mret_Ret)%M_bind_Ret.
    unfold on_snark_task in Hon. apply M_bind_Ret in Hon as (u&w2&_&Hon).
    pose proof (on_task_error now (client_snark_proof t e) (stage_snark_task s)
      (stage_is_error s)) as He.
    assert (sn_agg_receipt (on_task now (client_snark_proof t e) (stage_snark_task s)
      (stage_is_error s)).1.2 = sn_agg_receipt (stage_snark_task s)) as Er.
    { unfold on_task. by repeat case_match; simplify_eq/=. }
    destruct (on_task _ _ _ _) as [[src dst] err]. apply M_mret_Ret in Hon as [[= _ <-] _].
    by eapply run_receipts_same.
Qed.

(** ** Dispatch *)

(** Before the tasks are complete only the prove tasks matter. *)
Lemma growing_receipts s s' l :
  run_receipts s l → stage_agg_tasks s = [] → stage_agg_tasks s' = [] →
  stage_is_tasks_gen_done s' = false → stage_step s' ≠ Snark →
  (∀ p, p ∈ stage_prove_tasks s' → p ∈ stage_prove_tasks s ∨ fresh_task p) →
  deferred_valid attests (stage_prove_tasks s') → run_receipts s' l.
Proof.
  intros [[Hp _ _ Ho] _ _ _ _] HT HT' Hg Hst Hnew Hd. split; rewrite ?HT', ?Hg; try done.
  split; try by intros ? ?%elem_of_nil.
  - intros p Hin Hs. destruct (Hnew p Hin) as [|[Hu|[_ Hdf]]]; [auto| |auto].
    by rewrite Hs in Hu.
  - by intros ??? ?%elem_of_nil.
  - intros t Ht. destruct (Ho t Ht) as (t0&Ht0&_). rewrite HT in Ht0. by apply elem_of_nil in Ht0.
Qed.

(** The graph as [on_split_done] leaves it. *)
Record fresh_agg (P : list ProveTask) (t : AggTask) : Prop := {
  fa_state : at_state t = (if at_from_prove t then TASK_STATE_SUCCESS
                           else TASK_STATE_UNPROCESSED);
  fa_odd : at_from_prove t = true → at_task_id t ∈ pt_ids P ∧ feature = feature_prover
}.

Lemma on_split_done_graph s w s' w' :
  growing s w → on_split_done feature s w = Ret (s', w') →
  Forall (fresh_agg (stage_prove_tasks s')) (stage_agg_tasks s') ∧
  (gt_composite_proof (stage_generate_task s') = false → stage_prove_tasks s' ≠ [] →
   ∃ root, root_of (order s') (stage_agg_tasks s') root).
Proof.
  intros Hg (s1&w1&T&H1&HT1&->)%on_split_done_parts. simpl.
  destruct (gen_prove_task_post_run _ _ _ _ _ F Hg H1) as [[Hagg Hnd Hdr _ _ _] _].
  set (T' := foldl _ T _). assert (Forall2 same_but_childs T T') as Hsame by apply clear_all_same.
  assert (Forall (fresh_agg (stage_prove_tasks s1)) T ∧
    (gt_composite_proof (stage_generate_task s1) = false → stage_prove_tasks s1 ≠ [] →
     ∃ root, root_of (order s1) T root)) as [HF Hroot].
  { destruct (gt_composite_proof _); [by rewrite HT1, Hagg|].
    destruct HT1 as (s2&w2&H2&->). destruct (decide (stage_prove_tasks s1 = [])) as [HP|HP].
    - by rewrite (gen_agg_tasks_empty _ _ _ _ _ Hagg HP H2).
    - destruct (gen_agg_tasks_graph _ _ _ _ _ Hagg HP Hnd Hdr H2) as [HF Hroot].
      split; [|done]. eapply Forall_impl; [done|]. by intros t []. }
  split.
  - clear -HF Hsame. induction Hsame as [|t t' T T' Ht _ IH]; [done|].
    apply Forall_cons in HF as [[] ?]. constructor; [|auto]. rewrite Ht. by split.
  - intros Hc HP. destruct (Hroot Hc HP) as [root Hrt]. eapply root_kept; [|done].
    eapply Forall2_impl; [done|]. by intros t ? ->.
Qed.

Lemma on_split_done_receipts g s w s' w' l :
  run_receipts s l → growing s w → segs_inv g s l →
  st_state (stage_split_task s) = TASK_STATE_SUCCESS → stage_step s ≠ Snark →
  on_split_done feature s w = Ret (s', w') →
  deferred_valid attests (stage_prove_tasks s') → run_receipts s' l.
Proof.
  intros Hr Hg Hsegs Hst Hstep Hod Hdv. pose proof Hg as (Hgd&HT&_).
  destruct (on_split_done_segs _ _ _ _ _ _ _ Hsegs Hst Hgd Hod) as [_ Hpair].
  destruct (on_split_done_graph _ _ _ _ Hg Hod) as [HF Hroot].
  pose proof (on_split_done_keeps _ _ _ _ _ Hod) as [_ _ _ Est].
  destruct (on_split_done_lists _ _ _ _ _ F Hg Hod) as [_ _ Hnew _].
  assert (∀ t, TAgg t ∉ l) as Hnone.
  { intros t Ht. destruct (rc_out _ _ _ _ (rr_lists _ _ Hr) t Ht) as (t0&Ht0&_).
    rewrite HT in Ht0. by apply elem_of_nil in Ht0. }
  split; [split|auto..|by rewrite Est].
  - intros p Hp Hs. destruct (Hnew p Hp) as [|[_ [Hu|[_ ?]]]]; [|by rewrite Hs in Hu|auto].
    by apply (rc_prove _ _ _ _ (rr_lists _ _ Hr)).
  - intros t fuel ls Ht Hs Hfp. eapply Forall_forall in HF as [Hst' _]; [|done].
    rewrite Hfp, Hs in Hst'. done.
  - intros t Ht Hfp. by eapply Forall_forall in HF as [_ []].
  - intros t Ht. by destruct (Hnone t).
  - eapply Forall_impl; [done|]. intros t [_ Ho] Hfp. by apply Ho.
Qed.

(** The final task, once it has succeeded, holds a receipt of the whole execution. *)
Lemma root_attested s l root :
  run_receipts s l → stage_is_error s = false → stage_is_tasks_gen_done s = true →
  root_of (order s) (stage_agg_tasks s) root → at_state root = TASK_STATE_SUCCESS →
  attests (at_output root) (order s).
Proof.
  intros Hr He Hg [_ (T0&HT&_) Hl] Hs.
  assert (root ∈ stage_agg_tasks s) as Hin by (rewrite HT; set_solver).
  eapply (rc_agg _ _ _ _ (rr_lists _ _ Hr)); [done..| |done].
  apply not_true_is_false. intros Hfp. pose proof (rr_odd _ _ Hr) as Ho.
  eapply Forall_forall in Ho; [|done]. specialize (Ho Hfp). rewrite leaves_below_leaf in Hl
    by (simpl; by rewrite Hfp).
  injection Hl as Hl. apply (f_equal length) in Hl. rewrite length_fmap in Hl.
  pose proof (rr_pair _ _ Hr Ho He Hg). rewrite Ho in Hl. simpl in Hl. lia.
Qed.

Lemma gen_snark_task_receipt s w s' w' T0 root :
  gt_from_step (stage_generate_task s) = Init → stage_agg_tasks s = T0 ++ [root] →
  at_is_final root = true → gen_snark_task s w = Ret (s', w') →
  sn_agg_receipt (stage_snark_task s') = at_output root.
Proof.
  intros Hf HT Hr. unfold gen_snark_task. rewrite Hf.
  intros (u&w1&_&H)%M_bind_Ret. apply M_bind_Ret in H as (id&w2&_&[<- _]%M_mret_Ret).
  simpl. rewrite HT, foldl_app. simpl. by rewrite Hr.
Qed.

Lemma finish_prove_receipts s w s' w' l :
  run_receipts s l → gt_from_step (stage_generate_task s) = Init → stage_step s ≠ Snark →
  finish_prove s w = Ret (s', w') → run_receipts s' l.
Proof.
  intros Hr Hf Hst H. destruct (finish_prove_same _ _ _ _ H) as (Eg&_&Ed&EP&ET&Ee).
  pose proof Hr as [Hl Hp Ho Hroot Hs].
  split; rewrite ?Eg, ?Ed, ?EP, ?ET, ?Ee; try done. intros Hst' He HP.
  destruct (finish_prove_cases _ _ _ _ H) as [_ [->|(Hd&_&[(Hst''&_)|(_&Hc&Ht)])]];
    [done|by rewrite Hst'' in Hst'|].
  destruct (Hroot (ad_gen _ Hd) Hc HP) as [root Hrt]. pose proof Hrt as [Hfin (T0&HT&_) _].
  assert (at_state root = TASK_STATE_SUCCESS) as Hrs.
  { destruct (ad_agg _ Hd) as [|HF]; [congruence|]. eapply Forall_forall in HF; [done|].
    rewrite HT. set_solver. }
  assert (sn_agg_receipt (stage_snark_task s') = at_output root) as ->;
    [|by eapply root_attested; [..|apply Hd| |]].
  revert H. unfold finish_prove. rewrite (ad_gen _ Hd), Hc.
  rewrite (proj2 (all_prove_success_true s) (ad_prove _ Hd)). simpl.
  destruct (all_agg_success s); [|by intros [<- <-]%M_mret_Ret].
  rewrite decide_False by done.
  intros (s1&w1&H1&[<- _]%M_mret_Ret)%M_bind_Ret. simpl.
  by eapply gen_snark_task_receipt.
Qed.

(** The receipts of a stage whose tasks are still being read: no aggregation task is
    there, and the prove tasks stand for the segments. *)
Lemma growing_dispatch g s w s1 w1 l :
  run_inv g s l w → segs_inv g s l → run_receipts s l → growing s w →
  gen_prove_task s w = Ret (s1, w1) →
  growing s1 w1 ∧ deferred_valid attests (stage_prove_tasks s1) ∧
  ∀ s2, stage_prove_tasks s2 = stage_prove_tasks s1 → stage_agg_tasks s2 = [] →
    stage_is_tasks_gen_done s2 = false → stage_step s2 ≠ Snark → run_receipts s2 l.
Proof.
  intros Hi Hseg Hr Hgr H1. pose proof (growing_gen_prove_task _ _ _ _ F Hgr H1) as Hgr1.
  split; [done|]. destruct (Hgr1) as (Hg1&_&Hi1).
  assert (deferred_valid attests (stage_prove_tasks s1)) as Hdv.
  { intros p Hp Hdf. destruct (si_start _ _ Hi1 Hg1) as [_ Hn].
    eapply Forall_forall in Hn; [|done]. congruence. }
  split; [done|]. intros s2 EP2 ET2 Eg2 Est2.
  eapply growing_receipts; [done|exact (proj1 (proj2 Hgr))|done..| |by rewrite EP2].
  rewrite EP2. intros p Hp. destruct (gen_prove_task_lists _ _ _ _ F H1) as (_&Hn&_).
  destruct (Hn p Hp) as [|[_ ?]]; auto.
Qed.

Lemma dispatch_prove_receipts g s w s' w' l :
  run_inv g s l w → segs_inv g s l → run_receipts s l → gt_from_step g = Init →
  stage_step s = Prove → dispatch_prove feature s w = Ret (s', w') →
  deferred_valid attests (stage_prove_tasks s') → run_receipts s' l.
Proof.
  intros Hi Hseg Hr Hf Hst. pose proof (ri_stage _ _ _ _ Hi) as Hs.
  pose proof (ri_request _ _ _ _ Hi) as Hg.
  unfold dispatch_prove. intros (s1&w1&H1&H)%M_bind_Ret Hdv.
  pose proof (gen_prove_task_keeps _ _ _ _ H1) as [Eg Es En Est].
  assert (∀ s2 w2, run_receipts s2 l → stage_generate_task s2 = g → stage_step s2 = Prove →
    finish_prove s2 w2 = Ret (s', w') → run_receipts s' l) as Hfin.
  { intros s2 w2 Hr2 Eg2 Est2 Hfp. eapply finish_prove_receipts; [done|by rewrite Eg2| |done].
    by rewrite Est2. }
  destruct (stage_is_tasks_gen_done s) eqn:Hgd.
  { unfold gen_prove_task in H1. rewrite Hgd, orb_true_r in H1.
    apply M_mret_Ret in H1 as [<- <-]. rewrite Hgd, andb_false_r in H. by eapply Hfin. }
  assert (growing s w) as Hgr by (split_and!; [done|by apply (si_start _ _ Hs)|done]).
  destruct (growing_dispatch _ _ _ _ _ _ Hi Hseg Hr Hgr H1) as ((Hg1&HT1&Hi1)&Hdv1&Hgrow).
  assert (stage_step s1 = Prove) as Est1 by congruence.
  assert (stage_generate_task s1 = g) as Eg1 by congruence.
  assert (run_receipts s1 l) as Hr1 by (apply Hgrow; [done..|congruence]).
  destruct (_ && _) eqn:Hb; [|by eapply Hfin].
  apply andb_true_iff in Hb as [Hsp%Z.eqb_eq _]. case_decide.
  - apply M_mret_Ret in H as [<- <-]. by apply Hgrow.
  - apply M_bind_Ret in H as (s2&w2&H2&H).
    pose proof (on_split_done_keeps _ _ _ _ _ H2) as [Eg2 _ _ Est2].
    destruct (finish_prove_same _ _ _ _ H) as (_&_&_&EP&_). rewrite EP in Hdv.
    assert (segs_inv g s1 l) as Hseg1 by by eapply gen_prove_task_segs.
    apply (Hfin s2 w2); [|congruence|congruence|done].
    apply (on_split_done_receipts g s1 w1 s2 w2);
      [done|by split_and!|done|done|by rewrite Est1|done|done].
Qed.

Lemma dispatch_receipts g s w s' w' l :
  run_inv g s l w → segs_inv g s l → run_receipts s l → gt_from_step g = Init →
  dispatch feature s w = Ret (s', w') → deferred_valid attests (stage_prove_tasks s') →
  run_receipts s' l.
Proof.
  intros Hi Hseg Hr Hf. pose proof (ri_request _ _ _ _ Hi) as Hg. unfold dispatch.
  destruct (stage_step s) eqn:Hst; [|by intros [<- <-]%M_mret_Ret|by eapply dispatch_prove_receipts| | |
    by intros [<- <-]%M_mret_Ret].
  - intros (s1&w1&H1&[<- <-]%M_mret_Ret)%M_bind_Ret Hdv. unfold gen_split_task in H1.
    apply M_bind_Ret in H1 as (u&w2&_&H1). apply M_bind_Ret in H1 as (id&w3&_&[<- <-]%M_mret_Ret).
    destruct Hr. by split.
  - intros (u&w1&[Ha _]%lift_Ret&_)%M_bind_Ret.
    apply rust_assert_Ret, bool_decide_eq_true in Ha. congruence.
  - intros [<- <-]%M_mret_Ret _. case_match; [|done]. destruct Hr. by split.
Qed.

(** ** Turns *)

Abbreviation ws_inv g ws w := (run_inv g (ws_stage ws) (ws_inflight ws) w).
Abbreviation ws_segs g ws := (segs_inv g (ws_stage ws) (ws_inflight ws)).
Abbreviation ws_receipts ws := (run_receipts (ws_stage ws) (ws_inflight ws)).

(** The answer a turn takes is that of a correct prover to the task it belongs to. *)
Definition honest_turn (ti : TurnInput) (ws : WorkerState) (w : World) : Prop :=
  ∀ ws1 w1 i e t r,
    loop_top (ti_now_top ti) ws (w <| w_fs := ti_fs_top ti |>) = Ret (ws1, w1) →
    ti_event ti = Answers i e → ws_inflight ws1 !! i = Some t → answer t e = Some r →
    honest attests t r.

Lemma take_event_receipts now ev g ws w ws' w' :
  ws_inv g ws w → ws_receipts ws →
  (∀ i e t r, ev = Answers i e → ws_inflight ws !! i = Some t → answer t e = Some r →
     honest attests t r) →
  take_event now ev ws w = Ret (Some ws', w') → ws_receipts ws'.
Proof.
  intros Hi Hr Hh. destruct ev as [|i e]; simpl; [by intros [[= <-] _]%M_mret_Ret|].
  destruct (ws_inflight ws !! i) as [t|] eqn:Ht; simpl; [|by intros [[=] _]%M_mret_Ret].
  destruct (answer t e) as [r|] eqn:Ha; [|by intros [[=] _]%M_mret_Ret].
  intros ([s1 db1]&w1&Ho&[[= <-] _]%M_mret_Ret)%M_bind_Ret. simpl.
  by eapply on_answer_receipts; [..|by eapply Hh|].
Qed.

Lemma loop_turn_receipts id ti g ws w t w' :
  ws_inv g ws w → ws_segs g ws → ws_receipts ws → gt_from_step g = Init →
  honest_turn ti ws w → loop_turn feature id ti ws w = Ret (Some t, w') →
  deferred_valid attests (stage_prove_tasks (ws_stage (turn_state t))) →
  ws_receipts (turn_state t).
Proof.
  intros Hr Hseg Hrc Hf Hh. unfold loop_turn, put_fs.
  intros (u&w1&[= <- <-]&H)%M_bind_Ret.
  apply M_bind_Ret in H as (ws1&w2&Htop&H). specialize (Hh ws1 w2).
  pose proof (λ i e t r, Hh i e t r Htop) as Hh'. clear Hh.
  apply M_bind_Ret in H as (u&w3&[= <- <-]&H).
  apply (run_inv_world _ _ _ _ (w <| w_fs := ti_fs_top ti |>)) in Hr; [|done].
  unfold loop_top in Htop.
  apply M_bind_Ret in Htop as ([tasks s1]&w3&Hsp&[<- <-]%M_mret_Ret).
  pose proof (spawn_tasks_receipts _ g _ _ _ _ _ Hsp _ Hr Hrc) as Hrc1.
  pose proof (spawn_tasks_segs _ g _ _ _ _ _ Hsp _ Hseg) as Hseg1.
  apply (spawn_tasks_inv _ g) in Hsp as [-> Hk].
  destruct (Hk _ Hr) as [Hr1 _]. clear Hk Hr.
  set (ws1 := ws <| ws_stage := s1 |> <| ws_inflight := ws_inflight ws ++ tasks |>
                 <| ws_last_step := stage_step (ws_stage ws) |>) in *.
  set (w2 := w <| w_fs := ti_fs_top ti |> <| w_fs := ti_fs_bottom ti |>) in *.
  assert (ws_inv g ws1 w2) as Hr2 by by eapply run_inv_world; [|exact Hr1].
  unfold loop_bottom in H. apply M_bind_Ret in H as ([ws2|]&w4&He&H);
    [|by apply M_mret_Ret in H as [[=] _]].
  assert (ws_receipts ws2) as Hrc2.
  { eapply take_event_receipts; [exact Hr2|exact Hrc1| |exact He]. intros i e u r. apply Hh'. }
  destruct (take_event_inv _ _ _ _ _ _ _ Hr2 He) as [Hr3 _].
  apply (take_event_segs _ _ g) in He; [|done].
  destruct (_ || _); [by apply M_mret_Ret in H as [[= <-] _]|].
  apply M_bind_Ret in H as (s5&w5&Hd&[[= <-] _]%M_mret_Ret). cbn [turn_state].
  destruct (heartbeat_stage id (ti_now_bottom ti) (ws2 <| ws_stage := s5 |>)) as [E1 E2].
  simpl in *. rewrite E1, E2. by eapply dispatch_receipts.
Qed.

Lemma loop_start_receipts task g now now' db w ws w' :
  gt_from_step g = Init → loop_start feature task g now now' db w = Ret (ws, w') →
  ws_receipts ws.
Proof.
  intros Hf. unfold loop_start. intros (s&w1&Hd&[<- _]%M_mret_Ret)%M_bind_Ret. simpl.
  unfold dispatch in Hd. simpl in Hd. rewrite Hf in Hd.
  apply M_bind_Ret in Hd as (s1&w2&H1&[<- _]%M_mret_Ret). unfold gen_split_task in H1.
  apply M_bind_Ret in H1 as (u&w3&_&H1). apply M_bind_Ret in H1 as (id&w4&_&[<- _]%M_mret_Ret).
  split; simpl; try done. split; try by intros ? ?%elem_of_nil.
  by intros ??? ?%elem_of_nil.
Qed.

(** ** Runs with correct provers *)

(** The states at the top of the loop when every prover is correct and the files of
    the deferred proofs hold receipts of theirs. *)
Inductive honest_reaches (task : StageTask) (g : GenerateTask) :
    WorkerState → World → Prop :=
  | honest_start now now' db w ws w' :
      loop_start feature task g now now' db w = Ret (ws, w') →
      honest_reaches task g ws w'
  | honest_next ti ws w ws' w' :
      honest_reaches task g ws w → honest_turn ti ws w →
      loop_turn feature (stg_id task) ti ws w = Ret (Some (Continue ws'), w') →
      deferred_valid attests (stage_prove_tasks (ws_stage ws')) →
      honest_reaches task g ws' w'.

Lemma honest_reaches_receipts task g ws w :
  gt_from_step g = Init → honest_reaches task g ws w →
  ws_inv g ws w ∧ ws_segs g ws ∧ ws_receipts ws.
Proof.
  intros Hf. induction 1 as [now now' db w ws w' Hst|ti ws w ws' w' _ (IH1&IH2&IH3) Hh Ht Hd].
  - destruct (loop_start_inv feature task g now now' db w ws w') as [? _];
      [by rewrite Hf..|done|]. split_and!; [done|by eapply loop_start_segs|].
    by eapply loop_start_receipts.
  - destruct (loop_turn_inv _ _ _ _ _ _ _ _ IH1 Ht) as [? _].
    pose proof (loop_turn_segs _ _ _ _ _ _ _ _ IH2 Ht).
    split_and!; [done|done|]. by apply (loop_turn_receipts _ _ _ _ _ _ _ IH1 IH2 IH3 Hf Hh Ht).
Qed.

(** [C1] The receipt of a run with correct provers stands for the whole
    execution: after any turn, if the run has no error and has prove tasks, the
    aggregate receipt stored for the SNARK prover, once the step is Snark, stands for
    the prove tasks in reading order, the segments by number (and with them the
    deferred proofs), and so does the output of the final aggregation task as soon as
    it has succeeded. *)
Theorem run_final_receipt task g ws w ti t w' :
  gt_from_step g = Init → honest_reaches task g ws w → honest_turn ti ws w →
  loop_turn feature (stg_id task) ti ws w = Ret (Some t, w') →
  let s := ws_stage (turn_state t) in
  deferred_valid attests (stage_prove_tasks s) → stage_is_error s = false →
  stage_prove_tasks s ≠ [] →
  (∃ segs defs, stage_prove_tasks s = segs ++ defs ∧
     Forall (λ p, pt_is_deferred p = true) defs ∧
     (∀ k p, segs !! k = Some p → pt_is_deferred p = false ∧ pt_file_no p = Z.of_nat k)) ∧
  (stage_step s = Snark →
     attests (sn_agg_receipt (stage_snark_task s)) (order s)) ∧
  (stage_is_tasks_gen_done s = true → gt_composite_proof g = false →
   ∃ root, last (stage_agg_tasks s) = Some root ∧ at_is_final root = true ∧
     (at_state root = TASK_STATE_SUCCESS → attests (at_output root) (order s))).
Proof.
  intros Hf (Hi&Hseg&Hr)%honest_reaches_receipts Hh Ht s Hd He HP; [|done].
  destruct (loop_turn_inv _ _ _ _ _ _ _ _ Hi Ht) as [Hi' _].
  pose proof (loop_turn_receipts _ _ _ _ _ _ _ Hi Hseg Hr Hf Hh Ht Hd) as Hr'.
  destruct (loop_turn_segs _ _ _ _ _ _ _ _ Hseg Ht) as (_&[(segs&defs&?&Hn&?&_) _]&_).
  split_and!.
  - exists segs, defs. split_and!; [done..|]. intros k p Hk. by destruct (Hn k p Hk).
  - intros Hst. by apply (rr_snark _ _ Hr').
  - rewrite <-(ri_request _ _ _ _ Hi'). intros Hg Hc.
    destruct (rr_root _ _ Hr' Hg Hc HP) as [root Hrt]. pose proof Hrt as [Hfin (T0&HT&_) _].
    exists root. split_and!; [by unfold s; rewrite HT, last_snoc|done|].
    intros Hs. by eapply root_attested.
Qed.

End receipt_run.
