(* ===== verification/RunSample.v ===== *)
(** * RunSample: one complete run

    A proof of two segments up to aggregation, with feature "prover": the run the
    examples of RunThms evaluate. *)

From S2P Require Import Prelude Text Proto World Tasks Stage AggGraph Database.
From S2P Require Import ProverPool ProverClient Worker.

Definition text (s : string) : bytes := String.list_byte_of_string s.

Definition sample_json : Json := {|
  split_to_json t := st_task_id t;
  snark_to_json t := sn_task_id t;
  generate_to_json g := gt_proof_id g;
  generate_from_json _ := None
|}.

Abbreviation sample_request := SampleGraph.request.

Definition sample_world : @World Sample.external :=
  Sample.world [("p/segment/segments.txt", text "2"); ("p/segment/0", text "seg0");
                ("p/segment/1", text "seg1"); ("p/vk.bin", text "vk")]
    ["p"; "p/segment"].
Definition sample_fs : Fs := w_fs sample_world.

Definition sample_task : StageTask :=
  mkStageTask "id" (Status.i32 Status.Computing) (Some "id") None 0 0.
Definition sample_db : Database :=
  mkDatabase {[ "id" := ("0xab", sample_task) ]} ∅ ∅ true.

Definition sample_turn (now : Z) (ev : LoopEvent) : TurnInput :=
  {| ti_fs_top := sample_fs; ti_now_top := now; ti_fs_bottom := sample_fs;
     ti_now_bottom := now; ti_event := ev |}.

Definition sample_ok : option RpcResult := Some (mkRpcResult 0 empty_str).

(** A receipt lists the ids of the tasks it stands for. *)
Definition sample_attests (r : bytes) (ids : list string) : Prop :=
  r = flat_map text ids.

(** The split answers, then both segments, then the aggregation; the last turn sees
    the proof is done. *)
Definition sample_turns : list TurnInput :=
  [ sample_turn 101 (Answers 0 (ESplit (Replied "n0"
      {| sr_result := sample_ok; sr_total_steps := 10; sr_total_segments := 2 |})));
    sample_turn 102 (Answers 0 (EProve (Replied "n0"
      {| vr_result := sample_ok; vr_output_receipt := text "u1" |})));
    sample_turn 103 (Answers 0 (EProve (Replied "n1"
      {| vr_result := sample_ok; vr_output_receipt := text "u2" |})));
    sample_turn 104 (Answers 0 (EAgg (Replied "n0"
      {| gr_result := sample_ok; gr_agg_receipt := text "u1u2" |})));
    sample_turn 105 Tick ].

#[export] Existing Instance Sample.external.
#[export] Existing Instance Sample.external_fresh.
#[export] Existing Instance sample_json.

Definition sample_start : outcome (WorkerState * World) :=
  loop_start feature_prover sample_task sample_request 100 100 sample_db sample_world.

(** The run over given turns, and the worker and the world it leads to. *)
Definition run_of (tis : list TurnInput) : outcome (option Turn * World) :=
  match sample_start with
  | Ret (ws, w) => run_loop feature_prover "id" tis ws w
  | Panic => Panic
  end.

Definition sample_empty : WorkerState :=
  mkWorkerState (Stage_new sample_request) [] sample_db 0 0 Init.

Definition ws_of (tis : list TurnInput) : WorkerState :=
  match run_of tis with
  | Ret (Some (Continue ws), _) | Ret (Some (Break ws), _) => ws
  | _ => sample_empty
  end.
Definition w_of (tis : list TurnInput) : World :=
  match run_of tis with Ret (_, w) => w | Panic => sample_world end.

(** The run after its first [n] turns. *)
Definition sample_ws (n : nat) : WorkerState := ws_of (take n sample_turns).
Definition sample_w (n : nat) : World := w_of (take n sample_turns).

(** ** Runs with answers that are not results *)

Definition code_answer (code : Z) : LoopEvent :=
  Answers 0 (EProve (Replied "n0"
    {| vr_result := Some (mkRpcResult code empty_str); vr_output_receipt := [] |})).

(** The split, then [n] failures of the first segment. *)
Definition failing_turns (n : nat) : list TurnInput :=
  take 1 sample_turns ++ repeat (sample_turn 102 (code_answer 2)) n.

(** A turn in which the first segment's call answers "unspecified". *)
Definition unspecified_turn : TurnInput := sample_turn 102 (code_answer 4).

(** The worker inside a turn, after its tasks went out. *)
Definition top_of (ti : TurnInput) (ws : WorkerState) (w : World) :
    outcome (WorkerState * World) :=
  loop_top (ti_now_top ti) ws (w <| w_fs := ti_fs_top ti |>).
Definition ws_top (ti : TurnInput) (ws : WorkerState) (w : World) : WorkerState :=
  match top_of ti ws w with Ret (ws, _) => ws | Panic => sample_empty end.
Definition w_top (ti : TurnInput) (ws : WorkerState) (w : World) : World :=
  match top_of ti ws w with Ret (_, w) => w | Panic => sample_world end.
