(* ===== verification/Durations.v ===== *)
(** * Durations: the times a run records ([Trace::duration], [save_task!])

    [duration] subtracts two [u64] clock readings: a clock that goes back makes it wrap
    around in a release build (a debug build panics).  While the clock does not go back,
    every task row a run saves has the time between its last hand-out and its answer. *)

From S2P Require Import Prelude Text Proto World Tasks Stage Database ProverPool.
From S2P Require Import ProverClient Worker WorkerRun RunSample.

(** A client that leaves the start of a task as it is. *)
Class KeepsStart (C : Client) : Prop := {
  split_start t e : tr_start_ts (st_trace (client_split t e)) = tr_start_ts (st_trace t);
  snark_start t e : tr_start_ts (sn_trace (client_snark_proof t e)) = tr_start_ts (sn_trace t)
}.
#[export] Instance prover_client_starts : KeepsStart prover_client.
Proof.
  split; intros t [| | |addr r| |]; cbn; try done.
  - by destruct (sr_result r).
  - destruct (nr_result r); [|done]. by case_decide.
Qed.

(** ** The summary of a stage ([impl Debug for Stage]) *)

Definition crlf : string := String (Ascii.ascii_of_nat 13) (String (Ascii.ascii_of_nat 10) EmptyString).
Definition cost_text (kind id : string) (t : Trace) : string :=
  kind +:+ "_id: " +:+ id +:+ " cost: " +:+ pretty (Trace_duration t) +:+ " sec".
Definition Stage_fmt (s : Stage) : string :=
  let split_cost := cost_text "split" (st_task_id (stage_split_task s))
                      (st_trace (stage_split_task s)) in
  let root_prove_cost := String.concat (" " +:+ crlf)
    ((λ t, cost_text "prove" (pt_task_id t) (pt_trace t)) <$> stage_prove_tasks s) in
  let agg_cost := String.concat (" " +:+ crlf)
    ((λ t, cost_text "agg" (at_task_id t) (at_trace t)) <$> stage_agg_tasks s) in
  let snark_cost := cost_text "snark" (sn_task_id (stage_snark_task s))
                      (sn_trace (stage_snark_task s)) in
  "proof_id: " +:+ gt_proof_id (stage_generate_task s) +:+ crlf +:+ " " +:+ root_prove_cost +:+
  crlf +:+ " " +:+ agg_cost +:+ crlf +:+ " " +:+ split_cost +:+ crlf +:+ " " +:+ snark_cost +:+
  crlf.

(** ** Arithmetic *)

Definition i64_MAX : Z := 2 ^ 63 - 1.

Lemma duration_exact t :
  0 ≤ tr_finish_ts t - tr_start_ts t ≤ i64_MAX →
  i64_of_u64 (Trace_duration t) = tr_finish_ts t - tr_start_ts t.
Proof.
  unfold i64_MAX, i64_of_u64, Trace_duration, u64_wrap. intros H.
  rewrite (Z.mod_small (tr_finish_ts t - tr_start_ts t)) by lia.
  rewrite Z.mod_small by lia. lia.
Qed.

(** ** Runs *)

(** A task handed out between two times. *)
Definition started_in (t0 now : Z) (t : Task) : Prop :=
  match t with
  | TSplit t => t0 ≤ tr_start_ts (st_trace t) ≤ now
  | TSnark t => t0 ≤ tr_start_ts (sn_trace t) ≤ now
  | _ => True
  end.

(** The rows saved since the database was [db0]. *)
Definition costs_in (db0 db : Database) (most : Z) : Prop :=
  ∀ id r, db_prove_task db !! id = Some r → db_prove_task db0 !! id = None →
    0 ≤ pr_time_cost r ≤ most.

Record times (db0 : Database) (t0 now : Z) (ws : WorkerState) : Prop := {
  ti_started : Forall (started_in t0 now) (ws_inflight ws);
  ti_costs : costs_in db0 (ws_db ws) (now - t0)
}.

(** The clock readings of the turns, in order. *)
Fixpoint clock_from (now : Z) (tis : list TurnInput) : Prop :=
  match tis with
  | [] => now ≤ i64_MAX
  | ti :: tis => now ≤ ti_now_top ti ∧ ti_now_top ti ≤ ti_now_bottom ti ∧
                 clock_from (ti_now_bottom ti) tis
  end.
Fixpoint clock_end (now : Z) (tis : list TurnInput) : Z :=
  match tis with [] => now | ti :: tis => clock_end (ti_now_bottom ti) tis end.

Lemma clock_from_end now tis : clock_from now tis → now ≤ clock_end now tis ≤ i64_MAX.
Proof.
  revert now. induction tis as [|ti tis IH]; intros now; cbn; [lia|].
  intros (?&?&?%IH). lia.
Qed.

Section durations.
Context `{E : !External} `{J : !Json} `{C : !Client} `{HC : !KeepsStart C}.
Context (db0 : Database) (t0 : Z).

Lemma started_in_later now now' t : now ≤ now' → started_in t0 now t → started_in t0 now' t.
Proof. destruct t; cbn; lia. Qed.
Lemma costs_in_later db now now' :
  now ≤ now' → costs_in db0 db (now - t0) → costs_in db0 db (now' - t0).
Proof. intros Hn Hc id r Hr H0. specialize (Hc id r Hr H0). lia. Qed.
Lemma times_later now now' ws : now ≤ now' → times db0 t0 now ws → times db0 t0 now' ws.
Proof.
  intros Hn [Hs Hc]. split; [|by eapply costs_in_later].
  eapply Forall_impl; [done|]. intros t. by apply started_in_later.
Qed.

(** ** What is handed out starts now *)

Lemma get_task_started `{IsTask T} now (src : T) r src' :
  (∀ v (t : T), t_trace (t_with_trace v t) = v) →
  get_task now src = (Some r, src') → tr_start_ts (t_trace r) = now.
Proof.
  intros Hl. unfold get_task. destruct (is_ready_state _); [|done].
  intros [= <- _]. by rewrite Hl.
Qed.

Lemma spawn_tasks_started now s w tasks s' w' :
  t0 ≤ now → spawn_tasks now s w = Ret ((tasks, s'), w') → Forall (started_in t0 now) tasks.
Proof.
  intros Hn. unfold spawn_tasks. destruct (stage_step s).
  1-2,4,6: by intros [[= <- _] _]%M_mret_Ret.
  - destruct (get_split_task now s) as [sp s1] eqn:Hsp. intros H.
    assert (Forall (started_in t0 now) (option_list (TSplit <$> sp))) as Hsplit.
    { destruct sp as [t|]; [|constructor]. constructor; [|done]. cbn.
      unfold get_split_task in Hsp. destruct (get_task _ _) as [r t'] eqn:Hg.
      injection Hsp as -> _. apply get_task_started in Hg; [|done]. cbn in Hg. lia. }
    apply M_bind_Ret in H as (w1&w2&_&H).
    destruct (if Z.of_nat _ <? _ then _ else _) as [pr s2].
    apply M_bind_Ret in H as ([ag s3]&w3&_&[[= <- _] _]%M_mret_Ret).
    rewrite !Forall_app. split_and!; [done| |].
    + destruct pr; by repeat constructor.
    + destruct ag; by repeat constructor.
  - destruct (get_snark_task now s) as [sn s1] eqn:Hsn. intros [[= <- _] _]%M_mret_Ret.
    destruct sn as [t|]; [|constructor]. constructor; [|done]. cbn.
    unfold get_snark_task in Hsn. destruct (get_task _ _) as [r t'] eqn:Hg.
    injection Hsn as -> _. apply get_task_started in Hg; [|done]. cbn in Hg. lia.
Qed.

(** ** What is saved *)

Lemma on_task_trace `{IsTask T} now (src dst : T) err :
  (∀ v (t : T), t_trace (t_with_trace v t) = v) →
  (∀ v (t : T), t_state (t_with_trace v t) = t_state t) →
  let src' := (on_task now src dst err).1.1 in
  tr_start_ts (t_trace src') = tr_start_ts (t_trace src) ∧
  (finished_state (t_state src') = true → tr_finish_ts (t_trace src') = now).
Proof.
  intros Hv Hst. unfold on_task. destruct (is_reply_state _) eqn:Hr.
  - destruct (negb _) eqn:Hu; cbv beta iota zeta delta [fst snd].
    + split; [by rewrite Hv|intros _]. by rewrite !Hv.
    + split; [done|]. by apply negb_false_iff, Z.eqb_eq in Hu as <-.
  - split; [done|]. apply orb_false_iff in Hr as [Hr _]. cbn. unfold finished_state. by rewrite Hr.
Qed.

Lemma costs_in_save db r now :
  costs_in db0 db (now - t0) → 0 ≤ pr_time_cost r ≤ now - t0 →
  costs_in db0 (save_row db r) (now - t0).
Proof.
  intros Hc Hr. unfold save_row, insert_prove_task. destruct (negb _); [done|].
  destruct (db_prove_task db !! pr_id r) eqn:Hid; [done|].
  intros id r' Hr' H0. cbn in Hr'. apply lookup_insert_Some in Hr' as [[<- <-]|[_ Hr']]; [done|].
  by eapply Hc.
Qed.

Lemma saved_duration t now :
  0 ≤ t0 → now ≤ i64_MAX → t0 ≤ tr_start_ts t ≤ now → tr_finish_ts t = now →
  0 ≤ i64_of_u64 (Trace_duration t) ≤ now - t0.
Proof. intros H0 Hn Hs Hf. rewrite duration_exact; lia. Qed.

Lemma save_split_times now src dst err db :
  0 ≤ t0 → now ≤ i64_MAX → t0 ≤ tr_start_ts (st_trace src) ≤ now →
  costs_in db0 db (now - t0) →
  costs_in db0 (save_split (on_task now src dst err).1.1 db) (now - t0).
Proof.
  intros H0 Hn Hs Hc. unfold save_split. destruct (finished_state _) eqn:Hf; [|done].
  destruct (on_task_trace now src dst err) as [E1 E2]; [done..|]. cbn in E1, E2.
  apply costs_in_save; [done|]. cbn. apply saved_duration; [done..| |by apply E2].
  by rewrite E1.
Qed.

Lemma save_snark_times now src dst err db :
  0 ≤ t0 → now ≤ i64_MAX → t0 ≤ tr_start_ts (sn_trace src) ≤ now →
  costs_in db0 db (now - t0) →
  costs_in db0 (save_snark (on_task now src dst err).1.1 db) (now - t0).
Proof.
  intros H0 Hn Hs Hc. unfold save_snark. destruct (finished_state _) eqn:Hf; [|done].
  destruct (on_task_trace now src dst err) as [E1 E2]; [done..|]. cbn in E1, E2.
  apply costs_in_save; [done|]. cbn. apply saved_duration; [done..| |by apply E2].
  by rewrite E1.
Qed.

Lemma on_answer_times now t e r s db w s' db' w' :
  0 ≤ t0 → now ≤ i64_MAX → started_in t0 now t → answer t e = Some r →
  costs_in db0 db (now - t0) → on_answer now r s db w = Ret ((s', db'), w') →
  costs_in db0 db' (now - t0).
Proof.
  intros H0 Hn Ht Ha Hc. destruct t as [t|t|t|t], e as [e|e|e|e]; simplify_eq/=.
  - unfold on_split_task. destruct (on_task _ _ _ _) as [[d s1] err] eqn:Hon.
    intros [[= _ <-] _]%M_mret_Ret. change d with (d, s1, err).1.1. rewrite <-Hon.
    apply save_split_times; [done..| |done]. by rewrite split_start.
  - by intros [[= _ <-] _]%M_mret_Ret.
  - by intros ([d s1]&w1&_&[[= _ <-] _]%M_mret_Ret)%M_bind_Ret.
  - intros ([d s1]&w1&Hon&[[= _ <-] _]%M_mret_Ret)%M_bind_Ret.
    unfold on_snark_task in Hon. apply M_bind_Ret in Hon as (u&w2&_&Hon).
    destruct (on_task _ _ _ _) as [[d' s2] err] eqn:Ht'. apply M_mret_Ret in Hon as [[= <- _] _].
    change d' with (d', s2, err).1.1. rewrite <-Ht'.
    apply save_snark_times; [done..| |done]. by rewrite snark_start.
Qed.

(** ** The turns keep [times] *)

Lemma loop_top_times now ws w ws' w' :
  t0 ≤ now → times db0 t0 now ws → loop_top now ws w = Ret (ws', w') →
  times db0 t0 now ws'.
Proof.
  intros Hn [Hs Hc]. unfold loop_top.
  intros ([tasks s]&w1&Hsp&[<- _]%M_mret_Ret)%M_bind_Ret. split; [|done]. cbn.
  apply Forall_app. split; [done|]. by eapply spawn_tasks_started.
Qed.

Lemma take_event_times now ev ws w ws' w' :
  0 ≤ t0 → now ≤ i64_MAX → times db0 t0 now ws →
  take_event now ev ws w = Ret (Some ws', w') → times db0 t0 now ws'.
Proof.
  intros H0 Hn [Hs Hc]. unfold take_event. destruct ev as [|i e].
  - by intros [[= <-] _]%M_mret_Ret.
  - destruct (ws_inflight ws !! i) as [t|] eqn:Hi; cbn; [|by intros [? _]%M_mret_Ret].
    destruct (answer t e) as [r|] eqn:Ha; [|by intros [? _]%M_mret_Ret].
    intros ([s db]&w1&Hon&[[= <-] _]%M_mret_Ret)%M_bind_Ret. split; cbn.
    + by apply Forall_delete.
    + eapply on_answer_times; [done|done| |done..]. by eapply Forall_lookup_1.
Qed.

Lemma heartbeat_saved id now ws :
  db_prove_task (ws_db (heartbeat id now ws)) = db_prove_task (ws_db ws) ∧
  ws_inflight (heartbeat id now ws) = ws_inflight ws.
Proof.
  unfold heartbeat. destruct (_ || _); [|done]. cbn.
  destruct (update_stage_task_check_at _ _ _ _ _) as [[rows db]|] eqn:Hu; [|done].
  assert (db_prove_task db = db_prove_task (ws_db ws)) as E1.
  { unfold update_stage_task_check_at, online in Hu. by repeat case_match; simplify_eq/=. }
  by destruct (_ =? _).
Qed.

Lemma heartbeat_times id now ws :
  times db0 t0 now ws → times db0 t0 now (heartbeat id now ws).
Proof.
  destruct (heartbeat_saved id now ws) as [E1 E2]. intros [Hs Hc].
  split; [by rewrite E2|]. unfold costs_in. by rewrite E1.
Qed.

Lemma loop_turn_times feature id now ti ws w t w' :
  0 ≤ t0 ≤ now → now ≤ ti_now_top ti → ti_now_top ti ≤ ti_now_bottom ti →
  ti_now_bottom ti ≤ i64_MAX → times db0 t0 now ws →
  loop_turn feature id ti ws w = Ret (Some t, w') →
  times db0 t0 (ti_now_bottom ti) (turn_state t).
Proof.
  intros H0 H1 H2 H3 Ht. unfold loop_turn, loop_bottom.
  intros (u&w1&_&(ws1&w2&Htop&(u'&w3&_&(o&w4&Hev&H)%M_bind_Ret)%M_bind_Ret)%M_bind_Ret)%M_bind_Ret.
  apply loop_top_times in Htop; [|lia|by eapply times_later].
  destruct o as [ws2|]; [|by apply M_mret_Ret in H as [? _]].
  apply take_event_times in Hev; [|lia..|by eapply times_later].
  destruct (_ || _); [by apply M_mret_Ret in H as [[= <-] _]|].
  apply M_bind_Ret in H as (s&w5&_&[[= <-] _]%M_mret_Ret).
  apply heartbeat_times. by destruct Hev.
Qed.

Lemma run_loop_times feature id now tis ws w t w' :
  0 ≤ t0 ≤ now → clock_from now tis → times db0 t0 now ws →
  run_loop feature id tis ws w = Ret (Some t, w') →
  times db0 t0 (clock_end now tis) (turn_state t).
Proof.
  intros H0. revert now H0 ws w. induction tis as [|ti tis IH]; intros now H0 ws w; cbn.
  - by intros _ Ht [[= <-] _]%M_mret_Ret.
  - intros (H1&H2&Hck) Ht. pose proof (clock_from_end _ _ Hck) as He.
    intros ([[ws1|ws1]|]&w1&Hturn&H)%M_bind_Ret.
    + eapply loop_turn_times in Hturn; [|done|lia..|done].
      eapply IH; [|done| |done]; [lia|done].
    + eapply loop_turn_times in Hturn; [|done|lia..|done].
      apply M_mret_Ret in H as [[= <-] _]. eapply times_later, Hturn. lia.
    + by apply M_mret_Ret in H as [? _].
Qed.

End durations.

(** ** The theorem *)

Section saved.
Context `{E : !External} `{J : !Json} `{C : !Client} `{HC : !KeepsStart C}.

(** [C26] While the clock does not go back, every row of [prove_task] that a run saves counts a
    time between zero and the length of the run: neither the subtraction of
    [Trace::duration] nor its cast to [i64] wraps. *)
Theorem saved_rows_time feature task g t0 now' db w ws w1 id tis t w2 :
  loop_start feature task g t0 now' db w = Ret (ws, w1) →
  0 ≤ t0 → clock_from t0 tis →
  run_loop feature id tis ws w1 = Ret (Some t, w2) →
  ∀ row r, db_prove_task db !! row = None →
    db_prove_task (ws_db (turn_state t)) !! row = Some r →
    0 ≤ pr_time_cost r ≤ clock_end t0 tis - t0.
Proof.
  intros Hs H0 Hck Hrun row r Hnew Hr.
  apply (run_loop_times db t0 feature id t0 tis ws w1 t w2) in Hrun as [_ Hc];
    [by eapply Hc|lia|done|].
  unfold loop_start in Hs. apply M_bind_Ret in Hs as (s&w0&_&[<- _]%M_mret_Ret).
  split; [constructor|]. cbn. intros row' r' Hr' Hnew'. exfalso. revert Hr'.
  unfold update_stage_task_check_at, online. repeat case_match; simplify_eq/=; congruence.
Qed.

End saved.

(** ** The sample run *)

Definition time_costs (tis : list TurnInput) : list Z :=
  pr_time_cost <$> (map_to_list (db_prove_task (ws_db (ws_of tis)))).*2.

Example sample_time_costs : time_costs sample_turns = [0].
Proof. vm_compute. reflexivity. Qed.

(** What the sample run prints at its end, line by line. *)
Example sample_summary :
  Stage_fmt (ws_stage (ws_of sample_turns)) =
  "proof_id: " +:+ gt_proof_id sample_request +:+ crlf +:+
  " prove_id: u1 cost: 0 sec " +:+ crlf +:+ "prove_id: u2 cost: 0 sec" +:+ crlf +:+
  " agg_id: u65 cost: 0 sec" +:+ crlf +:+ " split_id: u0 cost: 0 sec" +:+ crlf +:+
  " snark_id:  cost: 0 sec" +:+ crlf.
Proof. vm_compute. reflexivity. Qed.

(** The split is handed out at 101 and answers at 99: the difference wraps around. *)
Example clock_back_wraps :
  time_costs [ {| ti_fs_top := sample_fs; ti_now_top := 101; ti_fs_bottom := sample_fs;
                  ti_now_bottom := 99;
                  ti_event := Answers 0 (ESplit (Replied "n0"
                    {| sr_result := sample_ok; sr_total_steps := 10;
                       sr_total_segments := 2 |})) |} ] = [-2].
Proof. vm_compute. reflexivity. Qed.

Lemma saved_rows_time_witness :
  ∃ row r, db_prove_task (ws_db (turn_state (Break (ws_of sample_turns)))) !! row = Some r ∧
    0 ≤ pr_time_cost r ≤ clock_end 100 sample_turns - 100.
Proof.
  assert (∃ x, head (map_to_list (db_prove_task (ws_db (ws_of sample_turns)))) = Some x)
    as [[row r] Hx] by (eexists; vm_compute; reflexivity).
  assert (db_prove_task (ws_db (ws_of sample_turns)) !! row = Some r) as Hr.
  { apply elem_of_map_to_list. destruct (map_to_list _) as [|y l]; [discriminate|].
    injection Hx as ->. by left. }
  exists row, r. split; [exact Hr|].
  refine (saved_rows_time feature_prover sample_task sample_request 100 100 sample_db
    sample_world (ws_of []) (w_of []) "id" sample_turns (Break (ws_of sample_turns))
    (w_of sample_turns) _ _ _ _ row r _ Hr).
  - vm_compute. reflexivity.
  - discriminate.
  - vm_compute. repeat split; discriminate.
  - vm_compute. reflexivity.
  - reflexivity.
Defined.
