(* ===== verification/UnitTests.v ===== *)
(** * UnitTests: the repository's own tests, run on the model

    The tests of [stage/tasks/agg_task.rs] and [stage/stage.rs] (feature "prover") as
    checks that evaluate to [true]; a panic is [false].  The general statements behind
    them are in AggGraph. *)

From S2P Require Import Prelude Text Proto World Tasks Stage.

#[local] Existing Instance Sample.external.

Definition test_world : World := Sample.world [] [].

(** What a computation returns in the empty world satisfies a check. *)
Definition returns {A} (m : M A) (check : A → bool) : bool :=
  match m test_world with Ret (a, _) => check a | Panic => false end.

(** ** agg_task.rs *)

Definition test_clear_child_task : bool :=
  let left_task_id := "test_id_1" in
  let right_task_id := "test_id_2" in
  let agg_task := AggTask_default <| at_state := TASK_STATE_UNPROCESSED |>
    <| at_childs := [Some left_task_id; Some right_task_id] |> in
  let agg_task := (clear_child_task left_task_id agg_task).2 in
  let agg_task := (clear_child_task right_task_id agg_task).2 in
  bool_decide (at_childs agg_task !! 0%nat = Some None) &&
  bool_decide (at_childs agg_task !! 1%nat = Some None).

Definition test_init_from_single_prove_task : bool :=
  let prove_task := ProveTask_default <| pt_file_no := 1 |> in
  at_state (init_from_single_prove_task prove_task 1) =? TASK_STATE_SUCCESS.

Definition test_init_from_two_prove_task : bool :=
  let left := ProveTask_default <| pt_file_no := 1 |>
    <| pt_output := [Byte.x01; Byte.x02; Byte.x03] |> in
  let right := ProveTask_default <| pt_file_no := 2 |>
    <| pt_output := [Byte.x03; Byte.x04; Byte.x05] |> in
  returns (init_from_two_prove_task left right 1)
    (λ t, at_state t =? TASK_STATE_UNPROCESSED).

Definition test_init_from_two_agg_task : bool :=
  let left := AggTask_default <| at_task_id := "1" |> in
  let right := AggTask_default <| at_task_id := "2" |> in
  returns (init_from_two_agg_task left right 1)
    (λ t, (at_state t =? TASK_STATE_UNPROCESSED) &&
          bool_decide (is_Some (mjoin (at_childs t !! 0%nat))) &&
          bool_decide (is_Some (mjoin (at_childs t !! 1%nat)))).

(** ** stage.rs *)

Definition GenerateTask_default : GenerateTask :=
  mkGenerateTask empty_str empty_str empty_str Zkm empty_str empty_str empty_str empty_str
    empty_str empty_str empty_str empty_str None 0 0 Init Init false false empty_str
    empty_str None.

Definition test_stage (n : nat) : Stage :=
  Stage_new GenerateTask_default <| stage_prove_tasks :=
    (λ i, ProveTask_default <| pt_output := [Byte.x01; Byte.x02; Byte.x03] |>
                            <| pt_file_no := Z.of_nat i |>) <$> seq 0 n |>.

Definition test_gen_agg_tasks : bool :=
  forallb (λ n, returns (gen_agg_tasks feature_prover (test_stage n))
                  (λ s, length (stage_agg_tasks s) <=? n)%nat) (seq 12 8).

(** ** All of them pass *)

Example tests_pass :
  test_clear_child_task && test_init_from_single_prove_task &&
  test_init_from_two_prove_task && test_init_from_two_agg_task && test_gen_agg_tasks = true.
Proof. vm_compute. reflexivity. Qed.
