(* ===== verification/RestartSample.v ===== *)
(** * RestartSample: a proof from its row to its final row

    The sample run as [run_stage_task] runs it, from the database's row: the context
    decodes to the request, the loop runs to its end, the row becomes final. *)

From S2P Require Import Prelude Text Proto World Tasks Stage AggGraph Database.
From S2P Require Import ProverPool ProverClient Worker TaskManager RunRows RunSample.

Definition restart_json : Json := {|
  split_to_json t := st_task_id t;
  snark_to_json t := sn_task_id t;
  generate_to_json g := gt_proof_id g;
  generate_from_json s := if decide (s = "id") then Some sample_request else None
|}.

Abbreviation restart_run :=
  (run_stage_task (J := restart_json) feature_prover sample_task 100 100 5 NoClient
    sample_turns sample_db sample_world).
Definition restart_db : Database :=
  match restart_run with Ret (Some db, _) => db | _ => sample_db end.
Definition restart_world : World :=
  match restart_run with Ret (_, w) => w | Panic => sample_world end.

(** A single-node proof, before its first step and after a restart in between; a context
    that does not decode. *)
Definition single_json : Json := {|
  split_to_json t := st_task_id t;
  snark_to_json t := sn_task_id t;
  generate_to_json g := gt_proof_id g;
  generate_from_json s := if decide (s = "id")
    then Some (GenerateTask_new Zkm "elf" "id" "p" "p/elf" "p/segment" "p/prove" "p/aggregate"
           "p/snark" empty_str empty_str empty_str (Some 0) 65536 2 Init Agg true false
           empty_str empty_str)
    else None
|}.
Definition row_db (t : StageTask) : Database :=
  mkDatabase {[ "id" := ("0xab", t) ]} ∅ ∅ true.
Definition begun_task : StageTask := sample_task <| stg_step := Step_i32 Prove |>.
Definition unread_task : StageTask := sample_task <| stg_context := Some "?" |>.
Abbreviation single_run t :=
  (run_stage_task (J := single_json) feature_prover t 100 100 5 NoClient [] (row_db t) sample_world).
Definition single_db (t : StageTask) : Database :=
  match single_run t with Ret (Some db, _) => db | _ => row_db t end.
Definition single_world (t : StageTask) : World :=
  match single_run t with Ret (_, w) => w | Panic => sample_world end.

