(* ===== verification/RunThms.v ===== *)
(** * RunThms: what holds of every run of a stage task

    Theorems about [run_stage_task], for any prover client that answers about the
    task it was asked for, any file contents, any clock and any order of answers. *)

From S2P Require Import Prelude Text Proto World Tasks Stage AggGraph StageInv StageGen.
From S2P Require Import StageOps AggCover StageSteps Database ProverPool ProverClient Worker.
From S2P Require Import WorkerInv WorkerRun SegmentRun Receipts ReceiptRun RunSample.

Section run_thms.
Context `{E : !External} `{J : !Json} `{C : !Client}.

(** ** Handing out tasks never fails *)

(** The tasks handed out in the proving step, getter by getter. *)
Lemma spawn_tasks_prove now s w :
  stage_step s = Prove → stage_inv s w →
  let max := gt_max_prover_num (stage_generate_task s) in
  let '(sp, s1) := get_split_task now s in
  let '(pr, s2) := if Z.of_nat (count_processing_prove_tasks s1) <? max
                   then get_prove_task (w_fs w) now s1 else (None, s1) in
  ∃ ag s3,
    (if stage_is_tasks_gen_done s2 && (Z.of_nat (count_unfinished_prove_tasks s2) <? max)
     then get_agg_task now s2 = Ret (ag, s3) else ag = None ∧ s3 = s2) ∧
    stage_inv s2 w ∧
    spawn_tasks now s w =
      Ret ((option_list (TSplit <$> sp) ++ option_list (TProve <$> pr) ++
            option_list (TAgg <$> ag), s3), w).
Proof.
  intros Hst Hi. unfold spawn_tasks. rewrite Hst. cbv zeta.
  destruct (get_split_task_later now s) as (HL&EP&ET&_).
  assert (stage_inv (get_split_task now s).2 w) as Hi1.
  { eapply stage_inv_ext; [done..|apply HL|done]. }
  destruct (get_split_task now s) as [sp s1]. cbn [snd] in *.
  set (max := gt_max_prover_num _).
  set (b := Z.of_nat (count_processing_prove_tasks s1) <? max).
  assert (stage_inv (if b then get_prove_task (w_fs w) now s1 else (None, s1)).2 w) as Hi2.
  { destruct b; [by apply get_prove_task_inv|done]. }
  assert (∀ A (k : World → M A), (get_world ≫= k) w = k w w) as Hgw by done.
  rewrite Hgw. fold b. destruct (if b then _ else _) as [pr s2]. cbn [snd] in *.
  destruct (_ && _).
  - destruct (get_agg_task_supplied now s2 w Hi2) as (ag&s3&Hag&_).
    exists ag, s3. split_and!; [done..|].
    unfold mbind, M_bind, lift. by rewrite Hag.
  - exists None, s2. by split_and!.
Qed.

Lemma spawn_tasks_total now s w :
  stage_inv s w → ∃ tasks s', spawn_tasks now s w = Ret ((tasks, s'), w).
Proof.
  intros Hi. destruct (decide (stage_step s = Prove)) as [Hst|Hst].
  - pose proof (spawn_tasks_prove now s w Hst Hi) as Hp. cbv zeta in Hp.
    destruct (get_split_task now s) as [sp s1].
    destruct (if _ <? _ then _ else _) as [pr s2]. destruct Hp as (ag&s3&_&_&->). eauto.
  - unfold spawn_tasks. destruct (stage_step s); try done; try by eexists _, _.
    destruct (get_snark_task now s). by eexists _, _.
Qed.

Lemma spawn_tasks_agg now s w tasks s' w' t :
  stage_inv s w → spawn_tasks now s w = Ret ((tasks, s'), w') → TAgg t ∈ tasks →
  at_state t = TASK_STATE_PROCESSING ∧
  Forall (supplied (stage_prove_tasks s') (stage_agg_tasks s')) (at_inputs t).
Proof.
  intros Hi. destruct (decide (stage_step s = Prove)) as [Hst|Hst].
  - pose proof (spawn_tasks_prove now s w Hst Hi) as Hp. cbv zeta in Hp.
    destruct (get_split_task now s) as [sp s1].
    destruct (if _ <? _ then _ else _) as [pr s2]. destruct Hp as (ag&s3&Hag&Hi2&->).
    intros [= <- <- <-] Hin.
    assert (ag = Some t) as ->.
    { destruct sp, pr, ag; simpl in Hin; set_solver. }
    destruct (_ && _); [|by destruct Hag].
    destruct (get_agg_task_supplied now s2 w Hi2) as (r&s4&Hg&Hr).
    rewrite Hg in Hag. injection Hag as -> ->.
    destruct Hr as (t0&_&_&_&_&?&_&Hsup). split; [done|].
    destruct (get_agg_task_later now s2 _ _ Hg) as (_&->&_). done.
  - unfold spawn_tasks. destruct (stage_step s); try done;
      try by intros [= <- <- <-] ?%elem_of_nil.
    destruct (get_snark_task now s) as [[sn|] s1]; intros [= <- <- <-]; set_solver.
Qed.

(** ** The proving step ends when everything is done *)

Definition unfinished (s : Stage) : Prop :=
  stage_step s ≠ Init ∧
  (stage_step s = Prove → stage_is_tasks_gen_done s = true → ¬ all_done s).

Lemma finish_prove_unfinished s w s' w' :
  stage_step s = Prove → finish_prove s w = Ret (s', w') → unfinished s'.
Proof.
  intros Hst Hf. pose proof (finish_prove_cases _ _ _ _ Hf) as [_ Hc].
  unfold unfinished. destruct Hc as [->|(_&_&[(->&_)|(->&_)])]; [|by split..].
  split; [by rewrite Hst|]. intros _ _ [Hg Hp Ha]. revert Hf.
  unfold finish_prove. rewrite Hg, (proj2 (all_prove_success_true s) Hp). simpl.
  destruct (gt_composite_proof (stage_generate_task s)) eqn:Hc.
  { intros [Hs _]%M_mret_Ret. apply (f_equal stage_step) in Hs. simpl in Hs. congruence. }
  destruct Ha as [|Ha]; [congruence|]. rewrite (proj2 (all_agg_success_true s) Ha).
  case_decide.
  { intros [Hs _]%M_mret_Ret. apply (f_equal stage_step) in Hs. simpl in Hs. congruence. }
  intros (s1&w1&_&[Hs _]%M_mret_Ret)%M_bind_Ret.
  apply (f_equal stage_step) in Hs. simpl in Hs. congruence.
Qed.

Lemma dispatch_unfinished feature s w s' w' :
  (stage_step s = Init → stage_is_tasks_gen_done s = false) →
  dispatch feature s w = Ret (s', w') → unfinished s'.
Proof.
  intros Hinit. unfold dispatch. destruct (stage_step s) eqn:Hst.
  - intros (s1&w1&H1&[<- <-]%M_mret_Ret)%M_bind_Ret. unfold gen_split_task in H1.
    apply M_bind_Ret in H1 as (u&w2&_&H1).
    apply M_bind_Ret in H1 as (id&w3&_&[<- <-]%M_mret_Ret).
    split; [done|]. simpl. by rewrite Hinit.
  - intros [<- <-]%M_mret_Ret. unfold unfinished. by rewrite Hst.
  - unfold dispatch_prove. intros (s1&w1&H1%gen_prove_task_keeps&H)%M_bind_Ret.
    pose proof (ke_step _ _ H1) as E1. rewrite Hst in E1.
    destruct (_ && _); [|by eapply finish_prove_unfinished].
    case_decide; [by apply M_mret_Ret in H as [<- <-]|].
    apply M_bind_Ret in H as (s2&w2&H2%on_split_done_keeps&H).
    eapply finish_prove_unfinished; [|done]. by rewrite (ke_step _ _ H2).
  - intros (u&w1&_&H)%M_bind_Ret.
    by apply M_bind_Ret in H as (s1&w2&_&[<- <-]%M_mret_Ret).
  - intros [<- <-]%M_mret_Ret. case_match; [done|]. unfold unfinished. by rewrite Hst.
  - intros [<- <-]%M_mret_Ret. unfold unfinished. by rewrite Hst.
Qed.

(** Getters and answers keep the step. *)
Lemma spawn_tasks_step now s w tasks s' w' :
  spawn_tasks now s w = Ret ((tasks, s'), w') → stage_step s' = stage_step s.
Proof.
  unfold spawn_tasks. destruct (stage_step s) eqn:Hst.
  1-2,4,6: by intros [[= <- <-] <-]%M_mret_Ret.
  - destruct (get_split_task_later now s) as (HL&_).
    destruct (get_split_task now s) as [sp s1]. cbn [snd] in HL.
    intros (w1&w1'&_&H)%M_bind_Ret.
    assert (stage_step (if Z.of_nat (count_processing_prove_tasks s1) <?
        gt_max_prover_num (stage_generate_task s)
      then get_prove_task (w_fs w1) now s1 else (None, s1)).2 = Prove) as E2.
    { rewrite <-Hst, <-(sl_step _ _ HL). destruct (_ <? _); [|done].
      by destruct (get_prove_task_later (w_fs w1) now s1) as ([]&_). }
    destruct (if _ <? _ then _ else _) as [pr s2]. cbn [snd] in E2.
    apply M_bind_Ret in H as ([ag s3]&w3&H3&[[= <- <-] <-]%M_mret_Ret).
    destruct (_ && _); [|by apply M_mret_Ret in H3 as [[= <- <-] <-]].
    apply lift_Ret in H3 as [H3 <-].
    destruct (get_agg_task_later _ _ _ _ H3) as ([]&_). congruence.
  - unfold get_snark_task. destruct (get_task _ _) as [r t].
    intros [[= <- <-] <-]%M_mret_Ret. by rewrite <-Hst.
Qed.

Lemma on_answer_step now r s db w s' db' w' :
  on_answer now r s db w = Ret ((s', db'), w') → stage_step s' = stage_step s.
Proof.
  destruct r as [r|r|r|r]; simpl.
  - destruct (on_split_task_later now r s) as ([]&_).
    destruct (on_split_task now r s). by intros [[= <- <-] <-]%M_mret_Ret.
  - intros [[= <- <-] <-]%M_mret_Ret. by destruct (on_prove_task_later now r s) as ([]&_).
  - intros ([d s1]&w1&(_&_&_&?&_)%on_agg_task_run&[[= <- <-] <-]%M_mret_Ret)%M_bind_Ret. done.
  - intros ([d s1]&w1&Hon&[[= <- <-] <-]%M_mret_Ret)%M_bind_Ret.
    unfold on_snark_task in Hon. apply M_bind_Ret in Hon as (u&w2&_&Hon).
    destruct (on_task _ _ _ _) as [[src dst] err]. by apply M_mret_Ret in Hon as [[= <- <-] <-].
Qed.

Lemma take_event_step now ev ws w ws' w' :
  take_event now ev ws w = Ret (Some ws', w') →
  stage_step (ws_stage ws') = stage_step (ws_stage ws).
Proof.
  destruct ev as [|i e]; simpl; [by intros [[= <-] <-]%M_mret_Ret|].
  destruct (_ ≫= _) as [r|]; [|by intros [[=] _]%M_mret_Ret].
  intros ([s1 db1]&w1&Ho%on_answer_step&[[= <-] <-]%M_mret_Ret)%M_bind_Ret. done.
Qed.

Lemma loop_turn_unfinished feature id ti ws w ws' w' :
  stage_step (ws_stage ws) ≠ Init →
  loop_turn feature id ti ws w = Ret (Some (Continue ws'), w') → unfinished (ws_stage ws').
Proof.
  intros Hs. unfold loop_turn. intros (u&w1&_&H)%M_bind_Ret.
  apply M_bind_Ret in H as (ws1&w2&Htop&H). apply M_bind_Ret in H as (u'&w3&_&H).
  unfold loop_top in Htop.
  apply M_bind_Ret in Htop as ([tasks s1]&w4&Hsp%spawn_tasks_step&[<- <-]%M_mret_Ret).
  unfold loop_bottom in H. apply M_bind_Ret in H as ([ws2|]&w5&He&H);
    [|by apply M_mret_Ret in H as [[=] _]].
  apply take_event_step in He. simpl in He. destruct (_ || _); [by apply M_mret_Ret in H as [[=] _]|].
  apply M_bind_Ret in H as (s5&w6&Hd&[[= <-] <-]%M_mret_Ret).
  destruct (heartbeat_stage id (ti_now_bottom ti) (ws2 <| ws_stage := s5 |>)) as [E1 _].
  simpl in *. rewrite E1. eapply dispatch_unfinished; [|done]. intros Hi. congruence.
Qed.

Lemma loop_reaches_unfinished feature task g allowed ws w :
  loop_reaches feature task g allowed ws w → unfinished (ws_stage ws).
Proof.
  induction 1 as [now now' db w ws w' Hst|ti ws w ws' w' _ [IH _] _ Ht].
  - unfold loop_start in Hst. apply M_bind_Ret in Hst as (s&w1&Hd&[<- <-]%M_mret_Ret).
    simpl. by eapply dispatch_unfinished; [|exact Hd].
  - by eapply loop_turn_unfinished.
Qed.

Lemma count_filter_zero {A} (Q : A → Prop) `{!∀ x, Decision (Q x)} l :
  (∀ x, x ∈ l → ¬ Q x) → length (filter Q l) = 0%nat.
Proof.
  intros HQ. destruct (filter Q l) as [|x k] eqn:Hf; [done|].
  assert (x ∈ filter Q l) as [Hx Hin]%list_elem_of_filter by (rewrite Hf; by left).
  by destruct (HQ x).
Qed.

Lemma find_first_is_Some {A} test (l : list A) x :
  x ∈ l → test x = true → is_Some (find_first test l).
Proof.
  intros Hx Ht. destruct (find_first test l) eqn:Hf; [by eexists|].
  apply find_first_None in Hf. eapply Forall_forall in Hf; [|done]. congruence.
Qed.

Lemma update_first_none {A} test f (l : list A) :
  (∀ x, x ∈ l → test x = false) → update_first test f l = l.
Proof.
  intros Ht. destruct (update_first_split test f l) as [[Hu _]|(l1&x&l2&Hl&Hx&_&_)]; [done|].
  rewrite Ht in Hx; [done|]. rewrite Hl. set_solver.
Qed.

(** With nothing out and room for a proof, the prove task to hand out is sought. *)
Lemma spawn_settled now s w :
  stage_inv s w → stage_step s = Prove → settledS s [] →
  0 < gt_max_prover_num (stage_generate_task s) →
  let test := λ p, is_ready_state (pt_state p) && fs_exists (w_fs w) (pt_segment p) in
  ∃ s1, stage_later s s1 ∧ stage_prove_tasks s1 = stage_prove_tasks s ∧
    stage_agg_tasks s1 = stage_agg_tasks s ∧
    let s2 := s1 <| stage_prove_tasks := update_first test (dispatched_prove now)
                                           (stage_prove_tasks s) |> in
    ∃ ag s3 sp,
      (if stage_is_tasks_gen_done s2 &&
            (Z.of_nat (count_unfinished_prove_tasks s2) <?
               gt_max_prover_num (stage_generate_task s))
       then get_agg_task now s2 = Ret (ag, s3) else ag = None ∧ s3 = s2) ∧
      spawn_tasks now s w =
        Ret ((sp ++ option_list (TProve <$> (dispatched_prove now <$>
                find_first test (stage_prove_tasks s))) ++ option_list (TAgg <$> ag), s3), w).
Proof.
  intros Hi Hst [Hsp _] Hmax test.
  pose proof (spawn_tasks_prove now s w Hst Hi) as Hp. cbv zeta in Hp.
  destruct (get_split_task_later now s) as (HL&EP&ET&_).
  destruct (get_split_task now s) as [sp s1]. cbn [snd] in *.
  assert (count_processing_prove_tasks s1 = 0%nat) as Hcp.
  { apply count_filter_zero. rewrite EP. intros p Hin Hpr.
    by apply (Hsp p Hin), elem_of_nil in Hpr. }
  rewrite Hcp in Hp. change (Z.of_nat 0) with 0 in Hp.
  rewrite (proj2 (Z.ltb_lt _ _) Hmax) in Hp.
  unfold get_prove_task in Hp. rewrite pick_prove_update, EP in Hp. fold test in Hp.
  exists s1. split_and!; [done..|]. cbv zeta.
  destruct Hp as (ag&s3&Hag&_&Hrun). exists ag, s3, (option_list (TSplit <$> sp)).
  by split.
Qed.

(** Something is handed out when nothing is out and a prove task is left to do... *)
Lemma spawn_prove_progress now s w :
  stage_inv s w → stage_step s = Prove → settledS s [] →
  0 < gt_max_prover_num (stage_generate_task s) →
  (∀ p, p ∈ stage_prove_tasks s → pt_state p ≠ TASK_STATE_SUCCESS →
     fs_exists (w_fs w) (pt_segment p) = true) →
  ¬ Forall (λ p, pt_state p = TASK_STATE_SUCCESS) (stage_prove_tasks s) →
  ∃ tasks s', spawn_tasks now s w = Ret ((tasks, s'), w) ∧ tasks ≠ [].
Proof.
  intros Hi Hst Hse Hmax Hseg HPn.
  destruct (spawn_settled now s w Hi Hst Hse Hmax) as (s1&_&_&_&ag&s3&sp&_&Hrun).
  destruct (list_first_not (λ p, pt_state p = TASK_STATE_SUCCESS) _ HPn)
    as (k&p&Hk%list_elem_of_lookup_2&Hps&_).
  destruct (find_first_is_Some (λ p, is_ready_state (pt_state p) &&
      fs_exists (w_fs w) (pt_segment p)) (stage_prove_tasks s) p Hk) as [q Hq].
  { simpl. rewrite Hseg by done. rewrite andb_true_r. apply valid_ready; [|done|].
    - exact (proj1 (Forall_forall _ _) (si_pt_states _ _ Hi) p Hk).
    - intros Hpr. destruct Hse as [Hsp _]. by apply (Hsp p Hk), elem_of_nil in Hpr. }
  rewrite Hq in Hrun. eexists _, _. split; [exact Hrun|]. by destruct sp.
Qed.

(** ... or all prove tasks are done and an aggregation is left. *)
Lemma spawn_agg_progress now s w :
  stage_inv s w → stage_step s = Prove → stage_is_tasks_gen_done s = true → settledS s [] →
  0 < gt_max_prover_num (stage_generate_task s) →
  Forall (λ p, pt_state p = TASK_STATE_SUCCESS) (stage_prove_tasks s) →
  ¬ Forall (λ t, at_state t = TASK_STATE_SUCCESS) (stage_agg_tasks s) →
  ∃ tasks s', spawn_tasks now s w = Ret ((tasks, s'), w) ∧ tasks ≠ [].
Proof.
  intros Hi Hst Hg Hse Hmax HPs HTn.
  destruct (spawn_settled now s w Hi Hst Hse Hmax) as (s1&HL&EP&ET&ag&s3&sp&Hag&Hrun).
  assert (∀ p, p ∈ stage_prove_tasks s →
    is_ready_state (pt_state p) && fs_exists (w_fs w) (pt_segment p) = false) as Htest.
  { intros p Hin. eapply Forall_forall in HPs; [|done]. by rewrite HPs. }
  rewrite (update_first_none _ _ _ Htest) in Hag.
  assert (∀ s2, stage_prove_tasks s2 = stage_prove_tasks s →
    count_unfinished_prove_tasks s2 = 0%nat) as Hcu.
  { intros s2 E2. apply count_filter_zero. rewrite E2. intros p Hin Hne. apply Hne.
    by eapply Forall_forall in HPs. }
  rewrite Hcu in Hag by done. change (Z.of_nat 0) with 0 in Hag.
  rewrite (proj2 (Z.ltb_lt _ _) Hmax) in Hag. cbn in Hag. rewrite (sl_gen _ _ HL), Hg in Hag.
  destruct (first_unfinished_ready _ _ (si_graph _ _ Hi) HPs HTn) as (t&Ht&Hts&Htc).
  destruct (get_agg_task_later _ _ _ _ Hag) as (_&_&_&_&Hr). simpl in Hr. rewrite ET in Hr.
  destruct (find_first_is_Some (λ t, negb (has_child t) && is_ready_state (at_state t))
    (stage_agg_tasks s) t Ht) as [u Hu].
  { rewrite (proj2 (has_child_false t) Htc). simpl. apply valid_ready; [|done|].
    - exact (proj1 (Forall_forall _ _) (si_at_states _ _ Hi) t Ht).
    - intros Hpr. destruct Hse as [_ Hsa]. by apply (Hsa t Ht), elem_of_nil in Hpr. }
  eexists _, _. split; [exact Hrun|]. destruct ag as [ag|]; [|congruence].
  intros [_ [_ ?]%app_nil]%app_nil. done.
Qed.

Lemma spawn_tasks_progress now s w :
  stage_inv s w → stage_step s = Prove → stage_is_tasks_gen_done s = true →
  ¬ all_done s → settledS s [] → 0 < gt_max_prover_num (stage_generate_task s) →
  (∀ p, p ∈ stage_prove_tasks s → pt_state p ≠ TASK_STATE_SUCCESS →
     fs_exists (w_fs w) (pt_segment p) = true) →
  ∃ tasks s', spawn_tasks now s w = Ret ((tasks, s'), w) ∧ tasks ≠ [].
Proof.
  intros Hi Hst Hg Hnd Hse Hmax Hseg.
  destruct (decide (Forall (λ p, pt_state p = TASK_STATE_SUCCESS) (stage_prove_tasks s)))
    as [HPs|HPn]; [|by eapply spawn_prove_progress].
  eapply spawn_agg_progress; try done. intros HT. apply Hnd. split; auto.
Qed.

Lemma run_loop_break `{F : !UuidFresh} feature id tis g ws w ws' w' :
  run_inv g (ws_stage ws) (ws_inflight ws) w →
  run_loop feature id tis ws w = Ret (Some (Break ws'), w') →
  run_inv g (ws_stage ws') (ws_inflight ws') w' ∧
  is_success (ws_stage ws') || is_error (ws_stage ws') = true.
Proof.
  revert ws w. induction tis as [|ti tis IH]; intros ws w Hr; simpl;
    [by intros [[=] _]%M_mret_Ret|].
  intros ([t|]&w1&Ht&H)%M_bind_Ret; [|by apply M_mret_Ret in H as [[=] _]].
  destruct (loop_turn_inv _ _ _ _ _ _ _ _ Hr Ht) as (Hr1&_&He).
  destruct t as [ws1|ws1]; [by eapply IH|].
  by apply M_mret_Ret in H as [[= <-] <-].
Qed.

Lemma reaches_inv `{F : !UuidFresh} feature task g allowed ws w :
  gt_from_step g = Init → loop_reaches feature task g allowed ws w →
  run_inv g (ws_stage ws) (ws_inflight ws) w ∧
  ((∀ ti, allowed ti → turn_settles ti) → settledS (ws_stage ws) (ws_inflight ws)).
Proof. intros Hf. apply loop_reaches_inv; by rewrite Hf. Qed.

(** [C2] A run that ends without an error is complete: when the loop of a
    proof that starts at Init and targets more than the split breaks and the stage
    has no error, every prove task has succeeded and, unless a composite proof was
    asked for, so has every aggregation task.  This holds for every sequence of
    answers, ticks and file changes. *)
Theorem run_success_complete `{F : !UuidFresh} feature task g now now' db w ws0 w0 tis ws w' :
  gt_from_step g = Init → gt_target_step g ≠ Split →
  loop_start feature task g now now' db w = Ret (ws0, w0) →
  run_loop feature (stg_id task) tis ws0 w0 = Ret (Some (Break ws), w') →
  is_error (ws_stage ws) = false →
  all_done (ws_stage ws).
Proof.
  intros Hf Ht Hs Hl He.
  destruct (loop_start_inv feature task g now now' db w ws0 w0) as [Hr _]; try by rewrite ?Hf.
  destruct (run_loop_break _ _ _ _ _ _ _ _ Hr Hl) as [[Hreq _ _ Hc Hsn _] Hb].
  rewrite He, orb_false_r in Hb.
  assert (final_step (ws_stage ws)) as Hfin.
  { apply orb_true_iff in Hb as [Hb%bool_decide_eq_true|Hb%Z.eqb_eq]; [by right|].
    apply Hsn. by rewrite Hb. }
  destruct (Hc Hfin) as [Ha|[Ha|Ha]]; [..|done]; exfalso; congruence.
Qed.

(** [C9] In every reachable state of a run, handing out tasks returns (no
    [unwrap] of a missing producer, no index fails), and every aggregation task that
    goes out is marked as processing and carries, in each of its inputs, the output
    of the task that computes that input, which has succeeded. *)
Theorem run_dispatch_supplied `{F : !UuidFresh} feature task g allowed ws w now :
  gt_from_step g = Init → loop_reaches feature task g allowed ws w →
  ∃ tasks s', spawn_tasks now (ws_stage ws) w = Ret ((tasks, s'), w) ∧
    ∀ t, TAgg t ∈ tasks →
      at_state t = TASK_STATE_PROCESSING ∧
      Forall (supplied (stage_prove_tasks s') (stage_agg_tasks s')) (at_inputs t).
Proof.
  intros Hf [[_ Hi _ _ _ _] _]%reaches_inv; [|done].
  destruct (spawn_tasks_total now (ws_stage ws) w Hi) as (tasks&s'&Hs).
  exists tasks, s'. split; [done|]. intros t. by eapply spawn_tasks_agg.
Qed.

(** [C17] In every reachable state of a run, no task is out twice:
    the ids of the prove tasks in flight differ, so do those of the aggregation
    tasks, and a stored task whose id is in flight is being processed (so no getter
    hands it out again). *)
Theorem run_no_double_dispatch `{F : !UuidFresh} feature task g allowed ws w :
  gt_from_step g = Init → loop_reaches feature task g allowed ws w →
  NoDup (prove_ids (ws_inflight ws)) ∧ NoDup (agg_ids (ws_inflight ws)) ∧
  (∀ p, p ∈ stage_prove_tasks (ws_stage ws) → pt_task_id p ∈ prove_ids (ws_inflight ws) →
     pt_state p = TASK_STATE_PROCESSING) ∧
  (∀ t, t ∈ stage_agg_tasks (ws_stage ws) → at_task_id t ∈ agg_ids (ws_inflight ws) →
     at_state t = TASK_STATE_PROCESSING).
Proof.
  intros Hf [[_ Hi [Hn1 Hp Hn2 Ha] _ _ _] _]%reaches_inv; [|done].
  split_and!; [done..| |].
  - intros p Hin Hid. by apply (Hp _ Hid).
  - intros t Hin (u&Hu&Hid&Hst)%Ha. assert (u = t) as <-; [|done].
    eapply NoDup_fmap_inj_elem; [apply (si_graph _ _ Hi)|done..].
Qed.

(** A settled run in the proving step hands out a task. *)
Lemma settled_run_progress `{F : !UuidFresh} feature task g allowed ws w now :
  (∀ ti, allowed ti → turn_settles ti) →
  gt_from_step g = Init → 0 < gt_max_prover_num g →
  loop_reaches feature task g allowed ws w →
  stage_step (ws_stage ws) = Prove → stage_is_tasks_gen_done (ws_stage ws) = true →
  ws_inflight ws = [] →
  (∀ p, p ∈ stage_prove_tasks (ws_stage ws) → pt_state p ≠ TASK_STATE_SUCCESS →
     fs_exists (w_fs w) (pt_segment p) = true) →
  ∃ tasks s', spawn_tasks now (ws_stage ws) w = Ret ((tasks, s'), w) ∧ tasks ≠ [].
Proof.
  intros Hal Hf Hmax Hr Hst Hg Hl Hseg.
  pose proof (loop_reaches_unfinished _ _ _ _ _ _ Hr) as [_ Hu].
  apply reaches_inv in Hr as [[Hreq Hi _ _ _ _] Hset]; [|done].
  apply spawn_tasks_progress; auto; [|by rewrite Hreq].
  rewrite <-Hl. auto.
Qed.


End run_thms.

(** ** Witnesses: the sample run *)

Definition sample_turn_no (n : nat) : TurnInput :=
  default (sample_turn 0 Tick) (sample_turns !! n).

Lemma sample_settles n : turn_settles (sample_turn_no n).
Proof.
  assert (Forall turn_settles sample_turns) as HF.
  { unfold sample_turns. repeat constructor; simpl; try done.
    all: intros [t|t|t|t] r; simpl; intros [=]; subst; reflexivity. }
  unfold sample_turn_no. destruct (sample_turns !! n) eqn:Hn; simpl; [|done].
  by eapply Forall_lookup_1 in HF.
Qed.

Lemma sample_reaches_0 :
  loop_reaches feature_prover sample_task sample_request turn_settles
    (sample_ws 0) (sample_w 0).
Proof. apply (reach_start _ _ _ _ 100 100 sample_db sample_world). vm_compute. reflexivity. Qed.

Lemma sample_reaches_S n :
  loop_turn feature_prover "id" (sample_turn_no n) (sample_ws n) (sample_w n) =
    Ret (Some (Continue (sample_ws (S n))), sample_w (S n)) →
  loop_reaches feature_prover sample_task sample_request turn_settles
    (sample_ws n) (sample_w n) →
  loop_reaches feature_prover sample_task sample_request turn_settles
    (sample_ws (S n)) (sample_w (S n)).
Proof. intros Ht Hr. by eapply reach_turn; [|apply sample_settles|]. Qed.

(** The state after the split and the first segment. *)
Lemma sample_reaches_2 :
  loop_reaches feature_prover sample_task sample_request turn_settles
    (sample_ws 2) (sample_w 2).
Proof.
  do 2 (apply sample_reaches_S; [vm_compute; reflexivity|]). apply sample_reaches_0.
Qed.
(** The state in which only the aggregation is left. *)
Lemma sample_reaches_3 :
  loop_reaches feature_prover sample_task sample_request turn_settles
    (sample_ws 3) (sample_w 3).
Proof. apply sample_reaches_S; [vm_compute; reflexivity|]. apply sample_reaches_2. Qed.

Lemma sample_start_eq :
  loop_start feature_prover sample_task sample_request 100 100 sample_db sample_world =
    Ret (sample_ws 0, sample_w 0).
Proof. vm_compute. reflexivity. Qed.
Lemma sample_break :
  run_loop feature_prover (stg_id sample_task) sample_turns (sample_ws 0) (sample_w 0) =
    Ret (Some (Break (sample_ws 5)), sample_w 5).
Proof. vm_compute. reflexivity. Qed.
Lemma sample_no_error : is_error (ws_stage (sample_ws 5)) = false.
Proof. vm_compute. reflexivity. Qed.

Lemma run_success_complete_witness : all_done (ws_stage (sample_ws 5)).
Proof.
  apply (run_success_complete feature_prover sample_task sample_request 100 100 sample_db
    sample_world (sample_ws 0) (sample_w 0) sample_turns (sample_ws 5) (sample_w 5));
    [reflexivity|discriminate|exact sample_start_eq|exact sample_break|
     exact sample_no_error].
Defined.

Lemma run_dispatch_supplied_witness :
  ∃ tasks s', spawn_tasks 200 (ws_stage (sample_ws 3)) (sample_w 3) =
      Ret ((tasks, s'), sample_w 3) ∧
    ∀ t, TAgg t ∈ tasks →
      at_state t = TASK_STATE_PROCESSING ∧
      Forall (supplied (stage_prove_tasks s') (stage_agg_tasks s')) (at_inputs t).
Proof.
  exact (run_dispatch_supplied feature_prover sample_task sample_request turn_settles
    (sample_ws 3) (sample_w 3) 200 eq_refl sample_reaches_3).
Defined.

Lemma run_no_double_dispatch_witness : NoDup (prove_ids (ws_inflight (sample_ws 2))).
Proof.
  exact (proj1 (run_no_double_dispatch feature_prover sample_task sample_request
    turn_settles (sample_ws 2) (sample_w 2) eq_refl sample_reaches_2)).
Defined.


Lemma sample_turn_3 :
  loop_turn feature_prover (stg_id sample_task) (sample_turn_no 3) (sample_ws 3)
    (sample_w 3) = Ret (Some (Continue (sample_ws 4)), sample_w 4).
Proof. vm_compute. reflexivity. Qed.

Lemma run_segments_witness :
  let s := ws_stage (turn_state (Continue (sample_ws 4))) in
  ∃ segs defs, stage_prove_tasks s = segs ++ defs ∧
    (∀ k p, segs !! k = Some p →
       pt_file_no p = Z.of_nat k ∧
       pt_segment p = gt_seg_path sample_request +:+ "/" +:+ pretty (Z.of_nat k)) ∧
    (defs ≠ [] → stage_is_tasks_gen_done s = true) ∧
    Forall (λ p, pt_is_deferred p = true) defs ∧
    (stage_is_tasks_gen_done s = true →
       len segs = Z.max 0 (st_total_segments (stage_split_task s))).
Proof.
  exact (run_segments feature_prover sample_task sample_request turn_settles
    (sample_ws 3) (sample_w 3) (sample_turn_no 3) (Continue (sample_ws 4)) (sample_w 4)
    sample_reaches_3 sample_turn_3).
Defined.

(** The provers of the sample are correct: the receipts concatenate. *)
Lemma sample_attests_inputs ins lss :
  Forall2 (λ i ls, sample_attests (ai_receipt_input i) ls) ins lss →
  sample_attests (flat_map ai_receipt_input ins) (concat lss).
Proof.
  unfold sample_attests. induction 1 as [|i ls ins lss Hi _ IH]; simpl; [done|].
  by rewrite IH, Hi, flat_map_app.
Qed.

Lemma deferred_valid_none attests P :
  Forall (λ p, pt_is_deferred p = false) P → deferred_valid attests P.
Proof. intros HF p Hp. eapply Forall_forall in HF; [|done]. congruence. Qed.

Lemma honest_turn_answer attests ti ws w ws1 w1 i e t r :
  loop_top (ti_now_top ti) ws (w <| w_fs := ti_fs_top ti |>) = Ret (ws1, w1) →
  ti_event ti = Answers i e → ws_inflight ws1 !! i = Some t → answer t e = Some r →
  honest attests t r → honest_turn attests ti ws w.
Proof. intros H1 H2 H3 H4 H5 ws2 w2 i' e' t' r' H1' H2' H3' H4'. congruence. Qed.

Lemma sample_honest_turn n : (n < 4)%nat →
  honest_turn sample_attests (sample_turn_no n) (sample_ws n) (sample_w n).
Proof.
  intros Hn. destruct n as [|[|[|[|]]]]; [..|lia].
  1-3: eapply honest_turn_answer; [vm_compute; reflexivity..|by intros _ || done].
  eapply honest_turn_answer; [vm_compute; reflexivity..|].
  intros _ lss Hlss. exact (sample_attests_inputs _ _ Hlss).
Qed.

Lemma sample_honest_reaches n : (n < 4)%nat →
  honest_reaches sample_attests feature_prover sample_task sample_request (sample_ws n)
    (sample_w n).
Proof.
  assert (∀ n, (n < 3)%nat → loop_turn feature_prover (stg_id sample_task)
    (sample_turn_no n) (sample_ws n) (sample_w n) =
    Ret (Some (Continue (sample_ws (S n))), sample_w (S n))) as Ht.
  { intros [|[|[|]]] ?; [vm_compute; reflexivity..|lia]. }
  assert (∀ n, (n < 3)%nat → deferred_valid sample_attests
    (stage_prove_tasks (ws_stage (sample_ws (S n))))) as Hd.
  { intros m Hm. apply deferred_valid_none.
    destruct m as [|[|[|]]]; [vm_compute; repeat constructor..|lia]. }
  induction n as [|n IH]; intros Hn.
  - apply (honest_start _ _ _ _ 100 100 sample_db sample_world). vm_compute. reflexivity.
  - eapply honest_next; [apply IH; lia|apply sample_honest_turn; lia|apply Ht; lia|].
    apply Hd. lia.
Qed.

Lemma sample_deferred_4 :
  deferred_valid sample_attests (stage_prove_tasks (ws_stage (sample_ws 4))).
Proof.
  apply deferred_valid_none. vm_compute. repeat constructor.
Qed.
Lemma sample_no_error_4 : stage_is_error (ws_stage (sample_ws 4)) = false.
Proof. vm_compute. reflexivity. Qed.
Lemma sample_tasks_4 : stage_prove_tasks (ws_stage (sample_ws 4)) ≠ [].
Proof. vm_compute. discriminate. Qed.

Lemma run_final_receipt_witness :
  let s := ws_stage (turn_state (Continue (sample_ws 4))) in
  (∃ segs defs, stage_prove_tasks s = segs ++ defs ∧
     Forall (λ p, pt_is_deferred p = true) defs ∧
     (∀ k p, segs !! k = Some p → pt_is_deferred p = false ∧ pt_file_no p = Z.of_nat k)) ∧
  (stage_step s = Snark → sample_attests (sn_agg_receipt (stage_snark_task s))
     (pt_ids (reading_order feature_prover (stage_prove_tasks s)))) ∧
  (stage_is_tasks_gen_done s = true → gt_composite_proof sample_request = false →
   ∃ root, last (stage_agg_tasks s) = Some root ∧ at_is_final root = true ∧
     (at_state root = TASK_STATE_SUCCESS → sample_attests (at_output root)
        (pt_ids (reading_order feature_prover (stage_prove_tasks s))))).
Proof.
  exact (run_final_receipt sample_attests feature_prover sample_task sample_request
    (sample_ws 3) (sample_w 3) (sample_turn_no 3) (Continue (sample_ws 4)) (sample_w 4)
    eq_refl (sample_honest_reaches 3 ltac:(lia)) (sample_honest_turn 3 ltac:(lia))
    sample_turn_3 sample_deferred_4 sample_no_error_4 sample_tasks_4).
Defined.
