(* ===== verification/RetrySample.v ===== *)
(** * RetrySample: a run whose prove calls fail or answer "unspecified"

    The runs the theorems of Retry are evaluated on. *)

From S2P Require Import Prelude Text Proto World Tasks Stage AggGraph StageInv Database.
From S2P Require Import ProverPool ProverClient Worker WorkerInv WorkerRun Retry RunSample.

(** The states a run of turns leads to are reachable. *)
Lemma run_loop_reaches `{E : !External} `{J : !Json} `{C : !Client} feature task g allowed tis :
  ∀ ws w ws' w', loop_reaches feature task g allowed ws w → Forall allowed tis →
  run_loop feature (stg_id task) tis ws w = Ret (Some (Continue ws'), w') →
  loop_reaches feature task g allowed ws' w'.
Proof.
  induction tis as [|ti tis IH]; intros ws w ws' w' Hr Ha; simpl.
  - by intros [[= <-] <-]%M_mret_Ret.
  - apply Forall_cons in Ha as [Ha Has].
    intros ([[ws1|ws1]|]&w1&Ht&H)%M_bind_Ret; [|by apply M_mret_Ret in H as [[=] _]..].
    eapply IH; [|done..]. by eapply reach_turn.
Qed.

Definition any_turn (_ : TurnInput) : Prop := True.

Lemma run_of_reaches tis :
  run_of tis = Ret (Some (Continue (ws_of tis)), w_of tis) →
  loop_reaches feature_prover sample_task sample_request any_turn (ws_of tis) (w_of tis).
Proof.
  unfold run_of at 1. destruct sample_start as [[ws w]|] eqn:Hs; [|done].
  apply (run_loop_reaches feature_prover sample_task); [|by apply Forall_true].
  by apply (reach_start _ _ _ _ 100 100 sample_db sample_world).
Qed.

(** ** Three failures, then the fourth *)

Abbreviation fail_ws := (ws_of (failing_turns 3)).
Abbreviation fail_w := (w_of (failing_turns 3)).
Abbreviation fail_ti := (sample_turn 102 (code_answer 2)).
Abbreviation fail_top := (ws_top fail_ti fail_ws fail_w).

Lemma fail_reaches :
  loop_reaches feature_prover sample_task sample_request any_turn fail_ws fail_w.
Proof. apply run_of_reaches. vm_compute. reflexivity. Qed.
Lemma fail_top_eq : loop_top 102 fail_ws fail_w = Ret (fail_top, w_top fail_ti fail_ws fail_w).
Proof. vm_compute. reflexivity. Qed.

(** The task out in that turn, and the stored one. *)
Definition sample_prove_out (ws : WorkerState) : ProveTask :=
  match ws_inflight ws with TProve t :: _ => t | _ => ProveTask_default end.
Definition sample_prove_stored (ws : WorkerState) : ProveTask :=
  default ProveTask_default (head (stage_prove_tasks (ws_stage ws))).

Definition sample_end (code : Z) : CallEnd ProveResponse :=
  Replied "n0" {| vr_result := Some (mkRpcResult code empty_str); vr_output_receipt := [] |}.

Lemma fail_out : ws_inflight fail_top !! 0%nat = Some (TProve (sample_prove_out fail_top)).
Proof. vm_compute. reflexivity. Qed.
Lemma fail_answer :
  pt_state (client_prove (sample_prove_out fail_top) (sample_end 2)) = TASK_STATE_FAILED.
Proof. vm_compute. reflexivity. Qed.
Lemma fail_stored : sample_prove_stored fail_top ∈ stage_prove_tasks (ws_stage fail_top).
Proof. vm_compute. left. Qed.
Lemma fail_id :
  pt_task_id (sample_prove_stored fail_top) = pt_task_id (sample_prove_out fail_top).
Proof. vm_compute. reflexivity. Qed.
Lemma fail_count : pt_failure_count (sample_prove_stored fail_top) = 3.
Proof. vm_compute. reflexivity. Qed.

Lemma prove_retries_witness :
  pt_failure_count (sample_prove_stored fail_top) = 3 ∧
  ∃ ws' p', take_event 102 (Answers 0 (EProve (sample_end 2))) fail_top
      (w_top fail_ti fail_ws fail_w) = Ret (Some ws', w_top fail_ti fail_ws fail_w) ∧
    p' ∈ stage_prove_tasks (ws_stage ws') ∧
    pt_task_id p' = pt_task_id (sample_prove_stored fail_top) ∧
    is_ready_state (pt_state p') = true ∧
    0 ≤ pt_failure_count (sample_prove_stored fail_top) ≤ 3 ∧
    (pt_failure_count (sample_prove_stored fail_top) < 3 →
       pt_failure_count p' = pt_failure_count (sample_prove_stored fail_top) + 1 ∧
       is_error (ws_stage ws') = is_error (ws_stage fail_top)) ∧
    (pt_failure_count (sample_prove_stored fail_top) = 3 →
       loop_bottom feature_prover (stg_id sample_task) 102
           (Answers 0 (EProve (sample_end 2))) fail_top (w_top fail_ti fail_ws fail_w) =
         Ret (Some (Break ws'), w_top fail_ti fail_ws fail_w) ∧
       is_error (ws_stage ws') = true).
Proof.
  split; [exact fail_count|].
  exact (prove_retries feature_prover sample_task sample_request any_turn fail_ws fail_w
    102 fail_top (w_top fail_ti fail_ws fail_w) 102 0 (sample_prove_out fail_top)
    (sample_end 2) (sample_prove_stored fail_top) eq_refl fail_reaches fail_top_eq fail_out
    fail_answer fail_stored fail_id).
Defined.

(** ** An "unspecified" answer, then the rest of the sample run *)

Abbreviation lost_ws := (ws_of (failing_turns 0)).
Abbreviation lost_w := (w_of (failing_turns 0)).
Abbreviation lost_top := (ws_top unspecified_turn lost_ws lost_w).

(** The other segment is proved; then nothing is left to answer. *)
Definition lost_turns : list TurnInput :=
  [ sample_turn 103 (Answers 0 (EProve (Replied "n1"
      {| vr_result := sample_ok; vr_output_receipt := text "u2" |})));
    sample_turn 104 Tick; sample_turn 105 Tick ].
Definition lost_end : outcome (option Turn * World) :=
  run_loop feature_prover (stg_id sample_task) (unspecified_turn :: lost_turns) lost_ws lost_w.
Definition lost_end_turn : Turn :=
  match lost_end with Ret (Some t, _) => t | _ => Break sample_empty end.
Definition lost_end_w : World :=
  match lost_end with Ret (_, w) => w | Panic => sample_world end.

Lemma lost_reaches :
  loop_reaches feature_prover sample_task sample_request any_turn lost_ws lost_w.
Proof. apply run_of_reaches. vm_compute. reflexivity. Qed.
Lemma lost_top_eq :
  loop_top (ti_now_top unspecified_turn) lost_ws
    (lost_w <| w_fs := ti_fs_top unspecified_turn |>) =
  Ret (lost_top, w_top unspecified_turn lost_ws lost_w).
Proof. vm_compute. reflexivity. Qed.
Lemma lost_step : stage_step (ws_stage lost_top) = Prove.
Proof. vm_compute. reflexivity. Qed.
Lemma lost_gen : stage_is_tasks_gen_done (ws_stage lost_top) = true.
Proof. vm_compute. reflexivity. Qed.
Lemma lost_out : ws_inflight lost_top !! 0%nat = Some (TProve (sample_prove_out lost_top)).
Proof. vm_compute. reflexivity. Qed.
Lemma lost_answer :
  pt_state (client_prove (sample_prove_out lost_top) (sample_end 4)) = TASK_STATE_PROCESSING.
Proof. vm_compute. reflexivity. Qed.
Lemma lost_stored : sample_prove_stored lost_top ∈ stage_prove_tasks (ws_stage lost_top).
Proof. vm_compute. left. Qed.
Lemma lost_id :
  pt_task_id (sample_prove_stored lost_top) = pt_task_id (sample_prove_out lost_top).
Proof. vm_compute. reflexivity. Qed.
Lemma lost_end_eq :
  run_loop feature_prover (stg_id sample_task) (unspecified_turn :: lost_turns) lost_ws lost_w =
  Ret (Some lost_end_turn, lost_end_w).
Proof. vm_compute. reflexivity. Qed.

Lemma unspecified_answer_stalls_witness :
  match lost_end_turn with
  | Break ws' => is_error (ws_stage ws') = true
  | Continue ws' => stage_step (ws_stage ws') = Prove
  end.
Proof.
  exact (unspecified_answer_stalls feature_prover sample_task sample_request any_turn
    lost_ws lost_w unspecified_turn lost_top (w_top unspecified_turn lost_ws lost_w) 0
    (sample_prove_out lost_top) (sample_end 4) (sample_prove_stored lost_top) lost_turns
    lost_end_turn lost_end_w eq_refl lost_reaches lost_top_eq lost_step lost_gen eq_refl
    lost_out lost_answer lost_stored lost_id lost_end_eq).
Defined.
