(* ===== verification/StageService.v ===== *)
(** * StageService: the front end of the service ([proof-service/src/stage/stage_service.rs])

    [generate_proof] checks a request, writes its inputs under the proof's directory,
    stores the stage task and queues it; [get_status] reports on it.  An early [return]
    and the error of [?] are the left values of [M (RpcReply + A)]. *)

From S2P Require Import Prelude Text Proto World Tasks Stage Database ProverPool.
From S2P Require Import ProverClient Worker Config.

(** ** Code outside the repository

    ethers (signatures and addresses), sha2 with hex, bincode and serde_json. *)
Class Service := {
  sig_t : Type;
  (** [Signature::from_str] *)
  sig_from_str : string → option sig_t;
  (** [signature.recover(message)], as [format!("{:?}")] prints the address *)
  sig_recover : sig_t → string → option string;
  (** [to_checksum] of a parsed address *)
  to_checksum : string → option string;
  (** [hex::encode] of the SHA-256 hash *)
  sha256_hex : bytes → string;
  (** [bincode::serialize_into] of a [Vec<Vec<u8>>] *)
  bincode_ser : list bytes → bytes;
  (** [serde_json::from_str::<SplitTask>] *)
  split_from_json : string → option SplitTask
}.

(** ** Messages *)

Record GenerateProofRequest := mkGenerateProofRequest {
  gp_proof_id : string;
  gp_elf_data : bytes;
  gp_block_data : list BlockFileItem;
  gp_block_no : option Z;
  gp_seg_size : Z;
  gp_elf_id : option string;
  gp_signature : string;
  gp_public_input_stream : bytes;
  gp_private_input_stream : bytes;
  gp_target_step : option Z;
  gp_composite_proof : bool;
  gp_receipt_inputs : list bytes;
  gp_receipts : list bytes;
  gp_from_step : option Z;
  gp_single_node : bool;
  gp_max_prover_num : Z
}.

Record GenerateProofResponse := mkGenerateProofResponse {
  gpr_status : Z;
  gpr_error_message : string;
  gpr_proof_id : string;
  gpr_snark_proof_url : string;
  gpr_stark_proof_url : string;
  gpr_public_values_url : string
}.

Record GetStatusResponse := mkGetStatusResponse {
  gs_proof_id : string;
  gs_status : Z;
  gs_proof_with_public_inputs : bytes;
  gs_snark_proof_url : string;
  gs_stark_proof_url : string;
  gs_output_stream : bytes;
  gs_step : Z;
  gs_public_values_url : string;
  gs_total_steps : Z;
  gs_receipt : bytes;
  gs_proving_time : Z
}.
#[export] Instance GetStatusResponse_settable : Settable GetStatusResponse := λ r,
  mkGetStatusResponse (gs_proof_id r) (gs_status r) (gs_proof_with_public_inputs r)
    (gs_snark_proof_url r) (gs_stark_proof_url r) (gs_output_stream r) (gs_step r)
    (gs_public_values_url r) (gs_total_steps r) (gs_receipt r) (gs_proving_time r).

Definition GetStatusResponse_default (proof_id : string) : GetStatusResponse :=
  mkGetStatusResponse proof_id 0 [] empty_str empty_str [] 0 empty_str 0 [] 0.

(** What a handler answers: a response, or [Status::internal]. *)
Inductive RpcReply :=
  | Response (r : GenerateProofResponse)
  | StatusInternal.

(** ** Segment sizes ([prover/src/provers/mod.rs]) *)

Definition MIN_SEG_SIZE : Z := Z.shiftl 1 10.
Definition MAX_SEG_SIZE : Z := Z.shiftl 1 22.
Definition valid_seg_size (seg_size : Z) : bool :=
  (MIN_SEG_SIZE <=? seg_size) && (seg_size <=? MAX_SEG_SIZE).

Section service.
Context `{E : !External} `{J : !Json} `{S : !Service}.

(** ** Early returns *)

Abbreviation Handler A := (M (RpcReply + A)).
Definition ok {A} (a : A) : Handler A := mret (inr a).
Definition reply {A} (r : RpcReply) : Handler A := mret (inl r).
Definition and_then {A B} (m : Handler A) (k : A → Handler B) : Handler B :=
  r ← m; match r with inl e => mret (inl e) | inr a => k a end.
(** A file operation whose error becomes [Status::internal]. *)
Definition or_internal (m : M bool) : Handler () :=
  b ← m; if (b : bool) then ok tt else reply StatusInternal.
Definition write_or_internal (path : string) (data : bytes) : Handler () :=
  or_internal (r ← file_write path data; mret (match r with Some _ => true | None => false end)).
Definition mkdir_or_internal (path : string) : Handler () :=
  or_internal (file_create_dir_all path).

Declare Scope handler_scope.
Notation "x ←? m ; k" := (and_then m (λ x, k))
  (at level 20, m at level 100, k at level 200, right associativity) : handler_scope.
Notation "m ;? k" := (and_then m (λ _, k))
  (at level 100, k at level 200, right associativity) : handler_scope.
#[local] Open Scope handler_scope.

(** ** Checks *)

Definition invalid {A} (req : GenerateProofRequest) (message : string) : Handler A :=
  reply (Response {| gpr_status := Status.i32 Status.InvalidParameter;
                     gpr_error_message := message;
                     gpr_proof_id := gp_proof_id req;
                     gpr_snark_proof_url := empty_str;
                     gpr_stark_proof_url := empty_str;
                     gpr_public_values_url := empty_str |}).

Definition check_seg_size (feature : Feature) (req : GenerateProofRequest) : Handler () :=
  match feature with
  | feature_prover =>
      if negb (gp_composite_proof req) && negb (valid_seg_size (gp_seg_size req))
      then invalid req ("invalid seg_size support [" +:+ pretty MIN_SEG_SIZE +:+ "-" +:+
                        pretty MAX_SEG_SIZE +:+ "]")
      else ok tt
  | feature_prover_v2 => ok tt
  end.

(** The text the client signed. *)
Definition sign_data (req : GenerateProofRequest) : string :=
  match gp_block_no req with
  | Some block_no => gp_proof_id req +:+ "&" +:+ pretty block_no +:+ "&" +:+
                     pretty (gp_seg_size req)
  | None => gp_proof_id req +:+ "&" +:+ pretty (gp_seg_size req)
  end.

Definition verify_signature (req : GenerateProofRequest) : option string :=
  signature ← sig_from_str (gp_signature req);
  sig_recover signature (sign_data req).

(** The error of [get_user] panics ([unwrap]). *)
Definition check_user (db : Database) (req : GenerateProofRequest) : Handler string :=
  match verify_signature req with
  | Some address =>
      users ← lift (unwrap (get_user to_checksum db address));
      match users with
      | [] => invalid req "permission denied"
      | user :: _ => ok user
      end
  | None => invalid req "invalid signature"
  end.

Definition check_steps (req : GenerateProofRequest) : Handler (Step * Step) :=
  let from_step := default (Step_i32 Init) (gp_from_step req) in
  if negb ((from_step =? Step_i32 Init) || (from_step =? Step_i32 Agg))
  then invalid req "invalid FromStep, only Support Init and Agg"
  else
    from_step ← lift (unwrap (Step_from_i32 from_step));
    let target_step := default (Step_i32 Snark) (gp_target_step req) in
    if negb ((target_step =? Step_i32 Split) || (target_step =? Step_i32 Agg)
             || (target_step =? Step_i32 Snark))
    then invalid req "invalid TargetStep, only Support Split, Agg and Snark"
    else
      target_step ← lift (unwrap (Step_from_i32 target_step));
      ok (from_step, target_step).

(** The program: its path and id.  [Path::exists] is asked of the local file system
    whatever the path. *)
Definition check_elf (base_dir : string) (from_step : Step) (req : GenerateProofRequest) :
    Handler (string * string) :=
  if decide (from_step = Init) then
    let elf_dir := base_dir +:+ "/elf" in
    match gp_elf_data req with
    | [] =>
        match gp_elf_id req with
        | None => invalid req "elf_data or elf_id should not be empty"
        | Some elf_id =>
            let elf_id := default elf_id (strip_prefix "0x" elf_id) in
            let elf_path := elf_dir +:+ "/" +:+ elf_id in
            ex ← exists_m elf_path;
            if (ex : bool) then ok (elf_path, elf_id) else invalid req "elf_id not found"
        end
    | elf_data =>
        let elf_id := sha256_hex elf_data in
        let elf_path := elf_dir +:+ "/" +:+ elf_id in
        ex ← exists_m elf_path;
        (if (ex : bool) then ok tt else write_or_internal elf_path elf_data);?
        ok (elf_path, elf_id)
    end
  else ok (empty_str, empty_str).

(** ** Inputs *)

(** An empty stream has no file and the empty path. *)
Definition write_stream (dir name : string) (data : bytes) : Handler string :=
  match data with
  | [] => ok empty_str
  | _ => let path := dir +:+ "/" +:+ name in write_or_internal path data;? ok path
  end.
Definition write_receipts (dir name : string) (receipts : list bytes) : Handler string :=
  match receipts with
  | [] => ok empty_str
  | _ => let path := dir +:+ "/" +:+ name in
         write_or_internal path (bincode_ser receipts);? ok path
  end.

Fixpoint write_blocks (block_dir : string) (items : list BlockFileItem) : Handler () :=
  match items with
  | [] => ok tt
  | item :: items =>
      write_or_internal (block_dir +:+ "/" +:+ bf_file_name item) (bf_file_content item);?
      write_blocks block_dir items
  end.

(** At least one prover when there are any, and no more than there are. *)
Definition cap_prover_num (cfg : RuntimeConfig) (req : GenerateProofRequest) : Z :=
  let addrs := u32_wrap (len (cf_prover_addrs cfg)) in
  if (gp_max_prover_num req =? 0) || (addrs <? gp_max_prover_num req)
  then addrs else gp_max_prover_num req.

Definition public_values_suffix (feature : Feature) : string :=
  match feature with feature_prover => "json" | feature_prover_v2 => "bin" end.

Definition prover_version (feature : Feature) : ProverVersion :=
  match feature with feature_prover => Zkm | feature_prover_v2 => Zkm2 end.

Definition dir_path (base_dir : string) (req : GenerateProofRequest) : string :=
  base_dir +:+ "/proof/" +:+ gp_proof_id req.

(** Everything from the checked steps to the [GenerateTask]. *)
Definition prepare_proof (feature : Feature) (cfg : RuntimeConfig)
    (req : GenerateProofRequest) (from_step target_step : Step) : Handler GenerateTask :=
  let base_dir := cf_base_dir cfg in
  elf ←? check_elf base_dir from_step req;
  let '(elf_path, elf_id) := elf in
  let dir := dir_path base_dir req in
  mkdir_or_internal dir;?
  let block_no := default 0 (gp_block_no req) in
  let block_dir := dir +:+ "/0_" +:+ pretty block_no in
  mkdir_or_internal block_dir;?
  write_blocks block_dir (gp_block_data req);?
  let input_stream_dir := dir +:+ "/input_stream" in
  mkdir_or_internal input_stream_dir;?
  public_input_stream_path ←?
    write_stream input_stream_dir "public_input" (gp_public_input_stream req);
  private_input_stream_path ←?
    write_stream input_stream_dir "private_input" (gp_private_input_stream req);
  (if bool_decide (from_step = Agg)
      && (bool_decide (gp_receipt_inputs req = []) || gp_single_node req)
   then invalid req "receipt_inputs should not empty" else ok tt);?
  let max_prover_num := cap_prover_num cfg req in
  receipt_inputs_path ←?
    write_receipts input_stream_dir "receipt_inputs" (gp_receipt_inputs req);
  receipts_path ←? write_receipts input_stream_dir "receipts" (gp_receipts req);
  let output_stream_dir := dir +:+ "/output_stream" in
  mkdir_or_internal output_stream_dir;?
  let output_stream_path := match feature with
                            | feature_prover => output_stream_dir +:+ "/output_stream"
                            | feature_prover_v2 => empty_str
                            end in
  let seg_path := dir +:+ "/segment" in
  mkdir_or_internal seg_path;?
  let prove_path := dir +:+ "/prove" in
  mkdir_or_internal (prove_path +:+ "/receipt");?
  let agg_path := dir +:+ "/aggregate" in
  let wrap_dir := dir +:+ "/wrap" in
  mkdir_or_internal wrap_dir;?
  (if decide (from_step = Agg)
   then write_or_internal (wrap_dir +:+ "/public_values." +:+ public_values_suffix feature) []
   else ok tt);?
  let snark_dir := dir +:+ "/snark" in
  mkdir_or_internal snark_dir;?
  let snark_path := snark_dir +:+ "/proof_with_public_inputs.json" in
  ok (GenerateTask_new (prover_version feature) elf_id (gp_proof_id req) dir elf_path
        seg_path prove_path agg_path snark_path public_input_stream_path
        private_input_stream_path output_stream_path (Some block_no) (gp_seg_size req)
        max_prover_num from_step target_step (gp_single_node req) (gp_composite_proof req)
        receipt_inputs_path receipts_path).

(** ** generate_proof *)

Definition file_url (url : string) (proof_id path : string) : string :=
  url +:+ "/" +:+ proof_id +:+ path.

Definition accepted (feature : Feature) (cfg : RuntimeConfig) (req : GenerateProofRequest)
    (target_step : Step) : GenerateProofResponse :=
  let url path := match cf_fileserver_url cfg with
                  | Some url => file_url url (gp_proof_id req) path
                  | None => empty_str
                  end in
  let v1_snark path := if decide (feature = feature_prover ∧ target_step = Snark)
                       then url path else empty_str in
  {| gpr_status := Status.i32 Status.Computing;
     gpr_error_message := empty_str;
     gpr_proof_id := gp_proof_id req;
     gpr_snark_proof_url := v1_snark "/snark/proof_with_public_inputs.json";
     gpr_stark_proof_url := v1_snark "/wrap/proof_with_public_inputs.json";
     gpr_public_values_url :=
       if decide (target_step = Split) then empty_str
       else url ("/wrap/public_values." +:+ public_values_suffix feature) |}.

(** The reply, the database after it, and the task put on the queue.  [tx_open]: the
    receiving end of the queue still exists; a full queue makes the call wait. *)
Definition generate_proof (feature : Feature) (cfg : RuntimeConfig)
    (req : GenerateProofRequest) (db : Database) (tx_open : bool) :
    M (RpcReply * Database * option StageTask) :=
  r ← (check_seg_size feature req;?
       user_address ←? check_user db req;
       steps ←? check_steps req;
       g ←? prepare_proof feature cfg req steps.1 steps.2;
       ok (user_address, g)) : Handler (string * GenerateTask);
  match r with
  | inl e => mret (e, db, None)
  | inr (user_address, g) =>
      let context := generate_to_json g in
      match insert_stage_task db (gp_proof_id req) user_address
              (Status.i32 Status.Computing) context with
      | None => mret (StatusInternal, db, None)
      | Some db =>
          if tx_open
          then mret (Response (accepted feature cfg req (gt_target_step g)), db,
                     Some (mkStageTask (gt_proof_id g) (Status.i32 Status.Computing)
                             (Some context) None 0 0))
          else mret (StatusInternal, db, None)
      end
  end.

(** ** get_status *)

(** What the stored context says of the request; the default is a SNARK proof. *)
Definition status_context (context : option string) : option GenerateTask :=
  c ← context; generate_from_json c.

(** The output stream and, for a composite proof, the first receipt; an unreadable
    file panics. *)
Definition read_outputs (task : StageTask) (r : GetStatusResponse) : M GetStatusResponse :=
  match status_context (stg_context task) with
  | Some g =>
      if (stg_status task =? Status.i32 Status.Success)
         && negb (is_empty (gt_output_stream_path g))
      then
        output_data ← file_read (gt_output_stream_path g);
        output_data ← lift (unwrap output_data);
        let r := r <| gs_output_stream := output_data |> in
        if gt_composite_proof g then
          receipts_data ← file_read (gt_prove_path g +:+ "/receipt/0");
          receipts_data ← lift (unwrap receipts_data);
          mret (r <| gs_receipt := receipts_data |>)
        else mret r
      else mret r
  | None => mret r
  end.

Definition status_steps (task : StageTask) : Step * bool * string :=
  match status_context (stg_context task) with
  | Some g => (gt_target_step g, gt_composite_proof g, gt_snark_path g)
  | None => (Snark, false, empty_str)
  end.

(** The proof, from the file for an aggregation, and the URLs. *)
Definition read_proof (feature : Feature) (cfg : RuntimeConfig) (task : StageTask)
    (r : GetStatusResponse) : M GetStatusResponse :=
  let '(target_step, composite_proof, proof_path) := status_steps task in
  if negb (bool_decide (target_step = Split)) && negb composite_proof then
    r ← (match stg_result task with
         | Some result =>
             proof ← (if bool_decide (target_step = Agg) && (stg_status task =? 0)
                      then data ← file_read proof_path; mret (default [] data)
                      else mret (String.list_byte_of_string result)) : M bytes;
             mret (r <| gs_proof_with_public_inputs := proof |>)
         | None => mret r
         end) : M GetStatusResponse;
    match cf_fileserver_url cfg with
    | Some url =>
        let url path := file_url url (gs_proof_id r) path in
        let r := if decide (feature = feature_prover ∧ target_step = Snark)
                 then r <| gs_snark_proof_url := url "/snark/proof_with_public_inputs.json" |>
                        <| gs_stark_proof_url := url "/wrap/proof_with_public_inputs.json" |>
                 else r in
        mret (r <| gs_public_values_url :=
                     url ("/wrap/public_values." +:+ public_values_suffix feature) |>)
    | None => mret r
    end
  else mret r.

Definition get_status (feature : Feature) (cfg : RuntimeConfig) (proof_id : string)
    (db : Database) : M GetStatusResponse :=
  let r := GetStatusResponse_default proof_id in
  match get_stage_task db proof_id with
  | None => mret r
  | Some task =>
      let r := r <| gs_status := stg_status task |> <| gs_step := stg_step task |>
                 <| gs_proving_time := u64_wrap (stg_check_at task) |> in
      execute_info ← lift (get_prove_task_infos split_from_json db proof_id TASK_ITYPE_SPLIT);
      let r := match default [] execute_info with
               | info :: _ => r <| gs_total_steps := st_total_steps info |>
               | [] => r
               end in
      r ← read_outputs task r;
      read_proof feature cfg task r
  end.

End service.
