(* ===== verification/ServiceLemmas.v ===== *)
(** * ServiceLemmas: reasoning about the handlers of StageService

    Inversion of early returns, and what the file operations of a request change. *)

From S2P Require Import Prelude Text Proto World Tasks Stage Database ProverPool.
From S2P Require Import ProverClient Worker Config StageService.

Create HintDb writes.

Section lemmas.
Context `{E : !External} `{J : !Json} `{S : !Service}.

Lemma and_then_inr {A B} (m : M (RpcReply + A)) (k : A → M (RpcReply + B)) w b w' :
  and_then m k w = Ret (inr b, w') ↔
  ∃ a w1, m w = Ret (inr a, w1) ∧ k a w1 = Ret (inr b, w').
Proof.
  unfold and_then. rewrite M_bind_Ret. split.
  - intros ([e|a]&w1&Hm&Hk); [by apply M_mret_Ret in Hk as [[=] _]|]. by exists a, w1.
  - intros (a&w1&Hm&Hk). by exists (inr a), w1.
Qed.

Lemma and_then_inl {A B} (m : M (RpcReply + A)) (k : A → M (RpcReply + B)) w e w' :
  and_then m k w = Ret (inl e, w') ↔
  m w = Ret (inl e, w') ∨
  ∃ a w1, m w = Ret (inr a, w1) ∧ k a w1 = Ret (inl e, w').
Proof.
  unfold and_then. rewrite M_bind_Ret. split.
  - intros ([e'|a]&w1&Hm&Hk); [by apply M_mret_Ret in Hk as [[= <-] <-]; left|].
    right. by exists a, w1.
  - intros [Hm|(a&w1&Hm&Hk)]; [by exists (inl e), w'|by exists (inr a), w1].
Qed.

Lemma ok_inr {A} (a b : A) w w' : ok a w = Ret (inr b, w') ↔ a = b ∧ w = w'.
Proof. unfold ok. rewrite M_mret_Ret. split; [by intros [[=] ?]|by intros [-> ->]]. Qed.
Lemma ok_inl {A} (a : A) e w w' : ok a w = Ret (inl e, w') → False.
Proof. by intros [[=] _]%M_mret_Ret. Qed.
Lemma reply_inr {A} r (a : A) w w' : reply r w = Ret (inr a, w') → False.
Proof. by intros [[=] _]%M_mret_Ret. Qed.
Lemma reply_inl {A} r e w w' : reply (A := A) r w = Ret (inl e, w') ↔ r = e ∧ w = w'.
Proof. unfold reply. rewrite M_mret_Ret. split; [by intros [[=] ?]|by intros [-> ->]]. Qed.

(** ** The file system only grows, and only at known paths *)

Record fs_extends (P : string → Prop) (fs fs' : Fs) : Prop := {
  fe_files : ∀ p, ¬ P p → fs_files fs' !! p = fs_files fs !! p;
  fe_kept : ∀ p, is_Some (fs_files fs !! p) → is_Some (fs_files fs' !! p);
  fe_dirs : fs_dirs fs ⊆ fs_dirs fs';
  fe_denied : fs_denied fs' = fs_denied fs
}.

(** A computation that writes at paths of [P] only, whatever its result. *)
Definition writes {A} (P : string → Prop) (m : M A) : Prop :=
  ∀ w a w', m w = Ret (a, w') →
    fs_extends P (w_fs w) (w_fs w') ∧ w_uuids w' = w_uuids w.

Lemma fs_extends_refl P fs : fs_extends P fs fs.
Proof. by split. Qed.
Lemma fs_extends_trans P fs1 fs2 fs3 :
  fs_extends P fs1 fs2 → fs_extends P fs2 fs3 → fs_extends P fs1 fs3.
Proof.
  intros [F1 K1 D1 N1] [F2 K2 D2 N2]. split; [|by auto|set_solver|congruence].
  intros p Hp. rewrite F2, F1; auto.
Qed.
Lemma fs_extends_mono (P Q : string → Prop) fs fs' :
  (∀ p, P p → Q p) → fs_extends P fs fs' → fs_extends Q fs fs'.
Proof. intros HPQ []. split; auto. Qed.

Lemma writes_mono {A} (P Q : string → Prop) (m : M A) :
  (∀ p, P p → Q p) → writes P m → writes Q m.
Proof.
  intros HPQ Hm w a w' [He Hu]%Hm. split; [|done]. by eapply fs_extends_mono.
Qed.

Lemma writes_ret {A} P (a : A) : writes P (mret a).
Proof. intros w b w' [_ <-]%M_mret_Ret. split; [apply fs_extends_refl|done]. Qed.
Lemma writes_lift {A} P (o : outcome A) : writes P (lift o).
Proof. intros w b w' [_ <-]%lift_Ret. split; [apply fs_extends_refl|done]. Qed.
Lemma writes_bind {A B} P (m : M A) (k : A → M B) :
  writes P m → (∀ a, writes P (k a)) → writes P (m ≫= k).
Proof.
  intros Hm Hk w b w' (a&w1&[E1 U1]%Hm&[E2 U2]%Hk)%M_bind_Ret.
  split; [by eapply fs_extends_trans|congruence].
Qed.
Lemma writes_and_then {A B} P (m : M (RpcReply + A)) (k : A → M (RpcReply + B)) :
  writes P m → (∀ a, writes P (k a)) → writes P (and_then m k).
Proof.
  intros Hm Hk. apply writes_bind; [done|]. intros [e|a]; [apply writes_ret|apply Hk].
Qed.
Lemma writes_if {A} P (b : bool) (m1 m2 : M A) :
  writes P m1 → writes P m2 → writes P (if b then m1 else m2).
Proof. by destruct b. Qed.

Lemma writes_read P p : writes P (read_m p).
Proof. intros w r w' ->%read_m_same. split; [apply fs_extends_refl|done]. Qed.
Lemma writes_exists P p : writes P (exists_m p).
Proof.
  intros w r w' H. unfold exists_m, get_world in H. m_inv. split; [apply fs_extends_refl|done].
Qed.

Lemma fs_create_extends fs p data fs' :
  fs_create fs p data = Some fs' → fs_extends (eq p) fs fs' ∧ fs_files fs' !! p = Some data.
Proof.
  unfold fs_create. case_decide; [done|]. destruct (_ || _); [|done]. intros [= <-].
  split; [split; simpl|by simpl; rewrite lookup_insert_eq]; [|..|done|done].
  - intros q Hq. by rewrite lookup_insert_ne.
  - intros q Hq. destruct (decide (p = q)) as [->|]; [by rewrite lookup_insert_eq|].
    by rewrite lookup_insert_ne.
Qed.

Lemma create_m_run p data w b w' :
  create_m p data w = Ret (b, w') →
  fs_extends (eq p) (w_fs w) (w_fs w') ∧ w_uuids w' = w_uuids w ∧
  (b = true → fs_files (w_fs w') !! p = Some data ∧ p ∉ fs_denied (w_fs w')).
Proof.
  unfold create_m. intros (w0&w1&[= <- <-]&H)%M_bind_Ret.
  destruct (fs_create (w_fs w) p data) as [fs|] eqn:Hc.
  - apply M_bind_Ret in H as (u&w2&[= _ <-]&[<- <-]%M_mret_Ret). simpl.
    destruct (fs_create_extends _ _ _ _ Hc) as [He Hf]. split_and!; [done|done|].
    intros _. split; [done|]. rewrite (fe_denied _ _ _ He).
    unfold fs_create in Hc. case_decide as Hd; [done|]. intros Hin. apply Hd. by left.
  - apply M_mret_Ret in H as [<- <-]. split_and!; [apply fs_extends_refl|done|done].
Qed.

Lemma fs_create_dir_all_extends P fs p fs' :
  fs_create_dir_all fs p = Some fs' → fs_extends P fs fs'.
Proof.
  unfold fs_create_dir_all. destruct (forallb _ _); [|done]. intros [= <-].
  split; simpl; [done|done|set_solver|done].
Qed.

(** The file operations on a local path. *)
Lemma file_write_local p data : is_s3_path p = false → writes (eq p) (file_write p data).
Proof.
  intros Hp w r w' H. rewrite file_write_eq, Hp in H.
  apply M_bind_Ret in H as (b&w1&Hc&[_ <-]%M_mret_Ret).
  by apply create_m_run in Hc as (?&?&_).
Qed.
Lemma mkdir_local P p : is_s3_path p = false → writes P (file_create_dir_all p).
Proof.
  intros Hp w r w' H. rewrite file_create_dir_all_eq, Hp in H.
  apply M_bind_Ret in H as (w0&w1&[= <- <-]&H).
  destruct (fs_create_dir_all _ _) as [fs|] eqn:Hc.
  - apply M_bind_Ret in H as (u&w2&[= _ <-]&[_ <-]%M_mret_Ret).
    split; [|done]. by eapply fs_create_dir_all_extends.
  - apply M_mret_Ret in H as [_ <-]. split; [apply fs_extends_refl|done].
Qed.

Lemma writes_or_internal P m : writes P m → writes P (or_internal m).
Proof. intros Hm. apply writes_bind; [done|]. intros []; apply writes_ret. Qed.
Lemma writes_write_or_internal (P : string → Prop) p data :
  is_s3_path p = false → P p → writes P (write_or_internal p data).
Proof.
  intros Hp HP. apply writes_or_internal, writes_bind; [|intros; apply writes_ret].
  eapply writes_mono; [|by apply file_write_local]. by intros ? <-.
Qed.
Lemma writes_mkdir_or_internal P p : is_s3_path p = false → writes P (mkdir_or_internal p).
Proof. intros Hp. by apply writes_or_internal, mkdir_local. Qed.

Lemma write_or_internal_done p data u w w' :
  is_s3_path p = false → write_or_internal p data w = Ret (inr u, w') →
  fs_files (w_fs w') !! p = Some data ∧ p ∉ fs_denied (w_fs w').
Proof.
  intros Hp H. unfold write_or_internal, or_internal in H.
  apply M_bind_Ret in H as ([|]&w1&H&H2); [|by apply M_mret_Ret in H2 as [[=] _]].
  apply M_mret_Ret in H2 as [_ <-].
  apply M_bind_Ret in H as ([n|]&w2&H&H2); [|by apply M_mret_Ret in H2 as [[=] _]].
  apply M_mret_Ret in H2 as [_ <-].
  rewrite file_write_eq, Hp in H.
  apply M_bind_Ret in H as ([|]&w3&Hc&H2); [|by apply M_mret_Ret in H2 as [[=] _]].
  apply M_mret_Ret in H2 as [_ <-].
  apply create_m_run in Hc as (_&_&Hc). by apply Hc.
Qed.

End lemmas.
#[export] Hint Resolve writes_ret writes_lift writes_exists writes_read : writes.
