(* ===== verification/ServiceThms.v ===== *)
(** * ServiceThms: what the front end guarantees

    Which requests are accepted, what an accepted one leaves for the worker, and what
    a refused one leaves unchanged. *)

From S2P Require Import Prelude Text Proto World Tasks Stage Database ProverPool.
From S2P Require Import ProverClient Worker Config StageService ServiceLemmas.

Section service.
Context `{E : !External} `{J : !Json} `{S : !Service}.

(** Files under [base] are local files. *)
Definition local_dir (base : string) : Prop := ∀ s, is_s3_path (base +:+ s) = false.

(** The names a request brings along: its id and those of its block files.  A plain one
    leads down from where it is used. *)
Definition plain_names (req : GenerateProofRequest) : bool :=
  plain (gp_proof_id req) && forallb (λ i, plain (bf_file_name i)) (gp_block_data req).

(** The entry of the request's program in the program cache. *)
Definition elf_entry (base : string) (req : GenerateProofRequest) : string :=
  base +:+ "/elf/" +:+ sha256_hex (gp_elf_data req).
(** The paths a request may write: its proof directory and its entry of the program
    cache. *)
Definition request_path (base : string) (req : GenerateProofRequest) (p : string) : Prop :=
  (∃ s, p = dir_path base req +:+ "/" +:+ s ∧ (plain_names req = true → plain s = true)) ∨
  p = elf_entry base req.
(** The files they are: under the request's own directory, or the cache entry. *)
Definition request_file (base : string) (req : GenerateProofRequest) (p : string) : Prop :=
  below (dir_path base req) p ∨ p = elf_entry base req.

Lemma base_proof_nonempty base s : base +:+ "/proof" +:+ s ≠ empty_str.
Proof. by destruct base. Qed.
Lemma request_path_file base req p :
  plain_names req = true → request_path base req p → request_file base req p.
Proof.
  intros Hn [(s&->&Hs)| ->]; [left|by right].
  apply below_app; [|by apply Hs]. apply (base_proof_nonempty base ("/" +:+ gp_proof_id req)).
Qed.
Lemma request_dir_below base req :
  plain_names req = true → below (base +:+ "/proof") (dir_path base req).
Proof.
  intros [Hid _]%andb_true_iff.
  assert (dir_path base req = (base +:+ "/proof") +:+ "/" +:+ gp_proof_id req) as ->
    by (unfold dir_path; by rewrite str_app_assoc).
  apply below_app; [|done]. rewrite <-(str_app_nil_r "/proof"). apply base_proof_nonempty.
Qed.
Lemma plain_block req n i :
  plain_names req = true → i ∈ gp_block_data req →
  plain ("0_" +:+ pretty (n : Z) +:+ "/" +:+ bf_file_name i) = true.
Proof.
  intros [_ Hb]%andb_true_iff Hi. rewrite <-str_app_assoc, plain_app. apply andb_true_iff. split.
  - unfold plain. rewrite split_on_none; [|].
    + cbn. rewrite andb_true_r. apply bool_decide_eq_true. set_solver.
    + rewrite contains_app. apply contains_pretty_Z.
  - by eapply forallb_forall in Hb; [|apply list_elem_of_In].
Qed.

(** ** Checks change nothing *)

Definition pure_of {A} (m : M A) : Prop := ∀ w a w', m w = Ret (a, w') → w' = w.

Lemma pure_invalid {A} req msg : pure_of (invalid (A := A) req msg).
Proof. by intros w a w' [_ <-]%M_mret_Ret. Qed.
Lemma pure_ok {A} (a : A) : pure_of (ok a).
Proof. by intros w b w' [_ <-]%M_mret_Ret. Qed.

Lemma check_seg_size_pure feature req : pure_of (check_seg_size feature req).
Proof.
  unfold check_seg_size. destruct feature; [|apply pure_ok].
  destruct (_ && _); [apply pure_invalid|apply pure_ok].
Qed.
Lemma check_user_pure db req : pure_of (check_user db req).
Proof.
  unfold check_user. destruct (verify_signature req); [|apply pure_invalid].
  intros w a w' (users&w1&[_ <-]%lift_Ret&H)%M_bind_Ret.
  destruct users; [by eapply pure_invalid|by eapply pure_ok].
Qed.
Lemma check_steps_pure req : pure_of (check_steps req).
Proof.
  unfold check_steps. destruct (negb _); [apply pure_invalid|].
  intros w a w' (fs&w1&[_ <-]%lift_Ret&H)%M_bind_Ret.
  destruct (negb _) in H; [by eapply pure_invalid|].
  apply M_bind_Ret in H as (ts&w2&[_ <-]%lift_Ret&H). by eapply pure_ok.
Qed.

(** ** What the checks let through *)

Lemma check_user_inr db req w user w' :
  check_user db req w = Ret (inr user, w') →
  user ∈ db_user db ∧
  ∃ address, verify_signature req = Some address ∧
    trim_start_0x <$> to_checksum address = Some user.
Proof.
  unfold check_user. destruct (verify_signature req) as [address|];
    [|by intros ?%reply_inr].
  intros (users&w1&[Hu _]%lift_Ret&H)%M_bind_Ret. apply unwrap_Ret in Hu.
  destruct users as [|u us]; [by apply reply_inr in H|]. apply ok_inr in H as [<- _].
  unfold get_user in Hu. destruct (to_checksum address) as [a|] eqn:Ha; [|done].
  simpl in Hu. unfold online in Hu. destruct (db_online db); [|done]. simplify_eq.
  case_decide; [|done]. simplify_eq. split; [done|]. exists address. by rewrite Ha.
Qed.

Lemma check_steps_inr req w steps w' :
  check_steps req w = Ret (inr steps, w') →
  (steps.1 = Init ∨ steps.1 = Agg) ∧
  (steps.2 = Split ∨ steps.2 = Agg ∨ steps.2 = Snark) ∧
  Step_i32 steps.1 = default (Step_i32 Init) (gp_from_step req) ∧
  Step_i32 steps.2 = default (Step_i32 Snark) (gp_target_step req).
Proof.
  unfold check_steps.
  set (f := default (Step_i32 Init) _). set (t := default (Step_i32 Snark) _).
  destruct ((f =? _) || (f =? _)) eqn:Hf; [|by intros ?%reply_inr]. simpl.
  intros (fs&w1&[Hfs _]%lift_Ret&H)%M_bind_Ret. apply unwrap_Ret in Hfs.
  destruct ((t =? _) || _ || _) eqn:Ht; [|by apply reply_inr in H]. simpl in H.
  apply M_bind_Ret in H as (ts&w2&[Hts _]%lift_Ret&H). apply unwrap_Ret in Hts.
  apply ok_inr in H as [<- _]. simpl.
  assert (Step_i32 fs = f ∧ (fs = Init ∨ fs = Agg)) as [-> ?].
  { apply orb_true_iff in Hf as [->%Z.eqb_eq| ->%Z.eqb_eq]; rewrite Step_from_i32_i32 in Hfs;
      simplify_eq; auto. }
  assert (Step_i32 ts = t ∧ (ts = Split ∨ ts = Agg ∨ ts = Snark)) as [-> ?]; [|by auto].
  apply orb_true_iff in Ht as [[Ht%Z.eqb_eq|Ht%Z.eqb_eq]%orb_true_iff|Ht%Z.eqb_eq];
    rewrite Ht in *; simpl in Hts; simplify_eq; auto.
Qed.

(** ** What the preparation writes *)

Section prepare.
Context (cfg : RuntimeConfig) (req : GenerateProofRequest).
Abbreviation base := (cf_base_dir cfg).
Abbreviation dir := (dir_path base req).
Hypothesis Hlocal : local_dir base.

Lemma local_elf s : is_s3_path (base +:+ "/elf" +:+ "/" +:+ s) = false.
Proof. apply Hlocal. Qed.
Lemma local_proof s : is_s3_path (dir +:+ s) = false.
Proof. unfold dir_path. rewrite !str_app_assoc. apply Hlocal. Qed.
Lemma local_dir_path : is_s3_path dir = false.
Proof. apply Hlocal. Qed.
Lemma local_proof2 a b : is_s3_path ((dir +:+ a) +:+ b) = false.
Proof. rewrite str_app_assoc. apply local_proof. Qed.

Lemma writes_stream (P : string → Prop) a name data :
  P ((dir +:+ a) +:+ "/" +:+ name) → writes P (write_stream (dir +:+ a) name data).
Proof.
  intros HP. unfold write_stream. destruct data; [apply writes_ret|].
  apply writes_and_then; [|intros; apply writes_ret].
  apply writes_write_or_internal; [apply local_proof2|done].
Qed.
Lemma writes_receipts (P : string → Prop) a name l :
  P ((dir +:+ a) +:+ "/" +:+ name) → writes P (write_receipts (dir +:+ a) name l).
Proof.
  intros HP. unfold write_receipts. destruct l; [apply writes_ret|].
  apply writes_and_then; [|intros; apply writes_ret].
  apply writes_write_or_internal; [apply local_proof2|done].
Qed.
Lemma writes_blocks (P : string → Prop) a items :
  (∀ i, i ∈ items → P ((dir +:+ a) +:+ "/" +:+ bf_file_name i)) →
  writes P (write_blocks (dir +:+ a) items).
Proof.
  intros HP. induction items as [|i items IH]; simpl; [apply writes_ret|].
  apply writes_and_then; [|intros; apply IH; set_solver].
  apply writes_write_or_internal; [apply local_proof2|]. apply HP. by left.
Qed.
Lemma writes_mkdir (P : string → Prop) a : writes P (mkdir_or_internal (dir +:+ a)).
Proof. apply writes_mkdir_or_internal, local_proof. Qed.

Lemma writes_check_elf from : writes (request_path base req) (check_elf base from req).
Proof.
  unfold check_elf. case_decide; [|apply writes_ret].
  destruct (gp_elf_data req) as [|b data] eqn:Hdata.
  - destruct (gp_elf_id req) as [id|]; [|apply writes_ret].
    apply writes_bind; [apply writes_exists|]. intros []; apply writes_ret.
  - apply writes_bind; [apply writes_exists|]. intros ex.
    apply writes_and_then; [|intros; apply writes_ret].
    destruct ex; [apply writes_ret|]. apply writes_write_or_internal;
      [rewrite str_app_assoc; apply Hlocal|].
    right. unfold elf_entry. rewrite <-Hdata. by rewrite !str_app_assoc.
Qed.

(** Paths built from [dir] are local, and of the request. *)
Ltac local_path := unfold dir_path; rewrite ?str_app_assoc; apply Hlocal.
Ltac of_request feature :=
  left; eexists; split;
    [ unfold dir_path; rewrite ?str_app_assoc; reflexivity
    | intros Hn; first [reflexivity | by apply (plain_block req) | by destruct feature] ].
Ltac write_step :=
  first
    [ apply writes_and_then; [|intros ?]
    | apply writes_ret
    | apply writes_check_elf
    | apply writes_mkdir_or_internal; local_path
    | apply writes_write_or_internal; [local_path|]
    | apply writes_stream | apply writes_receipts
    | apply writes_blocks; intros i Hi
    | case_match ].

Lemma writes_prepare feature from target :
  writes (request_path base req) (prepare_proof feature cfg req from target).
Proof. unfold prepare_proof. repeat write_step; of_request feature. Qed.

(** The request a preparation returns. *)
Record prepared (feature : Feature) (from target : Step) (fs : Fs) (g : GenerateTask) :
    Prop := {
  pp_proof_id : gt_proof_id g = gp_proof_id req;
  pp_from : gt_from_step g = from;
  pp_target : gt_target_step g = target;
  pp_base : gt_base_dir g = dir;
  pp_seg : gt_seg_path g = dir +:+ "/segment";
  pp_snark : gt_snark_path g = dir +:+ "/snark/proof_with_public_inputs.json";
  pp_max : gt_max_prover_num g = cap_prover_num cfg req;
  pp_block : gt_block_no g = Some (default 0 (gp_block_no req));
  pp_single : gt_single_node g = gp_single_node req;
  pp_composite : gt_composite_proof g = gp_composite_proof req;
  pp_program : gt_program g = None;
  pp_agg : from = Agg → gp_receipt_inputs req ≠ [] ∧ gp_single_node req = false;
  pp_receipts : gp_receipt_inputs req ≠ [] →
    gt_receipt_inputs_path g = dir +:+ "/input_stream/receipt_inputs" ∧
    fs_read fs (gt_receipt_inputs_path g) = Some (bincode_ser (gp_receipt_inputs req))
}.

Lemma write_receipts_inr a name l path w w' :
  write_receipts (dir +:+ a) name l w = Ret (inr path, w') → l ≠ [] →
  path = (dir +:+ a) +:+ "/" +:+ name ∧ fs_read (w_fs w') path = Some (bincode_ser l).
Proof.
  unfold write_receipts. destruct l as [|x l]; [done|].
  intros (u&w1&Hw&[<- <-]%ok_inr)%and_then_inr _.
  apply write_or_internal_done in Hw as [Hf Hd]; [|apply local_proof2].
  split; [done|]. unfold fs_read. by rewrite decide_False.
Qed.

Lemma fs_read_extends P fs fs' p : fs_extends P fs fs' → ¬ P p → fs_read fs' p = fs_read fs p.
Proof. intros [F _ _ N] Hp. unfold fs_read. by rewrite N, F. Qed.

Lemma writes_run {A} P (m : M A) w a w' :
  m w = Ret (a, w') → writes P m → fs_extends P (w_fs w) (w_fs w').
Proof. by intros Hm [? _]%Hm || (intros Hm Hw; by destruct (Hw _ _ _ Hm)). Qed.

Lemma prepare_inr feature from target w g w' :
  prepare_proof feature cfg req from target w = Ret (inr g, w') →
  prepared feature from target (w_fs w') g.
Proof.
  unfold prepare_proof. cbv zeta.
  intros ([elf_path elf_id]&w1&_&H)%and_then_inr. cbv beta iota in H.
  do 4 apply and_then_inr in H as (?&?&_&H).
  apply and_then_inr in H as (pub&w2&_&H). apply and_then_inr in H as (priv&w3&_&H).
  apply and_then_inr in H as (u&w4&Hagg&H). apply and_then_inr in H as (ri&w5&Hri&H).
  set (later := λ p, p ≠ dir +:+ "/input_stream/receipt_inputs").
  match type of H with ?m _ = _ =>
    assert (writes later m) as Hw by (repeat write_step; unfold later, dir_path;
      rewrite ?str_app_assoc; intros Hq; do 3 apply (inj (String.app _)) in Hq;
      discriminate Hq)
  end.
  pose proof (writes_run _ _ _ _ _ H Hw) as Hext. clear Hw.
  assert (from = Agg → gp_receipt_inputs req ≠ [] ∧ gp_single_node req = false) as HA.
  { intros ->. revert Hagg. rewrite bool_decide_eq_true_2 by done. case_bool_decide; simpl.
    - by intros ?%reply_inr.
    - destruct (gp_single_node req); [by intros ?%reply_inr|done]. }
  assert (gp_receipt_inputs req ≠ [] → ri = dir +:+ "/input_stream/receipt_inputs" ∧
    fs_read (w_fs w') ri = Some (bincode_ser (gp_receipt_inputs req))) as HR.
  { intros Hne. apply (write_receipts_inr "/input_stream") in Hri as [-> Hr]; [|done].
    rewrite str_app_assoc in *. split; [done|].
    rewrite (fs_read_extends _ _ _ _ Hext); [done|]. unfold later. auto. }
  clear Hext. repeat apply and_then_inr in H as (?&?&_&H).
  apply ok_inr in H as [<- _]. split; simpl; try done.
  by rewrite str_app_assoc.
Qed.

End prepare.

(** ** Refusals *)

Lemma or_internal_inl m w e w' : or_internal m w = Ret (inl e, w') → e = StatusInternal.
Proof.
  unfold or_internal. intros ([|]&w1&_&H)%M_bind_Ret; [by apply ok_inl in H|].
  by apply reply_inl in H as [<- _].
Qed.
Lemma write_stream_inl dir name data w e w' :
  write_stream dir name data w = Ret (inl e, w') → e = StatusInternal.
Proof.
  unfold write_stream. destruct data; [by intros ?%ok_inl|].
  intros [H|(u&w1&_&H)]%and_then_inl; [by eapply or_internal_inl|by apply ok_inl in H].
Qed.
Lemma write_receipts_inl dir name l w e w' :
  write_receipts dir name l w = Ret (inl e, w') → e = StatusInternal.
Proof.
  unfold write_receipts. destruct l; [by intros ?%ok_inl|].
  intros [H|(u&w1&_&H)]%and_then_inl; [by eapply or_internal_inl|by apply ok_inl in H].
Qed.
Lemma write_blocks_inl dir items w e w' :
  write_blocks dir items w = Ret (inl e, w') → e = StatusInternal.
Proof.
  revert w. induction items as [|i items IH]; intros w; simpl; [by intros ?%ok_inl|].
  intros [H|(u&w1&_&H)]%and_then_inl; [by eapply or_internal_inl|by eapply IH].
Qed.

Lemma check_elf_inl base from req w r w' :
  check_elf base from req w = Ret (inl (Response r), w') →
  gpr_status r = Status.i32 Status.InvalidParameter ∧ w' = w.
Proof.
  unfold check_elf. case_decide as Hfrom; [|by intros ?%ok_inl].
  destruct (gp_elf_data req) as [|b data].
  - destruct (gp_elf_id req) as [id|]; [|by intros [[= <-] <-]%reply_inl].
    intros (ex&w1&He&H)%M_bind_Ret. unfold exists_m in He.
    apply M_bind_Ret in He as (w2&w3&[= <- <-]&[<- <-]%M_mret_Ret).
    destruct (fs_exists _ _); [by apply ok_inl in H|]. by apply reply_inl in H as [[= <-] <-].
  - intros (ex&w1&He&[H|(u&w2&_&H)]%and_then_inl)%M_bind_Ret; [|by apply ok_inl in H].
    destruct ex; [by apply ok_inl in H|]. by apply or_internal_inl in H.
Qed.

Definition receipts_message : string := "receipt_inputs should not empty".

Lemma prepare_inl feature cfg req from target w r w' :
  prepare_proof feature cfg req from target w = Ret (inl (Response r), w') →
  gpr_status r = Status.i32 Status.InvalidParameter ∧
  (w' = w ∨ gpr_error_message r = receipts_message).
Proof.
  unfold prepare_proof.
  intros [H|([elf_path elf_id]&w1&_&H)]%and_then_inl;
    [apply check_elf_inl in H as [? ->]; auto|].
  do 2 (apply and_then_inl in H as [H|(?&?&_&H)]; [by apply or_internal_inl in H|]).
  apply and_then_inl in H as [H|(?&?&_&H)]; [by apply write_blocks_inl in H|].
  apply and_then_inl in H as [H|(?&?&_&H)]; [by apply or_internal_inl in H|].
  do 2 (apply and_then_inl in H as [H|(?&?&_&H)]; [by apply write_stream_inl in H|]).
  apply and_then_inl in H as [H|(?&?&_&H)].
  { destruct (_ && _); [|by apply ok_inl in H]. apply reply_inl in H as [[= <-] _].
    split; [done|by right]. }
  do 2 (apply and_then_inl in H as [H|(?&?&_&H)]; [by apply write_receipts_inl in H|]).
  do 4 (apply and_then_inl in H as [H|(?&?&_&H)]; [by apply or_internal_inl in H|]).
  apply and_then_inl in H as [H|(?&?&_&H)].
  { case_decide; [by apply or_internal_inl in H|by apply ok_inl in H]. }
  apply and_then_inl in H as [H|(?&?&_&H)]; [by apply or_internal_inl in H|].
  by apply ok_inl in H.
Qed.

Lemma check_inl_invalid {A} req msg w e w' :
  invalid (A := A) req msg w = Ret (inl e, w') →
  ∃ r, e = Response r ∧ gpr_status r = Status.i32 Status.InvalidParameter ∧ w' = w.
Proof. intros [<- <-]%reply_inl. by eexists. Qed.

(** The three checks before the files refuse with an invalid parameter. *)
Definition refuses {A} (m : M (RpcReply + A)) : Prop :=
  ∀ w e w', m w = Ret (inl e, w') →
    ∃ r, e = Response r ∧ gpr_status r = Status.i32 Status.InvalidParameter ∧ w' = w.

Lemma check_seg_size_refuses feature req : refuses (check_seg_size feature req).
Proof.
  unfold check_seg_size. intros w e w'. destruct feature; [|by intros ?%ok_inl].
  destruct (_ && _); [apply check_inl_invalid|by intros ?%ok_inl].
Qed.
Lemma check_user_refuses db req : refuses (check_user db req).
Proof.
  intros w e w'. unfold check_user. destruct (verify_signature req);
    [|apply check_inl_invalid].
  intros (users&w1&[_ <-]%lift_Ret&H)%M_bind_Ret.
  destruct users; [by apply check_inl_invalid in H|by apply ok_inl in H].
Qed.
Lemma check_steps_refuses req : refuses (check_steps req).
Proof.
  intros w e w'. unfold check_steps. destruct (negb _); [apply check_inl_invalid|].
  intros (fs&w1&[_ <-]%lift_Ret&H)%M_bind_Ret.
  destruct (negb _) in H; [by apply check_inl_invalid in H|].
  apply M_bind_Ret in H as (ts&w2&[_ <-]%lift_Ret&H). by apply ok_inl in H.
Qed.

(** ** The handler as a whole *)

(** A request that passed every check. *)
Record passed (feature : Feature) (cfg : RuntimeConfig) (req : GenerateProofRequest)
    (db : Database) (user : string) (g : GenerateTask) (w w' : World) : Prop := {
  pa_seg_size : feature = feature_prover → gp_composite_proof req = false →
    valid_seg_size (gp_seg_size req) = true;
  pa_user : user ∈ db_user db;
  pa_signer : ∃ address, verify_signature req = Some address ∧
    trim_start_0x <$> to_checksum address = Some user;
  pa_steps : (gt_from_step g = Init ∨ gt_from_step g = Agg) ∧
    (gt_target_step g = Split ∨ gt_target_step g = Agg ∨ gt_target_step g = Snark);
  pa_requested : Step_i32 (gt_from_step g) = default (Step_i32 Init) (gp_from_step req) ∧
    Step_i32 (gt_target_step g) = default (Step_i32 Snark) (gp_target_step req);
  pa_proof_id : gt_proof_id g = gp_proof_id req;
  pa_max : gt_max_prover_num g = cap_prover_num cfg req;
  pa_prepared : local_dir (cf_base_dir cfg) →
    prepared cfg req feature (gt_from_step g) (gt_target_step g) (w_fs w') g
}.

Definition checks (feature : Feature) (cfg : RuntimeConfig) (req : GenerateProofRequest)
    (db : Database) : M (RpcReply + (string * GenerateTask)) :=
  and_then (check_seg_size feature req) (λ _,
  and_then (check_user db req) (λ user,
  and_then (check_steps req) (λ steps,
  and_then (prepare_proof feature cfg req steps.1 steps.2) (λ g, ok (user, g))))).

Lemma prepare_steps feature cfg req from target w g w' :
  prepare_proof feature cfg req from target w = Ret (inr g, w') →
  gt_from_step g = from ∧ gt_target_step g = target ∧ gt_proof_id g = gp_proof_id req ∧
  gt_max_prover_num g = cap_prover_num cfg req.
Proof.
  unfold prepare_proof. intros ([elf_path elf_id]&w1&_&H)%and_then_inr.
  cbv beta iota zeta in H. repeat apply and_then_inr in H as (?&?&_&H).
  by apply ok_inr in H as [<- _].
Qed.

Lemma checks_inr feature cfg req db w user g w' :
  checks feature cfg req db w = Ret (inr (user, g), w') →
  passed feature cfg req db user g w w'.
Proof.
  intros (u&w1&H1&H)%and_then_inr. apply and_then_inr in H as (user'&w2&H2&H).
  apply and_then_inr in H as (steps&w3&H3&H). apply and_then_inr in H as (g'&w4&H4&H).
  apply ok_inr in H as [[= -> ->] <-].
  destruct (check_user_inr _ _ _ _ _ H2) as [Hu Ha].
  destruct (check_steps_inr _ _ _ _ H3) as (?&?&?&?).
  destruct (prepare_steps _ _ _ _ _ _ _ _ H4) as (E1&E2&E3&E4).
  split; rewrite ?E1, ?E2; try done.
  - intros -> Hc. unfold check_seg_size in H1. rewrite Hc in H1. simpl in H1.
    destruct (valid_seg_size _); [done|]. by apply reply_inr in H1.
  - intros Hl. by apply prepare_inr in H4.
Qed.

Lemma checks_inl feature cfg req db w r w' :
  checks feature cfg req db w = Ret (inl (Response r), w') →
  gpr_status r = Status.i32 Status.InvalidParameter ∧
  (w' = w ∨ gpr_error_message r = receipts_message).
Proof.
  assert (∀ A (m : M (RpcReply + A)), refuses m → ∀ w w',
    m w = Ret (inl (Response r), w') →
    gpr_status r = Status.i32 Status.InvalidParameter ∧
    (w' = w ∨ gpr_error_message r = receipts_message)) as Href.
  { intros A m Hm w0 w0' (r'&[= <-]&?&->)%Hm. auto. }
  intros [H|(u&w1&->%check_seg_size_pure&H)]%and_then_inl;
    [by eapply Href, H; apply check_seg_size_refuses|].
  apply and_then_inl in H as [H|(user&w2&->%check_user_pure&H)];
    [by eapply Href, H; apply check_user_refuses|].
  apply and_then_inl in H as [H|(steps&w3&->%check_steps_pure&H)];
    [by eapply Href, H; apply check_steps_refuses|].
  apply and_then_inl in H as [H|(g&w4&_&H)]; [by eapply prepare_inl|by apply ok_inl in H].
Qed.

Lemma writes_pure {A} P (m : M A) : pure_of m → writes P m.
Proof. intros Hm w a w' ->%Hm. split; [apply fs_extends_refl|done]. Qed.

Lemma writes_checks feature cfg req db :
  local_dir (cf_base_dir cfg) →
  writes (request_path (cf_base_dir cfg) req) (checks feature cfg req db).
Proof.
  intros Hl. apply writes_and_then; [apply writes_pure, check_seg_size_pure|intros _].
  apply writes_and_then; [apply writes_pure, check_user_pure|intros user].
  apply writes_and_then; [apply writes_pure, check_steps_pure|intros steps].
  apply writes_and_then; [by apply writes_prepare|intros g]. apply writes_ret.
Qed.

Lemma cap_prover_num_bounds cfg req :
  cf_prover_addrs cfg ≠ [] → len (cf_prover_addrs cfg) < 2 ^ 32 →
  0 ≤ gp_max_prover_num req →
  1 ≤ cap_prover_num cfg req ≤ len (cf_prover_addrs cfg).
Proof.
  intros Hne Hlen Hmax. unfold cap_prover_num. rewrite u32_wrap_small by lia.
  assert (1 ≤ len (cf_prover_addrs cfg)) by (destruct (cf_prover_addrs cfg); simpl; [done|lia]).
  destruct (Z.eqb_spec (gp_max_prover_num req) 0); simpl; [lia|].
  destruct (Z.ltb_spec (len (cf_prover_addrs cfg)) (gp_max_prover_num req)); lia.
Qed.

(** [C21] What acceptance means: when [generate_proof] queues a task, the signer
    is on the whitelist, the proof id was free, the only change of the database is one
    new row, in the state Computing and equal to the queued task, the context is the
    text of a request whose steps are supported and which asks for at least one and
    at most all provers (when there are provers), and the reply says Computing. *)
Theorem generate_proof_accepts feature cfg req db tx_open w rep db' t w' :
  generate_proof feature cfg req db tx_open w = Ret ((rep, db', Some t), w') →
  ∃ user g,
    rep = Response (accepted feature cfg req (gt_target_step g)) ∧
    passed feature cfg req db user g w w' ∧
    db_stage_task db !! gp_proof_id req = None ∧
    db' = db <| db_stage_task := <[gp_proof_id req := (user, t)]> (db_stage_task db) |> ∧
    t = mkStageTask (gp_proof_id req) (Status.i32 Status.Computing)
          (Some (generate_to_json g)) None 0 0 ∧
    (cf_prover_addrs cfg ≠ [] → len (cf_prover_addrs cfg) < 2 ^ 32 →
       0 ≤ gp_max_prover_num req →
       1 ≤ gt_max_prover_num g ≤ len (cf_prover_addrs cfg)).
Proof.
  unfold generate_proof. intros (r&w1&Hc&H)%M_bind_Ret.
  destruct r as [e|[user g]]; [by apply M_mret_Ret in H as [[=] _]|].
  apply checks_inr in Hc. unfold insert_stage_task in H.
  destruct (db_online db); simpl in H; [|by apply M_mret_Ret in H as [[=] _]].
  destruct (db_stage_task db !! gp_proof_id req) eqn:Hid;
    [by apply M_mret_Ret in H as [[=] _]|].
  destruct tx_open; [|by apply M_mret_Ret in H as [[=] _]].
  apply M_mret_Ret in H as [[= <- <- <-] <-]. exists user, g.
  split_and!; [done..| | |].
  - by rewrite (pa_proof_id _ _ _ _ _ _ _ _ Hc).
  - by rewrite (pa_proof_id _ _ _ _ _ _ _ _ Hc).
  - rewrite (pa_max _ _ _ _ _ _ _ _ Hc). apply cap_prover_num_bounds.
Qed.


(** Other names lead elsewhere: the request whose id is "../elf" has the program cache for
    its proof directory. *)
Lemma dotdot_leaves_proof base req :
  base ≠ empty_str → gp_proof_id req = "../elf" →
  location (dir_path base req) = location (base +:+ "/elf") ∧
  ¬ below (base +:+ "/proof") (dir_path base req).
Proof.
  intros Hb Hid.
  assert (location (dir_path base req) = location (base +:+ "/elf")) as Hloc.
  { unfold dir_path. rewrite Hid. change (base +:+ "/proof/" +:+ "../elf") with
      (base +:+ "/" +:+ "proof/../elf"). change (base +:+ "/elf") with (base +:+ "/" +:+ "elf").
    by rewrite !location_app. }
  split; [done|]. intros (names&_&H). rewrite Hloc in H. apply (f_equal snd) in H. cbn [snd] in H.
  change (base +:+ "/elf") with (base +:+ "/" +:+ "elf") in H.
  change (base +:+ "/proof") with (base +:+ "/" +:+ "proof") in H.
  rewrite !location_app in H by done. cbn [fst snd] in H.
  rewrite !enter_plain, !rev_app_distr, !rev_involutive, <-(assoc_L (++)) in H by done.
  by apply (inj (app _)) in H.
Qed.

End service.
