(* ===== verification/ServiceAccept.v ===== *)
(** * ServiceAccept: a valid request is accepted

    ServiceThms says what acceptance and refusal mean; here, what is enough to be
    accepted: a signature of a registered user, supported steps, inputs for them, a free
    proof id, and room in the file system for the files of the request. *)

From S2P Require Import Prelude Text Proto World Tasks Stage Database ProverPool.
From S2P Require Import ProverClient Worker Config StageService ServiceLemmas ServiceThms.
From Stdlib Require Import Ascii.

(** ** Paths *)

Lemma ancestors_go_cons d c w ws :
  ancestors_go d (String c w :: ws) = ancestors_go (d +:+ String c empty_str) (w :: ws).
Proof. cbn. by rewrite !str_app_assoc. Qed.

(** A directory on the way to [p] is [p], or [p] goes on with a "/" after it. *)
Definition leads_to (a p : string) : Prop :=
  ∃ s, p = a +:+ s ∧ (s = empty_str ∨ ∃ t, s = "/" +:+ t).

Lemma ancestors_go_prefix d p a :
  a ∈ ancestors_go d (split_on "/" p) → leads_to a (d +:+ p).
Proof.
  revert d. induction p as [|c p IH]; intros d; cbn [split_on].
  - intros ->%list_elem_of_singleton. exists empty_str.
    split; [by rewrite !str_app_nil_r|by left].
  - destruct (Ascii.eqb_spec c "/") as [->|Hc].
    + cbn [ancestors_go]. rewrite str_app_nil_r. intros [->|Ha]%elem_of_cons.
      * exists ("/" +:+ p). eauto.
      * specialize (IH _ Ha). by rewrite str_app_assoc in IH.
    + destruct (split_on "/" p) as [|w ws] eqn:Hw.
      { by destruct p as [|c' p]; cbn in Hw; repeat case_match. }
      rewrite ancestors_go_cons. intros Ha%IH. by rewrite str_app_assoc in Ha.
Qed.

Lemma ancestors_prefix p a : a ∈ ancestors p → leads_to a p.
Proof. intros [_ Ha]%list_elem_of_filter. by apply ancestors_go_prefix in Ha. Qed.

Lemma ancestors_go_self d p : d +:+ p ∈ ancestors_go d (split_on "/" p).
Proof.
  revert d. induction p as [|c p IH]; intros d; cbn [split_on].
  - cbn. set_solver.
  - destruct (Ascii.eqb_spec c "/") as [->|Hc].
    + cbn [ancestors_go]. apply elem_of_cons. right. rewrite str_app_nil_r.
      specialize (IH (d +:+ "/")). by rewrite str_app_assoc in IH.
    + destruct (split_on "/" p) as [|w ws] eqn:Hw.
      { by destruct p as [|c' p]; cbn in Hw; repeat case_match. }
      rewrite ancestors_go_cons. specialize (IH (d +:+ String c empty_str)).
      by rewrite str_app_assoc in IH.
Qed.

Lemma ancestors_self p : p ≠ empty_str → p ∈ ancestors p.
Proof.
  intros Hp. apply list_elem_of_filter. split; [done|]. apply (ancestors_go_self empty_str).
Qed.

(** ** File systems with room for planned directories and files *)

Section room.
Context (D F : string → Prop).

Record room (fs : Fs) : Prop := {
  rm_dir d : D d → (d ∉ fs_denied fs) ∧ fs_files fs !! d = None;
  rm_file p : F p → (p ∉ fs_denied fs) ∧ p ∉ fs_dirs fs
}.
Hypothesis apart : ∀ p, D p → F p → False.

Lemma room_mkdir fs d :
  room fs → d ≠ empty_str → (∀ a, a ∈ ancestors d → D a) →
  ∃ fs', fs_create_dir_all fs d = Some fs' ∧ room fs' ∧
    d ∈ fs_dirs fs' ∧ fs_dirs fs ⊆ fs_dirs fs' ∧ fs_files fs' = fs_files fs.
Proof.
  intros [Hd Hf] Hne Ha. unfold fs_create_dir_all.
  assert (forallb (λ a, bool_decide (a ∉ fs_denied fs) && bool_decide (fs_files fs !! a = None))
    (ancestors d) = true) as ->.
  { apply forallb_forall. intros a Hin%list_elem_of_In. destruct (Hd a (Ha a Hin)).
    by rewrite !bool_decide_eq_true_2. }
  eexists. split_and!; [done| |cbn; apply elem_of_union_l, elem_of_list_to_set, ancestors_self, Hne
    |cbn; set_solver|done].
  split; cbn; [done|]. intros p Hp. destruct (Hf p Hp). split; [done|].
  intros [Hin%elem_of_list_to_set|]%elem_of_union; [|done]. by apply (apart p); [apply Ha|].
Qed.

Lemma room_create fs p data :
  room fs → F p → parent p ∈ fs_dirs fs →
  ∃ fs', fs_create fs p data = Some fs' ∧ room fs' ∧ fs_dirs fs' = fs_dirs fs.
Proof.
  intros [Hd Hf] Hp Hpar. destruct (Hf p Hp) as [Hden Hdir]. unfold fs_create.
  rewrite decide_False by tauto.
  rewrite (bool_decide_eq_true_2 _ Hpar), orb_true_r. eexists. split_and!; [done| |done].
  split; cbn; [|done]. intros d Hdd. destruct (Hd d Hdd). split; [done|].
  rewrite lookup_insert_ne; [done|]. intros ->. by apply (apart d).
Qed.

End room.

(** ** What a request needs *)

Section accept.
Context `{E : !External} `{J : !Json} `{S : !Service}.
Context (feature : Feature) (cfg : RuntimeConfig) (req : GenerateProofRequest).
Abbreviation base := (cf_base_dir cfg).
Abbreviation dir := (dir_path base req).

(** The directory of the request's blocks. *)
Definition block_name : string := "/0_" +:+ pretty (default 0 (gp_block_no req)).

Definition dir_names : list string :=
  [empty_str; block_name; "/input_stream"; "/output_stream"; "/segment"; "/prove/receipt";
   "/wrap"; "/snark"].
Definition file_names : list string :=
  ((λ b, block_name +:+ "/" +:+ bf_file_name b) <$> gp_block_data req) ++
  ["/input_stream/public_input"; "/input_stream/private_input";
   "/input_stream/receipt_inputs"; "/input_stream/receipts";
   "/wrap/public_values." +:+ public_values_suffix feature].

Definition elf_path : string := base +:+ "/elf/" +:+ sha256_hex (gp_elf_data req).

(** The directories a request makes, with those on the way, and the files it writes. *)
Definition planned_dir (d : string) : Prop := ∃ x, x ∈ dir_names ∧ leads_to d (dir +:+ x).
Definition planned_file (p : string) : Prop :=
  p = elf_path ∨ ∃ f, f ∈ file_names ∧ p = dir +:+ f.

(** The steps asked for. *)
Definition from_step : option Step := Step_from_i32 (default (Step_i32 Init) (gp_from_step req)).
Definition target_step : option Step :=
  Step_from_i32 (default (Step_i32 Snark) (gp_target_step req)).

Record valid_request (db : Database) (fs : Fs) : Prop := {
  vr_seg_size : feature = feature_prover → gp_composite_proof req = false →
    valid_seg_size (gp_seg_size req) = true;
  vr_user : ∃ address user, verify_signature req = Some address ∧
    trim_start_0x <$> to_checksum address = Some user ∧ user ∈ db_user db;
  vr_online : db_online db = true;
  vr_free : db_stage_task db !! gp_proof_id req = None;
  vr_target : target_step = Some Split ∨ target_step = Some Agg ∨ target_step = Some Snark;
  vr_from : from_step = Some Init ∧ gp_elf_data req ≠ [] ∨
            from_step = Some Agg ∧ gp_receipt_inputs req ≠ [] ∧ gp_single_node req = false;
  vr_blocks : ∀ b, b ∈ gp_block_data req → contains "/" (bf_file_name b) = false;
  vr_elf_dir : base +:+ "/elf" ∈ fs_dirs fs;
  vr_hash : contains "/" (sha256_hex (gp_elf_data req)) = false;
  vr_room : room planned_dir planned_file fs
}.

Lemma leads_to_app a b c : leads_to (a +:+ b) (a +:+ c) → leads_to b c.
Proof. intros (s&Hs&Hx). exists s. split; [|done]. rewrite str_app_assoc in Hs. by apply (inj _) in Hs. Qed.

(** No planned file is on the way to a planned directory. *)
Lemma planned_apart p : planned_dir p → planned_file p → False.
Proof.
  intros (x&Hx&Hl) [->|(f&Hf&->)].
  - unfold elf_path, dir_path in Hl. rewrite !str_app_assoc in Hl.
    apply leads_to_app in Hl as (s&Hs&_). discriminate Hs.
  - apply leads_to_app in Hl as (s&Hs&_).
    unfold file_names in Hf. apply elem_of_app in Hf as [(b&->&_)%list_elem_of_fmap|Hf].
    + unfold dir_names in Hx. rewrite !str_app_assoc in Hs. set_unfold.
      destruct_or?; subst; try (cbn [String.append] in Hs; discriminate Hs).
      rewrite <-(str_app_nil_r block_name) in Hs at 1. apply (inj _) in Hs. discriminate Hs.
    + unfold dir_names in Hx. set_unfold. destruct feature;
        destruct_or?; subst; cbn [String.append] in Hs; discriminate Hs.
Qed.

(** ** The preparation of a valid request returns *)

(** There is room, and the directories [ds] exist. *)
Definition ready (ds : list string) (w : World) : Prop :=
  room planned_dir planned_file (w_fs w) ∧ Forall (λ d, d ∈ fs_dirs (w_fs w)) ds.

(** A handler that returns a value, and keeps the room. *)
Definition kept {A} (ds : list string) (m : M (RpcReply + A)) : Prop :=
  ∀ w, ready ds w → ∃ a w', m w = Ret (inr a, w') ∧ ready ds w'.
Definition returns {A} (ds : list string) (m : M (RpcReply + A)) : Prop :=
  ∀ w, ready ds w → ∃ a w', m w = Ret (inr a, w').

Lemma returns_kept {A B} ds (m : M (RpcReply + A)) (k : A → M (RpcReply + B)) :
  kept ds m → (∀ a, returns ds (k a)) → returns ds (and_then m k).
Proof.
  intros Hm Hk w (a&w1&Hr&Hw1)%Hm. destruct (Hk a w1 Hw1) as (b&w2&Hb).
  exists b, w2. apply and_then_inr. by exists a, w1.
Qed.
Lemma kept_kept {A B} ds (m : M (RpcReply + A)) (k : A → M (RpcReply + B)) :
  kept ds m → (∀ a, kept ds (k a)) → kept ds (and_then m k).
Proof.
  intros Hm Hk w (a&w1&Hr&Hw1)%Hm. destruct (Hk a w1 Hw1) as (b&w2&Hb&Hw2).
  exists b, w2. split; [|done]. apply and_then_inr. by exists a, w1.
Qed.
Lemma kept_ok {A} ds (a : A) : kept ds (ok a).
Proof. intros w Hw. exists a, w. done. Qed.
Lemma returns_ok {A} ds (a : A) : returns ds (ok a).
Proof. intros w Hw. by exists a, w. Qed.

Hypothesis Hlocal : local_dir base.
Hypothesis Hblocks : ∀ b, b ∈ gp_block_data req → contains "/" (bf_file_name b) = false.
Hypothesis Hhash : contains "/" (sha256_hex (gp_elf_data req)) = false.

Lemma kept_write ds p data :
  is_s3_path p = false → planned_file p → parent p ∈ ds → kept ds (write_or_internal p data).
Proof.
  intros Hp HF Hpar [fs s3 n] [Hr Hds].
  destruct (room_create _ _ planned_apart fs p data Hr HF) as (fs'&Hc&Hr'&Hd').
  { by eapply Forall_forall in Hds. }
  exists tt, (mkWorld fs' s3 n). split.
  - unfold write_or_internal, or_internal. rewrite file_write_eq, Hp.
    unfold create_m, mbind, M_bind, get_world. cbn. by rewrite Hc.
  - split; [done|]. cbn. by rewrite Hd'.
Qed.

Lemma returns_mkdir {A} ds x (k : () → M (RpcReply + A)) :
  x ∈ dir_names → (∀ d, d = dir +:+ x → returns (d :: ds) (k tt)) →
  returns ds (and_then (mkdir_or_internal (dir +:+ x)) k).
Proof.
  intros Hx Hk [fs s3 n] [Hr Hds].
  destruct (room_mkdir _ _ planned_apart fs (dir +:+ x) Hr) as (fs'&Hc&Hr'&Hin&Hsub&_).
  { unfold dir_path. rewrite str_app_assoc. by destruct base. }
  { intros a Ha%ancestors_prefix. by exists x. }
  destruct (Hk _ eq_refl (mkWorld fs' s3 n)) as (a&w'&Ha).
  { split; [done|]. constructor; [done|]. eapply Forall_impl; [done|]. cbn. set_solver. }
  exists a, w'. apply and_then_inr. exists tt, (mkWorld fs' s3 n). split; [|done].
  unfold mkdir_or_internal, or_internal. rewrite file_create_dir_all_eq.
  rewrite (local_proof cfg req Hlocal). unfold mbind, M_bind, get_world. cbn. by rewrite Hc.
Qed.

Lemma returns_mkdir_dir {A} ds (k : () → M (RpcReply + A)) :
  returns (dir :: ds) (k tt) → returns ds (and_then (mkdir_or_internal dir) k).
Proof.
  intros Hk. rewrite <-(str_app_nil_r dir). apply returns_mkdir; [set_solver|].
  intros d ->. by rewrite str_app_nil_r.
Qed.

(** A file of the request, in a directory that is there. *)
Lemma kept_file ds x name data :
  x +:+ "/" +:+ name ∈ file_names → contains "/" name = false → dir +:+ x ∈ ds →
  kept ds (write_or_internal ((dir +:+ x) +:+ "/" +:+ name) data).
Proof.
  intros Hf Hn Hd. apply kept_write.
  - by apply local_proof2.
  - right. exists (x +:+ "/" +:+ name). by rewrite str_app_assoc.
  - by rewrite parent_app.
Qed.

Lemma kept_stream ds name data :
  "/input_stream/" +:+ name ∈ file_names → contains "/" name = false →
  dir +:+ "/input_stream" ∈ ds → kept ds (write_stream (dir +:+ "/input_stream") name data).
Proof.
  intros Hf Hn Hd. unfold write_stream. destruct data; [apply kept_ok|].
  apply kept_kept; [by apply kept_file|intros _; apply kept_ok].
Qed.
Lemma kept_receipts ds name l :
  "/input_stream/" +:+ name ∈ file_names → contains "/" name = false →
  dir +:+ "/input_stream" ∈ ds → kept ds (write_receipts (dir +:+ "/input_stream") name l).
Proof.
  intros Hf Hn Hd. unfold write_receipts. destruct l; [apply kept_ok|].
  apply kept_kept; [by apply kept_file|intros _; apply kept_ok].
Qed.
Lemma kept_blocks ds items :
  items ⊆ gp_block_data req → dir +:+ block_name ∈ ds →
  kept ds (write_blocks (dir +:+ block_name) items).
Proof.
  induction items as [|b items IH]; intros Hsub Hd; [apply kept_ok|].
  apply kept_kept; [|intros _; apply IH; [set_solver|done]].
  assert (b ∈ gp_block_data req) as Hb by set_solver.
  apply kept_file; [|by apply Hblocks|done]. apply elem_of_app. left.
  apply list_elem_of_fmap. by exists b.
Qed.

Lemma kept_elf ds from :
  (from = Init → gp_elf_data req ≠ []) → base +:+ "/elf" ∈ ds →
  kept ds (check_elf base from req).
Proof.
  intros Hfrom Hd. unfold check_elf. case_decide as Hi; [|apply kept_ok].
  specialize (Hfrom Hi). destruct (gp_elf_data req) as [|c data] eqn:Hdata; [done|].
  intros w Hw. erewrite M_bind_run by reflexivity. generalize (fs_exists (w_fs w)
    ((base +:+ "/elf") +:+ "/" +:+ sha256_hex (c :: data))) as ex.
  intros ex. revert w Hw. fold (kept (A := string * string) ds).
  refine (kept_kept _ _ _ _ (λ _, kept_ok _ _)). destruct ex; [apply kept_ok|].
  rewrite <-Hdata in *. apply kept_write.
  - rewrite str_app_assoc. by apply local_elf.
  - left. unfold elf_path. by rewrite !str_app_assoc.
  - by rewrite parent_app.
Qed.

Lemma returns_prepare from target :
  (from = Init → gp_elf_data req ≠ []) →
  (from = Agg → gp_receipt_inputs req ≠ [] ∧ gp_single_node req = false) →
  returns [base +:+ "/elf"] (prepare_proof feature cfg req from target).
Proof.
  intros Hinit Hagg. unfold prepare_proof. cbv zeta.
  apply returns_kept; [apply kept_elf; [done|set_solver]|]. intros [elf_path elf_id].
  apply returns_mkdir_dir, (returns_mkdir _ block_name); [set_solver|intros ? ->].
  apply returns_kept; [apply kept_blocks; set_solver|intros _].
  apply returns_mkdir; [set_solver|intros ? ->].
  apply returns_kept; [apply kept_stream; set_solver|intros pub].
  apply returns_kept; [apply kept_stream; set_solver|intros priv].
  apply returns_kept; [|intros _].
  { case_bool_decide as Ha; [|apply kept_ok]. destruct (Hagg Ha) as [? ->].
    rewrite bool_decide_eq_false_2 by done. apply kept_ok. }
  apply returns_kept; [apply kept_receipts; set_solver|intros ri].
  apply returns_kept; [apply kept_receipts; set_solver|intros rs].
  apply returns_mkdir; [set_solver|intros ? ->].
  apply returns_mkdir; [set_solver|intros ? ->].
  rewrite str_app_assoc.
  apply returns_mkdir; [set_solver|intros ? ->].
  apply returns_mkdir; [set_solver|intros ? ->].
  apply returns_kept.
  { case_decide; [|apply kept_ok].
    apply (kept_file _ "/wrap" ("public_values." +:+ public_values_suffix feature));
      [|by destruct feature|set_solver].
    apply elem_of_app. right. do 4 right. left. }
  intros _. apply returns_mkdir; [set_solver|intros ? ->]. apply returns_ok.
Qed.

Lemma check_steps_returns from target w :
  from_step = Some from → target_step = Some target →
  (from = Init ∨ from = Agg) → (target = Split ∨ target = Agg ∨ target = Snark) →
  check_steps req w = Ret (inr (from, target), w).
Proof.
  intros Hf Ht Hfrom Htgt. unfold check_steps.
  unfold from_step in Hf. unfold target_step in Ht.
  apply Step_from_i32_Some in Hf as Hf'. apply Step_from_i32_Some in Ht as Ht'.
  rewrite <-Hf', <-Ht', !Step_from_i32_i32.
  by destruct Hfrom as [-> | ->], Htgt as [-> |[-> | ->]].
Qed.

Lemma check_user_returns db w address user :
  verify_signature req = Some address → trim_start_0x <$> to_checksum address = Some user →
  user ∈ db_user db → db_online db = true → ∃ u, check_user db req w = Ret (inr u, w).
Proof.
  intros Hv Hc Hu Ho. unfold check_user. rewrite Hv. unfold get_user.
  destruct (to_checksum address) as [a|]; [|done]. injection Hc as Ha.
  cbn -[trim_start_0x]. unfold online. rewrite Ho, Ha, decide_True by done. by exists user.
Qed.

Lemma check_seg_size_returns w :
  (feature = feature_prover → gp_composite_proof req = false →
    valid_seg_size (gp_seg_size req) = true) →
  check_seg_size feature req w = Ret (inr tt, w).
Proof.
  intros Hs. unfold check_seg_size. destruct feature; [|done].
  destruct (gp_composite_proof req); [done|]. by rewrite Hs.
Qed.

End accept.

Section accepted.
Context `{E : !External} `{J : !Json} `{S : !Service}.
Context (feature : Feature) (cfg : RuntimeConfig) (req : GenerateProofRequest).

Lemma valid_request_checks db w :
  local_dir (cf_base_dir cfg) → valid_request feature cfg req db (w_fs w) →
  ∃ user g w', checks feature cfg req db w = Ret (inr (user, g), w') ∧
    target_step req = Some (gt_target_step g).
Proof.
  intros Hl [Hseg (address&user&Hv&Hc&Hu) Ho Hfree Htgt Hfrom Hblocks Helf Hhash Hroom].
  destruct (check_user_returns req db w address user Hv Hc Hu Ho) as [u Huser].
  assert (∃ target, target_step req = Some target ∧
    (target = Split ∨ target = Agg ∨ target = Snark)) as (target&Ht&Htgt')
    by naive_solver.
  assert (∃ from, from_step req = Some from ∧ (from = Init ∨ from = Agg) ∧
    (from = Init → gp_elf_data req ≠ []) ∧
    (from = Agg → gp_receipt_inputs req ≠ [] ∧ gp_single_node req = false))
    as (from&Hf&Hfrom'&Hinit&Hagg) by naive_solver.
  destruct (returns_prepare feature cfg req Hl Hblocks Hhash from target Hinit Hagg w)
    as (g&w'&Hp); [by split; [|constructor]|].
  destruct (prepare_steps _ _ _ _ _ _ _ _ Hp) as (_&Hg&_).
  exists u, g, w'. split; [|by rewrite Hg].
  apply and_then_inr. exists tt, w. split; [by apply check_seg_size_returns|].
  apply and_then_inr. exists u, w. split; [done|].
  apply and_then_inr. exists (from, target), w. split; [by apply check_steps_returns|].
  apply and_then_inr. by exists g, w'.
Qed.

(** The handler after the checks. *)
Lemma generate_proof_checked db w user g w' :
  checks feature cfg req db w = Ret (inr (user, g), w') →
  db_online db = true → db_stage_task db !! gp_proof_id req = None →
  ∃ db' t, generate_proof feature cfg req db true w =
    Ret ((Response (accepted feature cfg req (gt_target_step g)), db', Some t), w').
Proof.
  intros Hc Ho Hfree. unfold generate_proof. rewrite (M_bind_run _ _ _ _ _ Hc).
  unfold insert_stage_task. rewrite Ho, Hfree. by eexists _, _.
Qed.


End accepted.
