(* ===== verification/ServiceRun.v ===== *)
(** * ServiceRun: from a request to the first turn of its proof

    What [generate_proof] queued is what [run_stage_task] starts from: the theorems
    here compose the front end with the worker, under the laws of the two formats the
    request passes through. *)

From S2P Require Import Prelude Text Proto World Tasks Stage Database ProverPool.
From S2P Require Import ProverClient Worker RunRows Config StageService ServiceLemmas ServiceThms.

(** serde_json reads back the requests it wrote ([program] is not serialised), and
    bincode the receipts. *)
Class FormatLaws `{!External} `{!Json} `{!Service} : Prop := {
  generate_json : ∀ g, gt_program g = None →
    generate_from_json (generate_to_json g) = Some g;
  receipts_bincode : ∀ l, bincode_de (bincode_ser l) = Some l
}.

Section run.
Context `{E : !External} `{J : !Json} `{S : !Service} `{L : !FormatLaws}.

(** What the worker's loop starts with. *)
Record started (req : GenerateProofRequest) (g : GenerateTask) (now : Z)
    (ws : WorkerState) : Prop := {
  sd_generate : stage_generate_task (ws_stage ws) = g;
  sd_error : is_error (ws_stage ws) = false;
  sd_pending : is_success (ws_stage ws) = false;
  sd_idle : ws_inflight ws = [];
  sd_init : gt_from_step g = Init →
    stage_step (ws_stage ws) = Prove ∧
    st_state (stage_split_task (ws_stage ws)) = TASK_STATE_UNPROCESSED ∧
    st_elf_path (stage_split_task (ws_stage ws)) = gt_elf_path g;
  sd_agg : gt_from_step g = Agg →
    stage_step (ws_stage ws) = Snark ∧
    sn_state (stage_snark_task (ws_stage ws)) = TASK_STATE_UNPROCESSED ∧
    sn_from_input (stage_snark_task (ws_stage ws)) = true ∧
    head (gp_receipt_inputs req) = Some (sn_agg_receipt (stage_snark_task (ws_stage ws)));
  sd_row : ∃ user t, db_stage_task (ws_db ws) !! gp_proof_id req = Some (user, t) ∧
    stg_status t = Status.i32 Status.Computing ∧
    stg_step t = Step_i32 (stage_step (ws_stage ws)) ∧
    stg_check_at t = now ∧ ws_row_check_at ws = now
}.

Lemma dispatch_from_init feature g w :
  gt_from_step g = Init →
  ∃ s, dispatch feature (Stage_new g) w = Ret (s, bump 1 w) ∧
    stage_generate_task s = g ∧ stage_is_error s = false ∧ stage_step s = Prove ∧
    stage_prove_tasks s = [] ∧ stage_is_tasks_gen_done s = false ∧
    st_state (stage_split_task s) = TASK_STATE_UNPROCESSED ∧
    st_elf_path (stage_split_task s) = gt_elf_path g ∧
    stage_snark_task s = SnarkTask_default.
Proof. intros Hf. unfold dispatch. simpl. rewrite Hf. by eexists. Qed.

Lemma dispatch_from_agg feature g w l data r :
  gt_from_step g = Agg →
  fs_read (w_fs w) (gt_receipt_inputs_path g) = Some data →
  bincode_de data = Some l → head l = Some r →
  ∃ s, dispatch feature (Stage_new g) w = Ret (s, bump 1 w) ∧
    stage_generate_task s = g ∧ stage_is_error s = false ∧ stage_step s = Snark ∧
    sn_state (stage_snark_task s) = TASK_STATE_UNPROCESSED ∧
    sn_from_input (stage_snark_task s) = true ∧ sn_agg_receipt (stage_snark_task s) = r.
Proof.
  intros Hf Hr Hl Hh. unfold dispatch. simpl. rewrite Hf. simpl.
  unfold gen_snark_task, read_m, mbind, M_bind, lift, get_world, new_uuid, mret, M_ret.
  cbn -[fs_read]. rewrite Hf. cbn -[fs_read]. rewrite Hr. cbn. rewrite Hl. cbn.
  rewrite Hh. by eexists.
Qed.

(** The row of the queued task takes the step and the time of the start. *)
Lemma start_row db id user t now step :
  db_online db = true → db_stage_task db !! id = Some (user, t) → stg_check_at t = 0 →
  ∃ db', update_stage_task_check_at db id (u64_wrap (stg_check_at t)) now step =
      Some (1, db') ∧
    db_stage_task db' !! id =
      Some (user, t <| stg_check_at := now |> <| stg_step := step |>).
Proof.
  intros Ho Hr Hc. unfold update_stage_task_check_at. rewrite Hr, Hc. unfold online.
  simpl. rewrite Ho. eexists. split; [done|]. simpl. by rewrite lookup_insert_eq.
Qed.

Lemma loop_start_run feature t g now now' db w s w' user :
  dispatch feature (Stage_new g) w = Ret (s, w') →
  db_online db = true → db_stage_task db !! stg_id t = Some (user, t) →
  stg_check_at t = 0 →
  ∃ ws, loop_start feature t g now now' db w = Ret (ws, w') ∧ ws_stage ws = s ∧
    ws_inflight ws = [] ∧ ws_row_check_at ws = now ∧
    db_stage_task (ws_db ws) !! stg_id t =
      Some (user, t <| stg_check_at := now |> <| stg_step := Step_i32 (stage_step s) |>).
Proof.
  intros Hd Ho Hr Hc.
  destruct (start_row db (stg_id t) user t now (Step_i32 (stage_step s)) Ho Hr Hc)
    as (db'&Hu&Hrow).
  unfold loop_start. rewrite (M_bind_run _ _ _ _ _ Hd), Hu. by eexists.
Qed.

(** An accepted request's task is what the worker's loop can start on. *)
Lemma queued_task feature cfg req db tx_open w rep db' t w' :
  local_dir (cf_base_dir cfg) →
  generate_proof feature cfg req db tx_open w = Ret ((rep, db', Some t), w') →
  ∃ user g,
    t = mkStageTask (gp_proof_id req) (Status.i32 Status.Computing)
          (Some (generate_to_json g)) None 0 0 ∧
    generate_from_json (generate_to_json g) = Some g ∧
    (gt_from_step g = Init ∨ gt_from_step g = Agg) ∧
    Step_i32 (gt_from_step g) = default (Step_i32 Init) (gp_from_step req) ∧
    Step_i32 (gt_target_step g) = default (Step_i32 Snark) (gp_target_step req) ∧
    prepared cfg req feature (gt_from_step g) (gt_target_step g) (w_fs w') g ∧
    db_online db' = true ∧
    db_stage_task db' !! gp_proof_id req = Some (user, t).
Proof.
  intros Hl. unfold generate_proof. intros (r&w1&Hc&H)%M_bind_Ret.
  destruct r as [e|[user g]]; [by apply M_mret_Ret in H as [[=] _]|].
  apply checks_inr in Hc. unfold insert_stage_task in H.
  destruct (db_online db) eqn:Ho; simpl in H; [|by apply M_mret_Ret in H as [[=] _]].
  destruct (db_stage_task db !! gp_proof_id req) eqn:Hid;
    [by apply M_mret_Ret in H as [[=] _]|].
  destruct tx_open; [|by apply M_mret_Ret in H as [[=] _]].
  apply M_mret_Ret in H as [[= <- <- <-] <-]. exists user, g.
  pose proof (pa_prepared _ _ _ _ _ _ _ _ Hc Hl) as Hp.
  pose proof (pa_proof_id _ _ _ _ _ _ _ _ Hc) as Hid'.
  destruct (pa_steps _ _ _ _ _ _ _ _ Hc) as [Hf _].
  destruct (pa_requested _ _ _ _ _ _ _ _ Hc) as [Hreq Htgt].
  split_and!; [by rewrite Hid'| |done|done|done|done|done|].
  - apply generate_json, Hp.
  - simpl. rewrite lookup_insert_eq. by rewrite Hid'.
Qed.

(** How a single-node proof starts: from its first step, so that it is not left alone, and
    with one task for a node, which has the whole proof. *)
Record single_started (req : GenerateProofRequest) (g : GenerateTask) (t : StageTask)
    (w : World) : Prop := {
  ss_from : gt_from_step g = Init;
  ss_step : stg_step t = Step_i32 Init;
  ss_task : ∃ node w1, get_single_node_task (Stage_new g) w = Ret (node, w1) ∧
    sg_state node = TASK_STATE_UNPROCESSED ∧ sg_proof_id node = gp_proof_id req ∧
    sg_base_dir node = gt_base_dir g ∧ sg_elf_path node = gt_elf_path g ∧
    sg_private_input_path node = gt_private_input_path g ∧
    sg_receipt_inputs_path node = gt_receipt_inputs_path g ∧
    sg_target_step node = gt_target_step g
}.

(** What [run_stage_task] does after the start of the loop. *)
Definition after_start (feature : Feature) (t : StageTask) (g : GenerateTask) (duration : Z)
    (tis : list TurnInput) (ws : WorkerState) : M (option Database) :=
  r ← run_loop feature (stg_id t) tis ws;
  match r with
  | Some (Break ws) => db ← loop_finish (stg_id t) g duration ws; mret (Some db)
  | _ => mret None
  end.

Lemma run_stage_task_single feature t g now now' duration e tis db w :
  stg_context t = Some (generate_to_json g) →
  generate_from_json (generate_to_json g) = Some g → gt_single_node g = true →
  run_stage_task feature t now now' duration e tis db w =
    (db ← run_single_node t g now duration e db; mret (Some db)) w.
Proof. intros Hc Hj Hs. unfold run_stage_task. by rewrite Hc, Hj, Hs. Qed.

Lemma run_stage_task_loop feature t g now now' duration e tis db w ws w1 :
  stg_context t = Some (generate_to_json g) →
  generate_from_json (generate_to_json g) = Some g → gt_single_node g = false →
  loop_start feature t g now now' db w = Ret (ws, w1) →
  run_stage_task feature t now now' duration e tis db w =
    after_start feature t g duration tis ws w1.
Proof.
  intros Hc Hj Hs Hl. unfold run_stage_task. rewrite Hc, Hj, Hs.
  by rewrite (M_bind_run _ _ _ _ _ Hl).
Qed.

(** The loop starts on the task of an accepted request. *)
Lemma loop_started feature cfg req g user t now now' db w :
  prepared cfg req feature (gt_from_step g) (gt_target_step g) (w_fs w) g →
  gt_from_step g = Init ∨ gt_from_step g = Agg →
  t = mkStageTask (gp_proof_id req) (Status.i32 Status.Computing)
        (Some (generate_to_json g)) None 0 0 →
  db_online db = true → db_stage_task db !! gp_proof_id req = Some (user, t) →
  ∃ ws w1, loop_start feature t g now now' db w = Ret (ws, w1) ∧ started req g now ws.
Proof.
  intros Hp Hfrom Ht Ho Hrow.
  assert (stg_check_at t = 0 ∧ stg_id t = gp_proof_id req) as [Hca Hid] by by rewrite Ht.
  assert (stg_status t = Status.i32 Status.Computing) as Hst by by rewrite Ht.
  rewrite <-Hid in Hrow. destruct Hfrom as [Hf|Hf].
  - destruct (dispatch_from_init feature g w Hf) as (s&Hd&?&?&?&?&?&?&?&Hsn).
    destruct (loop_start_run feature t g now now' db w s _ user Hd Ho Hrow Hca)
      as (ws&Hs&Hws&?&Hnow&Hrow'). exists ws, (bump 1 w). split; [done|].
    split; rewrite ?Hws; try done.
    + unfold is_success. by rewrite bool_decide_eq_false_2, Hsn by congruence.
    + congruence.
    + rewrite <-Hid, Hrow'. by eauto 10.
  - destruct (pp_agg _ _ _ _ _ _ _ Hp Hf) as [Hne Hsingle].
    destruct (pp_receipts _ _ _ _ _ _ _ Hp Hne) as [_ Hread].
    destruct (gp_receipt_inputs req) as [|r l] eqn:Hri; [done|].
    destruct (dispatch_from_agg feature g w (r :: l) _ r Hf Hread
      (receipts_bincode _) eq_refl) as (s&Hd&?&?&?&Hsn&?&?).
    destruct (loop_start_run feature t g now now' db w s _ user Hd Ho Hrow Hca)
      as (ws&Hs&Hws&?&Hnow&Hrow'). exists ws, (bump 1 w). split; [done|].
    split; rewrite ?Hws; try done.
    + unfold is_success. by rewrite bool_decide_eq_false_2, Hsn by congruence.
    + congruence.
    + intros _. rewrite Hri. simpl. split_and!; congruence.
    + rewrite <-Hid, Hrow'. by eauto 10.
Qed.


(** On another file system the receipts of a request from aggregation are not read:
    [gen_snark_task] opens their path as a local file, and the start panics. *)
Lemma receipts_not_local feature t g now now' db w :
  gt_from_step g = Agg → fs_read (w_fs w) (gt_receipt_inputs_path g) = None →
  loop_start feature t g now now' db w = Panic.
Proof.
  intros Hf Hr. unfold loop_start, dispatch, mbind, M_bind. simpl. rewrite Hf. simpl.
  unfold gen_snark_task, read_m, mbind, M_bind, lift, get_world, new_uuid, mret, M_ret.
  cbn -[fs_read]. rewrite Hf. cbn -[fs_read]. by rewrite Hr.
Qed.

(** ** What the end of a run stores *)

Lemma from_utf8_Some b text : from_utf8 b = Some text → String.list_byte_of_string text = b.
Proof.
  unfold from_utf8. destruct (utf8_valid _); [|done]. intros [= <-].
  apply String.list_byte_of_string_of_list_byte.
Qed.

(** The row a database has for a proof, when the server answers. *)
Definition stored (db : Database) (id : string) (t : StageTask) : Prop :=
  db_online db = true ∧ ∃ user, db_stage_task db !! id = Some (user, t).

Lemma update_check_at_stored db id old now step r db' t :
  db_stage_task db !! id = Some t →
  update_stage_task_check_at db id old now step = Some (r, db') →
  ∃ t', db_stage_task db' !! id = Some t' ∧ stg_context t'.2 = stg_context t.2 ∧
    db_prove_task db' = db_prove_task db.
Proof.
  intros Ht. unfold update_stage_task_check_at. rewrite Ht. destruct t as [a t].
  unfold online. destruct (_ =? _), (db_online db); intros [= <- <-]; try done;
    [|by eauto]. simpl. rewrite lookup_insert_eq. by eauto.
Qed.

Lemma update_stage_task_stored db id status result db' t :
  db_stage_task db !! id = Some t → update_stage_task db id status result = Some db' →
  ∃ t', stored db' id t' ∧ stg_context t' = stg_context t.2 ∧ stg_status t' = status ∧
    stg_result t' = Some result ∧ db_prove_task db' = db_prove_task db.
Proof.
  intros Ht. unfold update_stage_task, online. destruct (db_online db) eqn:Ho; [|done].
  intros [= <-]. simpl. unfold stored. simpl. rewrite lookup_alter_eq, Ht. simpl. by eauto 10.
Qed.

(** What the end of the loop stores. *)
Lemma loop_finish_stored id g duration ws w db w' t :
  db_stage_task (ws_db ws) !! id = Some t →
  loop_finish id g duration ws w = Ret (db, w') →
  w' = w ∧ ∃ t' text, stored db id t' ∧ stg_context t' = stg_context t.2 ∧
    db_prove_task db = db_prove_task (ws_db ws) ∧ stg_result t' = Some text ∧
    if is_error (ws_stage ws)
    then stg_status t' = Status.i32 (error_status (stage_step (ws_stage ws))) ∧
         text = empty_str
    else stg_status t' = Status.i32 Status.Success ∧
         if decide (gt_target_step g = Snark)
         then file_read (gt_snark_path g) w =
                Ret (Some (String.list_byte_of_string text), w)
         else text = empty_str.
Proof.
  intros Ht. unfold loop_finish. destruct (is_error (ws_stage ws)).
  { intros [Hu%unwrap_Ret <-]%lift_Ret. split; [done|].
    destruct (update_stage_task_stored _ _ _ _ _ _ Ht Hu) as (t'&?&?&?&?&?).
    by eauto 10. }
  intros (result&w1&Hr&H)%M_bind_Ret. apply M_bind_Ret in H as ([n db1]&w2&[Hc <-]%lift_Ret&H).
  apply unwrap_Ret in Hc. apply M_bind_Ret in H as (text&w3&[Hx%unwrap_Ret <-]%lift_Ret&H).
  apply lift_Ret in H as [Hu%unwrap_Ret <-].
  destruct (update_check_at_stored _ _ _ _ _ _ _ _ Ht Hc) as (t1&Ht1&Hctx1&Hp1).
  destruct (update_stage_task_stored _ _ _ _ _ _ Ht1 Hu) as (t'&?&?&?&?&?).
  apply from_utf8_Some in Hx. case_decide as Htgt.
  - apply M_bind_Ret in Hr as (r&w2&Hr&[Hr'%unwrap_Ret <-]%lift_Ret).
    pose proof (file_read_same _ _ _ _ Hr) as ->. split; [done|].
    exists t', text. split_and!; congruence.
  - apply M_mret_Ret in Hr as [<- <-]. split; [done|]. exists t', text.
    split_and!; try congruence. by destruct text.
Qed.

Lemma stored_get db id t : stored db id t → get_stage_task db id = Some t.
Proof. intros [Ho [u Ht]]. unfold get_stage_task, online. by rewrite Ho, Ht. Qed.

(** ** Block numbers

    [gen_program] is not written for a positive block number. *)

Lemma task_with_no_block g no n w :
  gt_program g = None → gt_block_no g = Some n → 0 < n → task_with_no g no w = Panic.
Proof.
  intros Hp Hb Hn. unfold task_with_no, gen_program. rewrite Hp, Hb.
  assert ((0 <? n) = true) as -> by lia. done.
Qed.

Lemma tasks_with_nos_block g n w :
  gt_program g = None → gt_block_no g = Some n → 0 < n → tasks_with_nos g 0 64 w = Panic.
Proof.
  intros Hp Hb Hn. unfold tasks_with_nos.
  change (seqZ 0 (64 - 0)) with (0 :: seqZ 1 63).
  cbn [mapM]. unfold mbind, M_bind. by rewrite (task_with_no_block _ _ n).
Qed.

(** A stage that has just been started cannot generate its prove tasks. *)
Record blocked (s : Stage) : Prop := {
  bk_step : stage_step s = Prove;
  bk_program : gt_program (stage_generate_task s) = None;
  bk_number : ∃ n, gt_block_no (stage_generate_task s) = Some n ∧ 0 < n;
  bk_target : gt_target_step (stage_generate_task s) ≠ Split;
  bk_todo : stage_is_tasks_gen_done s = false;
  bk_prove : stage_prove_tasks s = []
}.

Lemma dispatch_blocked feature s w : blocked s → dispatch feature s w = Panic.
Proof.
  intros [Hs Hp (n&Hb&Hn) Ht Hd Hl]. unfold dispatch. rewrite Hs.
  unfold dispatch_prove, gen_prove_task. rewrite bool_decide_eq_false_2, Hd, Hl by done.
  unfold mbind, M_bind. cbn [orb]. by rewrite (tasks_with_nos_block _ n).
Qed.

Lemma get_prove_task_none fs now s :
  stage_prove_tasks s = [] → get_prove_task fs now s = (None, s).
Proof. intros Hl. destruct s. simpl in Hl. by subst. Qed.

Lemma spawn_blocked now s w :
  blocked s → ∃ tasks s', spawn_tasks now s w = Ret ((tasks, s'), w) ∧ blocked s' ∧
    stage_is_error s' = stage_is_error s ∧
    stage_snark_task s' = stage_snark_task s ∧
    Forall (λ t, match t with TSplit _ => True | _ => False end) tasks.
Proof.
  intros [Hs Hp Hb Ht Hd Hl]. unfold spawn_tasks. rewrite Hs.
  unfold get_split_task. destruct (get_task now (stage_split_task s)) as [r st].
  unfold mbind, M_bind, get_world. cbv beta iota zeta.
  rewrite get_prove_task_none by done.
  assert (∀ b : bool, (if b then (None, s <| stage_split_task := st |>)
    else (@None ProveTask, s <| stage_split_task := st |>)) =
    (None, s <| stage_split_task := st |>)) as -> by by intros [].
  simpl. rewrite Hd. simpl. eexists _, _. split; [done|].
  split_and!; [by split|done|done|]. destruct r; by repeat constructor.
Qed.

Lemma is_success_blocked s :
  blocked s → sn_state (stage_snark_task s) = TASK_STATE_INITIAL → is_success s = false.
Proof.
  intros Hb Hsn. unfold is_success. by rewrite bool_decide_eq_false_2, Hsn
    by (rewrite (bk_step _ Hb); done).
Qed.

Lemma answer_blocked now t e r s db :
  answer (TSplit t) e = Some r → blocked s →
  ∃ s' db', (∀ w, on_answer now r s db w = Ret ((s', db'), w)) ∧ blocked s' ∧
    stage_snark_task s' = stage_snark_task s.
Proof.
  intros Ha Hb. destruct e; simpl in Ha; simplify_eq. unfold on_answer.
  unfold on_split_task. destruct (on_task _ _ _ _) as [[src dst] err].
  eexists _, _. split; [done|]. split; [|done]. destruct Hb. by split.
Qed.

(** The end of a turn after which the proof has failed. *)
Definition failed_turn (r : Turn) : Prop :=
  ∃ ws, r = Break ws ∧ is_error (ws_stage ws) = true ∧ stage_step (ws_stage ws) = Prove.

(** No event lets a blocked stage go on. *)
Lemma bottom_blocked feature id now ev ws w :
  blocked (ws_stage ws) → is_error (ws_stage ws) = false →
  sn_state (stage_snark_task (ws_stage ws)) = TASK_STATE_INITIAL →
  Forall (λ t, match t with TSplit _ => True | _ => False end) (ws_inflight ws) →
  (ev = Tick → loop_bottom feature id now ev ws w = Panic) ∧
  ∀ r w', loop_bottom feature id now ev ws w = Ret (Some r, w') → failed_turn r.
Proof.
  intros Hb He Hsn Hf. unfold loop_bottom. destruct ev as [|i e].
  - assert ((take_event now Tick ws ≫= λ ws0, match ws0 with
      | None => mret None
      | Some ws0 => if is_success (ws_stage ws0) || is_error (ws_stage ws0)
          then mret (Some (Break ws0))
          else s ← dispatch feature (ws_stage ws0);
               mret (Some (Continue (heartbeat id now (ws0 <| ws_stage := s |>))))
      end) w = Panic) as ->; [|by split].
    unfold mbind, M_bind. simpl. rewrite is_success_blocked, He by done. simpl.
    unfold mbind, M_bind. by rewrite dispatch_blocked.
  - split; [done|]. intros r w' (o&w1&Ht&H)%M_bind_Ret. unfold take_event in Ht.
    destruct (ws_inflight ws !! i) as [t|] eqn:Hi; simpl in Ht;
      [|apply M_mret_Ret in Ht as [<- _]; by apply M_mret_Ret in H as [[=] _]].
    pose proof (Forall_lookup_1 _ _ _ _ Hf Hi) as Hk. destruct t as [t| | |]; try done.
    destruct (answer (TSplit t) e) as [a|] eqn:Ha;
      [|apply M_mret_Ret in Ht as [<- _]; by apply M_mret_Ret in H as [[=] _]].
    destruct (answer_blocked now t e a (ws_stage ws) (ws_db ws) Ha Hb)
      as (s'&db'&Hon&Hb'&Hsn').
    rewrite (M_bind_run _ _ _ _ _ (Hon w)) in Ht. apply M_mret_Ret in Ht as [<- _].
    simpl in H. rewrite is_success_blocked in H by congruence. simpl in H.
    destruct (is_error s') eqn:He'.
    + apply M_mret_Ret in H as [[= <-] _]. eexists. split; [done|]. split; [done|apply Hb'].
    + unfold mbind, M_bind in H. by rewrite dispatch_blocked in H.
Qed.

Lemma turn_blocked feature id ti ws w :
  blocked (ws_stage ws) → is_error (ws_stage ws) = false →
  sn_state (stage_snark_task (ws_stage ws)) = TASK_STATE_INITIAL → ws_inflight ws = [] →
  (ti_event ti = Tick → loop_turn feature id ti ws w = Panic) ∧
  ∀ r w', loop_turn feature id ti ws w = Ret (Some r, w') → failed_turn r.
Proof.
  intros Hb He Hsn Hin.
  destruct (spawn_blocked (ti_now_top ti) (ws_stage ws) (w <| w_fs := ti_fs_top ti |>) Hb)
    as (tasks&s'&Hs&Hb'&He'&Hsn'&Hf).
  assert (∃ ws1, loop_top (ti_now_top ti) ws (w <| w_fs := ti_fs_top ti |>) =
      Ret (ws1, w <| w_fs := ti_fs_top ti |>) ∧ ws_stage ws1 = s' ∧
      ws_inflight ws1 = tasks) as (ws1&Ht&Hws1&Hin1).
  { unfold loop_top. rewrite (M_bind_run _ _ _ _ _ Hs), Hin. by eexists. }
  assert (loop_turn feature id ti ws w = loop_bottom feature id (ti_now_bottom ti)
      (ti_event ti) ws1 (w <| w_fs := ti_fs_bottom ti |>)) as ->.
  { unfold loop_turn, put_fs. unfold mbind, M_bind. by rewrite Ht. }
  unfold is_error in *. rewrite <-He', <-Hws1 in He. rewrite <-Hsn', <-Hws1 in Hsn.
  subst s' tasks. by apply bottom_blocked.
Qed.

(** A run that starts blocked and returns leaves its row with the error of proving. *)
Lemma blocked_fails feature t g duration tis ws w db w' user t0 :
  blocked (ws_stage ws) → is_error (ws_stage ws) = false →
  sn_state (stage_snark_task (ws_stage ws)) = TASK_STATE_INITIAL → ws_inflight ws = [] →
  db_stage_task (ws_db ws) !! stg_id t = Some (user, t0) →
  after_start feature t g duration tis ws w = Ret (Some db, w') →
  ∃ t', stored db (stg_id t) t' ∧ stg_status t' = Status.i32 Status.ProveError.
Proof.
  intros Hb He Hsn Hin Hrow (r&w1&Hloop&H)%M_bind_Ret.
  destruct r as [[ws'|ws']|]; [by apply M_mret_Ret in H as [[=] _]| |by apply M_mret_Ret in H as [[=] _]].
  apply M_bind_Ret in H as (db1&w2&Hfin&[[= ->] _]%M_mret_Ret).
  destruct (rk_row _ _ _ (run_loop_rows _ _ _ _ _ _ _ Hloop) _ _ Hrow) as (t1&Ht1&_).
  destruct (loop_finish_stored _ _ _ _ _ _ _ _ Ht1 Hfin) as (_&t'&text&Hs&_&_&_&Hst).
  assert (failed_turn (Break ws')) as (ws0&[= <-]&Herr&Hstep).
  { destruct tis as [|ti tis]; cbn [run_loop] in Hloop; [by apply M_mret_Ret in Hloop as [[=] _]|].
    destruct (turn_blocked feature (stg_id t) ti ws w Hb He Hsn Hin) as [_ Hturn].
    apply M_bind_Ret in Hloop as ([r|]&w3&Ht&Hl); [|by apply M_mret_Ret in Hl as [[=] _]].
    apply Hturn in Ht as Hf. destruct Hf as (ws0&->&?&?).
    apply M_mret_Ret in Hl as [[= <-] _]. by exists ws0. }
  cbn [turn_state] in Hst. rewrite Herr, Hstep in Hst. exists t'. split; [done|]. apply Hst.
Qed.


(** ** What [get_status] serves *)

(** Rows of [prove_task] have a content ([save_row] writes one). *)
Definition rows_filled (db : Database) : Prop :=
  map_Forall (λ _ r, is_Some (pr_content r)) (db_prove_task db).

Lemma infos_total {Info} (decode : string → option Info) db id itype :
  rows_filled db → ∃ o, get_prove_task_infos decode db id itype = Ret o.
Proof.
  intros Hf. unfold get_prove_task_infos, online. destruct (db_online db); [|by eexists].
  assert (Forall (λ r, is_Some (pr_content r))
    (filter (λ r, pr_proof_id r = id ∧ pr_itype r = itype)
       (map_to_list (db_prove_task db)).*2)) as HF.
  { apply Forall_forall. intros r [_ Hr]%list_elem_of_filter.
    apply list_elem_of_fmap in Hr as ([k r']&->&Hk%elem_of_map_to_list).
    by apply (Hf k). }
  induction HF as [|r l [c Hc] _ [o IH]]; [by eexists|]. rewrite Hc. simpl.
  destruct (decode c) as [i|]; [|by eexists]. rewrite IH. by eexists.
Qed.

Lemma file_read_total p w r w' : file_read p w = Ret (r, w') → file_read p w = Ret (r, w).
Proof. intros H. by rewrite <-(file_read_same _ _ _ _ H) at 2. Qed.

Lemma get_status_stored feature cfg db id t g w :
  stored db id t → rows_filled db → status_context (stg_context t) = Some g →
  gt_output_stream_path g = empty_str → gt_composite_proof g = false →
  ∃ r0, gs_status r0 = stg_status t ∧ gs_step r0 = stg_step t ∧ gs_proof_id r0 = id ∧
    gs_proof_with_public_inputs r0 = [] ∧
    get_status feature cfg id db w = read_proof feature cfg t r0 w.
Proof.
  intros Hs Hf Hc Ho Hcomp. destruct (infos_total split_from_json db id TASK_ITYPE_SPLIT Hf)
    as [infos Hi].
  unfold get_status. rewrite (stored_get _ _ _ Hs), Hi. unfold read_outputs. rewrite Hc, Ho.
  unfold mbind at 1, M_bind. simpl. rewrite andb_false_r. unfold mret at 1, M_ret.
  destruct (default [] infos); (eexists; split_and!; [| | | |reflexivity]; done).
Qed.

(** The proof bytes, and nothing else of interest, come from [read_proof]. *)
Lemma read_proof_run feature cfg t g text r0 w proof :
  status_context (stg_context t) = Some g → gt_composite_proof g = false →
  gt_target_step g ≠ Split → stg_result t = Some text →
  (if bool_decide (gt_target_step g = Agg) && (stg_status t =? 0)
   then data ← file_read (gt_snark_path g); mret (default [] data)
   else mret (String.list_byte_of_string text)) w = Ret (proof, w) →
  ∃ r, read_proof feature cfg t r0 w = Ret (r, w) ∧ gs_status r = gs_status r0 ∧
    gs_proof_id r = gs_proof_id r0 ∧ gs_proof_with_public_inputs r = proof.
Proof.
  intros Hc Hcomp Htgt Hr Hp. unfold read_proof, status_steps. rewrite Hc, Hcomp, Hr.
  rewrite bool_decide_eq_false_2 by done. cbv beta iota zeta. cbn [negb andb].
  assert (∀ k : GetStatusResponse → M GetStatusResponse,
    ((proof ← (if bool_decide (gt_target_step g = Agg) && (stg_status t =? 0)
       then data ← file_read (gt_snark_path g); mret (default [] data)
       else mret (String.list_byte_of_string text));
     mret (r0 <| gs_proof_with_public_inputs := proof |>)) ≫= k) w =
    k (r0 <| gs_proof_with_public_inputs := proof |>) w) as ->.
  { intros k. apply M_bind_run. by rewrite (M_bind_run _ _ _ _ _ Hp). }
  destruct (cf_fileserver_url cfg); [|by eexists]. cbv zeta.
  destruct (decide (feature = feature_prover ∧ _)); by eexists.
Qed.

(** What is served is what was made: after the loop of a proof has finished,
    [get_status] returns; a failed proof is reported with the error of the step it
    failed in and no proof bytes, a finished one as a success, with the bytes the
    SNARK file held when the loop finished, or, for an aggregation, the bytes the
    aggregation's file holds now. *)
Lemma finished_status feature cfg id g duration ws w db w' user t :
  loop_finish id g duration ws w = Ret (db, w') →
  db_stage_task (ws_db ws) !! id = Some (user, t) →
  status_context (stg_context t) = Some g →
  rows_filled (ws_db ws) →
  gt_target_step g = Agg ∨ gt_target_step g = Snark →
  gt_output_stream_path g = empty_str → gt_composite_proof g = false →
  is_s3_path (gt_snark_path g) = false →
  ∃ r, get_status feature cfg id db w' = Ret (r, w') ∧ w' = w ∧
    gs_proof_id r = id ∧
    if is_error (ws_stage ws)
    then gs_status r = Status.i32 (error_status (stage_step (ws_stage ws))) ∧
         gs_proof_with_public_inputs r = []
    else gs_status r = Status.i32 Status.Success ∧
         gs_proof_with_public_inputs r =
           default [] (fs_read (w_fs w) (gt_snark_path g)) ∧
         (gt_target_step g = Snark → is_Some (fs_read (w_fs w) (gt_snark_path g))).
Proof.
  intros Hfin Ht Hctx Hf Htgt Hout Hcomp Hlocal.
  destruct (loop_finish_stored _ _ _ _ _ _ _ _ Ht Hfin)
    as (->&t'&text&Hs&Hc&Hp&Hr&Hst). simpl in Hc.
  destruct (get_status_stored feature cfg db id t' g w) as (r0&Hr1&Hr2&Hr3&Hr4&Hget);
    [done|unfold rows_filled; by rewrite Hp|by rewrite Hc|done|done|].
  rewrite Hget. clear Hget Hr2 Hr4.
  assert (∀ proof, _ → ∃ r, read_proof feature cfg t' r0 w = Ret (r, w) ∧ _) as Hread
    by (intros proof; exact (read_proof_run feature cfg t' g text r0 w proof
      ltac:(by rewrite Hc) Hcomp ltac:(destruct Htgt; congruence) Hr)).
  destruct (is_error (ws_stage ws)).
  - destruct Hst as [Hst ->]. destruct (Hread []) as (r&?&?&?&?).
    { rewrite Hst. by destruct (stage_step (ws_stage ws)); simpl; rewrite andb_false_r. }
    exists r. split_and!; congruence.
  - destruct Hst as [Hst Htext].
    assert (∀ p, is_s3_path p = false → file_read p w = Ret (fs_read (w_fs w) p, w))
      as Hlr by (intros p Hp'; by rewrite file_read_eq, Hp').
    rewrite Hlr in * by done.
    destruct Htgt as [Htgt|Htgt]; rewrite Htgt in *; simpl in Htext.
    + destruct (Hread (default [] (fs_read (w_fs w) (gt_snark_path g)))) as (r&?&?&?&?).
      { rewrite Hst. simpl. by rewrite (M_bind_run _ _ _ _ _ (Hlr _ Hlocal)). }
      exists r. split_and!; congruence.
    + injection Htext as Htext. destruct (Hread (String.list_byte_of_string text))
        as (r&?&?&?&?); [done|].
      exists r. rewrite Htext. split_and!; [done|done|congruence..|done|by eexists].
Qed.

End run.
