(* ===== verification/ServiceSample.v ===== *)
(** * ServiceSample: a concrete front end

    A codec for the two formats that satisfies their laws, a whitelist of one user and
    two requests: what the theorems of ServiceThms and ServiceRun are evaluated on. *)

From S2P Require Import Prelude Text Proto World Tasks Stage Database ProverPool.
From S2P Require Import ProverClient Worker Config StageService ServiceLemmas ServiceThms.
From S2P Require Import ServiceRun Codec.
From Stdlib Require Import Ascii String.
From stdpp Require Import countable.
#[local] Open Scope list_scope.
#[local] Open Scope Z_scope.

#[export] Instance step_countable : Countable Step :=
  inj_countable Step_i32 Step_from_i32 Step_from_i32_i32.

#[export] Instance version_countable : Countable ProverVersion :=
  inj_countable ProverVersion_i32 ProverVersion_from_i32 ProverVersion_from_i32_i32.

(** A request as the list of its fields. *)
Definition generate_fields (g : GenerateTask) : list string :=
  [ gt_program_id g; gt_base_dir g; gt_proof_id g; to_text (gt_version g);
    gt_elf_path g; gt_seg_path g; gt_prove_path g; gt_agg_path g; gt_snark_path g;
    gt_public_input_path g; gt_private_input_path g; gt_output_stream_path g;
    to_text (gt_block_no g); to_text (gt_seg_size g); to_text (gt_max_prover_num g);
    to_text (gt_target_step g); to_text (gt_from_step g); to_text (gt_single_node g);
    to_text (gt_composite_proof g); gt_receipt_inputs_path g; gt_receipts_path g ].

Definition generate_of_fields (l : list string) : option GenerateTask :=
  match l with
  | [program_id; base_dir; proof_id; version; elf; seg; prv; agg; snark; pub; priv; out;
     block; size; max; target; from; single; composite; ri; receipts] =>
      version ← of_text version; block ← of_text block; size ← of_text size;
      max ← of_text max; target ← of_text target; from ← of_text from;
      single ← of_text single; composite ← of_text composite;
      Some (GenerateTask_new version program_id proof_id base_dir elf seg prv agg snark
              pub priv out block size max from target single composite ri receipts)
  | _ => None
  end.

Lemma generate_of_to g :
  gt_program g = None → generate_of_fields (generate_fields g) = Some g.
Proof.
  intros Hp. unfold generate_of_fields, generate_fields. rewrite !of_to_text. simpl.
  destruct g. simpl in Hp. by subst.
Qed.

(** ** The instances *)

#[export] Instance service_external : External := {|
  s3_store := unit;
  s3_get _ _ _ := None;
  s3_put _ _ _ _ := None;
  s3_list _ _ _ := None;
  s3_head _ _ _ := false;
  uuid_v4 n := ("u" +:+ pretty n)%string;
  bincode_de b := of_text (String.string_of_list_byte b)
|}.

#[export] Instance service_json : Json := {|
  split_to_json t := to_text (st_total_steps t);
  snark_to_json t := sn_task_id t;
  generate_to_json g := to_text (generate_fields g);
  generate_from_json s := of_text s ≫= generate_of_fields
|}.

(** A signature names its signer; addresses are printed as they are. *)
#[export] Instance service_sample : Service := {|
  sig_t := string;
  sig_from_str s := if is_empty s then None else Some s;
  sig_recover s _ := Some s;
  to_checksum s := Some s;
  sha256_hex b := pretty (len b);
  bincode_ser l := String.list_byte_of_string (to_text l);
  split_from_json s := n ← of_text s; Some (SplitTask_default <| st_total_steps := n |>)
|}.

#[export] Instance service_laws : FormatLaws.
Proof.
  split.
  - intros g Hg.
    change (of_text (to_text (generate_fields g)) ≫= generate_of_fields = Some g).
    rewrite of_to_text. by apply generate_of_to.
  - intros l. unfold bincode_de, bincode_ser, service_external, service_sample.
    rewrite String.string_of_list_byte_of_string. apply of_to_text.
Qed.

(** ** Requests *)

Definition sample_cfg : RuntimeConfig := {|
  cf_addr := "0.0.0.0:50000"; cf_metrics_addr := "0.0.0.0:50010";
  cf_database_url := empty_str; cf_prover_addrs := ["n0"; "n1"]; cf_base_dir := "/tmp";
  cf_max_concurrent_tasks := None; cf_fileserver_url := Some "http://f";
  cf_proving_key_paths := []; cf_ca_cert_path := None; cf_cert_path := None;
  cf_key_path := None |}.

(** A request for a block, from a step, with receipts. *)
Definition sample_req (signature : string) (block_no from : option Z)
    (receipts : list bytes) : GenerateProofRequest := {|
  gp_proof_id := "id"; gp_elf_data := String.list_byte_of_string "elf";
  gp_block_data := []; gp_block_no := block_no; gp_seg_size := 65536; gp_elf_id := None;
  gp_signature := signature; gp_public_input_stream := [];
  gp_private_input_stream := String.list_byte_of_string "in"; gp_target_step := None;
  gp_composite_proof := false; gp_receipt_inputs := receipts; gp_receipts := [];
  gp_from_step := from; gp_single_node := false; gp_max_prover_num := 5 |}.

Definition agg_req : GenerateProofRequest :=
  sample_req "0xab" None (Some (Step_i32 Agg)) [String.list_byte_of_string "r"].
Definition block_req : GenerateProofRequest := sample_req "0xab" (Some 7) None [].
(** On a single node. *)
Definition single_req : GenerateProofRequest := {|
  gp_proof_id := "id"; gp_elf_data := String.list_byte_of_string "elf";
  gp_block_data := []; gp_block_no := None; gp_seg_size := 65536; gp_elf_id := None;
  gp_signature := "0xab"; gp_public_input_stream := [];
  gp_private_input_stream := []; gp_target_step := None;
  gp_composite_proof := false; gp_receipt_inputs := []; gp_receipts := [];
  gp_from_step := None; gp_single_node := true; gp_max_prover_num := 5 |}.
Definition forged_req : GenerateProofRequest := sample_req "0xcd" None None [].
(** From aggregation, without a receipt to aggregate. *)
Definition empty_req : GenerateProofRequest :=
  sample_req "0xab" None (Some (Step_i32 Agg)) [].

Definition service_db : Database := mkDatabase ∅ ∅ {[ "ab" ]} true.
Definition service_world : World :=
  @mkWorld service_external (mkFs ∅ (list_to_set ["/tmp"; "/tmp/elf"]) ∅) tt 0.

Definition run_req (req : GenerateProofRequest) :
    outcome ((RpcReply * Database * option StageTask) * World) :=
  generate_proof feature_prover_v2 sample_cfg req service_db true service_world.

(** The parts of a run that returned. *)
Definition rep_of (req : GenerateProofRequest) : RpcReply :=
  match run_req req with Ret ((r, _, _), _) => r | Panic => StatusInternal end.
Definition db_of (req : GenerateProofRequest) : Database :=
  match run_req req with Ret ((_, db, _), _) => db | Panic => service_db end.
Definition task_of (req : GenerateProofRequest) : StageTask :=
  match run_req req with
  | Ret ((_, _, Some t), _) => t
  | _ => mkStageTask empty_str 0 None None 0 0
  end.
Definition world_of (req : GenerateProofRequest) : World :=
  match run_req req with Ret (_, w) => w | Panic => service_world end.

Lemma sample_local : local_dir (cf_base_dir sample_cfg).
Proof. done. Qed.

Lemma agg_runs :
  generate_proof feature_prover_v2 sample_cfg agg_req service_db true service_world =
  Ret ((rep_of agg_req, db_of agg_req, Some (task_of agg_req)), world_of agg_req).
Proof. vm_compute. reflexivity. Qed.
Lemma block_runs :
  generate_proof feature_prover_v2 sample_cfg block_req service_db true service_world =
  Ret ((rep_of block_req, db_of block_req, Some (task_of block_req)), world_of block_req).
Proof. vm_compute. reflexivity. Qed.
Lemma single_runs :
  generate_proof feature_prover_v2 sample_cfg single_req service_db true service_world =
  Ret ((rep_of single_req, db_of single_req, Some (task_of single_req)), world_of single_req).
Proof. vm_compute. reflexivity. Qed.
Lemma forged_runs :
  generate_proof feature_prover_v2 sample_cfg forged_req service_db true service_world =
  Ret ((rep_of forged_req, db_of forged_req, None), world_of forged_req).
Proof. vm_compute. reflexivity. Qed.
Lemma empty_runs :
  generate_proof feature_prover_v2 sample_cfg empty_req service_db true service_world =
  Ret ((rep_of empty_req, db_of empty_req, None), world_of empty_req).
Proof. vm_compute. reflexivity. Qed.

(** ** The theorems on the samples *)

Lemma generate_proof_accepts_witness :
  ∃ user g,
    rep_of agg_req = Response (accepted feature_prover_v2 sample_cfg agg_req
                                 (gt_target_step g)) ∧
    passed feature_prover_v2 sample_cfg agg_req service_db user g service_world
      (world_of agg_req) ∧
    db_stage_task service_db !! gp_proof_id agg_req = None ∧
    db_of agg_req = service_db <| db_stage_task :=
      <[gp_proof_id agg_req := (user, task_of agg_req)]> (db_stage_task service_db) |> ∧
    task_of agg_req = mkStageTask (gp_proof_id agg_req) (Status.i32 Status.Computing)
          (Some (generate_to_json g)) None 0 0 ∧
    (cf_prover_addrs sample_cfg ≠ [] → len (cf_prover_addrs sample_cfg) < 2 ^ 32 →
       0 ≤ gp_max_prover_num agg_req →
       1 ≤ gt_max_prover_num g ≤ len (cf_prover_addrs sample_cfg)).
Proof.
  exact (generate_proof_accepts feature_prover_v2 sample_cfg agg_req service_db true
    service_world _ _ _ _ agg_runs).
Defined.

(** A closed queue: the row stays. *)
Lemma closed_runs :
  generate_proof feature_prover_v2 sample_cfg agg_req service_db false service_world =
  Ret ((StatusInternal, db_of agg_req, None), world_of agg_req).
Proof. vm_compute. reflexivity. Qed.


(** A forged signature leaves the files alone. *)
Example forged_world : world_of forged_req = service_world.
Proof. vm_compute. reflexivity. Qed.
(** The receipts are missed only after files were written. *)
Example empty_world :
  fs_exists (w_fs (world_of empty_req)) "/tmp/proof/id/input_stream/private_input" = true.
Proof. vm_compute. reflexivity. Qed.



(** ** A finished proof *)

Definition done_task : GenerateTask :=
  GenerateTask_new Zkm2 empty_str "id" "p" empty_str empty_str empty_str empty_str "p/s"
    empty_str empty_str empty_str (Some 0) 0 1 Init Snark false false empty_str empty_str.
Definition done_row : StageTask :=
  mkStageTask "id" (Status.i32 Status.Computing) (Some (generate_to_json done_task)) None
    100 (Step_i32 Snark).
Definition done_ws : WorkerState :=
  mkWorkerState (Stage_new done_task <| stage_step := End |>) []
    (mkDatabase {[ "id" := ("ab", done_row) ]} ∅ ∅ true) 100 100 End.
Definition done_world : World :=
  @mkWorld service_external
    (mkFs {[ "p/s" := String.list_byte_of_string "proof" ]} {[ "p" ]} ∅) tt 0.
Definition done_db : Database :=
  match loop_finish "id" done_task 9 done_ws done_world with
  | Ret (db, _) => db
  | Panic => service_db
  end.
Lemma done_runs : loop_finish "id" done_task 9 done_ws done_world = Ret (done_db, done_world).
Proof. vm_compute. reflexivity. Qed.
Lemma done_lookup : db_stage_task (ws_db done_ws) !! "id" = Some ("ab", done_row).
Proof. vm_compute. reflexivity. Qed.
Lemma done_context : status_context (stg_context done_row) = Some done_task.
Proof. vm_compute. reflexivity. Qed.
Lemma done_rows : rows_filled (ws_db done_ws).
Proof. apply map_Forall_empty. Qed.

Example finished_status_sample :
  ∃ r, get_status feature_prover_v2 sample_cfg "id" done_db done_world = Ret (r, done_world) ∧
    done_world = done_world ∧ gs_proof_id r = "id" ∧
    if is_error (ws_stage done_ws)
    then gs_status r = Status.i32 (error_status (stage_step (ws_stage done_ws))) ∧
         gs_proof_with_public_inputs r = []
    else gs_status r = Status.i32 Status.Success ∧
         gs_proof_with_public_inputs r =
           default [] (fs_read (w_fs done_world) (gt_snark_path done_task)) ∧
         (gt_target_step done_task = Snark →
            is_Some (fs_read (w_fs done_world) (gt_snark_path done_task))).
Proof.
  exact (finished_status feature_prover_v2 sample_cfg "id" done_task 9 done_ws
    done_world done_db done_world "ab" done_row done_runs done_lookup done_context
    done_rows (or_intror eq_refl) eq_refl eq_refl eq_refl).
Qed.
