(* ===== verification/NodeService.v ===== *)
(** * NodeService: a prover node ([proof-service/src/prover_service.rs] and the pipelines)

    The handlers of [ProverServiceSVC] turn a request into the context of a prover,
    run it on a blocking thread ([run_back_task]) and turn what came out into a
    response.  The provers themselves are third-party code behind the pipelines of
    [prover/src/pipeline.rs] (feature "prover", one proof at a time) and
    [prover_v2/src/pipeline.rs] (feature "prover_v2"): the interfaces [Provers1] and
    [Provers2]. *)

From S2P Require Import Prelude Text Proto World Tasks Stage ProverPool ProverClient.

(** ** Contexts *)

Module V1.
Record SplitContext := mkSplitContext {
  sc_base_dir : string; sc_elf_path : string; sc_block_no : option Z; sc_seg_size : Z;
  sc_seg_path : string; sc_public_input_path : string; sc_private_input_path : string;
  sc_output_path : string; sc_args : string; sc_receipt_inputs_path : string }.
Record ProveContext := mkProveContext {
  pc_block_no : option Z; pc_seg_size : Z; pc_segment : string;
  pc_receipts_input : list bytes }.
Record AggContext := mkAggContext {
  ac_seg_size : Z; ac_receipt_path1 : bytes; ac_receipt_path2 : bytes; ac_is_agg_1 : bool;
  ac_is_agg_2 : bool; ac_is_final : bool }.

Definition split_context (q : SplitElfRequest) : SplitContext :=
  {| sc_base_dir := sq_base_dir q; sc_elf_path := sq_elf_path q;
     sc_block_no := sq_block_no q; sc_seg_size := sq_seg_size q;
     sc_seg_path := sq_seg_path q; sc_public_input_path := sq_public_input_path q;
     sc_private_input_path := sq_private_input_path q; sc_output_path := sq_output_path q;
     sc_args := sq_args q; sc_receipt_inputs_path := sq_receipt_inputs_path q |}.

Definition prove_context (q : ProveRequest) : ProveContext :=
  {| pc_block_no := vq_block_no q; pc_seg_size := vq_seg_size q;
     pc_segment := vq_segment q; pc_receipts_input := vq_receipts_input q |}.

(** The inputs are taken by index, outside the blocking task. *)
Definition agg_context (q : AggregateRequest) : outcome AggContext :=
  i0 ← unwrap (gq_inputs q !! 0%nat);
  i1 ← unwrap (gq_inputs q !! 1%nat);
  mret {| ac_seg_size := gq_seg_size q; ac_receipt_path1 := ai_receipt_input i0;
          ac_receipt_path2 := ai_receipt_input i1; ac_is_agg_1 := ai_is_agg i0;
          ac_is_agg_2 := ai_is_agg i1; ac_is_final := gq_is_final q |}.
End V1.

Module V2.
Record SplitContext := mkSplitContext {
  sc_base_dir : string; sc_program_id : string; sc_elf_path : string;
  sc_block_no : option Z; sc_seg_size : Z; sc_seg_path : string;
  sc_public_input_path : string; sc_private_input_path : string; sc_output_path : string;
  sc_args : string; sc_receipt_inputs_path : string }.
Record ProveContext := mkProveContext {
  pc_proof_id : string; pc_program_id : string; pc_index : Z; pc_elf_path : string;
  pc_segment : string; pc_seg_size : Z }.
Record AggContext := mkAggContext {
  ac_vk : bytes; ac_proofs : list bytes; ac_is_complete : bool; ac_is_first_shard : bool;
  ac_is_leaf_layer : bool; ac_is_deferred : bool }.
Record SingleNodeContext := mkSingleNodeContext {
  nc_program_id : string; nc_elf_path : string; nc_base_dir : string; nc_seg_size : Z;
  nc_private_input_path : string; nc_receipt_inputs_path : string; nc_target_step : Z }.

Definition split_context (q : SplitElfRequest) : SplitContext :=
  {| sc_base_dir := sq_base_dir q; sc_program_id := sq_program_id q;
     sc_elf_path := sq_elf_path q; sc_block_no := sq_block_no q;
     sc_seg_size := sq_seg_size q; sc_seg_path := sq_seg_path q;
     sc_public_input_path := sq_public_input_path q;
     sc_private_input_path := sq_private_input_path q; sc_output_path := sq_output_path q;
     sc_args := sq_args q; sc_receipt_inputs_path := sq_receipt_inputs_path q |}.

Definition prove_context (q : ProveRequest) : ProveContext :=
  {| pc_proof_id := vq_proof_id q; pc_program_id := vq_program_id q;
     pc_index := vq_index q; pc_elf_path := vq_elf_path q; pc_segment := vq_segment q;
     pc_seg_size := vq_seg_size q |}.

Definition agg_context (q : AggregateRequest) : AggContext :=
  {| ac_vk := gq_vk q; ac_proofs := ai_receipt_input <$> gq_inputs q;
     ac_is_complete := gq_is_final q; ac_is_first_shard := gq_is_first_shard q;
     ac_is_leaf_layer := gq_is_leaf_layer q; ac_is_deferred := gq_is_deferred q |}.

Definition single_node_context (q : SingleNodeRequest) : SingleNodeContext :=
  {| nc_program_id := oq_program_id q; nc_elf_path := oq_elf_path q;
     nc_base_dir := oq_base_dir q; nc_seg_size := oq_seg_size q;
     nc_private_input_path := oq_private_input_path q;
     nc_receipt_inputs_path := oq_receipt_inputs_path q;
     nc_target_step := oq_target_step q |}.
End V2.

(** Both features have the same. *)
Record SnarkContext := mkSnarkContext {
  xc_version : Z; xc_proof_id : string; xc_agg_receipt : bytes; xc_from_input : bool }.
Definition snark_context (q : SnarkProofRequest) : SnarkContext :=
  {| xc_version := nq_version q; xc_proof_id := nq_proof_id q;
     xc_agg_receipt := nq_agg_receipt q; xc_from_input := nq_from_input q |}.

(** ** The provers

    A prover returns a value or an error text, or panics. *)
Abbreviation Proved A := (outcome (string + A)).

(** feature "prover": what [Executor], [RootProver], [AggProver] and [SnarkProver] of
    [prover/src] do. *)
Class Provers1 := {
  split1 : V1.SplitContext → Proved (Z * Z);
  root1 : V1.ProveContext → Proved (bool * bytes);
  agg1 : V1.AggContext → Proved (bool * bytes);
  snark1 : SnarkContext → Proved (bool * bytes)
}.

(** feature "prover_v2", of [prover_v2/src]. *)
Class Provers2 := {
  split2 : V2.SplitContext → Proved (Z * Z);
  root2 : V2.ProveContext → Proved bytes;
  agg2 : V2.AggContext → Proved bytes;
  snark2 : SnarkContext → Proved (bool * bytes);
  single2 : V2.SingleNodeContext → Proved (Z * bytes)
}.

(** [Result::map] under a possible panic. *)
Definition map_ok {A B} (f : A → B) (r : Proved A) : Proved B :=
  match r with
  | Ret (inr a) => Ret (inr (f a))
  | Ret (inl e) => Ret (inl e)
  | Panic => Panic
  end.

(** *** The pipeline of feature "prover_v2" *)

Section pipeline2.
Context `{P : !Provers2}.
Definition p2_split (c : V2.SplitContext) : Proved (bool * Z * Z) :=
  map_ok (λ '(step, segments), (true, step, segments)) (split2 c).
Definition p2_prove_root (c : V2.ProveContext) : Proved (bool * bytes) :=
  map_ok (pair true) (root2 c).
Definition p2_prove_aggregate (c : V2.AggContext) : Proved (bool * bytes) :=
  map_ok (pair true) (agg2 c).
Definition p2_prove_snark (c : SnarkContext) : Proved (bool * bytes) := snark2 c.
Definition p2_prove_single_node (c : V2.SingleNodeContext) : Proved (bool * Z * bytes) :=
  map_ok (λ '(cycles, output), (true, cycles, output)) (single2 c).
End pipeline2.

(** *** The pipeline of feature "prover"

    [mutex: Mutex<usize>] lets one proof run at a time; a thread that panics while it
    holds the guard leaves the mutex poisoned, and [try_lock] of a held or poisoned
    mutex is an error. *)
Inductive Mutex := Unlocked | Locked | Poisoned.
#[export] Instance Mutex_eq_dec : EqDecision Mutex.
Proof. solve_decision. Defined.

(** What a call does when it meets the mutex, and when its prover has come back. *)
Definition try_lock (m : Mutex) : option Mutex :=
  match m with Unlocked => Some Locked | _ => None end.
Definition drop_guard {A} (r : Proved A) : Mutex :=
  match r with Ret _ => Unlocked | Panic => Poisoned end.
Definition busy_reply : Proved (bool * bytes) := Ret (inr (false, [])).

(** The three guarded operations of the pipeline. *)
Inductive Job1 :=
  | JRoot (c : V1.ProveContext)
  | JAgg (c : V1.AggContext)
  | JSnark (c : SnarkContext).

Section pipeline1.
Context `{P : !Provers1}.
Definition p1_split (c : V1.SplitContext) : Proved (bool * Z * Z) :=
  map_ok (λ '(steps, segments), (true, steps, segments)) (split1 c).

Definition prove1 (j : Job1) : Proved (bool * bytes) :=
  match j with JRoot c => root1 c | JAgg c => agg1 c | JSnark c => snark1 c end.

(** The calls of one node, each before the mutex, with the guard, or back. *)
Inductive Phase1 :=
  | Arrived
  | Proving
  | Back (r : Proved (bool * bytes)).
Record Node1 := mkNode1 { n1_mutex : Mutex; n1_calls : list (Job1 * Phase1) }.

Inductive node1_step : Node1 → Node1 → Prop :=
  | node1_call m cs j : node1_step (mkNode1 m cs) (mkNode1 m (cs ++ [(j, Arrived)]))
  | node1_enter m m' cs i j :
      cs !! i = Some (j, Arrived) → try_lock m = Some m' →
      node1_step (mkNode1 m cs) (mkNode1 m' (<[i := (j, Proving)]> cs))
  | node1_busy m cs i j :
      cs !! i = Some (j, Arrived) → try_lock m = None →
      node1_step (mkNode1 m cs) (mkNode1 m (<[i := (j, Back busy_reply)]> cs))
  | node1_leave m cs i j :
      cs !! i = Some (j, Proving) →
      node1_step (mkNode1 m cs)
        (mkNode1 (drop_guard (prove1 j)) (<[i := (j, Back (prove1 j))]> cs)).

Definition node1_init : Node1 := mkNode1 Unlocked [].
(** [Pipeline::get_status]: nothing is being proved. *)
Definition p1_get_status (n : Node1) : bool := bool_decide (n1_mutex n = Unlocked).
End pipeline1.

(** ** prover_service.rs *)

(** The panic of the blocking task is caught; [payload] is the text found in it. *)
Definition run_back_task {A} (payload : option string) (callable : Proved A) : string + A :=
  match callable with
  | Ret r => r
  | Panic => inl (default "Unknown panic" payload)
  end.

(** [on_done!] *)
Definition on_done {A} (result : string + (bool * A)) : RpcResult :=
  match result with
  | inr (true, _) => mkRpcResult (ResultCode_i32 Ok) "SUCCESS"
  | inr (false, _) => mkRpcResult (ResultCode_i32 Busy) "BUSY"
  | inl e => mkRpcResult (ResultCode_i32 InternalError) e
  end.

(** The receipt of a proof, empty after an error. *)
Definition output_of (result : string + (bool * bytes)) : bytes :=
  match result with inr (_, x) => x | inl _ => [] end.

(** A proof without a step counts as "busy". *)
Definition split_response (result : string + (bool * Z * Z)) : SplitElfResponse :=
  let '(_, steps, segments) :=
    match result with inr r => r | inl _ => (false, 0, 0) end in
  {| sr_result := Some (on_done
       (match result with
        | inr (done, steps, _) => inr ((0 <? steps) && done, [] : bytes)
        | inl e => inl e
        end));
     sr_total_steps := steps;
     sr_total_segments := segments |}.
Definition prove_response (result : string + (bool * bytes)) : ProveResponse :=
  {| vr_result := Some (on_done result); vr_output_receipt := output_of result |}.
Definition aggregate_response (result : string + (bool * bytes)) : AggregateResponse :=
  {| gr_result := Some (on_done result); gr_agg_receipt := output_of result |}.
Definition snark_response (result : string + (bool * bytes)) : SnarkProofResponse :=
  {| nr_result := Some (on_done result);
     nr_snark_proof_with_public_inputs := output_of result |}.
Definition single_node_response (result : string + (bool * Z * bytes)) :
    SingleNodeResponse :=
  {| or_result := Some (on_done
       (match result with
        | inr (done, cycles, _) => inr ((0 <? cycles) && done, [] : bytes)
        | inl e => inl e
        end));
     or_output := match result with inr (_, _, x) => x | inl _ => [] end;
     or_total_steps := match result with inr (_, cycles, _) => cycles | inl _ => 0 end |}.

(** *** The handlers of feature "prover"

    [locked]: what the pipeline's mutex makes of the call, the prover's result or
    "busy". *)
Section handlers1.
Context `{P : !Provers1} (payload : option string).

Definition split_elf1 (q : SplitElfRequest) : SplitElfResponse :=
  split_response (run_back_task payload (p1_split (V1.split_context q))).
Definition guarded (locked : bool) (j : Job1) : Proved (bool * bytes) :=
  if locked then busy_reply else prove1 j.
Definition handle_prove1 (locked : bool) (q : ProveRequest) : ProveResponse :=
  prove_response (run_back_task payload (guarded locked (JRoot (V1.prove_context q)))).
(** [None]: the handler panics and the call ends with a transport error. *)
Definition handle_aggregate1 (locked : bool) (q : AggregateRequest) :
    option AggregateResponse :=
  match V1.agg_context q with
  | Ret c => Some (aggregate_response (run_back_task payload (guarded locked (JAgg c))))
  | Panic => None
  end.
Definition handle_snark1 (locked : bool) (q : SnarkProofRequest) : SnarkProofResponse :=
  snark_response (run_back_task payload (guarded locked (JSnark (snark_context q)))).
(** [single_node] is not implemented: an error status. *)
Definition handle_single_node1 (q : SingleNodeRequest) : option SingleNodeResponse := None.
End handlers1.

(** *** The handlers of feature "prover_v2" *)
Section handlers2.
Context `{P : !Provers2} (payload : option string).

Definition split_elf2 (q : SplitElfRequest) : SplitElfResponse :=
  split_response (run_back_task payload (p2_split (V2.split_context q))).
Definition handle_prove2 (q : ProveRequest) : ProveResponse :=
  prove_response (run_back_task payload (p2_prove_root (V2.prove_context q))).
Definition handle_aggregate2 (q : AggregateRequest) : AggregateResponse :=
  aggregate_response (run_back_task payload (p2_prove_aggregate (V2.agg_context q))).
Definition handle_snark2 (q : SnarkProofRequest) : SnarkProofResponse :=
  snark_response (run_back_task payload (p2_prove_snark (snark_context q))).
Definition handle_single_node2 (q : SingleNodeRequest) : option SingleNodeResponse :=
  Some (single_node_response
          (run_back_task payload (p2_prove_single_node (V2.single_node_context q)))).
End handlers2.
