(* ===== verification/NodeQueries.v ===== *)
(** * NodeQueries: what a node says when it is asked, and what it loads for a GPU

    The calls [get_status] and [get_task_result] of a node ([prover_service.rs]), the
    functions of the client that make the second ([prover_client.rs], not called by the
    stage), and the operation streams a node of feature "prover" loads when it is built
    for a GPU ([prover/src/lib.rs]). *)

From S2P Require Import Prelude Text Proto NodeService.

(** ** Queries *)

Record GetTaskResultRequest := mkGetTaskResultRequest {
  tq_proof_id : string; tq_computed_request_id : string }.
Record GetTaskResultResponse := mkGetTaskResultResponse {
  tr_proof_id : string; tr_computed_request_id : string; tr_result : option RpcResult }.
Record NodeStatusResponse := mkNodeStatusResponse {
  ns_status : Z; ns_prover_name : string; ns_prover_id : string; ns_number_of_cores : Z;
  ns_total_memory : Z; ns_free_memory : Z }.
(** [default]: zero is STATUS_UNSPECIFIED. *)
Definition GetTaskResultResponse_default : GetTaskResultResponse :=
  mkGetTaskResultResponse empty_str empty_str None.
Definition NodeStatusResponse_default : NodeStatusResponse :=
  mkNodeStatusResponse 0 empty_str empty_str 0 0 0.

(** The handlers do not look at the request. *)
Definition node_get_status : NodeStatusResponse := NodeStatusResponse_default.
Definition node_get_task_result (_request : GetTaskResultRequest) : GetTaskResultResponse :=
  GetTaskResultResponse_default.

(** The client's functions, given what becomes of the call: an answer, or none. *)
Section client.
Context (call : GetTaskResultRequest → option GetTaskResultResponse).

Definition get_task_status (proof_id task_id : string) : option ResultCode :=
  let request := mkGetTaskResultRequest proof_id task_id in
  match call request with
  | Some response =>
      match tr_result response with
      | Some response_result => ResultCode_from_i32 (rr_code response_result)
      | None => Some Unspecified
      end
  | None => Some Unspecified
  end.
Definition get_task_result (proof_id task_id : string) : option GetTaskResultResponse :=
  call (mkGetTaskResultRequest proof_id task_id).
End client.

(** A task cannot be followed by asking its node: whatever became of it, and whether the
    node can be reached or not, the client finds "unspecified", which stands for a task
    that is being processed. *)
Lemma task_status_unknown call proof_id task_id :
  (∀ q, call q = None ∨ call q = Some (node_get_task_result q)) →
  get_task_status call proof_id task_id = Some Unspecified.
Proof.
  intros Hcall. unfold get_task_status.
  by destruct (Hcall (mkGetTaskResultRequest proof_id task_id)) as [->| ->].
Qed.

(** ** Operation streams *)

(** [get_ops_stream_simple] of plonky2: an error, no stream, or a stream. *)
Class OpStreams := {
  SimpleOpsNode : Type;
  get_ops_stream_simple : string → string + option (list SimpleOpsNode)
}.

Section streams.
Context `{O : !OpStreams}.

(** The static vector with its mutex, which no thread holds when a node starts. *)
Record OpsVec := mkOpsVec {
  ov_poisoned : bool;
  ov_streams : list (option (list SimpleOpsNode))
}.

Definition stream_dir : string := "/mnt_zkm/app/mytest_get_opstreams/".
Definition stream_files : list string :=
  [ "log_simplify_arithmetic.txt"; "log_simplify_cpu.txt"; "log_simplify_poseidon.txt";
    "log_simplify_poseidonsponge.txt"; "log_simplify_logic.txt"; "log_simplify_mem.txt" ].

Definition load_stream (file : string) : option (list SimpleOpsNode) :=
  match get_ops_stream_simple (stream_dir +:+ file) with
  | inr (Some ops) => Some ops
  | inr None => None
  | inl _ => None
  end.

(** The streams are pushed, then each is [unwrap]ped for the log, under the guard of the
    vector. *)
Definition init_stark_op_stream_simple (v : OpsVec) : outcome () * OpsVec :=
  let streams := load_stream <$> stream_files in
  if ov_poisoned v then (Panic, v)
  else
    let vec := ov_streams v ++ streams in
    match mapM unwrap streams with
    | Ret _ => (Ret tt, mkOpsVec false vec)
    | Panic => (Panic, mkOpsVec true vec)
    end.

Lemma mapM_unwrap_all {A} (l : list (option A)) :
  (∃ xs, mapM unwrap l = Ret xs) ↔ Forall is_Some l.
Proof.
  induction l as [|o l IH]; [split; [done|by exists []]|].
  rewrite Forall_cons, <-IH. destruct o as [a|]; cbn; [|split; [by intros []|by intros [[] ]]].
  split.
  - intros [xs Hxs]. split; [done|]. destruct (mapM unwrap l); [by eexists|done].
  - intros [_ [xs ->]]. by eexists.
Qed.

(** A file that cannot be read is taken for no stream, but a node only starts when all
    six are there; otherwise it panics with the mutex of the streams poisoned. *)
Lemma streams_loaded v :
  ov_poisoned v = false →
  let '(r, v') := init_stark_op_stream_simple v in
  ov_streams v' = ov_streams v ++ (load_stream <$> stream_files) ∧
  (r = Ret tt ↔ Forall (λ f, is_Some (load_stream f)) stream_files) ∧
  (ov_poisoned v' = true ↔ r = Panic).
Proof.
  intros Hv. unfold init_stark_op_stream_simple. rewrite Hv.
  pose proof (mapM_unwrap_all (load_stream <$> stream_files)) as Hall.
  rewrite Forall_fmap in Hall.
  destruct (mapM unwrap (load_stream <$> stream_files)) as [xs|]; cbn [fst snd ov_streams ov_poisoned].
  - split_and!; [done| |done]. split; [|done]. intros _. apply Hall. by exists xs.
  - split_and!; [done| |done]. split; [done|]. by intros [? ?]%Hall.
Qed.

End streams.
