(* ===== verification/ProveOpts.v ===== *)
(** * ProveOpts: the options of a proof of feature "prover_v2" ([prover_v2/src/lib.rs])

    [NetworkProve::new] hands the segment size to [ZKMProverOpts::default], third-party
    code, through the environment variable SHARD_SIZE of the process.  A node runs its
    proofs on several threads ([run_back_task]), and the environment is one for all of
    them: a construction is four steps, and any number of them run interleaved. *)

From S2P Require Import Prelude Text.

(** ** Code outside the repository: [ZKMProverOpts] *)

Abbreviation Env := (gmap string string).

Class ProverOpts := {
  ZKMProverOpts : Type;
  (** [ZKMProverOpts::default], which reads the environment *)
  opts_default : Env → ZKMProverOpts;
  (** [opts.core_opts.split_opts.keccak = keccaks] *)
  set_keccak : Z → ZKMProverOpts → ZKMProverOpts;
  (** [opts.core_opts.shard_size] *)
  shard_size : ZKMProverOpts → Z;
  DEFAULT_SHARD_SIZE : Z;
  shard_size_keccak k o : shard_size (set_keccak k o) = shard_size o;
  (** the default options take a shard size from SHARD_SIZE *)
  shard_size_default env :
    shard_size (opts_default env) =
      default DEFAULT_SHARD_SIZE (s ← env !! "SHARD_SIZE"; parse_usize s)
}.

Section prove_opts.
Context `{O : !ProverOpts}.

(** ** One construction *)

(** What is left to do of [NetworkProve::new]; [Made] has its options. *)
Inductive NewPhase :=
  | SetVar
  | ReadKeccak
  | ReadOpts (keccaks : Z)
  | RemoveVar (opts : ZKMProverOpts)
  | Made (opts : ZKMProverOpts).

Definition keccak_per_shard (env : Env) : Z :=
  default 0 (s ← env !! "KECCAK_PER_SHARD"; parse_usize s).

Definition new_step (n : Z) (ph : NewPhase) (env : Env) : option (NewPhase * Env) :=
  match ph with
  | SetVar => Some (ReadKeccak, if 0 <? n then <["SHARD_SIZE" := pretty n]> env else env)
  | ReadKeccak => Some (ReadOpts (keccak_per_shard env), env)
  | ReadOpts keccaks =>
      let opts := opts_default env in
      Some (RemoveVar (if 0 <? keccaks then set_keccak keccaks opts else opts), env)
  | RemoveVar opts => Some (Made opts, if 0 <? n then delete "SHARD_SIZE" env else env)
  | Made _ => None
  end.

(** [NetworkProve::new], run alone. *)
Definition network_prove_new (n : Z) (env : Env) : ZKMProverOpts * Env :=
  let env := if 0 <? n then <["SHARD_SIZE" := pretty n]> env else env in
  let keccaks := keccak_per_shard env in
  let opts := opts_default env in
  let opts := if 0 <? keccaks then set_keccak keccaks opts else opts in
  (opts, if 0 <? n then delete "SHARD_SIZE" env else env).

(** ** The threads of a node *)

Record Process := mkProcess { pr_env : Env; pr_calls : list (Z * NewPhase) }.

Inductive process_step : Process → Process → Prop :=
  | process_call env cs i n ph ph' env' :
      cs !! i = Some (n, ph) →
      new_step n ph env = Some (ph', env') →
      process_step (mkProcess env cs) (mkProcess env' (<[i := (n, ph')]> cs)).

Definition process_init (env : Env) (sizes : list Z) : Process :=
  mkProcess env ((λ n, (n, SetVar)) <$> sizes).

(** A construction that has begun and not ended. *)
Definition under_way (c : Z * NewPhase) : bool :=
  match c.2 with SetVar | Made _ => false | _ => true end.

(** Steps that only begin a construction when no other is under way. *)
Definition alone (p : Process) : bool :=
  (length (filter (λ c, under_way c) (pr_calls p)) <=? 1)%nat.
Definition alone_step (p p' : Process) : Prop := process_step p p' ∧ alone p' = true.

(** The process after the threads [order] have each taken a step, in that order, if it
    is always [ok]. *)
Fixpoint process_run (ok : Process → bool) (order : list nat) (p : Process) :
    option Process :=
  match order with
  | [] => Some p
  | i :: order =>
      '(n, ph) ← pr_calls p !! i;
      '(ph', env') ← new_step n ph (pr_env p);
      let p' := mkProcess env' (<[i := (n, ph')]> (pr_calls p)) in
      if ok p' then process_run ok order p' else None
  end.

Lemma process_run_steps ok order p p' :
  process_run ok order p = Some p' → rtc (λ p p', process_step p p' ∧ ok p' = true) p p'.
Proof.
  revert p. induction order as [|i order IH]; intros p; cbn; [by intros [= ->]|].
  destruct p as [env cs]. cbn. destruct (cs !! i) as [[n ph]|] eqn:Hi; [|done]. cbn.
  destruct (new_step n ph env) as [[ph' env']|] eqn:Hs; [|done]. cbn.
  case_match eqn:Hok; [|done]. intros Hr.
  eapply rtc_l; [split; [by eapply process_call|done]|by apply IH].
Qed.

(** ** What the options are *)

Lemma parse_usize_pretty_Z n : 0 ≤ n ≤ usize_MAX → parse_usize (pretty n) = Some n.
Proof.
  intros Hn. destruct n as [|p|p].
  - by vm_compute.
  - change (pretty (Z.pos p)) with (pretty (N.pos p)). apply (parse_usize_pretty (N.pos p)). lia.
  - lia.
Qed.

Lemma shard_size_set n env :
  0 < n ≤ usize_MAX → env !! "SHARD_SIZE" = Some (pretty n) → shard_size (opts_default env) = n.
Proof. intros Hn He. rewrite shard_size_default, He. cbn. by rewrite parse_usize_pretty_Z by lia. Qed.

Lemma shard_size_unset env :
  env !! "SHARD_SIZE" = None → shard_size (opts_default env) = DEFAULT_SHARD_SIZE.
Proof. intros He. by rewrite shard_size_default, He. Qed.

Definition with_keccaks (keccaks : Z) (o : ZKMProverOpts) : ZKMProverOpts :=
  if 0 <? keccaks then set_keccak keccaks o else o.
Lemma shard_size_with k o : shard_size (with_keccaks k o) = shard_size o.
Proof. unfold with_keccaks. case_match; [apply shard_size_keccak|done]. Qed.

(** What the environment or the options say of a construction under way. *)
Definition own_size (env : Env) (c : Z * NewPhase) : Prop :=
  0 < c.1 ≤ usize_MAX →
  match c.2 with
  | SetVar => True
  | ReadKeccak | ReadOpts _ => env !! "SHARD_SIZE" = Some (pretty c.1)
  | RemoveVar o | Made o => shard_size o = c.1
  end.

Lemma own_size_step n ph env ph' env' :
  own_size env (n, ph) → new_step n ph env = Some (ph', env') → own_size env' (n, ph').
Proof.
  unfold own_size. cbn. intros Ho Hs Hn. specialize (Ho Hn).
  destruct ph; simplify_eq/=; try done.
  - by rewrite (proj2 (Z.ltb_lt 0 n)), lookup_insert_eq by lia.
  - fold (with_keccaks keccaks (opts_default env')).
    rewrite shard_size_with. by apply shard_size_set.
Qed.

(** A construction that is not under way does not depend on the environment. *)
Lemma own_size_idle env env' c : under_way c = false → own_size env c → own_size env' c.
Proof. destruct c as [n []]; unfold own_size; cbn; done. Qed.

Lemma filter_at_most_one {A} (f : A → bool) (l : list A) i j x y :
  (length (filter (λ x, f x) l) ≤ 1)%nat → l !! i = Some x → l !! j = Some y →
  f x → f y → i = j.
Proof.
  revert i j. induction l as [|z l IH]; intros i j Hl Hi Hj Hx Hy; [done|].
  assert (∀ k u, l !! k = Some u → f u → (0 < length (filter (λ x, f x) l))%nat) as Hin.
  { intros k u Hk Hu. destruct (filter (λ x, f x) l) eqn:Hf; [|cbn; lia].
    assert (u ∈ filter (λ x, f x) l) as Hu'.
    { apply list_elem_of_filter. split; [done|by eapply list_elem_of_lookup_2]. }
    rewrite Hf in Hu'. by apply elem_of_nil in Hu'. }
  rewrite filter_cons in Hl. destruct i as [|i], j as [|j]; cbn in Hi, Hj; simplify_eq; [done| | |].
  - rewrite decide_True in Hl by done. cbn in Hl. specialize (Hin _ _ Hj Hy). lia.
  - rewrite decide_True in Hl by done. cbn in Hl. specialize (Hin _ _ Hi Hx). lia.
  - f_equal. apply (IH i j); try done. case_decide; cbn in Hl; lia.
Qed.

Record process_inv (p : Process) : Prop := {
  pi_alone : (length (filter (λ c, under_way c) (pr_calls p)) ≤ 1)%nat;
  pi_own i c : pr_calls p !! i = Some c → own_size (pr_env p) c
}.

Lemma process_inv_init env sizes : process_inv (process_init env sizes).
Proof.
  split; cbn.
  - induction sizes as [|n sizes IH]; [cbn; lia|]. rewrite fmap_cons.
    by rewrite filter_cons_False by (by intros []).
  - intros i c (n&->&_)%list_lookup_fmap_Some. done.
Qed.

Lemma process_inv_step p p' : process_inv p → alone_step p p' → process_inv p'.
Proof.
  intros [Ha Ho] [Hs Hl%Nat.leb_le]. split; [done|].
  inversion Hs as [env cs i n ph ph' env' Hi Hn]; subst; cbn in *. clear Hs.
  intros j c. destruct (decide (i = j)) as [<-|Hij].
  - rewrite list_lookup_insert_eq by (by eapply lookup_lt_Some). intros [= <-].
    eapply own_size_step; [by eapply Ho|done].
  - rewrite list_lookup_insert_ne by done. intros Hj. specialize (Ho j c Hj).
    destruct (under_way c) eqn:Hu; [|by eapply own_size_idle].
    exfalso. apply Hij. destruct (under_way (n, ph')) eqn:Hu'.
    + refine (filter_at_most_one under_way _ i j (n, ph') c Hl _ _ _ _).
      * apply list_lookup_insert_eq. by eapply lookup_lt_Some.
      * by rewrite list_lookup_insert_ne.
      * by rewrite Hu'.
      * by rewrite Hu.
    + refine (filter_at_most_one under_way _ i j (n, ph) c Ha Hi Hj _ _); [|by rewrite Hu].
      destruct ph; simplify_eq/=; done.
Qed.

(** When no two constructions of a node's proofs overlap, each proof gets options
    with the segment size of its own request, whatever the environment; and the
    construction leaves no SHARD_SIZE behind, not even the operator's. *)
Theorem own_shard_size env sizes p i n o :
  rtc alone_step (process_init env sizes) p →
  pr_calls p !! i = Some (n, Made o) → 0 < n ≤ usize_MAX →
  shard_size o = n ∧
  (∀ env, shard_size (network_prove_new n env).1 = n ∧
     (network_prove_new n env).2 !! "SHARD_SIZE" = None).
Proof.
  intros Hr Hi Hn. split.
  - assert (process_inv p) as [_ Ho].
    { pose proof (process_inv_init env sizes) as H0. revert H0. clear Hi.
      induction Hr; eauto using process_inv_step. }
    by apply (Ho i (n, Made o) Hi).
  - intros env'. unfold network_prove_new. rewrite (proj2 (Z.ltb_lt 0 n)) by lia. cbn.
    fold (with_keccaks (keccak_per_shard (<["SHARD_SIZE":=pretty n]> env'))
            (opts_default (<["SHARD_SIZE":=pretty n]> env'))).
    rewrite shard_size_with, lookup_delete_eq. split; [|done].
    apply shard_size_set; [done|]. by rewrite lookup_insert_eq.
Qed.

(** [C27] Two proofs whose constructions overlap can each get wrong options: there is an
    interleaving after which the first has the segment size of the second, and the second
    the default, although both asked for a size. *)
Theorem shard_sizes_race env a b :
  0 < a → 0 < b ≤ usize_MAX →
  ∃ env' o o', rtc process_step (process_init env [a; b])
      (mkProcess env' [(a, Made o); (b, Made o')]) ∧
    shard_size o = b ∧ shard_size o' = DEFAULT_SHARD_SIZE.
Proof.
  intros Ha Hb.
  set (env1 := <["SHARD_SIZE" := pretty b]> (<["SHARD_SIZE" := pretty a]> env)).
  set (env2 := delete "SHARD_SIZE" env1).
  exists (delete "SHARD_SIZE" env2),
    (with_keccaks (keccak_per_shard env1) (opts_default env1)),
    (with_keccaks (keccak_per_shard env2) (opts_default env2)).
  rewrite !shard_size_with. split_and!.
  - apply (rtc_subrel (λ p p', process_step p p' ∧ true = true)); [by intros ?? []|].
    apply (process_run_steps (λ _, true) [0; 1; 0; 0; 0; 1; 1; 1]%nat).
    cbn -[pretty]. by rewrite !(proj2 (Z.ltb_lt 0 _)) by lia.
  - apply shard_size_set; [done|]. apply lookup_insert_eq.
  - apply shard_size_unset. apply lookup_delete_eq.
Qed.

End prove_opts.

(** ** Witnesses *)

(** Options are the shard size and the keccaks. *)
Definition pair_default (env : Env) : Z * Z :=
  (default 4194304 (s ← env !! "SHARD_SIZE"; parse_usize s), 0).
Lemma pair_default_law env :
  (pair_default env).1 = default 4194304 (s ← env !! "SHARD_SIZE"; parse_usize s).
Proof. reflexivity. Qed.
Lemma pair_keccak_law (k : Z) (o : Z * Z) : (o.1, k).1 = o.1.
Proof. reflexivity. Qed.
#[local] Instance pair_opts : ProverOpts := {|
  opts_default := pair_default; set_keccak k o := (o.1, k); shard_size := fst;
  DEFAULT_SHARD_SIZE := 4194304;
  shard_size_keccak := pair_keccak_law; shard_size_default := pair_default_law
|}.

(** Two proofs one after the other, in an environment with another size. *)
Definition sample_env : Env := {[ "SHARD_SIZE" := "99"; "KECCAK_PER_SHARD" := "7" ]}.
Definition sample_calls : list (Z * NewPhase) := [(65536, Made (65536, 7)); (131072, ReadKeccak)].

Lemma own_shard_size_witness :
  shard_size (65536, 7) = 65536 ∧
  network_prove_new 65536 sample_env = ((65536, 7), {[ "KECCAK_PER_SHARD" := "7" ]}).
Proof.
  split; [|vm_compute; reflexivity].
  refine (proj1 (own_shard_size sample_env [65536; 131072]
    (mkProcess {[ "SHARD_SIZE" := "131072"; "KECCAK_PER_SHARD" := "7" ]} sample_calls)
    0 65536 (65536, 7) _ eq_refl _)); [|vm_compute; split; [reflexivity|discriminate]].
  apply (process_run_steps alone [0; 0; 0; 0; 1]%nat). vm_cast_no_check (eq_refl (Some (mkProcess {[ "SHARD_SIZE" := "131072"; "KECCAK_PER_SHARD" := "7" ]} sample_calls))).
Defined.

Lemma shard_sizes_race_witness :
  ∃ env' o o', rtc process_step (process_init ∅ [65536; 131072])
      (mkProcess env' [(65536, Made o); (131072, Made o')]) ∧
    shard_size o = 131072 ∧ shard_size o' = 4194304.
Proof.
  destruct (shard_sizes_race ∅ 65536 131072) as (env'&o&o'&H);
    [reflexivity|vm_compute; split; [reflexivity|discriminate]|].
  exact (ex_intro _ env' (ex_intro _ o (ex_intro _ o' H))).
Defined.
