(* ===== verification/StartUp.v ===== *)
(** * StartUp: how the service starts ([proof-service/src/bin/proof-service.rs])

    [main] reads the configuration, registers the prover nodes ([prover_node.rs]), loads
    the certificates ([common/src/tls.rs]) and builds the stage service or the prover
    service.  What follows is the servers' own loop, in the libraries. *)

From S2P Require Import Prelude Text Proto World Tasks Stage Database Config ProverPool.
From S2P Require Import TaskManager StageService NodeService ProveOpts Metrics.

(** ** Code outside the repository: toml, [SocketAddr], the MySQL URL, and whether tonic
    accepts certificates for its server; whether an address can be listened on *)
Class StartLib := {
  toml_from_str : string → option RuntimeConfig;
  socket_addr : string → bool;
  mysql_url : string → bool;
  tonic_tls : option bytes → option (bytes * bytes) → bool;
  (** [hyper::Server::bind] can listen on the address; it panics otherwise *)
  tcp_bind : string → bool
}.

(** ** prover_node.rs: the registry *)

Record ProverNodes := mkProverNodes {
  pn_prover_nodes : list ProverNode;
  pn_snark_nodes : list ProverNode
}.
Definition ProverNodes_new : ProverNodes := mkProverNodes [] [].
Definition add_node (node : ProverNode) (ns : ProverNodes) : ProverNodes :=
  mkProverNodes (pn_prover_nodes ns ++ [node]) (pn_snark_nodes ns).
Definition add_snark_node (node : ProverNode) (ns : ProverNodes) : ProverNodes :=
  mkProverNodes (pn_prover_nodes ns) (pn_snark_nodes ns ++ [node]).
Definition all_nodes (ns : ProverNodes) : list ProverNode := pn_prover_nodes ns.
(** The first node is the snark node. *)
Definition get_snark_nodes (ns : ProverNodes) : outcome (list ProverNode) :=
  n ← unwrap (pn_prover_nodes ns !! 0%nat); Ret [n].

Definition register_nodes (addrs : list string) : ProverNodes :=
  foldl (λ ns addr, add_node (ProverNode_new addr) ns) ProverNodes_new addrs.

Section start.
Context `{E : !External} `{L : !StartLib} `{K : !Tokio}.

(** ** common/src/tls.rs *)

(** The PEM texts of the certificates. *)
Record TlsConfig := mkTlsConfig {
  tls_ca_cert : option bytes;
  tls_identity : option (bytes * bytes)
}.

Definition is_file_m (p : string) : M bool := w ← get_world; mret (fs_is_file (w_fs w) p).
(** [tokio::fs::read]; an error panics. *)
Definition read_or_panic (p : string) : M bytes := data ← read_m p; lift (unwrap data).

Definition get_cert_and_identity (ca_cert_path cert_path key_path : string) :
    M (option bytes * option (bytes * bytes)) :=
  ca_file ← is_file_m ca_cert_path;
  ca ← (if ca_file : bool then ca_cert ← read_or_panic ca_cert_path; mret (Some ca_cert)
        else mret None) : M (option bytes);
  cert_file ← is_file_m cert_path;
  key_file ← is_file_m key_path;
  identity ← (if (cert_file : bool) && key_file
              then cert ← read_or_panic cert_path;
                   key ← read_or_panic key_path;
                   mret (Some (cert, key))
              else mret None) : M (option (bytes * bytes));
  mret (ca, identity).

Definition TlsConfig_new (ca_cert_path cert_path key_path : string) : M TlsConfig :=
  '(ca_cert, identity) ← get_cert_and_identity ca_cert_path cert_path key_path;
  mret (mkTlsConfig ca_cert identity).

(** ** The services *)

Definition from_toml (path : string) : M (option RuntimeConfig) :=
  contents ← file_read_to_string path;
  mret (contents ≫= toml_from_str).

(** [usize::MAX >> 3], the permits a [Semaphore] has at most; [new] panics for more. *)
Definition MAX_PERMITS : Z := Z.shiftr usize_MAX 3.

(** [StageServiceSVC::new]: what the stage service keeps of the configuration, its tasks
    and the certificates its clients use.  A database that is not there ends it with an
    error, at the migrations. *)
Record StageServiceSVC := mkStageServiceSVC {
  svc_config : RuntimeConfig;
  svc_manager : TaskManager;
  svc_tls : option TlsConfig
}.
Definition StageServiceSVC_new (config : RuntimeConfig) (db : Database) (now : Z) :
    M (option StageServiceSVC) :=
  tls_config ← (match cf_ca_cert_path config with
                | Some ca =>
                    cert ← lift (unwrap (cf_cert_path config));
                    key ← lift (unwrap (cf_key_path config));
                    c ← TlsConfig_new ca cert key; mret (Some c)
                | None => mret None
                end) : M (option TlsConfig);
  lift (rust_assert (mysql_url (cf_database_url config)));;
  if negb (db_online db) then mret None
  else
    lift (rust_assert (default 1 (cf_max_concurrent_tasks config) <=? MAX_PERMITS));;
    mret (
      manager ← start_manager (Z.to_nat <$> cf_max_concurrent_tasks config) db now;
      Some (mkStageServiceSVC config manager tls_config)).

(** [ProverServiceSVC::new]: the directory its pipeline gets. *)
Record ProverServiceSVC := mkProverServiceSVC {
  psv_config : RuntimeConfig;
  psv_base_dir : string;
  psv_keys_dir : string
}.
Definition ProverServiceSVC_new (feature : Feature) (config : RuntimeConfig) :
    outcome ProverServiceSVC :=
  keys ← get_proving_key_path config (ProverVersion_i32 (prover_version feature));
  Ret (mkProverServiceSVC config (cf_base_dir config) keys).

(** ** main *)

(** The command line, and what it is when nothing is given. *)
Record Args := mkArgs { arg_config : string; arg_stage : bool }.
Definition Args_default : Args := mkArgs "./config/config.toml" false.

(** [config::setup_logger]: the kind of logger is RUST_LOGGER's, "flat" without it. *)
Inductive Logger := Forest | Flat.
Definition setup_logger (env : Env) : outcome Logger :=
  let logger_type := default "flat" (env !! "RUST_LOGGER") in
  if decide (logger_type = "forest") then Ret Forest
  else if decide (logger_type = "flat") then Ret Flat
  else Panic.

Inductive ServiceSide := StageSide (s : StageServiceSVC) | ProverSide (p : ProverServiceSVC).

(** What serves: the registered nodes, the server's certificates and the service. *)
Record Serving := mkServing {
  sv_nodes : ProverNodes;
  sv_tls : option TlsConfig;
  sv_service : ServiceSide;
  sv_metrics : Metrics
}.

(** [None]: the server does not take the certificates. *)
Definition server_tls (config : RuntimeConfig) : M (option (option TlsConfig)) :=
  match cf_key_path config with
  | Some key =>
      cert ← lift (unwrap (cf_cert_path config));
      c ← TlsConfig_new (default empty_str (cf_ca_cert_path config)) cert key;
      mret (if tonic_tls (tls_ca_cert c) (tls_identity c) then Some (Some c) else None)
  | None => mret (Some None)
  end.

(** [None]: [main] returns an error before it serves. *)
Definition main (feature : Feature) (env : Env) (args : Args) (db : Database) (now : Z) :
    M (option Serving) :=
  _ ← lift (setup_logger env);
  runtime_config ← from_toml (arg_config args);
  runtime_config ← lift (unwrap runtime_config);
  if negb (socket_addr (cf_addr runtime_config)) then mret None
  else
    let nodes := register_nodes (cf_prover_addrs runtime_config) in
    tls ← server_tls runtime_config;
    match tls with
    | None => mret None
    | Some tls =>
        service ← (if arg_stage args
                   then s ← StageServiceSVC_new runtime_config db now; mret (StageSide <$> s)
                   else p ← lift (ProverServiceSVC_new feature runtime_config);
                        mret (Some (ProverSide p))) : M (option ServiceSide);
        match service with
        | None => mret None
        | Some service =>
            if negb (socket_addr (cf_metrics_addr runtime_config)) then mret None
            else
              lift (rust_assert (tcp_bind (cf_metrics_addr runtime_config)));;
              mret (Some (mkServing nodes tls service (init_registry metrics_start)))
        end
    end.

End start.
