(* ===== verification/StartThms.v ===== *)
(** * StartThms: what a start of the service leads to

    When the stage service starts, when it stops with an error and when it panics; and
    that the nodes it registers are the pool of ProverPool, so that with distinct
    addresses no prover ever works for two calls. *)

From S2P Require Import Prelude Text Proto World Tasks Stage Database Config ProverPool.
From S2P Require Import TaskManager StageService NodeService ProveOpts Metrics.
From S2P Require Import StartUp.

(** ** The registry *)

Lemma register_nodes_from ns ss addrs :
  foldl (λ ns addr, add_node (ProverNode_new addr) ns) (mkProverNodes ns ss) addrs =
  mkProverNodes (ns ++ (ProverNode_new <$> addrs)) ss.
Proof.
  revert ns. induction addrs as [|a addrs IH]; intros ns; [by rewrite app_nil_r|].
  cbn [foldl]. unfold add_node at 2. cbn [pn_prover_nodes pn_snark_nodes].
  by rewrite IH, <-app_assoc.
Qed.
Lemma register_nodes_all addrs :
  register_nodes addrs = mkProverNodes (ProverNode_new <$> addrs) [].
Proof. apply (register_nodes_from [] []). Qed.

(** ** Addresses *)

Lemma take_node_addr now n n' : take_node now n = Some n' → nd_addr n' = nd_addr n.
Proof. unfold take_node. repeat case_match; by intros [= <-]. Qed.
Lemma is_active_addr b n r n' : is_active b n = (r, n') → nd_addr n' = nd_addr n.
Proof. unfold is_active. by repeat case_match; intros [= <- <-]. Qed.

Section addrs.
Context {Resp : Type} (max_prover_num : nat → Z) (prove_nodes_num : option nat).
Abbreviation step := (call_step (Resp := Resp) max_prover_num prove_nodes_num).

Definition addrs_of (sh : Shared) : list string := nd_addr <$> sh_nodes sh.

Lemma addrs_set_node k f sh :
  (∀ n, sh_nodes sh !! k = Some n → nd_addr (f n) = nd_addr n) →
  addrs_of (set_node k f sh) = addrs_of sh.
Proof.
  intros Hf. unfold addrs_of, set_node. cbn. apply list_eq. intros i.
  rewrite !list_lookup_fmap, list_lookup_alter. case_decide as Hi; [|done]. subst i.
  destruct (sh_nodes sh !! k) as [n|] eqn:Hn; cbn; [by rewrite Hf|done].
Qed.

Lemma call_step_addrs ev c sh ph sh' :
  step ev c sh = Some (ph, sh') → addrs_of sh' = addrs_of sh.
Proof.
  unfold call_step, set_status. intros Hs.
  destruct (c_phase c); destruct ev; simplify_option_eq; try done.
  all: repeat (case_match; simplify_option_eq); try done.
  all: apply addrs_set_node; intros n0 Hn0; simplify_eq; try done.
  all: first [by eapply take_node_addr|by eapply is_active_addr].
Qed.

Lemma pool_steps_addrs p p' :
  rtc (pool_step max_prover_num prove_nodes_num) p p' →
  addrs_of (pl_shared (Resp := Resp) p') = addrs_of (pl_shared p).
Proof.
  induction 1 as [|p1 p2 p3 H12 _ IH]; [done|]. rewrite IH.
  inversion H12; subst; cbn; [done|by eapply call_step_addrs].
Qed.
End addrs.

Section start.
Context `{E : !External} `{L : !StartLib} `{K : !Tokio}.

(** ** Certificates: no file that is there is unreadable *)

Lemma fs_is_file_read fs p : fs_is_file fs p = bool_decide (is_Some (fs_read fs p)).
Proof.
  unfold fs_is_file, fs_read. by case_bool_decide; case_decide.
Qed.

(** A certificate is used when its file is there; the identity needs both files. *)
Lemma TlsConfig_new_run ca cert key w :
  TlsConfig_new ca cert key w =
  Ret (mkTlsConfig (fs_read (w_fs w) ca)
         (c ← fs_read (w_fs w) cert; k ← fs_read (w_fs w) key; Some (c, k)), w).
Proof.
  unfold TlsConfig_new, get_cert_and_identity, is_file_m, read_or_panic, read_m, mbind, M_bind,
    get_world, mret, M_ret. cbn. rewrite !fs_is_file_read.
  destruct (fs_read (w_fs w) ca) eqn:H1, (fs_read (w_fs w) cert) eqn:H2,
    (fs_read (w_fs w) key) eqn:H3;
    do 4 (cbn; rewrite ?fs_is_file_read, ?H1, ?H2, ?H3); reflexivity.
Qed.

(** ** main *)

(** What [main] does once it has read its configuration. *)
Definition serve (feature : Feature) (stage : bool) (db : Database) (now : Z)
    (c : RuntimeConfig) (tls : option TlsConfig) : M (option Serving) :=
  service ← (if stage
             then s ← StageServiceSVC_new c db now; mret (StageSide <$> s)
             else p ← lift (ProverServiceSVC_new feature c); mret (Some (ProverSide p)));
  match service with
  | None => mret None
  | Some service =>
      if negb (socket_addr (cf_metrics_addr c)) then mret None
      else lift (rust_assert (tcp_bind (cf_metrics_addr c)));;
           mret (Some (mkServing (register_nodes (cf_prover_addrs c)) tls service
                         (init_registry metrics_start)))
  end.

Lemma main_run feature env args db now w c l :
  setup_logger env = Ret l →
  from_toml (arg_config args) w = Ret (Some c, w) → socket_addr (cf_addr c) = true →
  main feature env args db now w =
  (tls ← server_tls c;
   match tls with
   | None => mret None
   | Some tls => serve feature (arg_stage args) db now c tls
   end) w.
Proof.
  intros Hl Ht Ha. unfold main. rewrite Hl.
  rewrite (M_bind_run _ _ _ _ _ (eq_refl : lift (Ret l) w = Ret (l, w))).
  rewrite (M_bind_run _ _ _ _ _ Ht).
  rewrite (M_bind_run _ _ _ _ _ (eq_refl : lift (unwrap (Some c)) w = Ret (c, w))).
  by rewrite Ha.
Qed.

Lemma setup_logger_run env :
  setup_logger env = Panic ↔
  ∃ l, env !! "RUST_LOGGER" = Some l ∧ l ≠ "forest" ∧ l ≠ "flat".
Proof.
  unfold setup_logger. destruct (env !! "RUST_LOGGER") as [l|]; simpl.
  - repeat case_decide; naive_solver.
  - repeat case_decide; naive_solver.
Qed.

(** A configuration whose certificate paths are incomplete, or whose database URL does
    not parse, panics. *)
Definition misconfigured (c : RuntimeConfig) : Prop :=
  (is_Some (cf_key_path c) ∧ cf_cert_path c = None) ∨
  (is_Some (cf_ca_cert_path c) ∧ (cf_cert_path c = None ∨ cf_key_path c = None)) ∨
  mysql_url (cf_database_url c) = false.

(** More tasks at a time than a semaphore has permits. *)
Definition too_many_tasks (c : RuntimeConfig) : Prop :=
  MAX_PERMITS < default 1 (cf_max_concurrent_tasks c).

(** The certificates of the files, and whether the server takes them. *)
Definition tls_rejected (c : RuntimeConfig) (w : World) : Prop :=
  ∃ key cert, cf_key_path c = Some key ∧ cf_cert_path c = Some cert ∧
    tonic_tls (fs_read (w_fs w) (default empty_str (cf_ca_cert_path c)))
      (c ← fs_read (w_fs w) cert; k ← fs_read (w_fs w) key; Some (c, k)) = false.

Lemma server_tls_run c w :
  match server_tls c w with
  | Panic => is_Some (cf_key_path c) ∧ cf_cert_path c = None
  | Ret (tls, w') =>
      ¬ (is_Some (cf_key_path c) ∧ cf_cert_path c = None) ∧ w' = w ∧
      (tls = None ↔ tls_rejected c w)
  end.
Proof.
  unfold server_tls, tls_rejected. destruct (cf_key_path c) as [key|]; [|cbn; naive_solver].
  destruct (cf_cert_path c) as [cert|]; [|split; [by eexists|done]].
  unfold mbind, M_bind. cbn. rewrite TlsConfig_new_run. cbn.
  split; [naive_solver|]. split; [done|].
  destruct (tonic_tls _ _) eqn:Ht; split; try done.
  - intros (k&ce&[= <-]&[= <-]&Hf). discriminate (eq_trans (eq_sym Ht) Hf).
  - intros _. by exists key, cert.
Qed.

Lemma start_manager_online m db now :
  db_online db = true → is_Some (start_manager m db now).
Proof.
  intros Ho. unfold start_manager, load_incomplete_tasks_from_db, get_incomplete_stage_tasks, online.
  rewrite Ho. by eexists.
Qed.

Lemma StageServiceSVC_new_run c db now w :
  match StageServiceSVC_new c db now w with
  | Panic => (is_Some (cf_ca_cert_path c) ∧ (cf_cert_path c = None ∨ cf_key_path c = None)) ∨
             mysql_url (cf_database_url c) = false ∨ db_online db = true ∧ too_many_tasks c
  | Ret (s, w') =>
      ¬ (is_Some (cf_ca_cert_path c) ∧ (cf_cert_path c = None ∨ cf_key_path c = None)) ∧
      mysql_url (cf_database_url c) = true ∧ w' = w ∧
      match s with
      | None => db_online db = false
      | Some s => db_online db = true ∧ ¬ too_many_tasks c ∧ svc_config s = c ∧
          start_manager (Z.to_nat <$> cf_max_concurrent_tasks c) db now = Some (svc_manager s)
      end
  end.
Proof.
  unfold StageServiceSVC_new.
  destruct (cf_ca_cert_path c) as [ca|], (cf_cert_path c) as [cert|], (cf_key_path c) as [key|];
    unfold mbind, M_bind; cbn; rewrite ?TlsConfig_new_run; cbn;
    try (left; split; [by eexists|by auto]).
  all: destruct (mysql_url _); cbn; [|by auto].
  all: destruct (db_online db) eqn:Ho; cbn.
  all: try (destruct (Z.leb_spec (default 1 (cf_max_concurrent_tasks c)) MAX_PERMITS); cbn;
    [|by right; right]).
  all: try (destruct (start_manager_online (Z.to_nat <$> cf_max_concurrent_tasks c) db now Ho)
    as [m Hm]; rewrite Hm; cbn).
  all: split_and!; try done; try naive_solver; unfold too_many_tasks; lia.
Qed.

Lemma main_nodes feature env args db now w c sv w' :
  from_toml (arg_config args) w = Ret (Some c, w) →
  main feature env args db now w = Ret (Some sv, w') →
  all_nodes (sv_nodes sv) = ProverNode_new <$> cf_prover_addrs c.
Proof.
  intros Ht Hm. destruct (setup_logger env) as [l|] eqn:Hl;
    [|unfold main in Hm; by rewrite Hl in Hm].
  destruct (socket_addr (cf_addr c)) eqn:Ha.
  - rewrite (main_run _ _ _ _ _ _ _ _ Hl Ht Ha) in Hm.
    apply M_bind_Ret in Hm as ([tls|]&w1&_&H); [|by apply M_mret_Ret in H as [[=] _]].
    apply M_bind_Ret in H as ([s|]&w2&_&H); [|by apply M_mret_Ret in H as [[=] _]].
    destruct (negb _); [by apply M_mret_Ret in H as [[=] _]|].
    apply M_bind_Ret in H as (u&w3&_&[[= <-] _]%M_mret_Ret). cbn. by rewrite register_nodes_all.
  - unfold main in Hm. apply M_bind_Ret in Hm as (l'&w1&[_ <-]%lift_Ret&Hm).
    rewrite (M_bind_run _ _ _ _ _ Ht) in Hm.
    apply M_bind_Ret in Hm as (c'&w1&[[= <-]%unwrap_Ret <-]%lift_Ret&Hm). by rewrite Ha in Hm.
Qed.

(** The configuration of a start, if it can be read. *)
Definition config_at (path : string) (w : World) : option RuntimeConfig :=
  match from_toml path w with Ret (c, _) => c | Panic => None end.

Lemma config_at_None feature env path stage db now w :
  config_at path w = None → main feature env (mkArgs path stage) db now w = Panic.
Proof.
  unfold config_at, main, mbind, M_bind. cbn [arg_config].
  destruct (setup_logger env); cbn; [|done].
  destruct (from_toml path w) as [[c w']|]; [|done]. by intros ->.
Qed.
Lemma config_at_Some path w c : config_at path w = Some c → from_toml path w = Ret (Some c, w).
Proof.
  unfold config_at. destruct (from_toml path w) as [[c' w']|] eqn:H; [|done]. intros ->.
  unfold from_toml in H. apply M_bind_Ret in H as (s&w1&Hr&[_ <-]%M_mret_Ret).
  rewrite file_read_to_string_eq in Hr. apply M_bind_Ret in Hr as (d&w2&Hr&[_ <-]%M_mret_Ret).
  by apply file_read_same in Hr as ->.
Qed.

(** What follows the certificates. *)
Lemma serve_run feature c db now tls w :
  ¬ (is_Some (cf_key_path c) ∧ cf_cert_path c = None) →
  match serve feature true db now c tls w with
  | Panic => misconfigured c ∨ db_online db = true ∧
      (too_many_tasks c ∨ socket_addr (cf_metrics_addr c) = true ∧ tcp_bind (cf_metrics_addr c) = false)
  | Ret (None, w') => w' = w ∧ ¬ misconfigured c ∧
      (db_online db = false ∨ ¬ too_many_tasks c ∧ socket_addr (cf_metrics_addr c) = false)
  | Ret (Some sv, w') => w' = w ∧ ¬ misconfigured c ∧ db_online db = true ∧
      ¬ too_many_tasks c ∧ socket_addr (cf_metrics_addr c) = true ∧
      tcp_bind (cf_metrics_addr c) = true ∧
      all_nodes (sv_nodes sv) = ProverNode_new <$> cf_prover_addrs c ∧
      sv_metrics sv = init_registry metrics_start ∧
      ∃ s, sv_service sv = StageSide s ∧ svc_config s = c ∧
        start_manager (Z.to_nat <$> cf_max_concurrent_tasks c) db now = Some (svc_manager s)
  end.
Proof.
  intros Htls. pose proof (StageServiceSVC_new_run c db now w) as Hs.
  unfold serve, misconfigured, mbind, M_bind.
  destruct (StageServiceSVC_new c db now w) as [[s w2]|]; [|tauto].
  destruct Hs as (Hca&Hurl&->&Hs). cbn.
  assert (¬ ((is_Some (cf_key_path c) ∧ cf_cert_path c = None) ∨
    (is_Some (cf_ca_cert_path c) ∧ (cf_cert_path c = None ∨ cf_key_path c = None)) ∨
    mysql_url (cf_database_url c) = false)) as Hok by (rewrite Hurl; naive_solver).
  destruct s as [s|]; cbn; [|by auto]. destruct Hs as (Ho&Hmany&Hc&Hm).
  destruct (socket_addr (cf_metrics_addr c)); cbn; [|by auto].
  destruct (tcp_bind (cf_metrics_addr c)); cbn; [|by auto].
  split_and!; try done; [by rewrite register_nodes_all|by eexists].
Qed.


(** [C10] Start-up and pool composed: when the configured addresses differ, in every state
    the calls of the started service reach, no two of them hold nodes with the same
    address: no prover works for two calls at once. *)
Theorem address_exclusive {Resp : Type} max_prover_num prove_nodes_num
    feature env args db now w c sv w' (p : Pool (Resp := Resp)) :
  from_toml (arg_config args) w = Ret (Some c, w) →
  main feature env args db now w = Ret (Some sv, w') →
  NoDup (cf_prover_addrs c) →
  rtc (pool_step max_prover_num prove_nodes_num)
    (mkPool (mkShared (all_nodes (sv_nodes sv)) (λ _, 0)) []) p →
  ∀ i i' d d' k k' n n',
    pl_calls p !! i = Some d → pl_calls p !! i' = Some d' →
    holds d = Some k → holds d' = Some k' →
    sh_nodes (pl_shared p) !! k = Some n → sh_nodes (pl_shared p) !! k' = Some n' →
    nd_addr n = nd_addr n' → i = i'.
Proof.
  intros Ht Hmain Hnd Hr i i' d d' k k' n n' Hi Hi' Hk Hk' Hn Hn' Haddr.
  rewrite (main_nodes _ _ _ _ _ _ _ _ _ Ht Hmain) in Hr.
  change (rtc (pool_step max_prover_num prove_nodes_num) (pool_init (cf_prover_addrs c)) p) in Hr.
  assert (k = k') as <-.
  { apply pool_steps_addrs in Hr as Haddrs. unfold addrs_of in Haddrs. cbn in Haddrs.
    rewrite <-list_fmap_compose, list_fmap_id in Haddrs by done. rewrite <-Haddrs in Hnd.
    eapply NoDup_lookup; [exact Hnd|..]; rewrite list_lookup_fmap, ?Hn, ?Hn'; cbn; [done|by rewrite Haddr]. }
  destruct (reachable_inv _ _ _ _ Hr) as [Ho _ _ _]. by eapply holds_unique.
Qed.

End start.
