(* ===== verification/Client.v ===== *)
(** * Client: the client of the stage service ([proof-service/examples/stage.rs])

    It builds a request from its environment and files, signs it, sends it and asks for
    the status every second until the proof is no longer computing; a proof it gets is
    written to a file. *)

From S2P Require Import Prelude Text Proto World Tasks Stage Database Config ProverPool.
From S2P Require Import TaskManager StageService NodeService StartUp.
From Stdlib Require Import Ascii.

(** ** [env::var] with a default, and numbers in it *)

Abbreviation Env := (gmap string string).
Definition env_or (env : Env) (name fallback : string) : string := default fallback (env !! name).

Definition parse_max (max : Z) (s : string) : option Z :=
  n ← parse_usize s; if n <=? max then Some n else None.
Definition parse_u32 : string → option Z := parse_max (2 ^ 32 - 1).
(** A sign, at least one digit, within [i32]. *)
Definition parse_i32 (s : string) : option Z :=
  match s with
  | String "-" EmptyString => None
  | String "-" s' => n ← parse_digits 0 s'; if n <=? 2 ^ 31 then Some (- n) else None
  | _ => parse_max (2 ^ 31 - 1) s
  end.

(** [split_whitespace], on the bytes of the text: the words between white space. *)
Fixpoint words_go (fuel : nat) (word s : list N) : list (list N) :=
  let flush := match word with [] => [] | _ => [rev word] end in
  match fuel with
  | O => flush
  | S fuel =>
      match s with
      | [] => flush
      | b :: s' =>
          match ws_head s with
          | O => words_go fuel (b :: word) s'
          | k => flush ++ words_go fuel [] (drop k s)
          end
      end
  end.
Definition split_whitespace (s : string) : list string :=
  let codes := code <$> String.list_ascii_of_string s in
  (λ w, String.string_of_list_ascii (ascii_of_N <$> w)) <$> words_go (S (length codes)) [] codes.

(** [Path::join] of a relative name. *)
Definition path_join (dir name : string) : string :=
  if is_empty dir || ends_with "/" dir then dir +:+ name else dir +:+ "/" +:+ name.

Section client.
Context `{E : !External} `{S : !Service}.

(** ** Code outside the repository: the wallet (ethers) and bincode

    A signature recovers to the address of the wallet that made it. *)
Class Wallet := {
  wallet : Type;
  (** [str::parse::<LocalWallet>] *)
  parse_wallet : string → option wallet;
  (** the address, as [format!("{:?}")] prints it *)
  wallet_address : wallet → string;
  (** [sign_message(..).await] and [to_string] of the signature *)
  sign_message : wallet → string → option string;
  (** [bincode::serialize] of a [Vec<u8>] *)
  bincode_vec : bytes → bytes;
  sign_recovers k message text : sign_message k message = Some text →
    ∃ signature, sig_from_str text = Some signature ∧
      sig_recover signature message = Some (wallet_address k)
}.
Context `{W : !Wallet}.

(** ** sign_ecdsa *)

Definition with_signature (req : GenerateProofRequest) (signature : string) :
    GenerateProofRequest :=
  mkGenerateProofRequest (gp_proof_id req) (gp_elf_data req) (gp_block_data req)
    (gp_block_no req) (gp_seg_size req) (gp_elf_id req) signature
    (gp_public_input_stream req) (gp_private_input_stream req) (gp_target_step req)
    (gp_composite_proof req) (gp_receipt_inputs req) (gp_receipts req) (gp_from_step req)
    (gp_single_node req) (gp_max_prover_num req).

(** The text that is signed. *)
Definition client_sign_data (req : GenerateProofRequest) : string :=
  match gp_block_no req with
  | Some block_no => gp_proof_id req +:+ "&" +:+ pretty block_no +:+ "&" +:+
                     pretty (gp_seg_size req)
  | None => gp_proof_id req +:+ "&" +:+ pretty (gp_seg_size req)
  end.

Definition sign_ecdsa (req : GenerateProofRequest) (private_key : string) :
    outcome GenerateProofRequest :=
  rust_assert (negb (is_empty private_key));;
  k ← unwrap (parse_wallet private_key);
  signature ← unwrap (sign_message k (client_sign_data req));
  mret (with_signature req signature).

(** ** main: the request *)

Definition PRIVATE_KEY : string :=
  "0xac0974bec39a17e36ba4a6b4d238ff944bacb478cbed5efcae784d7bf4f2ff80".
Definition ARGS : string :=
  "711e9609339e92b03ddc0a211827dba421f38f9ed8b9d806e1ffdd8c15ffa03d world!".
(** [env::set_var] *)
Definition client_env (env : Env) : Env :=
  <["ARGS" := ARGS]> (<["PRIVATE_KEY" := PRIVATE_KEY]> env).

(** The files of a block's directory. *)
Fixpoint read_block_items (block_path : string) (files : list string) : M (list BlockFileItem) :=
  match files with
  | [] => mret []
  | file_name :: files =>
      data ← file_read (block_path +:+ "/" +:+ file_name);
      data ← lift (unwrap data);
      items ← read_block_items block_path files;
      mret (mkBlockFileItem file_name data :: items)
  end.

Definition read_block (block_no : Z) (block_path : string) : M (list BlockFileItem) :=
  if 0 <? block_no then
    files ← file_read_dir block_path;
    files ← lift (unwrap files);
    read_block_items block_path files
  else mret [].

(** The request and the client's certificates. *)
Definition client_request (env : Env) : M (GenerateProofRequest * option TlsConfig) :=
  let env := client_env env in
  let elf_path := env_or env "ELF_PATH" "/tmp/zkm/test/hello_world" in
  let block_path := env_or env "BLOCK_PATH" empty_str in
  let block_no := default 0 (parse_usize (env_or env "BLOCK_NO" "0")) in
  let seg_size := default 131072 (parse_u32 (env_or env "SEG_SIZE" "131072")) in
  let args := env_or env "ARGS" empty_str in
  let ca_cert_path := env_or env "CA_CERT_PATH" empty_str in
  let cert_path := env_or env "CERT_PATH" empty_str in
  let key_path := env_or env "KEY_PATH" empty_str in
  let private_key := env_or env "PRIVATE_KEY" empty_str in
  let target_step := default 5 (parse_i32 (env_or env "TARGET_STEP" "5")) in
  ssl_config ← (if is_empty ca_cert_path then mret None
                else c ← TlsConfig_new ca_cert_path cert_path key_path; mret (Some c)) :
               M (option TlsConfig);
  elf_data ← file_read elf_path;
  elf_data ← lift (unwrap elf_data);
  block_data ← read_block block_no block_path;
  private_input ← lift (unwrap (split_whitespace args !! 1%nat));
  let private_input_stream := bincode_vec (String.list_byte_of_string private_input) in
  let private_input_stream := bincode_ser [private_input_stream] in
  proof_id ← new_uuid;
  let request := {|
    gp_proof_id := proof_id; gp_elf_data := elf_data; gp_block_data := block_data;
    gp_block_no := Some block_no; gp_seg_size := seg_size; gp_elf_id := None;
    gp_signature := empty_str; gp_public_input_stream := [];
    gp_private_input_stream := private_input_stream; gp_target_step := Some target_step;
    gp_composite_proof := false; gp_receipt_inputs := []; gp_receipts := [];
    gp_from_step := None; gp_single_node := false; gp_max_prover_num := 0 |} in
  request ← lift (sign_ecdsa request private_key);
  mret (request, ssl_config).

(** ** main: the calls *)

(** How the client ends: an error of the transport or of the server, a request that is
    not computing, the last status; or it still polls. *)
Inductive ClientEnd :=
  | RpcError
  | NotComputing (status : Z)
  | Ended (r : GetStatusResponse)
  | Polling.

(** [Status::from_i32] *)
Definition Status_from_i32 (z : Z) : option Status.t :=
  find (λ s, Status.i32 s =? z)
    [Status.Success; Status.Unspecified; Status.Computing; Status.InvalidParameter;
     Status.InternalError; Status.SplitError; Status.ProveError; Status.AggError;
     Status.SnarkError].

(** The status that ends the loop; an error of the write is ignored. *)
Definition on_status (output_dir : string) (r : GetStatusResponse) : M () :=
  match Status_from_i32 (gs_status r) with
  | Some Status.Success =>
      file_write (path_join output_dir "proof_with_public_inputs")
        (gs_proof_with_public_inputs r);;
      mret tt
  | _ => mret tt
  end.

(** The replies to the client's polls, one a second; [None] is an error. *)
Fixpoint poll (output_dir : string) (replies : list (option GetStatusResponse)) : M ClientEnd :=
  match replies with
  | [] => mret Polling
  | None :: _ => mret RpcError
  | Some r :: replies =>
      if gs_status r =? Status.i32 Status.Computing then poll output_dir replies
      else on_status output_dir r;; mret (Ended r)
  end.

(** [reply]: what [generate_proof] answers, if it does. *)
Definition client_main (env : Env)
    (reply : GenerateProofRequest → option GenerateProofResponse)
    (replies : list (option GetStatusResponse)) : M ClientEnd :=
  '(request, _) ← client_request env;
  let output_dir := env_or (client_env env) "OUTPUT_DIR" "/tmp/zkm/test" in
  match reply request with
  | None => mret RpcError
  | Some response =>
      if gpr_status response =? Status.i32 Status.Computing
      then poll output_dir replies
      else mret (NotComputing (gpr_status response))
  end.

End client.
