(* ===== verification/ClientThms.v ===== *)
(** * ClientThms: a client and the service

    The client's requests carry a signature the service verifies, a valid one is
    accepted, and the polls end with the proof the service made; or, when the database
    goes away in between, with a success that is none. *)

From S2P Require Import Prelude Text Proto World Tasks Stage Database Config ProverPool.
From S2P Require Import ProverClient Worker TaskManager StageService ServiceLemmas.
From S2P Require Import ServiceThms ServiceAccept ServiceRun NodeService StartUp StartThms Client.
From Stdlib Require Import Ascii.

Section client.
Context `{E : !External} `{J : !Json} `{S : !Service} `{W : !Wallet}.

(** ** Signatures *)

Lemma client_sign_data_same req signature :
  client_sign_data req = sign_data (with_signature req signature).
Proof. reflexivity. Qed.

Lemma sign_ecdsa_verifies req key req' :
  sign_ecdsa req key = Ret req' →
  ∃ k signature, parse_wallet key = Some k ∧ req' = with_signature req signature ∧
    verify_signature req' = Some (wallet_address k).
Proof.
  unfold sign_ecdsa. intros ([]&_&H)%bind_Ret. apply bind_Ret in H as (k&Hk%unwrap_Ret&H).
  apply bind_Ret in H as (text&Ht%unwrap_Ret&[= <-]). exists k, text. split_and!; [done..|].
  destruct (sign_recovers _ _ _ Ht) as (signature&Hs&Hr). unfold verify_signature. cbn.
  rewrite Hs. cbn. by rewrite <-client_sign_data_same.
Qed.

(** ** What the client asks for *)

Record asked (env : Env) (req : GenerateProofRequest) (wc : World) : Prop := {
  as_elf : file_read (env_or (client_env env) "ELF_PATH" "/tmp/zkm/test/hello_world") wc =
    Ret (Some (gp_elf_data req), wc);
  as_proof_id : gp_proof_id req = uuid_v4 (w_uuids wc);
  as_seg_size : gp_seg_size req =
    default 131072 (parse_u32 (env_or (client_env env) "SEG_SIZE" "131072"));
  as_target : gp_target_step req =
    Some (default 5 (parse_i32 (env_or (client_env env) "TARGET_STEP" "5")));
  as_block : gp_block_no req = Some (default 0 (parse_usize (env_or (client_env env) "BLOCK_NO" "0")));
  as_from : gp_from_step req = None;
  as_data : gp_block_no req = Some 0 → gp_block_data req = [];
  as_receipts : gp_composite_proof req = false;
  as_single : gp_single_node req = false;
  as_signer : ∃ k, parse_wallet PRIVATE_KEY = Some k ∧
    verify_signature req = Some (wallet_address k)
}.

Lemma read_block_items_same path files wc items wc' :
  read_block_items path files wc = Ret (items, wc') → wc' = wc.
Proof.
  revert items wc'. induction files as [|f files IH]; intros items wc'; cbn [read_block_items].
  - by intros [_ ->]%M_mret_Ret.
  - intros (d&w1&->%file_read_same&H)%M_bind_Ret.
    apply M_bind_Ret in H as (d'&w2&[_ <-]%lift_Ret&H).
    by apply M_bind_Ret in H as (l&w3&->%IH&[_ ->]%M_mret_Ret).
Qed.
Lemma read_block_same no path wc items wc' :
  read_block no path wc = Ret (items, wc') → wc' = wc.
Proof.
  unfold read_block. destruct (0 <? no); [|by intros [_ ->]%M_mret_Ret].
  intros (d&w1&->%file_read_dir_same&H)%M_bind_Ret.
  apply M_bind_Ret in H as (d'&w2&[_ <-]%lift_Ret&H). by apply read_block_items_same in H.
Qed.

Lemma TlsConfig_new_same ca cert key wc c wc' :
  TlsConfig_new ca cert key wc = Ret (c, wc') → wc' = wc.
Proof. rewrite TlsConfig_new_run. by intros [= _ <-]. Qed.

Lemma client_request_inv env wc req tls wc' :
  client_request env wc = Ret ((req, tls), wc') → asked env req wc ∧ wc' = bump 1 wc.
Proof.
  unfold client_request. intros (ssl&w1&H1&H)%M_bind_Ret.
  assert (w1 = wc) as ->.
  { destruct (is_empty _); [by apply M_mret_Ret in H1 as [_ ->]|].
    by apply M_bind_Ret in H1 as (c&w2&->%TlsConfig_new_same&[_ ->]%M_mret_Ret). }
  apply M_bind_Ret in H as (elf&w2&Helf&H). pose proof (file_read_same _ _ _ _ Helf) as ->.
  apply M_bind_Ret in H as (elf_data&w3&[->%unwrap_Ret <-]%lift_Ret&H).
  apply M_bind_Ret in H as (items&w4&Hitems&H). pose proof (read_block_same _ _ _ _ _ Hitems) as ->.
  apply M_bind_Ret in H as (arg&w5&[_ <-]%lift_Ret&H).
  apply M_bind_Ret in H as (id&w6&[= <- <-]&H).
  apply M_bind_Ret in H as (req'&w7&[Hsign <-]%lift_Ret&[[= -> _] <-]%M_mret_Ret).
  assert (env_or (client_env env) "PRIVATE_KEY" empty_str = PRIVATE_KEY) as Hkey.
  { unfold env_or, client_env. by rewrite lookup_insert_ne, lookup_insert_eq by done. }
  rewrite Hkey in Hsign.
  destruct (sign_ecdsa_verifies _ _ _ Hsign) as (k&signature&Hk&->&Hv).
  split; [|done]. split; cbn; try done.
  - intros [= Hno]. rewrite Hno in Hitems. by apply M_mret_Ret in Hitems as [<- _].
  - by exists k.
Qed.

(** What the server answers to a request in its state. *)
Definition served (feature : Feature) (cfg : RuntimeConfig) (db : Database) (w : World)
    (req : GenerateProofRequest) : option GenerateProofResponse :=
  match generate_proof feature cfg req db true w with
  | Ret ((Response r, _, _), _) => Some r
  | _ => None
  end.

(** [C14] Client and service composed: the request the example client builds for an ELF
    file with content is accepted by a service that knows the client's key: the client's
    signature verifies there, and from then on the client polls. *)
Theorem client_accepted feature cfg db env wc w req tls wc' :
  client_request env wc = Ret ((req, tls), wc') →
  gp_elf_data req ≠ [] → gp_block_no req = Some 0 →
  (feature = feature_prover → valid_seg_size (gp_seg_size req) = true) →
  target_step req = Some Split ∨ target_step req = Some Agg ∨ target_step req = Some Snark →
  (∀ k, parse_wallet PRIVATE_KEY = Some k → ∃ user,
     trim_start_0x <$> to_checksum (wallet_address k) = Some user ∧ user ∈ db_user db) →
  db_online db = true → db_stage_task db !! uuid_v4 (w_uuids wc) = None →
  local_dir (cf_base_dir cfg) → cf_base_dir cfg +:+ "/elf" ∈ fs_dirs (w_fs w) →
  contains "/" (sha256_hex (gp_elf_data req)) = false →
  room (planned_dir cfg req) (planned_file feature cfg req) (w_fs w) →
  ∀ replies, client_main env (served feature cfg db w) replies wc =
    poll (env_or (client_env env) "OUTPUT_DIR" "/tmp/zkm/test") replies wc'.
Proof.
  intros Hreq Helf Hblock Hseg Htgt Huser Ho Hfree Hl Hdir Hhash Hroom replies.
  destruct (client_request_inv _ _ _ _ _ Hreq) as [Ha _].
  destruct (as_signer _ _ _ Ha) as (k&Hk&Hv). destruct (Huser k Hk) as (user&Hc&Hu).
  destruct (valid_request_checks feature cfg req db w Hl) as (u&g&w1&Hchecks&_).
  { split; try done.
    - auto.
    - by exists (wallet_address k), user.
    - by rewrite (as_proof_id _ _ _ Ha).
    - left. split; [|done]. unfold from_step. by rewrite (as_from _ _ _ Ha).
    - rewrite (as_data _ _ _ Ha Hblock). by intros b ?%elem_of_nil. }
  rewrite <-(as_proof_id _ _ _ Ha) in Hfree.
  destruct (generate_proof_checked _ _ _ _ _ _ _ _ Hchecks Ho Hfree) as (db'&t&Hg).
  unfold client_main. rewrite (M_bind_run _ _ _ _ _ Hreq). unfold served. by rewrite Hg.
Qed.

(** ** The polls *)

Lemma poll_computing out rs replies :
  Forall (λ r, gs_status r = Status.i32 Status.Computing) rs →
  poll out ((Some <$> rs) ++ replies) = poll out replies.
Proof.
  induction 1 as [|r rs Hr _ IH]; [done|]. cbn. by rewrite Hr.
Qed.

Lemma poll_ends out rs r later wc :
  Forall (λ r, gs_status r = Status.i32 Status.Computing) rs →
  gs_status r ≠ Status.i32 Status.Computing →
  poll out ((Some <$> rs) ++ Some r :: later) wc = (on_status out r;; mret (Ended r)) wc.
Proof.
  intros Hrs Hr. rewrite poll_computing by done. cbn [poll]. by rewrite (proj2 (Z.eqb_neq _ _) Hr).
Qed.

(** The proof's file. *)
Definition proof_file (out : string) : string := path_join out "proof_with_public_inputs".

Lemma on_status_success out r wc fs :
  gs_status r = Status.i32 Status.Success → is_s3_path (proof_file out) = false →
  fs_create (w_fs wc) (proof_file out) (gs_proof_with_public_inputs r) = Some fs →
  on_status out r wc = Ret (tt, wc <| w_fs := fs |>) ∧
  fs_read fs (proof_file out) = Some (gs_proof_with_public_inputs r).
Proof.
  intros Hr Hs Hc. split.
  - unfold on_status. rewrite Hr. cbn [Status_from_i32]. rewrite file_write_eq.
    fold (proof_file out). rewrite Hs.
    unfold create_m, mbind, M_bind, get_world. cbn. by rewrite Hc.
  - destruct (fs_create_extends _ _ _ _ Hc) as [He Hf]. unfold fs_read.
    rewrite (fe_denied _ _ _ He). unfold fs_create in Hc.
    case_decide as Hd; [done|]. rewrite decide_False by tauto. done.
Qed.

(** [C12] The whole way back: after the loop of a proof has finished, the client's next
    poll ends it; a failed proof writes nothing, a finished one leaves in the client's
    file the bytes that the service's SNARK file (or aggregation file) held. *)
Theorem client_gets_proof feature cfg id g duration ws w db w' user t out rs later wc fs :
  loop_finish id g duration ws w = Ret (db, w') →
  db_stage_task (ws_db ws) !! id = Some (user, t) →
  status_context (stg_context t) = Some g →
  rows_filled (ws_db ws) →
  gt_target_step g = Agg ∨ gt_target_step g = Snark →
  gt_output_stream_path g = empty_str → gt_composite_proof g = false →
  is_s3_path (gt_snark_path g) = false →
  Forall (λ r, gs_status r = Status.i32 Status.Computing) rs →
  is_s3_path (proof_file out) = false →
  fs_create (w_fs wc) (proof_file out) (default [] (fs_read (w_fs w) (gt_snark_path g))) = Some fs →
  ∃ r, get_status feature cfg id db w' = Ret (r, w') ∧
    let polled := poll out ((Some <$> rs) ++ Some r :: later) wc in
    if is_error (ws_stage ws)
    then gs_status r = Status.i32 (error_status (stage_step (ws_stage ws))) ∧
         polled = Ret (Ended r, wc)
    else polled = Ret (Ended r, wc <| w_fs := fs |>) ∧
         fs_read fs (proof_file out) = Some (default [] (fs_read (w_fs w) (gt_snark_path g))).
Proof.
  intros Hfin Ht Hctx Hf Htgt Hout Hcomp Hlocal Hrs Hs3 Hcreate.
  destruct (finished_status feature cfg id g duration ws w db w' user t Hfin Ht Hctx Hf
    Htgt Hout Hcomp Hlocal) as (r&Hget&->&_&Hr).
  exists r. split; [done|]. cbv zeta. destruct (is_error (ws_stage ws)).
  - destruct Hr as [Hst _]. split; [done|].
    rewrite poll_ends by (done || by rewrite Hst; destruct (stage_step (ws_stage ws))).
    unfold on_status. rewrite Hst. by destruct (stage_step (ws_stage ws)).
  - destruct Hr as (Hst&Hp&_). rewrite poll_ends by (done || by rewrite Hst).
    rewrite <-Hp in Hcreate |- *.
    destruct (on_status_success out r wc fs Hst Hs3 Hcreate) as [Hrun Hread].
    split; [|done]. by rewrite (M_bind_run _ _ _ _ _ Hrun).
Qed.

(** [C15] A database that does not answer looks like a success: [get_status] then
    returns the default response, whose status is Success and which holds no proof, as it
    does for an unknown id; a client that polls at such a time stops waiting and writes
    an empty proof. *)
Theorem outage_looks_like_success feature cfg id db w out rs later wc fs :
  db_online db = false ∨ db_stage_task db !! id = None →
  Forall (λ r, gs_status r = Status.i32 Status.Computing) rs →
  is_s3_path (proof_file out) = false →
  fs_create (w_fs wc) (proof_file out) [] = Some fs →
  ∃ r, get_status feature cfg id db w = Ret (r, w) ∧
    gs_status r = Status.i32 Status.Success ∧
    poll out ((Some <$> rs) ++ Some r :: later) wc = Ret (Ended r, wc <| w_fs := fs |>) ∧
    fs_read fs (proof_file out) = Some [].
Proof.
  intros Hdb Hrs Hs3 Hcreate. exists (GetStatusResponse_default id).
  assert (get_stage_task db id = None) as Hget.
  { unfold get_stage_task, online. destruct Hdb as [-> | ->]; [done|]. by destruct (db_online db). }
  split; [unfold get_status; by rewrite Hget|]. split; [done|].
  rewrite poll_ends by done.
  destruct (on_status_success out (GetStatusResponse_default id) wc fs eq_refl Hs3 Hcreate)
    as [Hrun Hread].
  split; [|done]. by rewrite (M_bind_run _ _ _ _ _ Hrun).
Qed.

End client.
