(* ===== verification/ClientSample.v ===== *)
(** * ClientSample: a client and a service that meet

    The examples of ServiceAccept, ClientThms and StartThms: a client with an empty
    environment, a service that knows its key, a proof that is finished. *)

From S2P Require Import Prelude Text Proto World Tasks Stage Database Config ProverPool.
From S2P Require Import ProverClient Worker TaskManager ManagerThms StageService.
From S2P Require Import ServiceLemmas ServiceThms ServiceAccept ServiceRun ServiceSample.
From S2P Require Import NodeService ProveOpts Metrics StartUp StartThms Client ClientThms.

(** Every key is that of the user "ab". *)
Lemma sample_recovers (k m text : string) :
  Some "0xab" = Some text →
  ∃ signature, @sig_from_str service_sample text = Some signature ∧
    sig_recover signature m = Some "0xab".
Proof. intros [= <-]. by exists "0xab". Qed.
#[export] Instance sample_wallet : Wallet := {|
  wallet := string; parse_wallet s := Some s; wallet_address _ := "0xab";
  sign_message _ _ := Some "0xab"; bincode_vec b := b; sign_recovers := sample_recovers
|}.

Definition client_world : @World service_external :=
  @mkWorld service_external
    (mkFs {[ "/tmp/zkm/test/hello_world" := String.list_byte_of_string "elf" ]} {[ "/tmp/zkm/test" ]} ∅) tt 0.

Definition sent : GenerateProofRequest :=
  match client_request ∅ client_world with Ret ((req, _), _) => req | Panic => block_req end.
Lemma client_sends : client_request ∅ client_world = Ret ((sent, None), bump 1 client_world).
Proof. vm_compute. reflexivity. Qed.

Lemma sample_room :
  room (planned_dir sample_cfg sent) (planned_file feature_prover_v2 sample_cfg sent)
    (w_fs service_world).
Proof.
  split; [intros d _; split; [apply not_elem_of_empty|reflexivity]|].
  intros p Hp. split; [apply not_elem_of_empty|]. cbn. set_unfold.
  intros [->|[->|[]]]; destruct Hp as [He|(f&_&He)]; vm_compute in He; discriminate He.
Qed.

Lemma sample_signer k :
  parse_wallet PRIVATE_KEY = Some k →
  ∃ user, trim_start_0x <$> to_checksum (wallet_address k) = Some user ∧
    user ∈ db_user service_db.
Proof. intros _. exists "ab". split; [reflexivity|set_solver]. Qed.

Lemma sample_valid : valid_request feature_prover_v2 sample_cfg sent service_db (w_fs service_world).
Proof.
  split.
  - by intros [=].
  - exists "0xab", "ab". split_and!; [vm_compute; reflexivity|reflexivity|set_solver].
  - reflexivity.
  - vm_compute. reflexivity.
  - right. right. vm_compute. reflexivity.
  - left. split; [reflexivity|vm_compute; discriminate].
  - vm_compute. by intros b ?%elem_of_nil.
  - cbn. set_solver.
  - vm_compute. reflexivity.
  - apply sample_room.
Qed.


Lemma client_accepted_witness :
  client_main ∅ (served feature_prover_v2 sample_cfg service_db service_world) [] client_world =
    Ret (Polling, bump 1 client_world).
Proof.
  refine (client_accepted feature_prover_v2 sample_cfg service_db ∅ client_world service_world
    sent None (bump 1 client_world) client_sends _ _ _ _ sample_signer eq_refl eq_refl
    sample_local _ _ sample_room []).
  - vm_compute. discriminate.
  - vm_compute. reflexivity.
  - by intros [=].
  - right. right. vm_compute. reflexivity.
  - cbn. set_solver.
  - vm_compute. reflexivity.
Defined.

(** ** The proof of ServiceSample, fetched *)

Definition computing : GetStatusResponse :=
  GetStatusResponse_default "id" <| gs_status := Status.i32 Status.Computing |>.

Lemma client_gets_proof_witness :
  ∃ r fs, poll "/tmp/zkm/test" [Some computing; Some computing; Some r] client_world =
      Ret (Ended r, client_world <| w_fs := fs |>) ∧
    fs_read fs "/tmp/zkm/test/proof_with_public_inputs" =
      Some (String.list_byte_of_string "proof").
Proof.
  destruct (client_gets_proof feature_prover_v2 sample_cfg "id" done_task 9 done_ws done_world
    done_db done_world "ab" done_row "/tmp/zkm/test" [computing; computing] [] client_world _
    done_runs done_lookup done_context done_rows (or_intror eq_refl) eq_refl eq_refl eq_refl
    ltac:(repeat constructor) eq_refl eq_refl) as (r&_&Hp&Hf).
  exists r. eexists. split; [exact Hp|]. etransitivity; [exact Hf|vm_compute; reflexivity].
Defined.

Lemma outage_looks_like_success_witness :
  ∃ r fs, gs_status r = Status.i32 Status.Success ∧
    poll "/tmp/zkm/test" [Some computing; Some r] client_world =
      Ret (Ended r, client_world <| w_fs := fs |>) ∧
    fs_read fs "/tmp/zkm/test/proof_with_public_inputs" = Some [].
Proof.
  destruct (outage_looks_like_success feature_prover_v2 sample_cfg "id"
    (mkDatabase ∅ ∅ ∅ false) done_world "/tmp/zkm/test" [computing] [] client_world _
    (or_introl eq_refl) ltac:(repeat constructor) eq_refl eq_refl) as (r&_&Hs&Hp&Hf).
  exists r. eexists. split; [exact Hs|]. split; [exact Hp|exact Hf].
Defined.

(** ** The start of the service *)

#[local] Existing Instance SampleManager.list_tokio.

#[export] Instance sample_start : StartLib := {|
  toml_from_str s := if is_empty s then None else Some sample_cfg;
  socket_addr s := negb (is_empty s); mysql_url _ := true;
  tonic_tls _ _ := true; tcp_bind _ := true
|}.

Definition start_world : @World service_external :=
  @mkWorld service_external
    (mkFs {[ "config.toml" := String.list_byte_of_string "addr" ]} ∅ ∅) tt 0.

Lemma start_reads : from_toml "config.toml" start_world = Ret (Some sample_cfg, start_world).
Proof. vm_compute. reflexivity. Qed.

Definition start_args : Args := mkArgs "config.toml" true.
Definition start_env : Env := {[ "RUST_LOGGER" := "forest" ]}.
Definition serving : Serving :=
  match main feature_prover_v2 start_env start_args service_db 9 start_world with
  | Ret (Some sv, _) => sv
  | _ => mkServing ProverNodes_new None (ProverSide (mkProverServiceSVC sample_cfg empty_str empty_str))
           metrics_start
  end.
Lemma starts :
  main feature_prover_v2 start_env start_args service_db 9 start_world =
    Ret (Some serving, start_world).
Proof. reflexivity. Qed.


(** Two calls, each with a node of its own. *)
Definition two_calls : list (nat * option (@Event unit)) :=
  [(0%nat, None); (0%nat, None);
   (0%nat, Some (Go 1)); (0%nat, Some (Shuffled [0; 1]%nat)); (0%nat, Some (Go 2));
   (1%nat, Some (Go 3)); (1%nat, Some (Shuffled [0; 1]%nat)); (1%nat, Some (Go 4));
   (1%nat, Some (Go 5))].
Definition two_pool : Pool (Resp := ()) :=
  default (pool_init []) (pool_run (λ _, 2) None (pool_init ["n0"; "n1"]) two_calls).

Lemma address_exclusive_witness :
  (nd_addr <$> sh_nodes (pl_shared two_pool) !! 0%nat) ≠
  (nd_addr <$> sh_nodes (pl_shared two_pool) !! 1%nat).
Proof.
  intros Ha. enough (0%nat = 1%nat) by discriminate.
  refine (address_exclusive (λ _, 2) None feature_prover_v2 start_env start_args service_db 9
    start_world sample_cfg serving start_world two_pool start_reads starts _ _
    0%nat 1%nat _ _ 0%nat 1%nat _ _ eq_refl eq_refl eq_refl eq_refl eq_refl eq_refl _).
  - apply (bool_decide_unpack _). vm_compute. exact I.
  - rewrite (main_nodes _ start_env start_args _ _ _ _ _ _ start_reads starts).
    apply (pool_run_steps _ _ (pool_init ["n0"; "n1"]) two_calls). vm_compute. reflexivity.
  - exact (f_equal (default empty_str) Ha).
Defined.
