(* ===== verification/Machine.v ===== *)
(** * Machine: the provers' common steps ([prover_v2/src])

    A prover of the zkVM is third-party code: a STARK machine with a setup, traces, a
    Fiat-Shamir challenger, a commitment and an opening.  [AggProver::compress] and
    [RootProver::prove] both end with the same five steps over it, [open_record]. *)

From S2P Require Import Prelude ProveOpts NodeService.

(** ** Code outside the repository *)

(** A machine over programs and execution records, with its verifying keys and its
    shard proofs ([MachineProver] and [StarkMachine]). *)
Record Machine (program record vk proof opts : Type) := mkMachine {
  m_pk : Type;
  m_traces : Type;
  m_data : Type;
  m_challenger : Type;
  m_setup : program → m_pk * vk;
  (** of a slice of one record *)
  m_generate_dependencies : opts → record → record;
  m_generate_traces : record → m_traces;
  (** [config().challenger()] *)
  m_fresh_challenger : m_challenger;
  m_observe_into : m_pk → m_challenger → m_challenger;
  m_commit : record → m_traces → m_data;
  m_open : m_pk → m_data → m_challenger → string + proof;
  (** the shard proofs of records, and their check *)
  m_prove : m_pk → list record → m_challenger → opts → string + list proof;
  m_verify : vk → list proof → m_challenger → bool
}.
Arguments m_pk {_ _ _ _ _} m : rename.
Arguments m_traces {_ _ _ _ _} m : rename.
Arguments m_data {_ _ _ _ _} m : rename.
Arguments m_challenger {_ _ _ _ _} m : rename.
Arguments m_setup {_ _ _ _ _} m : rename.
Arguments m_generate_dependencies {_ _ _ _ _} m : rename.
Arguments m_generate_traces {_ _ _ _ _} m : rename.
Arguments m_fresh_challenger {_ _ _ _ _} m : rename.
Arguments m_observe_into {_ _ _ _ _} m : rename.
Arguments m_commit {_ _ _ _ _} m : rename.
Arguments m_open {_ _ _ _ _} m : rename.
Arguments m_prove {_ _ _ _ _} m : rename.
Arguments m_verify {_ _ _ _ _} m : rename.

(** [ZKMReduceProof] *)
Record ReduceProof (vk proof : Type) := mkReduceProof { rp_vk : vk; rp_proof : proof }.
Arguments mkReduceProof {_ _}.
Arguments rp_vk {_ _}.
Arguments rp_proof {_ _}.

(** [recursion_opts] and [core_opts] of the options. *)
Class StarkOpts := {
  stark_prover_opts :: ProverOpts;
  CoreOpts : Type;
  core_opts : ZKMProverOpts → CoreOpts;
  recursion_opts : ZKMProverOpts → CoreOpts
}.

(** [Result::unwrap] *)
Definition unwrap_result {A} (r : string + A) : outcome A :=
  match r with inr a => Ret a | inl _ => Panic end.

(** ** The steps *)

Section open.
Context {program record vk proof opts : Type} (M : Machine program record vk proof opts).

(** The key is observed, the record with its traces committed, the commitment opened. *)
Definition open_record (pk : m_pk M) (r : record) : string + proof :=
  let traces := m_generate_traces M r in
  let challenger := m_observe_into M pk (m_fresh_challenger M) in
  let data := m_commit M r traces in
  m_open M pk data challenger.

End open.
