(* ===== verification/Circuits.v ===== *)
(** * Circuits: the aggregation prover of feature "prover_v2" ([prover_v2/src/agg_prover.rs])

    [AggProver::prove] decodes the proofs of an [AggContext] into the witness of one of
    three recursion circuits, runs the circuit's program on the witness and proves its
    execution ([AggProver::compress]).  The proof formats (class [Recursion]) and the
    circuits' programs, runtime and machine (class [RecursionProver]) are third-party
    code. *)

From S2P Require Import Prelude Text Proto World Tasks Stage ProverPool ProverClient.
From S2P Require Import NodeService ProveOpts Machine.

Section witness.
Context {shard_proof core_vk deferred_proof reduce_proof groth16_proof : Type}.

(** [ZKMCircuitWitness]; the recursion key root is the prover's own. *)
Inductive CircuitWitness :=
  | Core (vk : core_vk) (shard_proofs : list shard_proof) (is_complete is_first_shard : bool)
  | Deferred (witness : deferred_proof)
  | Compress (vks_and_proofs : list reduce_proof) (is_complete : bool).

(** [ZKMProof]: compressed, a gnark proof, or another kind. *)
Inductive ZKMProof :=
  | Compressed (p : reduce_proof)
  | Groth16 (p : groth16_proof)
  | OtherProof.
End witness.
Arguments CircuitWitness : clear implicits.
Arguments ZKMProof : clear implicits.

Class Recursion := {
  shard_proof : Type;
  core_vk : Type;
  deferred_witness : Type;
  inner_vk : Type;
  inner_proof : Type;
  groth16_proof : Type;
  (** [bincode::deserialize] *)
  de_shard_proof : bytes → option shard_proof;
  de_core_vk : bytes → option core_vk;
  de_deferred : bytes → option deferred_witness;
  (** [serde_json::from_str] of the text *)
  de_zkm_proof : bytes → option (ZKMProof (ReduceProof inner_vk inner_proof) groth16_proof);
  (** [serde_json::to_string] *)
  ser_zkm_proof : ZKMProof (ReduceProof inner_vk inner_proof) groth16_proof → bytes
}.
Abbreviation reduce_proof := (ReduceProof inner_vk inner_proof).
Abbreviation Witness := (CircuitWitness shard_proof core_vk deferred_witness reduce_proof).

Class RecursionProver {R : Recursion} {SO : StarkOpts} := {
  rec_program : Type;
  rec_record : Type;
  (** an element of a witness stream *)
  witness_block : Type;
  (** proofs with their Merkle proofs in the tree of allowed keys *)
  merkle_witness : Type;
  make_merkle_proofs : list reduce_proof → bool → merkle_witness;
  (** [Witnessable::write] *)
  write_core : core_vk → list shard_proof → bool → bool → list witness_block;
  write_deferred : deferred_witness → list witness_block;
  write_merkle : merkle_witness → list witness_block;
  recursion_program : core_vk → list shard_proof → bool → bool → rec_program;
  deferred_program : deferred_witness → rec_program;
  compress_program : merkle_witness → rec_program;
  (** the hash permutation of a machine, and [Runtime::new] and [run] with it *)
  permutation : Type;
  compress_perm : permutation;
  runtime_run : permutation → rec_program → list witness_block → string + rec_record;
  compress_prover : Machine rec_program rec_record inner_vk inner_proof CoreOpts
}.

Section agg_prover.
Context `{R : !Recursion}.
(** [?] after an error, with the error's text left open. *)
Definition or_error {A} (message : string) (o : option A) : Proved A :=
  Ret (match o with Some a => inr a | None => inl message end).

(** A proof that is not compressed is [unreachable!]. *)
Definition reduced_of (proof : bytes) : outcome reduce_proof :=
  p ← unwrap (de_zkm_proof proof);
  match p with Compressed p => mret p | _ => Panic end.

Definition circuit_witness (ctx : V2.AggContext) : Proved Witness :=
  if V2.ac_is_leaf_layer ctx then
    if negb (V2.ac_is_deferred ctx) then
      shard_proofs ← mapM (λ p, unwrap (de_shard_proof p)) (V2.ac_proofs ctx);
      map_ok (λ vk, Core vk shard_proofs (V2.ac_is_complete ctx) (V2.ac_is_first_shard ctx))
        (or_error "vk" (de_core_vk (V2.ac_vk ctx)))
    else
      proof ← unwrap (V2.ac_proofs ctx !! 0%nat);
      map_ok Deferred (or_error "proof" (de_deferred proof))
  else
    reduced_proofs ← mapM reduced_of (V2.ac_proofs ctx);
    mret (inr (Compress reduced_proofs (V2.ac_is_complete ctx))).

End agg_prover.

Section compress.
Context `{R : !Recursion} `{SO : !StarkOpts} `{P : !RecursionProver}.

(** The program and the witness stream of a circuit. *)
Definition program_and_witness (input : Witness) : rec_program * list witness_block :=
  match input with
  | Core vk shard_proofs is_complete is_first_shard =>
      (recursion_program vk shard_proofs is_complete is_first_shard,
       write_core vk shard_proofs is_complete is_first_shard)
  | Deferred input => (deferred_program input, write_deferred input)
  | Compress vks_and_proofs is_complete =>
      let input_with_merkle := make_merkle_proofs vks_and_proofs is_complete in
      (compress_program input_with_merkle, write_merkle input_with_merkle)
  end.

(** [AggProver::compress]; an opening that fails is an [unwrap]. *)
Definition compress (input : Witness) (opts : CoreOpts) : Proved reduce_proof :=
  let '(program, witness_stream) := program_and_witness input in
  match runtime_run compress_perm program witness_stream with
  | inl e => Ret (inl e)
  | inr record =>
      let record := m_generate_dependencies compress_prover opts record in
      let '(pk, vk) := m_setup compress_prover program in
      proof ← unwrap_result (open_record compress_prover pk record);
      mret (inr (mkReduceProof vk proof))
  end.

(** [AggProver::prove]; [NetworkProve::default] reads the environment. *)
Definition agg_prove (env : Env) (ctx : V2.AggContext) : Proved bytes :=
  input ← circuit_witness ctx;
  match input with
  | inl e => mret (inl e)
  | inr input =>
      map_ok (λ p, ser_zkm_proof (Compressed p))
        (compress input (recursion_opts (opts_default env)))
  end.

End compress.
