(* ===== verification/V1Provers.v ===== *)
(** * V1Provers: the provers of feature "prover" ([prover/src])

    [Executor::split] with its files and its loop, [RootProver], [AggProver] and
    [SnarkProver]: the decisions and the input and output around the emulator, the
    STARK and recursion provers and the gnark prover, which are third-party code. *)

From Stdlib Require Import Ascii.
From S2P Require Import Prelude Text Proto World Tasks ProverPool ProverClient NodeService.

(** ** Code outside the repository: [zkm_emulator] and [elf] *)
Class Emulator `{E : !External} := {
  State : Type;
  InstrumentedState : Type;
  (** [minimal_parse] with the text of its error, [load_elf], [patch_elf], [patch_stack] *)
  load_elf : bytes → Proved State;
  push_input : bytes → State → State;
  set_memory_range : Z → bytes → State → option State;
  get_block_path : string → string → string;
  instrument : State → string → InstrumentedState;
  exited : InstrumentedState → bool;
  (** the cycles since the last segment *)
  step : InstrumentedState → Z * InstrumentedState;
  (** writes a segment when a writer is given *)
  split_segment : bool → bool → string → InstrumentedState → M InstrumentedState;
  total_step : InstrumentedState → Z;
  pre_segment_id : InstrumentedState → Z;
  public_values_stream : InstrumentedState → bytes;
  dump_memory : InstrumentedState → M ();
  (** [bincode]'s [Vec<Vec<u8>>] *)
  de_receipt_inputs : bytes → option (list bytes)
}.

Section executor.
Context `{E : !External} `{U : !Emulator}.

(** The first eight segments are a quarter as long. *)
Definition split_seg_size (seg_size : Z) (loop_index : nat) : Z :=
  if (loop_index <? 8)%nat then Z.shiftr seg_size 2 else seg_size.

(** The loop of [split]; [None]: the program has not ended within the fuel. *)
Fixpoint split_loop (fuel : nat) (seg_size : Z) (seg_path : string) (loop_index : nat)
    (i : InstrumentedState) : M (option InstrumentedState) :=
  match fuel with
  | O => mret None
  | S fuel =>
      if exited i then mret (Some i)
      else
        let '(cycles, i) := step i in
        if split_seg_size seg_size loop_index <=? cycles then
          i ← split_segment true true seg_path i;
          split_loop fuel seg_size seg_path (S loop_index) i
        else split_loop fuel seg_size seg_path loop_index i
  end.

Definition expect {A} (m : M (option A)) : M A := r ← m; lift (unwrap r).

(** A stream, when its path is given. *)
Definition push_stream (path : string) (state : State) : M State :=
  if is_empty path then mret state
  else data ← expect (file_read path); mret (push_input data state).

Definition push_receipts (path : string) (state : State) : M State :=
  if is_empty path then mret state
  else
    data ← expect (file_read path);
    receipt_inputs ← lift (unwrap (de_receipt_inputs data));
    mret (foldl (λ st r, push_input r st) state receipt_inputs).

Definition load_block (block_no : Z) (block_path : string) (state : State) :
    M (State * string) :=
  if 0 <? block_no then
    let input_path := if ends_with "/"%char block_path then block_path +:+ "input"
                      else block_path +:+ "/input" in
    input_data ← expect (file_read input_path);
    state ← lift (unwrap (set_memory_range 0x30000000 input_data state));
    mret (state, block_path)
  else mret (state, empty_str).

(** From the loaded program to its segments. *)
Definition run_program (fuel : nat) (ctx : V1.SplitContext) (block_path : string)
    (state : State) : M (option (Z * Z)) :=
  let seg_path := V1.sc_seg_path ctx in
  created ← file_create_dir_all seg_path;
  lift (rust_assert created);;
  i ← split_segment false false seg_path (instrument state block_path);
  done ← split_loop fuel (V1.sc_seg_size ctx) seg_path 0 i;
  match done with
  | None => mret None
  | Some i =>
      i ← split_segment true true seg_path i;
      dump_memory i;;
      expect (file_write (V1.sc_output_path ctx) (public_values_stream i));;
      mret (Some (total_step i, pre_segment_id i))
  end.

(** [Executor::split]; a program file that cannot be read is no error. *)
Definition executor_split1 (fuel : nat) (ctx : V1.SplitContext) :
    M (option (string + (Z * Z))) :=
  let block_no := default 0 (V1.sc_block_no ctx) in
  data ← file_read (V1.sc_elf_path ctx);
  match data with
  | None => mret (Some (inr (0, 0)))
  | Some data =>
      file_result ← lift (load_elf data);
      match file_result with
      | inl e => mret (Some (inl e))
      | inr state =>
          state ← push_stream (V1.sc_public_input_path ctx) state;
          state ← push_stream (V1.sc_private_input_path ctx) state;
          state ← push_receipts (V1.sc_receipt_inputs_path ctx) state;
          '(state, block_path) ←
            load_block block_no (get_block_path (V1.sc_base_dir ctx) (pretty block_no)) state;
          r ← run_program fuel ctx block_path state;
          mret (inr <$> r)
      end
  end.

(** A program that ends is split with as much fuel as it has steps left, a number that
    every step makes smaller and that writing a segment does not change. *)
Lemma split_loop_returns (steps_left : InstrumentedState → nat) fuel seg_size path k i w :
  (∀ i, steps_left i = 0%nat → exited i = true) →
  (∀ i n, steps_left i = S n → (steps_left (step i).2 ≤ n)%nat) →
  (∀ i w i' w', split_segment true true path i w = Ret (i', w') →
     steps_left i' = steps_left i) →
  (steps_left i < fuel)%nat →
  split_loop fuel seg_size path k i w = Panic ∨
  ∃ i' w', split_loop fuel seg_size path k i w = Ret (Some i', w') ∧ exited i' = true.
Proof.
  intros Hexit Hstep Hseg. revert k i w.
  induction fuel as [|fuel IH]; intros k i w Hf; [lia|]. cbn [split_loop].
  destruct (exited i) eqn:Hx; [right; by exists i, w|].
  destruct (steps_left i) as [|n] eqn:Hn; [by rewrite Hexit in Hx|].
  pose proof (Hstep i n Hn) as Hs. destruct (step i) as [cycles j]. cbn in Hs.
  case_match; [|apply IH; lia].
  unfold mbind, M_bind. destruct (split_segment true true path j w) as [[j' w']|] eqn:Hsp;
    [|by left].
  apply IH. rewrite (Hseg _ _ _ _ Hsp). lia.
Qed.

End executor.

(** ** The other provers *)

Class StarkProver `{E : !External} := {
  receipt1 : Type;
  de_assumption : bytes → option receipt1;
  de_receipt1 : bytes → option receipt1;
  ser_receipt1 : receipt1 → bytes;
  (** [segment_kernel], [prove_root_with_assumption] and [verify_root] *)
  prove_segment : Z → bytes → list receipt1 → Proved receipt1;
  aggregate_proof : receipt1 → receipt1 → bool → bool → Proved receipt1;
  (** write their output under the directories they are given *)
  wrap_stark_bn254 : receipt1 → string → M (string + ());
  as_groth16 : string → string → string → M (string + ())
}.

Section provers1.
Context `{E : !External} `{S : !StarkProver}.

(** [?] in a computation *)
Definition and_try {A B} (m : M (string + A)) (k : A → M (string + B)) : M (string + B) :=
  r ← m; match r with inl e => mret (inl e) | inr a => k a end.
Definition or_fail {A} (message : string) (o : option A) : M (string + A) :=
  mret (match o with Some a => inr a | None => inl message end).

Definition root_prove1 (ctx : V1.ProveContext) : M (string + (bool * bytes)) :=
  and_try (or_fail "receipt" (mapM de_assumption (V1.pc_receipts_input ctx))) (λ receipts,
  seg_data ← file_read (V1.pc_segment ctx);
  and_try (or_fail "read" seg_data) (λ seg_data,
  and_try (lift (prove_segment (default 0 (V1.pc_block_no ctx)) seg_data receipts)) (λ receipt,
  mret (inr (true, ser_receipt1 receipt))))).

Definition agg_prove1 (ctx : V1.AggContext) : Proved (bool * bytes) :=
  match de_receipt1 (V1.ac_receipt_path1 ctx), de_receipt1 (V1.ac_receipt_path2 ctx) with
  | Some first, Some next =>
      map_ok (λ r, (true, ser_receipt1 r))
        (aggregate_proof first next (V1.ac_is_agg_1 ctx) (V1.ac_is_agg_2 ctx))
  | _, _ => Ret (inl "receipt")
  end.

Record SnarkProver := mkSnarkProver { sp_key_path : string; sp_base_dir : string }.
Definition snark_prover_new (key_path base_dir : string) : SnarkProver :=
  mkSnarkProver key_path (base_dir +:+ "/proof").

(** An empty receipt fails the assertion. *)
Definition snark_prove1 (self : SnarkProver) (ctx : SnarkContext) :
    M (string + (bool * bytes)) :=
  let base_dir := sp_base_dir self +:+ "/" +:+ xc_proof_id ctx in
  let input_dir := base_dir +:+ "/wrap" in
  let output_dir := base_dir +:+ "/snark" in
  lift (rust_assert (negb (bool_decide (xc_agg_receipt ctx = []))));;
  and_try (or_fail "receipt" (de_receipt1 (xc_agg_receipt ctx))) (λ agg_receipt,
  and_try (wrap_stark_bn254 agg_receipt input_dir) (λ _,
  and_try (as_groth16 (sp_key_path self) input_dir output_dir) (λ _,
  proof ← read_m (output_dir +:+ "/snark_proof_with_public_inputs.json");
  and_try (or_fail "read" proof) (λ proof, mret (inr (true, proof)))))).

End provers1.

(** ** What a split of feature "prover" makes of its task *)

Section split1.
Context `{E : !External} `{U : !Emulator} `{P : !Provers1}.

(** The node's split is the executor's. *)
Definition split_runs (fuel : nat) (ctx : V1.SplitContext) (w : World) : Prop :=
  match executor_split1 fuel ctx w with
  | Ret (Some r, _) => split1 ctx = Ret r
  | Ret (None, _) => True
  | Panic => split1 ctx = Panic
  end.

(** [C40] Feature "prover": a split whose program cannot be read is not a failure; it is
    answered as busy, and the client leaves the task ready for the next attempt, which
    ends the same way while the file is missing.  One whose program does not parse, or
    with an input that is announced and cannot be read, fails. *)
Theorem split1_errors payload fuel q w addr (s : SplitTask) :
  split_runs fuel (V1.split_context q) w →
  let t := ProverClient.split s (Replied addr (split_elf1 payload q)) in
  (file_read (sq_elf_path q) w = Ret (None, w) →
     st_state t = TASK_STATE_UNPROCESSED ∧ st_total_segments t = 0) ∧
  (∀ data, file_read (sq_elf_path q) w = Ret (Some data, w) →
     (∀ e, load_elf data = Ret (inl e) → st_state t = TASK_STATE_FAILED) ∧
     (∀ state, load_elf data = Ret (inr state) →
        sq_private_input_path q ≠ empty_str → sq_public_input_path q = empty_str →
        file_read (sq_private_input_path q) w = Ret (None, w) →
        st_state t = TASK_STATE_FAILED)).
Proof.
  unfold split_runs, executor_split1. cbn [V1.split_context V1.sc_elf_path].
  intros Hrun. cbv zeta. unfold split_elf1, p1_split. split.
  - intros Hr. unfold mbind, M_bind in Hrun. rewrite Hr in Hrun. cbn in Hrun. by rewrite Hrun.
  - intros data Hr. unfold mbind, M_bind in Hrun. rewrite Hr in Hrun. split.
    + intros e He. rewrite He in Hrun. cbn in Hrun. by rewrite Hrun.
    + intros state Hs Hpriv Hpub Hnone. rewrite Hs in Hrun. cbn -[executor_split1] in Hrun.
      unfold push_stream, expect in Hrun. rewrite Hpub in Hrun. cbn in Hrun.
      destruct (is_empty (sq_private_input_path q)) eqn:Hem; [by destruct (sq_private_input_path q)|].
      unfold mbind, M_bind in Hrun. rewrite Hnone in Hrun. cbn in Hrun. by rewrite Hrun.
Qed.

End split1.
