(* ===== verification/LocalProvers.v ===== *)
(** * LocalProvers: the provers of feature "prover_v2" ([prover_v2/src])

    [Executor::split], [RootProver], [SnarkProver] and [SingleNodeProver]: what they
    read and write, the caches of programs and keys they share ([lib.rs]), and the
    decisions around the proving, which is third-party code. *)

From S2P Require Import Prelude Text Proto World NodeService ProveOpts Machine Circuits.
From S2P Require Import Segments.

(** ** Code outside the repository *)

(** A bounded cache that forgets the least recently used entries. *)
Class Lru := {
  LruCache : Type → Type;
  lru_new {V} : nat → LruCache V;
  (** [get] moves the entry to the front *)
  lru_get {V} : string → LruCache V → option V * LruCache V;
  lru_push {V} : string → V → LruCache V → LruCache V;
  (** the entries, without moving them *)
  lru_peek {V} : string → LruCache V → option V;
  lru_peek_new {V} k n : lru_peek k (lru_new (V := V) n) = None;
  lru_get_peek {V} k (c : LruCache V) : (lru_get k c).1 = lru_peek k c;
  lru_get_same {V} k j (c : LruCache V) : lru_peek j (lru_get k c).2 = lru_peek j c;
  lru_push_same {V} k v (c : LruCache V) : lru_peek k (lru_push k v c) = Some v;
  lru_push_other {V} k v j (u : V) c :
    j ≠ k → lru_peek j (lru_push k v c) = Some u → lru_peek j c = Some u
}.

(** The zkVM's prover [ZKMProver], its formats ([bincode], [serde_json], zstd), and the
    gnark prover. *)
Class CoreProver {Z0 : Zkvm} {R : Recursion} {SO : StarkOpts} {RP : RecursionProver} := {
  program : Type;
  get_program : bytes → option program;
  core_prover : Machine program record core_vk shard_proof CoreOpts;
  (** [core_shape_config] with its [fix_shape] *)
  core_shape_config : option (record → string + record);
  (** [trace_checkpoint] under the options of the core: the records, and the instructions
      its report counts *)
  trace_program : CoreOpts → program → exe_state → list record;
  trace_cycles : CoreOpts → program → exe_state → Z;
  (** what [defer] leaves of a record *)
  deferred_away : record → record;
  record_program : record → program;
  de_segment : bytes → option Segment;
  ser_shard_proof : shard_proof → bytes;
  ser_core_vk : core_vk → bytes;
  de_inputs : bytes → option (list bytes);
  (** a proof with its key *)
  receipt : Type;
  de_receipt : bytes → option receipt;
  receipt_proof : receipt → reduce_proof;
  (** the runtime [Executor::with_context]; [execute_state] is an error, or a checkpoint,
      whether it is the last, and the runtime after it *)
  runtime : Type;
  runtime_new : program → CoreOpts → runtime;
  shapes : Type;
  maximal_core_shapes : Z → shapes;
  set_maximal_shapes : option shapes → runtime → runtime;
  write_vecs : list bytes → runtime → runtime;
  write_proof : receipt → runtime → runtime;
  execute_state : runtime → option (exe_state * bool * runtime);
  public_values_stream : runtime → bytes;
  (** [ExecutionRecord::new], [deferred.split(done, opts.split_opts)] *)
  new_record : program → record;
  split_record : CoreOpts → bool → record → list record * record;
  get_recursion_deferred_inputs : core_vk → PublicValues digest addr_bits →
    list reduce_proof → nat → list deferred_witness;
  ser_deferred : deferred_witness → bytes;
  ser_deferred_written d : ser_deferred d ≠ [];
  (** [opts.checkpoints_channel_capacity], [opts.trace_gen_workers] *)
  checkpoints_channel_capacity : CoreOpts → nat;
  trace_gen_workers : CoreOpts → nat;
  (** [prove_core] of a key, its program's text and the inputs: the proof with its public
      values and cycles; and [compress] with the proofs on the input *)
  core_proof : Type;
  prove_core : m_pk core_prover * core_vk → bytes → list bytes * list receipt →
    ZKMProverOpts → Proved core_proof;
  public_values : core_proof → bytes;
  cycles : core_proof → Z;
  compress_core : core_vk → core_proof → list reduce_proof → ZKMProverOpts →
    Proved reduce_proof;
  (** [shrink], the wrap program and machine, [wrap_groth16_bn254] *)
  shrink : reduce_proof → ZKMProverOpts → Proved reduce_proof;
  shrink_perm : permutation;
  wrap_program : rec_program;
  outer_vk : Type;
  outer_proof : Type;
  wrap_prover : Machine rec_program rec_record outer_vk outer_proof CoreOpts;
  wrap_groth16_bn254 : ReduceProof outer_vk outer_proof → string → outcome groth16_proof
}.

Section provers.
Context `{E : !External} `{L : !Lru} `{T : !TurnSync} `{Z0 : !Zkvm} `{R : !Recursion} `{SO : !StarkOpts}.
Context `{RP : !RecursionProver} `{P : !CoreProver}.

(** ** The state of a node: its world, its environment and its caches *)

Abbreviation CoreKeys := (m_pk core_prover * core_vk)%type.
Abbreviation WrapKeys := (m_pk wrap_prover * outer_vk)%type.

Record Node := mkNode {
  nd_world : World;
  nd_env : Env;
  nd_program_cache : LruCache program;
  nd_key_cache : LruCache CoreKeys;
  (** WRAP_KEYS, and the key [prover.wrap_vk], which is only set once *)
  nd_wrap_keys : option WrapKeys;
  nd_wrap_vk : option outer_vk
}.
#[export] Instance Node_settable : Settable Node := λ r,
  mkNode (nd_world r) (nd_env r) (nd_program_cache r) (nd_key_cache r) (nd_wrap_keys r)
    (nd_wrap_vk r).

Definition DEFAULT_CACHE_SIZE : nat := 5.
Definition node_start (w : World) (env : Env) : Node :=
  mkNode w env (lru_new DEFAULT_CACHE_SIZE) (lru_new DEFAULT_CACHE_SIZE) None None.

(** A prover's call: a value or an error, the node after it; or a panic. *)
Definition NodeCall (A : Type) : Type := Node → outcome ((string + A) * Node).

#[export] Instance Call_ret : MRet NodeCall := λ A a n, Ret (inr a, n).
#[export] Instance Call_bind : MBind NodeCall := λ A B k c n,
  match c n with
  | Ret (inr a, n) => k a n
  | Ret (inl e, n) => Ret (inl e, n)
  | Panic => Panic
  end.

Definition fails {A} (message : string) : NodeCall A := λ n, Ret (inl message, n).
Definition proved {A} (o : Proved A) : NodeCall A := λ n,
  match o with Ret r => Ret (r, n) | Panic => Panic end.
Definition try {A} (message : string) (o : option A) : NodeCall A := proved (or_error message o).
Definition world {A} (m : M A) : NodeCall A := λ n,
  match m (nd_world n) with Ret (a, w) => Ret (inr a, n <| nd_world := w |>) | Panic => Panic end.

(** An [unwrap], an [unreachable!] or third-party code that panics. *)
Definition panics {A} (o : outcome A) : NodeCall A := proved (a ← o; Ret (inr a)).

Definition read_file (path : string) : NodeCall bytes :=
  data ← world (file_read path); try "read" data.
(** [Write::write_all] of [common::file]: nothing is written of nothing. *)
Definition write_all (path : string) (data : bytes) : NodeCall () :=
  match data with
  | [] => mret tt
  | _ => r ← world (file_write path data); try "write" (const tt <$> r)
  end.

(** The options of [NetworkProve::new], made alone (ProveOpts), and of its default. *)
Definition network_prove (seg_size : Z) : NodeCall ZKMProverOpts := λ n,
  let '(opts, env) := network_prove_new seg_size (nd_env n) in
  Ret (inr opts, n <| nd_env := env |>).
Definition network_prove_default : NodeCall ZKMProverOpts := λ n,
  Ret (inr (opts_default (nd_env n)), n).

(** ** The caches *)

(** The program of an id, from the cache or from the program's text. *)
Definition load_program (program_id : string) (elf : NodeCall bytes) : NodeCall program := λ n,
  let '(hit, cache) := lru_get program_id (nd_program_cache n) in
  let n := n <| nd_program_cache := cache |> in
  match hit with
  | Some p => Ret (inr p, n)
  | None =>
      (elf ← elf;
       p ← try "get_program" (get_program elf);
       (λ n, Ret (inr p, n <| nd_program_cache :=
                           lru_push program_id p (nd_program_cache n) |>)) : NodeCall program) n
  end.

Definition load_keys (program_id : string) (p : program) : NodeCall CoreKeys := λ n,
  let '(hit, cache) := lru_get program_id (nd_key_cache n) in
  let n := n <| nd_key_cache := cache |> in
  match hit with
  | Some keys => Ret (inr keys, n)
  | None =>
      let keys := m_setup core_prover p in
      Ret (inr keys, n <| nd_key_cache := lru_push program_id keys (nd_key_cache n) |>)
  end.

(** [WRAP_KEYS.get_or_init]. *)
Definition wrap_keys (p : rec_program) : NodeCall WrapKeys := λ n,
  match nd_wrap_keys n with
  | Some keys => Ret (inr keys, n)
  | None =>
      let keys := m_setup wrap_prover p in
      Ret (inr keys, n <| nd_wrap_keys := Some keys |>)
  end.

(** [prover.wrap_vk.set]: a key that is set already stays. *)
Definition set_wrap_vk (vk : outer_vk) : NodeCall () := λ n,
  Ret (inr tt, n <| nd_wrap_vk := Some (default vk (nd_wrap_vk n)) |>).

(** ** RootProver *)

Definition MAX_RETRIES : nat := 10.

(** [reads i]: the files at the time of the [i]-th attempt, 300 ms after the one before;
    [retries_left] attempts are left after it. *)
Fixpoint read_segment (path : string) (reads : nat → Fs) (i retries_left : nat) :
    option Segment :=
  match data ← fs_read (reads i) path; de_segment data with
  | Some s => Some s
  | None =>
      match retries_left with
      | O => None
      | S retries_left => read_segment path reads (S i) retries_left
      end
  end.

(** The record to prove: the first that the checkpoint traces to, without its deferred
    events and with the public values of the split; no record panics. *)
Definition segment_record (opts : CoreOpts) (ctx : V2.ProveContext) (s : Segment) :
    NodeCall record :=
  match s with
  | SState state public_values =>
      p ← load_program (V2.pc_program_id ctx) (read_file (V2.pc_elf_path ctx));
      r ← panics (unwrap (head (trace_program opts p state)));
      mret (with_pv public_values (deferred_away r))
  | SRecord r => mret r
  end.

Definition fix_shape (r : record) : NodeCall record :=
  match core_shape_config with
  | Some fix_shape => proved (Ret (fix_shape r))
  | None => mret r
  end.

Definition root_prove (ctx : V2.ProveContext) (reads : nat → Fs) : NodeCall bytes :=
  segment ← try "Segment read/decode failed"
              (read_segment (V2.pc_segment ctx) reads 0 MAX_RETRIES);
  opts ← network_prove (V2.pc_seg_size ctx);
  r ← segment_record (core_opts opts) ctx segment;
  keys ← load_keys (V2.pc_program_id ctx) (record_program r);
  r ← fix_shape (m_generate_dependencies core_prover (core_opts opts) r);
  proof ← proved (Ret (open_record core_prover keys.1 r));
  mret (ser_shard_proof proof).

(** ** Executor *)

(** The inputs and the receipts a program is run with. *)
Definition read_stdin (private_input_path receipt_inputs_path : string) :
    NodeCall (list bytes * list receipt) :=
  encoded_input ← read_file private_input_path;
  inputs ← try "inputs" (de_inputs encoded_input);
  if is_empty receipt_inputs_path then mret (inputs, [])
  else
    receipt_datas ← world (read_m receipt_inputs_path);
    receipt_datas ← try "read" receipt_datas;
    receipts ← try "receipts" (de_inputs receipt_datas);
    receipts ← try "receipt" (mapM de_receipt receipts);
    mret (inputs, receipts).

(** The loop of the checkpoint generator: the checkpoints up to the last one, and the
    public values.  It ends when the program does; [None] when the execution fails, which
    the join [unwrap]s, or when [fuel] checkpoints are not enough. *)
Fixpoint generate_checkpoints (fuel : nat) (rt : runtime) : option (list exe_state * bytes) :=
  match fuel with
  | O => None
  | S fuel =>
      '(checkpoint, is_done, rt) ← execute_state rt;
      if (is_done : bool) then Some ([checkpoint], public_values_stream rt)
      else '(es, public_values) ← generate_checkpoints fuel rt;
           Some (checkpoint :: es, public_values)
  end.

(** The serialised inputs of the proofs on the input, one a batch. *)
Definition deferred_proof_inputs (vk : core_vk) (receipts : list receipt)
    (last_proof_pv : PublicValues digest addr_bits) : list bytes :=
  match receipts with
  | [] => []
  | _ => ser_deferred <$> get_recursion_deferred_inputs vk last_proof_pv
                            (receipt_proof <$> receipts) FIRST_LAYER_BATCH_SIZE
  end.
Lemma deferred_proof_inputs_written vk receipts pv :
  [] ∉ deferred_proof_inputs vk receipts pv.
Proof.
  destruct receipts; [set_solver|]. intros (d&Hd&_)%list_elem_of_fmap.
  by apply (ser_deferred_written d).
Qed.
Definition splitter (p : program) (vk : core_vk) (receipts : list receipt)
    (opts : CoreOpts) : Splitter := {|
  trace_checkpoint := trace_program opts p;
  split_deferred := split_record opts;
  record_new := new_record p;
  deferred_inputs := deferred_proof_inputs vk receipts;
  deferred_inputs_written := deferred_proof_inputs_written vk receipts
|}.

(** [ilog2] of nothing panics. *)
Definition maximal_shapes (shard_size : Z) : outcome (option shapes) :=
  match core_shape_config with
  | None => mret None
  | Some _ => if 0 <? shard_size then mret (Some (maximal_core_shapes (Z.log2 shard_size)))
              else Panic
  end.

(** The files of the threads reach the disk: a deferred proof through [common::file],
    the others under a temporary name, with [std::fs].  A deferred proof is never sent to
    an object store, where [segments.txt] could not have been written before. *)
Definition write_one (seg_path : string) (f : string * bytes) (fs : Fs) : option Fs :=
  if starts_with (seg_path +:+ "/deferred_proof_") f.1 then fs_create fs f.1 f.2
  else write_file fs f.1 f.2.
Definition write_files (seg_path : string) (files : gmap string bytes) : M () := λ w,
  match foldr (λ f fs, fs ≫= write_one seg_path f) (Some (w_fs w)) (map_to_list files) with
  | Some fs => Ret (tt, w <| w_fs := fs |>)
  | None => Panic
  end.

(** The runtime with its shapes, the inputs and the proofs on them. *)
Definition split_runtime (p : program) (stdin : list bytes * list receipt)
    (opts : ZKMProverOpts) (shapes : option shapes) : runtime :=
  let rt := set_maximal_shapes shapes (runtime_new p (core_opts opts)) in
  foldl (λ rt receipt, write_proof receipt rt) (write_vecs stdin.1 rt) stdin.2.

(** [total_instruction_count] of the reports of all checkpoints. *)
Definition total_cycles (opts : CoreOpts) (p : program) (es : list exe_state) : Z :=
  u64_wrap (foldr Z.add 0 (trace_cycles opts p <$> es)).

(** [sched] decides which thread goes on (Segments).  A thread that panics, in its turn
    or because a write fails, keeps the others waiting or makes the joins panic: either
    way the split gives nothing. *)
Definition split_with_context (fuel : nat) (sched : list nat) (ctx : V2.SplitContext)
    (p : program) (vk : core_vk) (stdin : list bytes * list receipt) (opts : ZKMProverOpts) :
    NodeCall (Z * Z * bytes) :=
  let core := core_opts opts in
  let run := splitter p vk stdin.2 core in
  shapes ← panics (maximal_shapes (shard_size opts));
  '(es, public_values) ← panics (unwrap
    (generate_checkpoints fuel (split_runtime p stdin opts shapes)));
  let x := run_threads (Sp := run) (checkpoints_channel_capacity core) (V2.sc_seg_path ctx)
             sched (exec_init (Sp := run) (trace_gen_workers core) es) in
  panics (rust_assert (bool_decide (joined x)));;
  world (write_files (V2.sc_seg_path ctx) (x_files x));;
  mret (total_cycles core p es, total_segments x, public_values).

Definition executor_split (fuel : nat) (sched : list nat) (ctx : V2.SplitContext) :
    NodeCall (Z * Z) :=
  opts ← network_prove (V2.sc_seg_size ctx);
  stdin ← read_stdin (V2.sc_private_input_path ctx) (V2.sc_receipt_inputs_path ctx);
  p ← load_program (V2.sc_program_id ctx) (read_file (V2.sc_elf_path ctx));
  keys ← load_keys (V2.sc_program_id ctx) p;
  write_all (V2.sc_base_dir ctx +:+ "/vk.bin") (ser_core_vk keys.2);;
  '(total_steps, total_segments, public_values) ←
    split_with_context fuel sched ctx p keys.2 stdin opts;
  write_all (V2.sc_base_dir ctx +:+ "/wrap/public_values.bin") public_values;;
  mret (total_steps, total_segments).

(** ** SnarkProver *)

(** A proof from the input is a receipt; one of the aggregation is a text that decodes
    to a compressed proof, or the prover panics. *)
Definition snark_input (ctx : SnarkContext) : NodeCall reduce_proof :=
  if xc_from_input ctx then try "receipt" (receipt_proof <$> de_receipt (xc_agg_receipt ctx))
  else panics (reduced_of (xc_agg_receipt ctx)).

(** The wrap program runs on the proof; its execution is proved, the proof verified, and
    its last shard proof is the result. *)
Definition wrap_bn254 (compressed_proof : reduce_proof) (opts : ZKMProverOpts) :
    NodeCall (ReduceProof outer_vk outer_proof) :=
  let input_with_vk := make_merkle_proofs [compressed_proof] true in
  let program := wrap_program in
  record ← proved (Ret (runtime_run shrink_perm program (write_merkle input_with_vk)));
  '(wrap_pk, wrap_vk) ← wrap_keys program;
  set_wrap_vk wrap_vk;;
  shard_proofs ← panics (unwrap_result
    (m_prove wrap_prover wrap_pk [record] (m_fresh_challenger wrap_prover)
       (recursion_opts opts)));
  panics (rust_assert
    (m_verify wrap_prover wrap_vk shard_proofs (m_fresh_challenger wrap_prover)));;
  proof ← panics (unwrap (last shard_proofs));
  mret (mkReduceProof wrap_vk proof).

(** [prove_groth16]; [keys] is [proving_key_paths]. *)
Definition prove_groth16 (keys : string) (reduced_proof : reduce_proof)
    (opts : ZKMProverOpts) : NodeCall groth16_proof :=
  compress_proof ← proved (shrink reduced_proof opts);
  outer_proof ← wrap_bn254 compress_proof opts;
  panics (wrap_groth16_bn254 outer_proof keys).

Definition snark_prove (keys : string) (ctx : SnarkContext) : NodeCall (bool * bytes) :=
  reduced_proof ← snark_input ctx;
  opts ← network_prove_default;
  gnark_proof ← prove_groth16 keys reduced_proof opts;
  mret (true, ser_zkm_proof (Groth16 gnark_proof)).

(** ** SingleNodeProver *)

Definition single_node_prove (keys : string) (ctx : V2.SingleNodeContext) :
    NodeCall (Z * bytes) :=
  opts ← network_prove (V2.nc_seg_size ctx);
  elf ← read_file (V2.nc_elf_path ctx);
  stdin ← read_stdin (V2.nc_private_input_path ctx) (V2.nc_receipt_inputs_path ctx);
  p ← load_program (V2.nc_program_id ctx) (mret elf);
  core_keys ← load_keys (V2.nc_program_id ctx) p;
  write_all (V2.nc_base_dir ctx +:+ "/vk.bin") (ser_core_vk core_keys.2);;
  core_proof ← proved (prove_core core_keys elf stdin opts);
  reduced_proof ← proved
    (compress_core core_keys.2 core_proof (receipt_proof <$> stdin.2) opts);
  proof ← (match Step_from_i32 (V2.nc_target_step ctx) with
           | Some Agg => mret (Compressed reduced_proof)
           | Some Snark => g ← prove_groth16 keys reduced_proof opts; mret (Groth16 g)
           | _ => λ _, Panic
           end : NodeCall (ZKMProof reduce_proof groth16_proof));
  write_all (V2.nc_base_dir ctx +:+ "/wrap/public_values.bin") (public_values core_proof);;
  mret (cycles core_proof, ser_zkm_proof proof).

End provers.
