(* ===== verification/LocalThms.v ===== *)
(** * LocalThms: the provers of a node, with their caches and with each other

    The caches make no difference to what a prover answers or writes; the segment a
    prover reads is the one the split wrote; the output of the aggregation is what the
    SNARK prover takes. *)

From S2P Require Import Prelude Text Proto World NodeService ProveOpts Machine Circuits.
From S2P Require Import Segments SegmentsInv SegmentsThms LocalProvers.

Section caches.
Context `{E : !External} `{L : !Lru} `{T : !TurnSync} `{Z0 : !Zkvm} `{R : !Recursion} `{SO : !StarkOpts}.
Context `{RP : !RecursionProver} `{P : !CoreProver}.

(** The text of the program a program id stands for. *)
Context (elf_of : string → bytes).
(** The records of a checkpoint are those of its program. *)
Context (trace_own : ∀ opts p e r v,
  r ∈ trace_program opts p e → record_program (with_pv v (deferred_away r)) = p).

(** The caches hold what would be computed. *)
Record consistent (n : Node) : Prop := {
  cons_program id p :
    lru_peek id (nd_program_cache n) = Some p → get_program (elf_of id) = Some p;
  cons_keys id keys :
    lru_peek id (nd_key_cache n) = Some keys →
    ∃ p, get_program (elf_of id) = Some p ∧ keys = m_setup core_prover p;
  cons_wrap keys : nd_wrap_keys n = Some keys → keys = m_setup wrap_prover wrap_program
}.

(** The world and the environment of a node. *)
Definition outside (n : Node) : World * Env := (nd_world n, nd_env n).

Lemma node_start_consistent w env : consistent (node_start w env).
Proof. split; cbn; [intros ? ?; by rewrite lru_peek_new..|done]. Qed.

(** Two runs that answer the same with the same outside, with consistent caches. *)
Definition agree {A} (Q : A → World * Env → Prop) (o1 o2 : outcome ((string + A) * Node)) : Prop :=
  match o1, o2 with
  | Panic, Panic => True
  | Ret (r1, n1), Ret (r2, n2) =>
      r1 = r2 ∧ outside n1 = outside n2 ∧ consistent n1 ∧ consistent n2 ∧
      ∀ a, r1 = inr a → Q a (outside n1)
  | _, _ => False
  end.
(** Two calls that agree from two nodes with the same outside. *)
Definition agrees {A} (w : World * Env) (Q : A → World * Env → Prop) (c1 c2 : NodeCall A) : Prop :=
  ∀ n1 n2, outside n1 = w → outside n2 = w → consistent n1 → consistent n2 →
    agree Q (c1 n1) (c2 n2).

Lemma agrees_bind {A B} w (Q : A → World * Env → Prop) (Q' : B → World * Env → Prop) c1 c2 k1 k2 :
  agrees w Q c1 c2 → (∀ a w', Q a w' → agrees w' Q' (k1 a) (k2 a)) →
  agrees w Q' (c1 ≫= k1) (c2 ≫= k2).
Proof.
  intros Hc Hk n1 n2 H1 H2 K1 K2. specialize (Hc n1 n2 H1 H2 K1 K2).
  unfold mbind, Call_bind. unfold agree in Hc.
  destruct (c1 n1) as [[[e1|a1] m1]|], (c2 n2) as [[[e2|a2] m2]|];
    try done; destruct Hc as ([= ->]&Hw&M1&M2&HQ).
  - by split_and!.
  - apply (Hk a2 (outside m1)); auto.
Qed.

Lemma agrees_weaken {A} w (Q Q' : A → World * Env → Prop) c1 c2 :
  agrees w Q c1 c2 → (∀ a w', Q a w' → Q' a w') → agrees w Q' c1 c2.
Proof.
  intros H HQ n1 n2 H1 H2 K1 K2. specialize (H n1 n2 H1 H2 K1 K2). unfold agree in *.
  destruct (c1 n1) as [[]|], (c2 n2) as [[]|]; try done.
  destruct H as (?&?&?&?&H). split_and!; auto.
Qed.

Lemma agrees_ret {A} w (Q : A → World * Env → Prop) a : Q a w → agrees w Q (mret a) (mret a).
Proof.
  intros HQ n1 n2 H1 H2 K1 K2. cbn. split_and!; [done|congruence|done|done|].
  intros b [= <-]. by rewrite H1.
Qed.

Lemma agrees_proved {A} w (o : Proved A) :
  agrees w (λ a w', o = Ret (inr a) ∧ w' = w) (proved o) (proved o).
Proof.
  intros n1 n2 H1 H2 K1 K2. unfold proved. destruct o as [r|]; [|done]. cbn.
  split_and!; [done|congruence|done|done|]. intros a ->. auto.
Qed.

Lemma agrees_try {A} w s (o : option A) :
  agrees w (λ a w', o = Some a ∧ w' = w) (try s o) (try s o).
Proof.
  eapply agrees_weaken; [apply agrees_proved|]. unfold or_error. intros a w' [H ->].
  by destruct o; simplify_eq.
Qed.

Lemma agrees_panics {A} w (o : outcome A) :
  agrees w (λ a w', o = Ret a ∧ w' = w) (panics o) (panics o).
Proof.
  eapply agrees_weaken; [apply agrees_proved|]. intros a w' [H ->]. split; [|done].
  apply bind_Ret in H as (b&->&[= <-]). done.
Qed.

Lemma agrees_world {A} w (m : M A) :
  agrees w (λ a w', m w.1 = Ret (a, w'.1) ∧ w'.2 = w.2) (world m) (world m).
Proof.
  intros n1 n2 <- H2 K1 K2. injection H2 as Hw He. unfold world. rewrite Hw. cbn.
  destruct (m (nd_world n1)) as [[a w']|]; [|done]. destruct K1, K2.
  unfold agree, outside. cbn. rewrite He. split_and!; try done. by intros b [= <-].
Qed.

Lemma agrees_network_prove w size :
  agrees w (λ o w', o = (network_prove_new size w.2).1 ∧ w'.1 = w.1)
    (network_prove size) (network_prove size).
Proof.
  intros n1 n2 <- H2 K1 K2. injection H2 as Hw He. unfold network_prove. rewrite He. cbn.
  destruct (network_prove_new size (nd_env n1)) as [opts env]. destruct K1, K2.
  unfold agree, outside. cbn. rewrite Hw. split_and!; try done. by intros b [= <-].
Qed.

Lemma agrees_network_prove_default w :
  agrees w (λ o w', o = opts_default w.2 ∧ w' = w) network_prove_default network_prove_default.
Proof.
  intros n1 n2 <- H2 K1 K2. injection H2 as Hw He. unfold network_prove_default. rewrite He.
  unfold agree, outside. rewrite He, Hw. split_and!; try done. by intros b [= <-].
Qed.

(** Reading keeps the outside. *)
Lemma agrees_reads {A} w (m : M A) :
  (∀ a w', m w.1 = Ret (a, w') → w' = w.1) →
  agrees w (λ a w', m w.1 = Ret (a, w.1) ∧ w' = w) (world m) (world m).
Proof.
  intros Hm. eapply agrees_weaken; [apply agrees_world|]. intros a [w1 e1] [Ho He]. cbn in *.
  pose proof (Hm _ _ Ho) as ->. split; [done|]. destruct w; cbn in *; congruence.
Qed.
Lemma agrees_read_file w path :
  agrees w (λ a w', file_read path w.1 = Ret (Some a, w.1) ∧ w' = w)
    (read_file path) (read_file path).
Proof.
  unfold read_file. eapply agrees_bind; [apply agrees_reads|].
  - intros a w'. apply file_read_same.
  - cbn. intros o w1 [Ho ->]. eapply agrees_weaken; [apply agrees_try|]. by intros a w2 [-> ->].
Qed.

Lemma agrees_write_all w path data :
  agrees w (λ _ _, True) (write_all path data) (write_all path data).
Proof.
  unfold write_all. destruct data; [by apply agrees_ret|].
  eapply agrees_bind; [apply agrees_world|]. intros r w' _.
  by eapply agrees_weaken; [apply agrees_try|].
Qed.

(** What [load_program] gives, from the cache or not. *)
Lemma load_program_run id elf n :
  consistent n → (∀ n', outside n' = outside n → elf n' = Ret (inr (elf_of id), n')) →
  ∃ n', load_program id elf n =
    Ret (match get_program (elf_of id) with Some p => inr p | None => inl "get_program" end, n') ∧
    outside n' = outside n ∧ consistent n'.
Proof.
  intros [K1 K2 K3] Helf. unfold load_program.
  destruct (lru_get id (nd_program_cache n)) as [hit cache] eqn:Hget.
  assert (hit = lru_peek id (nd_program_cache n)) as Hhit
    by (by rewrite <-lru_get_peek, Hget).
  assert (∀ j, lru_peek j cache = lru_peek j (nd_program_cache n)) as Hsame.
  { intros j. change cache with (hit, cache).2. rewrite <-Hget. apply lru_get_same. }
  set (m := n <| nd_program_cache := cache |>).
  assert (consistent m) as Km by (split; cbn; [intros ??; rewrite Hsame; apply K1|apply K2|apply K3]).
  destruct hit as [p|].
  - rewrite (K1 id p) by done. by exists m.
  - unfold mbind, Call_bind. rewrite Helf by done. unfold try, proved, or_error.
    destruct (get_program (elf_of id)) as [p|] eqn:Hp; [|by exists m].
    eexists. split; [done|]. split; [done|]. split; cbn; [|apply K2|apply K3].
    intros j q Hq. destruct (decide (j = id)) as [->|Hj].
    + rewrite lru_push_same in Hq. by simplify_eq.
    + apply lru_push_other in Hq; [|done]. rewrite Hsame in Hq. by apply K1.
Qed.

Lemma load_keys_run id p n :
  consistent n → get_program (elf_of id) = Some p →
  ∃ n', load_keys id p n = Ret (inr (m_setup core_prover p), n') ∧ outside n' = outside n ∧ consistent n'.
Proof.
  intros [K1 K2 K3] Hp. unfold load_keys.
  destruct (lru_get id (nd_key_cache n)) as [hit cache] eqn:Hget.
  assert (hit = lru_peek id (nd_key_cache n)) as Hhit by (by rewrite <-lru_get_peek, Hget).
  assert (∀ j, lru_peek j cache = lru_peek j (nd_key_cache n)) as Hsame.
  { intros j. change cache with (hit, cache).2. rewrite <-Hget. apply lru_get_same. }
  destruct hit as [keys|].
  - destruct (K2 id keys) as (p'&Hp'&->); [done|]. rewrite Hp in Hp'. injection Hp' as <-.
    eexists. split; [done|]. split; [done|]. split; cbn; [apply K1| |apply K3].
    intros j k. rewrite Hsame. apply K2.
  - eexists. split; [done|]. split; [done|]. split; cbn; [apply K1| |apply K3].
    intros j k Hk. destruct (decide (j = id)) as [->|Hj].
    + rewrite lru_push_same in Hk. simplify_eq. eauto.
    + apply lru_push_other in Hk; [|done]. rewrite Hsame in Hk. by apply K2.
Qed.

Lemma agrees_load_program w id elf :
  (∀ n, outside n = w → elf n = Ret (inr (elf_of id), n)) →
  agrees w (λ p w', get_program (elf_of id) = Some p ∧ w' = w)
    (load_program id elf) (load_program id elf).
Proof.
  intros Helf n1 n2 H1 H2 K1 K2.
  destruct (load_program_run id elf n1 K1) as (m1&->&Hw1&M1); [intros; apply Helf; congruence|].
  destruct (load_program_run id elf n2 K2) as (m2&->&Hw2&M2); [intros; apply Helf; congruence|].
  cbn. split_and!; [done|congruence|done|done|]. intros p. case_match; [|done].
  intros [= <-]. split; congruence.
Qed.

Lemma agrees_load_keys w id p :
  get_program (elf_of id) = Some p →
  agrees w (λ k w', k = m_setup core_prover p ∧ w' = w) (load_keys id p) (load_keys id p).
Proof.
  intros Hp n1 n2 H1 H2 K1 K2.
  destruct (load_keys_run id p n1 K1 Hp) as (m1&->&Hw1&M1).
  destruct (load_keys_run id p n2 K2 Hp) as (m2&->&Hw2&M2).
  cbn. split_and!; [done|congruence|done|done|]. intros k [= <-]. split; congruence.
Qed.

Lemma agrees_wrap_keys w :
  agrees w (λ k w', k = m_setup wrap_prover wrap_program ∧ w' = w)
    (wrap_keys wrap_program) (wrap_keys wrap_program).
Proof.
  assert (∀ n, consistent n → ∃ n', wrap_keys wrap_program n =
    Ret (inr (m_setup wrap_prover wrap_program), n') ∧ outside n' = outside n ∧ consistent n')
    as Hrun.
  { intros n K. destruct (K) as [K1 K2 K3]. unfold wrap_keys.
    destruct (nd_wrap_keys n) as [k|] eqn:Hk.
    - rewrite (K3 k) by done. by exists n.
    - eexists. split; [done|]. split; [done|]. split; cbn; [done..|]. by intros k [= <-]. }
  intros n1 n2 H1 H2 K1 K2.
  destruct (Hrun n1 K1) as (m1&->&Hw1&M1). destruct (Hrun n2 K2) as (m2&->&Hw2&M2).
  cbn. split_and!; [done|congruence|done|done|]. intros k [= <-]. split; congruence.
Qed.

Lemma agrees_set_wrap_vk w vk : agrees w (λ _ w', w' = w) (set_wrap_vk vk) (set_wrap_vk vk).
Proof.
  intros n1 n2 <- H2 [] []. unfold set_wrap_vk, agree.
  split_and!; [done|by symmetry|by split|by split|done].
Qed.

(** A readable program file. *)
Definition program_at (path id : string) (w : World) : Prop :=
  file_read path w = Ret (Some (elf_of id), w).

Lemma read_file_run path id n :
  program_at path id (nd_world n) → read_file path n = Ret (inr (elf_of id), n).
Proof.
  intros H. unfold read_file, mbind, Call_bind, world. rewrite H. by destruct n.
Qed.
Lemma agrees_load_file w path id :
  program_at path id w.1 →
  agrees w (λ p w', get_program (elf_of id) = Some p ∧ w' = w)
    (load_program id (read_file path)) (load_program id (read_file path)).
Proof. intros H. apply agrees_load_program. intros n <-. by apply read_file_run. Qed.

(** The next call of both runs. *)
Tactic Notation "call" uconstr(L) := eapply agrees_bind; [by apply L|]; cbn.

Lemma agrees_read_stdin w private receipts :
  agrees w (λ _ w', w' = w) (read_stdin private receipts) (read_stdin private receipts).
Proof.
  unfold read_stdin. call agrees_read_file. intros input ? [_ ->].
  call agrees_try. intros inputs ? [_ ->].
  destruct (is_empty receipts); [by apply agrees_ret|].
  eapply agrees_bind; [apply agrees_reads; intros a w'; apply read_m_same|].
  cbn. intros o ? [_ ->]. call agrees_try. intros datas ? [_ ->].
  call agrees_try. intros rs ? [_ ->]. call agrees_try. intros rs' ? [_ ->].
  by apply agrees_ret.
Qed.

Lemma agrees_segment_record w opts ctx segment :
  program_at (V2.pc_elf_path ctx) (V2.pc_program_id ctx) w.1 →
  (∀ r, segment = SRecord r → get_program (elf_of (V2.pc_program_id ctx)) = Some (record_program r)) →
  agrees w (λ r w', get_program (elf_of (V2.pc_program_id ctx)) = Some (record_program r) ∧ w' = w)
    (segment_record opts ctx segment) (segment_record opts ctx segment).
Proof.
  intros Helf Hrec. destruct segment as [e pv|r]; cbn [segment_record]; [|apply agrees_ret; auto].
  call agrees_load_file. intros p ? [Hp ->]. call agrees_panics.
  intros r ? [Hr%unwrap_Ret ->]. apply agrees_ret. split; [|done].
  rewrite (trace_own opts p e); [done|].
  destruct (trace_program opts p e); [done|]. cbn in Hr. simplify_eq. set_solver.
Qed.

Lemma agrees_fix_shape w r : agrees w (λ _ w', w' = w) (fix_shape r) (fix_shape r).
Proof.
  unfold fix_shape. destruct core_shape_config; [|by apply agrees_ret].
  eapply agrees_weaken; [apply agrees_proved|]. by intros a w' [_ ->].
Qed.

(** ** The provers *)

Lemma agrees_root_prove w ctx reads :
  program_at (V2.pc_elf_path ctx) (V2.pc_program_id ctx) w.1 →
  (∀ r, read_segment (V2.pc_segment ctx) reads 0 MAX_RETRIES = Some (SRecord r) →
     get_program (elf_of (V2.pc_program_id ctx)) = Some (record_program r)) →
  agrees w (λ _ _, True) (root_prove ctx reads) (root_prove ctx reads).
Proof.
  intros Helf Hrec. unfold root_prove. call agrees_try. intros s ? [Hs ->].
  call agrees_network_prove. intros opts w1 [-> Hw].
  eapply agrees_bind; [apply agrees_segment_record; [by rewrite Hw|intros r ->; by apply Hrec]|].
  cbn. intros r ? [Hp ->]. call agrees_load_keys. intros k ? [_ ->].
  call agrees_fix_shape. intros r' ? ->. call agrees_proved. intros proof ? [_ ->].
  by apply agrees_ret.
Qed.

Lemma agrees_split_with_context w fuel sched ctx p vk stdin opts :
  agrees w (λ _ _, True) (split_with_context fuel sched ctx p vk stdin opts)
    (split_with_context fuel sched ctx p vk stdin opts).
Proof.
  unfold split_with_context. call agrees_panics. intros shapes ? [_ ->].
  call agrees_panics. intros [es pv] ? [_ ->]. call agrees_panics. intros [] ? [_ ->].
  call agrees_world. intros [] w1 _. by apply agrees_ret.
Qed.

Lemma agrees_executor_split w fuel sched ctx :
  program_at (V2.sc_elf_path ctx) (V2.sc_program_id ctx) w.1 →
  agrees w (λ _ _, True) (executor_split fuel sched ctx) (executor_split fuel sched ctx).
Proof.
  intros Helf. unfold executor_split. call agrees_network_prove. intros opts w1 [-> Hw].
  rewrite <-Hw in Helf. call agrees_read_stdin. intros stdin ? ->.
  call agrees_load_file. intros p ? [Hp ->]. call agrees_load_keys. intros k ? [_ ->].
  call agrees_write_all. intros _ w2 _.
  call agrees_split_with_context. intros [[steps total] pv] w3 _.
  call agrees_write_all. intros _ w4 _. by apply agrees_ret.
Qed.

(** What was wrapped: the execution of the wrap program on the proof was proved, and the
    proof verified under the wrap key, before its last shard became the result. *)
Definition wrapped (p : reduce_proof) (opts : ZKMProverOpts)
    (r : ReduceProof outer_vk outer_proof) : Prop :=
  let '(pk, vk) := m_setup wrap_prover wrap_program in
  ∃ rec shard_proofs,
    runtime_run shrink_perm wrap_program (write_merkle (make_merkle_proofs [p] true)) = inr rec ∧
    m_prove wrap_prover pk [rec] (m_fresh_challenger wrap_prover) (recursion_opts opts) =
      inr shard_proofs ∧
    m_verify wrap_prover vk shard_proofs (m_fresh_challenger wrap_prover) = true ∧
    rp_vk r = vk ∧ last shard_proofs = Some (rp_proof r).

Lemma agrees_wrap_bn254 w p opts :
  agrees w (λ r w', wrapped p opts r ∧ w' = w) (wrap_bn254 p opts) (wrap_bn254 p opts).
Proof.
  unfold wrap_bn254, wrapped. call agrees_proved. intros rec ? [[= Hrec] ->].
  call agrees_wrap_keys. intros [pk vk] ? [<- ->].
  call agrees_set_wrap_vk. intros _ ? ->.
  call agrees_panics. intros proofs ? [Hp ->].
  call agrees_panics. intros [] ? [Hv ->].
  call agrees_panics. intros proof ? [Hl%unwrap_Ret ->].
  apply agrees_ret. split; [|done]. exists rec, proofs.
  split_and!; [done| | |done|done].
  - by destruct (m_prove _ _ _ _ _); simplify_eq/=.
  - by destruct (m_verify _ _ _ _).
Qed.

(** The gnark proof of a compressed proof. *)
Definition snark_of (keys : string) (p : reduce_proof) (opts : ZKMProverOpts)
    (g : groth16_proof) : Prop :=
  ∃ p' r, shrink p opts = Ret (inr p') ∧ wrapped p' opts r ∧ wrap_groth16_bn254 r keys = Ret g.

Lemma agrees_prove_groth16 w keys p opts :
  agrees w (λ g w', snark_of keys p opts g ∧ w' = w)
    (prove_groth16 keys p opts) (prove_groth16 keys p opts).
Proof.
  unfold prove_groth16. call agrees_proved. intros p' ? [Hs ->].
  call agrees_wrap_bn254. intros r ? [Hr ->].
  eapply agrees_weaken; [apply agrees_panics|]. intros g ? [Hg ->].
  split; [by exists p', r|done].
Qed.

Lemma agrees_snark_input w ctx :
  agrees w (λ p w', (if xc_from_input ctx
      then receipt_proof <$> de_receipt (xc_agg_receipt ctx) = Some p
      else reduced_of (xc_agg_receipt ctx) = Ret p) ∧ w' = w)
    (snark_input ctx) (snark_input ctx).
Proof. unfold snark_input. destruct (xc_from_input ctx); [apply agrees_try|apply agrees_panics]. Qed.

Lemma agrees_snark_prove w keys ctx :
  agrees w (λ r w', w' = w ∧ ∃ p g,
      (if xc_from_input ctx then receipt_proof <$> de_receipt (xc_agg_receipt ctx) = Some p
       else reduced_of (xc_agg_receipt ctx) = Ret p) ∧
      snark_of keys p (opts_default w.2) g ∧ r = (true, ser_zkm_proof (Groth16 g)))
    (snark_prove keys ctx) (snark_prove keys ctx).
Proof.
  unfold snark_prove. call agrees_snark_input. intros p ? [Hp ->].
  call agrees_network_prove_default. intros opts ? [-> ->].
  call agrees_prove_groth16. intros g ? [Hg ->].
  apply agrees_ret. split; [done|]. by exists p, g.
Qed.

Lemma agrees_single_node_prove w keys ctx :
  program_at (V2.nc_elf_path ctx) (V2.nc_program_id ctx) w.1 →
  agrees w (λ _ _, True) (single_node_prove keys ctx) (single_node_prove keys ctx).
Proof.
  intros Helf. unfold single_node_prove. call agrees_network_prove. intros opts w1 [-> Hw].
  rewrite <-Hw in Helf. call agrees_read_file. intros elf ? [Hr ->].
  assert (elf = elf_of (V2.nc_program_id ctx)) as -> by (unfold program_at in Helf; congruence).
  call agrees_read_stdin. intros stdin ? ->. call agrees_load_program.
  intros p ? [Hp ->]. call agrees_load_keys. intros k ? [_ ->].
  call agrees_write_all. intros _ w2 _. call agrees_proved. intros cp ? [_ ->].
  call agrees_proved. intros rp ? [_ ->].
  eapply (agrees_bind _ (λ _ _, True)).
  { destruct (Step_from_i32 _) as [[]|]; try done.
    - by apply agrees_ret.
    - call agrees_prove_groth16. intros g ? [_ ->]. by apply agrees_ret. }
  intros out w3 _. call agrees_write_all. intros _ w4 _. by apply agrees_ret.
Qed.

(** [C30] The caches of programs and keys make no difference: from any node whose caches
    hold what would be computed, proving a segment, splitting, wrapping a SNARK and
    proving on a single node answer what they would with empty caches, with the same
    files, and leave such caches; the text of a program is one that its id stands for. *)
Theorem caches_transparent n :
  consistent n →
  let fresh := node_start (nd_world n) (nd_env n) in
  (∀ ctx reads, program_at (V2.pc_elf_path ctx) (V2.pc_program_id ctx) (nd_world n) →
     (∀ r, read_segment (V2.pc_segment ctx) reads 0 MAX_RETRIES = Some (SRecord r) →
        get_program (elf_of (V2.pc_program_id ctx)) = Some (record_program r)) →
     agree (λ _ _, True) (root_prove ctx reads n) (root_prove ctx reads fresh)) ∧
  (∀ fuel sched ctx, program_at (V2.sc_elf_path ctx) (V2.sc_program_id ctx) (nd_world n) →
     agree (λ _ _, True) (executor_split fuel sched ctx n) (executor_split fuel sched ctx fresh)) ∧
  (∀ keys ctx, agree (λ _ _, True) (snark_prove keys ctx n) (snark_prove keys ctx fresh)) ∧
  (∀ keys ctx, program_at (V2.nc_elf_path ctx) (V2.nc_program_id ctx) (nd_world n) →
     agree (λ _ _, True) (single_node_prove keys ctx n) (single_node_prove keys ctx fresh)).
Proof.
  intros Hn fresh. set (w := outside n).
  assert (∀ {A} (c : NodeCall A), agrees w (λ _ _, True) c c →
    agree (λ _ _, True) (c n) (c fresh)) as Hrun.
  { intros A c Hc. apply Hc; [done|done|done|apply node_start_consistent]. }
  split_and!.
  - intros ctx reads Helf Hrec. by apply Hrun, agrees_root_prove.
  - intros fuel sched ctx Helf. by apply Hrun, agrees_executor_split.
  - intros keys ctx. apply Hrun. by eapply agrees_weaken; [apply agrees_snark_prove|].
  - intros keys ctx Helf. by apply Hrun, agrees_single_node_prove.
Qed.

(** [C25] Every SNARK a node answers is the gnark proof of a wrap proof that verified: from a
    node with consistent caches, [SnarkProver::prove] answers only when the proof of the
    request decodes, shrinks and wraps, and the wrap proof, made under the default
    options, verifies under the wrap key; files and environment stay as they are. *)
Theorem snark_verified n keys ctx done out n' :
  consistent n → snark_prove keys ctx n = Ret (inr (done, out), n') →
  done = true ∧ outside n' = outside n ∧ consistent n' ∧
  ∃ p g,
    (if xc_from_input ctx then receipt_proof <$> de_receipt (xc_agg_receipt ctx) = Some p
     else reduced_of (xc_agg_receipt ctx) = Ret p) ∧
    snark_of keys p (opts_default (nd_env n)) g ∧ out = ser_zkm_proof (Groth16 g).
Proof.
  intros Hn Hs. pose proof (agrees_snark_prove (outside n) keys ctx n n eq_refl eq_refl Hn Hn) as H.
  unfold agree in H. rewrite Hs in H. destruct H as (_&_&Hc&_&Hq).
  destruct (Hq _ eq_refl) as (Ho&p&g&Hp&Hg&[= -> ->]). split_and!; [done..|]. by exists p, g.
Qed.

End caches.

(** ** From the split to the root prover *)

Section segments.
Context `{E : !External} `{L : !Lru} `{T : !TurnSync} `{Z0 : !Zkvm} `{Sp : !Splitter} `{R : !Recursion}.
Context `{SO : !StarkOpts} `{RP : !RecursionProver} `{P : !CoreProver}.
(** zstd and bincode give back what they took. *)
Context (de_segment_encode : ∀ s, de_segment (encode s) = Some s).
Context (capacity : nat) (seg_path : string) (es : list exe_state).
Context (segs : list Segment) (last : PublicValues digest addr_bits).

Lemma read_segment_Some path reads i left s :
  read_segment path reads i left = Some s ↔
  ∃ j, (i ≤ j ≤ i + left)%nat ∧ (data ← fs_read (reads j) path; de_segment data) = Some s ∧
    ∀ k, (i ≤ k < j)%nat → (data ← fs_read (reads k) path; de_segment data) = None.
Proof.
  revert i. induction left as [|left IH]; intros i; cbn [read_segment].
  - destruct (data ← fs_read (reads i) path; de_segment data) as [s'|] eqn:Hi; split.
    + intros [= ->]. exists i. split; [lia|]. split; [done|]. intros; lia.
    + intros (j&Hj&Hs&_). assert (j = i) as -> by lia. congruence.
    + done.
    + intros (j&Hj&Hs&_). assert (j = i) as -> by lia. congruence.
  - destruct (data ← fs_read (reads i) path; de_segment data) as [s'|] eqn:Hi; split.
    + intros [= ->]. exists i. split; [lia|]. split; [done|]. intros; lia.
    + intros (j&Hj&Hs&Hn). destruct (decide (j = i)) as [->|]; [congruence|].
      rewrite Hn in Hi by lia. done.
    + intros (j&Hj&Hs&Hn)%IH. exists j. split; [lia|]. split; [done|].
      intros k Hk. destruct (decide (k = i)) as [->|]; [done|]. apply Hn. lia.
    + intros (j&Hj&Hs&Hn). apply IH. exists j. destruct (decide (j = i)) as [->|]; [congruence|].
      split; [lia|]. split; [done|]. intros k Hk. apply Hn. lia.
Qed.

Lemma read_segment_None path reads i left j :
  read_segment path reads i left = None → (i ≤ j ≤ i + left)%nat →
  (data ← fs_read (reads j) path; de_segment data) = None.
Proof.
  revert i. induction left as [|left IH]; intros i; cbn [read_segment];
    destruct (data ← fs_read (reads i) path; de_segment data) as [s'|] eqn:Hi; try done;
    intros Hr Hj; (destruct (decide (j = i)) as [->|]; [done|]); [lia|].
  apply (IH (S i)); [done|lia].
Qed.

(** A prove task may be sent before its segment is written, as [segments.txt]
    announces the segments of a turn first: while the split goes on between the eleven
    attempts of the root prover, it reads the segment of the sequential execution with
    that number if the file is there at one of them, and never another, nor a part of
    one. *)
Lemma segment_read_right w (xs : nat → Exec) (reads : nat → Fs) n s :
  splittable es segs last →
  (∀ i, exec_reachable capacity seg_path w es (xs i)) →
  (∀ i, fs_read (reads i) (segment_path seg_path n) = dir_files seg_path (xs i) !! segment_path seg_path n) →
  segs !! n = Some s →
  ((∃ i, (i ≤ MAX_RETRIES)%nat ∧ is_Some (dir_files seg_path (xs i) !! segment_path seg_path n)) →
     read_segment (segment_path seg_path n) reads 0 MAX_RETRIES = Some s) ∧
  ((∀ i, (i ≤ MAX_RETRIES)%nat → dir_files seg_path (xs i) !! segment_path seg_path n = None) →
     read_segment (segment_path seg_path n) reads 0 MAX_RETRIES = None).
Proof.
  intros Hs Hx Hr Hn. set (path := segment_path seg_path n).
  assert (∀ i, (data ← fs_read (reads i) path; de_segment data) =
    match dir_files seg_path (xs i) !! path with Some _ => Some s | None => None end) as Hread.
  { intros i. unfold path. rewrite Hr, dir_files_segment.
    destruct (x_files (xs i) !! _) as [b|] eqn:Hb; [|done].
    apply (complete_segment capacity seg_path es segs last w) in Hb; [|done|done].
    rewrite Hn in Hb. injection Hb as <-. apply de_segment_encode. }
  split.
  - intros (i&Hi&Hb). destruct (read_segment path reads 0 MAX_RETRIES) as [s'|] eqn:Hrs.
    + apply read_segment_Some in Hrs as (j&_&Hj&_). rewrite Hread in Hj.
      by destruct (dir_files seg_path (xs j) !! path).
    + apply (read_segment_None _ _ _ _ i) in Hrs; [|lia]. rewrite Hread in Hrs.
      by destruct Hb as [b Hb]; rewrite Hb in Hrs.
  - intros Hnone. destruct (read_segment path reads 0 MAX_RETRIES) as [s'|] eqn:Hrs; [|done].
    apply read_segment_Some in Hrs as (j&Hj&Hs'&_). rewrite Hread, Hnone in Hs' by lia. done.
Qed.

(** ** From the aggregation to the SNARK *)

(** [serde_json] gives back what it took. *)
Context (de_ser_zkm_proof : ∀ p, de_zkm_proof (ser_zkm_proof p) = Some p).

(** What an aggregation answers is what the next prover takes: its output decodes
    to the proof that was compressed, for another aggregation and for the SNARK prover,
    which therefore does not panic and answers with the SNARK of that proof. *)
Theorem agg_output_accepted env keys ctx out sctx n :
  agg_prove env ctx = Ret (inr out) → xc_agg_receipt sctx = out → xc_from_input sctx = false →
  ∃ input p, circuit_witness ctx = Ret (inr input) ∧
    compress input (recursion_opts (opts_default env)) = Ret (inr p) ∧
    reduced_of out = Ret p ∧
    snark_prove keys sctx n =
      (g ← prove_groth16 keys p (opts_default (nd_env n));
       mret (true, ser_zkm_proof (Groth16 g))) n.
Proof.
  intros Ha Hrec Hfrom. unfold agg_prove in Ha.
  apply bind_Ret in Ha as ([e|input]&Hin&Ha); [done|].
  destruct (compress input _) as [[e|p]|] eqn:Hc; [done| |done]. cbn in Ha. injection Ha as <-.
  exists input, p. split; [done|]. split; [done|].
  assert (reduced_of (ser_zkm_proof (Compressed p)) = Ret p) as Hr
    by (unfold reduced_of; by rewrite de_ser_zkm_proof).
  split; [done|]. unfold snark_prove, snark_input. by rewrite Hfrom, Hrec, Hr.
Qed.

End segments.
