(* ===== verification/ExecutorThms.v ===== *)
(** * ExecutorThms: a split, from the program's text to the stage

    [Executor::split] of feature "prover_v2", as the stage that asked for it sees it: it
    returns under every schedule of its threads, and the stage reads back what it
    wrote. *)

From S2P Require Import Prelude Text Proto World Tasks Stage NodeService ProveOpts Machine.
From S2P Require Import Circuits Segments SegmentsInv SegmentsThms SplitSched SplitStage.
From S2P Require Import LocalProvers LocalThms.
From Stdlib Require Import Ascii.
#[global] Open Scope list_scope.
#[global] Open Scope Z_scope.

(** ** Files in a directory *)

Section directory.
Context (dir : string).

(** Nothing is directly under a directory that can be written. *)
Record empty_dir (fs : Fs) : Prop := {
  ed_dir : dir ∈ fs_dirs fs;
  ed_denied : fs_denied fs = ∅;
  ed_files p name : child_name dir p = Some name → fs_files fs !! p = None;
  ed_dirs d name : d ∈ fs_dirs fs → child_name dir d ≠ Some name
}.

Lemma child_name_tmp p name :
  child_name dir p = Some name → child_name dir (tmp_path p) = Some (name +:+ ".tmp").
Proof.
  intros Hc. pose proof Hc as Hn. unfold child_name in Hn.
  apply bind_Some in Hn as (s&_&Hn). apply child_name_Some in Hc as [-> Hc].
  unfold tmp_path. rewrite !str_app_assoc. apply child_name_app.
  - by rewrite contains_app, Hc.
  - by destruct name.
Qed.

(** Creating and writing a file there. *)
Lemma create_child fs files p name b :
  empty_dir fs → child_name dir p = Some name →
  fs_create (fs <| fs_files := files |>) p b = Some (fs <| fs_files := <[p := b]> files |>).
Proof.
  intros [Hd Hn _ Hds] Hc. unfold fs_create.
  rewrite decide_False; cycle 1.
  { cbn. rewrite Hn. intros [?|Hp]; [set_solver|by apply (Hds p name)]. }
  apply child_name_Some in Hc as [-> Hc]. rewrite parent_app by done.
  cbn. by rewrite bool_decide_true, orb_true_r.
Qed.

Lemma write_child fs files p name b :
  empty_dir fs → child_name dir p = Some name → files !! tmp_path p = None →
  write_file (fs <| fs_files := files |>) p b =
    Some (fs <| fs_files := <[p := b]> files |>).
Proof.
  intros Hfs Hc Htmp. pose proof (child_name_tmp _ _ Hc) as Hct.
  unfold write_file. rewrite (create_child _ _ _ (name +:+ ".tmp")) by done.
  destruct Hfs as [Hd Hn Hf Hds].
  cbn. unfold fs_rename. rewrite decide_False; cycle 1.
  { cbn. rewrite Hn. intros [?|[?|Hp]]; [set_solver..|by apply Hds in Hc]. }
  cbn. rewrite lookup_insert_eq. cbn. by rewrite delete_insert_id by done.
Qed.

(** [write_files] adds files to an empty directory, when none has the name under which
    another is written. *)
Lemma write_files_run `{E : !External} files (w : World) :
  empty_dir (w_fs w) →
  (∀ p b, files !! p = Some b →
     is_Some (child_name dir p) ∧ last_char p ≠ Some "p"%char) →
  write_files dir files w =
    Ret (tt, w <| w_fs := w_fs w <| fs_files := files ∪ fs_files (w_fs w) |> |>).
Proof.
  intros Hdir Hfiles. unfold write_files.
  assert (∀ l, (∀ f, f ∈ l → files !! f.1 = Some f.2) →
    foldr (λ f fs, fs ≫= write_one dir f) (Some (w_fs w)) l =
    Some (w_fs w <| fs_files := list_to_map l ∪ fs_files (w_fs w) |>)) as ->.
  { induction l as [|[p b] l IH]; intros Hl; cbn [foldr list_to_map].
    { cbn. rewrite (left_id_L ∅ (∪)). by destruct w as [[] ? ?]. }
    rewrite IH by set_solver. cbn [mbind option_bind].
    destruct (Hfiles p b) as [[name Hc] Hlast]; [by apply (Hl (p, b)); left|].
    cbn [list_to_map fst snd]. change (foldr _ _ l) with (list_to_map l : gmap string bytes).
    rewrite <-insert_union_l.
    assert ((list_to_map l ∪ fs_files (w_fs w)) !! tmp_path p = None) as Htmp.
    { apply lookup_union_None. split; [|by eapply ed_files, child_name_tmp].
      apply not_elem_of_list_to_map_1. intros ([q d]&Hq&Hin)%list_elem_of_fmap. cbn in Hq. subst q.
      destruct (Hfiles (tmp_path p) d) as [_ Ht]; [by apply (Hl (_, d)); right|].
      by rewrite last_char_tmp in Ht. }
    unfold write_one. cbn [fst snd].
    destruct (starts_with _ _); [by eapply create_child|by eapply write_child]. }
  - by rewrite list_to_map_to_list.
  - intros [p b] Hin. by apply elem_of_map_to_list in Hin.
Qed.

End directory.
Lemma split_files_child `{T : !TurnSync} `{Z0 : !Zkvm} `{Sp : !Splitter} seg_path es segs
    (pv : PublicValues digest addr_bits) p b :
  splittable es segs pv → split_files seg_path segs pv !! p = Some b →
  is_Some (child_name seg_path p) ∧ last_char p ≠ Some "p"%char.
Proof.
  intros Hs. unfold split_files. intros [[<- _]|[_ Hp]]%lookup_insert_Some.
  { split; [by eexists; apply child_name_app|]. unfold segments_txt.
    by rewrite (last_char_app _ "/segments.txt" "t"%char). }
  apply all_files_lookup in Hp; [|apply Hs].
  apply elem_of_app in Hp as [Hp|Hp];
    apply list_elem_of_fmap in Hp as ([n a]&[= -> ->]&Hn);
    apply elem_of_number_from in Hn as (i&->&Hi).
  - split; [eexists; apply child_name_segment|].
    unfold segment_path. rewrite <-str_app_assoc. intros Hl%last_char_digits.
    + by destruct (pretty_nat_first (0 + i)) as (c&t&Ht&_); rewrite Ht in Hl.
    + apply (digits_pretty (N.of_nat (0 + i))).
  - assert (Z.of_nat i < 2 ^ 16) as Hsm.
    { apply lookup_lt_Some in Hi. pose proof (sp_few _ _ _ Hs). unfold few_deferred in *. lia. }
    split; [eexists; by apply child_name_deferred|].
    unfold deferred_path. rewrite deferred_name_pretty by done.
    rewrite <-!str_app_assoc. intros Hl%last_char_digits; [|apply digits_pretty].
    destruct (pretty_N_first (Z.to_N (2 ^ 16 + Z.of_nat (0 + i)))) as (c&t&Ht&_).
    by rewrite Ht in Hl.
Qed.

(** ** One split of a node *)

Section split.
Context `{E : !External} `{L : !Lru} `{T : !TurnSync} `{Z0 : !Zkvm} `{R : !Recursion}.
Context `{SO : !StarkOpts} `{RP : !RecursionProver} `{P : !CoreProver}.
Context (elf_of : string → bytes).

Lemma Call_bind_run {A B} (c : NodeCall A) (k : A → NodeCall B) n a n' :
  c n = Ret (inr a, n') → (c ≫= k) n = k a n'.
Proof. unfold mbind, Call_bind. by intros ->. Qed.

(** Where a split writes: a proof's directory, with room for the key and the public values,
    and an empty directory for the segments, as the service lays them out. *)
Record split_place (ctx : V2.SplitContext) (fs : Fs) : Prop := {
  sl_seg : V2.sc_seg_path ctx = V2.sc_base_dir ctx +:+ "/segment";
  sl_local name : is_s3_path (V2.sc_base_dir ctx +:+ "/" +:+ name) = false;
  sl_empty : empty_dir (V2.sc_seg_path ctx) fs;
  sl_vk : V2.sc_base_dir ctx ∈ fs_dirs fs ∧ V2.sc_base_dir ctx +:+ "/vk.bin" ∉ fs_dirs fs;
  sl_wrap : V2.sc_base_dir ctx +:+ "/wrap" ∈ fs_dirs fs ∧
    V2.sc_base_dir ctx +:+ "/wrap/public_values.bin" ∉ fs_dirs fs
}.

Lemma split_with_context_run ctx n p vk stdin opts shapes fuel sched es public_values segs last :
  empty_dir (V2.sc_seg_path ctx) (w_fs (nd_world n)) →
  maximal_shapes (shard_size opts) = Ret shapes →
  generate_checkpoints fuel (split_runtime p stdin opts shapes) = Some (es, public_values) →
  splittable (Sp := splitter p vk stdin.2 (core_opts opts)) es segs last →
  (0 < trace_gen_workers (core_opts opts))%nat →
  (0 < checkpoints_channel_capacity (core_opts opts))%nat →
  (split_steps (Sp := splitter p vk stdin.2 (core_opts opts)) (V2.sc_seg_path ctx) es segs last
     (trace_gen_workers (core_opts opts)) < length sched)%nat →
  split_with_context fuel sched ctx p vk stdin opts n =
    Ret (inr (total_cycles (core_opts opts) p es,
              u32_wrap (len segs), public_values),
         n <| nd_world := nd_world n <| w_fs := w_fs (nd_world n) <| fs_files :=
           split_files (Sp := splitter p vk stdin.2 (core_opts opts)) (V2.sc_seg_path ctx) segs last
           ∪ fs_files (w_fs (nd_world n)) |> |> |>).
Proof.
  intros Hdir Hshapes Hgen Hs Hw Hcap Hlen. unfold split_with_context.
  set (run := splitter p vk stdin.2 (core_opts opts)) in *.
  erewrite Call_bind_run by (unfold panics, proved; rewrite Hshapes; reflexivity).
  rewrite Hgen. cbn [unwrap].
  rewrite (Call_bind_run _ _ _ (es, public_values) n) by reflexivity.
  destruct (run_threads_joined (Sp := run) _ (V2.sc_seg_path ctx) es segs last _ sched
    Hs Hw Hcap Hlen) as [Hr Hj].
  destruct (joined_files _ _ _ _ _ _ _ Hs Hw Hr Hj) as [Hfiles Hidx].
  set (x := run_threads _ _ _ _) in *.
  erewrite Call_bind_run; cycle 1.
  { unfold panics, proved. rewrite bool_decide_true by done. reflexivity. }
  erewrite Call_bind_run; cycle 1.
  { unfold world. rewrite Hfiles, write_files_run; [reflexivity|done|].
    intros q b. by eapply split_files_child. }
  cbn. unfold total_segments. by rewrite Hidx.
Qed.

(** Writing a file into a directory. *)
Lemma write_all_run n d name b :
  let path := d +:+ "/" +:+ name in
  is_s3_path path = false → contains "/" name = false → fs_denied (w_fs (nd_world n)) = ∅ →
  d ∈ fs_dirs (w_fs (nd_world n)) → path ∉ fs_dirs (w_fs (nd_world n)) →
  ∃ files, write_all path b n = Ret (inr tt,
      n <| nd_world := nd_world n <| w_fs := w_fs (nd_world n) <| fs_files := files |> |> |>) ∧
    (b ≠ [] → files !! path = Some b) ∧
    ∀ q, q ≠ path → files !! q = fs_files (w_fs (nd_world n)) !! q.
Proof.
  intros path Hs3 Hname Hden Hd Hp. destruct b as [|c b].
  { exists (fs_files (w_fs (nd_world n))). split; [|done].
    by destruct n as [[[] ? ?] ? ? ? ? ?]. }
  exists (<[path := c :: b]> (fs_files (w_fs (nd_world n)))). split; [|split].
  - unfold write_all. erewrite Call_bind_run; cycle 1.
    { unfold world. rewrite file_write_eq, Hs3. unfold create_m, mbind, M_bind. cbn.
      unfold fs_create. rewrite decide_False by (rewrite Hden; set_solver).
      unfold path. rewrite parent_app, bool_decide_true, orb_true_r by done. reflexivity. }
    reflexivity.
  - intros _. apply lookup_insert_eq.
  - intros q Hq. by apply lookup_insert_ne.
Qed.

Lemma child_name_sibling d name rest :
  strip_prefix "/segment/" rest = None → child_name (d +:+ "/segment") (d +:+ rest) = name →
  name = None.
Proof.
  intros Hr <-. unfold child_name. rewrite str_app_assoc.
  assert (∀ a b c, strip_prefix (a +:+ b) (a +:+ c) = strip_prefix b c) as ->.
  { intros a b c. induction a as [|x a IH]; [done|].
    change (strip_prefix (String x (a +:+ b)) (String x (a +:+ c)) = strip_prefix b c).
    cbn [strip_prefix]. by rewrite Ascii.eqb_refl. }
  change (("/segment" : string) +:+ "/") with ("/segment/" : string). by rewrite Hr.
Qed.

Abbreviation vk_path ctx := (V2.sc_base_dir ctx +:+ "/vk.bin").
Abbreviation pv_path ctx := (V2.sc_base_dir ctx +:+ "/wrap/public_values.bin").

(** Neither file is directly under the directory of the segments. *)
Lemma beside_segments ctx fs name q :
  split_place ctx fs → child_name (V2.sc_seg_path ctx) q = Some name →
  q ≠ vk_path ctx ∧ q ≠ pv_path ctx.
Proof.
  intros [-> _ _ _ _] Hq.
  split; intros ->; by apply child_name_sibling in Hq.
Qed.

Lemma split_place_left ctx fs (split files : gmap string bytes) (W : World) :
  split_place ctx fs → w_fs W = fs <| fs_files := files |> →
  (∀ q, q ≠ vk_path ctx → q ≠ pv_path ctx → files !! q = (split ∪ fs_files fs) !! q) →
  split_dir (V2.sc_seg_path ctx) split W.
Proof.
  intros Hp HW Hf. pose proof Hp as [_ _ [Hdir Hden Hempty Hdirs] _ _]. split.
  - intros q name Hq. rewrite HW. cbn. destruct (beside_segments _ _ _ _ Hp Hq).
    rewrite Hf by done. rewrite lookup_union, (Hempty q name) by done.
    by rewrite (right_id_L None (∪)).
  - intros d name. rewrite HW. apply Hdirs.
  - by rewrite HW.
  - by rewrite HW.
Qed.

(** A split that can succeed: the node can read the program and its input, the program
    runs to its end, and there are threads and decisions enough. *)
Record split_task (n : Node) (ctx : V2.SplitContext) (fuel : nat) (sched : list nat)
    (stdin : list bytes * list receipt) (p : program) (opts : ZKMProverOpts)
    (es : list exe_state) (public_values : bytes) (segs : list Segment)
    (last : PublicValues digest addr_bits) : Prop := {
  st_opts : opts = (network_prove_new (V2.sc_seg_size ctx) (nd_env n)).1;
  st_stdin m : nd_world m = nd_world n →
    read_stdin (V2.sc_private_input_path ctx) (V2.sc_receipt_inputs_path ctx) m =
      Ret (inr stdin, m);
  st_elf : program_at elf_of (V2.sc_elf_path ctx) (V2.sc_program_id ctx) (nd_world n);
  st_program : get_program (elf_of (V2.sc_program_id ctx)) = Some p;
  st_place : split_place ctx (w_fs (nd_world n));
  st_runs : ∃ shapes, maximal_shapes (shard_size opts) = Ret shapes ∧
    generate_checkpoints fuel (split_runtime p stdin opts shapes) = Some (es, public_values);
  st_split : splittable (Sp := splitter p (m_setup core_prover p).2 stdin.2 (core_opts opts))
    es segs last;
  st_few : len segs < 2 ^ 32;
  st_workers : (0 < trace_gen_workers (core_opts opts))%nat;
  st_capacity : (0 < checkpoints_channel_capacity (core_opts opts))%nat;
  st_sched : (split_steps (Sp := splitter p (m_setup core_prover p).2 stdin.2 (core_opts opts))
    (V2.sc_seg_path ctx) es segs last (trace_gen_workers (core_opts opts)) < length sched)%nat
}.

(** The calls before the threads start: the program and the keys come from the caches or
    are made, and the key is written. *)
Lemma executor_split_start n ctx fuel sched stdin p opts es public_values segs last :
  consistent elf_of n → split_task n ctx fuel sched stdin p opts es public_values segs last →
  let vk := (m_setup core_prover p).2 in
  ∃ n' files, executor_split fuel sched ctx n =
      ('(total_steps, total_segments, public_values) ←
         split_with_context fuel sched ctx p vk stdin opts;
       write_all (pv_path ctx) public_values;;
       mret (total_steps, total_segments)) n' ∧
    consistent elf_of n' ∧
    nd_world n' = nd_world n <| w_fs := w_fs (nd_world n) <| fs_files := files |> |> ∧
    (ser_core_vk vk ≠ [] → files !! vk_path ctx = Some (ser_core_vk vk)) ∧
    ∀ q, q ≠ vk_path ctx → files !! q = fs_files (w_fs (nd_world n)) !! q.
Proof.
  intros Hn Ht vk. pose proof Ht as [Hopts Hstdin Helf Hp Hplace _ _ _ _ _ _].
  set (n1 := n <| nd_env := (network_prove_new (V2.sc_seg_size ctx) (nd_env n)).2 |>).
  assert (network_prove (V2.sc_seg_size ctx) n = Ret (inr opts, n1)) as Hnew
    by (unfold network_prove, n1; rewrite Hopts; by destruct (network_prove_new _ _)).
  destruct (load_program_run elf_of (V2.sc_program_id ctx) (read_file (V2.sc_elf_path ctx)) n1)
    as (n2&Hload&[= Hw2 He2]&Hn2).
  { by destruct Hn. }
  { intros m [= Hm _]. apply read_file_run. by rewrite Hm. }
  rewrite Hp in Hload.
  destruct (load_keys_run elf_of (V2.sc_program_id ctx) p n2 Hn2 Hp) as (n3&Hkeys&[= Hw3 He3]&Hn3).
  assert (nd_world n3 = nd_world n) as Hw3n by (rewrite Hw3, Hw2; done).
  destruct Hplace as [_ Hs3 [_ Hden _ _] [Hb Hvk] _].
  destruct (write_all_run n3 (V2.sc_base_dir ctx) "vk.bin" (ser_core_vk vk)) as (f1&Hwr&Hvk1&Hf1);
    [apply Hs3|done|by rewrite Hw3n..|].
  eexists _, f1. split.
  - unfold executor_split. rewrite (Call_bind_run _ _ _ _ _ Hnew).
    rewrite (Call_bind_run _ _ _ _ _ (Hstdin n1 eq_refl)), (Call_bind_run _ _ _ _ _ Hload).
    rewrite (Call_bind_run _ _ _ _ _ Hkeys), (Call_bind_run _ _ _ _ _ Hwr). reflexivity.
  - split_and!; [by destruct Hn3|cbn; by rewrite Hw3n|done|]. intros q Hq. by rewrite Hf1, Hw3n.
Qed.

Lemma executor_split_files n ctx fuel sched stdin p opts es public_values segs last :
  consistent elf_of n → split_task n ctx fuel sched stdin p opts es public_values segs last →
  let vk := (m_setup core_prover p).2 in
  let split := split_files (Sp := splitter p vk stdin.2 (core_opts opts))
                 (V2.sc_seg_path ctx) segs last in
  ∃ n' files, executor_split fuel sched ctx n =
      Ret (inr (total_cycles (core_opts opts) p es, len segs), n') ∧
    consistent elf_of n' ∧
    w_fs (nd_world n') = w_fs (nd_world n) <| fs_files := files |> ∧
    (∀ q, q ≠ vk_path ctx → q ≠ pv_path ctx →
       files !! q = (split ∪ fs_files (w_fs (nd_world n))) !! q) ∧
    (ser_core_vk vk ≠ [] → files !! vk_path ctx = Some (ser_core_vk vk)) ∧
    (public_values ≠ [] → files !! pv_path ctx = Some public_values).
Proof.
  intros Hn Ht vk split.
  destruct (executor_split_start _ _ _ _ _ _ _ _ _ _ _ Hn Ht) as (n1&f1&->&Hn1&Hw1&Hvk1&Hf1).
  destruct Ht as [_ _ _ _ Hplace (shapes&Hshapes&Hgen) Hs Hfew Hw Hcap Hlen].
  pose proof Hplace as [_ Hs3 [Hseg Hden Hempty Hdirs] _ [Hwrap Hpv]].
  assert (empty_dir (V2.sc_seg_path ctx) (w_fs (nd_world n1))) as Hdir1.
  { rewrite Hw1. split; cbn; [done..| |done]. intros q name Hq.
    destruct (beside_segments _ _ _ _ Hplace Hq). rewrite Hf1 by done. by eapply Hempty. }
  rewrite (Call_bind_run _ _ _ _ _ (split_with_context_run ctx n1 p vk stdin opts shapes fuel sched
    es public_values segs last Hdir1 Hshapes Hgen Hs Hw Hcap Hlen)).
  fold split. set (n2 := n1 <| nd_world := _ |>).
  assert (pv_path ctx = (V2.sc_base_dir ctx +:+ "/wrap") +:+ "/" +:+ "public_values.bin") as Hpath
    by by rewrite str_app_assoc.
  destruct (write_all_run n2 (V2.sc_base_dir ctx +:+ "/wrap") "public_values.bin" public_values)
    as (f2&Hwr2&Hpv2&Hf2); rewrite <-?Hpath; [apply Hs3|done|cbn; by rewrite Hw1..|].
  rewrite <-Hpath in Hwr2, Hpv2, Hf2.
  rewrite (Call_bind_run _ _ _ _ _ Hwr2), u32_wrap_small by lia.
  eexists _, f2. split; [reflexivity|]. split_and!; [by destruct Hn1|cbn; by rewrite Hw1| | |done].
  - intros q Hq1 Hq2. rewrite Hf2 by done. cbn. rewrite !lookup_union, Hw1. cbn. by rewrite Hf1.
  - intros Hne. rewrite Hf2; [|intros H; by apply (inj (String.app _)) in H].
    cbn. rewrite Hw1. cbn. rewrite lookup_union_r; [by apply Hvk1|].
    apply eq_None_not_Some. intros [b Hb]. eapply split_files_child in Hb as [[name Hc] _]; [|done].
    by apply (beside_segments _ _ _ _ Hplace) in Hc as [? _].
Qed.

(** Executor and stage composed: from a node with consistent caches, a split of a
    program that runs to its end answers under every schedule of its threads, with the
    instructions counted and the number of segments of the sequential execution; and from
    the directory it leaves the stage reads that number, every segment under its number,
    and the deferred proofs' inputs in their order, while the key and the public values
    are where the aggregation and the client look for them. *)
Lemma executor_split_reads_back n ctx fuel sched stdin p opts es public_values segs last :
  consistent elf_of n → split_task n ctx fuel sched stdin p opts es public_values segs last →
  ∃ n', executor_split fuel sched ctx n =
      Ret (inr (total_cycles (core_opts opts) p es, len segs), n') ∧
    consistent elf_of n' ∧
    (∀ W g, w_fs W = w_fs (nd_world n') → gt_seg_path g = V2.sc_seg_path ctx →
       reads_back (Sp := splitter p (m_setup core_prover p).2 stdin.2 (core_opts opts))
         segs last W g) ∧
    (let vk := ser_core_vk (m_setup core_prover p).2 in
     vk ≠ [] → fs_read (w_fs (nd_world n')) (V2.sc_base_dir ctx +:+ "/vk.bin") = Some vk) ∧
    (public_values ≠ [] →
     fs_read (w_fs (nd_world n')) (V2.sc_base_dir ctx +:+ "/wrap/public_values.bin") =
       Some public_values).
Proof.
  intros Hn Ht.
  destruct (executor_split_files _ _ _ _ _ _ _ _ _ _ _ Hn Ht) as (n'&files&Hrun&Hn'&Hw&Hf&Hvk&Hpv).
  destruct Ht as [_ _ _ _ Hplace _ Hs Hfew _ _ _].
  exists n'. split_and!; [done|done| | |].
  - intros W g HW Hg. eapply split_dir_reads_back; [done| |done| |done].
    { eapply split_place_left; [done|by rewrite HW|done]. }
    rewrite (sl_seg _ _ Hplace). apply Hplace.
  - intros vk Hne. unfold fs_read. rewrite Hw. cbn. rewrite (ed_denied _ _ (sl_empty _ _ Hplace)).
    rewrite decide_False by set_solver. by apply Hvk.
  - intros Hne. unfold fs_read. rewrite Hw. cbn. rewrite (ed_denied _ _ (sl_empty _ _ Hplace)).
    rewrite decide_False by set_solver. by apply Hpv.
Qed.

End split.
