(* ===== verification/PipelineV2.v ===== *)
(** * PipelineV2: the pipeline of feature "prover_v2" ([prover_v2/src/pipeline.rs])

    The five provers of a node, as its handlers call them; and a split followed from the
    task of the stage to the node, its threads and its files, and back. *)

From S2P Require Import Prelude Text Proto World Tasks Stage NodeService ProveOpts Machine.
From S2P Require Import Circuits SegmentRun Segments SegmentsInv SegmentsThms SplitStage SplitTasks.
From S2P Require Import LocalProvers LocalThms ExecutorThms.
From S2P Require ProverPool ProverClient.

(** ** The pipeline *)

Record Executor := mkExecutor {}.
Record RootProver := mkRootProver {}.
Record AggProver := mkAggProver {}.
Record SnarkProver := mkSnarkProver { sk_proving_key_paths : string }.
Record SingleNodeProver := mkSingleNodeProver { sn_proving_key_paths : string }.
Record Pipeline := mkPipeline {
  pl_executor : Executor;
  pl_root_prover : RootProver;
  pl_agg_prover : AggProver;
  pl_snark_prover : SnarkProver;
  pl_single_node_prover : SingleNodeProver
}.
Definition Pipeline_new (_base_dir keys_input_dir : string) : Pipeline :=
  mkPipeline mkExecutor mkRootProver mkAggProver (mkSnarkProver keys_input_dir)
    (mkSingleNodeProver keys_input_dir).

Section pipeline.
Context `{E : !External} `{L : !Lru} `{T : !TurnSync} `{Z0 : !Zkvm} `{R : !Recursion}.
Context `{SO : !StarkOpts} `{RP : !RecursionProver} `{P : !CoreProver}.

(** What a call answers, from a node. *)
Definition call_answer {A} (c : NodeCall A) (n : Node) : Proved A := fst <$> c n.

(** The provers of a pipeline on a node: what decides about a split is the number of
    checkpoints it may run for and the scheduler, about a segment the files at each of
    the attempts to read it. *)
Definition pipeline_provers (self : Pipeline) (n : Node) (fuel : nat) (sched : list nat)
    (reads : nat → Fs) : Provers2 := {|
  split2 ctx := call_answer (executor_split fuel sched ctx) n;
  root2 ctx := call_answer (root_prove ctx reads) n;
  agg2 ctx := agg_prove (nd_env n) ctx;
  snark2 ctx := call_answer (snark_prove (sk_proving_key_paths (pl_snark_prover self)) ctx) n;
  single2 ctx :=
    call_answer (single_node_prove (sn_proving_key_paths (pl_single_node_prover self)) ctx) n
|}.

(** ** A split task, there and back *)

Context (elf_of : string → bytes).

(** [C11] Client, node, threads and stage composed: a split task sent to a node that can run
    its program comes back successful, whatever the schedule of the node's threads, with
    the instructions counted and the number of segments of the sequential execution; and
    a stage that goes on with it, on the disk it shares with the node, makes one prove
    task for every segment, whose file holds that segment, and one finished task for every
    deferred proof, with its input.  The key and the public values are where the
    aggregation and the client look for them. *)
Theorem split_task_served self n t addr payload fuel sched reads stdin p opts es public_values
    segs last :
  let q := ProverClient.split_request t in
  let run := splitter p (m_setup core_prover p).2 stdin.2 (core_opts opts) in
  consistent elf_of n →
  split_task elf_of n (V2.split_context q) fuel sched stdin p opts es public_values segs last →
  0 < total_cycles (core_opts opts) p es →
  let t' := ProverClient.split t (ProverPool.Replied addr
    (split_elf2 (P := pipeline_provers self n fuel sched reads) payload q)) in
  st_state t' = TASK_STATE_SUCCESS ∧
  st_total_steps t' = total_cycles (core_opts opts) p es ∧ st_total_segments t' = len segs ∧
  ∃ n', executor_split fuel sched (V2.split_context q) n =
      Ret (inr (st_total_steps t', st_total_segments t'), n') ∧ consistent elf_of n' ∧
    (∀ s W prog, let g := stage_generate_task s in
       stage_split_task s = t' → gt_seg_path g = st_seg_path t →
       w_fs W = w_fs (nd_world n') → gen_program g W = Ret (prog, W) →
       numbered_list g (stage_prove_tasks s) →
       ∃ s' m, gen_prove_task_post feature_prover_v2 s W = Ret (s', bump m W) ∧
         tasks_of_split (Sp := run) segs last W (stage_prove_tasks s')) ∧
    (let vk := ser_core_vk (m_setup core_prover p).2 in
     vk ≠ [] → fs_read (w_fs (nd_world n')) (st_base_dir t +:+ "/vk.bin") = Some vk) ∧
    (public_values ≠ [] →
     fs_read (w_fs (nd_world n')) (st_base_dir t +:+ "/wrap/public_values.bin") =
       Some public_values).
Proof.
  intros q run Hn Ht Hpos.
  destruct (executor_split_reads_back elf_of n _ _ _ _ _ _ _ _ _ _ Hn Ht) as (n'&Hrun&Hn'&Hback&Hvk&Hpv).
  assert (split_elf2 (P := pipeline_provers self n fuel sched reads) payload q =
    {| ProverClient.sr_result := Some (Proto.mkRpcResult (ResultCode_i32 Ok) "SUCCESS");
       ProverClient.sr_total_steps := total_cycles (core_opts opts) p es;
       ProverClient.sr_total_segments := len segs |}) as ->.
  { unfold split_elf2, p2_split, split2, pipeline_provers, call_answer. rewrite Hrun. cbn.
    unfold split_response. cbn. by rewrite (proj2 (Z.ltb_lt _ _)) by done. }
  cbn. split_and!; [done..|]. exists n'. split; [done|]. split; [done|]. split; [|by split].
  intros s W prog Hs Hg HW Hprog Hnum. eapply gen_prove_task_post_split; [|done..|].
  - by apply Hback.
  - by rewrite Hs.
Qed.

End pipeline.

(** ** A prove task, there and back *)

Section prove.
Context `{E : !External} `{L : !Lru} `{T : !TurnSync} `{Z0 : !Zkvm} `{Sp : !Splitter}.
Context `{R : !Recursion} `{SO : !StarkOpts} `{RP : !RecursionProver} `{P : !CoreProver}.
Context (elf_of : string → bytes).
Context (trace_own : ∀ opts p e r v,
  r ∈ trace_program opts p e → record_program (with_pv v (deferred_away r)) = p).
Context (de_segment_encode : ∀ s, de_segment (encode s) = Some s).

(** The record a segment stands for, with the text of its program. *)
Definition segment_record_of (elf : bytes) (opts : ZKMProverOpts) (s : Segment) : Proved record :=
  match s with
  | SState state public_values =>
      match get_program elf with
      | Some p =>
          match head (trace_program (core_opts opts) p state) with
          | Some r => Ret (inr (with_pv public_values (deferred_away r)))
          | None => Panic
          end
      | None => Ret (inl "get_program")
      end
  | SRecord r => Ret (inr r)
  end.

(** The proof of a record, by the keys of its own program. *)
Definition record_proof (opts : ZKMProverOpts) (r : record) : string + bytes :=
  let pk := (m_setup core_prover (record_program r)).1 in
  let r := m_generate_dependencies core_prover (core_opts opts) r in
  match (match core_shape_config with Some fix_shape => fix_shape r | None => inr r end) with
  | inl e => inl e
  | inr r =>
      match open_record core_prover pk r with
      | inl e => inl e
      | inr proof => inr (ser_shard_proof proof)
      end
  end.

(** What a segment's proof is, without files, caches and attempts. *)
Definition segment_proof (elf : bytes) (opts : ZKMProverOpts) (s : Segment) : Proved bytes :=
  match segment_record_of elf opts s with
  | Ret (inr r) => Ret (record_proof opts r)
  | Ret (inl e) => Ret (inl e)
  | Panic => Panic
  end.

(** The end of [root_prove], with the record at hand. *)
Lemma record_proof_run id opts r n :
  consistent elf_of n → get_program (elf_of id) = Some (record_program r) →
  call_answer (keys ← load_keys id (record_program r);
               r ← fix_shape (m_generate_dependencies core_prover (core_opts opts) r);
               proof ← proved (Ret (open_record core_prover keys.1 r));
               mret (ser_shard_proof proof)) n = Ret (record_proof opts r).
Proof.
  intros Hn Hp. destruct (load_keys_run elf_of id (record_program r) n Hn Hp) as (n1&Hk&_).
  unfold call_answer. rewrite (Call_bind_run _ _ _ _ _ Hk). unfold record_proof, fix_shape.
  destruct core_shape_config as [f|].
  - unfold mbind at 1, Call_bind at 1, proved at 1. destruct (f _) as [e|r']; [done|].
    unfold mbind, Call_bind, proved. by destruct (open_record _ _ _).
  - unfold mbind, Call_bind, proved, mret, Call_ret. by destruct (open_record _ _ _).
Qed.

Lemma root_prove_segment ctx reads s n :
  consistent elf_of n → program_at elf_of (V2.pc_elf_path ctx) (V2.pc_program_id ctx) (nd_world n) →
  read_segment (V2.pc_segment ctx) reads 0 MAX_RETRIES = Some s →
  (∀ r, s = SRecord r → get_program (elf_of (V2.pc_program_id ctx)) = Some (record_program r)) →
  call_answer (root_prove ctx reads) n =
    segment_proof (elf_of (V2.pc_program_id ctx))
      (network_prove_new (V2.pc_seg_size ctx) (nd_env n)).1 s.
Proof.
  intros Hn Helf Hread Hown. set (opts := (network_prove_new _ _).1).
  set (n1 := n <| nd_env := (network_prove_new (V2.pc_seg_size ctx) (nd_env n)).2 |>).
  assert (network_prove (V2.pc_seg_size ctx) n = Ret (inr opts, n1)) as Hnew
    by (unfold network_prove, n1, opts; by destruct (network_prove_new _ _)).
  assert (consistent elf_of n1) as Hn1 by by destruct Hn.
  unfold call_answer, root_prove. rewrite Hread.
  rewrite (Call_bind_run _ _ n s n) by done. rewrite (Call_bind_run _ _ _ _ _ Hnew).
  unfold segment_proof. destruct s as [e pv|r]; cbn [segment_record_of].
  - destruct (load_program_run elf_of (V2.pc_program_id ctx) (read_file (V2.pc_elf_path ctx)) n1 Hn1)
      as (n2&Hload&_&Hn2).
    { intros m [= Hm _]. apply read_file_run. by rewrite Hm. }
    unfold mbind at 1, Call_bind at 1.
    destruct (get_program _) as [p|] eqn:Hp; cycle 1.
    { assert (segment_record (core_opts opts) ctx (SState e pv) n1 = Ret (inl "get_program", n2)) as ->
        by (unfold segment_record, mbind at 1, Call_bind at 1; by rewrite Hload). done. }
    unfold segment_record. rewrite (Call_bind_run _ _ _ _ _ Hload).
    destruct (head _) as [r|] eqn:Hr; [|done].
    rewrite (Call_bind_run _ _ n2 r n2) by done. cbn [mret Call_ret].
    assert (record_program (with_pv pv (deferred_away r)) = p) as Hrp.
    { apply (trace_own (core_opts opts) p e). by apply head_Some_elem_of in Hr. }
    apply (record_proof_run (V2.pc_program_id ctx)); [done|]. by rewrite Hrp.
  - rewrite (Call_bind_run _ _ n1 r n1) by done.
    apply (record_proof_run (V2.pc_program_id ctx)); [done|]. by apply Hown.
Qed.

(** [C29] Threads, node and client composed: a prove task may be sent before its segment is
    written, as [segments.txt] announces the segments of a turn first.  While the split
    goes on between the eleven attempts of the root prover, the task comes back with the
    proof of the segment of the sequential execution with its number, by the keys of its
    program, if the file is there at one of them; it fails if that proof cannot be made
    or the file is never there.  It is never proved from another segment or a part of
    one. *)
Theorem prove_task_served capacity seg_path es segs last w (xs : nat → Exec) self n t addr payload
    fuel sched reads k s :
  let id := pt_program_id t in
  splittable es segs last → (∀ i, exec_reachable capacity seg_path w es (xs i)) →
  pt_segment t = segment_path seg_path k → segs !! k = Some s →
  (∀ i, fs_read (reads i) (pt_segment t) = dir_files seg_path (xs i) !! pt_segment t) →
  consistent elf_of n → program_at elf_of (pg_elf_path (pt_program t)) id (nd_world n) →
  (∀ r, s = SRecord r → get_program (elf_of id) = Some (record_program r)) →
  let t' := ProverClient.prove t (ProverPool.Replied addr
    (handle_prove2 (P := pipeline_provers self n fuel sched reads) payload
       (ProverClient.prove_request t))) in
  let opts := (network_prove_new (pg_seg_size (pt_program t)) (nd_env n)).1 in
  ((∃ i, (i ≤ MAX_RETRIES)%nat ∧ is_Some (dir_files seg_path (xs i) !! pt_segment t)) →
   match segment_proof (elf_of id) opts s with
   | Ret (inr proof) => pt_state t' = TASK_STATE_SUCCESS ∧ pt_output t' = proof
   | _ => pt_state t' = TASK_STATE_FAILED
   end) ∧
  ((∀ i, (i ≤ MAX_RETRIES)%nat → dir_files seg_path (xs i) !! pt_segment t = None) →
   pt_state t' = TASK_STATE_FAILED).
Proof.
  intros id Hs Hx Hseg Hk Hreads Hn Helf Hown t' opts.
  set (ctx := V2.prove_context (ProverClient.prove_request t)).
  rewrite Hseg in *.
  destruct (segment_read_right de_segment_encode capacity seg_path es segs last w xs reads k s
    Hs Hx Hreads Hk) as [Hthere Hnever].
  assert (t' = ProverClient.prove t (ProverPool.Replied addr (prove_response (run_back_task payload
    (map_ok (pair true) (call_answer (root_prove ctx reads) n)))))) as -> by done.
  split.
  - intros H. rewrite (root_prove_segment ctx reads s n) by (done || (change (V2.pc_segment ctx) with (pt_segment t); by rewrite Hseg, Hthere)).
    change (V2.pc_program_id ctx) with id. fold opts.
    change (network_prove_new (V2.pc_seg_size ctx) (nd_env n)).1 with opts.
    by destruct (segment_proof _ _ _) as [[e|proof]|].
  - intros H. unfold call_answer, root_prove.
    assert (read_segment (V2.pc_segment ctx) reads 0 MAX_RETRIES = None) as ->
      by (change (V2.pc_segment ctx) with (pt_segment t); by rewrite Hseg, Hnever).
    done.
Qed.

End prove.
