(* ===== verification/LocalSample.v ===== *)
(** * LocalSample: a node with a cache of two places

    The examples of LocalThms: a root prover whose program is in the cache or not, a
    segment that appears between two attempts, an aggregation's output. *)

From S2P Require Import Prelude Text Proto World Tasks Stage NodeService ProveOpts Machine Circuits.
From S2P Require Import Segments SegmentsInv SegmentsThms SplitStage SplitTasks LocalProvers LocalThms.
From S2P Require Import ExecutorThms PipelineV2 Codec SplitSample.
From S2P Require ProverPool ProverClient SegmentRun.

(** The most recent entries first. *)
#[export] Instance list_lru : Lru.
Proof.
  refine {| LruCache V := (nat * list (string * V))%type;
    lru_new _ n := (n, []);
    lru_get V k c := match (list_to_map c.2 : gmap string V) !! k with
                     | Some v => (Some v, c) | None => (None, c) end;
    lru_push V k v c := (c.1, (k, v) :: take (pred c.1) (filter (λ e, e.1 ≠ k) c.2));
    lru_peek V k c := (list_to_map c.2 : gmap string V) !! k |}.
  - done.
  - intros V k c. by destruct (_ !! k).
  - intros V k j c. by destruct (_ !! k).
  - intros V k v c. cbn. apply lookup_insert_eq.
  - intros V k v j u c Hj. cbn. rewrite lookup_insert_ne by done.
    intros Hu. revert Hu. generalize (pred c.1) as n. induction (c.2) as [|[i w] l IH];
      intros n Hu; [by rewrite filter_nil, take_nil in Hu|].
    cbn. destruct (decide (i = j)) as [->|Hi].
    + rewrite filter_cons_True in Hu by done. destruct n; [done|]. cbn in Hu.
      rewrite lookup_insert_eq in Hu |- *. done.
    + rewrite lookup_insert_ne by done. rewrite filter_cons in Hu. case_decide; [|by eapply IH].
      destruct n; [done|]. cbn in Hu. rewrite lookup_insert_ne in Hu by done. by eapply IH.
Defined.

(** Options are a segment size; a proof is the program's text and the record's. *)
Definition default_size (env : Env) : Z :=
  default 64 (s ← env !! "SHARD_SIZE"; parse_usize s).
#[local] Instance size_opts : ProverOpts := {|
  ZKMProverOpts := Z; opts_default := default_size; set_keccak _ o := o;
  shard_size o := o; DEFAULT_SHARD_SIZE := 64;
  shard_size_keccak _ _ := eq_refl; shard_size_default _ := eq_refl
|}.
#[local] Instance size_stark : StarkOpts :=
  {| CoreOpts := Z; core_opts o := o; recursion_opts o := o |}.

Definition text_machine (record vk : Type) (text : record → bytes) (key : bytes → vk) :
    Machine bytes record vk bytes Z :=
  mkMachine bytes record vk bytes Z bytes () bytes bytes
    (λ p, (p, key p)) (λ _ r, r) (λ _, tt) [] (λ pk _, pk) (λ r _, text r)
    (λ pk data _, inr (pk ++ data)) (λ pk rs _ _, inr (pk :: (text <$> rs)))
    (λ _ proofs _, (length proofs =? 2)%nat).

#[local] Instance byte_recursion : Recursion := {|
  shard_proof := bytes; core_vk := bytes; deferred_witness := bytes;
  inner_vk := (); inner_proof := bytes; groth16_proof := bytes;
  de_shard_proof b := Some b; de_core_vk b := Some b; de_deferred b := Some b;
  de_zkm_proof b := match b with
                    | Byte.x00 :: b => Some (Compressed (mkReduceProof tt b))
                    | Byte.x01 :: b => Some (Groth16 b)
                    | _ => Some OtherProof end;
  ser_zkm_proof p := match p with
                     | Compressed p => Byte.x00 :: rp_proof p
                     | Groth16 b => Byte.x01 :: b | OtherProof => [Byte.x02] end
|}.

(** The program of a circuit is one letter, its witness the proofs, and it runs to
    them. *)
Definition reduced_texts (ps : list reduce_proof) : bytes := concat (rp_proof <$> ps).
#[local] Instance byte_recursion_prover : RecursionProver := {|
  rec_program := bytes; rec_record := bytes; witness_block := Byte.byte;
  merkle_witness := bytes;
  make_merkle_proofs ps _ := reduced_texts ps;
  write_core _ ps _ _ := concat ps; write_deferred d := d; write_merkle w := w;
  recursion_program _ _ _ _ := [Byte.x0a]; deferred_program _ := [Byte.x0b];
  compress_program _ := [Byte.x0c];
  permutation := (); compress_perm := tt;
  runtime_run _ _ w := inr w;
  compress_prover := text_machine bytes () id (const tt)
|}.

(** A program is its text. *)
#[local] Instance byte_prover : CoreProver.
Proof.
  refine {|
  program := bytes;
  get_program b := match b with [] => None | _ => Some b end;
  core_prover := text_machine (PublicValues digest addr_bits * bytes) bytes snd id;
  core_shape_config := None;
  trace_program _ p e := [(pv0, p)];
  deferred_away r := r; record_program r := r.2;
  de_segment := read_back;
  ser_shard_proof p := p;
  ser_core_vk vk := vk; de_inputs b := Some [b];
  receipt := bytes; de_receipt b := Some b;
  receipt_proof r := mkReduceProof tt r;
  trace_cycles _ p e := Z.of_nat (length p);
  runtime := list byte; runtime_new _ _ := [Byte.x0a; Byte.x0b]; shapes := ();
  maximal_core_shapes _ := tt; set_maximal_shapes _ rt := rt; write_vecs _ rt := rt;
  write_proof _ rt := rt;
  execute_state rt := match rt with
                      | [] => None | [e] => Some (e, true, [])
                      | e :: es => Some (e, false, es) end;
  public_values_stream _ := [Byte.x07];
  new_record _ := (pv0, []);
  split_record _ is_done d := if is_done : bool then ([d], (pv0, [])) else ([], d);
  get_recursion_deferred_inputs _ _ ps _ := rp_proof <$> ps;
  ser_deferred d := Byte.x01 :: d;
  checkpoints_channel_capacity _ := 1%nat; trace_gen_workers _ := 2%nat;
  core_proof := bytes; prove_core keys elf stdin opts := Ret (inr elf);
  public_values _ := [Byte.x07]; cycles _ := 1;
  compress_core vk p deferred opts := Ret (inr (mkReduceProof tt p));
  shrink p opts := Ret (inr p); shrink_perm := tt; wrap_program := [Byte.x0d];
  outer_vk := bytes; outer_proof := bytes; wrap_prover := text_machine bytes bytes id id;
  wrap_groth16_bn254 r keys := Ret (rp_vk r ++ rp_proof r)
|}.
  done.
Defined.

Definition elf_of (id : string) : bytes := String.list_byte_of_string id.
Definition local_world : @World Sample.external :=
  Sample.world [("p/elf", elf_of "prog"); ("p/0", encode (SState Byte.x0a pv0));
                ("p/in", [Byte.x05])] ["p"; "p/wrap"].
Definition root_ctx : V2.ProveContext :=
  V2.mkProveContext "proof" "prog" 0 "p/elf" "p/0" 0.
Definition split_ctx : V2.SplitContext :=
  V2.mkSplitContext "p" "prog" "p/elf" None 0 "p" "" "p/in" "" "" "".

Definition prog : @program _ _ _ _ byte_prover := elf_of "prog".

(** A node whose caches hold the program and the keys. *)
Definition local_env : Env := ∅.
Definition fresh : Node (E := Sample.external) := node_start local_world local_env.
Definition warm : Node (E := Sample.external) :=
  fresh <| nd_program_cache := lru_push "prog" prog (lru_new 2) |>
    <| nd_key_cache := lru_push "prog" (m_setup core_prover prog) (lru_new 2) |>
    <| nd_wrap_keys := Some (m_setup wrap_prover wrap_program) |>.

(** A worker that can go on goes on before the program. *)
Definition sched : list nat := repeat 1%nat 1000.

Lemma warm_consistent : consistent elf_of warm.
Proof.
  split; cbn.
  - intros id p. intros [[<- <-]|[_ ?]]%lookup_insert_Some; done.
  - intros id k. intros [[<- <-]|[_ ?]]%lookup_insert_Some; [|done]. by eexists.
  - by intros k [= <-].
Qed.

Lemma own_records opts (p : @program _ _ _ _ byte_prover) e r v :
  r ∈ trace_program opts p e → record_program (with_pv v (deferred_away r)) = p.
Proof.
  change (trace_program opts p e) with [(pv0, p)]. by intros ->%list_elem_of_singleton.
Qed.

Definition snark_ctx : SnarkContext := mkSnarkContext 0 "proof" [Byte.x00; Byte.x0a; Byte.x02; Byte.x03] false.

Lemma caches_transparent_witness :
  agree elf_of (λ _ _, True) (root_prove root_ctx (λ _, w_fs local_world) warm)
    (root_prove root_ctx (λ _, w_fs local_world) fresh) ∧
  fst <$> root_prove root_ctx (λ _, w_fs local_world) warm =
    Ret (inr (elf_of "prog" ++ elf_of "prog")) ∧
  agree elf_of (λ _ _, True) (executor_split 2 sched split_ctx warm)
    (executor_split 2 sched split_ctx fresh) ∧
  fst <$> executor_split 2 sched split_ctx warm = Ret (inr (8, 3)) ∧
  agree elf_of (λ _ _, True) (snark_prove "keys" snark_ctx warm)
    (snark_prove "keys" snark_ctx fresh).
Proof.
  destruct (caches_transparent elf_of own_records warm warm_consistent) as (H1&H2&H3&_).
  split_and!; [|vm_compute; reflexivity| |vm_compute; reflexivity|apply H3].
  - apply H1.
    + vm_compute. reflexivity.
    + vm_compute. discriminate.
  - apply H2. vm_compute. reflexivity.
Defined.

Lemma snark_verified_witness :
  ∃ out n', snark_prove "keys" snark_ctx fresh = Ret (inr (true, out), n') ∧
    ∃ p g, reduced_of [Byte.x00; Byte.x0a; Byte.x02; Byte.x03] = Ret p ∧
      snark_of "keys" p 64 g ∧ out = ser_zkm_proof (Groth16 g).
Proof.
  eexists _, _. split; [reflexivity|].
  destruct (snark_verified elf_of fresh "keys" snark_ctx true _ _
    (node_start_consistent elf_of local_world local_env) eq_refl) as (_&_&_&H).
  exact H.
Defined.

(** The segment appears while the prover tries. *)
Definition reads (i : nat) : Fs := mkFs (dir_files "p/segment" (sample_exec (i + 60))) {[ "p/segment" ]} ∅.

Lemma segment_read_right_witness :
  fs_read (reads 0) (segment_path "p/segment" 0) = None ∧
  ∃ s, sample_segs !! 0%nat = Some s ∧
    read_segment (segment_path "p/segment" 0) reads 0 MAX_RETRIES = Some s.
Proof.
  split; [vm_compute; reflexivity|]. eexists. split; [reflexivity|].
  apply (segment_read_right (P := byte_prover) read_back_encode 1 "p/segment" sample_es sample_segs sample_last 2
    (λ i, sample_exec (i + 60)) reads 0 _ sample_splittable).
  - intros i. apply sample_reached_all.
  - intros i. unfold reads, fs_read. by rewrite decide_False by set_solver.
  - reflexivity.
  - exists 4%nat. split; [unfold MAX_RETRIES; lia|]. vm_compute. by eexists.
Defined.

Definition agg_ctx : V2.AggContext := V2.mkAggContext [] [[Byte.x02]; [Byte.x03]] false true true false.

Lemma agg_output_accepted_witness :
  fst <$> snark_prove "keys" snark_ctx fresh =
    Ret (inr (true, [Byte.x01; Byte.x0d; Byte.x0a; Byte.x02; Byte.x03])).
Proof.
  destruct (agg_output_accepted (P := byte_prover) ltac:(by intros [[[] ?]| |])
    local_env "keys" agg_ctx _ snark_ctx fresh eq_refl eq_refl eq_refl)
    as (input&p&Hi&Hc&_&Hs).
  rewrite Hs. cbn in Hi. injection Hi as <-. cbn in Hc. injection Hc as <-. reflexivity.
Defined.

(** A split with one proof on the input. *)
Definition task_ctx : V2.SplitContext :=
  V2.mkSplitContext "p" "prog" "p/elf" None 64 "p/segment" "" "p/in" "" "" "p/in".
Definition task_world : @World Sample.external :=
  Sample.world [("p/elf", elf_of "prog"); ("p/in", [Byte.x05])] ["p"; "p/wrap"; "p/segment"].
Definition task_node : Node (E := Sample.external) := node_start task_world local_env.
#[local] Instance task_splitter : Splitter :=
  splitter (P := byte_prover) prog (m_setup core_prover prog).2 [[Byte.x05]] 64.
Definition task_segs : list Segment :=
  match sequential (Sp := task_splitter) sample_es pv_reset record_new with
  | Ret r => r.1 | Panic => [] end.
Definition task_last : PublicValues digest addr_bits :=
  match sequential (Sp := task_splitter) sample_es pv_reset record_new with
  | Ret r => r.2 | Panic => pv0 end.

Lemma task_runs :
  split_task elf_of task_node task_ctx 2 sched ([[Byte.x05]], [[Byte.x05]]) prog 64
    sample_es [Byte.x07] task_segs task_last.
Proof.
  split.
  - reflexivity.
  - intros [w ? ? ? ? ?] Hm. cbn in Hm. subst w. reflexivity.
  - reflexivity.
  - reflexivity.
  - split; [done|done| |by split; vm_compute|by split; vm_compute].
    split; [by vm_compute|done| |].
    + intros q name [-> _]%child_name_Some. reflexivity.
    + intros d name Hd. change (d ∈ ({["p"; "p/wrap"; "p/segment"]} : gset string)) in Hd.
      rewrite !elem_of_union, !elem_of_singleton in Hd. by destruct Hd as [[->| ->]| ->].
  - by exists None.
  - split; [by eexists|done|reflexivity|]. unfold few_deferred. cbn. lia.
  - by vm_compute.
  - cbn. lia.
  - cbn. lia.
  - vm_compute. lia.
Qed.

(** The task as the stage sends it. *)
Definition sent_task : SplitTask :=
  SplitTask_default <| st_program_id := "prog" |> <| st_base_dir := "p" |>
    <| st_elf_path := "p/elf" |> <| st_seg_path := "p/segment" |> <| st_seg_size := 64 |>
    <| st_private_input_path := "p/in" |> <| st_recepit_inputs_path := "p/in" |>.

(** The node's answer, as the client records it. *)
Definition served_task : SplitTask :=
  ProverClient.split sent_task (ProverPool.Replied "n0"
    (split_elf2 (P := pipeline_provers (Pipeline_new "" "keys") task_node 2 sched
                        (λ _, w_fs task_world)) None (ProverClient.split_request sent_task))).
Definition served_stage : Stage := Stage_new split_generate <| stage_split_task := served_task |>.

(** Three segments and one deferred proof become four tasks. *)
Lemma split_task_served_witness :
  st_state served_task = TASK_STATE_SUCCESS ∧ st_total_segments served_task = 3 ∧
  ∃ n' s' m, executor_split 2 sched task_ctx task_node = Ret (inr (8, 3), n') ∧
    gen_prove_task_post (E := Sample.external) feature_prover_v2 served_stage (nd_world n') =
      Ret (s', bump m (nd_world n')) ∧
    tasks_of_split task_segs task_last (nd_world n') (stage_prove_tasks s') ∧
    length (stage_prove_tasks s') = 4%nat ∧
    fs_read (w_fs (nd_world n')) "p/wrap/public_values.bin" = Some [Byte.x07].
Proof.
  destruct (split_task_served elf_of (Pipeline_new "" "keys") task_node sent_task "n0" None 2 sched
    (λ _, w_fs task_world) _ prog 64 sample_es [Byte.x07] task_segs task_last
    (node_start_consistent elf_of _ _) task_runs eq_refl)
    as (Hstate&Hsteps&Hsegs&n'&Hrun&_&Hgen&_&Hpv).
  split; [exact Hstate|]. split; [exact Hsegs|].
  destruct (Hgen served_stage (nd_world n') _ eq_refl eq_refl eq_refl eq_refl) as (s'&m&Hs'&Ht).
  { by intros k p. }
  exists n', s', m. split; [rewrite Hsteps, Hsegs in Hrun; exact Hrun|].
  split; [exact Hs'|]. split; [exact Ht|]. split; [|by apply Hpv].
  destruct Ht as (proves&defs&->&Hproves&_&Hdefs&_).
  rewrite length_app, <-(Forall2_length _ _ _ Hproves), <-(Forall2_length _ _ _ Hdefs).
  vm_compute. reflexivity.
Defined.

(** The first segment of the split. *)
Definition first_segment : Segment :=
  SState (Byte.x0a : exe_state) (mkPublicValues () Z 1 1 0 7 () () 0 0 0 0).

(** The task of that segment, sent while the file is not there yet. *)
Definition early_task : ProveTask :=
  ProveTask_default <| pt_program_id := "prog" |> <| pt_segment := "p/segment/0" |>
    <| pt_program := mkProgram 0 "p/elf" [] None 0 [] [] 0 false [] "" [] |>.
Definition proved_task : ProveTask :=
  ProverClient.prove early_task (ProverPool.Replied "n0"
    (handle_prove2 (P := pipeline_provers (Pipeline_new "" "keys") fresh 2 sched reads) None
       (ProverClient.prove_request early_task))).

Lemma prove_task_served_witness :
  fs_read (reads 0) "p/segment/0" = None ∧
  pt_state proved_task = TASK_STATE_SUCCESS ∧ pt_output proved_task = elf_of "prog" ++ elf_of "prog".
Proof.
  split; [vm_compute; reflexivity|].
  destruct (prove_task_served (P := byte_prover) elf_of own_records read_back_encode 1 "p/segment"
    sample_es sample_segs sample_last 2 (λ i, sample_exec (i + 60)) (Pipeline_new "" "keys") fresh
    early_task "n0" None 2 sched reads 0 first_segment sample_splittable) as [Hdone _].
  - intros i. apply sample_reached_all.
  - reflexivity.
  - vm_compute. reflexivity.
  - intros i. unfold reads, fs_read. by rewrite decide_False by set_solver.
  - apply node_start_consistent.
  - reflexivity.
  - done.
  - apply Hdone. exists 4%nat. split; [unfold MAX_RETRIES; lia|]. vm_compute. by eexists.
Defined.
