(* ===== verification/AggPred.v ===== *)
(** * AggPred: properties of aggregation tasks that every run keeps

    The counterpart of TaskPred: a property of a single aggregation task that survives
    being handed out, being answered and no longer waiting, and that generated tasks
    have, holds of every aggregation task in every reachable state of a run, and of
    every task a turn hands out. *)

From S2P Require Import Prelude Text Proto World Tasks Stage AggGraph StageInv StageGen.
From S2P Require Import StageOps StageSteps Database ProverPool ProverClient Worker.
From S2P Require Import WorkerInv WorkerRun SegmentRun.

Class AggPred `{E : !External} (feature : Feature) (Q : AggTask → Prop) : Prop := {
  ap_dispatched now t : Q t → is_ready_state (at_state t) = true → Q (dispatched_agg now t);
  ap_reply now r err t : Q t → at_state t = TASK_STATE_PROCESSING →
    Q (on_task now r t err).1.2;
  ap_childs cs t : Q t → Q (t <| at_childs := cs |>);
  ap_generated s w s' w' : gen_agg_tasks feature s w = Ret (s', w') →
    Forall Q (stage_agg_tasks s) → Forall Q (stage_agg_tasks s')
}.

Section agg_pred.
Context `{E : !External} `{J : !Json} `{C : !Client} (feature : Feature).
Context (Q : AggTask → Prop) `{HQ : !AggPred feature Q}.

Abbreviation all_Q s := (Forall Q (stage_agg_tasks s)).

(** ** Waiting *)

Lemma clear_child_in_Q id T : Forall Q T → Forall Q (clear_child_in id T).
Proof.
  induction 1 as [|t T Ht HT IH]; [constructor|]. cbn [clear_child_in].
  assert (Q (clear_child_task id t).2) as Hc.
  { unfold clear_child_task. destruct (_ =? _); [|done].
    destruct (clear_child _ _). by apply ap_childs. }
  destruct (clear_child_task id t) as [[|] t']; by constructor.
Qed.
Lemma foldl_clear_Q ids T :
  Forall Q T → Forall Q (foldl (λ T id, clear_child_in id T) T ids).
Proof.
  revert T. induction ids as [|id ids IH]; intros T HT; [done|]. apply IH.
  by apply clear_child_in_Q.
Qed.
Lemma clear_if_Q b id T : Forall Q T → Forall Q (clear_if b id T).
Proof. intros HT. destruct b; [by apply clear_child_in_Q|done]. Qed.

(** ** Generation *)

Lemma gen_prove_task_agg s w s' w' :
  gen_prove_task s w = Ret (s', w') → stage_agg_tasks s' = stage_agg_tasks s.
Proof.
  unfold gen_prove_task. destruct (_ || _); [by intros [<- _]%M_mret_Ret|].
  intros (s1&w1&H1&H2)%M_bind_Ret. assert (stage_agg_tasks s1 = stage_agg_tasks s) as <-.
  { destruct (stage_prove_tasks s); [|by apply M_mret_Ret in H1 as [<- _]].
    by apply M_bind_Ret in H1 as (ts&w2&_&[<- _]%M_mret_Ret). }
  apply M_bind_Ret in H2 as ([n|]&w2&_&H2); [|by apply M_mret_Ret in H2 as [<- _]].
  by apply M_bind_Ret in H2 as (ts&w3&_&[<- _]%M_mret_Ret).
Qed.

Lemma gen_prove_task_post_agg s w s' w' :
  gen_prove_task_post feature s w = Ret (s', w') → stage_agg_tasks s' = stage_agg_tasks s.
Proof.
  clear HQ. unfold gen_prove_task_post. intros (s1&w1&H1&H2)%M_bind_Ret.
  assert (stage_agg_tasks s1 = stage_agg_tasks s) as <-.
  { unfold complete_prove_tasks in H1. destruct (_ <? _);
      [by apply M_mret_Ret in H1 as [<- _]|].
    by apply M_bind_Ret in H1 as (ts&w2&_&[<- _]%M_mret_Ret). }
  destruct feature; [by destruct (_ <? 2); apply M_mret_Ret in H2 as [<- _]|].
  apply M_bind_Ret in H2 as (fs&w2&_&H2). apply M_bind_Ret in H2 as (files&w3&_&H2).
  by apply M_bind_Ret in H2 as (ts&w4&_&[<- _]%M_mret_Ret).
Qed.

Lemma dispatch_agg_Q s w s' w' : dispatch feature s w = Ret (s', w') → all_Q s → all_Q s'.
Proof.
  intros H HT. unfold dispatch in H. destruct (stage_step s).
  - apply M_bind_Ret in H as (s1&w1&H1&[<- _]%M_mret_Ret). unfold gen_split_task in H1.
    apply M_bind_Ret in H1 as (u&w2&_&H1).
    by apply M_bind_Ret in H1 as (id&w3&_&[<- _]%M_mret_Ret).
  - by apply M_mret_Ret in H as [<- _].
  - unfold dispatch_prove in H. apply M_bind_Ret in H as (s1&w1&H1%gen_prove_task_agg&H).
    rewrite <-H1 in HT.
    destruct (_ && _); [|by apply finish_prove_same in H as (_&_&_&_&->&_)].
    case_decide; [by apply M_mret_Ret in H as [<- _]|].
    apply M_bind_Ret in H as (s2&w2&(s3&w3&T&H3&HT3&->)%on_split_done_parts&H).
    apply finish_prove_same in H as (_&_&_&_&->&_). simpl. apply foldl_clear_Q.
    apply gen_prove_task_post_agg in H3. rewrite <-H3 in HT.
    destruct (gt_composite_proof _); [by subst|].
    destruct HT3 as (s4&w4&Hg&->). by eapply ap_generated.
  - apply M_bind_Ret in H as (u&w1&_&H).
    by apply M_bind_Ret in H as (s1&w2&(t&->&_)%gen_snark_task_frame&[<- _]%M_mret_Ret).
  - apply M_mret_Ret in H as [<- _]. by case_match.
  - by apply M_mret_Ret in H as [<- _].
Qed.

(** ** Handing out *)

(** The task handed out is a stored one that was ready, with filled inputs. *)
Definition handed_out (now : Z) (T : list AggTask) (t : AggTask) : Prop :=
  ∃ t0 ins, t0 ∈ T ∧ is_ready_state (at_state t0) = true ∧ Q (dispatched_agg now t0) ∧
    Forall2 same_input (at_inputs t0) ins ∧
    t = dispatched_agg now t0 <| at_inputs := ins |>.

Lemma fill_input_same s i i' : fill_input s i = Ret i' → same_input i i'.
Proof. unfold fill_input. by intros (o&_&[= <-])%bind_Ret. Qed.
Lemma fill_inputs_same s l k : mapM (fill_input s) l = Ret k → Forall2 same_input l k.
Proof.
  revert k. induction l as [|i l IH]; intros k; simpl; [intros [= <-]; constructor|].
  intros (i'&Hi&H)%bind_Ret. apply bind_Ret in H as (k'&Hk&[= <-]).
  constructor; [by eapply fill_input_same|by apply IH].
Qed.

Lemma get_agg_task_Q now s r s' :
  get_agg_task now s = Ret (r, s') → all_Q s →
  all_Q s' ∧ (∀ t, r = Some t → handed_out now (stage_agg_tasks s) t).
Proof.
  intros H HT. unfold get_agg_task in H. rewrite pick_agg_update in H.
  set (test := λ t, negb (has_child t) && is_ready_state (at_state t)) in H.
  assert (Forall Q (update_first test (dispatched_agg now) (stage_agg_tasks s))) as HT'.
  { apply update_first_Forall; [|done]. intros t _ Ht [_ Hr]%andb_true_iff.
    by apply ap_dispatched. }
  destruct (find_first test (stage_agg_tasks s)) as [t0|] eqn:Hf; simpl in H.
  - apply bind_Ret in H as (ins&Hins&[= <- <-]). split; [done|]. intros t [= <-].
    apply find_first_Some in Hf as [Hin [_ Hr]%andb_true_iff].
    exists t0, ins. split_and!; [done..| |by eapply fill_inputs_same|done].
    apply ap_dispatched; [|done]. by eapply Forall_forall in HT.
  - injection H as <- <-. split; [done|]. by intros t [=].
Qed.

Lemma get_prove_task_agg fs now s :
  stage_agg_tasks (get_prove_task fs now s).2 = stage_agg_tasks s.
Proof. unfold get_prove_task. by destruct (pick_prove _ _ _). Qed.

Lemma spawn_tasks_agg_Q now s w tasks s' w' :
  spawn_tasks now s w = Ret ((tasks, s'), w') → all_Q s →
  all_Q s' ∧ ∀ t, TAgg t ∈ tasks → handed_out now (stage_agg_tasks s) t.
Proof.
  unfold spawn_tasks. destruct (stage_step s).
  1-2,4,6: intros [[= <- <-] _]%M_mret_Ret; set_solver.
  - destruct (get_split_task_later now s) as (_&_&ET&_).
    destruct (get_split_task now s) as [sp s1]. simpl in ET. intros H HT.
    rewrite <-ET in HT |- *. clear ET.
    apply M_bind_Ret in H as (w1&w1'&_&H).
    set (b := Z.of_nat _ <? _) in H.
    assert (stage_agg_tasks (if b then get_prove_task (w_fs w1) now s1 else (None, s1)).2 =
      stage_agg_tasks s1) as ET2 by (destruct b; [apply get_prove_task_agg|done]).
    destruct (if b then _ else _) as [pr s2]. simpl in ET2. rewrite <-ET2 in HT |- *.
    apply M_bind_Ret in H as ([ag s3]&w3&H3&[[= <- <-] _]%M_mret_Ret).
    destruct (_ && _).
    + apply lift_Ret in H3 as [H3 _]. destruct (get_agg_task_Q _ _ _ _ H3 HT) as [? Ho].
      split; [done|]. intros t Ht. apply Ho. destruct sp, pr, ag; simpl in Ht; set_solver.
    + apply M_mret_Ret in H3 as [[= <- <-] _]. split; [done|].
      intros t Ht. destruct sp, pr; simpl in Ht; set_solver.
  - unfold get_snark_task. destruct (get_task _ _) as [[sn|] ?];
      intros [[= <- <-] _]%M_mret_Ret; set_solver.
Qed.

(** ** Answers *)

Lemma on_answer_agg_Q now r s db w s' db' w' :
  on_answer now r s db w = Ret ((s', db'), w') → all_Q s → all_Q s'.
Proof.
  destruct r as [r|r|r|r]; simpl.
  - unfold on_split_task. destruct (on_task _ _ _ _) as [[src dst] err].
    by intros [[= <- _] _]%M_mret_Ret.
  - intros [[= <- _] _]%M_mret_Ret HT. rewrite (proj2 (on_prove_task_lists _ _ _)).
    by apply clear_if_Q.
  - intros ([d s1]&w1&(_&HE&_)%on_agg_task_run&[[= <- _] _]%M_mret_Ret)%M_bind_Ret HT.
    rewrite HE. apply clear_if_Q. unfold reply_agg.
    destruct (find_first _ _) as [t|] eqn:Hf; [|done].
    apply find_first_Some in Hf as [Hin Haw]. apply update_first_Forall; [|done].
    intros _ _ _ _. apply ap_reply; [by eapply Forall_forall in HT|].
    unfold awaits_agg in Haw. by apply andb_true_iff in Haw as [_ ?%Z.eqb_eq].
  - intros ([d s1]&w1&Hon&[[= <- _] _]%M_mret_Ret)%M_bind_Ret.
    unfold on_snark_task in Hon. apply M_bind_Ret in Hon as (u&w2&_&Hon).
    destruct (on_task _ _ _ _) as [[src dst] err]. by apply M_mret_Ret in Hon as [[= _ <-] _].
Qed.

Lemma take_event_agg_Q now ev ws w ws' w' :
  take_event now ev ws w = Ret (Some ws', w') → all_Q (ws_stage ws) → all_Q (ws_stage ws').
Proof.
  destruct ev as [|i e]; simpl; [by intros [[= <-] _]%M_mret_Ret|].
  destruct (_ ≫= _) as [r|]; [|by intros [[=] _]%M_mret_Ret].
  intros ([s1 db1]&w1&Ho&[[= <-] _]%M_mret_Ret)%M_bind_Ret HT. by eapply on_answer_agg_Q.
Qed.

(** ** Runs *)

Lemma loop_turn_agg_Q id ti ws w t w' :
  loop_turn feature id ti ws w = Ret (Some t, w') →
  all_Q (ws_stage ws) → all_Q (ws_stage (turn_state t)).
Proof.
  unfold loop_turn. intros (u&w1&_&H)%M_bind_Ret HT.
  apply M_bind_Ret in H as (ws1&w2&Htop&H). apply M_bind_Ret in H as (u'&w3&_&H).
  unfold loop_top in Htop.
  apply M_bind_Ret in Htop as ([tasks s1]&w4&Hsp&[<- _]%M_mret_Ret).
  destruct (spawn_tasks_agg_Q _ _ _ _ _ _ Hsp HT) as [HT1 _].
  unfold loop_bottom in H. apply M_bind_Ret in H as ([ws2|]&w5&He&H);
    [|by apply M_mret_Ret in H as [[=] _]].
  pose proof (take_event_agg_Q _ _ _ _ _ _ He HT1) as HT2.
  destruct (_ || _); [by apply M_mret_Ret in H as [[= <-] _]|].
  apply M_bind_Ret in H as (s5&w6&Hd&[[= <-] _]%M_mret_Ret). cbn [turn_state].
  destruct (heartbeat_stage id (ti_now_bottom ti) (ws2 <| ws_stage := s5 |>)) as [E1 _].
  simpl in *. rewrite E1. by eapply dispatch_agg_Q.
Qed.

Lemma loop_reaches_agg task g allowed ws w :
  loop_reaches feature task g allowed ws w → all_Q (ws_stage ws).
Proof.
  induction 1 as [now now' db w ws w' Hst|ti ws w ws' w' Hr IH Hal Ht].
  - unfold loop_start in Hst. apply M_bind_Ret in Hst as (s&w1&Hd&[<- _]%M_mret_Ret). simpl.
    eapply dispatch_agg_Q; [exact Hd|constructor].
  - by apply loop_turn_agg_Q in Ht.
Qed.

(** Every aggregation task a turn hands out comes from a task with the property. *)
Lemma loop_hands_out task g allowed ws w now tasks s' w' t :
  loop_reaches feature task g allowed ws w →
  spawn_tasks now (ws_stage ws) w = Ret ((tasks, s'), w') → TAgg t ∈ tasks →
  handed_out now (stage_agg_tasks (ws_stage ws)) t.
Proof.
  intros Hr%loop_reaches_agg Hs Ht. by eapply spawn_tasks_agg_Q in Hs as [_ Ho]; [apply Ho|].
Qed.

End agg_pred.
