(* ===== verification/NodeAgg.v ===== *)
(** * NodeAgg: the aggregation requests of a run fit the nodes

    Feature "prover": every request has the two inputs its handler takes by index.
    Feature "prover_v2": every request has the shape of one of the recursion circuits. *)

From S2P Require Import Prelude Text Proto World Tasks Stage AggGraph StageInv StageGen.
From S2P Require Import StageOps Database ProverPool ProverClient Worker.
From S2P Require Import WorkerInv WorkerRun AggPred NodeService Circuits.

Section node_agg.
Context `{E : !External} `{J : !Json} `{C : !Client}.

(** A reply changes the state, the trace and the output only. *)
Lemma on_task_agg_frame now (r t : AggTask) err :
  ∃ st tr o, (on_task now r t err).1.2 =
    t <| at_state := st |> <| at_trace := tr |> <| at_output := o |>.
Proof.
  unfold on_task. destruct (is_reply_state _);
    [|exists (at_state t), (at_trace t), (at_output t); by destruct t].
  destruct (negb _); simpl.
  - by eexists _, _, _.
  - exists (at_state r), (at_trace t), (at_output t). by destruct t.
Qed.

(** What [for_each] appends has a property of every task it appends. *)
Lemma for_each_Forall {A} (Q : AggTask → Prop) (f : A → Z * list AggTask → M (Z * list AggTask))
    l acc w acc' w' :
  (∀ x acc w acc' w', x ∈ l → f x acc w = Ret (acc', w') →
     ∃ t, acc'.2 = acc.2 ++ [t] ∧ Q t) →
  for_each f l acc w = Ret (acc', w') → Forall Q acc.2 → Forall Q acc'.2.
Proof.
  revert acc w. induction l as [|x l IH]; intros acc w Hf; simpl.
  { by intros [<- _]%M_mret_Ret. }
  intros (acc1&w1&H1&H)%M_bind_Ret Hacc.
  destruct (Hf x acc w acc1 w1) as (t&Ht&HQ); [by left|done|].
  eapply IH; [|exact H|]; [intros y ?????; eapply Hf; by right|].
  rewrite Ht. apply Forall_app. by split; [|constructor].
Qed.

Lemma mark_last_final_Forall (Q : AggTask → Prop) T :
  (∀ t, Q t → Q (t <| at_is_final := true |>)) → Forall Q T → Forall Q (mark_last_final T).
Proof.
  intros HQ. destruct T as [|t T _] using rev_ind; [done|]. rewrite mark_last_final_snoc.
  intros [HT Ht]%Forall_app. apply Forall_app. split; [done|].
  apply Forall_singleton. apply HQ. by inversion Ht.
Qed.

(** ** Feature "prover": two inputs *)

Definition two_inputs (t : AggTask) : Prop :=
  at_state t = TASK_STATE_SUCCESS ∨ length (at_inputs t) = 2%nat.

Lemma leaf_pair_two tasks i acc w acc' w' :
  leaf_pair tasks i acc w = Ret (acc', w') → ∃ t, acc'.2 = acc.2 ++ [t] ∧ two_inputs t.
Proof.
  destruct acc as [k l]. unfold leaf_pair. intros (a&w1&_&H)%M_bind_Ret.
  apply M_bind_Ret in H as (b&w2&_&H). apply M_bind_Ret in H as (t&w3&Ht&[<- _]%M_mret_Ret).
  unfold init_from_two_prove_task in Ht. apply M_bind_Ret in Ht as (id&w4&_&[<- _]%M_mret_Ret).
  eexists. split; [done|by right].
Qed.
Lemma node_pair_two tasks i acc w acc' w' :
  node_pair tasks i acc w = Ret (acc', w') → ∃ t, acc'.2 = acc.2 ++ [t] ∧ two_inputs t.
Proof.
  destruct acc as [k l]. unfold node_pair. intros (a&w1&_&H)%M_bind_Ret.
  apply M_bind_Ret in H as (b&w2&_&H). apply M_bind_Ret in H as (t&w3&Ht&[<- _]%M_mret_Ret).
  unfold init_from_two_agg_task in Ht. apply M_bind_Ret in Ht as (id&w4&_&[<- _]%M_mret_Ret).
  eexists. split; [done|by right].
Qed.

Lemma upper_layers_two fuel i all result w r w' :
  upper_layers fuel i all result w = Ret (r, w') → Forall two_inputs all →
  Forall two_inputs r.
Proof.
  revert i all result w. induction fuel as [|fuel IH]; intros i all result w; simpl;
    (destruct (_ <=? 1)%nat; [by intros [<- _]%M_mret_Ret|]); [done|].
  intros ([k new]&w1&Hn&H)%M_bind_Ret Hall. apply M_bind_Ret in H as (c&w2&_&H).
  eapply IH; [exact H|]. apply Forall_app. split; [done|].
  apply (for_each_Forall two_inputs) in Hn; [done|intros; by eapply node_pair_two|constructor].
Qed.

#[export] Instance two_inputs_kept : AggPred feature_prover two_inputs.
Proof.
  split.
  - intros now t [Hs|Ht] Hr; [by rewrite Hs in Hr|by right].
  - intros now r err t [Hs|Ht] Hp; [by rewrite Hs in Hp|].
    destruct (on_task_agg_frame now r t err) as (st&tr&o&->). by right.
  - by intros cs t [|]; [left|right].
  - intros s w s' w'. cbn [gen_agg_tasks]. unfold gen_agg_tasks_prover.
    destruct (stage_prove_tasks s) as [|p l]; [done|].
    intros ([i r]&w1&H1&H)%M_bind_Ret HT.
    apply M_bind_Ret in H as (all&w2&H2&[<- _]%M_mret_Ret). simpl.
    apply mark_last_final_Forall; [intros t [|]; [by left|by right]|].
    eapply upper_layers_two; [exact H2|]. apply Forall_app. split; [done|].
    unfold first_layer in H1. apply M_bind_Ret in H1 as ([k result]&w3&Hf&H1).
    apply (for_each_Forall two_inputs) in Hf; [|intros; by eapply leaf_pair_two|constructor].
    simpl in Hf. case_match; [|by apply M_mret_Ret in H1 as [[= <- <-] _]].
    apply M_bind_Ret in H1 as (last&w4&_&[[= <- <-] _]%M_mret_Ret).
    apply Forall_app. split; [done|]. apply Forall_singleton. by left.
Qed.

(** [C32] Feature "prover": the node takes the first two inputs of an aggregation
    request by index, outside the task whose panics are caught.  In every reachable
    state of a run every aggregation task that is handed out has exactly two inputs,
    so its handler answers, with the receipts in their order. *)
Theorem agg_handler_answers `{P : !Provers1} task g allowed ws w now tasks s' w' t
    payload locked :
  loop_reaches feature_prover task g allowed ws w →
  spawn_tasks now (ws_stage ws) w = Ret ((tasks, s'), w') → TAgg t ∈ tasks →
  ∃ i0 i1 r, at_inputs t = [i0; i1] ∧
    V1.agg_context (aggregate_request t) =
      Ret {| V1.ac_seg_size := at_seg_size t;
             V1.ac_receipt_path1 := ai_receipt_input i0;
             V1.ac_receipt_path2 := ai_receipt_input i1;
             V1.ac_is_agg_1 := ai_is_agg i0; V1.ac_is_agg_2 := ai_is_agg i1;
             V1.ac_is_final := at_is_final t |} ∧
    handle_aggregate1 payload locked (aggregate_request t) = Some r.
Proof.
  intros Hr Hs Ht. destruct (loop_hands_out feature_prover two_inputs _ _ _ _ _ _ _ _ _ _ Hr Hs Ht)
    as (t0&ins&_&_&[Hst|Hlen]&Hins&->); [done|].
  apply Forall2_length in Hins. simpl in Hlen.
  destruct ins as [|i0 [|i1 [|]]]; simpl in Hins; try lia.
  exists i0, i1. eexists. by split_and!.
Qed.

(** ** Feature "prover_v2": the circuits *)

Record circuit_inputs (t : AggTask) : Prop := {
  ci_from_prove : at_from_prove t = false;
  ci_leaf : at_is_leaf_layer t = true → ∃ i, at_inputs t = [i] ∧ ai_is_agg i = false;
  ci_node : at_is_leaf_layer t = false →
    at_inputs t ≠ [] ∧ (length (at_inputs t) ≤ 2)%nat ∧
    Forall (λ i, ai_is_agg i = true) (at_inputs t)
}.

Lemma circuit_inputs_same t t' :
  at_from_prove t' = at_from_prove t → at_is_leaf_layer t' = at_is_leaf_layer t →
  at_inputs t' = at_inputs t → circuit_inputs t → circuit_inputs t'.
Proof. intros E1 E2 E3 []. split; by rewrite ?E1, ?E2, ?E3. Qed.

Lemma on_task_circuit now r t err :
  circuit_inputs t → circuit_inputs (on_task now r t err).1.2.
Proof.
  destruct (on_task_agg_frame now r t err) as (st&tr&o&->). by apply circuit_inputs_same.
Qed.

Lemma batch_length {A} n (l b : list A) :
  (0 < n)%nat → b ∈ chunks n l → b ≠ [] ∧ (length b ≤ n)%nat.
Proof.
  intros Hn Hb. split.
  - by eapply Forall_forall in Hb; [|apply chunks_nonempty].
  - revert Hb. unfold chunks. generalize (length l). intros fuel. revert l.
    induction fuel as [|fuel IH]; intros [|x l]; simpl; try by intros ?%elem_of_nil.
    intros [->|Hb]%elem_of_cons; [|by eapply IH]. rewrite length_take. lia.
Qed.

Lemma leaf_batch_circuit vk complete (nb : nat * list ProveTask) acc w acc' w' :
  length nb.2 = 1%nat → leaf_batch vk complete nb acc w = Ret (acc', w') →
  ∃ t, acc'.2 = acc.2 ++ [t] ∧ circuit_inputs t.
Proof.
  destruct nb as [n [|p [|]]], acc as [k acc]; try done. intros _. unfold leaf_batch.
  intros (t&w1&Ht&[<- _]%M_mret_Ret)%M_bind_Ret. exists t. split; [done|].
  unfold init_from_prove_tasks in Ht. apply M_bind_Ret in Ht as (id&w2&_&Ht).
  apply M_bind_Ret in Ht as (first&w3&_&[<- _]%M_mret_Ret). simpl. split; try done.
  intros _. by eexists.
Qed.
Lemma deferred_batch_circuit vk complete p acc w acc' w' :
  deferred_batch vk complete p acc w = Ret (acc', w') →
  ∃ t, acc'.2 = acc.2 ++ [t] ∧ circuit_inputs t.
Proof.
  destruct acc as [k l]. unfold deferred_batch.
  intros (t&w1&Ht&[<- _]%M_mret_Ret)%M_bind_Ret. exists t. split; [done|].
  unfold init_from_prove_tasks in Ht. apply M_bind_Ret in Ht as (id&w2&_&Ht).
  apply M_bind_Ret in Ht as (first&w3&_&[<- _]%M_mret_Ret). simpl. split; try done.
  intros _. by eexists.
Qed.
Lemma node_batch_circuit b acc w acc' w' :
  b ≠ [] → (length b ≤ 2)%nat → Forall circuit_inputs b →
  node_batch b acc w = Ret (acc', w') → ∃ t, acc'.2 = acc.2 ++ [t] ∧ circuit_inputs t.
Proof.
  intros Hne Hlen Hb. destruct acc as [k l]. unfold node_batch.
  intros (t&w1&Ht&[<- _]%M_mret_Ret)%M_bind_Ret. exists t. split; [done|].
  unfold init_from_agg_tasks in Ht. apply M_bind_Ret in Ht as (id&w2&_&Ht).
  apply M_bind_Ret in Ht as (first&w3&_&[<- _]%M_mret_Ret). split; simpl; try done.
  intros _. split_and!; [by destruct b|by rewrite length_fmap|].
  apply Forall_fmap. eapply Forall_impl; [exact Hb|]. intros u [Hu _ _]. simpl. by rewrite Hu.
Qed.

Lemma first_layer_circuit vk P w k r w' :
  first_layer_v2 vk P w = Ret ((k, r), w') → Forall circuit_inputs r.
Proof.
  unfold first_layer_v2. intros ([k1 r1]&w1&H1&H2)%M_bind_Ret.
  apply (for_each_Forall circuit_inputs) in H1; [|clear|constructor].
  - apply (for_each_Forall circuit_inputs) in H2; [done| |done].
    intros; by eapply deferred_batch_circuit.
  - intros nb acc w acc' w' (i&b&->&Hb)%elem_of_lookup_imap.
    apply leaf_batch_circuit. simpl. apply list_elem_of_lookup_2 in Hb.
    apply (batch_length FIRST_LAYER_BATCH_SIZE) in Hb as [Hne Hlen];
      [|unfold FIRST_LAYER_BATCH_SIZE; lia].
    unfold FIRST_LAYER_BATCH_SIZE in Hlen. destruct b; [done|]. simpl in *. lia.
Qed.

Lemma upper_layers_circuit fuel i all result w r w' :
  upper_layers_v2 fuel i all result w = Ret (r, w') →
  Forall circuit_inputs all → Forall circuit_inputs result → Forall circuit_inputs r.
Proof.
  revert i all result w. induction fuel as [|fuel IH]; intros i all result w; simpl;
    (destruct (_ <=? 1)%nat; [by intros [<- _]%M_mret_Ret|]); [done|].
  intros ([k new]&w1&Hn&H)%M_bind_Ret Hall Hres.
  assert (Forall circuit_inputs new) as Hnew.
  { apply (for_each_Forall circuit_inputs) in Hn; [done| |constructor].
    intros b acc w2 acc' w3 Hb.
    destruct (batch_length batch_size result b) as [Hne Hlen]; [unfold batch_size; lia|done|].
    apply node_batch_circuit; [done|done|]. apply Forall_forall. intros u Hu.
    eapply Forall_forall; [exact Hres|].
    rewrite <-(concat_chunks batch_size result) by (unfold batch_size; lia).
    apply list_elem_of_In, in_concat. exists b. by rewrite <-!list_elem_of_In. }
  eapply IH; [exact H| |done]. by apply Forall_app.
Qed.

#[export] Instance circuit_inputs_kept : AggPred feature_prover_v2 circuit_inputs.
Proof.
  split.
  - intros now t Ht _. by eapply circuit_inputs_same, Ht.
  - intros now r err t Ht _. by apply on_task_circuit.
  - intros cs t Ht. by eapply circuit_inputs_same, Ht.
  - intros s w s' w'. cbn [gen_agg_tasks]. unfold gen_agg_tasks_prover_v2.
    intros (vk&w1&_&H)%M_bind_Ret HT. apply M_bind_Ret in H as (vk'&w2&_&H).
    apply M_bind_Ret in H as ([i r]&w3&H1%first_layer_circuit&H).
    apply M_bind_Ret in H as (all&w4&H2&[<- _]%M_mret_Ret). simpl.
    apply mark_last_final_Forall; [intros t Ht; by eapply circuit_inputs_same, Ht|].
    eapply upper_layers_circuit; [exact H2| |done]. by apply Forall_app.
Qed.

Section fits.
Context `{R : !Recursion}.

(** The receipts of a task are of the kind its layer reads. *)
Definition readable (t : AggTask) : Prop :=
  if at_is_leaf_layer t then
    if at_is_deferred t
    then Forall (λ i, is_Some (de_deferred (ai_receipt_input i))) (at_inputs t)
    else Forall (λ i, is_Some (de_shard_proof (ai_receipt_input i))) (at_inputs t) ∧
         is_Some (de_core_vk (at_vk t))
  else Forall (λ i, ∃ p, de_zkm_proof (ai_receipt_input i) = Some (Compressed p)) (at_inputs t).

(** The witness a task asks for: one shard proof, one deferred proof, or the proofs of
    one or two tasks below, in order; "complete" is the final task. *)
Inductive fits (t : AggTask) :
    Witness → Prop :=
  | fits_core i p vk :
      at_is_leaf_layer t = true → at_is_deferred t = false →
      at_inputs t = [i] → ai_is_agg i = false →
      de_shard_proof (ai_receipt_input i) = Some p → de_core_vk (at_vk t) = Some vk →
      fits t (Core vk [p] (at_is_final t) (at_is_first_shard t))
  | fits_deferred i d :
      at_is_leaf_layer t = true → at_is_deferred t = true →
      at_inputs t = [i] → ai_is_agg i = false →
      de_deferred (ai_receipt_input i) = Some d → fits t (Deferred d)
  | fits_compress ps :
      at_is_leaf_layer t = false → ps ≠ [] → (length ps ≤ 2)%nat →
      Forall (λ i, ai_is_agg i = true) (at_inputs t) →
      Forall2 (λ i p, de_zkm_proof (ai_receipt_input i) = Some (Compressed p))
        (at_inputs t) ps →
      fits t (Compress ps (at_is_final t)).

Lemma mapM_reduced (l : list AggregateInput) :
  Forall (λ i, ∃ p, de_zkm_proof (ai_receipt_input i) = Some (Compressed p)) l →
  ∃ ps, mapM reduced_of (ai_receipt_input <$> l) = Ret ps ∧
    Forall2 (λ i p, de_zkm_proof (ai_receipt_input i) = Some (Compressed p)) l ps.
Proof.
  induction 1 as [|i l [p Hp] _ (ps&Hps&HF)]; [by exists []|].
  exists (p :: ps). split; [|by constructor].
  assert (reduced_of (ai_receipt_input i) = Ret p) as Hr by (unfold reduced_of; by rewrite Hp).
  rewrite fmap_cons. cbn [mapM]. by rewrite Hr, Hps.
Qed.

Lemma circuit_witness_fits t :
  circuit_inputs t → readable t →
  ∃ x, circuit_witness (V2.agg_context (aggregate_request t)) = Ret (inr x) ∧ fits t x.
Proof.
  intros [_ Hl Hn]. unfold readable, circuit_witness. simpl.
  destruct (at_is_leaf_layer t) eqn:Hleaf.
  - destruct (Hl eq_refl) as (i&Hi&Ha). rewrite Hi. destruct (at_is_deferred t) eqn:Hd.
    + intros [[d Hde] _]%Forall_cons. simpl. rewrite Hde. simpl. eexists.
      split; [done|]. by eapply fits_deferred.
    + intros [[[p Hp] _]%Forall_cons [vk Hvk]]. simpl. rewrite Hp. simpl. rewrite Hvk.
      eexists. split; [done|]. by eapply fits_core.
  - destruct (Hn eq_refl) as (Hne&Hlen&Ha). intros (ps&Hps&HF)%mapM_reduced.
    rewrite Hps. simpl. eexists. split; [done|]. pose proof (Forall2_length _ _ _ HF).
    apply fits_compress; try done; [|by lia].
    intros ->. by destruct (at_inputs t).
Qed.

(** [C31] Feature "prover_v2": in every reachable state of a run every aggregation
    task that is handed out has the shape of one of the circuits: a leaf carries one
    prove receipt, an inner task the receipts of one or two tasks below it.  When the
    receipts decode as what its layer reads, [AggProver] builds exactly that circuit's
    witness without a panic, marked complete exactly for the final task. *)
Theorem agg_circuit_fits task g allowed ws w now tasks s' w' t :
  loop_reaches feature_prover_v2 task g allowed ws w →
  spawn_tasks now (ws_stage ws) w = Ret ((tasks, s'), w') → TAgg t ∈ tasks →
  (at_is_leaf_layer t = true → ∃ i, at_inputs t = [i] ∧ ai_is_agg i = false) ∧
  (at_is_leaf_layer t = false → (1 ≤ length (at_inputs t) ≤ 2)%nat ∧
     Forall (λ i, ai_is_agg i = true) (at_inputs t)) ∧
  (readable t → ∃ x,
     circuit_witness (V2.agg_context (aggregate_request t)) = Ret (inr x) ∧ fits t x).
Proof.
  intros Hr Hs Ht.
  destruct (loop_hands_out feature_prover_v2 circuit_inputs _ _ _ _ _ _ _ _ _ _ Hr Hs Ht)
    as (t0&ins&_&_&Hq&Hins&->).
  assert (circuit_inputs (dispatched_agg now t0 <| at_inputs := ins |>)) as Hc.
  { destruct Hq as [H1 H2 H3]. split; [done| |].
    - intros Hl. destruct (H2 Hl) as (i&Hi&Ha). simpl in Hi. rewrite Hi in Hins.
      apply Forall2_cons_inv_l in Hins as (i'&?&[_ Hs']&->%Forall2_nil_inv_l&->).
      exists i'. split; [done|]. congruence.
    - intros Hl. destruct (H3 Hl) as (Hne&Hlen&Ha). simpl in *.
      rewrite <-(Forall2_length _ _ _ Hins). split_and!; [|done|].
      + intros ->. apply Forall2_nil_inv_r in Hins. done.
      + clear -Ha Hins. induction Hins as [|i i' ?? [? E] _ IH]; [constructor|].
        apply Forall_cons in Ha as [? ?]. constructor; [congruence|auto]. }
  split_and!; [apply Hc| |by apply circuit_witness_fits].
  intros Hl. destruct (ci_node _ Hc Hl) as (Hne&Hlen&Ha). split; [|done].
  simpl in *. destruct ins; simpl in *; [done|lia].
Qed.

End fits.

End node_agg.
