(* ===== verification/NodeThms.v ===== *)
(** * NodeThms: what a node answers, and what the stage makes of it

    [NodeApi] is what a prover node promises to the client: every response carries a
    result that says OK, BUSY or an internal error.  The handlers of both features
    keep the promise whatever their provers do; a run served by such nodes never
    stalls.  The mutex of feature "prover" is the other subject. *)

From S2P Require Import Prelude Text Proto World Tasks Stage AggGraph StageInv Database.
From S2P Require Import ProverPool ProverClient Worker WorkerInv WorkerRun RunThms RunSample.
From S2P Require Import NodeService.

(** ** The interface *)

Definition answered (o : option RpcResult) : Prop :=
  ∃ c m, o = Some (mkRpcResult (ResultCode_i32 c) m) ∧ (c = Ok ∨ c = Busy ∨ c = InternalError).

(** The responses a node may give to a request. *)
Class NodeApi := {
  node_split : SplitElfRequest → SplitElfResponse → Prop;
  node_prove : ProveRequest → ProveResponse → Prop;
  node_aggregate : AggregateRequest → AggregateResponse → Prop;
  node_snark : SnarkProofRequest → SnarkProofResponse → Prop;
  node_single : SingleNodeRequest → SingleNodeResponse → Prop;
  node_split_code q r : node_split q r → answered (sr_result r);
  node_prove_code q r : node_prove q r → answered (vr_result r);
  node_aggregate_code q r : node_aggregate q r → answered (gr_result r);
  node_snark_code q r : node_snark q r → answered (nr_result r);
  node_single_code q r : node_single q r → answered (or_result r)
}.

Lemma on_done_answered {A} (x : string + (bool * A)) : answered (Some (on_done x)).
Proof. destruct x as [e|[[|] a]]; eexists _, _; split; eauto. Qed.

(** The laws hold of responses that report a result. *)
Lemma aggregate1_answered `{P : !Provers1} payload locked q r :
  handle_aggregate1 payload locked q = Some r → answered (gr_result r).
Proof.
  unfold handle_aggregate1. intros H. case_match; simplify_eq. apply on_done_answered.
Qed.

Lemma split_answered x : answered (sr_result (split_response x)).
Proof. destruct x as [e|p]; [|destruct p as [p n]; destruct p]; apply on_done_answered. Qed.
Lemma single_none (q : SingleNodeRequest) r :
  handle_single_node1 q = Some r → answered (or_result r).
Proof. done. Qed.
Lemma single_answered `{P : !Provers2} payload q r :
  handle_single_node2 payload q = Some r → answered (or_result r).
Proof. intros H. injection H as <-. apply on_done_answered. Qed.

Ltac answered_by := intros; cbv beta in *; repeat match goal with H : ∃ _, _ |- _ => destruct H end;
  subst; first [apply on_done_answered | apply split_answered
    | by eapply aggregate1_answered | by eapply single_none | by eapply single_answered].

(** Nodes of feature "prover", whatever their mutex and their provers do. *)
Definition node_api1 `{P : !Provers1} : NodeApi := {|
  node_split q r := ∃ payload, r = split_elf1 payload q;
  node_prove q r := ∃ payload locked, r = handle_prove1 payload locked q;
  node_aggregate q r := ∃ payload locked, handle_aggregate1 payload locked q = Some r;
  node_snark q r := ∃ payload locked, r = handle_snark1 payload locked q;
  node_single q r := handle_single_node1 q = Some r;
  node_split_code := ltac:(answered_by);
  node_prove_code := ltac:(answered_by);
  node_aggregate_code := ltac:(answered_by);
  node_snark_code := ltac:(answered_by);
  node_single_code := ltac:(answered_by)
|}.

(** Nodes of feature "prover_v2". *)
Definition node_api2 `{P : !Provers2} : NodeApi := {|
  node_split q r := ∃ payload, r = split_elf2 payload q;
  node_prove q r := ∃ payload, r = handle_prove2 payload q;
  node_aggregate q r := ∃ payload, r = handle_aggregate2 payload q;
  node_snark q r := ∃ payload, r = handle_snark2 payload q;
  node_single q r := ∃ payload, handle_single_node2 payload q = Some r;
  node_split_code := ltac:(answered_by);
  node_prove_code := ltac:(answered_by);
  node_aggregate_code := ltac:(answered_by);
  node_snark_code := ltac:(answered_by);
  node_single_code := ltac:(answered_by)
|}.

(** ** What the client makes of an answer *)

Section client.
Context `{N : !NodeApi}.

(** A call that a node answers ends with success, with a new attempt or with a failure,
    never with a task that is still "processing". *)
Lemma answered_state o c : answered o → rr_code <$> o = Some c →
  result_code_to_state c = TASK_STATE_SUCCESS ∨
  result_code_to_state c = TASK_STATE_UNPROCESSED ∨
  result_code_to_state c = TASK_STATE_FAILED.
Proof. intros (k&m&->&[-> | [-> | ->]]) [= <-]; auto. Qed.

Lemma answered_reply o c : answered o → rr_code <$> o = Some c →
  is_reply_state (result_code_to_state c) = true.
Proof. intros Ho Hc. by destruct (answered_state _ _ Ho Hc) as [-> | [-> | ->]]. Qed.

(** How a call may end for a task: a node's response to its request, or none. *)
Definition served_end (t : Task) (e : TaskEnd) : Prop :=
  match t, e with
  | TSplit t, ESplit (Replied _ r) => node_split (split_request t) r
  | TProve t, EProve (Replied _ r) => node_prove (prove_request t) r
  | TAgg t, EAgg (Replied _ r) => node_aggregate (aggregate_request t) r
  | TSnark t, ESnark (Replied _ r) => node_snark (snark_request t) r
  | TSplit _, ESplit _ | TProve _, EProve _ | TAgg _, EAgg _ | TSnark _, ESnark _ => True
  | _, _ => False
  end.
Definition served (ti : TurnInput) : Prop :=
  match ti_event ti with Tick => True | Answers _ e => ∃ t, served_end t e end.

Lemma served_settles ti : served ti → turn_settles ti.
Proof.
  unfold served, turn_settles. destruct (ti_event ti) as [|i e]; [done|].
  intros [t0 Ht0] t r. destruct t, e as [e|e|e|e]; simpl; intros Hr; simplify_eq; try done;
    destruct t0; try done; simpl in Ht0 |- *.
  - unfold prove. destruct e; try done. simpl.
    destruct (node_prove_code _ _ Ht0) as (c&m&Ho&Hc). rewrite Ho. simpl.
    by eapply (answered_reply (vr_result r)); [eexists _, _; by split|by rewrite Ho].
  - unfold aggregate. destruct e; try done. simpl.
    destruct (node_aggregate_code _ _ Ht0) as (c&m&Ho&Hc). rewrite Ho. simpl.
    by eapply (answered_reply (gr_result r)); [eexists _, _; by split|by rewrite Ho].
Qed.

(** [C20] With the nodes of this repository a run never stalls: whatever the provers
    behind them return, however often they panic, are busy or cannot be reached, in
    every reachable state of the proving step in which the tasks are generated, nothing
    is in flight and the segment files are there, the next turn hands out a task. *)
Theorem served_run_progress `{E : !External} `{J : !Json} `{F : !UuidFresh}
    feature task g ws w now :
  gt_from_step g = Init → 0 < gt_max_prover_num g →
  loop_reaches feature task g served ws w →
  stage_step (ws_stage ws) = Prove → stage_is_tasks_gen_done (ws_stage ws) = true →
  ws_inflight ws = [] →
  (∀ p, p ∈ stage_prove_tasks (ws_stage ws) → pt_state p ≠ TASK_STATE_SUCCESS →
     fs_exists (w_fs w) (pt_segment p) = true) →
  ∃ tasks s', spawn_tasks now (ws_stage ws) w = Ret ((tasks, s'), w) ∧ tasks ≠ [].
Proof. intros. by apply (settled_run_progress feature task g served ws w now served_settles). Qed.

End client.

(** From the prover to the task: what the client makes of the response a
    handler builds from a prover's result.  A proof is a success with the prover's
    receipt, "busy" leaves the task ready for another attempt, an error or a panic
    (caught by [run_back_task]) is a failure; a split succeeds exactly when at least one
    step was executed, with the prover's counts. *)
Theorem answer_of_prover payload addr (r : Proved (bool * bytes)) (rs : Proved (bool * Z * Z))
    (t : ProveTask) (a : AggTask) (s : SplitTask) :
  (let p := prove t (Replied addr (prove_response (run_back_task payload r))) in
   let g := aggregate a (Replied addr (aggregate_response (run_back_task payload r))) in
   match r with
   | Ret (inr (done, receipt)) =>
       pt_state p = (if done then TASK_STATE_SUCCESS else TASK_STATE_UNPROCESSED) ∧
       at_state g = (if done then TASK_STATE_SUCCESS else TASK_STATE_UNPROCESSED) ∧
       pt_output p = receipt ∧ at_output g = receipt
   | Ret (inl _) | Panic =>
       pt_state p = TASK_STATE_FAILED ∧ at_state g = TASK_STATE_FAILED ∧
       pt_output p = [] ∧ at_output g = []
   end ∧ pt_task_id p = pt_task_id t ∧ at_task_id g = at_task_id a) ∧
  (let p := split s (Replied addr (split_response (run_back_task payload rs))) in
   match rs with
   | Ret (inr (done, steps, segments)) =>
       st_state p = (if (0 <? steps) && done then TASK_STATE_SUCCESS
                     else TASK_STATE_UNPROCESSED) ∧
       st_total_steps p = steps ∧ st_total_segments p = segments
   | Ret (inl _) | Panic =>
       st_state p = TASK_STATE_FAILED ∧ st_total_steps p = 0 ∧ st_total_segments p = 0
   end).
Proof.
  cbv zeta. split.
  - destruct r as [x|]; [destruct x as [e|x]; [|destruct x as [d b]; destruct d]|];
      by split_and!.
  - destruct rs as [x|]; [destruct x as [e|x]; [|destruct x as [x n]; destruct x as [d k]]|];
      try by split_and!.
    simpl. destruct (0 <? k), d; by split_and!.
Qed.

(** ** The mutex of feature "prover" *)

Section mutex.
Context `{P : !Provers1}.

Definition node1_reachable (n : Node1) : Prop := rtc node1_step node1_init n.
Definition proving (n : Node1) (i : nat) : Prop := ∃ j, n1_calls n !! i = Some (j, Proving).
Definition panicked (n : Node1) : Prop := ∃ i j, n1_calls n !! i = Some (j, Back Panic).

Record mutex_inv (n : Node1) : Prop := {
  mi_one : ∀ i i', proving n i → proving n i' → i = i';
  mi_locked : n1_mutex n = Locked ↔ ∃ i, proving n i;
  mi_poison : n1_mutex n = Poisoned ↔ panicked n
}.

(** A step changes one call, or adds one that has not met the mutex. *)
Lemma lookup_call_insert (cs : list (Job1 * Phase1)) i x y k ph :
  cs !! i = Some x → <[i := y]> cs !! k = Some ph ↔
  k = i ∧ ph = y ∨ k ≠ i ∧ cs !! k = Some ph.
Proof.
  intros Hi. destruct (decide (k = i)) as [->|Hk].
  - rewrite list_lookup_insert_eq by (by eapply lookup_lt_Some). naive_solver.
  - rewrite list_lookup_insert_ne by done. naive_solver.
Qed.

Lemma lookup_call_snoc (cs : list (Job1 * Phase1)) y k ph :
  (cs ++ [y]) !! k = Some ph ↔ cs !! k = Some ph ∨ k = length cs ∧ ph = y.
Proof.
  rewrite lookup_app_Some, list_lookup_singleton_Some. split.
  - intros [?|(?&?&->)]; [by left|]. right. split; [lia|done].
  - intros [?|[-> ->]]; [by left|]. right. split_and!; [done|lia|done].
Qed.

Lemma proving_insert m m' cs i x j ph k :
  cs !! i = Some x →
  proving (mkNode1 m' (<[i := (j, ph)]> cs)) k ↔
  k = i ∧ ph = Proving ∨ k ≠ i ∧ proving (mkNode1 m cs) k.
Proof.
  intros Hi. unfold proving. simpl. setoid_rewrite (lookup_call_insert _ _ _ _ _ _ Hi).
  naive_solver.
Qed.
Lemma panicked_insert m m' cs i x j ph :
  cs !! i = Some x → (∀ r, x.2 ≠ Back r) →
  panicked (mkNode1 m' (<[i := (j, ph)]> cs)) ↔ ph = Back Panic ∨ panicked (mkNode1 m cs).
Proof.
  intros Hi Hx. unfold panicked. simpl. setoid_rewrite (lookup_call_insert _ _ _ _ _ _ Hi).
  split; [naive_solver|]. intros [->|(k&j'&Hk)]; [naive_solver|].
  exists k, j'. right. split; [|done]. intros ->. rewrite Hi in Hk. injection Hk as ->.
  by apply (Hx Panic).
Qed.
Lemma proving_snoc m cs j k :
  proving (mkNode1 m (cs ++ [(j, Arrived)])) k ↔ proving (mkNode1 m cs) k.
Proof. unfold proving. simpl. setoid_rewrite lookup_call_snoc. naive_solver. Qed.
Lemma panicked_snoc m cs j :
  panicked (mkNode1 m (cs ++ [(j, Arrived)])) ↔ panicked (mkNode1 m cs).
Proof. unfold panicked. simpl. setoid_rewrite lookup_call_snoc. naive_solver. Qed.

Lemma mutex_inv_step n n' : mutex_inv n → node1_step n n' → mutex_inv n'.
Proof.
  intros [H1 H2 H3]. destruct 1 as [m cs j|m m' cs i j Hi Hm|m cs i j Hi Hm|m cs i j Hi];
    simpl in *.
  - split; simpl; setoid_rewrite proving_snoc || rewrite panicked_snoc; done.
  - destruct m; try done. injection Hm as <-.
    assert (∀ k, ¬ proving (mkNode1 Unlocked cs) k) as Hno
      by (intros k Hk; assert (Unlocked = Locked) by (apply H2; by eexists); done).
    assert (¬ panicked (mkNode1 Unlocked cs)) as Hnp
      by (intros Hp; apply H3 in Hp; done).
    split; simpl.
    + intros k k' Hk Hk'. apply (proving_insert Unlocked _ _ _ _ _ _ _ Hi) in Hk, Hk'.
      naive_solver.
    + split; [intros _; exists i; apply (proving_insert Unlocked _ _ _ _ _ _ _ Hi); by left|done].
    + rewrite (panicked_insert Unlocked _ _ _ _ _ _ Hi) by done. naive_solver.
  - assert (¬ proving (mkNode1 m cs) i) as Hni.
    { intros [j' Hj']. simpl in Hj'. rewrite Hi in Hj'. done. }
    split; simpl.
    + intros k k' Hk Hk'. apply (proving_insert m _ _ _ _ _ _ _ Hi) in Hk, Hk'. naive_solver.
    + rewrite H2. setoid_rewrite (proving_insert m _ _ _ _ _ _ _ Hi). split.
      * intros [k Hk]. exists k. right. split; [|done]. by intros ->.
      * naive_solver.
    + rewrite H3. rewrite (panicked_insert m _ _ _ _ _ _ Hi) by done. naive_solver.
  - assert (proving (mkNode1 m cs) i) as Hpi by (by exists j).
    assert (m = Locked) as -> by (apply H2; by eexists).
    assert (¬ panicked (mkNode1 Locked cs)) as Hnp by (intros Hp; apply H3 in Hp; done).
    assert (∀ k, ¬ proving (mkNode1 (drop_guard (prove1 j))
      (<[i:=(j, Back (prove1 j))]> cs)) k) as Hno.
    { intros k Hk. apply (proving_insert Locked _ _ _ _ _ _ _ Hi) in Hk as [[_ ?]|[Hk Hk']];
        [done|]. by apply Hk, H1. }
    split; simpl.
    + intros k k' Hk. by apply Hno in Hk.
    + split; [by destruct (prove1 j)|]. intros [k Hk]. by apply Hno in Hk.
    + rewrite (panicked_insert Locked _ _ _ _ _ _ Hi) by done.
      destruct (prove1 j); simpl; naive_solver.
Qed.

Lemma mutex_inv_reachable n : node1_reachable n → mutex_inv n.
Proof.
  intros Hr. assert (mutex_inv node1_init) as Hi.
  { split; simpl; unfold proving, panicked; simpl; naive_solver. }
  revert Hi. unfold node1_reachable in Hr. induction Hr; [done|].
  intros Hi. by eapply IHHr, mutex_inv_step.
Qed.

(** A poisoned mutex stays poisoned, and every call that comes back found it so. *)
Lemma poisoned_steps n n' :
  n1_mutex n = Poisoned → mutex_inv n → rtc node1_step n n' →
  n1_mutex n' = Poisoned ∧
  ∀ i j r, n1_calls n' !! i = Some (j, Back r) →
    n1_calls n !! i = Some (j, Back r) ∨ r = busy_reply.
Proof.
  intros Hm Hi Hs. revert Hm Hi. induction Hs as [n|n n1 n' Hst _ IH]; intros Hm Hi; [auto|].
  pose proof (mutex_inv_step _ _ Hi Hst) as Hi1.
  assert (n1_mutex n1 = Poisoned ∧ ∀ i j r, n1_calls n1 !! i = Some (j, Back r) →
    n1_calls n !! i = Some (j, Back r) ∨ r = busy_reply) as [Hm1 Hc1].
  { destruct Hst as [m cs j|m m' cs i j Hl Ht|m cs i j Hl Ht|m cs i j Hl]; simpl in *; subst.
    - split; [done|]. intros k j' r Hk. apply lookup_call_snoc in Hk. naive_solver.
    - done.
    - split; [done|]. intros k j' r Hk. apply (lookup_call_insert _ _ _ _ _ _ Hl) in Hk.
      naive_solver.
    - assert (Poisoned = Locked) by (apply (mi_locked _ Hi); by exists i, j). done. }
  destruct (IH Hm1 Hi1) as [Hm' Hc']. split; [done|]. intros i j r Hr.
  destruct (Hc' _ _ _ Hr) as [?|?]; auto.
Qed.

(** [C23] One proof at a time, until a prover panics: in every reachable state of a
    node of feature "prover", under any interleaving of its calls, at most one prover
    runs, and none when a call of the mutex would succeed. *)
Theorem one_proof_at_a_time n :
  node1_reachable n →
  (∀ i i', proving n i → proving n i' → i = i') ∧
  (p1_get_status n = true → ∀ i, ¬ proving n i) ∧
  (n1_mutex n = Poisoned ↔ panicked n).
Proof.
  intros [H1 H2 H3]%mutex_inv_reachable. split_and!; [done| |done].
  intros Hs%bool_decide_eq_true i Hi. assert (n1_mutex n = Locked) as Hl by (apply H2; eauto).
  by rewrite Hs in Hl.
Qed.


End mutex.
