(* ===== verification/NodeSample.v ===== *)
(** * NodeSample: runs served by concrete nodes

    The sample proof of RunSample with the responses of real handlers, under both
    features, and a node of feature "prover" whose prover panics. *)

From S2P Require Import Prelude Text Proto World Tasks Stage AggGraph Database.
From S2P Require Import ProverPool ProverClient Worker WorkerInv WorkerRun RunSample.
From S2P Require Import RunThms RetrySample NodeService NodeThms Machine Circuits NodeAgg.

(** ** The provers: a receipt is the path of its segment, or two receipts in a row *)

#[export] Instance sample_provers1 : Provers1 := {|
  split1 _ := Ret (inr (10, 2));
  root1 c := if String.eqb (V1.pc_segment c) "bad" then Panic
             else Ret (inr (true, text (V1.pc_segment c)));
  agg1 c := Ret (inr (true, V1.ac_receipt_path1 c ++ V1.ac_receipt_path2 c));
  snark1 c := Ret (inr (true, xc_agg_receipt c))
|}.
#[export] Instance sample_provers2 : Provers2 := {|
  split2 _ := Ret (inr (10, 2));
  root2 c := Ret (inr (text (V2.pc_segment c)));
  agg2 c := Ret (inr (concat (V2.ac_proofs c)));
  snark2 c := Ret (inr (true, xc_agg_receipt c));
  single2 _ := Ret (inr (10, []))
|}.

Definition segment_no (no : string) : ProveTask :=
  ProveTask_default <| pt_segment := "p/segment/" +:+ no |>.

(** The split, then the two segments, answered by nodes. *)
Definition node_turns (feature : Feature) : list TurnInput :=
  match feature with
  | feature_prover =>
      [ sample_turn 101 (Answers 0 (ESplit (Replied "n0"
          (split_elf1 None (split_request SplitTask_default)))));
        sample_turn 102 (Answers 0 (EProve (Replied "n0"
          (handle_prove1 None false (prove_request (segment_no "0"))))));
        sample_turn 103 (Answers 0 (EProve (Replied "n1"
          (handle_prove1 None false (prove_request (segment_no "1")))))) ]
  | feature_prover_v2 =>
      [ sample_turn 101 (Answers 0 (ESplit (Replied "n0"
          (split_elf2 None (split_request SplitTask_default)))));
        sample_turn 102 (Answers 0 (EProve (Replied "n0"
          (handle_prove2 None (prove_request (segment_no "0"))))));
        sample_turn 103 (Answers 0 (EProve (Replied "n1"
          (handle_prove2 None (prove_request (segment_no "1")))))) ]
  end.

(** The run of a feature over its turns. *)
Definition node_run (feature : Feature) : outcome (option Turn * World) :=
  match loop_start feature sample_task sample_request 100 100 sample_db sample_world with
  | Ret (ws, w) => run_loop feature (stg_id sample_task) (node_turns feature) ws w
  | Panic => Panic
  end.
Definition node_ws (feature : Feature) : WorkerState :=
  match node_run feature with Ret (Some (Continue ws), _) => ws | _ => sample_empty end.
Definition node_w (feature : Feature) : World :=
  match node_run feature with Ret (_, w) => w | Panic => sample_world end.

Definition sample_api (feature : Feature) : NodeApi :=
  match feature with feature_prover => node_api1 | feature_prover_v2 => node_api2 end.

Lemma node_turns_served feature : Forall (served (N := sample_api feature)) (node_turns feature).
Proof.
  destruct feature; repeat constructor; unfold served; simpl.
  - exists (TSplit SplitTask_default). by eexists.
  - exists (TProve (segment_no "0")). by eexists _, _.
  - exists (TProve (segment_no "1")). by eexists _, _.
  - exists (TSplit SplitTask_default). by eexists.
  - exists (TProve (segment_no "0")). by eexists.
  - exists (TProve (segment_no "1")). by eexists.
Qed.

Lemma node_run_reaches feature :
  node_run feature = Ret (Some (Continue (node_ws feature)), node_w feature) →
  loop_reaches feature sample_task sample_request (served (N := sample_api feature))
    (node_ws feature) (node_w feature).
Proof.
  unfold node_run at 1. destruct (loop_start _ _ _ _ _ _ _) as [[ws w]|] eqn:Hs; [|done].
  apply (run_loop_reaches feature sample_task); [|apply node_turns_served].
  by apply (reach_start _ _ _ _ 100 100 sample_db sample_world).
Qed.

Lemma node_reaches1 :
  loop_reaches feature_prover sample_task sample_request
    (served (N := sample_api feature_prover)) (node_ws feature_prover) (node_w feature_prover).
Proof. apply node_run_reaches. vm_compute. reflexivity. Qed.
Lemma node_reaches2 :
  loop_reaches feature_prover_v2 sample_task sample_request
    (served (N := sample_api feature_prover_v2)) (node_ws feature_prover_v2)
    (node_w feature_prover_v2).
Proof. apply node_run_reaches. vm_compute. reflexivity. Qed.

(** ** The theorems on these runs *)

Lemma node_step1 : stage_step (ws_stage (node_ws feature_prover)) = Prove.
Proof. vm_compute. reflexivity. Qed.
Lemma node_gen1 : stage_is_tasks_gen_done (ws_stage (node_ws feature_prover)) = true.
Proof. vm_compute. reflexivity. Qed.
Lemma node_idle1 : ws_inflight (node_ws feature_prover) = [].
Proof. vm_compute. reflexivity. Qed.
Lemma node_files1 p : p ∈ stage_prove_tasks (ws_stage (node_ws feature_prover)) →
  pt_state p ≠ TASK_STATE_SUCCESS → fs_exists (w_fs (node_w feature_prover)) (pt_segment p) = true.
Proof. intros Hp _. revert p Hp. apply Forall_forall. vm_compute. repeat constructor. Qed.

Lemma served_run_progress_witness :
  ∃ tasks s', spawn_tasks 200 (ws_stage (node_ws feature_prover)) (node_w feature_prover) =
    Ret ((tasks, s'), node_w feature_prover) ∧ tasks ≠ [].
Proof.
  exact (served_run_progress (N := sample_api feature_prover) feature_prover sample_task
    sample_request (node_ws feature_prover) (node_w feature_prover) 200 eq_refl eq_refl
    node_reaches1 node_step1 node_gen1 node_idle1 node_files1).
Defined.

(** What the next turn hands out. *)
Definition node_spawn (feature : Feature) : outcome ((list Task * Stage) * World) :=
  spawn_tasks 200 (ws_stage (node_ws feature)) (node_w feature).
Definition node_tasks (feature : Feature) : list Task :=
  match node_spawn feature with Ret ((l, _), _) => l | Panic => [] end.
Definition node_stage (feature : Feature) : Stage :=
  match node_spawn feature with
  | Ret ((_, s), _) => s
  | Panic => Stage_new sample_request
  end.
Definition node_agg (feature : Feature) : AggTask :=
  match node_tasks feature with TAgg t :: _ => t | _ => AggTask_default end.

Lemma node_spawn_eq1 :
  spawn_tasks 200 (ws_stage (node_ws feature_prover)) (node_w feature_prover) =
  Ret ((node_tasks feature_prover, node_stage feature_prover), node_w feature_prover).
Proof. vm_compute. reflexivity. Qed.
Lemma node_spawn_eq2 :
  spawn_tasks 200 (ws_stage (node_ws feature_prover_v2)) (node_w feature_prover_v2) =
  Ret ((node_tasks feature_prover_v2, node_stage feature_prover_v2), node_w feature_prover_v2).
Proof. vm_compute. reflexivity. Qed.
Lemma node_agg_in1 : TAgg (node_agg feature_prover) ∈ node_tasks feature_prover.
Proof. vm_compute. left. Qed.
Lemma node_agg_in2 : TAgg (node_agg feature_prover_v2) ∈ node_tasks feature_prover_v2.
Proof. vm_compute. left. Qed.

Lemma agg_handler_answers_witness :
  ∃ i0 i1 r, at_inputs (node_agg feature_prover) = [i0; i1] ∧
    V1.agg_context (aggregate_request (node_agg feature_prover)) =
      Ret {| V1.ac_seg_size := at_seg_size (node_agg feature_prover);
             V1.ac_receipt_path1 := ai_receipt_input i0;
             V1.ac_receipt_path2 := ai_receipt_input i1;
             V1.ac_is_agg_1 := ai_is_agg i0; V1.ac_is_agg_2 := ai_is_agg i1;
             V1.ac_is_final := at_is_final (node_agg feature_prover) |} ∧
    handle_aggregate1 None false (aggregate_request (node_agg feature_prover)) = Some r.
Proof.
  exact (agg_handler_answers sample_task sample_request _ (node_ws feature_prover)
    (node_w feature_prover) 200 (node_tasks feature_prover) (node_stage feature_prover)
    (node_w feature_prover) (node_agg feature_prover) None false node_reaches1
    node_spawn_eq1 node_agg_in1).
Defined.

(** A circuit prover that takes every receipt for what is expected. *)
#[export] Instance sample_recursion : Recursion := {|
  shard_proof := bytes; core_vk := bytes; deferred_witness := bytes;
  inner_vk := (); inner_proof := bytes; groth16_proof := bytes;
  de_shard_proof b := Some b; de_core_vk b := Some b; de_deferred b := Some b;
  de_zkm_proof b := Some (Compressed (mkReduceProof tt b));
  ser_zkm_proof p := match p with Compressed p => rp_proof p | Groth16 b => b | _ => [] end
|}.

Lemma agg_circuit_fits_witness :
  (at_is_leaf_layer (node_agg feature_prover_v2) = true →
     ∃ i, at_inputs (node_agg feature_prover_v2) = [i] ∧ ai_is_agg i = false) ∧
  (at_is_leaf_layer (node_agg feature_prover_v2) = false →
     (1 ≤ length (at_inputs (node_agg feature_prover_v2)) ≤ 2)%nat ∧
     Forall (λ i, ai_is_agg i = true) (at_inputs (node_agg feature_prover_v2))) ∧
  (readable (node_agg feature_prover_v2) → ∃ x,
     circuit_witness (V2.agg_context (aggregate_request (node_agg feature_prover_v2))) =
       Ret (inr x) ∧ fits (node_agg feature_prover_v2) x).
Proof.
  exact (agg_circuit_fits sample_task sample_request _ (node_ws feature_prover_v2)
    (node_w feature_prover_v2) 200 (node_tasks feature_prover_v2)
    (node_stage feature_prover_v2) (node_w feature_prover_v2) (node_agg feature_prover_v2)
    node_reaches2 node_spawn_eq2 node_agg_in2).
Defined.
(** It asks for the circuit of a single shard proof. *)
Example node_circuit :
  circuit_witness (V2.agg_context (aggregate_request (node_agg feature_prover_v2))) =
  Ret (inr (Core (text "vk") [text "p/segment/1"] false false)).
Proof. vm_compute. reflexivity. Qed.

(** ** A node whose prover panics *)

Definition bad_job : Job1 := JRoot (V1.mkProveContext None 0 "bad" []).
Definition good_job : Job1 := JRoot (V1.mkProveContext None 0 "p/segment/0" []).
Definition node_before : Node1 := mkNode1 Poisoned [(bad_job, Back Panic)].
Definition node_after : Node1 :=
  mkNode1 Poisoned [(bad_job, Back Panic); (good_job, Back busy_reply)].

Lemma node_before_reachable : node1_reachable node_before.
Proof.
  eapply rtc_l; [apply (node1_call Unlocked [] bad_job)|].
  eapply rtc_l; [by apply (node1_enter Unlocked Locked _ 0 bad_job)|].
  eapply rtc_l; [by apply (node1_leave Locked _ 0 bad_job)|]. apply rtc_refl.
Qed.
Lemma node_after_steps : rtc node1_step node_before node_after.
Proof.
  eapply rtc_l; [apply (node1_call Poisoned _ good_job)|].
  eapply rtc_l; [by apply (node1_busy Poisoned _ 1 good_job)|]. apply rtc_refl.
Qed.
Lemma node_before_panicked : panicked node_before.
Proof. by exists 0%nat, bad_job. Qed.

Lemma one_proof_at_a_time_witness :
  (∀ i i', proving node_before i → proving node_before i' → i = i') ∧
  (p1_get_status node_before = true → ∀ i, ¬ proving node_before i) ∧
  (n1_mutex node_before = Poisoned ↔ panicked node_before).
Proof. exact (one_proof_at_a_time node_before node_before_reachable). Defined.

