(* ===== verification/V1Sample.v ===== *)
(** * V1Sample: a program of feature "prover" that runs nine steps

    The executor on a concrete emulator: the segments of a program, the split of a program
    that cannot be read. *)

From S2P Require Import Prelude Text Proto World Tasks ProverPool ProverClient.
From S2P Require Import NodeService RunSample V1Provers.

(** A running program: the steps left, the cycles since the last segment, the steps done,
    the segments written and the input. *)
Record Machine := mkMachine {
  m_left : nat; m_cycles : Z; m_done : Z; m_segments : Z; m_input : list bytes
}.

(** A program is as long as its text; one whose first byte is not 7f does not parse. *)
#[export] Instance nine_steps : @Emulator Sample.external := {|
  State := nat * list bytes;
  InstrumentedState := Machine;
  load_elf b := match b with
                | Byte.x7f :: b => Ret (inr (length b, []))
                | _ => Ret (inl "no ELF magic")
                end;
  push_input b s := (s.1, s.2 ++ [b]);
  set_memory_range _ _ s := Some s;
  get_block_path base_dir no := base_dir +:+ "/" +:+ no;
  instrument s _ := mkMachine s.1 0 0 0 s.2;
  exited i := bool_decide (m_left i = 0%nat);
  step i := (m_cycles i + 1, mkMachine (pred (m_left i)) (m_cycles i + 1) (m_done i + 1)
              (m_segments i) (m_input i));
  split_segment _ (writer : bool) path i :=
    if writer then
      file_write (path +:+ "/" +:+ pretty (m_segments i)) (concat (m_input i));;
      mret (mkMachine (m_left i) 0 (m_done i) (m_segments i + 1) (m_input i))
    else mret i;
  total_step := m_done;
  pre_segment_id := m_segments;
  public_values_stream i := concat (m_input i);
  dump_memory _ := mret tt;
  de_receipt_inputs b := Some [b]
|}.

Definition program_world : @World Sample.external :=
  Sample.world [("p/elf", Byte.x7f :: text "123456789"); ("p/input", text "ab")] ["p"; "p/output"].
Definition split_task (elf private : string) : SplitTask :=
  SplitTask_default <| st_elf_path := elf |> <| st_seg_path := "p/segment" |>
    <| st_private_input_path := private |> <| st_output_path := "p/output/out" |>
    <| st_seg_size := 16 |>.
Definition program_context (elf private : string) : V1.SplitContext :=
  V1.split_context (split_request (split_task elf private)).

(** A segment ends after four of the nine steps, after eight, and with the program. *)
Example executor_split1_sample :
  ∃ w, executor_split1 10 (program_context "p/elf" "p/input") program_world =
         Ret (Some (inr (9, 3)), w) ∧
    fs_read (w_fs w) "p/segment/2" = Some (text "ab") ∧
    fs_read (w_fs w) "p/output/out" = Some (text "ab").
Proof. eexists. split; [vm_compute; reflexivity|]. by vm_compute. Qed.

(** The provers of a node whose splits are the executor's. *)
Definition node_provers (w : World) : Provers1 := {|
  split1 ctx := match executor_split1 10 ctx w with
                | Ret (Some r, _) => Ret r
                | Ret (None, _) => Ret (inl "running")
                | Panic => Panic
                end;
  root1 _ := Panic; agg1 _ := Panic; snark1 _ := Panic
|}.

Lemma node_provers_run ctx w : split_runs (P := node_provers w) 10 ctx w.
Proof.
  unfold split_runs. cbn [split1 node_provers].
  by destruct (executor_split1 10 ctx w) as [[[r|] w']|].
Qed.

Lemma split1_errors_witness :
  let answer elf private :=
    ProverClient.split (split_task elf private) (Replied "n0"
      (split_elf1 (P := node_provers program_world) None
         (split_request (split_task elf private)))) in
  st_state (answer "p/none" empty_str) = TASK_STATE_UNPROCESSED ∧
  st_state (answer "p/input" empty_str) = TASK_STATE_FAILED ∧
  st_state (answer "p/elf" "p/none") = TASK_STATE_FAILED.
Proof.
  intros answer.
  pose proof (λ elf private, split1_errors (P := node_provers program_world) None 10
    (split_request (split_task elf private)) program_world "n0" (split_task elf private)
    (node_provers_run _ _)) as H.
  split; [|split].
  - refine (proj1 (proj1 (H "p/none" empty_str) _)). vm_compute. reflexivity.
  - refine (proj1 (proj2 (H "p/input" empty_str) (text "ab") _) "no ELF magic" eq_refl).
    vm_compute. reflexivity.
  - refine (proj2 (proj2 (H "p/elf" "p/none") (Byte.x7f :: text "123456789") _)
      (9%nat, []) eq_refl _ eq_refl _); [vm_compute; reflexivity|done|vm_compute; reflexivity].
Defined.
